(* ===== verification/_CoqProject ===== *)
-Q . S2P
Prelude.v
Counting.v
Slice.v
Coding.v
Logging.v
Status.v
Comparator.v
DbFormat.v
InternalKeyTypes.v
Hash.v
FilterPolicy.v
Random.v
Crc32c.v
Arena.v
SkipList.v
WeakMemory.v
SkipListWeak.v
HandleTable.v
LRUCache.v
ShardedCache.v
Cache.v
CacheContract.v
CacheAtomic.v
CacheSections.v
CacheThreads.v
Iterator.v
Merger.v
Lookup.v
FileState.v
FileThreads.v
Env.v
MemEnv.v
Limiter.v
Scheduler.v
Port.v
SchedulerThreads.v
PosixFiles.v
PosixEnv.v
PosixReadBack.v
PosixLogger.v
Loggers.v
Singleton.v
EnvServices.v
Options.v
Doubles.v
Histogram.v
