(* ===== verification/Prelude.v ===== *)
(** * Verification of the lldb storage library

    The library under src/ holds the building blocks of a LevelDB-style storage
    engine in C++: byte slices and statuses, codings and checksums, keys and
    comparators, an arena and a skip list (the in-memory table), an LRU block
    cache, filter policies, iterators and their merge, and the environments that
    stand between the engine and files.  This development translates them into
    executable definitions, file by file, and proves what makes them correct.
    Names are those of the source where Rocq allows it; where two classes share a
    method name, the name carries the class ([Mem_Append], [LRU_Insert]).

    ** Conventions

    Bytes are [Byte.byte], buffers and strings are lists of bytes ([bytes]).
    Machine integers are [Z] with their wrap-around written out ([u8], [u32],
    [u64], this file).  Memory that the code reaches through pointers is an
    explicit store: a [gmap] from addresses to records, or a list of bytes for a
    buffer; [mem_read] and [mem_write] (this file) are [memcpy] with its bounds.
    [None] in a result of type [option] is a failed assertion of the source, an
    access outside of an object or to a deleted one, or fuel that ran out: a
    theorem that shows [Some] thereby shows memory safety, and loops on fuel are
    always shown to return with the fuel their callers give.  Operations that hold
    a mutex throughout are one atomic step ([MutexLock_atomic] in Port.v); where the
    source relies on atomics, on publication without a lock, on a condition variable or
    on several mutexes, the model is a transition system of smaller steps.

    ** Parts, in the order of the files

    - Prelude.v: bytes and words, bit lemmas, [memcpy], lemmas on lists; the hint
      database [words].  Counting.v: entries of a map that satisfy a predicate, sums over
      the threads of a list.
    - Slice.v (include/lldb/slice.h): slices, [memcmp], [compare] as lexicographic
      order.
    - Coding.v (util/coding): fixed integers, varints, length-prefixed slices.
      Round trips, exact sets of accepted inputs, bounds of the encodings.
    - Logging.v (util/logging): decimal printing and parsing with the overflow test,
      escaping.
    - Status.v (include/lldb/status.h, util/status.cpp): the block of a status, and
      ownership under copies, moves, assignments and destruction.
    - Comparator.v (include/lldb/comparator.h, util/comparator.cpp): the interface as
      a class with its laws; the bytewise comparator meets them.
    - DbFormat.v, InternalKeyTypes.v (db/dbformat): internal keys, their order over
      any lawful user comparator, [LookupKey]; a typing of the strings that are
      internal keys, which every operation keeps.
    - Hash.v, FilterPolicy.v (util/hash, util/bloom, include/lldb/filter_policy.h):
      the interface with its law, the Bloom filter - no false negatives for any
      number of bits per key - and the wrapper for internal keys.
    - Random.v (util/random.h): the division-free generator is multiplication by
      16807 modulo 2^31-1 and has full period.
    - Crc32c.v (util/crc32c): the table-driven, strided [Extend] is bitwise CRC-32C.
    - Arena.v (util/arena): ranges handed out never overlap; [operator new] is a
      parameter with its documented contract.
    - SkipList.v (memtable/skiplist.h): searches, insertion, iterator; one writer
      interleaved with any number of readers, sequentially consistent.
    - WeakMemory.v, SkipListWeak.v: C++ atomics as histories of messages and views of
      threads, and the skip list on them with the memory orders of the source.
    - HandleTable.v, LRUCache.v, ShardedCache.v (util/cache.cpp, util/cache_impl.h):
      the chained table with its pointer-to-pointer edits refines a set; the cache
      on two circular lists refines lists of handles with reference counts; the
      shards refine one cache each.  [Resize] doubles the table until it holds its
      elements, in 32 bits: the theorems bound the number of entries by 2^31.
    - Cache.v, CacheContract.v (include/lldb/cache.h): the interface as a class, what
      it promises to a client as an automaton on what the client knows, sessions of
      a client, bounded in length by the 32-bit counters; the sharded cache meets it.
    - CacheAtomic.v, CacheSections.v, CacheThreads.v: threads that share the cache; the
      specification with atomic calls, the critical sections of a shard access by
      access, and the refinement, reads of handles without a mutex included.
    - Iterator.v (include/lldb/iterator.h, table/iterator.cpp,
      table/iterator_wrapper.h): the interface with its contract, the empty iterator,
      the wrapper, the cleanup list.
    - Merger.v (table/merger): the merging iterator meets the contract over the
      sorted union of its children, changes of direction included.
    - Lookup.v: what a seek to a [LookupKey] finds, in a skip list of internal keys and
      through the merging iterator.
    - FileState.v, FileThreads.v, MemEnv.v (helper/memenv): files in memory refine
      strings, also when threads share one, by instructions under its two mutexes; the
      environment refines names, contents and open files, with reference counts.
    - Env.v (include/lldb/env.h, util/env.cpp): the interface as a class, what its
      clients need of it as the class [FileLaws], default methods, [EnvWrapper], and
      [WriteStringToFile]/[ReadFileToString], proved against the laws.  MemEnv.v,
      PosixEnv.v and the wrapper are instances.
    - Port.v (port/port.h, util/mutexlock.h): threads over a mutex and a condition
      variable, an instruction at a time, and the reduction of their executions to
      uninterrupted critical sections.
    - Limiter.v, Scheduler.v, SchedulerThreads.v, PosixFiles.v, PosixEnv.v
      (util/env_posix.cpp): resource limits under interleaved atomic instructions; the
      background thread and its queue, in atomic steps and by instructions; the four
      file classes; opening and limits of the environment, and its table of locks under
      interleaved accesses, with the critical sections on either side of a system call.
      System calls are a class [Posix] with the behaviour the code relies on as the
      class [PosixLaws]; a small operating system in PosixFiles.v meets them, a small
      file system in PosixReadBack.v those of [FileSystemLaws].
    - PosixReadBack.v: what was written through the POSIX environment reads back.
    - PosixLogger.v, Loggers.v (util/posix_logger.h, [NewLogger] of both environments,
      [Log]): [Logv] and its two buffers, with [int] arithmetic and the failures of
      [vsnprintf]; what becomes of a message.
    - EnvServices.v (include/lldb/env.h): the rest of the interface - locks, background
      work, threads, clock, loggers - with its three instances; a client cannot tell an
      [EnvWrapper] from its target ([EnvWrapper_transparent]); what the environment in
      memory leaves to its base.
    - Singleton.v (util/no_destructor.h, [SingletonEnv], [Env::Default]): objects made
      once by whichever thread comes first, on the memory of WeakMemory.v.
    - Options.v (include/lldb/options.h): the records of parameters.
    - Doubles.v, Histogram.v (util/histogram): counts and percentiles over IEEE 754
      doubles, exact below 2^53.

    How they interact: DbFormat's comparator and filter wrap any [Comparator] and
    [FilterPolicy] through their classes, as their objects do; the skip list and the
    merger take a [Comparator] with its laws; LRUCache.v works on the table of
    HandleTable.v in the same heap, ShardedCache.v on LRUCache.v through its abstract
    cache and on Hash.v, and is an instance of the class of Cache.v; MemEnv.v builds
    on FileState.v and serves the helpers of Env.v through [FileLaws]; PosixEnv.v
    shares the limiters of Limiter.v with the file objects of PosixFiles.v.

    ** Groups of theorems

    - Interfaces kept: [Cache_contract], [MergingIterator_contract],
      [InternalKeyComparator_contract]; typing: [InternalKeys_typed].
    - Components together: [Snapshot_lookup], [Posix_write_read], [MemEnv_write_read].
    - Refinements of an abstract specification: caches ([LRUCache_refines],
      [ShardedLRUCache_refines], [HandleTable_refines_set]), iterators
      ([MergingIterator_contract], [SkipList_Iterator_spec]), files and environments
      ([FileState_refines_bytes], [InMemoryEnv_names_refine],
      [InMemoryEnv_files_refine], [PosixWritableFile_refines_append]), comparators.
    - Concurrency: [Cache_linearizable], [SkipList_weak_readers],
      [SkipList_concurrent_readers],
      [Limiter_safe], [PosixLockTable_exclusive], [MutexLock_atomic],
      [PosixEnv_threads], [FileState_threads], [Singleton_constructed_once], and the
      liveness of [Schedule_runs_all].
    - Invariants and ownership: [Arena_allocations_disjoint], [Status_ownership],
      [PosixEnv_limits], [SkipList_Insert_sorted], [Histogram_counts].
    - Equivalence with a reference: CRC, generator, operations under a mutex.
    - Round trips: varints, internal keys, prefixed slices, contents of files.
    - Errors, bounds, termination: [DoWriteStringToFile_errors],
      [PosixMmap_Read_bounds], [Logv_writes_line], [Histogram_percentile_range],
      [Posix_loops_terminate].

    ** Fuel

    Searches in the skip list take as many steps as the list has nodes and levels;
    chains and lists of the cache as many as the heap has entries; the loops of
    FileState.v one per byte at most; [Read_fragments] one per byte and one more; the
    loops on interrupted system calls one per pending interruption (and byte); each
    theorem names its bound.

    ** Where the code and its intent differ

    - [InMemoryEnv::RenameFile] of a file to its own name deletes it and returns OK
      ([RenameFile_to_itself] in MemEnv.v).
    - [PosixMmapReadableFile::Read] tests [offset + n] modulo 2^64
      ([PosixMmap_Read_bounds]).
    - [Percentile] of an empty histogram is NaN ([Histogram_percentile_range]).
    - [NewLogger] reads [errno] after a [close] that may change it ([NewLogger_errno] in
      Loggers.v).
    - [UnlockFile] takes the name out of the table before the descriptor is closed: a
      [LockFile] of the same name in between can then lose its lock on the file
      ([UnlockFile_window] in PosixEnv.v).
    - [Logv] takes a negative result of [vsnprintf] for a length: the line loses the end
      of its header ([Logv_writes_line]).
    - A missing file is an IOError in memory where env.h asks for NotFound.
    - Without an override the default [RemoveDir] and [DeleteDir] call each other for
      ever ([dir_calls_loop] in Env.v), as env.h says they do.

    ** Not modelled

    What the functions given to [Schedule] and [StartThread] do; the text that
    [snprintf] makes of the arguments of [Log] (a parameter); sizes and alignment, which
    are static assertions; the lifetime of the bytes a slice points to (a slice is its
    bytes, except where a theorem is about where they lie: arena, buffers, mappings). *)
From stdpp Require Import base list gmap strings numbers sorting.
From Stdlib Require Import ZArith Lia.
From Stdlib Require Import Strings.Byte.

#[local] Open Scope Z_scope.

(** ** Automation *)

(** Resolution hints for the range side conditions of the machine-integer
    lemmas, and rewriting hints that normalise them. *)
Create HintDb words discriminated.
#[export] Hint Constants Opaque : words.
Create Rewrite HintDb words.

(** ** Bytes and machine words *)

(** A [char] buffer is a list of bytes; [b2z] is the [uint8_t] view of a byte
    and [s2z] the (signed) [char] view.  [z2b] is the conversion of an integer
    to an 8-bit type: it keeps the low 8 bits. *)
Abbreviation bytes := (list Byte.byte).

Definition b2z (b : Byte.byte) : Z := Z.of_N (Byte.to_N b).

Definition z2b (z : Z) : Byte.byte :=
  match Byte.of_N (Z.to_N (z mod 256)) with
  | Some b => b
  | None => Byte.x00
  end.

Definition s2z (b : Byte.byte) : Z :=
  if b2z b <? 128 then b2z b else b2z b - 256.

Definition u8 (z : Z) : Z := z mod 2 ^ 8.
Definition u32 (z : Z) : Z := z mod 2 ^ 32.
Definition u64 (z : Z) : Z := z mod 2 ^ 64.

(** A string literal of the source. *)
Definition str (s : string) : bytes := String.list_byte_of_string s.
Arguments str s%_string_scope.

(** Reading byte [i] of a buffer.  The readers of the source that use it have
    a length precondition; a read past the end is undefined behaviour in C++,
    the model returns 0 and no theorem relies on it. *)
Definition byte_at (p : bytes) (i : nat) : Z :=
  match p !! i with Some b => b2z b | None => 0 end.

#[export] Instance byte_eq_dec : EqDecision Byte.byte := Byte.byte_eq_dec.

#[export] Program Instance byte_countable : Countable Byte.byte :=
  inj_countable' Byte.to_N (λ n, default Byte.x00 (Byte.of_N n)) _.
Next Obligation. intros b. simpl. by rewrite Byte.of_to_N. Qed.

#[export] Instance byte_inhabited : Inhabited Byte.byte := populate Byte.x00.

(** All 256 bytes, to decide a property of every byte by computation. *)
Definition all_bytes : bytes := map (λ n, z2b (Z.of_nat n)) (seq 0 256).

Lemma b2z_range b : 0 ≤ b2z b < 256.
Proof.
  unfold b2z. pose proof (Byte.to_N_bounded b). lia.
Qed.

Lemma b2z_inj b1 b2 : b2z b1 = b2z b2 → b1 = b2.
Proof.
  unfold b2z. intros H%N2Z.inj.
  pose proof (Byte.of_to_N b1) as H1. rewrite H, Byte.of_to_N in H1. congruence.
Qed.

#[export] Instance b2z_Inj : Inj (=) (=) b2z := b2z_inj.

Lemma b2z_z2b z : b2z (z2b z) = z mod 256.
Proof.
  unfold z2b, b2z.
  pose proof (Z.mod_pos_bound z 256 eq_refl).
  destruct (Byte.of_N _) as [b|] eqn:E.
  - apply Byte.to_of_N in E. rewrite E. lia.
  - apply Byte.of_N_None_iff in E. lia.
Qed.

Lemma z2b_b2z b : z2b (b2z b) = b.
Proof.
  apply b2z_inj. rewrite b2z_z2b. apply Z.mod_small, b2z_range.
Qed.

Lemma z2b_eq z1 z2 : z1 mod 256 = z2 mod 256 → z2b z1 = z2b z2.
Proof. intros H. apply b2z_inj. by rewrite !b2z_z2b. Qed.

Lemma b2z_z2b_small z : 0 ≤ z < 256 → b2z (z2b z) = z.
Proof. intros. rewrite b2z_z2b. by apply Z.mod_small. Qed.

Lemma u8_range z : 0 ≤ u8 z < 256.
Proof. apply Z.mod_pos_bound. lia. Qed.
Lemma u32_range z : 0 ≤ u32 z < 2 ^ 32.
Proof. apply Z.mod_pos_bound. lia. Qed.
Lemma u64_range z : 0 ≤ u64 z < 2 ^ 64.
Proof. apply Z.mod_pos_bound. lia. Qed.
Lemma u32_small z : 0 ≤ z < 2 ^ 32 → u32 z = z.
Proof. apply Z.mod_small. Qed.
Lemma u64_small z : 0 ≤ z < 2 ^ 64 → u64 z = z.
Proof. apply Z.mod_small. Qed.

#[export] Hint Resolve b2z_range u8_range u32_range u64_range : words.
#[export] Hint Rewrite b2z_z2b z2b_b2z : words.

(** A boolean fact checked on the 256 bytes holds of every byte. *)
Lemma elem_of_all_bytes b : b ∈ all_bytes.
Proof.
  apply list_elem_of_In, in_map_iff. exists (Z.to_nat (b2z b)).
  pose proof (b2z_range b). split.
  - rewrite Z2Nat.id by lia. apply z2b_b2z.
  - apply in_seq. lia.
Qed.

Lemma byte_forallb (f : Byte.byte → bool) :
  forallb f all_bytes = true → ∀ b, f b = true.
Proof.
  intros H b. apply (proj1 (forallb_forall f all_bytes) H).
  apply list_elem_of_In, elem_of_all_bytes.
Qed.

(** ** Bitwise arithmetic *)

(** [zbits] proves an equation between integers built with the bitwise
    operations by comparing bit [i]; [bits_simpl] pushes [Z.testbit] through
    the operations whose side conditions [lia] proves. *)
Lemma testbit_small a n i : 0 ≤ a < 2 ^ n → n ≤ i → Z.testbit a i = false.
Proof.
  intros [H0 H1] Hi.
  destruct (Z.eq_dec a 0) as [->|]; [apply Z.bits_0|].
  apply Z.bits_above_log2; [done|].
  apply Z.log2_lt_pow2; [lia|].
  eapply Z.lt_le_trans; [exact H1|]. apply Z.pow_le_mono_r; lia.
Qed.

Lemma testbit_mod_pow2 a n i :
  0 ≤ n → Z.testbit (a mod 2 ^ n) i = (i <? n) && Z.testbit a i.
Proof.
  intros Hn. destruct (Z.ltb_spec i n); simpl.
  - destruct (Z.ltb_spec i 0).
    + by rewrite !Z.testbit_neg_r by done.
    + apply Z.mod_pow2_bits_low. lia.
  - apply Z.mod_pow2_bits_high. lia.
Qed.

Lemma testbit_shiftl a n i :
  0 ≤ i → Z.testbit (Z.shiftl a n) i = (n <=? i) && Z.testbit a (i - n).
Proof.
  intros Hi. rewrite Z.shiftl_spec by done.
  destruct (Z.leb_spec n i); [done|]. by rewrite Z.testbit_neg_r by lia.
Qed.

Ltac bits_simpl :=
  repeat first
    [ rewrite Z.lor_spec | rewrite Z.land_spec | rewrite Z.lxor_spec
    | rewrite testbit_shiftl by lia | rewrite Z.shiftr_spec by lia
    | rewrite testbit_mod_pow2 by lia
    | rewrite Z.testbit_ones_nonneg by lia ].

Ltac zbits := apply Z.bits_inj'; intros i Hi; bits_simpl.

(** The sum of two words that do not overlap is their bitwise or. *)
Lemma lor_shiftl_add a b n :
  0 ≤ n → 0 ≤ a < 2 ^ n → Z.lor a (Z.shiftl b n) = a + b * 2 ^ n.
Proof.
  intros Hn Ha. rewrite <- Z.shiftl_mul_pow2 by done.
  rewrite Z.add_nocarry_lxor.
  - apply Z.bits_inj'. intros i Hi. bits_simpl.
    destruct (Z.leb_spec n i); [|by destruct (Z.testbit a i)].
    rewrite (testbit_small a n) by lia. by destruct (Z.testbit b _).
  - apply Z.bits_inj'. intros i Hi. bits_simpl. rewrite Z.bits_0.
    destruct (Z.leb_spec n i); [|by rewrite andb_false_r].
    by rewrite (testbit_small a n) by lia.
Qed.

Lemma land_ones_mod a n : 0 ≤ n → Z.land a (2 ^ n - 1) = a mod 2 ^ n.
Proof. intros. rewrite <- Z.land_ones by done. f_equal. rewrite Z.ones_equiv. lia. Qed.

Lemma land_127 a : Z.land a 127 = a mod 128.
Proof. exact (land_ones_mod a 7 ltac:(lia)). Qed.
Lemma land_255 a : Z.land a 255 = a mod 256.
Proof. exact (land_ones_mod a 8 ltac:(lia)). Qed.

(** The continuation bit of a byte. *)
Lemma land_128_byte b : Z.land (b2z b) 128 = 0 ↔ b2z b < 128.
Proof.
  assert (H : Bool.eqb (Z.land (b2z b) 128 =? 0) (b2z b <? 128) = true).
  { revert b. apply byte_forallb. by vm_compute. }
  apply Bool.eqb_prop in H. lia.
Qed.

(** Setting the continuation bit of the low byte of a word. *)
Lemma lor_128_mod a : Z.lor a 128 mod 256 = a mod 128 + 128.
Proof.
  replace (a mod 128 + 128) with (a mod 2 ^ 7 + 1 * 2 ^ 7) by (f_equal; lia).
  rewrite <- lor_shiftl_add by (try apply Z.mod_pos_bound; lia).
  change 256 with (2 ^ 8). zbits.
  change 128 with (Z.shiftl 1 7). rewrite testbit_shiftl by done.
  destruct (Z.ltb_spec i 8), (Z.ltb_spec i 7), (Z.leb_spec 7 i); simpl;
    rewrite ?orb_false_r; try done; try lia.
  - replace i with 7 by lia. apply orb_true_r.
  - symmetry. apply (testbit_small 1 1); lia.
Qed.

Lemma b2z_lor_128 a : b2z (z2b (Z.lor a 128)) = a mod 128 + 128.
Proof. rewrite b2z_z2b. apply lor_128_mod. Qed.

(** ** Lists *)

Lemma elem_of_mid {A} (l1 : list A) x l2 : x ∈ l1 ++ x :: l2.
Proof. apply elem_of_app. right. apply elem_of_cons. by left. Qed.

Lemma sorted_app_lt {A} (R : A → A → Prop) l1 x l2 :
  StronglySorted R (l1 ++ x :: l2) → Forall (λ y, R y x) l1 ∧ Forall (R x) l2.
Proof.
  induction l1 as [|y l1 IH]; simpl; intros H.
  - apply StronglySorted_inv in H as [_ H]. by split; [constructor|].
  - apply StronglySorted_inv in H as [H Hy]. destruct (IH H) as [H1 H2].
    split; [|done]. constructor; [|done].
    rewrite Forall_forall in Hy. apply Hy, elem_of_mid.
Qed.

Lemma sorted_insert {A} (R : A → A → Prop) l1 x l2 :
  StronglySorted R (l1 ++ l2) → Forall (λ y, R y x) l1 → Forall (R x) l2 →
  StronglySorted R (l1 ++ x :: l2).
Proof.
  induction l1 as [|y l1 IH]; simpl; intros H H1 H2.
  - by constructor.
  - apply StronglySorted_inv in H as [H Hy]. apply Forall_cons in H1 as [Hyx H1].
    constructor; [by apply IH|]. apply Forall_app in Hy as [Hy1 Hy2].
    apply Forall_app. split; [done|]. by constructor.
Qed.

(** ** Raw memory *)

(** [std::memcpy] into, and out of, an allocated block at a byte offset;
    [None] is an access outside of the block. *)
Definition mem_write (dst : bytes) (off : nat) (src : bytes) : option bytes :=
  if (off + length src <=? length dst)%nat
  then Some (take off dst ++ src ++ drop (off + length src) dst) else None.

Definition mem_read (src : bytes) (off n : nat) : option bytes :=
  if (off + n <=? length src)%nat then Some (take n (drop off src)) else None.

(** [new char[n]]: [n] bytes of indeterminate value. *)
Definition new_bytes (junk : nat → Byte.byte) (n : nat) : bytes := junk <$> seq 0 n.

Lemma length_new_bytes junk n : length (new_bytes junk n) = n.
Proof. unfold new_bytes. by rewrite length_fmap, length_seq. Qed.

Lemma mem_read_ok s o n : (o + n <= length s)%nat → mem_read s o n = Some (take n (drop o s)).
Proof. intros H. unfold mem_read. by rewrite (proj2 (Nat.leb_le _ _) H). Qed.

Lemma mem_write_ok d o s :
  (o + length s <= length d)%nat → mem_write d o s = Some (take o d ++ s ++ drop (o + length s) d).
Proof. intros H. unfold mem_write. by rewrite (proj2 (Nat.leb_le _ _) H). Qed.

Lemma length_mem_write dst off src dst' :
  mem_write dst off src = Some dst' → length dst' = length dst.
Proof.
  unfold mem_write. destruct (Nat.leb_spec (off + length src) (length dst)) as [H|H]; [|done].
  intros [= <-]. rewrite !length_app, length_take, length_drop. lia.
Qed.

Lemma mem_write_mid a b c s n :
  length a = n → length b = length s →
  mem_write (a ++ b ++ c) n s = Some (a ++ s ++ c).
Proof.
  intros <- Hb. unfold mem_write. rewrite !length_app.
  destruct (Nat.leb_spec (length a + length s) (length a + (length b + length c))); [|lia].
  rewrite take_app_length, drop_app_add, <- Hb, drop_app_length. done.
Qed.

Lemma mem_read_mid a b c n k :
  length a = n → length b = k → mem_read (a ++ b ++ c) n k = Some b.
Proof.
  intros <- <-. unfold mem_read. rewrite !length_app.
  destruct (Nat.leb_spec (length a + length b) (length a + (length b + length c))); [|lia].
  by rewrite drop_app_length, take_app_length.
Qed.

(** ** The last element of a list, [x] if there is none *)
Definition last_or {A} (x : A) (l : list A) : A := default x (last l).

Lemma last_or_in {A} (x : A) l : last_or x l = x ∨ last_or x l ∈ l.
Proof.
  unfold last_or. destruct (last l) as [y|] eqn:E; [right|by left].
  simpl. by apply last_Some_elem_of.
Qed.

Lemma last_or_elem {A} (x : A) l : last_or x l ∈ x :: l.
Proof. apply elem_of_cons, last_or_in. Qed.

Lemma last_or_cons {A} (x y : A) l : last_or x (y :: l) = last_or y l.
Proof. unfold last_or. by rewrite last_cons; destruct (last l). Qed.

Lemma last_or_split {A} (x : A) l : ∃ l', x :: l = l' ++ [last_or x l].
Proof.
  destruct l as [|y l _] using rev_ind; [by exists []|].
  exists (x :: l). unfold last_or. by rewrite last_snoc.
Qed.
