(* ===== verification/Counting.v ===== *)
(** * Counting the entries of a map, and over the threads of a list

    How many entries of a finite map satisfy a predicate, what the elements of a list
    add up to, and how that changes with them: what reference counts and resource limits
    are compared to. *)
From Stdlib Require Import Lia.
From stdpp Require Import base gmap fin_maps list numbers.

(** How many entries of a map satisfy a predicate. *)
Definition count {K A} `{Countable K} (P : A → bool) (m : gmap K A) : nat :=
  size (filter (λ kv, P (snd kv) = true) m).

Lemma count_insert {K A} `{Countable K} (P : A → bool) (m : gmap K A) k x :
  m !! k = None → count P (<[k := x]> m) = ((if P x then 1 else 0) + count P m)%nat.
Proof.
  intros Hk. unfold count. destruct (P x) eqn:E.
  - rewrite map_filter_insert_True by done. rewrite map_size_insert_None; [done|].
    apply map_lookup_filter_None. by left.
  - rewrite map_filter_insert_False by (simpl; congruence). by rewrite delete_id.
Qed.

Lemma count_delete {K A} `{Countable K} (P : A → bool) (m : gmap K A) k x :
  m !! k = Some x → count P m = ((if P x then 1 else 0) + count P (delete k m))%nat.
Proof.
  intros Hk. rewrite <- (insert_delete_id m k x Hk) at 1. apply count_insert, lookup_delete_eq.
Qed.

Lemma count_pos {K A} `{Countable K} (P : A → bool) (m : gmap K A) k x :
  m !! k = Some x → P x = true → (0 < count P m)%nat.
Proof. intros Hk HP. rewrite (count_delete P m k x Hk), HP. lia. Qed.

Lemma count_empty {K A} `{Countable K} (P : A → bool) : count P (∅ : gmap K A) = 0%nat.
Proof. unfold count. by rewrite map_filter_empty, map_size_empty. Qed.

(** Replacing a value by one the predicate treats the same. *)
Lemma count_update {K A} `{Countable K} (P : A → bool) (m : gmap K A) k x y :
  m !! k = Some x → P y = P x → count P (<[k := y]> m) = count P m.
Proof.
  intros Hk HP. rewrite (count_delete P m k x Hk), <- insert_delete_eq.
  rewrite count_insert by apply lookup_delete_eq. by rewrite HP.
Qed.

Lemma count_witness {K A} `{Countable K} (P : A → bool) (m : gmap K A) :
  (0 < count P m)%nat → ∃ k x, m !! k = Some x ∧ P x = true.
Proof.
  intros Hc. unfold count in Hc. destruct (map_choose (filter (λ kv, P (snd kv) = true) m)) as (k & x & Hkx).
  - intros E. rewrite E, map_size_empty in Hc. lia.
  - apply map_lookup_filter_Some in Hkx. eauto.
Qed.

Lemma count_le_size {K A} `{Countable K} (P : A → bool) (m : gmap K A) : (count P m <= size m)%nat.
Proof.
  induction m as [|k x m Hk IH] using map_ind; [by rewrite count_empty|].
  rewrite count_insert, map_size_insert_None by done. destruct (P x); lia.
Qed.

(** At most one, when no two keys have such a value. *)
Lemma count_le_1 {K A} `{Countable K} (P : A → bool) (m : gmap K A) :
  (∀ k1 k2 x1 x2, m !! k1 = Some x1 → m !! k2 = Some x2 → P x1 = true → P x2 = true → k1 = k2) →
  (count P m <= 1)%nat.
Proof.
  intros Hinj. destruct (count P m) as [|n] eqn:E; [lia|].
  destruct (count_witness P m) as (k & x & Hk & Hx); [lia|].
  pose proof (count_delete P m k x Hk) as Hd. rewrite Hx in Hd.
  destruct (decide (count P (delete k m) = 0%nat)) as [H0|H0]; [lia|].
  destruct (count_witness P (delete k m)) as (k2 & x2 & [Hne Hk2]%lookup_delete_Some & Hx2); [lia|].
  by destruct Hne; apply (Hinj k k2 x x2).
Qed.

(** ** Sums over a list *)

Lemma sum_insert {A} (f : A → nat) l i x y :
  l !! i = Some x → (sum_list (f <$> <[i := y]> l) + f x = sum_list (f <$> l) + f y)%nat.
Proof.
  revert i. induction l as [|z l IH]; intros [|i]; simpl; try done; [intros [= ->]; lia|].
  intros H%IH. unfold fmap in H. lia.
Qed.

Lemma sum_elem {A} (f : A → nat) l i x : l !! i = Some x → (f x <= sum_list (f <$> l))%nat.
Proof.
  revert i. induction l as [|z l IH]; intros [|i]; simpl; try done; [intros [= ->]; lia|].
  intros H%IH. unfold fmap in H. lia.
Qed.

Lemma sum_zero {A} (f : A → nat) l i x : l !! i = Some x → sum_list (f <$> l) = 0%nat → f x = 0%nat.
Proof. intros Hi H. pose proof (sum_elem f l i x Hi). lia. Qed.

Lemma sum_elem_two {A} (f : A → nat) l i j x y :
  l !! i = Some x → l !! j = Some y → i ≠ j → (f x + f y <= sum_list (f <$> l))%nat.
Proof.
  revert i j. induction l as [|z l IH]; intros [|i] [|j]; simpl; try done.
  - intros [= ->] Hj _. pose proof (sum_elem f l j y Hj) as H. unfold fmap in H. lia.
  - intros Hi [= ->] _. pose proof (sum_elem f l i x Hi) as H. unfold fmap in H. lia.
  - intros Hi Hj Hne. pose proof (IH i j Hi Hj ltac:(lia)) as H. unfold fmap in H. lia.
Qed.

Lemma sum_replicate_0 {A} (f : A → nat) n x : f x = 0%nat → sum_list (f <$> replicate n x) = 0%nat.
Proof. intros H. induction n; cbn; [done|]. by rewrite H, IHn. Qed.
