(* ===== verification/Slice.v ===== *)
(** * Slices (include/lldb/slice.h)

    A [Slice] is a pointer and a length; the model keeps the bytes it refers
    to.  Positions inside a slice ([remove_prefix], the [Get...] routines of
    Coding) are the remaining suffixes.  An operation guarded by an [assert]
    returns an option: [None] is the failed assertion. *)
From stdpp Require Import base list numbers.
From Stdlib Require Import ZArith Lia.
From Stdlib Require Import Strings.Byte.
From S2P Require Import Prelude.

#[local] Open Scope Z_scope.

Definition Slice_size (s : bytes) : Z := Z.of_nat (length s).
Definition Slice_empty (s : bytes) : bool := Slice_size s =? 0.

(** [operator[]]: asserts [n < size()]. *)
Definition Slice_index (s : bytes) (n : Z) : option Byte.byte :=
  if n <? Slice_size s then s !! Z.to_nat n else None.

(** [remove_prefix]: asserts [n <= size()]. *)
Definition Slice_remove_prefix (n : Z) (s : bytes) : option bytes :=
  if n <=? Slice_size s then Some (drop (Z.to_nat n) s) else None.

(** The C library's [memcmp] on the first [n] bytes of two buffers of at least
    [n] bytes: the difference of the first two bytes that differ, compared as
    [unsigned char], and 0 when there is none.  Callers use its sign only. *)
Fixpoint memcmp (a b : bytes) (n : nat) : Z :=
  match n, a, b with
  | S n, x :: a, y :: b =>
      if b2z x =? b2z y then memcmp a b n else b2z x - b2z y
  | _, _, _ => 0
  end.

Definition Slice_compare (a b : bytes) : Z :=
  let min_len := if Slice_size a <? Slice_size b then Slice_size a else Slice_size b in
  let r := memcmp a b (Z.to_nat min_len) in
  if r =? 0 then
    if Slice_size a <? Slice_size b then -1
    else if Slice_size b <? Slice_size a then 1
    else r
  else r.

Definition Slice_starts_with (s x : bytes) : bool :=
  (Slice_size x <=? Slice_size s) && (memcmp s x (length x) =? 0).

Definition Slice_eq (x y : bytes) : bool :=
  (Slice_size x =? Slice_size y) && (memcmp x y (length x) =? 0).

Definition Slice_ne (x y : bytes) : bool := negb (Slice_eq x y).

(** ** Specification: lexicographic order on unsigned bytes *)

Fixpoint lex_lt (a b : bytes) : Prop :=
  match a, b with
  | _, [] => False
  | [], _ :: _ => True
  | x :: a, y :: b => b2z x < b2z y ∨ (x = y ∧ lex_lt a b)
  end.

(** ** Lemmas *)

Lemma Slice_size_nonneg s : 0 ≤ Slice_size s.
Proof. unfold Slice_size. lia. Qed.

#[export] Hint Resolve Slice_size_nonneg : words.

Lemma Slice_compare_nil a b :
  a = [] ∨ b = [] → Slice_compare a b = Z.sgn (Slice_size a - Slice_size b).
Proof.
  unfold Slice_compare, Slice_size.
  intros [-> | ->]; destruct a as [|x a'] || destruct b as [|y b']; done.
Qed.

Lemma memcmp_cons x y a b n :
  memcmp (x :: a) (y :: b) (S n) =
  if b2z x =? b2z y then memcmp a b n else b2z x - b2z y.
Proof. done. Qed.

Lemma Slice_compare_cons x y a b :
  Slice_compare (x :: a) (y :: b) =
  if b2z x =? b2z y then Slice_compare a b else b2z x - b2z y.
Proof.
  unfold Slice_compare, Slice_size. simpl length.
  rewrite !Nat2Z.inj_succ.
  replace (Z.succ (Z.of_nat (length a)) <? Z.succ (Z.of_nat (length b)))
    with (Z.of_nat (length a) <? Z.of_nat (length b)) by
    (destruct (Z.ltb_spec (Z.of_nat (length a)) (Z.of_nat (length b))), 
       (Z.ltb_spec (Z.succ (Z.of_nat (length a))) (Z.succ (Z.of_nat (length b)))); lia).
  replace (Z.succ (Z.of_nat (length b)) <? Z.succ (Z.of_nat (length a)))
    with (Z.of_nat (length b) <? Z.of_nat (length a)) by
    (destruct (Z.ltb_spec (Z.of_nat (length b)) (Z.of_nat (length a))), 
       (Z.ltb_spec (Z.succ (Z.of_nat (length b))) (Z.succ (Z.of_nat (length a)))); lia).
  assert (Hmin : ∀ p q : nat,
    Z.to_nat (if Z.of_nat p <? Z.of_nat q then Z.succ (Z.of_nat p) else Z.succ (Z.of_nat q)) =
    S (Z.to_nat (if Z.of_nat p <? Z.of_nat q then Z.of_nat p else Z.of_nat q))).
  { intros p q. destruct (_ <? _); lia. }
  rewrite Hmin, memcmp_cons.
  destruct (Z.eqb_spec (b2z x) (b2z y)); [done|].
  destruct (Z.eqb_spec (b2z x - b2z y) 0); [lia|done].
Qed.

Lemma Slice_compare_lt a b : Slice_compare a b < 0 ↔ lex_lt a b.
Proof.
  revert b. induction a as [|x a IH]; intros [|y b];
    [by rewrite Slice_compare_nil by auto; simpl | | | ].
  - rewrite Slice_compare_nil by auto. unfold Slice_size. simpl. lia.
  - rewrite Slice_compare_nil by auto. unfold Slice_size. simpl. lia.
  - rewrite Slice_compare_cons. simpl.
    destruct (Z.eqb_spec (b2z x) (b2z y)) as [E|E].
    + apply b2z_inj in E as ->. rewrite IH. split; [by right; auto|].
      intros [?|[_ ?]]; [lia|done].
    + split; [by left; lia|]. intros [?|[-> _]]; lia.
Qed.

Lemma Slice_compare_eq a b : Slice_compare a b = 0 ↔ a = b.
Proof.
  revert b. induction a as [|x a IH]; intros [|y b];
    try (rewrite Slice_compare_nil by auto; unfold Slice_size; simpl;
         split; intros; first [done | lia]).
  rewrite Slice_compare_cons.
  destruct (Z.eqb_spec (b2z x) (b2z y)) as [E|E].
  - apply b2z_inj in E as ->. rewrite IH. split; [by intros ->|congruence].
  - split; [lia|]. by intros [= -> ->].
Qed.

Lemma Slice_compare_antisym a b :
  Z.sgn (Slice_compare b a) = - Z.sgn (Slice_compare a b).
Proof.
  revert b. induction a as [|x a IH]; intros [|y b];
    try (rewrite !Slice_compare_nil by auto; lia).
  rewrite !Slice_compare_cons, (Z.eqb_sym (b2z y)).
  destruct (Z.eqb_spec (b2z x) (b2z y)); [apply IH|lia].
Qed.

Lemma lex_lt_trans a b c : lex_lt a b → lex_lt b c → lex_lt a c.
Proof.
  revert b c. induction a as [|x a IH]; intros [|y b] [|z c]; simpl; try done.
  intros [?|[-> ?]] [?|[-> ?]]; eauto with lia.
Qed.

Lemma lex_lt_irrefl a : ¬ lex_lt a a.
Proof. induction a; simpl; [tauto|intros [?|[_ ?]]; [lia|done]]. Qed.

Lemma lex_lt_app p a b : lex_lt (p ++ a) (p ++ b) ↔ lex_lt a b.
Proof.
  induction p as [|x p IH]; simpl; [done|]. rewrite IH.
  split; [intros [?|[_ ?]]; [lia|done]|by right].
Qed.

Lemma Slice_compare_trans a b c :
  Slice_compare a b < 0 → Slice_compare b c < 0 → Slice_compare a c < 0.
Proof. rewrite !Slice_compare_lt. apply lex_lt_trans. Qed.

Lemma memcmp_prefix a b :
  (length b ≤ length a)%nat → memcmp a b (length b) = 0 ↔ b `prefix_of` a.
Proof.
  revert a. induction b as [|y b IH]; intros a Hl.
  - simpl. destruct a; (split; [intros _; apply prefix_nil|done]).
  - destruct a as [|x a]; simpl in *; [lia|].
    destruct (Z.eqb_spec (b2z x) (b2z y)) as [E|E].
    + apply b2z_inj in E as ->. rewrite IH by lia.
      split; [apply prefix_cons|apply prefix_cons_inv_2].
    + split; [lia|]. intros ->%prefix_cons_inv_1. lia.
Qed.

Lemma Slice_starts_with_spec s x :
  Slice_starts_with s x = true ↔ x `prefix_of` s.
Proof.
  unfold Slice_starts_with, Slice_size.
  rewrite andb_true_iff, Z.leb_le, Z.eqb_eq. split.
  - intros [? H]. apply memcmp_prefix in H; [done|lia].
  - intros H. pose proof (prefix_length _ _ H). split; [lia|].
    by apply memcmp_prefix.
Qed.

Lemma Slice_eq_spec x y : Slice_eq x y = true ↔ x = y.
Proof.
  unfold Slice_eq, Slice_size. rewrite andb_true_iff, !Z.eqb_eq. split.
  - intros [Hl H]. apply Nat2Z.inj in Hl. rewrite Hl in H.
    apply memcmp_prefix in H as [k ->]; [|lia].
    rewrite length_app in Hl. destruct k; [by rewrite app_nil_r|simpl in Hl; lia].
  - intros ->. split; [done|]. by apply memcmp_prefix.
Qed.

Lemma Slice_remove_prefix_app p s :
  Slice_remove_prefix (Slice_size p) (p ++ s) = Some s.
Proof.
  unfold Slice_remove_prefix, Slice_size. rewrite length_app.
  destruct (Z.leb_spec (Z.of_nat (length p)) (Z.of_nat (length p + length s))); [|lia].
  by rewrite Nat2Z.id, drop_app_length.
Qed.
