(* ===== verification/Coding.v ===== *)
(** * Integer and string coding (util/coding.h, util/coding.cpp)

    Fixed-width little-endian integers, base-128 varints and length-prefixed
    slices.  [Put...] routines append to a [std::string]; [Get...] routines
    take the slice to parse and return the value with the rest of the slice.
    The pointer variants [Get...Ptr(p, limit, &v)] are given the bytes of
    [p .. limit-1] and return, with the value, the bytes from the returned
    pointer on; [nullptr] is [None]. *)
From stdpp Require Import base list numbers strings.
From Stdlib Require Import ZArith Lia.
From Stdlib Require Import Strings.Byte.
From S2P Require Import Prelude Slice.

#[local] Open Scope Z_scope.

(** ** Fixed-width integers *)

(** The bytes [EncodeFixed32(dst, value)] stores at [dst]. *)
Definition EncodeFixed32 (value : Z) : bytes :=
  [z2b value; z2b (Z.shiftr value 8); z2b (Z.shiftr value 16);
   z2b (Z.shiftr value 24)].

Definition EncodeFixed64 (value : Z) : bytes :=
  [z2b value; z2b (Z.shiftr value 8); z2b (Z.shiftr value 16);
   z2b (Z.shiftr value 24); z2b (Z.shiftr value 32); z2b (Z.shiftr value 40);
   z2b (Z.shiftr value 48); z2b (Z.shiftr value 56)].

Definition DecodeFixed32 (ptr : bytes) : Z :=
  Z.lor (Z.lor (Z.lor (byte_at ptr 0)
    (u32 (Z.shiftl (byte_at ptr 1) 8)))
    (u32 (Z.shiftl (byte_at ptr 2) 16)))
    (u32 (Z.shiftl (byte_at ptr 3) 24)).

Definition DecodeFixed64 (ptr : bytes) : Z :=
  Z.lor (Z.lor (Z.lor (Z.lor (Z.lor (Z.lor (Z.lor (byte_at ptr 0)
    (u64 (Z.shiftl (byte_at ptr 1) 8)))
    (u64 (Z.shiftl (byte_at ptr 2) 16)))
    (u64 (Z.shiftl (byte_at ptr 3) 24)))
    (u64 (Z.shiftl (byte_at ptr 4) 32)))
    (u64 (Z.shiftl (byte_at ptr 5) 40)))
    (u64 (Z.shiftl (byte_at ptr 6) 48)))
    (u64 (Z.shiftl (byte_at ptr 7) 56)).

Definition PutFixed32 (dst : bytes) (value : Z) : bytes := dst ++ EncodeFixed32 value.
Definition PutFixed64 (dst : bytes) (value : Z) : bytes := dst ++ EncodeFixed64 value.

(** ** Varints: encoding *)

Definition EncodeVarint32 (v : Z) : bytes :=
  let B := 128 in
  if v <? Z.shiftl 1 7 then
    [z2b v]
  else if v <? Z.shiftl 1 14 then
    [z2b (Z.lor v B); z2b (Z.shiftr v 7)]
  else if v <? Z.shiftl 1 21 then
    [z2b (Z.lor v B); z2b (Z.lor (Z.shiftr v 7) B); z2b (Z.shiftr v 14)]
  else if v <? Z.shiftl 1 28 then
    [z2b (Z.lor v B); z2b (Z.lor (Z.shiftr v 7) B);
     z2b (Z.lor (Z.shiftr v 14) B); z2b (Z.shiftr v 21)]
  else
    [z2b (Z.lor v B); z2b (Z.lor (Z.shiftr v 7) B);
     z2b (Z.lor (Z.shiftr v 14) B); z2b (Z.lor (Z.shiftr v 21) B);
     z2b (Z.shiftr v 28)].

Definition PutVarint32 (dst : bytes) (v : Z) : bytes := dst ++ EncodeVarint32 v.

(** The loop of [EncodeVarint64].  The fuel is the size of the buffer the
    callers provide ([char buf[10]]): [None] is a write past its end. *)
Fixpoint EncodeVarint64_loop (fuel : nat) (v : Z) : option bytes :=
  match fuel with
  | O => None
  | S fuel =>
      if 128 <=? v then
        cons (z2b (Z.lor v 128)) <$> EncodeVarint64_loop fuel (Z.shiftr v 7)
      else Some [z2b v]
  end.

Definition EncodeVarint64 (v : Z) : option bytes := EncodeVarint64_loop 10 v.

Definition PutVarint64 (dst : bytes) (v : Z) : option bytes :=
  (λ buf, dst ++ buf) <$> EncodeVarint64 v.

(** [PutVarint32(dst, value.size())] converts the [size_t] length to 32 bits. *)
Definition PutLengthPrefixedSlice (dst value : bytes) : bytes :=
  PutVarint32 dst (u32 (Slice_size value)) ++ value.

(** [len] counts the loop's iterations; a 64-bit value needs at most 9. *)
Fixpoint VarintLength_loop (fuel : nat) (v len : Z) : option Z :=
  if 128 <=? v then
    match fuel with
    | O => None
    | S fuel => VarintLength_loop fuel (Z.shiftr v 7) (len + 1)
    end
  else Some len.

Definition VarintLength (v : Z) : option Z := VarintLength_loop 9 v 1.

(** ** Varints: decoding *)

(** The loop shared by [GetVarint32PtrFallback] ([w = 32], [max_shift = 28])
    and [GetVarint64Ptr] ([w = 64], [max_shift = 63]); [w] is the width of
    [result] and [byte]. *)
Fixpoint GetVarintPtr_loop (w max_shift : Z) (shift result : Z) (p : bytes)
    : option (Z * bytes) :=
  if shift <=? max_shift then
    match p with
    | [] => None
    | b :: p =>
        let byte := b2z b in
        if negb (Z.land byte 128 =? 0) then
          GetVarintPtr_loop w max_shift (shift + 7)
            (Z.lor result (Z.shiftl (Z.land byte 127) shift mod 2 ^ w)) p
        else
          Some (Z.lor result (Z.shiftl byte shift mod 2 ^ w), p)
    end
  else None.

Definition GetVarint32PtrFallback (p : bytes) : option (Z * bytes) :=
  GetVarintPtr_loop 32 28 0 0 p.

Definition GetVarint32Ptr (p : bytes) : option (Z * bytes) :=
  match p with
  | b :: p' =>
      let result := b2z b in
      if Z.land result 128 =? 0 then Some (result, p')
      else GetVarint32PtrFallback p
  | [] => GetVarint32PtrFallback p
  end.

Definition GetVarint64Ptr (p : bytes) : option (Z * bytes) :=
  GetVarintPtr_loop 64 63 0 0 p.

(** [GetVarint32(&input, &value)] returns the value ([None] for [false]) and
    the new [*input]: [Slice(q, limit - q)] on success, unchanged on failure. *)
Definition GetVarint32 (input : bytes) : option Z * bytes :=
  match GetVarint32Ptr input with
  | None => (None, input)
  | Some (value, q) => (Some value, q)
  end.

Definition GetVarint64 (input : bytes) : option Z * bytes :=
  match GetVarint64Ptr input with
  | None => (None, input)
  | Some (value, q) => (Some value, q)
  end.

(** Returns [*result] ([None] for [false]) and the new [*input]; when the
    length is read but the slice is too short, [*input] has already moved past
    the length.  The assertion of [remove_prefix] cannot fail after the test. *)
Definition GetLengthPrefixedSlice (input : bytes) : option bytes * bytes :=
  match GetVarint32 input with
  | (Some len, input) =>
      if len <=? Slice_size input then
        match Slice_remove_prefix len input with
        | Some rest => (Some (take (Z.to_nat len) input), rest)
        | None => (None, input)
        end
      else (None, input)
  | (None, input) => (None, input)
  end.

(** ** Specification of the varint format *)

(** Base-128 little-endian digits, the high bit of a byte ignored. *)
Fixpoint varint_value (l : bytes) : Z :=
  match l with
  | [] => 0
  | b :: l => b2z b mod 128 + 128 * varint_value l
  end.

(** Every byte but the last one has its high bit set. *)
Fixpoint is_varint (l : bytes) : Prop :=
  match l with
  | [] => False
  | [b] => b2z b < 128
  | b :: l => 128 ≤ b2z b ∧ is_varint l
  end.

(** Little-endian digits, the reference for the fixed-width routines. *)
Fixpoint le_value (l : bytes) : Z :=
  match l with
  | [] => 0
  | b :: l => b2z b + 256 * le_value l
  end.

Fixpoint le_bytes (n : nat) (v : Z) : bytes :=
  match n with
  | O => []
  | S n => z2b v :: le_bytes n (v / 256)
  end.

(** ** Lemmas: fixed-width integers *)

Lemma le_value_bytes n v :
  0 ≤ v < 256 ^ Z.of_nat n → le_value (le_bytes n v) = v.
Proof.
  revert v. induction n as [|n IH]; intros v Hv; simpl.
  - change (256 ^ Z.of_nat 0) with 1 in Hv. lia.
  - rewrite Nat2Z.inj_succ, Z.pow_succ_r in Hv by lia.
    rewrite IH, b2z_z2b.
    + pose proof (Z.div_mod v 256). lia.
    + split; [apply Z.div_pos; lia|apply Z.div_lt_upper_bound; lia].
Qed.

Lemma le_bytes_value l : le_bytes (length l) (le_value l) = l.
Proof.
  induction l as [|b l IH]; simpl; [done|].
  pose proof (b2z_range b). f_equal.
  - apply b2z_inj. rewrite b2z_z2b, Z.mul_comm, Z.mod_add, Z.mod_small; lia.
  - rewrite Z.mul_comm, Z.div_add, Z.div_small, Z.add_0_l by lia. done.
Qed.

Lemma le_value_range l : 0 ≤ le_value l < 256 ^ Z.of_nat (length l).
Proof.
  induction l as [|b l IH]; simpl le_value; simpl length.
  - done.
  - rewrite Nat2Z.inj_succ, Z.pow_succ_r by lia. pose proof (b2z_range b). lia.
Qed.

Lemma EncodeFixed32_le v : EncodeFixed32 v = le_bytes 4 v.
Proof.
  unfold EncodeFixed32. rewrite !Z.shiftr_div_pow2 by lia. simpl.
  by rewrite !Z.div_div by lia.
Qed.

Lemma EncodeFixed64_le v : EncodeFixed64 v = le_bytes 8 v.
Proof.
  unfold EncodeFixed64. rewrite !Z.shiftr_div_pow2 by lia. simpl.
  by rewrite !Z.div_div by lia.
Qed.

(** Adding one more byte on top of the [n] bits read so far. *)
Lemma lor_u_shiftl acc b w n :
  0 ≤ n → n + 8 ≤ w → 0 ≤ acc < 2 ^ n →
  Z.lor acc (Z.shiftl (b2z b) n mod 2 ^ w) = acc + b2z b * 2 ^ n.
Proof.
  intros Hn Hw Hacc. pose proof (b2z_range b).
  rewrite Z.mod_small, lor_shiftl_add; [done..|].
  rewrite Z.shiftl_mul_pow2 by done. split; [lia|].
  apply Z.lt_le_trans with (2 ^ (n + 8)); [rewrite Z.pow_add_r by lia; nia|].
  apply Z.pow_le_mono_r; lia.
Qed.

Ltac byte_ranges :=
  repeat match goal with b : Byte.byte |- _ =>
    lazymatch goal with
    | H : 0 ≤ b2z b < 256 |- _ => fail
    | _ => pose proof (b2z_range b)
    end
  end.

Lemma DecodeFixed32_le p rest :
  length p = 4%nat → DecodeFixed32 (p ++ rest) = le_value p.
Proof.
  intros Hl. do 5 (destruct p as [|? p]; try discriminate Hl).
  unfold DecodeFixed32, byte_at, u32. simpl. byte_ranges.
  rewrite (lor_u_shiftl (b2z b)) by lia.
  rewrite !(lor_u_shiftl (_ + _)) by lia. lia.
Qed.

Lemma DecodeFixed64_le p rest :
  length p = 8%nat → DecodeFixed64 (p ++ rest) = le_value p.
Proof.
  intros Hl. do 9 (destruct p as [|? p]; try discriminate Hl).
  unfold DecodeFixed64, byte_at, u64. simpl. byte_ranges.
  rewrite (lor_u_shiftl (b2z b)) by lia.
  rewrite !(lor_u_shiftl (_ + _)) by lia. lia.
Qed.

Lemma DecodeFixed32_Encode v rest :
  0 ≤ v < 2 ^ 32 → DecodeFixed32 (EncodeFixed32 v ++ rest) = v.
Proof.
  intros. rewrite DecodeFixed32_le, EncodeFixed32_le by done.
  by apply le_value_bytes.
Qed.

Lemma DecodeFixed64_Encode v rest :
  0 ≤ v < 2 ^ 64 → DecodeFixed64 (EncodeFixed64 v ++ rest) = v.
Proof.
  intros. rewrite DecodeFixed64_le, EncodeFixed64_le by done.
  by apply le_value_bytes.
Qed.

Lemma DecodeFixed64_Encode_nil v : 0 ≤ v < 2 ^ 64 → DecodeFixed64 (EncodeFixed64 v) = v.
Proof. intros. rewrite <- (app_nil_r (EncodeFixed64 v)). by apply DecodeFixed64_Encode. Qed.

(** A buffer of four (eight) bytes is the encoding of the value it decodes to. *)
Lemma EncodeFixed32_Decode p :
  length p = 4%nat → EncodeFixed32 (DecodeFixed32 p) = p.
Proof.
  intros Hl. rewrite <- (app_nil_r p) at 1.
  rewrite DecodeFixed32_le, EncodeFixed32_le, <- Hl by done. apply le_bytes_value.
Qed.

Lemma EncodeFixed64_Decode p :
  length p = 8%nat → EncodeFixed64 (DecodeFixed64 p) = p.
Proof.
  intros Hl. rewrite <- (app_nil_r p) at 1.
  rewrite DecodeFixed64_le, EncodeFixed64_le, <- Hl by done. apply le_bytes_value.
Qed.

Lemma DecodeFixed64_range p rest :
  length p = 8%nat → 0 ≤ DecodeFixed64 (p ++ rest) < 2 ^ 64.
Proof.
  intros Hl. rewrite DecodeFixed64_le by done.
  pose proof (le_value_range p) as H. by rewrite Hl in H.
Qed.

Lemma DecodeFixed32_range p rest :
  length p = 4%nat → 0 ≤ DecodeFixed32 (p ++ rest) < 2 ^ 32.
Proof.
  intros Hl. rewrite DecodeFixed32_le by done.
  pose proof (le_value_range p) as H. by rewrite Hl in H.
Qed.

#[export] Hint Rewrite DecodeFixed32_Encode DecodeFixed64_Encode using lia : words.

(** ** Lemmas: varints *)

Lemma varint_value_nonneg l : 0 ≤ varint_value l.
Proof. induction l as [|b l IH]; simpl; [lia|]. pose proof (Z.mod_pos_bound (b2z b) 128). lia. Qed.

(** One iteration accumulates [x] above the [shift] bits read so far. *)
Lemma GetVarint_accumulate w shift result x :
  0 ≤ shift ≤ w → 0 ≤ result < 2 ^ shift → 0 ≤ x →
  Z.lor result (Z.shiftl x shift mod 2 ^ w) = (result + x * 2 ^ shift) mod 2 ^ w.
Proof.
  intros Hs Hr Hx.
  assert (Hw : 2 ^ w = 2 ^ (w - shift) * 2 ^ shift)
    by (rewrite <- Z.pow_add_r by lia; f_equal; lia).
  assert (0 < 2 ^ shift) by (apply Z.pow_pos_nonneg; lia).
  assert (0 < 2 ^ (w - shift)) by (apply Z.pow_pos_nonneg; lia).
  rewrite Z.shiftl_mul_pow2, Hw, Z.mul_mod_distr_r by lia.
  rewrite <- Z.shiftl_mul_pow2, lor_shiftl_add by lia.
  set (S := 2 ^ shift) in *. set (T := 2 ^ (w - shift)) in *.
  pose proof (Z.div_mod x T ltac:(lia)) as Hx'.
  pose proof (Z.mod_pos_bound x T ltac:(lia)).
  replace (result + x * S) with (result + x mod T * S + x / T * (T * S)) by nia.
  rewrite Z.mod_add by nia. symmetry. apply Z.mod_small. nia.
Qed.

(** The decoding loop with [n] iterations left accepts exactly the inputs that
    start with a varint of at most [n] bytes. *)
Lemma GetVarintPtr_loop_spec w max_shift n :
  0 ≤ max_shift ≤ w → ∀ shift result p v r,
  0 ≤ shift → shift + 7 * Z.of_nat n = max_shift + 7 →
  0 ≤ result < 2 ^ shift → 0 ≤ result < 2 ^ w →
  GetVarintPtr_loop w max_shift shift result p = Some (v, r) ↔
  ∃ pre, p = pre ++ r ∧ is_varint pre ∧ (length pre ≤ n)%nat ∧
         v = (result + varint_value pre * 2 ^ shift) mod 2 ^ w.
Proof.
  intros Hmax. induction n as [|n IH]; intros shift result p v r Hs Hn Hr Hw;
    destruct p as [|b p]; simpl;
    destruct (Z.leb_spec shift max_shift); try lia.
  - split; [done|]. by intros ([|] & ? & ? & ?).
  - split; [done|]. by intros ([|] & ? & ? & ? & ?); simpl in *; lia.
  - split; [done|]. by intros ([|] & ? & ? & ?).
  - pose proof (b2z_range b) as Hb. pose proof (land_128_byte b) as H128.
    destruct (Z.eqb_spec (Z.land (b2z b) 128) 0) as [E|E]; simpl.
    + apply H128 in E. rewrite GetVarint_accumulate by lia. split.
      * intros [= <- <-]. exists [b]. simpl. rewrite (Z.mod_small (b2z b)) by lia.
        repeat split; [done|lia|]. f_equal. lia.
      * intros (pre & Hp & Hv & _ & ->). destruct pre as [|b' pre]; [done|].
        simplify_eq/=. destruct pre as [|]; [|lia].
        simpl. rewrite (Z.mod_small (b2z b')) by lia. do 3 f_equal. lia.
    + assert (Hb' : 128 ≤ b2z b) by lia. rewrite land_127.
      pose proof (Z.mod_pos_bound (b2z b) 128 ltac:(lia)).
      rewrite GetVarint_accumulate by lia.
      assert (0 < 2 ^ w) by (apply Z.pow_pos_nonneg; lia).
      assert (0 < 2 ^ shift) by (apply Z.pow_pos_nonneg; lia).
      assert (E7 : 2 ^ (shift + 7) = 128 * 2 ^ shift) by (rewrite Z.pow_add_r; lia).
      rewrite IH by first [lia | apply Z.mod_pos_bound; lia
        | split; [apply Z.mod_pos_bound; lia|];
          eapply Z.le_lt_trans; [apply Z.mod_le; nia|nia] ].
      assert (Hval : ∀ pre, ((result + b2z b mod 128 * 2 ^ shift) mod 2 ^ w
          + varint_value pre * 2 ^ (shift + 7)) mod 2 ^ w
          = (result + varint_value (b :: pre) * 2 ^ shift) mod 2 ^ w).
      { intros pre. rewrite Z.add_mod_idemp_l, E7 by lia. f_equal. simpl. lia. }
      split; intros (pre & Hp & Hv & Hlen & ->).
      * exists (b :: pre). subst p. rewrite Hval. simpl in *.
        repeat split; [by destruct pre|lia].
      * destruct pre as [|b' pre]; [done|]. simplify_eq/=.
        destruct pre as [|b'' pre]; [simpl in *; lia|].
        exists (b'' :: pre). rewrite <- Hval.
        repeat split; [by destruct Hv|simpl in *; lia].
Qed.

Lemma GetVarint32Ptr_fallback p : GetVarint32Ptr p = GetVarint32PtrFallback p.
Proof.
  destruct p as [|b p]; [done|]. unfold GetVarint32Ptr.
  destruct (Z.eqb_spec (Z.land (b2z b) 128) 0) as [E|E]; [|done].
  unfold GetVarint32PtrFallback. simpl. rewrite E. simpl.
  pose proof (b2z_range b). by rewrite Z.shiftl_0_r, Z.mod_small by lia.
Qed.

Lemma GetVarint32Ptr_spec p v r :
  GetVarint32Ptr p = Some (v, r) ↔
  ∃ pre, p = pre ++ r ∧ is_varint pre ∧ (length pre ≤ 5)%nat ∧
         v = varint_value pre mod 2 ^ 32.
Proof.
  rewrite GetVarint32Ptr_fallback. unfold GetVarint32PtrFallback.
  rewrite (GetVarintPtr_loop_spec 32 28 5) by lia.
  by setoid_rewrite Z.add_0_l; setoid_rewrite Z.mul_1_r.
Qed.

Lemma GetVarint64Ptr_spec p v r :
  GetVarint64Ptr p = Some (v, r) ↔
  ∃ pre, p = pre ++ r ∧ is_varint pre ∧ (length pre ≤ 10)%nat ∧
         v = varint_value pre mod 2 ^ 64.
Proof.
  unfold GetVarint64Ptr. rewrite (GetVarintPtr_loop_spec 64 63 10) by lia.
  by setoid_rewrite Z.add_0_l; setoid_rewrite Z.mul_1_r.
Qed.

(** What [n] rounds of the encoding loop write for a value of [7 * n] bits. *)
Lemma EncodeVarint64_loop_spec n v :
  0 ≤ v < 2 ^ (7 * Z.of_nat n) → (0 < n)%nat →
  ∃ enc, EncodeVarint64_loop n v = Some enc ∧ is_varint enc ∧
         varint_value enc = v ∧ (length enc ≤ n)%nat.
Proof.
  revert v. induction n as [|n IH]; intros v Hv Hn; [lia|]. simpl.
  destruct (Z.leb_spec 128 v).
  - rewrite Z.shiftr_div_pow2 by lia. change (2 ^ 7) with 128.
    destruct n as [|n]; [simpl in Hv; lia|].
    destruct (IH (v / 128)) as (enc & -> & Hwf & Hval & Hlen); [|lia|].
    { split; [apply Z.div_pos; lia|]. apply Z.div_lt_upper_bound; [lia|].
      change 128 with (2 ^ 7). rewrite <- Z.pow_add_r by lia.
      replace (7 + 7 * Z.of_nat (S n)) with (7 * Z.of_nat (S (S n))) by lia. lia. }
    exists (z2b (Z.lor v 128) :: enc). simpl. rewrite b2z_lor_128, Hval.
    pose proof (Z.mod_pos_bound v 128 ltac:(lia)).
    repeat split; [destruct enc; [done|split; [lia|done]]| |lia].
    replace (v mod 128 + 128) with (v mod 128 + 1 * 128) by lia.
    rewrite Z.mod_add, Z.mod_mod by lia. pose proof (Z.div_mod v 128). lia.
  - exists [z2b v]. simpl. rewrite b2z_z2b_small, (Z.mod_small v 128) by lia.
    repeat split; lia.
Qed.

(** The number of rounds [VarintLength] counts is the number of bytes written. *)
Lemma VarintLength_loop_Encode n v len :
  VarintLength_loop n v len =
  (λ enc, len + Z.of_nat (length enc) - 1) <$> EncodeVarint64_loop (S n) v.
Proof.
  revert v len. induction n as [|n IH]; intros v len.
  - simpl. destruct (128 <=? v); simpl; [done|]. f_equal. lia.
  - cbn [VarintLength_loop]. rewrite IH.
    change (EncodeVarint64_loop (S (S n)) v) with
      (if 128 <=? v then cons (z2b (Z.lor v 128)) <$>
         EncodeVarint64_loop (S n) (Z.shiftr v 7) else Some [z2b v]).
    destruct (128 <=? v).
    + destruct (EncodeVarint64_loop (S n) _); simpl; [|done]. f_equal. lia.
    + simpl. f_equal. lia.
Qed.

Lemma EncodeVarint64_loop_more n m v enc :
  EncodeVarint64_loop n v = Some enc → (n ≤ m)%nat → EncodeVarint64_loop m v = Some enc.
Proof.
  revert m v enc. induction n as [|n IH]; intros m v enc H Hm; [done|].
  destruct m as [|m]; [lia|]. simpl in *. destruct (128 <=? v); [|done].
  destruct (EncodeVarint64_loop n _) eqn:E; [|done].
  by rewrite (IH m _ _ E) by lia.
Qed.

(** The unrolled 32-bit encoder is the 64-bit loop. *)
Lemma EncodeVarint32_loop v :
  0 ≤ v < 2 ^ 32 → EncodeVarint64_loop 5 v = Some (EncodeVarint32 v).
Proof.
  intros Hv. unfold EncodeVarint32. rewrite !Z.shiftl_1_l.
  assert (Hge : ∀ k, 0 ≤ k → (128 <=? Z.shiftr v k) = negb (v <? 2 ^ (k + 7))).
  { intros k Hk. rewrite Z.shiftr_div_pow2 by done.
    assert (0 < 2 ^ k) by (apply Z.pow_pos_nonneg; lia).
    rewrite Z.pow_add_r, Z.mul_comm by lia.
    destruct (Z.leb_spec 128 (v / 2 ^ k)) as [H'|H'],
      (Z.ltb_spec v (2 ^ 7 * 2 ^ k)) as [H2|H2]; simpl; try done; exfalso.
    - pose proof (Z.div_lt_upper_bound v (2 ^ k) 128). lia.
    - pose proof (Z.div_le_lower_bound v (2 ^ k) 128). lia. }
  cbn [EncodeVarint64_loop]. rewrite !Z.shiftr_shiftr by lia.
  change (7 + 7) with 14. change (14 + 7) with 21. change (21 + 7) with 28.
  rewrite !Hge by lia. change (2 ^ 7) with 128.
  change (7 + 7) with 14. change (14 + 7) with 21. change (21 + 7) with 28.
  change (28 + 7) with 35.
  assert (E0 : (128 <=? v) = negb (v <? 128)).
  { destruct (Z.leb_spec 128 v), (Z.ltb_spec v 128); try done; lia. }
  rewrite E0. destruct (Z.ltb_spec v 128); [done|].
  destruct (Z.ltb_spec v (2 ^ 14)); [done|].
  destruct (Z.ltb_spec v (2 ^ 21)); [done|].
  destruct (Z.ltb_spec v (2 ^ 28)); [done|].
  destruct (Z.ltb_spec v (2 ^ 35)); [done|lia].
Qed.

Lemma EncodeVarint32_spec v :
  0 ≤ v < 2 ^ 32 →
  is_varint (EncodeVarint32 v) ∧ varint_value (EncodeVarint32 v) = v ∧
  (length (EncodeVarint32 v) ≤ 5)%nat.
Proof.
  intros Hv. pose proof (EncodeVarint32_loop v Hv) as H.
  destruct (EncodeVarint64_loop_spec 5 v) as (enc & E & ?); [lia|lia|].
  rewrite H in E. by simplify_eq.
Qed.

Lemma GetVarint32_Encode v rest :
  0 ≤ v < 2 ^ 32 → GetVarint32 (EncodeVarint32 v ++ rest) = (Some v, rest).
Proof.
  intros Hv. destruct (EncodeVarint32_spec v Hv) as (Hwf & Hval & Hlen).
  unfold GetVarint32.
  assert (GetVarint32Ptr (EncodeVarint32 v ++ rest) = Some (v, rest)) as ->; [|done].
  apply GetVarint32Ptr_spec. exists (EncodeVarint32 v).
  rewrite Hval, Z.mod_small by lia. done.
Qed.

#[export] Hint Rewrite GetVarint32_Encode using lia : words.

Lemma GetVarint32_fail p :
  GetVarint32Ptr p = None ↔
  ¬ ∃ pre r, p = pre ++ r ∧ is_varint pre ∧ (length pre ≤ 5)%nat.
Proof.
  split.
  - intros H (pre & r & Hp & Hv & Hl).
    assert (GetVarint32Ptr p = Some (varint_value pre mod 2 ^ 32, r)) as E
      by (apply GetVarint32Ptr_spec; eauto). congruence.
  - intros H. destruct (GetVarint32Ptr p) as [[v r]|] eqn:E; [|done].
    apply GetVarint32Ptr_spec in E as (pre & Hp & Hv & Hl & _). by destruct H; eauto.
Qed.

Lemma GetLengthPrefixedSlice_ok input len rest :
  GetVarint32 input = (Some len, rest) → 0 ≤ len → len ≤ Slice_size rest →
  GetLengthPrefixedSlice input = (Some (take (Z.to_nat len) rest), drop (Z.to_nat len) rest).
Proof.
  intros E H0 Hl. unfold GetLengthPrefixedSlice, Slice_remove_prefix. rewrite E.
  destruct (Z.leb_spec len (Slice_size rest)); [done|lia].
Qed.

(** ** Properties *)

(** A fixed-width integer appended by PutFixed32 or PutFixed64 is read back
    by DecodeFixed32 or DecodeFixed64, whatever follows it in the buffer, and
    every 4- or 8-byte buffer is the encoding of the integer it decodes to. *)
Theorem Fixed_roundtrip v w p q dst rest :
  0 ≤ v < 2 ^ 32 → 0 ≤ w < 2 ^ 64 → length p = 4%nat → length q = 8%nat →
  DecodeFixed32 (drop (length dst) (PutFixed32 dst v ++ rest)) = v ∧
  DecodeFixed64 (drop (length dst) (PutFixed64 dst w ++ rest)) = w ∧
  PutFixed32 dst (DecodeFixed32 p) = dst ++ p ∧
  PutFixed64 dst (DecodeFixed64 q) = dst ++ q.
Proof.
  intros Hv Hw Hp Hq. unfold PutFixed32, PutFixed64.
  rewrite <- !app_assoc, !drop_app_length, EncodeFixed32_Decode, EncodeFixed64_Decode by done.
  by rewrite DecodeFixed32_Encode, DecodeFixed64_Encode by lia.
Qed.

(** GetVarint32 reads back what PutVarint32 appended and leaves the slice
    at what follows; the encoding takes VarintLength(v) <= 5 bytes (the size of
    PutVarint32's buffer) and is the one EncodeVarint64 writes. *)
Theorem Varint32_roundtrip v dst rest :
  0 ≤ v < 2 ^ 32 →
  GetVarint32 (drop (length dst) (PutVarint32 dst v ++ rest)) = (Some v, rest) ∧
  VarintLength v = Some (Slice_size (EncodeVarint32 v)) ∧
  Slice_size (EncodeVarint32 v) ≤ 5 ∧
  EncodeVarint64 v = Some (EncodeVarint32 v).
Proof.
  intros Hv. pose proof (EncodeVarint32_loop v Hv) as H.
  apply EncodeVarint64_loop_more with (m := 10%nat) in H; [|lia].
  destruct (EncodeVarint32_spec v Hv) as (_ & _ & Hlen).
  unfold PutVarint32, VarintLength, Slice_size.
  rewrite <- app_assoc, drop_app_length, GetVarint32_Encode by lia.
  rewrite VarintLength_loop_Encode, H. simpl.
  repeat split; [f_equal; lia|lia|done].
Qed.

(** EncodeVarint64 terminates within its callers' 10-byte buffer on every
    64-bit value, GetVarint64 reads the value back and leaves the slice at what
    follows, and VarintLength(v) is the number of bytes written. *)
Theorem Varint64_roundtrip v dst rest :
  0 ≤ v < 2 ^ 64 →
  ∃ enc, PutVarint64 dst v = Some (dst ++ enc) ∧
         GetVarint64 (enc ++ rest) = (Some v, rest) ∧
         VarintLength v = Some (Slice_size enc) ∧ 1 ≤ Slice_size enc ≤ 10.
Proof.
  intros Hv. destruct (EncodeVarint64_loop_spec 10 v) as (enc & E & Hwf & Hval & Hlen);
    [simpl; lia|lia|].
  exists enc. unfold PutVarint64, EncodeVarint64, VarintLength, Slice_size, GetVarint64.
  rewrite VarintLength_loop_Encode, E. simpl.
  assert (GetVarint64Ptr (enc ++ rest) = Some (v, rest)) as ->.
  { apply GetVarint64Ptr_spec. exists enc. by rewrite Hval, Z.mod_small by lia. }
  assert (length enc ≠ 0%nat) by (by destruct enc).
  split_and!; [done|done|f_equal; lia|lia|lia].
Qed.

(** Exactly which inputs the varint decoders accept, overlong and
    overflowing encodings included: at most 5 (10) bytes, all but the last with
    the continuation bit, with the digits' value taken modulo 2^32 (2^64); on
    any other input they fail and leave the slice where it was. *)
Theorem GetVarint_accepts p :
  (∀ v r, GetVarint32 p = (Some v, r) ↔
     ∃ pre, p = pre ++ r ∧ is_varint pre ∧ (length pre ≤ 5)%nat ∧
            v = varint_value pre mod 2 ^ 32) ∧
  (∀ v r, GetVarint64 p = (Some v, r) ↔
     ∃ pre, p = pre ++ r ∧ is_varint pre ∧ (length pre ≤ 10)%nat ∧
            v = varint_value pre mod 2 ^ 64) ∧
  (∀ r, GetVarint32 p = (None, r) → r = p) ∧
  (∀ r, GetVarint64 p = (None, r) → r = p).
Proof.
  unfold GetVarint32, GetVarint64. split_and!.
  - intros v r. rewrite <- GetVarint32Ptr_spec.
    destruct (GetVarint32Ptr p) as [[? ?]|]; naive_solver.
  - intros v r. rewrite <- GetVarint64Ptr_spec.
    destruct (GetVarint64Ptr p) as [[? ?]|]; naive_solver.
  - intros r. destruct (GetVarint32Ptr p) as [[? ?]|]; naive_solver.
  - intros r. destruct (GetVarint64Ptr p) as [[? ?]|]; naive_solver.
Qed.

(** C40: the varint codings.  What PutVarint32 and PutVarint64 append, GetVarint32 and
    GetVarint64 read back, leaving the slice at what follows; VarintLength is the
    number of bytes, 5 and 10 at most (the sizes of the callers' buffers), and the
    encoders agree.  The decoders accept exactly strings of at most 5 (10) bytes of
    which all but the last have the continuation bit, overlong ones included, with
    the value modulo 2^32 (2^64); on any other input they fail and leave the slice
    where it was. *)
Theorem Varint_codec v w dst rest p :
  0 ≤ v < 2 ^ 32 → 0 ≤ w < 2 ^ 64 →
  (GetVarint32 (drop (length dst) (PutVarint32 dst v ++ rest)) = (Some v, rest) ∧
   VarintLength v = Some (Slice_size (EncodeVarint32 v)) ∧ Slice_size (EncodeVarint32 v) ≤ 5 ∧
   EncodeVarint64 v = Some (EncodeVarint32 v)) ∧
  (∃ enc, PutVarint64 dst w = Some (dst ++ enc) ∧ GetVarint64 (enc ++ rest) = (Some w, rest) ∧
   VarintLength w = Some (Slice_size enc) ∧ 1 ≤ Slice_size enc ≤ 10) ∧
  (∀ n r, GetVarint32 p = (Some n, r) ↔
     ∃ pre, p = pre ++ r ∧ is_varint pre ∧ (length pre ≤ 5)%nat ∧ n = varint_value pre mod 2 ^ 32) ∧
  (∀ n r, GetVarint64 p = (Some n, r) ↔
     ∃ pre, p = pre ++ r ∧ is_varint pre ∧ (length pre ≤ 10)%nat ∧ n = varint_value pre mod 2 ^ 64) ∧
  (∀ r, GetVarint32 p = (None, r) → r = p) ∧ (∀ r, GetVarint64 p = (None, r) → r = p).
Proof.
  intros Hv Hw. split; [by apply Varint32_roundtrip|]. split; [by apply Varint64_roundtrip|].
  apply GetVarint_accepts.
Qed.

(** GetLengthPrefixedSlice returns the slice PutLengthPrefixedSlice wrote
    and the rest of the input; given any input it either returns a slice that
    lies, with its varint32 length in front, at the start of the input, or it
    fails because no length can be read or fewer bytes than the length follow. *)
Theorem LengthPrefixedSlice_roundtrip dst value rest input :
  Slice_size value < 2 ^ 32 →
  GetLengthPrefixedSlice (drop (length dst) (PutLengthPrefixedSlice dst value ++ rest))
    = (Some value, rest) ∧
  match GetLengthPrefixedSlice input with
  | (Some s, rest') => ∃ pre, input = pre ++ s ++ rest' ∧
      GetVarint32 input = (Some (Slice_size s), s ++ rest')
  | (None, rest') => GetVarint32 input = (None, rest') ∨
      ∃ len, GetVarint32 input = (Some len, rest') ∧ Slice_size rest' < len
  end.
Proof.
  intros Hlen. pose proof (Slice_size_nonneg value). split.
  - unfold PutLengthPrefixedSlice, PutVarint32. rewrite u32_small by lia.
    rewrite <- !app_assoc, drop_app_length.
    rewrite (GetLengthPrefixedSlice_ok _ (Slice_size value) (value ++ rest));
      [|by apply GetVarint32_Encode|lia|unfold Slice_size; rewrite length_app; lia].
    unfold Slice_size. by rewrite Nat2Z.id, take_app_length, drop_app_length.
  - unfold GetVarint32. destruct (GetVarint32Ptr input) as [[len q]|] eqn:E.
    + pose proof E as E'. apply GetVarint32Ptr_spec in E' as (pre & -> & _ & _ & Hv).
      assert (0 ≤ len) by (rewrite Hv; apply Z.mod_pos_bound; lia).
      destruct (Z.le_gt_cases len (Slice_size q)) as [Hle|Hgt].
      * rewrite (GetLengthPrefixedSlice_ok _ len q);
          [|unfold GetVarint32; by rewrite E|done..].
        exists pre. rewrite take_drop. split; [done|].
        unfold Slice_size in *. rewrite length_take. do 2 f_equal. f_equal. lia.
      * unfold GetLengthPrefixedSlice, GetVarint32. rewrite E.
        destruct (Z.leb_spec len (Slice_size q)); [lia|]. eauto.
    + unfold GetLengthPrefixedSlice, GetVarint32. rewrite E. by left.
Qed.

(** ** Witnesses *)

Lemma Fixed_roundtrip_witness :
  DecodeFixed32 (drop 1 (PutFixed32 [x61] 3735928559 ++ [x00])) = 3735928559 ∧
  PutFixed64 [x61] (DecodeFixed64 [x01; x02; x03; x04; x05; x06; x07; xff]) =
    [x61; x01; x02; x03; x04; x05; x06; x07; xff].
Proof.
  destruct (Fixed_roundtrip 3735928559 5 [x01; x02; x03; x04]
    [x01; x02; x03; x04; x05; x06; x07; xff] [x61] [x00]) as (H & _ & _ & H');
    [lia|lia|done|done|]. split; [exact H|exact H'].
Defined.

Lemma Varint_codec_witness :
  GetVarint32 (drop 0 (PutVarint32 [] 300 ++ [x07])) = (Some 300, [x07]) ∧
  PutVarint32 [] 300 = [xac; x02] ∧
  GetVarint32 [x85; x00; x07] = (Some 5, [x07]) ∧
  ∃ enc, PutVarint64 [] 18446744073709551615 = Some ([] ++ enc) ∧
         GetVarint64 (enc ++ [x07]) = (Some 18446744073709551615, [x07]).
Proof.
  destruct (Varint_codec 300 18446744073709551615 [] [x07] [x85; x00; x07] ltac:(lia) ltac:(lia))
    as ((H1 & _) & (enc & H2 & H3 & _) & _).
  split; [exact H1|]. split; [reflexivity|]. split; [reflexivity|]. exists enc. split; [exact H2|exact H3].
Defined.

Lemma LengthPrefixedSlice_roundtrip_witness :
  GetLengthPrefixedSlice (drop 1 (PutLengthPrefixedSlice [x00] (str "abc") ++ [x07]))
  = (Some (str "abc"), [x07]).
Proof. apply (LengthPrefixedSlice_roundtrip [x00] (str "abc") [x07] []). reflexivity. Defined.
