(* ===== verification/Logging.v ===== *)
(** * Printing and parsing for messages (util/logging.h, util/logging.cpp)

    Decimal printing and parsing of 64-bit integers and escaping of
    non-printable bytes.  [std::snprintf] with ["%llu"] and ["\\x%02x"] is
    modelled by the digits the C standard prescribes. *)
From stdpp Require Import base list numbers strings.
From Stdlib Require Import ZArith Lia.
From Stdlib Require Import Strings.Byte.
From S2P Require Import Prelude Slice.

#[local] Open Scope Z_scope.

(** ** Definitions *)

Definition kMaxUint64 : Z := 2 ^ 64 - 1.
Definition kLastDigitOfMaxUint64 : Z := 48 + kMaxUint64 mod 10.

(** ["%llu"]: the decimal digits of [n], most significant first; a 64-bit
    number has at most 20 of them. *)
Fixpoint decimal_digits (fuel : nat) (n : Z) (acc : bytes) : bytes :=
  match fuel with
  | O => acc
  | S fuel =>
      let acc := z2b (48 + n mod 10) :: acc in
      if n <? 10 then acc else decimal_digits fuel (n / 10) acc
  end.

Definition AppendNumberTo (dst : bytes) (num : Z) : bytes :=
  dst ++ decimal_digits 20 num [].

Definition NumberToString (num : Z) : bytes := AppendNumberTo [] num.

(** A digit of ["%02x"]. *)
Definition hex_digit (d : Z) : Byte.byte := z2b (if d <? 10 then 48 + d else 87 + d).

(** What the body of the loop appends for the character [c]; [char] is signed,
    [' ' = 32] and ['~' = 126]. *)
Definition EscapeChar (c : Byte.byte) : bytes :=
  if (32 <=? s2z c) && (s2z c <=? 126) then [c]
  else let v := Z.land (s2z c) 255 in
       [x5c; x78; hex_digit (Z.shiftr v 4); hex_digit (v mod 16)].

Fixpoint AppendEscapedStringTo (dst value : bytes) : bytes :=
  match value with
  | [] => dst
  | c :: value => AppendEscapedStringTo (dst ++ EscapeChar c) value
  end.

Definition EscapeString (value : bytes) : bytes := AppendEscapedStringTo [] value.

(** The loop of [ConsumeDecimalNumber] from [current] on: [None] is the early
    [return false]; otherwise the value and the bytes from [current]. *)
Fixpoint ConsumeDecimalNumber_loop (value : Z) (current : bytes) : option (Z * bytes) :=
  match current with
  | [] => Some (value, [])
  | b :: next =>
      let ch := b2z b in
      if (ch <? 48) || (57 <? ch) then Some (value, current)
      else if (kMaxUint64 / 10 <? value) ||
              ((value =? kMaxUint64 / 10) && (kLastDigitOfMaxUint64 <? ch)) then None
      else ConsumeDecimalNumber_loop (u64 (u64 (value * 10) + (ch - 48))) next
  end.

(** [ConsumeDecimalNumber(&in, &val)]: the returned bool, what is stored in
    [*val] ([None] when nothing is) and the new [*in]. *)
Definition ConsumeDecimalNumber (input : bytes) : bool * option Z * bytes :=
  match ConsumeDecimalNumber_loop 0 input with
  | None => (false, None, input)
  | Some (value, current) =>
      let digits_consumed := Slice_size input - Slice_size current in
      match Slice_remove_prefix digits_consumed input with
      | Some rest => (negb (digits_consumed =? 0), Some value, rest)
      | None => (false, Some value, input)
      end
  end.

(** ** Specification *)

Definition is_digit (b : Byte.byte) : Prop := 48 ≤ b2z b ≤ 57.

(** The number a string of digits denotes, continuing from [acc]. *)
Fixpoint decimal_value (acc : Z) (l : bytes) : Z :=
  match l with
  | [] => acc
  | b :: l => decimal_value (acc * 10 + (b2z b - 48)) l
  end.

(** [rest] is where a maximal run of digits ends. *)
Definition no_digit_first (rest : bytes) : Prop :=
  match rest with [] => True | b :: _ => ¬ is_digit b end.

(** Reads back an escaped string. *)
Definition unhex (b : Byte.byte) : Z := if b2z b <? 58 then b2z b - 48 else b2z b - 87.

Fixpoint unescape (fuel : nat) (l : bytes) : bytes :=
  match fuel, l with
  | S fuel, x5c :: x78 :: h :: l' :: l => z2b (16 * unhex h + unhex l') :: unescape fuel l
  | S fuel, b :: l => b :: unescape fuel l
  | _, _ => []
  end.

Definition printable (b : Byte.byte) : Prop := 32 ≤ b2z b ≤ 126.

(** ** Lemmas *)

Lemma decimal_value_app acc l1 l2 :
  decimal_value acc (l1 ++ l2) = decimal_value (decimal_value acc l1) l2.
Proof. revert acc. induction l1; intros; simpl; auto. Qed.

Lemma decimal_value_mono acc acc' l :
  Forall is_digit l → acc ≤ acc' → decimal_value acc l ≤ decimal_value acc' l.
Proof.
  intros Hl. revert acc acc'. induction Hl as [|b l Hb _ IH]; intros; simpl; [done|].
  apply IH. lia.
Qed.

Lemma decimal_value_ge acc l : Forall is_digit l → 0 ≤ acc → acc ≤ decimal_value acc l.
Proof.
  intros Hl. revert acc. induction Hl as [|b l Hb _ IH]; intros acc Hacc; simpl; [lia|].
  unfold is_digit in Hb. etransitivity; [|apply IH]; lia.
Qed.

(** The digits printed denote the number, and number at most [fuel]. *)
Lemma decimal_digits_spec fuel n acc :
  0 ≤ n < 10 ^ Z.of_nat fuel → (0 < fuel)%nat →
  ∃ ds, decimal_digits fuel n acc = ds ++ acc ∧ Forall is_digit ds ∧
        decimal_value 0 ds = n ∧ (1 ≤ length ds ≤ fuel)%nat.
Proof.
  revert n acc. induction fuel as [|fuel IH]; intros n acc Hn Hf; [lia|].
  pose proof (Z.mod_pos_bound n 10 ltac:(lia)).
  assert (Hd : is_digit (z2b (48 + n mod 10)))
    by (unfold is_digit; rewrite b2z_z2b_small by lia; lia).
  simpl. destruct (Z.ltb_spec n 10).
  - exists [z2b (48 + n mod 10)]. simpl. split_and!; [done|by constructor| |lia|lia].
    rewrite b2z_z2b_small, Z.mod_small by lia. lia.
  - rewrite Nat2Z.inj_succ, Z.pow_succ_r in Hn by lia.
    destruct fuel as [|fuel]; [simpl in Hn; lia|].
    destruct (IH (n / 10) (z2b (48 + n mod 10) :: acc)) as (ds & -> & Hds & Hv & Hl);
      [split; [apply Z.div_pos; lia|apply Z.div_lt_upper_bound; lia]|lia|].
    exists (ds ++ [z2b (48 + n mod 10)]).
    rewrite <- app_assoc, length_app, decimal_value_app, Hv. simpl.
    split_and!; [done|apply Forall_app; split; [done|by constructor]| |lia|lia].
    rewrite b2z_z2b_small by lia. pose proof (Z.div_mod n 10). lia.
Qed.

(** The overflow test of the parser is exact. *)
Lemma overflow_test value d :
  0 ≤ value ≤ kMaxUint64 → 0 ≤ d ≤ 9 →
  (kMaxUint64 / 10 <? value) ||
    ((value =? kMaxUint64 / 10) && (kLastDigitOfMaxUint64 <? 48 + d))
  = (kMaxUint64 <? value * 10 + d).
Proof.
  unfold kLastDigitOfMaxUint64, kMaxUint64. intros.
  change ((2 ^ 64 - 1) / 10) with 1844674407370955161.
  change (2 ^ 64 - 1) with 18446744073709551615 in *.
  change (18446744073709551615 mod 10) with 5.
  destruct (Z.ltb_spec 1844674407370955161 value),
    (Z.eqb_spec value 1844674407370955161), (Z.ltb_spec (48 + 5) (48 + d)),
    (Z.ltb_spec 18446744073709551615 (value * 10 + d)); simpl; try done; lia.
Qed.

Lemma ConsumeDecimalNumber_loop_spec ds value rest :
  Forall is_digit ds → no_digit_first rest → 0 ≤ value ≤ kMaxUint64 →
  ConsumeDecimalNumber_loop value (ds ++ rest) =
  if decimal_value value ds <=? kMaxUint64 then Some (decimal_value value ds, rest)
  else None.
Proof.
  intros Hds. revert value. induction Hds as [|b ds Hb Hds IH]; intros value Hr Hv; simpl.
  - destruct (Z.leb_spec value kMaxUint64); [|lia].
    destruct rest as [|b rest]; [done|]. simpl in *. unfold is_digit in Hr.
    destruct (Z.ltb_spec (b2z b) 48), (Z.ltb_spec 57 (b2z b)); simpl; try done; lia.
  - unfold is_digit in Hb.
    destruct (Z.ltb_spec (b2z b) 48), (Z.ltb_spec 57 (b2z b)); try lia. simpl.
    replace (b2z b) with (48 + (b2z b - 48)) at 1 by lia.
    rewrite overflow_test by lia.
    destruct (Z.ltb_spec kMaxUint64 (value * 10 + (b2z b - 48))).
    + destruct (Z.leb_spec (decimal_value (value * 10 + (b2z b - 48)) ds) kMaxUint64);
        [|done].
      pose proof (decimal_value_ge (value * 10 + (b2z b - 48)) ds Hds). lia.
    + unfold kMaxUint64 in *.
      rewrite (u64_small (value * 10)), u64_small by lia. apply IH; [done|lia].
Qed.

(** Every string splits into its leading digits and the rest. *)
Lemma digits_split s :
  ∃ ds rest, s = ds ++ rest ∧ Forall is_digit ds ∧ no_digit_first rest.
Proof.
  induction s as [|b s (ds & rest & -> & Hds & Hr)]; [by exists [], []|].
  destruct (decide (48 ≤ b2z b ≤ 57)) as [Hb|Hb].
  - exists (b :: ds), rest. split_and!; [done|by constructor|done].
  - exists [], (b :: ds ++ rest). by split_and!.
Qed.

Lemma AppendEscapedStringTo_app dst value :
  AppendEscapedStringTo dst value = dst ++ (value ≫= EscapeChar).
Proof.
  revert dst. induction value as [|c value IH]; intros dst; simpl.
  - by rewrite app_nil_r.
  - by rewrite IH, <- app_assoc.
Qed.

Lemma EscapeString_bind value : EscapeString value = value ≫= EscapeChar.
Proof. apply AppendEscapedStringTo_app. Qed.

(** Facts about one escaped byte, by computation over the 256 bytes. *)
Definition EscapeChar_ok (c : Byte.byte) : bool :=
  forallb (λ b, (32 <=? b2z b) && (b2z b <=? 126)) (EscapeChar c) &&
  if (32 <=? b2z c) && (b2z c <=? 126) then bool_decide (EscapeChar c = [c])
  else match EscapeChar c with
       | [a; b; h; l] => bool_decide (a = x5c) && bool_decide (b = x78) &&
                         bool_decide (z2b (16 * unhex h + unhex l) = c)
       | _ => false
       end.

Lemma EscapeChar_all c : EscapeChar_ok c = true.
Proof. revert c. apply byte_forallb. by vm_compute. Qed.

Lemma EscapeChar_printable c : Forall printable (EscapeChar c).
Proof.
  pose proof (EscapeChar_all c) as H. unfold EscapeChar_ok in H.
  apply andb_true_iff in H as [H _]. apply Forall_forall. intros b Hb.
  apply list_elem_of_In in Hb. rewrite forallb_forall in H.
  specialize (H b Hb). unfold printable. lia.
Qed.

Lemma EscapeChar_self c : printable c → EscapeChar c = [c].
Proof.
  unfold printable. intros Hc. pose proof (EscapeChar_all c) as H.
  unfold EscapeChar_ok in H. apply andb_true_iff in H as [_ H].
  destruct (Z.leb_spec 32 (b2z c)), (Z.leb_spec (b2z c) 126); try lia. simpl in H.
  by apply bool_decide_eq_true in H.
Qed.

Lemma EscapeChar_hex c :
  ¬ printable c →
  ∃ h l, EscapeChar c = [x5c; x78; h; l] ∧ z2b (16 * unhex h + unhex l) = c.
Proof.
  unfold printable. intros Hc. pose proof (EscapeChar_all c) as H.
  unfold EscapeChar_ok in H. apply andb_true_iff in H as [_ H].
  destruct (Z.leb_spec 32 (b2z c)), (Z.leb_spec (b2z c) 126); try lia; simpl in H;
    (destruct (EscapeChar c) as [|a [|b [|h [|l []]]]]; try discriminate H;
     apply andb_true_iff in H as [[Ha Hb]%andb_true_iff Hx];
     apply bool_decide_eq_true in Ha, Hb, Hx; subst; eauto).
Qed.

Lemma length_EscapeChar c : (1 ≤ length (EscapeChar c))%nat.
Proof. unfold EscapeChar. destruct (_ && _); simpl; lia. Qed.

Lemma unescape_cons fuel c l :
  c ≠ x5c → unescape (S fuel) (EscapeChar c ++ l) = c :: unescape fuel l.
Proof.
  intros Hc. destruct (decide (32 ≤ b2z c ≤ 126)) as [Hp|Hp].
  - rewrite EscapeChar_self by done. simpl. by destruct c.
  - destruct (EscapeChar_hex c Hp) as (h & l' & -> & <-). done.
Qed.

Lemma unescape_EscapeString fuel s :
  Forall (λ c, c ≠ x5c) s → (length s ≤ fuel)%nat →
  unescape fuel (EscapeString s) = s.
Proof.
  rewrite EscapeString_bind. intros Hs. revert fuel.
  induction Hs as [|c s Hc Hs IH]; intros fuel Hl; simpl in *.
  - by destruct fuel.
  - destruct fuel as [|fuel]; [lia|]. rewrite unescape_cons by done.
    f_equal. apply IH. lia.
Qed.

(** ** Properties *)

(** ConsumeDecimalNumber on an input that starts with a maximal run [ds] of
    decimal digits: with no digit it returns false; when the number fits in 64
    bits it is stored and the run is consumed; otherwise it returns false
    without storing anything or moving the slice. *)
Theorem ConsumeDecimalNumber_spec ds rest :
  Forall is_digit ds → no_digit_first rest →
  ConsumeDecimalNumber (ds ++ rest) =
  if decimal_value 0 ds <=? kMaxUint64
  then (negb (bool_decide (ds = [])), Some (decimal_value 0 ds), rest)
  else (false, None, ds ++ rest).
Proof.
  intros Hds Hr. unfold ConsumeDecimalNumber.
  rewrite ConsumeDecimalNumber_loop_spec by (done || (unfold kMaxUint64; lia)).
  destruct (decimal_value 0 ds <=? kMaxUint64); [|done].
  replace (Slice_size (ds ++ rest) - Slice_size rest) with (Slice_size ds)
    by (unfold Slice_size; rewrite length_app; lia).
  rewrite Slice_remove_prefix_app. do 3 f_equal.
  by destruct ds.
Qed.

(** NumberToString prints every 64-bit number with 1 to 20 digits (the
    30-byte buffer of AppendNumberTo is never truncated), and
    ConsumeDecimalNumber reads it back up to the first non-digit. *)
Theorem NumberToString_roundtrip n rest :
  0 ≤ n ≤ kMaxUint64 → no_digit_first rest →
  ConsumeDecimalNumber (NumberToString n ++ rest) = (true, Some n, rest) ∧
  1 ≤ Slice_size (NumberToString n) ≤ 20.
Proof.
  intros Hn Hr. unfold NumberToString, AppendNumberTo. rewrite app_nil_l.
  destruct (decimal_digits_spec 20 n []) as (ds & -> & Hds & Hv & Hl);
    [unfold kMaxUint64 in Hn; simpl; lia|lia|].
  rewrite app_nil_r. split; [|unfold Slice_size; lia].
  unfold ConsumeDecimalNumber.
  rewrite ConsumeDecimalNumber_loop_spec, Hv by (done || (unfold kMaxUint64; lia)).
  destruct (Z.leb_spec n kMaxUint64); [|lia].
  replace (Slice_size (ds ++ rest) - Slice_size rest) with (Slice_size ds)
    by (unfold Slice_size; rewrite length_app; lia).
  rewrite Slice_remove_prefix_app. do 3 f_equal.
  destruct ds; [simpl in Hl; lia|done].
Qed.

(** The escaped form of any string consists of printable characters, is the
    string itself when that is printable, and determines the string as long as
    it holds no backslash (a backslash is printed as it is). *)
Theorem EscapeString_spec s :
  Forall printable (EscapeString s) ∧
  (Forall printable s → EscapeString s = s) ∧
  (Forall (λ c, c ≠ x5c) s → unescape (length s) (EscapeString s) = s).
Proof.
  split_and!.
  - rewrite EscapeString_bind. induction s as [|c s IH]; simpl; [done|].
    apply Forall_app. split; [apply EscapeChar_printable|done].
  - rewrite EscapeString_bind. induction 1 as [|c s Hc _ IH]; [done|].
    by rewrite bind_cons, EscapeChar_self, IH.
  - intros Hs. by apply unescape_EscapeString.
Qed.

(** ** Witnesses *)

Lemma ConsumeDecimalNumber_spec_witness :
  ConsumeDecimalNumber (str "18446744073709551616" ++ str "z") =
    (false, None, str "18446744073709551616z") ∧
  ConsumeDecimalNumber (str "0042" ++ str "z") = (true, Some 42, str "z").
Proof.
  split.
  - rewrite (ConsumeDecimalNumber_spec (str "18446744073709551616") (str "z"));
      [reflexivity|repeat constructor; done|].
    unfold no_digit_first, is_digit. simpl. intros [_ H]. by apply H.
  - rewrite (ConsumeDecimalNumber_spec (str "0042") (str "z"));
      [reflexivity|repeat constructor; done|].
    unfold no_digit_first, is_digit. simpl. intros [_ H]. by apply H.
Defined.

Lemma NumberToString_roundtrip_witness :
  ConsumeDecimalNumber (NumberToString 18446744073709551615 ++ str "]") =
    (true, Some 18446744073709551615, str "]") ∧
  1 ≤ Slice_size (NumberToString 18446744073709551615) ≤ 20.
Proof.
  apply (NumberToString_roundtrip 18446744073709551615 (str "]")).
  - unfold kMaxUint64. lia.
  - unfold no_digit_first, is_digit. simpl. intros [_ H]. by apply H.
Defined.

Lemma EscapeString_spec_witness :
  EscapeString [x61; x0a; xff] = str "a\x0a\xff" ∧
  unescape 3 (EscapeString [x61; x0a; xff]) = [x61; x0a; xff].
Proof.
  split; [reflexivity|].
  apply (EscapeString_spec [x61; x0a; xff]). repeat constructor; discriminate.
Defined.
