(* ===== verification/Status.v ===== *)
(** * Status (include/lldb/status.h, util/status.cpp)

    A [Status] holds [state_], null for success and otherwise a block made by
    [new char[]] with the length of the message, the code and the message.
    The first part models the contents of the block, the second the ownership
    of the blocks by status variables (copies, moves, destruction), where an
    invalid access, a double [delete[]] or a leak would show. *)
From stdpp Require Import base list gmap fin_maps numbers strings sets.
From Stdlib Require Import ZArith Lia.
From Stdlib Require Import Strings.Byte.
From S2P Require Import Prelude Slice Coding Logging.

#[local] Open Scope Z_scope.

(** ** The block *)

Inductive Code := kOk | kNotFound | kCorruption | kNotSupported | kInvalidArgument | kIOError.

Definition Code_value (c : Code) : Z :=
  match c with
  | kOk => 0 | kNotFound => 1 | kCorruption => 2
  | kNotSupported => 3 | kInvalidArgument => 4 | kIOError => 5
  end.

#[export] Instance Code_eq_dec : EqDecision Code.
Proof. solve_decision. Defined.

(** The contents of [state_]: [None] is the null pointer. *)
Abbreviation Status := (option bytes).

Definition Status_OK : Status := None.

(** [Status(code, msg, msg2)] in a fresh array with indeterminate bytes
    [junk]; [None] is a failed assertion or a write outside of the array.
    [uint32_t] values are copied in little-endian order. *)
Definition Status_new (junk : nat → Byte.byte) (code : Code) (msg msg2 : bytes) : option bytes :=
  if decide (code = kOk) then None else
  let len1 := u32 (Slice_size msg) in
  let len2 := u32 (Slice_size msg2) in
  let size := u32 (len1 + (if len2 =? 0 then 0 else u32 (2 + len2))) in
  let result := new_bytes junk (Z.to_nat (u32 (size + 5))) in
  result ← mem_write result 0 (EncodeFixed32 size);
  result ← mem_write result 4 [z2b (Code_value code)];
  result ← mem_write result 5 (take (Z.to_nat len1) msg);
  if len2 =? 0 then Some result
  else
    let l1 := Z.to_nat len1 in
    result ← mem_write result (5 + l1) (str ":");
    result ← mem_write result (6 + l1) (str " ");
    mem_write result (7 + l1) (take (Z.to_nat len2) msg2).

(** [CopyState(state)]: the contents of the copy. *)
Definition CopyState (junk : nat → Byte.byte) (state : bytes) : option bytes :=
  size ← mem_read state 0 4;
  let n := Z.to_nat (u32 (DecodeFixed32 size + 5)) in
  src ← mem_read state 0 n;
  mem_write (new_bytes junk n) 0 src.

(** The message a status made from [msg] and [msg2] carries. *)
Definition message (msg msg2 : bytes) : bytes :=
  msg ++ match msg2 with [] => [] | _ => str ": " ++ msg2 end.

(** The block of a status, as the comment in status.h gives it. *)
Definition status_block (code : Code) (m : bytes) : bytes :=
  EncodeFixed32 (Slice_size m) ++ z2b (Code_value code) :: m.

Definition NotFound (msg msg2 : bytes) : Status := Some (status_block kNotFound (message msg msg2)).
Definition Corruption (msg msg2 : bytes) : Status := Some (status_block kCorruption (message msg msg2)).
Definition NotSupported (msg msg2 : bytes) : Status :=
  Some (status_block kNotSupported (message msg msg2)).
Definition InvalidArgument (msg msg2 : bytes) : Status :=
  Some (status_block kInvalidArgument (message msg msg2)).
Definition IOError (msg msg2 : bytes) : Status := Some (status_block kIOError (message msg msg2)).

(** [code()]: a [Code] holds whatever the [char] at offset 4 holds. *)
Definition Status_code (s : Status) : Z :=
  match s with
  | None => Code_value kOk
  | Some state => match state !! 4%nat with Some b => s2z b | None => 0 end
  end.

Definition Status_ok (s : Status) : bool := match s with None => true | Some _ => false end.
Definition IsNotFound (s : Status) : bool := Status_code s =? Code_value kNotFound.
Definition IsCorruption (s : Status) : bool := Status_code s =? Code_value kCorruption.
Definition IsIOError (s : Status) : bool := Status_code s =? Code_value kIOError.
Definition IsNotSupportedError (s : Status) : bool := Status_code s =? Code_value kNotSupported.
Definition IsInvalidArgument (s : Status) : bool := Status_code s =? Code_value kInvalidArgument.

(** [ToString()]; [None] is a read outside of [state_]. *)
Definition Status_ToString (s : Status) : option bytes :=
  match s with
  | None => Some (str "OK")
  | Some state =>
      let code := Status_code s in
      let type :=
        if code =? 0 then str "OK"
        else if code =? 1 then str "NotFound: "
        else if code =? 2 then str "Corruption: "
        else if code =? 3 then str "Not implemented: "
        else if code =? 4 then str "Invalid argument: "
        else if code =? 5 then str "IO error: "
        else (str "Unknown code(" ++ (if code <? 0 then str "-" else []) ++
              NumberToString (Z.abs code) ++ str "): ") in
      length ← mem_read state 0 4;
      text ← mem_read state 5 (Z.to_nat (DecodeFixed32 length));
      Some (type ++ text)
  end.

(** ** Ownership of the blocks *)

(** Live blocks of the heap and the status variables of the program. *)
Record world := { heap : gmap positive bytes; vars : gmap nat (option positive) }.

Inductive status_op :=
  | Construct (x : nat) (arg : option (Code * bytes * bytes))
      (* [Status()], or [Status(code, msg, msg2)] *)
  | CopyCtor (x rhs : nat)
  | CopyAssign (x rhs : nat)
  | MoveCtor (x rhs : nat)
  | MoveAssign (x rhs : nat)
  | Destroy (x : nat).

(** [delete[] p]: a null pointer is fine, a dead one is an error. *)
Definition free (w : world) (p : option positive) : option world :=
  match p with
  | None => Some w
  | Some p => _ ← (heap w !! p); Some {| heap := delete p (heap w); vars := vars w |}
  end.

(** [new char[]] with contents [b], the pointer stored in [x]. *)
Definition alloc_in (w : world) (x : nat) (b : bytes) : world :=
  let p := fresh (dom (heap w)) in
  {| heap := <[p := b]> (heap w); vars := <[x := Some p]> (vars w) |}.

Definition set_var (w : world) (x : nat) (p : option positive) : world :=
  {| heap := heap w; vars := <[x := p]> (vars w) |}.

(** [state_ = (rhs == nullptr) ? nullptr : CopyState(rhs)] for variable [x]. *)
Definition assign_copy (junk : nat → Byte.byte) (w : world) (x : nat) (rhs : option positive) :
  option world :=
  match rhs with
  | None => Some (set_var w x None)
  | Some q => b ← (heap w !! q); c ← CopyState junk b; Some (alloc_in w x c)
  end.

Definition run_op (junk : nat → Byte.byte) (w : world) (op : status_op) : option world :=
  match op with
  | Construct x None => Some (set_var w x None)
  | Construct x (Some (code, msg, msg2)) =>
      b ← Status_new junk code msg msg2; Some (alloc_in w x b)
  | CopyCtor x rhs => q ← (vars w !! rhs); assign_copy junk w x q
  | CopyAssign x rhs =>
      p ← (vars w !! x); q ← (vars w !! rhs);
      if decide (p = q) then Some w
      else w ← free w p; assign_copy junk w x q
  | MoveCtor x rhs => q ← (vars w !! rhs); Some (set_var (set_var w x q) rhs None)
  | MoveAssign x rhs =>
      p ← (vars w !! x); q ← (vars w !! rhs); Some (set_var (set_var w x q) rhs p)
  | Destroy x =>
      p ← (vars w !! x); w ← free w p;
      Some {| heap := heap w; vars := delete x (vars w) |}
  end.

(** ** Specification *)

(** Each variable has the value of its own block. *)
Definition abs_val (h : gmap positive bytes) (p : option positive) : Status := p ≫= λ p, h !! p.
Definition absw (w : world) : gmap nat Status := abs_val (heap w) <$> vars w.

(** The operations on values. *)
Definition spec_op (s : gmap nat Status) (op : status_op) : gmap nat Status :=
  match op with
  | Construct x None => <[x := Status_OK]> s
  | Construct x (Some (code, msg, msg2)) =>
      <[x := Some (status_block code (message msg msg2))]> s
  | CopyCtor x rhs | CopyAssign x rhs => <[x := default None (s !! rhs)]> s
  | MoveCtor x rhs => <[rhs := None]> (<[x := default None (s !! rhs)]> s)
  | MoveAssign x rhs => <[rhs := default None (s !! x)]> (<[x := default None (s !! rhs)]> s)
  | Destroy x => delete x s
  end.

(** Constructors make a new object from live ones; an error has a code other than
    [kOk], and its message fits in 32 bits. *)
Definition op_pre (s : gmap nat Status) (op : status_op) : Prop :=
  match op with
  | Construct x None => x ∉ dom s
  | Construct x (Some (code, msg, msg2)) =>
      (x ∉ dom s) ∧ code ≠ kOk ∧ Slice_size (message msg msg2) + 5 < 2 ^ 32
  | CopyCtor x rhs | MoveCtor x rhs => (x ∉ dom s) ∧ rhs ∈ dom s
  | CopyAssign x rhs | MoveAssign x rhs => x ∈ dom s ∧ rhs ∈ dom s
  | Destroy x => x ∈ dom s
  end.

(** A program: a sequence of operations. *)
Fixpoint run_ops (junk : nat → Byte.byte) (w : world) (ops : list status_op) : option world :=
  match ops with
  | [] => Some w
  | op :: ops => w ← run_op junk w op; run_ops junk w ops
  end.

Fixpoint ops_pre (s : gmap nat Status) (ops : list status_op) : Prop :=
  match ops with
  | [] => True
  | op :: ops => op_pre s op ∧ ops_pre (spec_op s op) ops
  end.

#[export] Instance op_pre_dec s op : Decision (op_pre s op).
Proof. destruct op as [x [[[??]?]|]|??|??|??|??|?]; simpl; apply _. Defined.

#[export] Instance ops_pre_dec s ops : Decision (ops_pre s ops).
Proof. revert s. induction ops as [|op ops IH]; intros s; simpl; apply _. Defined.

(** Every variable owns a live, well-formed block of its own; every live block
    is owned, so nothing leaks. *)
Definition good_block (b : bytes) : Prop :=
  ∃ code m, b = status_block code m ∧ Slice_size m + 5 < 2 ^ 32.

Record wf (w : world) : Prop := {
  wf_live x p : vars w !! x = Some (Some p) → ∃ b, heap w !! p = Some b ∧ good_block b;
  wf_inj x y p : vars w !! x = Some (Some p) → vars w !! y = Some (Some p) → x = y;
  wf_owned p : is_Some (heap w !! p) → ∃ x, vars w !! x = Some (Some p) }.

(** ** Lemmas: the block *)

Lemma length_EncodeFixed32 v : length (EncodeFixed32 v) = 4%nat.
Proof. done. Qed.

Lemma new_bytes_split junk n k :
  (k ≤ n)%nat → ∃ a b, new_bytes junk n = a ++ b ∧ length a = k ∧ length b = (n - k)%nat.
Proof.
  intros. exists (take k (new_bytes junk n)), (drop k (new_bytes junk n)).
  by rewrite take_drop, length_take, length_drop, length_new_bytes, Nat.min_l.
Qed.

Lemma message_size msg msg2 :
  Slice_size (message msg msg2)
  = Slice_size msg + (if Slice_size msg2 =? 0 then 0 else 2 + Slice_size msg2).
Proof.
  unfold message, Slice_size. rewrite length_app.
  destruct (Z.eqb_spec (Z.of_nat (length msg2)) 0) as [E|E].
  - destruct msg2; [simpl; lia|done].
  - destruct msg2; [done|]. rewrite length_app. simpl. lia.
Qed.

(** Filling a buffer from left to right. *)
Lemma mem_write_next dst a n s :
  take n dst = a → (n + length s ≤ length dst)%nat →
  ∃ dst', mem_write dst n s = Some dst' ∧ take (n + length s) dst' = a ++ s ∧
          length dst' = length dst.
Proof.
  intros Ht Hn. assert (length a = n) as Ha by (subst a; rewrite length_take; lia).
  unfold mem_write. destruct (Nat.leb_spec (n + length s) (length dst)); [|lia].
  eexists. split; [done|]. rewrite Ht. split.
  - rewrite app_assoc, <- Ha, <- length_app. by rewrite take_app_length.
  - rewrite !length_app, length_drop. lia.
Qed.

Lemma Status_new_spec junk code msg msg2 :
  code ≠ kOk → Slice_size (message msg msg2) + 5 < 2 ^ 32 →
  Status_new junk code msg msg2 = Some (status_block code (message msg msg2)).
Proof.
  intros Hc H. pose proof (message_size msg msg2) as E.
  pose proof (Slice_size_nonneg msg). pose proof (Slice_size_nonneg msg2).
  pose proof (Slice_size_nonneg (message msg msg2)).
  unfold Status_new. rewrite decide_False by done. rewrite (u32_small (Slice_size msg)), (u32_small (Slice_size msg2))
    by (destruct (Z.eqb_spec (Slice_size msg2) 0); lia).
  assert (u32 (Slice_size msg + (if Slice_size msg2 =? 0 then 0 else u32 (2 + Slice_size msg2)))
          = Slice_size (message msg msg2)) as ->.
  { rewrite E in H |- *. destruct (Slice_size msg2 =? 0);
      [|rewrite (u32_small (2 + _)) by lia]; apply u32_small; lia. }
  unfold status_block. set (size := Slice_size (message msg msg2)) in *.
  rewrite (u32_small (size + 5)) by lia.
  set (buf := new_bytes junk (Z.to_nat (size + 5))).
  assert (length buf = Z.to_nat (size + 5)) as Hb by apply length_new_bytes.
  assert (size = Z.of_nat (length (message msg msg2))) as Hs by done.
  unfold message in Hs. rewrite length_app in Hs.
  destruct (mem_write_next buf [] 0 (EncodeFixed32 size)) as (b1 & -> & T1 & L1);
    [done|rewrite length_EncodeFixed32; lia|]. cbn [mbind option_bind].
  destruct (mem_write_next b1 _ 4 [z2b (Code_value code)] T1) as (b2 & -> & T2 & L2);
    [simpl; lia|]. cbn [mbind option_bind].
  rewrite !take_ge by (unfold Slice_size; lia).
  replace (Z.to_nat (Slice_size msg)) with (length msg) by (unfold Slice_size; lia).
  destruct (mem_write_next b2 _ 5 msg T2) as (b3 & -> & T3 & L3); [lia|].
  cbn [mbind option_bind].
  clearbody size. unfold message in *. destruct msg2 as [|c msg2].
  - change (Slice_size [] =? 0) with true. cbv iota.
    rewrite take_ge in T3 by (simpl in *; lia). subst b3.
    rewrite app_nil_r, <- app_assoc. done.
  - change (Slice_size (c :: msg2) =? 0) with false. cbv iota.
    set (m2 := c :: msg2) in *.
    rewrite length_app in Hs. change (length (str ": ")) with 2%nat in Hs.
    destruct (mem_write_next b3 _ (5 + length msg) (str ":") T3) as (b4 & -> & T4 & L4);
      [simpl; lia|]. cbn [mbind option_bind].
    rewrite <- Nat.add_assoc, (Nat.add_comm (length msg)), Nat.add_assoc in T4.
    destruct (mem_write_next b4 _ (6 + length msg) (str " ") T4) as (b5 & -> & T5 & L5);
      [simpl; lia|]. cbn [mbind option_bind].
    rewrite <- Nat.add_assoc, (Nat.add_comm (length msg)), Nat.add_assoc in T5.
    destruct (mem_write_next b5 _ (7 + length msg) m2 T5) as (b6 & -> & T6 & L6);
      [lia|].
    rewrite take_ge in T6 by lia. subst b6. by rewrite <- !app_assoc.
Qed.

Lemma status_block_read code m :
  Slice_size m + 5 < 2 ^ 32 →
  mem_read (status_block code m) 0 4 = Some (EncodeFixed32 (Slice_size m)) ∧
  DecodeFixed32 (EncodeFixed32 (Slice_size m)) = Slice_size m ∧
  mem_read (status_block code m) 5 (Z.to_nat (Slice_size m)) = Some m.
Proof.
  intros H. pose proof (Slice_size_nonneg m). split_and!.
  - by apply (mem_read_mid [] (EncodeFixed32 (Slice_size m))).
  - rewrite <- (app_nil_r (EncodeFixed32 _)). apply DecodeFixed32_Encode. lia.
  - unfold status_block.
    rewrite (app_assoc _ [z2b (Code_value code)] m : _ ++ z2b (Code_value code) :: m = _).
    rewrite <- (app_nil_r m) at 2.
    apply mem_read_mid; [done|]. unfold Slice_size. lia.
Qed.

Lemma status_block_length code m : length (status_block code m) = (5 + length m)%nat.
Proof. unfold status_block. rewrite length_app. simpl. lia. Qed.

Lemma CopyState_spec junk b : good_block b → CopyState junk b = Some b.
Proof.
  intros (code & m & -> & H). pose proof (Slice_size_nonneg m).
  destruct (status_block_read code m H) as (R & D & _). unfold CopyState.
  rewrite R. cbn [mbind option_bind]. rewrite D, u32_small by lia.
  pose proof (status_block_length code m) as L. unfold Slice_size in *.
  assert (Z.to_nat (Z.of_nat (length m) + 5) = length (status_block code m)) as -> by lia.
  set (b := status_block code m) in *.
  pose proof (mem_read_mid [] b [] 0 (length b) eq_refl eq_refl) as R'.
  pose proof (mem_write_mid [] (new_bytes junk (length b)) [] b 0 eq_refl
    (length_new_bytes _ _)) as W.
  rewrite !app_nil_r in *. simpl app in *. rewrite R'. cbn [mbind option_bind]. exact W.
Qed.

(** ** Lemmas: ownership *)

(** [x] owns no block. *)
Definition no_block (w : world) (x : nat) : Prop := ∀ p, vars w !! x ≠ Some (Some p).

Lemma absw_lookup w x : absw w !! x = abs_val (heap w) <$> vars w !! x.
Proof. apply lookup_fmap. Qed.

Lemma set_null_ok w x :
  wf w → no_block w x →
  wf (set_var w x None) ∧ absw (set_var w x None) = <[x := None]> (absw w).
Proof.
  intros [Hl Hi Ho] Hx. split; [split|]; simpl.
  - intros y p [[? ?]|[? H]]%lookup_insert_Some; [done|]. by apply (Hl y).
  - intros y z p [[? ?]|[? H]]%lookup_insert_Some [[? ?]|[? H']]%lookup_insert_Some; try done.
    by eapply Hi.
  - intros p Hp. destruct (Ho p Hp) as [y Hy]. exists y. apply lookup_insert_Some. right.
    split; [|done]. intros ->. by apply (Hx p).
  - unfold absw, set_var. simpl. by rewrite fmap_insert.
Qed.

Lemma alloc_ok w x b :
  wf w → no_block w x → good_block b →
  wf (alloc_in w x b) ∧ absw (alloc_in w x b) = <[x := Some b]> (absw w).
Proof.
  intros [Hl Hi Ho] Hx Hb. unfold alloc_in. set (q := fresh (dom (heap w))).
  assert (heap w !! q = None) as Hq by (apply not_elem_of_dom, is_fresh).
  assert (Hfr : ∀ y p, vars w !! y = Some (Some p) → p ≠ q).
  { intros y p H ->. destruct (Hl y q H) as (? & ? & _). congruence. }
  split; [split|]; simpl.
  - intros y p [[-> [= <-]]|[? H]]%lookup_insert_Some.
    + exists b. by rewrite lookup_insert_eq.
    + rewrite lookup_insert_ne by (symmetry; by eapply Hfr). by apply (Hl y).
  - intros y z p [[-> [= <-]]|[? H]]%lookup_insert_Some [[-> H']|[? H']]%lookup_insert_Some;
      [done|by destruct (Hfr z q)| |by eapply Hi].
    injection H' as <-. by destruct (Hfr y q).
  - intros p Hp. destruct (decide (p = q)) as [->|Hne].
    + exists x. apply lookup_insert_eq.
    + rewrite lookup_insert_ne in Hp by done. destruct (Ho p Hp) as [y Hy]. exists y.
      apply lookup_insert_Some. right. split; [|done]. intros ->. by apply (Hx p).
  - apply map_eq. intros y. rewrite absw_lookup. simpl.
    destruct (decide (y = x)) as [->|Hne].
    + rewrite !lookup_insert_eq. simpl. by rewrite lookup_insert_eq.
    + rewrite !lookup_insert_ne, absw_lookup by done.
      destruct (vars w !! y) as [[p|]|] eqn:E; simpl; [|done..].
      rewrite lookup_insert_ne; [done|]. symmetry. by eapply Hfr.
Qed.

(** After [delete[] state_] the variable is as good as null. *)
Lemma free_ok w x p :
  wf w → vars w !! x = Some p →
  ∃ w', free w p = Some w' ∧ vars w' = vars w ∧
    (∀ q, p ≠ Some q → heap w' !! q = heap w !! q) ∧
    wf (set_var w' x None) ∧ absw (set_var w' x None) = <[x := None]> (absw w).
Proof.
  intros Hw Hx. destruct p as [p|]; simpl.
  - destruct (wf_live w Hw x p Hx) as (b & Hb & _). rewrite Hb. cbn [mbind option_bind].
    eexists. split; [done|]. split; [done|]. split.
    { intros q Hq. simpl. rewrite lookup_delete_ne; congruence. }
    destruct Hw as [Hl Hi Ho]. split; [split|]; simpl.
    + intros y q [[? ?]|[? H]]%lookup_insert_Some; [done|].
      rewrite lookup_delete_ne; [by apply (Hl y)|]. intros ->. by rewrite (Hi x y q) in *.
    + intros y z q [[? ?]|[? H]]%lookup_insert_Some [[? ?]|[? H']]%lookup_insert_Some; try done.
      by eapply Hi.
    + intros q [c [Hc Hq]%lookup_delete_Some]. destruct (Ho q) as [y Hy]; [by exists c|].
      exists y. apply lookup_insert_Some. right. split; [|done]. congruence.
    + apply map_eq. intros y. rewrite absw_lookup. simpl.
      destruct (decide (y = x)) as [->|Hne]; [by rewrite !lookup_insert_eq|].
      rewrite !lookup_insert_ne, absw_lookup by done.
      destruct (vars w !! y) as [[q|]|] eqn:E; simpl; [|done..].
      rewrite lookup_delete_ne; [done|]. intros ->. by apply Hne, (Hi y x q).
  - exists w. split; [done|]. split; [done|]. split; [done|].
    apply set_null_ok; [done|]. intros q. congruence.
Qed.

(** Storing a copy of the value [rhs] points to in a variable that owns
    nothing. *)
Lemma assign_copy_ok junk w x q :
  wf w → no_block w x → (∀ p, q = Some p → ∃ b, heap w !! p = Some b ∧ good_block b) →
  ∃ w', assign_copy junk w x q = Some w' ∧ wf w' ∧
        absw w' = <[x := abs_val (heap w) q]> (absw w).
Proof.
  intros Hw Hx Hq. destruct q as [q|]; simpl.
  - destruct (Hq q eq_refl) as (b & Hb & Hg). rewrite Hb. cbn [mbind option_bind].
    rewrite CopyState_spec by done. cbn [mbind option_bind].
    eexists. split; [done|]. by apply alloc_ok.
  - eexists. split; [done|]. by apply set_null_ok.
Qed.

(** [assign_copy] overwrites the old pointer of [x]. *)
Lemma assign_copy_set junk w x q :
  assign_copy junk (set_var w x None) x q = assign_copy junk w x q.
Proof.
  destruct q as [q|]; simpl.
  - destruct (heap w !! q) as [b|]; [|done]. cbn [mbind option_bind]. destruct (CopyState junk b); [|done].
    cbn [mbind option_bind]. unfold alloc_in. simpl. by rewrite insert_insert_eq.
  - unfold set_var. simpl. by rewrite insert_insert_eq.
Qed.

(** Exchanging the pointers of two variables. *)
Lemma swap_ok w x y p q :
  wf w → vars w !! x = Some p → vars w !! y = Some q →
  wf (set_var (set_var w x q) y p) ∧
  absw (set_var (set_var w x q) y p)
  = <[y := abs_val (heap w) p]> (<[x := abs_val (heap w) q]> (absw w)).
Proof.
  intros [Hl Hi Ho] Hx Hy.
  assert (Hlk : ∀ z r, vars (set_var (set_var w x q) y p) !! z = Some (Some r) →
    ∃ z', vars w !! z' = Some (Some r) ∧ (z' = if decide (z = y) then x else if decide (z = x) then y else z)).
  { unfold set_var. simpl. intros z r [[-> ->]|[Hne [[-> ->]|[Hne' H]]%lookup_insert_Some]]%lookup_insert_Some;
      repeat case_decide; try done; eauto. }
  split; [split|].
  - intros z r (z' & H & _)%Hlk. by apply (Hl z').
  - intros z z0 r (z' & H & Ez)%Hlk (z0' & H0 & Ez0)%Hlk.
    pose proof (Hi _ _ _ H H0). repeat case_decide; congruence.
  - intros r Hr. destruct (Ho r Hr) as [z Hz].
    exists (if decide (z = x) then y else if decide (z = y) then x else z).
    unfold set_var. simpl. destruct (decide (z = x)) as [->|Hzx].
    + rewrite lookup_insert_eq. congruence.
    + destruct (decide (z = y)) as [->|Hzy].
      * rewrite lookup_insert_ne, lookup_insert_eq by done. congruence.
      * by rewrite !lookup_insert_ne.
  - unfold absw, set_var. simpl. by rewrite !fmap_insert.
Qed.

Lemma not_in_dom_no_block w x : x ∉ dom (absw w) → vars w !! x = None ∧ no_block w x.
Proof.
  unfold absw. rewrite dom_fmap. intros H%not_elem_of_dom. unfold no_block.
  rewrite H. split; [done|congruence].
Qed.

Lemma in_dom_var w x : x ∈ dom (absw w) →
  ∃ p, vars w !! x = Some p ∧ absw w !! x = Some (abs_val (heap w) p).
Proof.
  unfold absw. rewrite dom_fmap. intros [p H]%elem_of_dom. exists p.
  by rewrite lookup_fmap, H.
Qed.

Lemma run_op_ok junk w op :
  wf w → op_pre (absw w) op →
  ∃ w', run_op junk w op = Some w' ∧ wf w' ∧ absw w' = spec_op (absw w) op.
Proof.
  intros Hw. destruct op as [x [[[code msg] msg2]|]|x y|x y|x y|x y|x]; cbn [op_pre run_op spec_op].
  - intros ([_ Hx]%not_in_dom_no_block & Hc & Hm). rewrite Status_new_spec by done.
    eexists. split; [done|]. apply alloc_ok; [done..|]. by eexists _, _.
  - intros [_ Hx]%not_in_dom_no_block. eexists. split; [done|]. by apply set_null_ok.
  - intros [[_ Hx]%not_in_dom_no_block (q & Hq & E)%in_dom_var].
    rewrite Hq, E. cbn [mbind option_bind default from_option].
    apply assign_copy_ok; [done..|]. intros p ->. by apply (wf_live w Hw y).
  - intros [(p & Hp & E1)%in_dom_var (q & Hq & E2)%in_dom_var].
    rewrite Hp, Hq, E2. cbn [mbind option_bind default from_option id].
    destruct (decide (p = q)) as [<-|Hne].
    + exists w. split; [done|]. split; [done|]. by rewrite insert_id.
    + destruct (free_ok w x p Hw Hp) as (w' & -> & _ & Hheap & Hwf & Ha).
      cbn [mbind option_bind]. rewrite <- assign_copy_set.
      assert (abs_val (heap w') q = abs_val (heap w) q) as Ev.
      { destruct q as [q|]; [|done]. apply Hheap. congruence. }
      destruct (assign_copy_ok junk (set_var w' x None) x q Hwf) as (w2 & -> & Hwf2 & Ha2).
      * intros r. simpl. rewrite lookup_insert_eq. congruence.
      * intros r ->. simpl. rewrite Hheap by congruence. by apply (wf_live w Hw y).
      * eexists. split; [done|]. split; [done|]. rewrite Ha2, Ha. simpl.
        by rewrite Ev, insert_insert_eq.
  - intros [Hx (q & Hq & E)%in_dom_var].
    pose proof (not_in_dom_no_block w x Hx) as [Hx0 Hxn].
    rewrite Hq, E. cbn [mbind option_bind default from_option id].
    destruct (set_null_ok w x Hw Hxn) as [Hw1 Ha1].
    assert (x ≠ y) by congruence.
    destruct (swap_ok (set_var w x None) x y None q Hw1) as [Hw2 Ha2];
      [by apply lookup_insert_eq|by simpl; rewrite lookup_insert_ne|].
    unfold set_var in Hw2, Ha2. simpl in Hw2, Ha2. rewrite insert_insert_eq in Hw2, Ha2.
    eexists. split; [done|]. split; [done|]. unfold set_var. simpl.
    unfold set_var in Ha1. rewrite Ha2, Ha1. by rewrite insert_insert_eq.
  - intros [(p & Hp & E1)%in_dom_var (q & Hq & E2)%in_dom_var].
    rewrite Hp, Hq, E1, E2. cbn [mbind option_bind default from_option id].
    eexists. split; [done|]. by apply swap_ok.
  - intros (p & Hp & _)%in_dom_var. rewrite Hp. cbn [mbind option_bind].
    destruct (free_ok w x p Hw Hp) as (w' & -> & Hv & _ & [Hl Hi Ho] & Ha).
    cbn [mbind option_bind]. eexists. split; [done|]. simpl in *.
    assert (Hd : ∀ y r, delete x (vars w') !! y = Some (Some r) ↔
                        <[x := None]> (vars w') !! y = Some (Some r)).
    { intros y r. rewrite lookup_delete_Some, lookup_insert_Some.
      split; [by right|]. intros [[? [=]]|?]; done. }
    split; [split|].
    + intros y r. simpl. rewrite Hd. apply Hl.
    + intros y z r. simpl. rewrite !Hd. apply Hi.
    + intros r Hr. destruct (Ho r Hr) as [y Hy]. exists y. by apply Hd.
    + apply (f_equal (delete x)) in Ha. rewrite delete_insert_eq in Ha. rewrite <- Ha.
      unfold absw, set_var. simpl. by rewrite fmap_insert, delete_insert_eq, fmap_delete.
Qed.

Lemma run_ops_ok junk ops w :
  wf w → ops_pre (absw w) ops →
  ∃ w', run_ops junk w ops = Some w' ∧ wf w' ∧ absw w' = foldl spec_op (absw w) ops.
Proof.
  revert w. induction ops as [|op ops IH]; intros w Hw; cbn [run_ops ops_pre foldl]; [eauto|].
  intros [H1 H2]. destruct (run_op_ok junk w op Hw H1) as (w1 & -> & Hw1 & E).
  cbn [mbind option_bind]. rewrite <- E in *. by apply IH.
Qed.

Definition empty_world : world := {| heap := ∅; vars := ∅ |}.

Lemma empty_world_wf : wf empty_world.
Proof. split; simpl; [intros ??|intros ???|intros ? [? H]]; set_solver. Qed.

Lemma absw_empty : absw empty_world = ∅.
Proof. unfold absw, empty_world. simpl. apply fmap_empty. Qed.

(** ** Properties *)

(** C25: any well-formed sequence of constructions, copies, moves, assignments
    (self-assignment and aliasing included) and destructions of statuses runs
    without an invalid access or a double [delete[]], gives every variable
    the value it has by value semantics, keeps one block per error status,
    and leaves no block behind once all variables are destroyed.  An error with the
    code [kOk], which no public function makes, fails the assertion of the constructor. *)
Theorem Status_ownership junk ops :
  ops_pre ∅ ops →
  ∃ w, run_ops junk empty_world ops = Some w ∧ wf w ∧
       absw w = foldl spec_op ∅ ops ∧
       (foldl spec_op ∅ ops = ∅ → heap w = ∅) ∧
       (∀ x msg msg2, run_op junk w (Construct x (Some (kOk, msg, msg2))) = None).
Proof.
  intros H. destruct (run_ops_ok junk ops empty_world empty_world_wf) as (w & E & Hw & Ha);
    [by rewrite absw_empty|].
  rewrite absw_empty in Ha. exists w. split_and!; [done..| |done].
  intros Hn. apply map_empty. intros p. destruct (heap w !! p) eqn:Hp; [|done].
  destruct (wf_owned w Hw p) as [x Hx]; [by eexists|].
  assert (absw w !! x = None) as Hnone by (rewrite Ha, Hn; apply lookup_empty).
  rewrite absw_lookup, Hx in Hnone. done.
Qed.

(** A status made by any of the constructors reports exactly its own code,
    and [ToString] gives the name of the code followed by the message, the two
    parts separated by a colon when the second is not empty. *)
Theorem Status_ToString_spec code msg msg2 junk :
  code ≠ kOk → Slice_size (message msg msg2) + 5 < 2 ^ 32 →
  ∃ b, Status_new junk code msg msg2 = Some b ∧ b = status_block code (message msg msg2) ∧
    Status_ok (Some b) = false ∧
    (IsNotFound (Some b), IsCorruption (Some b), IsNotSupportedError (Some b),
     IsInvalidArgument (Some b), IsIOError (Some b))
    = (bool_decide (code = kNotFound), bool_decide (code = kCorruption),
       bool_decide (code = kNotSupported), bool_decide (code = kInvalidArgument),
       bool_decide (code = kIOError)) ∧
    Status_ToString (Some b)
    = Some (match code with
            | kOk => str "OK"
            | kNotFound => str "NotFound: "
            | kCorruption => str "Corruption: "
            | kNotSupported => str "Not implemented: "
            | kInvalidArgument => str "Invalid argument: "
            | kIOError => str "IO error: "
            end ++ message msg msg2).
Proof.
  intros Hc Hm. eexists. split; [by apply Status_new_spec|]. split; [done|]. split; [done|].
  destruct (status_block_read code (message msg msg2) Hm) as (R & D & T).
  assert (Status_code (Some (status_block code (message msg msg2))) = Code_value code) as E
    by by destruct code.
  split.
  - unfold IsNotFound, IsCorruption, IsNotSupportedError, IsInvalidArgument, IsIOError.
    rewrite E. by destruct code.
  - cbn [Status_ToString]. rewrite E, R. cbn [mbind option_bind]. rewrite D, T.
    cbn [mbind option_bind]. by destruct code.
Qed.

(** ** Witnesses *)

Lemma Status_ownership_witness :
  let ops := [Construct 0 (Some (kIOError, str "disk", str "full")); Construct 1 None;
              CopyAssign 1 0; CopyAssign 1 1; MoveCtor 2 0; MoveAssign 2 1;
              CopyAssign 1 0; CopyCtor 3 2; Destroy 0; Destroy 1; Destroy 2; Destroy 3] in
  ∃ w, run_ops (λ _, x00) empty_world ops = Some w ∧ wf w ∧
       absw w = foldl spec_op ∅ ops ∧ (foldl spec_op ∅ ops = ∅ → heap w = ∅) ∧
       (∀ x msg msg2, run_op (λ _, x00) w (Construct x (Some (kOk, msg, msg2))) = None).
Proof.
  intros ops. apply (Status_ownership (λ _, x00) ops).
  apply (bool_decide_unpack _). by vm_compute.
Defined.

Lemma Status_ToString_spec_witness :
  ∃ b, Status_new (λ _, x2a) kIOError (str "a.log") (str "File not found") = Some b ∧
       Status_ToString (Some b) = Some (str "IO error: a.log: File not found").
Proof.
  destruct (Status_ToString_spec kIOError (str "a.log") (str "File not found") (λ _, x2a))
    as (b & H1 & _ & _ & _ & H5); [done..|].
  exists b. split; [exact H1|exact H5].
Defined.
