(* ===== verification/Comparator.v ===== *)
(** * Comparators (include/lldb/comparator.h, util/comparator.cpp)

    The [Comparator] interface as a class of operations, the contract its
    header documents as a class of laws, and the bytewise comparator, the one
    implementation of the repository besides the internal-key comparator of
    DbFormat.  An operation whose body ends in an [assert] returns an option:
    [None] is the failed assertion. *)
From stdpp Require Import base list numbers strings.
From Stdlib Require Import ZArith Lia.
From Stdlib Require Import Strings.Byte.
From S2P Require Import Prelude Slice.

#[local] Open Scope Z_scope.

(** ** The interface *)

Class Comparator := {
  cmp_Name : bytes;
  Compare : bytes → bytes → Z;
  FindShortestSeparator : bytes → bytes → option bytes;
  FindShortSuccessor : bytes → option bytes;
}.

(** The contract of comparator.h on the keys in [D]: [Compare] is a three-way
    total (pre)order; [FindShortestSeparator] changes [*start] only when
    [*start < limit], to a string in [[start, limit)]; [FindShortSuccessor]
    changes [*key] to a string [>= *key]; no assertion fails. *)
Class ComparatorLaws (C : Comparator) (D : bytes → Prop) : Prop := {
  Compare_refl a : D a → Compare a a = 0;
  Compare_antisym a b : D a → D b → Z.sgn (Compare b a) = - Z.sgn (Compare a b);
  Compare_trans a b c : D a → D b → D c →
    Compare a b ≤ 0 → Compare b c ≤ 0 → Compare a c ≤ 0;
  Separator_between start limit : D start → D limit → Compare start limit < 0 →
    ∃ r, FindShortestSeparator start limit = Some r ∧ D r ∧
         Compare start r ≤ 0 ∧ Compare r limit < 0;
  Separator_unordered start limit : D start → D limit → 0 ≤ Compare start limit →
    FindShortestSeparator start limit = Some start;
  Successor_above key : D key →
    ∃ r, FindShortSuccessor key = Some r ∧ D r ∧ Compare key r ≤ 0;
}.

(** ** Consequences of the order laws *)

Section Laws.
Context (C : Comparator) (D : bytes → Prop) `{!ComparatorLaws C D}.

Lemma Compare_lt_gt a b : D a → D b → Compare a b < 0 ↔ 0 < Compare b a.
Proof. intros Ha Hb. pose proof (Compare_antisym a b Ha Hb). lia. Qed.

Lemma Compare_eq_sym a b : D a → D b → Compare a b = 0 ↔ Compare b a = 0.
Proof. intros Ha Hb. pose proof (Compare_antisym a b Ha Hb). lia. Qed.

Lemma Compare_lt_le_trans a b c : D a → D b → D c →
  Compare a b < 0 → Compare b c ≤ 0 → Compare a c < 0.
Proof.
  intros Ha Hb Hc Hab Hbc.
  pose proof (Compare_trans a b c Ha Hb Hc).
  destruct (Z.eq_dec (Compare a c) 0) as [E|]; [|lia].
  apply Compare_eq_sym in E; [|done..].
  pose proof (Compare_trans b c a Hb Hc Ha).
  pose proof (Compare_antisym a b Ha Hb). lia.
Qed.

Lemma Compare_le_lt_trans a b c : D a → D b → D c →
  Compare a b ≤ 0 → Compare b c < 0 → Compare a c < 0.
Proof.
  intros Ha Hb Hc Hab Hbc.
  pose proof (Compare_trans a b c Ha Hb Hc).
  destruct (Z.eq_dec (Compare a c) 0) as [E|]; [|lia].
  apply Compare_eq_sym in E; [|done..].
  pose proof (Compare_trans c a b Hc Ha Hb).
  pose proof (Compare_antisym b c Hb Hc). lia.
Qed.

Lemma Compare_eq_trans a b c : D a → D b → D c →
  Compare a b = 0 → Compare b c = 0 → Compare a c = 0.
Proof.
  intros Ha Hb Hc Hab Hbc.
  pose proof (Compare_trans a b c Ha Hb Hc).
  pose proof (Compare_trans c b a Hc Hb Ha).
  pose proof (proj1 (Compare_eq_sym a b Ha Hb) Hab).
  pose proof (proj1 (Compare_eq_sym b c Hb Hc) Hbc).
  pose proof (Compare_antisym a c Ha Hc). lia.
Qed.
End Laws.

(** ** BytewiseComparatorImpl *)

(** The [while] loop that computes [diff_index], the length of the common
    prefix: it stops at [min_length] or at the first difference. *)
Fixpoint diff_index (start limit : bytes) : nat :=
  match start, limit with
  | s :: start, l :: limit => if bool_decide (s = l) then S (diff_index start limit) else 0
  | _, _ => 0
  end.

(** Incrementing the byte at index [i] and resizing the string to [i + 1]. *)
Definition increment_and_cut (s : bytes) (i : nat) (byte : Z) : bytes :=
  take (i + 1) (<[i := z2b (byte + 1)]> s).

Definition Bytewise_FindShortestSeparator (start limit : bytes) : option bytes :=
  let min_length := Nat.min (length start) (length limit) in
  let diff_index := diff_index start limit in
  if bool_decide (min_length ≤ diff_index)%nat then Some start
  else
    let diff_byte := byte_at start diff_index in
    if (diff_byte <? 255) && (diff_byte + 1 <? byte_at limit diff_index) then
      let start := increment_and_cut start diff_index diff_byte in
      if Slice_compare start limit <? 0 then Some start else None
    else Some start.

(** The [for] loop from index [i]; [rest] is [key[i..n-1]]. *)
Fixpoint Bytewise_FindShortSuccessor_loop (key : bytes) (i : nat) (rest : bytes) : bytes :=
  match rest with
  | [] => key
  | b :: rest =>
      if negb (b2z b =? 255) then increment_and_cut key i (b2z b)
      else Bytewise_FindShortSuccessor_loop key (S i) rest
  end.

Definition Bytewise_FindShortSuccessor (key : bytes) : option bytes :=
  Some (Bytewise_FindShortSuccessor_loop key 0 key).

#[export] Instance BytewiseComparator : Comparator := {|
  cmp_Name := str "lldb.BytewiseComparator";
  Compare := Slice_compare;
  FindShortestSeparator := Bytewise_FindShortestSeparator;
  FindShortSuccessor := Bytewise_FindShortSuccessor;
|}.

(** ** Lemmas *)

Lemma diff_index_spec start limit :
  ∃ p s l, start = p ++ s ∧ limit = p ++ l ∧ diff_index start limit = length p ∧
    match s, l with x :: _, y :: _ => x ≠ y | _, _ => True end.
Proof.
  revert limit. induction start as [|x start IH]; intros [|y limit].
  - by exists [], [], [].
  - by exists [], [], (y :: limit).
  - by exists [], (x :: start), [].
  - simpl. case_bool_decide as Hxy.
    + subst. destruct (IH limit) as (p & s & l & -> & -> & -> & ?).
      by exists (y :: p), s, l.
    + by exists [], (x :: start), (y :: limit).
Qed.

Lemma increment_and_cut_app p x s byte :
  increment_and_cut (p ++ x :: s) (length p) byte = p ++ [z2b (byte + 1)].
Proof.
  unfold increment_and_cut. rewrite insert_app_r_alt by lia.
  rewrite Nat.sub_diag. simpl.
  rewrite take_app_ge by lia. by replace (length p + 1 - length p)%nat with 1%nat by lia.
Qed.

Lemma byte_at_app p x s : byte_at (p ++ x :: s) (length p) = b2z x.
Proof. unfold byte_at. by rewrite list_lookup_middle. Qed.

(** Incrementing a byte (that is not 0xff) and cutting goes up in the order. *)
Lemma lex_lt_increment p x s :
  b2z x < 255 → lex_lt (p ++ x :: s) (p ++ [z2b (b2z x + 1)]).
Proof.
  intros Hx. apply lex_lt_app. simpl. left.
  pose proof (b2z_range x). rewrite b2z_z2b_small; lia.
Qed.

(** The first place where two strings differ is unique. *)
Lemma first_difference (p p' : bytes) x y s l x' y' s' l' :
  p ++ x :: s = p' ++ x' :: s' → p ++ y :: l = p' ++ y' :: l' → x ≠ y → x' ≠ y' →
  p = p' ∧ x = x' ∧ y = y'.
Proof.
  revert p'. induction p as [|b p IH]; intros [|b' p'] E1 E2 Hne Hne'; simplify_eq/=; try done.
  by destruct (IH p') as (-> & -> & ->).
Qed.

(** A string that is a prefix of another has no such place with it. *)
Lemma common_prefix_end (p s l p' : bytes) x' s' y' l' :
  s = [] ∨ l = [] → p ++ s = p' ++ x' :: s' → p ++ l = p' ++ y' :: l' → x' = y'.
Proof.
  revert p'. induction p as [|b p IH]; intros p'; simpl.
  - by intros [->| ->]; destruct p'.
  - intros Hsl E1 E2. destruct p' as [|b' p']; simplify_eq/=; [done|by eapply IH].
Qed.

(** The two outcomes of FindShortestSeparator; its assertion holds. *)
Lemma Bytewise_Separator_cases start limit :
  (Bytewise_FindShortestSeparator start limit = Some start ∧
   ∀ p x s y l, start = p ++ x :: s → limit = p ++ y :: l → ¬ b2z x + 1 < b2z y) ∨
  ∃ p x s y l, start = p ++ x :: s ∧ limit = p ++ y :: l ∧ b2z x + 1 < b2z y ∧
    Bytewise_FindShortestSeparator start limit = Some (p ++ [z2b (b2z x + 1)]).
Proof.
  destruct (diff_index_spec start limit) as (p & s & l & -> & -> & Hd & Hne).
  unfold Bytewise_FindShortestSeparator. rewrite Hd, !length_app.
  case_bool_decide as Hmin.
  { left. split; [done|]. intros p' x' s' y' l' E1 E2 H.
    assert (s = [] ∨ l = []) as Hsl
      by (destruct s; [by left|destruct l; [by right|simpl in Hmin; lia]]).
    destruct (common_prefix_end p s l p' x' s' y' l'); [done..|]. subst. lia. }
  destruct s as [|x s], l as [|y l]; simpl in Hmin; try lia.
  rewrite !byte_at_app. pose proof (b2z_range y).
  destruct (Z.ltb_spec (b2z x + 1) (b2z y)) as [Hxy|Hxy]; cycle 1.
  { rewrite andb_false_r. left. split; [done|]. intros p' x' s' y' l' E1 E2 H'.
    destruct (first_difference p p' x y s l x' y' s' l' E1 E2) as (-> & -> & ->); [done|intros ->; lia|lia]. }
  rewrite (proj2 (Z.ltb_lt (b2z x) 255)) by lia. cbn [andb].
  right. exists p, x, s, y, l. split_and!; [done..|].
  rewrite increment_and_cut_app.
  destruct (Z.ltb_spec (Slice_compare (p ++ [z2b (b2z x + 1)]) (p ++ y :: l)) 0) as [|Hge];
    [done|].
  exfalso. apply Z.le_ngt in Hge. apply Hge, Slice_compare_lt, lex_lt_app.
  simpl. left. pose proof (b2z_range x). rewrite b2z_z2b_small by lia. done.
Qed.

Lemma Bytewise_Successor_cases key :
  (Bytewise_FindShortSuccessor key = Some key ∧ Forall (λ b, b2z b = 255) key) ∨
  ∃ p x s, key = p ++ x :: s ∧ Forall (λ b, b2z b = 255) p ∧ b2z x < 255 ∧
    Bytewise_FindShortSuccessor key = Some (p ++ [z2b (b2z x + 1)]).
Proof.
  unfold Bytewise_FindShortSuccessor.
  assert (H : ∀ p rest, Forall (λ b, b2z b = 255) p →
    (Bytewise_FindShortSuccessor_loop (p ++ rest) (length p) rest = p ++ rest ∧
     Forall (λ b, b2z b = 255) (p ++ rest)) ∨
    ∃ p' x s, p ++ rest = p' ++ x :: s ∧ Forall (λ b, b2z b = 255) p' ∧ b2z x < 255 ∧
      Bytewise_FindShortSuccessor_loop (p ++ rest) (length p) rest
        = p' ++ [z2b (b2z x + 1)]).
  { intros p rest. revert p. induction rest as [|b rest IH]; intros p Hp; simpl.
    - left. by rewrite app_nil_r.
    - destruct (Z.eqb_spec (b2z b) 255); simpl.
      + replace (S (length p)) with (length (p ++ [b])) by (rewrite length_app; simpl; lia).
        rewrite (cons_middle b p rest), app_assoc.
        apply IH. apply Forall_app. by repeat constructor.
      + right. exists p, b, rest. pose proof (b2z_range b).
        split_and!; [done|done|lia|apply increment_and_cut_app]. }
  destruct (H [] key) as [[E ?]|(p & x & s & E & ? & ? & E')]; [done| |].
  - left. split; [by f_equal|done].
  - right. exists p, x, s. split_and!; [done..|by f_equal].
Qed.

Lemma increment_ne p x s : b2z x < 255 → p ++ [z2b (b2z x + 1)] ≠ p ++ x :: s.
Proof.
  intros Hx [= E]%(inj (app p)). pose proof (b2z_range x).
  apply (f_equal b2z) in E. rewrite b2z_z2b_small in E by lia. lia.
Qed.

(** And so is the first byte other than 0xff. *)
Lemma first_other (p : bytes) x s p' x' s' :
  p ++ x :: s = p' ++ x' :: s' → Forall (λ b, b2z b = 255) p → b2z x ≠ 255 →
  Forall (λ b, b2z b = 255) p' → b2z x' ≠ 255 → p = p' ∧ x = x' ∧ s = s'.
Proof.
  revert p'. induction p as [|b p IH]; intros [|b' p'] E1 Hp Hx Hp' Hx'; simplify_eq/=; [done| | |].
  - by inversion Hp'.
  - by inversion Hp.
  - inversion Hp; inversion Hp'; subst. by destruct (IH p') as (-> & -> & ->).
Qed.

(** When FindShortestSeparator changes its argument, and to what. *)
Lemma Bytewise_Separator_value start limit :
  ∃ r, Bytewise_FindShortestSeparator start limit = Some r ∧
    (r ≠ start ↔ ∃ p x s y l, start = p ++ x :: s ∧ limit = p ++ y :: l ∧ b2z x + 1 < b2z y) ∧
    (∀ p x s y l, start = p ++ x :: s → limit = p ++ y :: l → b2z x + 1 < b2z y →
       r = p ++ [z2b (b2z x + 1)]) ∧
    (length r ≤ length start)%nat.
Proof.
  destruct (Bytewise_Separator_cases start limit) as [[E Hno]|(p & x & s & y & l & -> & -> & Hxy & E)].
  - exists start. split; [done|]. split; [|split; [|done]].
    + split; [done|]. intros (p & x & s & y & l & E1 & E2 & H). by destruct (Hno p x s y l).
    + intros p x s y l E1 E2 H. by destruct (Hno p x s y l).
  - pose proof (b2z_range y). eexists. split; [done|]. split; [|split].
    + split; [intros _; by exists p, x, s, y, l|]. intros _. apply increment_ne. lia.
    + intros p' x' s' y' l' E1 E2 H'.
      by destruct (first_difference p p' x y s l x' y' s' l' E1 E2) as (-> & -> & _);
        [intros ->; lia..|].
    + rewrite !length_app. simpl. lia.
Qed.

Lemma Bytewise_laws : ComparatorLaws BytewiseComparator (λ _, True).
Proof.
  split; simpl.
  - intros a _. by apply Slice_compare_eq.
  - intros a b _ _. apply Slice_compare_antisym.
  - intros a b c _ _ _ Hab Hbc.
    destruct (Z.eq_dec (Slice_compare a b) 0) as [->%Slice_compare_eq|]; [done|].
    destruct (Z.eq_dec (Slice_compare b c) 0) as [<-%Slice_compare_eq|]; [done|].
    assert (Slice_compare a c < 0) by (apply (Slice_compare_trans a b c); lia). lia.
  - intros start limit _ _ Hlt.
    destruct (Bytewise_Separator_cases start limit)
      as [[-> _]|(p & x & s & y & l & -> & -> & Hxy & ->)].
    + exists start. split_and!; [done..| |done]. by rewrite (proj2 (Slice_compare_eq _ _)).
    + pose proof (b2z_range x). pose proof (b2z_range y).
      eexists. split_and!; [done..| |].
      * apply Z.lt_le_incl, Slice_compare_lt, lex_lt_increment. lia.
      * apply Slice_compare_lt, lex_lt_app. simpl. left. rewrite b2z_z2b_small by lia. done.
  - intros start limit _ _ Hge.
    destruct (Bytewise_Separator_cases start limit)
      as [[-> _]|(p & x & s & y & l & -> & -> & Hxy & _)]; [done|].
    exfalso. apply Z.le_ngt in Hge. apply Hge, Slice_compare_lt, lex_lt_app. simpl. left. lia.
  - intros key _. destruct (Bytewise_Successor_cases key)
      as [[-> _]|(p & x & s & -> & _ & Hx & ->)].
    + exists key. split_and!; [done..|]. by rewrite (proj2 (Slice_compare_eq _ _)).
    + eexists. split_and!; [done..|]. apply Z.lt_le_incl, Slice_compare_lt, lex_lt_increment. lia.
Qed.

#[export] Instance BytewiseComparatorLaws : ComparatorLaws BytewiseComparator (λ _, True) :=
  Bytewise_laws.

(** ** Properties *)

(** Slice::compare, the order of the bytewise comparator, is the strict
    total lexicographic order on unsigned bytes: negative exactly when the
    first slice is smaller, zero exactly on equal slices, antisymmetric and
    transitive; operator== and starts_with decide equality and prefix. *)
Theorem Slice_compare_lexicographic a b c :
  (Slice_compare a b < 0 ↔ lex_lt a b) ∧
  (Slice_compare a b = 0 ↔ a = b) ∧
  Z.sgn (Slice_compare b a) = - Z.sgn (Slice_compare a b) ∧
  (Slice_compare a b < 0 → Slice_compare b c < 0 → Slice_compare a c < 0) ∧
  (Slice_eq a b = true ↔ a = b) ∧
  (Slice_starts_with a b = true ↔ b `prefix_of` a).
Proof.
  eauto 10 using Slice_compare_lt, Slice_compare_eq, Slice_compare_antisym,
    Slice_compare_trans, Slice_eq_spec, Slice_starts_with_spec.
Qed.

(** C34: the bytewise FindShortestSeparator changes start exactly when start and
    limit first differ at bytes x and y with x + 1 < y, and then start becomes the
    common part followed by x + 1; its assertion never fails.  The result is no
    longer than start, in [start, limit) when start < limit, and start itself when
    start >= limit.  The bytewise FindShortSuccessor changes key exactly when it has
    a byte other than 0xff; the first of them is incremented and ends the result,
    which is strictly greater than key and no longer. *)
Theorem Bytewise_shortening start limit key :
  (∃ r, Bytewise_FindShortestSeparator start limit = Some r ∧
    (length r ≤ length start)%nat ∧
    (r ≠ start ↔ ∃ p x s y l, start = p ++ x :: s ∧ limit = p ++ y :: l ∧ b2z x + 1 < b2z y) ∧
    (∀ p x s y l, start = p ++ x :: s → limit = p ++ y :: l → b2z x + 1 < b2z y →
       r = p ++ [z2b (b2z x + 1)]) ∧
    (Slice_compare start limit < 0 → Slice_compare start r ≤ 0 ∧ Slice_compare r limit < 0) ∧
    (0 ≤ Slice_compare start limit → r = start)) ∧
  (∃ r, Bytewise_FindShortSuccessor key = Some r ∧ (length r ≤ length key)%nat ∧
    (r = key ↔ Forall (λ b, b2z b = 255) key) ∧
    (∀ p x s, key = p ++ x :: s → Forall (λ b, b2z b = 255) p → b2z x ≠ 255 →
       r = p ++ [z2b (b2z x + 1)]) ∧
    (¬ Forall (λ b, b2z b = 255) key → Slice_compare key r < 0)).
Proof.
  split.
  - destruct (Bytewise_Separator_value start limit) as (r & E & Hch & Hval & Hlen).
    exists r. split; [done|]. split; [done|]. split; [done|]. split; [done|]. split.
    + intros Hlt.
      destruct (Separator_between (C:=BytewiseComparator) start limit I I Hlt) as (r' & E' & _ & Hr).
      cbn in E'. rewrite E in E'. by injection E' as <-.
    + intros Hge. pose proof (Separator_unordered (C:=BytewiseComparator) start limit I I Hge) as E'.
      cbn in E'. rewrite E in E'. by injection E' as <-.
  - destruct (Bytewise_Successor_cases key) as [[-> Hall]|(p & x & s & -> & Hp & Hx & ->)].
    + exists key. split_and!; [done..| |done]. intros p x s -> _ Hne.
      apply Forall_app in Hall as [_ Hall]. by inversion Hall.
    + eexists. split_and!; [done|rewrite !length_app; simpl; lia| | |].
      * split; [intros E; exfalso; by eapply increment_ne|].
        intros [_ H]%Forall_app. inversion H; subst. lia.
      * intros p' x' s' E Hp' Hx'. destruct (first_other p x s p' x' s') as (-> & -> & _); [done|done|lia|done|done|done].
      * intros _. by apply Slice_compare_lt, lex_lt_increment.
Qed.
