(* ===== verification/DbFormat.v ===== *)
(** * Internal keys (db/dbformat.h, db/dbformat.cpp)

    An internal key is a user key followed by eight bytes that pack a sequence
    number and a value type.  The file models their encoding and parsing, the
    internal-key comparator (over an arbitrary user comparator), the
    [InternalKey] wrapper and the [LookupKey] used by reads.  Taking the user key
    of a string of less than eight bytes fails an assertion ([None]), and so do
    comparing and shortening such strings. *)
From stdpp Require Import base list numbers strings.
From Stdlib Require Import ZArith Lia.
From Stdlib Require Import Strings.Byte.
From S2P Require Import Prelude Slice Coding Logging Comparator.

#[local] Open Scope Z_scope.

(** ** Data *)

Module config.
Definition kNumLevels : Z := 7.
Definition kL0_CompactionTrigger : Z := 4.
Definition kL0_SlowdownWritesTrigger : Z := 8.
Definition kL0_StopWritesTrigger : Z := 12.
Definition kMaxMemCompactLevel : Z := 2.
Definition kReadBytesPeriod : Z := 1048576.
End config.

Inductive ValueType := kTypeDeletion | kTypeValue.

#[export] Instance ValueType_eq_dec : EqDecision ValueType.
Proof. solve_decision. Defined.

Definition ValueType_to_Z (t : ValueType) : Z :=
  match t with kTypeDeletion => 0 | kTypeValue => 1 end.

Definition kValueTypeForSeek : ValueType := kTypeValue.

Definition kMaxSequenceNumber : Z := Z.shiftl 1 56 - 1.

Record ParsedInternalKey := {
  user_key : bytes;
  sequence : Z;
  type : ValueType;
}.

(** ** Encoding *)

(** [None]: the assertion [seq <= kMaxSequenceNumber] fails (the one on the
    type holds of every [ValueType]). *)
Definition PackSequenceAndType (seq : Z) (t : ValueType) : option Z :=
  if seq <=? kMaxSequenceNumber then
    if ValueType_to_Z t <=? ValueType_to_Z kValueTypeForSeek then
      Some (Z.lor (u64 (Z.shiftl seq 8)) (ValueType_to_Z t))
    else None
  else None.

Definition InternalKeyEncodingLength (key : ParsedInternalKey) : Z :=
  Slice_size (user_key key) + 8.

Definition AppendInternalKey (result : bytes) (key : ParsedInternalKey) : option bytes :=
  packed ← PackSequenceAndType (sequence key) (type key);
  Some (PutFixed64 (result ++ user_key key) packed).

(** The conversion of the low byte to [ValueType] that [ParseInternalKey]
    performs; it returns false ([None]) on the values that name no type. *)
Definition ValueType_of_Z (c : Z) : option ValueType :=
  if c =? 0 then Some kTypeDeletion
  else if c <=? ValueType_to_Z kTypeValue then Some kTypeValue
  else None.

Definition ParseInternalKey (internal_key : bytes) : option ParsedInternalKey :=
  let n := length internal_key in
  if Slice_size internal_key <? 8 then None
  else
    let num := DecodeFixed64 (drop (n - 8) internal_key) in
    let c := u8 (Z.land num 255) in
    t ← ValueType_of_Z c;
    Some {| sequence := Z.shiftr num 8; type := t;
            user_key := take (n - 8) internal_key |}.

(** All but the last eight bytes. *)
Definition user_part (internal_key : bytes) : bytes :=
  take (length internal_key - 8) internal_key.

(** [None]: the assertion [internal_key.size() >= 8] fails. *)
Definition ExtractUserKey (internal_key : bytes) : option bytes :=
  if 8 <=? Slice_size internal_key then Some (user_part internal_key) else None.

(** ** DebugString *)

Definition ParsedInternalKey_DebugString (k : ParsedInternalKey) : bytes :=
  str "'" ++ EscapeString (user_key k) ++ str "' @ " ++
  NumberToString (sequence k) ++ str " : " ++ NumberToString (ValueType_to_Z (type k)).

Definition InternalKey_DebugString (rep : bytes) : bytes :=
  match ParseInternalKey rep with
  | Some parsed => ParsedInternalKey_DebugString parsed
  | None => str "(bad)" ++ EscapeString rep
  end.

(** ** InternalKey: the wrapper of an encoded key; [rep_] is its bytes *)

Record InternalKey := MkInternalKey { rep_ : bytes }.

Definition InternalKey_default : InternalKey := MkInternalKey [].

Definition InternalKey_new (user_key : bytes) (s : Z) (t : ValueType) : option InternalKey :=
  MkInternalKey <$>
    AppendInternalKey [] {| user_key := user_key; sequence := s; type := t |}.

(** Returns the new object and the bool [!rep_.empty()]. *)
Definition InternalKey_DecodeFrom (s : bytes) : InternalKey * bool :=
  (MkInternalKey s, negb (Slice_empty s)).

(** Asserts that the key is valid. *)
Definition InternalKey_Encode (k : InternalKey) : option bytes :=
  if Slice_empty (rep_ k) then None else Some (rep_ k).

Definition InternalKey_user_key (k : InternalKey) : option bytes := ExtractUserKey (rep_ k).

Definition InternalKey_SetFrom (p : ParsedInternalKey) : option InternalKey :=
  MkInternalKey <$> AppendInternalKey [] p.

Definition InternalKey_Clear (k : InternalKey) : InternalKey := MkInternalKey [].

(** ** InternalKeyComparator *)

Section InternalKeyComparator.
Context (user_comparator_ : Comparator).

(** [None]: one of the keys is too short for [ExtractUserKey]. *)
Definition IKC_Compare (akey bkey : bytes) : option Z :=
  auser ← ExtractUserKey akey;
  buser ← ExtractUserKey bkey;
  let r := Compare (Comparator := user_comparator_) auser buser in
  Some (if r =? 0 then
          let anum := DecodeFixed64 (drop (length akey - 8) akey) in
          let bnum := DecodeFixed64 (drop (length bkey - 8) bkey) in
          if bnum <? anum then -1 else if anum <? bnum then 1 else r
        else r).

Definition IKC_CompareKeys (a b : InternalKey) : option Z :=
  a ← InternalKey_Encode a; b ← InternalKey_Encode b; IKC_Compare a b.

Definition IKC_FindShortestSeparator (start limit : bytes) : option bytes :=
  user_start ← ExtractUserKey start;
  user_limit ← ExtractUserKey limit;
  tmp ← FindShortestSeparator (Comparator := user_comparator_) user_start user_limit;
  if (Slice_size tmp <? Slice_size user_start) &&
     (Compare (Comparator := user_comparator_) user_start tmp <? 0) then
    packed ← PackSequenceAndType kMaxSequenceNumber kValueTypeForSeek;
    let tmp := PutFixed64 tmp packed in
    c ← IKC_Compare start tmp;
    if c <? 0 then
      c ← IKC_Compare tmp limit;
      if c <? 0 then Some tmp else None
    else None
  else Some start.

Definition IKC_FindShortSuccessor (key : bytes) : option bytes :=
  user_key ← ExtractUserKey key;
  tmp ← FindShortSuccessor (Comparator := user_comparator_) user_key;
  if (Slice_size tmp <? Slice_size user_key) &&
     (Compare (Comparator := user_comparator_) user_key tmp <? 0) then
    packed ← PackSequenceAndType kMaxSequenceNumber kValueTypeForSeek;
    let tmp := PutFixed64 tmp packed in
    c ← IKC_Compare key tmp;
    if c <? 0 then Some tmp else None
  else Some key.

(** The order on all strings that the [Comparator] class asks for: what [IKC_Compare]
    returns and, on the strings where its assertion fails and the program has no
    behaviour, the same comparison of what there is.  The contract is stated, and the
    order is used, on strings of at least eight bytes only. *)
Definition IKC_order (akey bkey : bytes) : Z :=
  match IKC_Compare akey bkey with
  | Some r => r
  | None =>
      let r := Compare (Comparator := user_comparator_) (user_part akey) (user_part bkey) in
      if r =? 0
      then Z.sgn (DecodeFixed64 (drop (length bkey - 8) bkey) - DecodeFixed64 (drop (length akey - 8) akey))
      else r
  end.

Definition InternalKeyComparator : Comparator := {|
  cmp_Name := str "lldb.InternalKeyComparator";
  Compare := IKC_order;
  FindShortestSeparator := IKC_FindShortestSeparator;
  FindShortSuccessor := IKC_FindShortSuccessor;
|}.
End InternalKeyComparator.

(** ** LookupKey *)

(** The bytes from [start_] to [end_], the offset of [kstart_] in them, the
    size of the array [start_] points to and whether that array is [new]ed. *)
Record LookupKey := {
  lk_buffer : bytes;
  lk_kstart : nat;
  lk_capacity : Z;
  lk_on_heap : bool;
}.

Definition sizeof_space_ : Z := 200.

Definition LookupKey_new (user_key : bytes) (s : Z) : option LookupKey :=
  let usize := Slice_size user_key in
  let needed := usize + 13 in
  let on_heap := negb (needed <=? sizeof_space_) in
  let klength := EncodeVarint32 (u32 (usize + 8)) in
  packed ← PackSequenceAndType s kValueTypeForSeek;
  Some {| lk_buffer := klength ++ user_key ++ EncodeFixed64 packed;
          lk_kstart := length klength;
          lk_capacity := if on_heap then needed else sizeof_space_;
          lk_on_heap := on_heap |}.

Definition LookupKey_memtable_key (k : LookupKey) : bytes := lk_buffer k.
Definition LookupKey_internal_key (k : LookupKey) : bytes := drop (lk_kstart k) (lk_buffer k).
Definition LookupKey_user_key (k : LookupKey) : bytes :=
  take (length (lk_buffer k) - lk_kstart k - 8) (drop (lk_kstart k) (lk_buffer k)).

(** The destructor: [delete[] start_] exactly when the array was [new]ed. *)
Definition LookupKey_destructor_deletes (k : LookupKey) : bool := lk_on_heap k.

(** ** Lemmas *)

(** The tag of an internal key: its last eight bytes. *)
Definition tag (k : bytes) : Z := DecodeFixed64 (drop (length k - 8) k).

Definition pack (s : Z) (t : ValueType) : Z := s * 256 + ValueType_to_Z t.

Lemma ValueType_to_Z_range t : 0 ≤ ValueType_to_Z t ≤ 1.
Proof. by destruct t. Qed.

Lemma kMaxSequenceNumber_val : kMaxSequenceNumber = 2 ^ 56 - 1.
Proof. done. Qed.

Lemma PackSequenceAndType_spec s t :
  0 ≤ s ≤ kMaxSequenceNumber → PackSequenceAndType s t = Some (pack s t).
Proof.
  intros Hs. unfold PackSequenceAndType. rewrite kMaxSequenceNumber_val in *.
  destruct (Z.leb_spec s (2 ^ 56 - 1)); [|lia].
  assert ((ValueType_to_Z t <=? ValueType_to_Z kValueTypeForSeek) = true) as -> by by destruct t.
  rewrite Z.shiftl_mul_pow2, u64_small by lia. f_equal.
  rewrite <- Z.shiftl_mul_pow2, Z.lor_comm by lia.
  pose proof (ValueType_to_Z_range t).
  rewrite lor_shiftl_add by lia. unfold pack. lia.
Qed.

Lemma PackSequenceAndType_None s t : PackSequenceAndType s t = None ↔ kMaxSequenceNumber < s.
Proof.
  unfold PackSequenceAndType. destruct (Z.leb_spec s kMaxSequenceNumber); [|naive_solver].
  assert ((ValueType_to_Z t <=? ValueType_to_Z kValueTypeForSeek) = true) as -> by by destruct t.
  split; [done|lia].
Qed.

Lemma pack_range s t : 0 ≤ s ≤ kMaxSequenceNumber → 0 ≤ pack s t < 2 ^ 64.
Proof.
  rewrite kMaxSequenceNumber_val. unfold pack. pose proof (ValueType_to_Z_range t). lia.
Qed.

Lemma AppendInternalKey_spec result u s t :
  0 ≤ s ≤ kMaxSequenceNumber →
  AppendInternalKey result {| user_key := u; sequence := s; type := t |}
  = Some (result ++ u ++ EncodeFixed64 (pack s t)).
Proof.
  intros Hs. unfold AppendInternalKey. simpl. rewrite PackSequenceAndType_spec by done. simpl.
  unfold PutFixed64. by rewrite app_assoc.
Qed.

(** A key of at least eight bytes splits into its user key and its tag bytes. *)
Lemma internal_key_split (k : bytes) :
  (8 ≤ length k)%nat → ∃ u p, k = u ++ p ∧ length p = 8%nat.
Proof.
  intros Hk. exists (take (length k - 8) k), (drop (length k - 8) k).
  rewrite take_drop, length_drop. split; [done|lia].
Qed.

Lemma drop_tag (u p : bytes) : length p = 8%nat → drop (length (u ++ p) - 8) (u ++ p) = p.
Proof.
  intros Hp. rewrite length_app, Hp, Nat.add_sub. apply drop_app_length.
Qed.

Lemma user_part_app (u p : bytes) : length p = 8%nat → user_part (u ++ p) = u.
Proof.
  intros Hp. unfold user_part.
  rewrite length_app, Hp, Nat.add_sub. apply take_app_length.
Qed.

Lemma tag_app u v : 0 ≤ v < 2 ^ 64 → tag (u ++ EncodeFixed64 v) = v.
Proof.
  intros Hv. unfold tag. rewrite drop_tag by done. by apply DecodeFixed64_Encode_nil.
Qed.

Lemma tag_range k : (8 ≤ length k)%nat → 0 ≤ tag k < 2 ^ 64.
Proof.
  intros Hk. destruct (internal_key_split k Hk) as (u & p & -> & Hp).
  unfold tag. rewrite drop_tag by done.
  rewrite <- (app_nil_r p). by apply DecodeFixed64_range.
Qed.

#[export] Hint Rewrite user_part_app tag_app using done : words.

(** The order in terms of the user keys and the tags. *)
Lemma IKC_order_cases (C : Comparator) a b :
  IKC_order C a b =
  if Compare (Comparator := C) (user_part a) (user_part b) =? 0
  then Z.sgn (tag b - tag a)
  else Compare (Comparator := C) (user_part a) (user_part b).
Proof.
  unfold IKC_order, IKC_Compare, ExtractUserKey, tag.
  destruct (8 <=? Slice_size a), (8 <=? Slice_size b); cbn [mbind option_bind]; try done.
  destruct (Z.eqb_spec (Compare (Comparator := C) (user_part a) (user_part b)) 0) as [E|]; [|done].
  repeat case_match; lia.
Qed.

(** Where the assertion of [ExtractUserKey] holds. *)
Lemma ExtractUserKey_Some k : (8 ≤ length k)%nat → ExtractUserKey k = Some (user_part k).
Proof. intros Hk. unfold ExtractUserKey, Slice_size. by rewrite (proj2 (Z.leb_le _ _)) by lia. Qed.

Lemma ExtractUserKey_None k : ExtractUserKey k = None ↔ Slice_size k < 8.
Proof. unfold ExtractUserKey. destruct (Z.leb_spec 8 (Slice_size k)); split; done || lia. Qed.

Lemma IKC_Compare_Some (C : Comparator) a b :
  (8 ≤ length a)%nat → (8 ≤ length b)%nat → IKC_Compare C a b = Some (IKC_order C a b).
Proof.
  intros Ha Hb. unfold IKC_order, IKC_Compare. by rewrite !ExtractUserKey_Some by done.
Qed.

Lemma IKC_Compare_None (C : Comparator) a b :
  IKC_Compare C a b = None ↔ Slice_size a < 8 ∨ Slice_size b < 8.
Proof.
  rewrite <- !ExtractUserKey_None. unfold IKC_Compare.
  destruct (ExtractUserKey a), (ExtractUserKey b); cbn; split; try intros [?|?]; auto; done.
Qed.

(** The assertions of [Encode] fail only where those of [ExtractUserKey] do. *)
Lemma IKC_CompareKeys_Compare (C : Comparator) a b :
  IKC_CompareKeys C a b = IKC_Compare C (rep_ a) (rep_ b).
Proof.
  unfold IKC_CompareKeys, InternalKey_Encode, IKC_Compare. destruct a as [[|x a]], b as [[|y b]]; try done.
  cbn [mbind option_bind Slice_empty rep_]. by destruct (ExtractUserKey (x :: a)).
Qed.

Section Laws.
Context (C : Comparator) (D : bytes → Prop) `{HC : !ComparatorLaws C D}.
Local Abbreviation cmp := (Compare (Comparator := C)).

(** Valid internal keys: a valid user key and eight more bytes. *)
Definition valid_internal_key (k : bytes) : Prop :=
  (8 ≤ length k)%nat ∧ D (user_part k).

(** The order needs the user keys to be valid only. *)
Lemma IKC_antisym_user a b : D (user_part a) → D (user_part b) →
  Z.sgn (IKC_order C b a) = - Z.sgn (IKC_order C a b).
Proof.
  intros Ha Hb. rewrite !IKC_order_cases.
  pose proof (Compare_antisym _ _ Ha Hb) as Hu.
  destruct (Z.eqb_spec (cmp (user_part b) (user_part a)) 0),
    (Z.eqb_spec (cmp (user_part a) (user_part b)) 0); lia.
Qed.

Lemma IKC_trans_user a b c :
  D (user_part a) → D (user_part b) → D (user_part c) →
  IKC_order C a b ≤ 0 → IKC_order C b c ≤ 0 → IKC_order C a c ≤ 0.
Proof.
  intros Ha Hb Hc. rewrite !IKC_order_cases.
  pose proof (Compare_trans _ _ _ Ha Hb Hc).
  pose proof (Compare_lt_le_trans C D _ _ _ Ha Hb Hc).
  pose proof (Compare_le_lt_trans C D _ _ _ Ha Hb Hc).
  destruct (Z.eqb_spec (cmp (user_part a) (user_part b)) 0),
    (Z.eqb_spec (cmp (user_part b) (user_part c)) 0),
    (Z.eqb_spec (cmp (user_part a) (user_part c)) 0); lia.
Qed.

Lemma IKC_antisym a b : valid_internal_key a → valid_internal_key b →
  Z.sgn (IKC_order C b a) = - Z.sgn (IKC_order C a b).
Proof. intros [_ Ha] [_ Hb]. by apply IKC_antisym_user. Qed.

Lemma IKC_trans a b c :
  valid_internal_key a → valid_internal_key b → valid_internal_key c →
  IKC_order C a b ≤ 0 → IKC_order C b c ≤ 0 → IKC_order C a c ≤ 0.
Proof. intros [_ Ha] [_ Hb] [_ Hc]. by apply IKC_trans_user. Qed.

(** A shortened user key with the largest tag: its assertions hold. *)
Lemma IKC_shortened_after k u packed :
  valid_internal_key k → D u → cmp (user_part k) u < 0 →
  0 ≤ packed < 2 ^ 64 →
  valid_internal_key (u ++ EncodeFixed64 packed) ∧
  IKC_order C k (u ++ EncodeFixed64 packed) < 0.
Proof.
  intros [Hk HDk] Hu Hlt Hp. split.
  - split; [rewrite length_app; simpl; lia|].
    by rewrite user_part_app.
  - rewrite IKC_order_cases, user_part_app by done.
    destruct (Z.eqb_spec (cmp (user_part k) u) 0); lia.
Qed.

Lemma IKC_shortened_before k u packed :
  cmp u (user_part k) < 0 → IKC_order C (u ++ EncodeFixed64 packed) k < 0.
Proof.
  intros Hlt. rewrite IKC_order_cases, user_part_app by done.
  destruct (Z.eqb_spec (cmp u (user_part k)) 0); lia.
Qed.

Lemma IKC_Separator_between start limit :
  valid_internal_key start → valid_internal_key limit → IKC_order C start limit < 0 →
  ∃ r, IKC_FindShortestSeparator C start limit = Some r ∧ valid_internal_key r ∧
       IKC_order C start r ≤ 0 ∧ IKC_order C r limit < 0.
Proof.
  intros Hs Hl Hlt. pose proof Hs as [Ls Ds]. pose proof Hl as [Ll Dl].
  assert (Hrefl : IKC_order C start start = 0).
  { pose proof (IKC_antisym start start Hs Hs). lia. }
  unfold IKC_FindShortestSeparator. rewrite !ExtractUserKey_Some by done. cbn [mbind option_bind].
  destruct (Z.lt_ge_cases (cmp (user_part start) (user_part limit)) 0) as [Hu|Hu].
  - destruct (Separator_between _ _ Ds Dl Hu) as (u & -> & Du & Hr1 & Hr2).
    cbn [mbind option_bind].
    destruct (Z.ltb_spec (Slice_size u) (Slice_size (user_part start)));
      [|exists start; rewrite Hrefl; done].
    destruct (Z.ltb_spec (cmp (user_part start) u) 0);
      [|exists start; rewrite Hrefl; done].
    rewrite PackSequenceAndType_spec by done. cbn [mbind option_bind]. unfold PutFixed64.
    destruct (IKC_shortened_after start u (pack kMaxSequenceNumber kValueTypeForSeek))
      as [Hv Hlt1]; [done..|by apply pack_range|].
    pose proof (IKC_shortened_before limit u
      (pack kMaxSequenceNumber kValueTypeForSeek) Hr2) as Hlt2.
    pose proof Hv as [Lv _]. rewrite !IKC_Compare_Some by done. cbn [mbind option_bind].
    destruct (Z.ltb_spec (IKC_order C start (u ++ EncodeFixed64
      (pack kMaxSequenceNumber kValueTypeForSeek))) 0); [|lia].
    destruct (Z.ltb_spec (IKC_order C (u ++ EncodeFixed64
      (pack kMaxSequenceNumber kValueTypeForSeek)) limit) 0); [|lia].
    eexists. split_and!; [done|done|lia|lia].
  - rewrite (Separator_unordered _ _ Ds Dl Hu). simpl.
    rewrite Z.ltb_irrefl. exists start. rewrite Hrefl. done.
Qed.

Lemma IKC_Successor_above key :
  valid_internal_key key →
  ∃ r, IKC_FindShortSuccessor C key = Some r ∧ valid_internal_key r ∧
       IKC_order C key r ≤ 0.
Proof.
  intros Hk. pose proof Hk as [Lk Dk].
  assert (Hrefl : IKC_order C key key = 0).
  { pose proof (IKC_antisym key key Hk Hk). lia. }
  unfold IKC_FindShortSuccessor. rewrite ExtractUserKey_Some by done. cbn [mbind option_bind].
  destruct (Successor_above _ Dk) as (u & -> & Du & Hr).
  cbn [mbind option_bind].
  destruct (Z.ltb_spec (Slice_size u) (Slice_size (user_part key)));
    [|exists key; rewrite Hrefl; done].
  destruct (Z.ltb_spec (cmp (user_part key) u) 0);
    [|exists key; rewrite Hrefl; done].
  rewrite PackSequenceAndType_spec by done. cbn [mbind option_bind]. unfold PutFixed64.
  destruct (IKC_shortened_after key u (pack kMaxSequenceNumber kValueTypeForSeek))
    as [Hv Hlt1]; [done..|by apply pack_range|].
  pose proof Hv as [Lv _]. rewrite IKC_Compare_Some by done. cbn [mbind option_bind].
  destruct (Z.ltb_spec (IKC_order C key (u ++ EncodeFixed64
    (pack kMaxSequenceNumber kValueTypeForSeek))) 0); [|lia].
  eexists. split_and!; [done|done|lia].
Qed.

#[export] Instance InternalKeyComparatorLaws :
  ComparatorLaws (InternalKeyComparator C) valid_internal_key.
Proof.
  split; simpl.
  - intros a Ha. pose proof (IKC_antisym a a Ha Ha). lia.
  - apply IKC_antisym.
  - apply IKC_trans.
  - apply IKC_Separator_between.
  - intros start limit [Ls Ds] [Ll Dl] Hge. unfold IKC_FindShortestSeparator.
    rewrite !ExtractUserKey_Some by done. cbn [mbind option_bind].
    rewrite (Separator_unordered _ _ Ds Dl); [simpl; by rewrite Z.ltb_irrefl|].
    rewrite IKC_order_cases in Hge.
    destruct (Z.eqb_spec (cmp (user_part start) (user_part limit)) 0); lia.
  - apply IKC_Successor_above.
Qed.
End Laws.

(** Parsing undoes packing. *)
Lemma pack_parts s t :
  Z.shiftr (pack s t) 8 = s ∧ u8 (Z.land (pack s t) 255) = ValueType_to_Z t.
Proof.
  unfold pack, u8. pose proof (ValueType_to_Z_range t).
  rewrite Z.shiftr_div_pow2, land_255 by lia. change (2 ^ 8) with 256.
  split.
  - rewrite Z.div_add_l, (Z.div_small (ValueType_to_Z t)) by lia. lia.
  - rewrite Z.mod_mod, Z.add_comm, Z.mod_add, Z.mod_small by lia. done.
Qed.

Lemma ValueType_of_to_Z t : ValueType_of_Z (ValueType_to_Z t) = Some t.
Proof. by destruct t. Qed.

Lemma ValueType_of_Z_Some c t : 0 ≤ c → ValueType_of_Z c = Some t → c = ValueType_to_Z t.
Proof.
  unfold ValueType_of_Z. intros Hc.
  destruct (Z.eqb_spec c 0) as [->|]; [by intros [= <-]|].
  destruct (Z.leb_spec c (ValueType_to_Z kTypeValue)); [|done].
  intros [= <-]. simpl in *. lia.
Qed.

Lemma ParseInternalKey_app u v :
  0 ≤ v < 2 ^ 64 →
  ParseInternalKey (u ++ EncodeFixed64 v) =
  (t ← ValueType_of_Z (u8 (Z.land v 255));
   Some {| user_key := u; sequence := Z.shiftr v 8; type := t |}).
Proof.
  intros Hv. unfold ParseInternalKey, Slice_size.
  rewrite drop_tag by done.
  destruct (Z.ltb_spec (Z.of_nat (length (u ++ EncodeFixed64 v))) 8) as [H|_].
  { rewrite length_app in H. simpl in H. lia. }
  rewrite DecodeFixed64_Encode_nil by done.
  by rewrite length_app, Nat.add_sub, take_app_length.
Qed.

Lemma EncodeFixed64_tag u p : length p = 8%nat → EncodeFixed64 (tag (u ++ p)) = p.
Proof. intros Hp. unfold tag. rewrite drop_tag by done. by apply EncodeFixed64_Decode. Qed.

(** ** Properties *)

(** AppendInternalKey appends user key, sequence and type so that
    ParseInternalKey returns them (the assertions hold for every sequence
    number up to the maximum); conversely a key that parses is exactly the
    encoding of the result, and parsing fails exactly on keys shorter than
    eight bytes or whose type byte names no type. *)
Theorem InternalKey_roundtrip result u s t k :
  0 ≤ s ≤ kMaxSequenceNumber →
  let key := {| user_key := u; sequence := s; type := t |} in
  (∃ enc, AppendInternalKey result key = Some (result ++ enc) ∧
          Slice_size enc = InternalKeyEncodingLength key ∧
          ParseInternalKey enc = Some key) ∧
  (∀ parsed, ParseInternalKey k = Some parsed → AppendInternalKey [] parsed = Some k) ∧
  (ParseInternalKey k = None ↔ Slice_size k < 8 ∨ 1 < tag k mod 256).
Proof.
  intros Hs key. split_and!.
  - exists (u ++ EncodeFixed64 (pack s t)). split_and!.
    + by apply AppendInternalKey_spec.
    + unfold InternalKeyEncodingLength, Slice_size. rewrite length_app. simpl. lia.
    + rewrite ParseInternalKey_app by by apply pack_range.
      destruct (pack_parts s t) as [-> ->]. by rewrite ValueType_of_to_Z.
  - intros parsed H. destruct (decide (8 ≤ length k)%nat) as [Hk|Hk].
    + destruct (internal_key_split k Hk) as (u' & p & -> & Hp).
      pose proof (tag_range (u' ++ p) Hk) as Ht.
      rewrite <- (EncodeFixed64_tag u' p Hp) in H at 1.
      rewrite ParseInternalKey_app in H by done.
      destruct (ValueType_of_Z _) as [t'|] eqn:E; simplify_eq/=.
      apply ValueType_of_Z_Some in E; [|apply u8_range].
      unfold u8 in E. rewrite land_255 in E. change (2 ^ 8) with 256 in E.
      rewrite Z.mod_mod in E by lia. rewrite Z.shiftr_div_pow2 by lia.
      change (2 ^ 8) with 256. pose proof (Z.div_mod (tag (u' ++ p)) 256 ltac:(lia)).
      rewrite AppendInternalKey_spec; [simpl; do 2 f_equal|].
      * etrans; [|apply (EncodeFixed64_tag u' p Hp)]. f_equal. unfold pack. lia.
      * rewrite kMaxSequenceNumber_val. split; [apply Z.div_pos; lia|].
        enough (tag (u' ++ p) / 256 < 2 ^ 56) by lia. apply Z.div_lt_upper_bound; lia.
    + unfold ParseInternalKey, Slice_size in H.
      destruct (Z.ltb_spec (Z.of_nat (length k)) 8); [done|lia].
  - destruct (decide (8 ≤ length k)%nat) as [Hk|Hk].
    + pose proof (tag_range k Hk) as Ht.
      destruct (internal_key_split k Hk) as (u' & p & -> & Hp).
      rewrite <- (EncodeFixed64_tag u' p Hp) at 1. rewrite ParseInternalKey_app by done.
      unfold u8. rewrite land_255. change (2 ^ 8) with 256. rewrite Z.mod_mod by lia.
      pose proof (Z.mod_pos_bound (tag (u' ++ p)) 256 ltac:(lia)).
      unfold ValueType_of_Z, Slice_size. simpl.
      destruct (Z.eqb_spec (tag (u' ++ p) mod 256) 0),
        (Z.leb_spec (tag (u' ++ p) mod 256) 1); simpl; split; try done; lia.
    + unfold ParseInternalKey, Slice_size.
      destruct (Z.ltb_spec (Z.of_nat (length k)) 8); [|lia]. split; [by left|done].
Qed.

(** InternalKeyComparator orders encoded keys by increasing user key, then
    by decreasing sequence number, then by decreasing type. *)
Theorem InternalKey_order (C : Comparator) u1 s1 t1 u2 s2 t2 k1 k2 :
  0 ≤ s1 ≤ kMaxSequenceNumber → 0 ≤ s2 ≤ kMaxSequenceNumber →
  AppendInternalKey [] {| user_key := u1; sequence := s1; type := t1 |} = Some k1 →
  AppendInternalKey [] {| user_key := u2; sequence := s2; type := t2 |} = Some k2 →
  let r := Compare (Comparator := C) u1 u2 in
  (IKC_order C k1 k2 < 0 ↔
    r < 0 ∨ (r = 0 ∧ (s2 < s1 ∨ (s1 = s2 ∧ ValueType_to_Z t2 < ValueType_to_Z t1)))) ∧
  (IKC_order C k1 k2 = 0 ↔ r = 0 ∧ s1 = s2 ∧ t1 = t2).
Proof.
  intros H1 H2. rewrite !AppendInternalKey_spec by done. intros [= <-] [= <-] r.
  rewrite IKC_order_cases, !user_part_app by done.
  rewrite !tag_app by by apply pack_range.
  fold r. unfold pack.
  pose proof (ValueType_to_Z_range t1). pose proof (ValueType_to_Z_range t2).
  assert (t1 = t2 ↔ ValueType_to_Z t1 = ValueType_to_Z t2) as -> by (by destruct t1, t2).
  destruct (Z.eqb_spec r 0); lia.
Qed.

(** C22: over any user comparator that honours the Comparator contract, the
    internal-key comparator honours it too on keys of at least eight bytes with a
    valid user key: total order, separators in [start, limit), successors above, and
    no assertion fails.  Its order on encoded keys is by increasing user key, then by
    decreasing sequence number, then by decreasing type.  On any strings, comparing
    fails an assertion exactly when one has fewer than eight bytes, as slices and as
    [InternalKey] objects, and shortening such a string fails one too. *)
Theorem InternalKeyComparator_contract (C : Comparator) (D : bytes → Prop) :
  ComparatorLaws C D →
  ComparatorLaws (InternalKeyComparator C) (valid_internal_key D) ∧
  (∀ u1 s1 t1 u2 s2 t2 k1 k2,
     0 ≤ s1 ≤ kMaxSequenceNumber → 0 ≤ s2 ≤ kMaxSequenceNumber →
     InternalKey_new u1 s1 t1 = Some k1 → InternalKey_new u2 s2 t2 = Some k2 →
     ∃ c, IKC_CompareKeys C k1 k2 = Some c ∧
     let r := Compare (Comparator := C) u1 u2 in
     (c < 0 ↔ r < 0 ∨ (r = 0 ∧ (s2 < s1 ∨ (s1 = s2 ∧ ValueType_to_Z t2 < ValueType_to_Z t1)))) ∧
     (c = 0 ↔ r = 0 ∧ s1 = s2 ∧ t1 = t2)) ∧
  (∀ a b, IKC_Compare C a b =
     if decide (8 ≤ Slice_size a ∧ 8 ≤ Slice_size b)
     then Some (Compare (Comparator := InternalKeyComparator C) a b) else None) ∧
  (∀ a b, IKC_CompareKeys C a b = None ↔ Slice_size (rep_ a) < 8 ∨ Slice_size (rep_ b) < 8) ∧
  (∀ a b, Slice_size a < 8 ∨ Slice_size b < 8 → IKC_FindShortestSeparator C a b = None) ∧
  (∀ a, Slice_size a < 8 → IKC_FindShortSuccessor C a = None).
Proof.
  intros HC. split; [by apply InternalKeyComparatorLaws|]. split; [|split; [|split; [|split]]].
  - intros u1 s1 t1 u2 s2 t2 k1 k2 H1 H2 E1 E2. apply fmap_Some in E1 as (e1 & E1 & ->), E2 as (e2 & E2 & ->).
    pose proof (InternalKey_order C u1 s1 t1 u2 s2 t2 e1 e2 H1 H2 E1 E2) as Ho.
    rewrite AppendInternalKey_spec in E1, E2 by done. injection E1 as <-. injection E2 as <-.
    eexists. split; [|exact Ho]. rewrite IKC_CompareKeys_Compare. cbn [rep_].
    apply IKC_Compare_Some; rewrite !length_app; simpl; lia.
  - intros a b. case_decide as Hab; [apply IKC_Compare_Some|apply IKC_Compare_None]; unfold Slice_size in *; lia.
  - intros a b. by rewrite IKC_CompareKeys_Compare, IKC_Compare_None.
  - intros a b [E|E]%or_comm; apply ExtractUserKey_None in E; unfold IKC_FindShortestSeparator; rewrite E;
      [by destruct (ExtractUserKey a)|done].
  - intros a E%ExtractUserKey_None. unfold IKC_FindShortSuccessor. by rewrite E.
Qed.

(** C36: a LookupKey never writes past its array (the inline one of 200 bytes or
    the allocated one), its three views are the length-prefixed internal key,
    the internal key and the user key, and in the internal-key order it
    precedes exactly the entries of larger user keys and the entries of its
    user key with sequence numbers up to the snapshot. *)
Theorem LookupKey_spec (C : Comparator) u s :
  0 ≤ s ≤ kMaxSequenceNumber → Slice_size u + 13 < 2 ^ 32 →
  ∃ lk, LookupKey_new u s = Some lk ∧
    Slice_size (LookupKey_memtable_key lk) ≤ lk_capacity lk ∧
    (LookupKey_destructor_deletes lk = true ↔ 187 < Slice_size u) ∧
    LookupKey_user_key lk = u ∧
    GetLengthPrefixedSlice (LookupKey_memtable_key lk)
      = (Some (LookupKey_internal_key lk), []) ∧
    ParseInternalKey (LookupKey_internal_key lk)
      = Some {| user_key := u; sequence := s; type := kTypeValue |} ∧
    (∀ u' s' t' k, 0 ≤ s' ≤ kMaxSequenceNumber →
      AppendInternalKey [] {| user_key := u'; sequence := s'; type := t' |} = Some k →
      IKC_order C (LookupKey_internal_key lk) k ≤ 0 ↔
        Compare (Comparator := C) u u' < 0 ∨
        (Compare (Comparator := C) u u' = 0 ∧ s' ≤ s)).
Proof.
  intros Hs Hu. pose proof (Slice_size_nonneg u).
  unfold LookupKey_new. rewrite PackSequenceAndType_spec by done. cbn [mbind option_bind].
  rewrite (u32_small (Slice_size u + 8)) by lia.
  set (kl := EncodeVarint32 (Slice_size u + 8)).
  set (tg := EncodeFixed64 (pack s kValueTypeForSeek)).
  destruct (EncodeVarint32_spec (Slice_size u + 8)) as (_ & _ & Hkl); [lia|]. fold kl in Hkl.
  assert (Hsz : Slice_size (u ++ tg) = Slice_size u + 8)
    by (unfold Slice_size; rewrite length_app; simpl; lia).
  eexists. split; [done|]. unfold LookupKey_memtable_key, LookupKey_internal_key,
    LookupKey_user_key, LookupKey_destructor_deletes, sizeof_space_. simpl.
  rewrite drop_app_length. split_and!.
  - unfold Slice_size in *. rewrite !length_app in *. simpl.
    destruct (Z.leb_spec (Z.of_nat (length u) + 13) 200); simpl; lia.
  - destruct (Z.leb_spec (Slice_size u + 13) 200); simpl; split; try done; lia.
  - rewrite !length_app. simpl.
    replace (length kl + (length u + 8) - length kl - 8)%nat with (length u) by lia.
    apply take_app_length.
  - rewrite (GetLengthPrefixedSlice_ok _ (Slice_size u + 8) (u ++ tg));
      [|apply GetVarint32_Encode; lia|lia|lia].
    rewrite <- Hsz. unfold Slice_size. by rewrite Nat2Z.id, firstn_all, drop_all.
  - unfold tg. rewrite ParseInternalKey_app by by apply pack_range.
    by destruct (pack_parts s kValueTypeForSeek) as [-> ->].
  - intros u' s' t' k Hs' Hk. rewrite AppendInternalKey_spec in Hk by done.
    injection Hk as <-. rewrite IKC_order_cases. unfold tg.
    rewrite !user_part_app by done. rewrite !tag_app by by apply pack_range.
    unfold pack. simpl. pose proof (ValueType_to_Z_range t').
    destruct (Z.eqb_spec (Compare u u') 0); lia.
Qed.

(** ** Witnesses *)

Lemma InternalKey_roundtrip_witness :
  ∃ enc, AppendInternalKey [] {| user_key := str "k"; sequence := 7; type := kTypeDeletion |}
           = Some ([] ++ enc) ∧
         Slice_size enc = 9 ∧
         ParseInternalKey enc
           = Some {| user_key := str "k"; sequence := 7; type := kTypeDeletion |}.
Proof.
  apply (InternalKey_roundtrip [] (str "k") 7 kTypeDeletion []).
  rewrite kMaxSequenceNumber_val. lia.
Defined.

Lemma InternalKey_order_witness :
  IKC_order BytewiseComparator
    (str "a" ++ EncodeFixed64 (pack 9 kTypeValue))
    (str "a" ++ EncodeFixed64 (pack 8 kTypeValue)) < 0.
Proof.
  apply (InternalKey_order BytewiseComparator (str "a") 9 kTypeValue (str "a") 8 kTypeValue
    (str "a" ++ EncodeFixed64 (pack 9 kTypeValue))
    (str "a" ++ EncodeFixed64 (pack 8 kTypeValue)));
    rewrite ?kMaxSequenceNumber_val; try lia; try reflexivity.
  right. split; [reflexivity|lia].
Defined.

Lemma InternalKeyComparator_contract_witness :
  ComparatorLaws (InternalKeyComparator BytewiseComparator) (valid_internal_key (λ _, True)).
Proof. apply (InternalKeyComparator_contract BytewiseComparator), BytewiseComparatorLaws. Defined.

Lemma LookupKey_spec_witness :
  ∃ lk, LookupKey_new (str "key") 5 = Some lk ∧
    Slice_size (LookupKey_memtable_key lk) ≤ lk_capacity lk.
Proof.
  destruct (LookupKey_spec BytewiseComparator (str "key") 5) as (lk & H1 & H2 & _).
  - rewrite kMaxSequenceNumber_val. lia.
  - unfold Slice_size. simpl. lia.
  - exists lk. split; [exact H1|exact H2].
Defined.
