(* ===== verification/InternalKeyTypes.v ===== *)
(** * The internal keys the library makes (db/dbformat.h, db/dbformat.cpp)

    A typing of byte strings as internal keys - at least eight bytes, the last eight
    a sequence number and the value of a [ValueType] - and its soundness: whatever
    the operations of DbFormat.v make is well typed, and none of them fails an
    assertion on what is well typed. *)
From stdpp Require Import base list numbers strings.
From Stdlib Require Import ZArith Lia.
From Stdlib Require Import Strings.Byte.
From S2P Require Import Prelude Slice Coding Comparator DbFormat.

#[local] Open Scope Z_scope.

Section Types.
Context (C : Comparator) (D : bytes → Prop) `{HC : !ComparatorLaws C D}.

(** [k] is the encoding of [key], whose user key is in the domain of the user
    comparator. *)
Record typed (k : bytes) (key : ParsedInternalKey) : Prop := {
  typed_user : D (user_key key);
  typed_sequence : 0 ≤ sequence key ≤ kMaxSequenceNumber;
  typed_encoding : k = user_key key ++ EncodeFixed64 (pack (sequence key) (type key)) }.

(** Strings made by the operations on internal keys, whose assertions held. *)
Inductive made : bytes → Prop :=
  | made_AppendInternalKey key k : D (user_key key) → 0 ≤ sequence key →
      AppendInternalKey [] key = Some k → made k
  | made_InternalKey u s t ik : D u → 0 ≤ s → InternalKey_new u s t = Some ik → made (rep_ ik)
  | made_SetFrom key ik : D (user_key key) → 0 ≤ sequence key →
      InternalKey_SetFrom key = Some ik → made (rep_ ik)
  | made_DecodeFrom k ik : made k → InternalKey_DecodeFrom k = (ik, true) → made (rep_ ik)
  | made_LookupKey u s lk : D u → 0 ≤ s → LookupKey_new u s = Some lk → made (LookupKey_internal_key lk)
  | made_FindShortestSeparator start limit k : made start → made limit →
      IKC_FindShortestSeparator C start limit = Some k → made k
  | made_FindShortSuccessor key k : made key → IKC_FindShortSuccessor C key = Some k → made k.

(** ** Lemmas *)

Lemma typed_parse k key : typed k key → ParseInternalKey k = Some key.
Proof.
  intros [_ Hs ->]. rewrite ParseInternalKey_app by by apply pack_range.
  destruct (pack_parts (sequence key) (type key)) as [-> ->]. rewrite ValueType_of_to_Z. by destruct key.
Qed.

Lemma typed_valid k key : typed k key → valid_internal_key D k ∧ user_part k = user_key key.
Proof.
  intros [Hu _ ->]. unfold valid_internal_key. rewrite user_part_app by done.
  split; [|done]. split; [|done]. rewrite length_app. simpl. lia.
Qed.

Lemma append_typed key k :
  D (user_key key) → 0 ≤ sequence key → AppendInternalKey [] key = Some k → typed k key.
Proof.
  intros Hu H0 Hk. destruct key as [u s t]. simpl in *.
  destruct (Z.le_gt_cases s kMaxSequenceNumber) as [Hs|Hs].
  - rewrite AppendInternalKey_spec in Hk by done. by injection Hk as <-.
  - unfold AppendInternalKey in Hk. simpl in Hk. by rewrite (proj2 (PackSequenceAndType_None s t) Hs) in Hk.
Qed.

Lemma lookup_typed u s lk :
  D u → 0 ≤ s → LookupKey_new u s = Some lk →
  typed (LookupKey_internal_key lk) {| user_key := u; sequence := s; type := kValueTypeForSeek |}.
Proof.
  intros Hu H0. unfold LookupKey_new.
  destruct (Z.le_gt_cases s kMaxSequenceNumber) as [Hs|Hs];
    [|by rewrite (proj2 (PackSequenceAndType_None s kValueTypeForSeek) Hs)].
  rewrite PackSequenceAndType_spec by done. cbn [mbind option_bind]. intros [= <-].
  unfold LookupKey_internal_key. cbn [lk_kstart lk_buffer]. by rewrite drop_app_length.
Qed.

Lemma parse_sequence k key : ParseInternalKey k = Some key → 0 ≤ sequence key.
Proof.
  unfold ParseInternalKey. destruct (Slice_size k <? 8) eqn:E8; [done|].
  destruct (ValueType_of_Z _); simpl; [|done]. intros [= <-]. simpl. apply Z.shiftr_nonneg.
  destruct (decide (8 ≤ length k)%nat) as [Hk|Hk]; [apply (tag_range k Hk)|].
  apply Z.ltb_ge in E8. unfold Slice_size in E8. lia.
Qed.

(** The key a shortened user key is given. *)
Definition seek_key (u : bytes) : ParsedInternalKey :=
  {| user_key := u; sequence := kMaxSequenceNumber; type := kValueTypeForSeek |}.

(** What [FindShortestSeparator] and [FindShortSuccessor] return is their argument
    or a shortened user key with the largest tag. *)
Lemma shortened_typed k (user_result : option bytes) (test : bytes → bool) (check : bytes → option bytes) r :
  (∀ tmp, user_result = Some tmp → D tmp) → (∀ tmp r, check tmp = Some r → r = tmp) →
  ∀ key, typed k key →
  (tmp ← user_result;
   if test tmp then
     packed ← PackSequenceAndType kMaxSequenceNumber kValueTypeForSeek; check (PutFixed64 tmp packed)
   else Some k) = Some r →
  ∃ key, typed r key.
Proof.
  intros HD Hcheck key Hk. destruct user_result as [u|]; [|done]. cbn [mbind option_bind].
  destruct (test u); [|intros [= <-]; by exists key].
  rewrite PackSequenceAndType_spec by done. cbn [mbind option_bind].
  intros ->%Hcheck. exists (seek_key u). split; simpl; [by apply HD|done|done].
Qed.

Lemma separator_typed start limit k1 k2 r :
  typed start k1 → typed limit k2 → IKC_FindShortestSeparator C start limit = Some r → ∃ key, typed r key.
Proof.
  intros H1 H2. destruct (typed_valid _ _ H1) as [[_ D1] _], (typed_valid _ _ H2) as [[_ D2] _].
  unfold IKC_FindShortestSeparator.
  destruct (typed_valid _ _ H1) as [[L1 _] _], (typed_valid _ _ H2) as [[L2 _] _].
  rewrite !ExtractUserKey_Some by done. cbn [mbind option_bind].
  apply (shortened_typed start _ (λ tmp, (_ <? _) && (Compare (Comparator := C) _ tmp <? 0))
    (λ tmp, c ← IKC_Compare C start tmp;
            if c <? 0 then c ← IKC_Compare C tmp limit; if c <? 0 then Some tmp else None else None))
    with k1; [| |done].
  - intros tmp E. destruct (Z.lt_ge_cases (Compare (Comparator := C) (user_part start) (user_part limit)) 0)
      as [Hlt|Hge].
    + destruct (Separator_between _ _ D1 D2 Hlt) as (u & E' & Hu & _). congruence.
    + rewrite (Separator_unordered _ _ D1 D2 Hge) in E. by injection E as <-.
  - intros tmp r'. destruct (IKC_Compare C start tmp), (IKC_Compare C tmp limit);
      simpl; repeat case_match; congruence.
Qed.

Lemma successor_typed key k1 r :
  typed key k1 → IKC_FindShortSuccessor C key = Some r → ∃ key, typed r key.
Proof.
  intros H1. destruct (typed_valid _ _ H1) as [[_ D1] _].
  destruct (typed_valid _ _ H1) as [[L1 _] _]. unfold IKC_FindShortSuccessor.
  rewrite ExtractUserKey_Some by done. cbn [mbind option_bind].
  apply (shortened_typed key _ (λ tmp, (_ <? _) && (Compare (Comparator := C) _ tmp <? 0))
    (λ tmp, c ← IKC_Compare C key tmp; if c <? 0 then Some tmp else None)) with k1; [| |done].
  - intros tmp E. destruct (Successor_above _ D1) as (u & E' & Hu & _). congruence.
  - intros tmp r'. destruct (IKC_Compare C key tmp); simpl; [case_match|]; congruence.
Qed.

Lemma made_typed k : made k → ∃ key, typed k key.
Proof.
  induction 1 as [key k Hu H0 Hk|u s t ik Hu H0 Hk|key ik Hu H0 Hk|k ik _ IH Hk|u s lk Hu H0 Hk
    |start limit k _ [k1 H1] _ [k2 H2] Hk|key k _ [k1 H1] Hk].
  - exists key. by apply append_typed.
  - apply fmap_Some in Hk as (k & Hk & ->). eexists. by eapply append_typed in Hk.
  - apply fmap_Some in Hk as (k & Hk & ->). eexists. by eapply append_typed in Hk.
  - by injection Hk as <- _.
  - eexists. by apply lookup_typed.
  - by apply (separator_typed start limit k1 k2).
  - by apply (successor_typed key k1).
Qed.

(** C24: the strings the operations of db/dbformat make as internal keys, in any
    order, are exactly those [ParseInternalKey] accepts with a user key in the domain
    of the user comparator: not shorter than eight bytes, with a byte that names a
    type.  Appending a key with a sequence number of 56 bits and parsing gives it
    back.  On such strings no operation fails an assertion: [ExtractUserKey] has its
    eight bytes, two of them compare, [Encode] and [DecodeFrom] accept them, and shortening one against
    another, or upwards, makes such a string again. *)
Theorem InternalKeys_typed :
  (∀ k, made k ↔ ∃ key, ParseInternalKey k = Some key ∧ D (user_key key)) ∧
  (∀ k, ParseInternalKey k = None ↔ Slice_size k < 8 ∨ 1 < tag k mod 256) ∧
  (∀ result key, 0 ≤ sequence key ≤ kMaxSequenceNumber →
     ∃ enc, AppendInternalKey result key = Some (result ++ enc) ∧
            Slice_size enc = InternalKeyEncodingLength key ∧ ParseInternalKey enc = Some key) ∧
  (∀ k, made k →
     8 ≤ Slice_size k ∧ (∃ u, ExtractUserKey k = Some u ∧ D u) ∧
     (∀ l, made l → is_Some (IKC_Compare C k l)) ∧
     InternalKey_DecodeFrom k = (MkInternalKey k, true) ∧ InternalKey_Encode (MkInternalKey k) = Some k ∧
     (∀ l, made l → ∃ r, IKC_FindShortestSeparator C k l = Some r ∧ made r) ∧
     (∃ r, IKC_FindShortSuccessor C k = Some r ∧ made r)).
Proof.
  pose proof (λ s t k, InternalKey_roundtrip [] [] s t k) as Hround.
  split; [|split; [|split]].
  - intros k. split.
    + intros Hk. destruct (made_typed k Hk) as [key Ht]. exists key. split; [by apply typed_parse|apply Ht].
    + intros (key & Hp & Hu). destruct (Hround 0 kTypeValue k) as (_ & Happ & _); [done|].
      pose proof (Happ _ Hp) as E. apply (made_AppendInternalKey key); [done| |done].
      by apply parse_sequence in Hp.
  - intros k. by destruct (Hround 0 kTypeValue k) as (_ & _ & H).
  - intros result [u s t] Hs. by destruct (InternalKey_roundtrip result u s t [] Hs) as (H & _).
  - intros k Hk. destruct (made_typed k Hk) as [key Ht]. destruct (typed_valid _ _ Ht) as [Hv _].
    pose proof Hv as [Hlen _].
    assert (Slice_empty k = false) as He by (destruct k; [simpl in Hlen; lia|done]).
    split; [unfold Slice_size; lia|].
    split; [exists (user_part k); split; [by apply ExtractUserKey_Some|apply Hv]|]. split.
    { intros l Hl. destruct (made_typed l Hl) as [key' Hl']. destruct (typed_valid _ _ Hl') as [[Hlen' _] _].
      rewrite IKC_Compare_Some by done. by eexists. }
    split; [by unfold InternalKey_DecodeFrom; rewrite He|].
    split; [unfold InternalKey_Encode; simpl; by rewrite He|]. split.
    + intros l Hl. destruct (made_typed l Hl) as [key' Hl']. destruct (typed_valid _ _ Hl') as [Hvl _].
      destruct (Z.lt_ge_cases (IKC_order C k l) 0) as [Hlt|Hge].
      * destruct (IKC_Separator_between C D k l Hv Hvl Hlt) as (r & E & _). exists r. split; [done|].
        by apply (made_FindShortestSeparator k l r).
      * pose proof (Separator_unordered (C:=InternalKeyComparator C) k l Hv Hvl Hge) as E.
        exists k. by split.
    + destruct (IKC_Successor_above C D k Hv) as (r & E & _). exists r. split; [done|].
      by apply (made_FindShortSuccessor k r).
Qed.
End Types.

(** The separator of a key and a lookup key. *)
Lemma InternalKeys_typed_witness :
  let k := str "alpha" ++ EncodeFixed64 (pack 7 kTypeDeletion) in
  let l := str "beta" ++ EncodeFixed64 (pack 9 kTypeValue) in
  IKC_FindShortestSeparator BytewiseComparator k l = Some k ∧
  ∃ key, ParseInternalKey k = Some key.
Proof.
  intros k l.
  assert (made BytewiseComparator (λ _, True) k) as Hk.
  { apply (made_AppendInternalKey _ _ {| user_key := str "alpha"; sequence := 7; type := kTypeDeletion |});
      [exact I|simpl; lia|reflexivity]. }
  destruct (InternalKeys_typed BytewiseComparator (λ _, True)) as (Hmade & _).
  split; [reflexivity|]. destruct (proj1 (Hmade k) Hk) as (key & Hp & _). exists key. exact Hp.
Defined.
