(* ===== verification/Hash.v ===== *)
(** * The hash function (util/hash.h, util/hash.cpp)

    [uint32_t] arithmetic is written out with [u32]; the product [n * m] is
    computed with [size_t] (64 bits). *)
From stdpp Require Import base list numbers.
From Stdlib Require Import ZArith Lia.
From Stdlib Require Import Strings.Byte.
From S2P Require Import Prelude Slice Coding.

#[local] Open Scope Z_scope.

Definition hash_m : Z := 0xc6a4a793.
Definition hash_r : Z := 24.

(** The [switch] on the last [limit - data] bytes, fall-through included. *)
Definition Hash_tail (h : Z) (data : bytes) : Z :=
  let finish h :=
    let h := u32 (h + byte_at data 0) in
    let h := u32 (h * hash_m) in
    Z.lxor h (Z.shiftr h hash_r) in
  let case2 h := finish (u32 (h + Z.shiftl (byte_at data 1) 8)) in
  match length data with
  | 3%nat => case2 (u32 (h + Z.shiftl (byte_at data 2) 16))
  | 2%nat => case2 h
  | 1%nat => finish h
  | _ => h
  end.

(** The [while (limit - data >= 4)] loop, then the tail. *)
Fixpoint Hash_loop (h : Z) (data : bytes) : Z :=
  match data with
  | b0 :: b1 :: b2 :: b3 :: data' =>
      let w := DecodeFixed32 data in
      let h := u32 (h + w) in
      let h := u32 (h * hash_m) in
      let h := Z.lxor h (Z.shiftr h 16) in
      Hash_loop h data'
  | _ => Hash_tail h data
  end.

Definition Hash (data : bytes) (seed : Z) : Z :=
  let n := Slice_size data in
  Hash_loop (u32 (Z.lxor seed (u64 (n * hash_m)))) data.

(** ** Lemmas *)

(** Xor-ing in the high bits keeps a 32-bit word 32 bits wide. *)
Lemma lxor_shiftr_range h n : 0 ≤ h < 2 ^ 32 → 0 ≤ n → 0 ≤ Z.lxor h (Z.shiftr h n) < 2 ^ 32.
Proof.
  intros Hh Hn.
  assert (Z.lxor h (Z.shiftr h n) = Z.lxor h (Z.shiftr h n) mod 2 ^ 32) as ->;
    [|apply Z.mod_pos_bound; lia].
  zbits. destruct (Z.ltb_spec i 32); simpl; [done|].
  by rewrite !(testbit_small h 32) by lia.
Qed.

Lemma Hash_tail_range h data : 0 ≤ h < 2 ^ 32 → 0 ≤ Hash_tail h data < 2 ^ 32.
Proof.
  intros Hh. unfold Hash_tail, hash_r.
  destruct (length data) as [|[|[|[|]]]]; try done;
    apply lxor_shiftr_range; auto with words; lia.
Qed.

Lemma Hash_loop_range data : ∀ h, 0 ≤ h < 2 ^ 32 → 0 ≤ Hash_loop h data < 2 ^ 32.
Proof.
  assert (H : ∀ n (l : bytes), (length l ≤ n)%nat →
    ∀ h, 0 ≤ h < 2 ^ 32 → 0 ≤ Hash_loop h l < 2 ^ 32); [|by apply (H (length data))].
  induction n as [|n IH]; intros l Hl h Hh.
  - destruct l; [by apply Hash_tail_range|simpl in Hl; lia].
  - destruct l as [|b0 [|b1 [|b2 [|b3 l]]]]; try by apply Hash_tail_range.
    cbn [Hash_loop]. apply IH; [simpl in Hl; lia|].
    apply lxor_shiftr_range; auto with words; lia.
Qed.

Lemma Hash_range data seed : 0 ≤ Hash data seed < 2 ^ 32.
Proof. apply Hash_loop_range, u32_range. Qed.

#[export] Hint Resolve Hash_range : words.

(** Reference values of the function for one to four bytes. *)
Example Hash_vectors :
  map (λ d, Hash d 0xbc9f1d34)
    [[x62]; [xc3; x97]; [xe2; x99; xa5]; [xe1; x80; xb9; x32]]
  = [0xef1345c4; 0x5b663814; 0x323c078f; 0xed21633a].
Proof. reflexivity. Qed.
