(* ===== verification/FilterPolicy.v ===== *)
(** * Filter policies (include/lldb/filter_policy.h, util/bloom.h,
      util/bloom.cpp, and InternalFilterPolicy of db/dbformat)

    The [FilterPolicy] interface as a class, its contract (no false negatives)
    as a class of laws, the bloom filter as an implementation and the
    internal-key wrapper as an implementation over any other. *)
From stdpp Require Import base list numbers strings.
From Stdlib Require Import ZArith Lia Floats.SpecFloat.
From Stdlib Require Import Strings.Byte.
From S2P Require Import Prelude Slice Coding Hash Comparator DbFormat.

#[local] Open Scope Z_scope.

(** ** The interface *)

(** [CreateFilter keys dst] returns the array [keys] after the call (the
    internal-key wrapper overwrites it) and the new [*dst].  [None]: an assertion
    fails. *)
Class FilterPolicy := {
  fp_Name : bytes;
  CreateFilter : list bytes → bytes → option (list bytes * bytes);
  KeyMayMatch : bytes → bytes → option bool;
}.

(** The contract on the keys in [D], for an [int] number of them: a filter is
    appended to [*dst] without changing what [*dst] holds, every key it was created
    from matches, and no assertion fails. *)
Class FilterPolicyLaws (F : FilterPolicy) (D : bytes → Prop) : Prop := {
  CreateFilter_appends keys dst : Z.of_nat (length keys) < 2 ^ 31 → (∀ key, key ∈ keys → D key) →
    ∃ keys' filter, CreateFilter keys dst = Some (keys', dst ++ filter) ∧
      ∀ key, key ∈ keys → KeyMayMatch key filter = Some true;
}.

(** ** BloomFilterPolicy *)

(** [double] is IEEE-754 binary64. *)
Definition double_of_int (n : Z) : spec_float := binary_normalize 53 1024 n 0 false.
Definition double_mul : spec_float → spec_float → spec_float := SFmul 53 1024.

(** The literal [0.69]: 6214967485771284 / 2^53. *)
Definition double_0_69 : spec_float := S754_finite false 6214967485771284 (-53).

(** Truncation of a finite [double] towards zero. *)
Definition double_to_Z (x : spec_float) : Z :=
  match x with
  | S754_finite s m e =>
      let a := if 0 <=? e then Z.shiftl (Zpos m) e else Z.shiftr (Zpos m) (- e) in
      if s then - a else a
  | _ => 0
  end.

Record BloomFilterPolicy := { bits_per_key_ : Z; k_ : Z }.

(** REQUIRES: [0 <= bits_per_key] (the conversion of a negative product to
    [size_t] is undefined). *)
Definition BloomFilterPolicy_new (bits_per_key : Z) : BloomFilterPolicy :=
  let k := u64 (double_to_Z (double_mul (double_of_int bits_per_key) double_0_69)) in
  let k := if k <? 1 then 1 else k in
  let k := if 30 <? k then 30 else k in
  {| bits_per_key_ := u64 bits_per_key; k_ := k |}.

Definition BloomHash (key : bytes) : Z := Hash key 0xbc9f1d34.

(** Rotate right 17 bits. *)
Definition bloom_delta (h : Z) : Z := Z.lor (Z.shiftr h 17) (u32 (Z.shiftl h 15)).

(** [char] at index [i] of an array. *)
Definition char_at (array : bytes) (i : Z) : Z :=
  match array !! Z.to_nat i with Some b => s2z b | None => 0 end.

(** [array[bitpos / 8] |= (1 << (bitpos % 8))], in [int] arithmetic. *)
Definition set_bit (array : bytes) (bitpos : Z) : bytes :=
  <[Z.to_nat (bitpos / 8) :=
      z2b (Z.lor (char_at array (bitpos / 8)) (Z.shiftl 1 (bitpos mod 8)))]> array.

Definition test_bit (array : bytes) (bitpos : Z) : bool :=
  negb (Z.land (char_at array (bitpos / 8)) (Z.shiftl 1 (bitpos mod 8)) =? 0).

(** The inner loop of [CreateFilter]: [j] probes left. *)
Fixpoint Bloom_add_key (j : nat) (bits h delta : Z) (array : bytes) : bytes :=
  match j with
  | O => array
  | S j =>
      let bitpos := u32 (h mod bits) in
      Bloom_add_key j bits (u32 (h + delta)) delta (set_bit array bitpos)
  end.

Definition Bloom_add (k bits : Z) (array : bytes) (key : bytes) : bytes :=
  let h := BloomHash key in
  Bloom_add_key (Z.to_nat k) bits h (bloom_delta h) array.

Definition Bloom_CreateFilter (p : BloomFilterPolicy) (keys : list bytes) (dst : bytes)
    : bytes :=
  let n := Z.of_nat (length keys) in
  let bits := u64 (n * bits_per_key_ p) in
  let bits := if bits <? 64 then 64 else bits in
  let bytes := u64 (bits + 7) / 8 in
  let bits := u64 (bytes * 8) in
  let array := replicate (Z.to_nat bytes) x00 ++ [z2b (k_ p)] in
  dst ++ foldl (Bloom_add (k_ p) bits) array keys.

(** The loop of [KeyMayMatch]: [j] probes left. *)
Fixpoint Bloom_probe (j : nat) (bits h delta : Z) (array : bytes) : bool :=
  match j with
  | O => true
  | S j =>
      let bitpos := u32 (h mod bits) in
      if negb (test_bit array bitpos) then false
      else Bloom_probe j bits (u32 (h + delta)) delta array
  end.

Definition Bloom_KeyMayMatch (key bloom_filter : bytes) : bool :=
  let len := Slice_size bloom_filter in
  if len <? 2 then false
  else
    let bits := u64 ((len - 1) * 8) in
    let k := u64 (char_at bloom_filter (len - 1)) in
    if 30 <? k then true
    else
      let h := BloomHash key in
      Bloom_probe (Z.to_nat k) bits h (bloom_delta h) bloom_filter.

Definition BloomPolicy (p : BloomFilterPolicy) : FilterPolicy := {|
  fp_Name := str "lldb.BuiltinBloomFilter2";
  CreateFilter keys dst := Some (keys, Bloom_CreateFilter p keys dst);
  KeyMayMatch key filter := Some (Bloom_KeyMayMatch key filter);
|}.

Definition NewBloomFilterPolicy (bits_per_key : Z) : FilterPolicy :=
  BloomPolicy (BloomFilterPolicy_new bits_per_key).

(** ** InternalFilterPolicy *)

(** The loop that replaces every [keys[i]] by its user key. *)
Fixpoint Internal_adjust_keys (i : nat) (n : nat) (keys : list bytes) : option (list bytes) :=
  match n with
  | O => Some keys
  | S n =>
      key ← (keys !! i);
      user_key ← ExtractUserKey key;
      Internal_adjust_keys (S i) n (<[i := user_key]> keys)
  end.

Definition InternalFilterPolicy (user_policy_ : FilterPolicy) : FilterPolicy := {|
  fp_Name := fp_Name (FilterPolicy := user_policy_);
  CreateFilter keys dst :=
    keys ← Internal_adjust_keys 0 (length keys) keys;
    CreateFilter (FilterPolicy := user_policy_) keys dst;
  KeyMayMatch key f :=
    user_key ← ExtractUserKey key;
    KeyMayMatch (FilterPolicy := user_policy_) user_key f;
|}.

(** ** Lemmas: bits of a [char] array *)

Lemma land_shiftl_1 a j : 0 ≤ j → (Z.land a (Z.shiftl 1 j) =? 0) = negb (Z.testbit a j).
Proof.
  intros Hj.
  assert (E : ∀ i, 0 ≤ i → Z.testbit (Z.shiftl 1 j) i = (i =? j)).
  { intros i Hi. rewrite Z.shiftl_1_l, Z.pow2_bits_eqb by done. apply Z.eqb_sym. }
  destruct (Z.testbit a j) eqn:Ha.
  - destruct (Z.eqb_spec (Z.land a (Z.shiftl 1 j)) 0) as [H|]; [|done].
    apply (f_equal (λ z, Z.testbit z j)) in H.
    by rewrite Z.land_spec, E, Ha, Z.eqb_refl, Z.bits_0 in H.
  - apply Z.eqb_eq, Z.bits_inj'. intros i Hi. rewrite Z.land_spec, E, Z.bits_0 by done.
    destruct (Z.eqb_spec i j) as [->|]; [by rewrite Ha|apply andb_false_r].
Qed.

Lemma testbit_s2z b j : 0 ≤ j < 8 → Z.testbit (s2z b) j = Z.testbit (b2z b) j.
Proof.
  intros Hj. unfold s2z. destruct (b2z b <? 128); [done|].
  assert (E : ∀ z, Z.testbit z j = Z.testbit (z mod 2 ^ 8) j).
  { intros z. rewrite testbit_mod_pow2 by lia. by destruct (Z.ltb_spec j 8); [|lia]. }
  rewrite (E (b2z b - 256)), (E (b2z b)). f_equal.
  change (2 ^ 8) with 256. rewrite <- (Z.mod_add (b2z b - 256) 1) by lia. f_equal. lia.
Qed.

Lemma testbit_z2b z j : 0 ≤ j < 8 → Z.testbit (b2z (z2b z)) j = Z.testbit z j.
Proof.
  intros Hj. rewrite b2z_z2b. change 256 with (2 ^ 8).
  rewrite testbit_mod_pow2 by lia. by destruct (Z.ltb_spec j 8); [|lia].
Qed.

(** Bit [p] of the array. *)
Definition array_bit (array : bytes) (p : Z) : bool :=
  match array !! Z.to_nat (p / 8) with
  | Some b => Z.testbit (b2z b) (p mod 8)
  | None => false
  end.

Lemma test_bit_spec array p : test_bit array p = array_bit array p.
Proof.
  unfold test_bit, array_bit, char_at.
  pose proof (Z.mod_pos_bound p 8 ltac:(lia)).
  rewrite land_shiftl_1, negb_involutive by lia.
  destruct (array !! _); [by apply testbit_s2z|apply Z.bits_0].
Qed.

Lemma length_set_bit array p : length (set_bit array p) = length array.
Proof. apply length_insert. Qed.

(** Setting bit [p] leaves every other bit as it was. *)
Lemma array_bit_set array p q :
  0 ≤ p → 0 ≤ q → p / 8 < Slice_size array →
  array_bit (set_bit array p) q = array_bit array q || (p =? q).
Proof.
  intros Hp Hq Hlen. unfold array_bit, set_bit, Slice_size in *.
  pose proof (Z.mod_pos_bound q 8 ltac:(lia)). pose proof (Z.mod_pos_bound p 8 ltac:(lia)).
  pose proof (Z.div_mod p 8 ltac:(lia)). pose proof (Z.div_mod q 8 ltac:(lia)).
  pose proof (Z.div_pos p 8 ltac:(lia) ltac:(lia)).
  pose proof (Z.div_pos q 8 ltac:(lia) ltac:(lia)).
  destruct (Z.eq_dec (p / 8) (q / 8)) as [E|E].
  - rewrite <- E, list_lookup_insert_eq by lia.
    destruct (lookup_lt_is_Some_2 array (Z.to_nat (p / 8))) as [b Hb]; [lia|].
    rewrite Hb. unfold char_at. rewrite Hb, testbit_z2b, Z.lor_spec, testbit_s2z by lia.
    f_equal. rewrite Z.shiftl_1_l, Z.pow2_bits_eqb by lia.
    destruct (Z.eqb_spec (p mod 8) (q mod 8)), (Z.eqb_spec p q); try done; lia.
  - rewrite list_lookup_insert_ne by lia.
    destruct (Z.eqb_spec p q) as [->|]; [lia|by rewrite orb_false_r].
Qed.

(** The bytes that hold no position in range keep their value. *)
Lemma char_at_set_bit array p i :
  0 ≤ p → p / 8 < i → char_at (set_bit array p) i = char_at array i.
Proof.
  intros Hp Hi. unfold char_at, set_bit.
  pose proof (Z.div_pos p 8 ltac:(lia) ltac:(lia)).
  by rewrite list_lookup_insert_ne by lia.
Qed.

(** ** Lemmas: the probes of a key *)

(** The bit positions a key is hashed to. *)
Fixpoint Bloom_positions (j : nat) (bits h delta : Z) : list Z :=
  match j with
  | O => []
  | S j => u32 (h mod bits) :: Bloom_positions j bits (u32 (h + delta)) delta
  end.

Lemma Bloom_add_key_positions j bits h delta array :
  Bloom_add_key j bits h delta array = foldl set_bit array (Bloom_positions j bits h delta).
Proof. revert h array. induction j as [|j IH]; intros; simpl; [done|apply IH]. Qed.

Lemma Bloom_probe_positions j bits h delta array :
  Bloom_probe j bits h delta array =
  forallb (array_bit array) (Bloom_positions j bits h delta).
Proof.
  revert h. induction j as [|j IH]; intros; simpl; [done|].
  rewrite test_bit_spec. destruct (array_bit _ _); simpl; [apply IH|done].
Qed.

Lemma Bloom_positions_range j bits h delta :
  0 < bits → 0 ≤ h < 2 ^ 32 →
  Forall (λ p, 0 ≤ p < bits) (Bloom_positions j bits h delta).
Proof.
  intros Hb. revert h. induction j as [|j IH]; intros h Hh; simpl; constructor.
  - pose proof (Z.mod_pos_bound h bits Hb). pose proof (Z.mod_le h bits).
    rewrite u32_small by lia. lia.
  - apply IH. apply u32_range.
Qed.

(** Setting positions in range: length, the bits set and the byte after them. *)
Lemma foldl_set_bit array nbytes l :
  Forall (λ p, 0 ≤ p < 8 * nbytes) l → nbytes ≤ Slice_size array →
  length (foldl set_bit array l) = length array ∧
  char_at (foldl set_bit array l) nbytes = char_at array nbytes ∧
  ∀ q, 0 ≤ q → array_bit (foldl set_bit array l) q = true ↔
               array_bit array q = true ∨ q ∈ l.
Proof.
  intros Hl. revert array. induction Hl as [|p l Hp Hl IH]; intros array Hlen; simpl.
  - split_and!; [done..|]. intros q _. rewrite elem_of_nil. tauto.
  - assert (p / 8 < nbytes) by (apply Z.div_lt_upper_bound; lia).
    destruct (IH (set_bit array p)) as (H1 & H2 & H3).
    { unfold Slice_size. by rewrite length_set_bit. }
    rewrite length_set_bit in H1. rewrite char_at_set_bit in H2 by lia.
    split_and!; [done..|]. intros q Hq.
    rewrite H3, array_bit_set, orb_true_iff, Z.eqb_eq, elem_of_cons by lia.
    split; [intros [[?|<-]|?]|intros [?|[->|?]]]; auto.
Qed.

Definition key_positions (k bits : Z) (key : bytes) : list Z :=
  Bloom_positions (Z.to_nat k) bits (BloomHash key) (bloom_delta (BloomHash key)).

Lemma Bloom_add_fold k bits array keys :
  foldl (Bloom_add k bits) array keys =
  foldl set_bit array (keys ≫= key_positions k bits).
Proof.
  revert array. induction keys as [|key keys IH]; intros array; [done|].
  rewrite bind_cons, foldl_app. simpl. rewrite IH. unfold Bloom_add.
  by rewrite Bloom_add_key_positions.
Qed.

(** The number of bytes of bits [CreateFilter] allocates. *)
Definition Bloom_bytes (p : BloomFilterPolicy) (n : Z) : Z :=
  (Z.max 64 (n * bits_per_key_ p) + 7) / 8.

Definition valid_policy (p : BloomFilterPolicy) : Prop :=
  0 ≤ bits_per_key_ p < 2 ^ 31 ∧ 1 ≤ k_ p ≤ 30.

Lemma Bloom_CreateFilter_spec p keys dst :
  valid_policy p → Z.of_nat (length keys) < 2 ^ 31 →
  let nbytes := Bloom_bytes p (Z.of_nat (length keys)) in
  Bloom_CreateFilter p keys dst =
  dst ++ foldl set_bit (replicate (Z.to_nat nbytes) x00 ++ [z2b (k_ p)])
           (keys ≫= key_positions (k_ p) (8 * nbytes)).
Proof.
  intros [Hb Hk] Hn nbytes. unfold Bloom_CreateFilter.
  set (n := Z.of_nat (length keys)) in *. assert (0 ≤ n) by lia.
  assert (0 ≤ n * bits_per_key_ p < 2 ^ 62) by nia.
  rewrite (u64_small (n * bits_per_key_ p)) by lia.
  assert ((if n * bits_per_key_ p <? 64 then 64 else n * bits_per_key_ p)
    = Z.max 64 (n * bits_per_key_ p)) as -> by (destruct (Z.ltb_spec (n * bits_per_key_ p) 64); lia).
  rewrite (u64_small (Z.max _ _ + 7)) by lia. fold (Bloom_bytes p n). fold nbytes.
  assert (0 ≤ nbytes < 2 ^ 60).
  { unfold nbytes, Bloom_bytes. split; [apply Z.div_pos; lia|apply Z.div_lt_upper_bound; lia]. }
  rewrite (u64_small (nbytes * 8)) by lia.
  by rewrite Bloom_add_fold, (Z.mul_comm nbytes).
Qed.

Lemma BloomFilterPolicy_new_valid bits_per_key :
  0 ≤ bits_per_key < 2 ^ 31 → valid_policy (BloomFilterPolicy_new bits_per_key).
Proof.
  intros Hb. unfold valid_policy, BloomFilterPolicy_new. simpl. split.
  - rewrite u64_small by lia. done.
  - set (k := u64 _). destruct (Z.ltb_spec k 1); [done|].
    destruct (Z.ltb_spec 30 k); lia.
Qed.

(** The filter a valid policy creates: its size, its last byte and its bits. *)
Lemma Bloom_filter_shape p keys :
  valid_policy p → Z.of_nat (length keys) < 2 ^ 31 →
  let nbytes := Bloom_bytes p (Z.of_nat (length keys)) in
  ∃ filter, (∀ dst, Bloom_CreateFilter p keys dst = dst ++ filter) ∧
    Slice_size filter = nbytes + 1 ∧ 8 ≤ nbytes < 2 ^ 60 ∧
    char_at filter nbytes = k_ p ∧
    ∀ key, key ∈ keys →
      forallb (array_bit filter) (key_positions (k_ p) (8 * nbytes) key) = true.
Proof.
  intros Hv Hn nbytes. pose proof Hv as [Hb Hk].
  assert (H8 : 8 ≤ nbytes < 2 ^ 60).
  { unfold nbytes, Bloom_bytes.
    assert (0 ≤ Z.of_nat (length keys) * bits_per_key_ p < 2 ^ 62) by nia.
    split; [apply Z.div_le_lower_bound; lia|apply Z.div_lt_upper_bound; lia]. }
  set (init := replicate (Z.to_nat nbytes) x00 ++ [z2b (k_ p)]).
  assert (Hinit : Slice_size init = nbytes + 1)
    by (unfold init, Slice_size; rewrite length_app, length_replicate; simpl; lia).
  assert (Hpos : ∀ key, Forall (λ q, 0 ≤ q < 8 * nbytes) (key_positions (k_ p) (8 * nbytes) key)).
  { intros key. apply Bloom_positions_range; [lia|apply Hash_range]. }
  destruct (foldl_set_bit init nbytes (keys ≫= key_positions (k_ p) (8 * nbytes)))
    as (Hlen & Hlast & Hbits); [|lia|].
  { apply Forall_forall. intros q (key & Hq & _)%list_elem_of_bind.
    by apply (proj1 (Forall_forall _ _) (Hpos key)). }
  eexists. split; [intros dst; by apply Bloom_CreateFilter_spec|]. fold nbytes init.
  split_and!; [unfold Slice_size in *; lia|lia|lia| |].
  - rewrite Hlast. unfold char_at, init.
    rewrite lookup_app_r by (rewrite length_replicate; lia).
    rewrite length_replicate, Nat.sub_diag. simpl. unfold s2z. rewrite b2z_z2b_small by lia.
    destruct (Z.ltb_spec (k_ p) 128); lia.
  - intros key Hkey. apply forallb_forall. intros q Hq%list_elem_of_In.
    destruct (proj1 (Forall_forall _ _) (Hpos key) q Hq) as [? _].
    apply Hbits; [done|]. right. apply list_elem_of_bind. eauto.
Qed.

(** A filter of this shape matches the keys whose positions are all set. *)
Lemma Bloom_KeyMayMatch_shape filter nbytes k key :
  Slice_size filter = nbytes + 1 → 1 ≤ nbytes < 2 ^ 60 →
  char_at filter nbytes = k → 0 ≤ k ≤ 30 →
  Bloom_KeyMayMatch key filter =
  forallb (array_bit filter) (key_positions k (8 * nbytes) key).
Proof.
  intros Hlen Hn Hk Hk30. unfold Bloom_KeyMayMatch. rewrite Hlen, Z.add_simpl_r, Hk.
  destruct (Z.ltb_spec (nbytes + 1) 2); [lia|].
  rewrite (u64_small k), (u64_small (nbytes * 8)), Z.mul_comm by lia.
  destruct (Z.ltb_spec 30 k); [lia|]. apply Bloom_probe_positions.
Qed.

Lemma Bloom_laws p : valid_policy p → FilterPolicyLaws (BloomPolicy p) (λ _, True).
Proof.
  intros Hv. split. intros keys dst Hn _.
  destruct (Bloom_filter_shape p keys Hv Hn) as (filter & Hc & Hlen & Hnb & Hk & Hbits).
  exists keys, filter. cbn. rewrite Hc. split; [done|]. intros key Hkey. f_equal.
  pose proof Hv as [_ Hkr].
  rewrite (Bloom_KeyMayMatch_shape _ _ _ key Hlen) by (done || lia). auto.
Qed.

(** ** Lemmas: InternalFilterPolicy *)

Lemma Internal_adjust_keys_spec keys :
  (∀ key, key ∈ keys → (8 ≤ length key)%nat) →
  Internal_adjust_keys 0 (length keys) keys = Some (map user_part keys).
Proof.
  assert (H : ∀ rest done', (∀ key, key ∈ rest → (8 ≤ length key)%nat) →
    Internal_adjust_keys (length done') (length rest) (done' ++ rest)
    = Some (done' ++ map user_part rest)); [|apply (H keys [])].
  induction rest as [|key rest IH]; intros done' Hk; [done|].
  simpl. rewrite list_lookup_middle by done. simpl.
  rewrite ExtractUserKey_Some by (apply Hk; left). simpl.
  rewrite insert_app_r_alt, Nat.sub_diag by lia. simpl.
  specialize (IH (done' ++ [user_part key]) (λ k Hin, Hk k (list_elem_of_further _ _ _ Hin))).
  rewrite <- !app_assoc, length_app, Nat.add_comm in IH. exact IH.
Qed.

Lemma Internal_adjust_keys_short i n keys key :
  (∃ j, (i ≤ j < i + n)%nat ∧ keys !! j = Some key) → Slice_size key < 8 →
  Internal_adjust_keys i n keys = None.
Proof.
  intros (j & Hj & Ej) Hk%ExtractUserKey_None. revert i keys Hj Ej.
  induction n as [|n IH]; intros i keys Hj Ej; [lia|]. simpl. destruct (decide (i = j)) as [->|Hne].
  - rewrite Ej. simpl. by rewrite Hk.
  - destruct (keys !! i) as [k|]; [|done]. simpl. destruct (ExtractUserKey k) as [u|]; [|done]. simpl.
    apply IH; [lia|]. by rewrite list_lookup_insert_ne.
Qed.

Lemma Internal_laws (F : FilterPolicy) (D : bytes → Prop) :
  FilterPolicyLaws F D → FilterPolicyLaws (InternalFilterPolicy F) (valid_internal_key D).
Proof.
  intros HF. split. intros keys dst Hn HD. cbn.
  rewrite Internal_adjust_keys_spec by (intros key Hkey; by apply HD). cbn [mbind option_bind].
  destruct (CreateFilter_appends (F := F) (map user_part keys) dst)
    as (keys' & filter & E & Hm); [by rewrite length_map| |].
  { intros u (key & -> & Hkey)%list_elem_of_fmap. by apply HD. }
  exists keys', filter. split; [done|]. intros key Hkey.
  rewrite ExtractUserKey_Some by by apply HD. cbn [mbind option_bind].
  by apply Hm, list_elem_of_fmap_2.
Qed.

#[export] Instance NewBloomFilterPolicy_laws_10 : FilterPolicyLaws (NewBloomFilterPolicy 10) (λ _, True).
Proof. apply Bloom_laws, BloomFilterPolicy_new_valid. lia. Qed.

(** ** Properties *)

(** C17: a bloom filter has no false negatives: whatever the number of bits per
    key, CreateFilter appends to dst, without touching it, a filter of
    max(64, n * bits_per_key) bits rounded up to bytes plus one byte, and
    KeyMayMatch answers true on it for every key it was created from. *)
Theorem Bloom_no_false_negatives bits_per_key keys dst :
  0 ≤ bits_per_key < 2 ^ 31 → Z.of_nat (length keys) < 2 ^ 31 →
  let p := BloomFilterPolicy_new bits_per_key in
  1 ≤ k_ p ≤ 30 ∧
  ∃ filter, Bloom_CreateFilter p keys dst = dst ++ filter ∧
    Slice_size filter = (Z.max 64 (Z.of_nat (length keys) * bits_per_key) + 7) / 8 + 1 ∧
    ∀ key, key ∈ keys → Bloom_KeyMayMatch key filter = true.
Proof.
  intros Hb Hn p.
  assert (Hv : valid_policy p) by by apply BloomFilterPolicy_new_valid.
  pose proof Hv as [_ Hk]. split; [done|].
  destruct (Bloom_filter_shape p keys Hv Hn) as (filter & Hc & Hlen & Hnb & Hk' & Hbits).
  exists filter. split_and!; [apply Hc| |].
  - rewrite Hlen. unfold Bloom_bytes, p. simpl. by rewrite u64_small by lia.
  - intros key Hkey.
    rewrite (Bloom_KeyMayMatch_shape _ _ (k_ p) key Hlen); [by auto|lia|done|lia].
Qed.

(** InternalFilterPolicy over any user policy without false negatives has
    none either: the filter is built from the user keys, to which the keys
    array is overwritten, and a lookup with any internal key of the same user
    key (whatever its sequence number and type) matches; no assertion fails on
    keys of at least eight bytes, and one does on shorter ones. *)
Theorem InternalFilterPolicy_no_false_negatives (F : FilterPolicy) (D : bytes → Prop) keys dst :
  FilterPolicyLaws F D → Z.of_nat (length keys) < 2 ^ 31 →
  ((∀ key, key ∈ keys → valid_internal_key D key) →
   ∃ filter keys',
     CreateFilter (FilterPolicy := F) (map user_part keys) dst = Some (keys', dst ++ filter) ∧
     CreateFilter (FilterPolicy := InternalFilterPolicy F) keys dst = Some (keys', dst ++ filter) ∧
     ∀ key key', key ∈ keys → ExtractUserKey key' = ExtractUserKey key →
       KeyMayMatch (FilterPolicy := InternalFilterPolicy F) key' filter = Some true) ∧
  (∀ key filter, Slice_size key < 8 →
     KeyMayMatch (FilterPolicy := InternalFilterPolicy F) key filter = None ∧
     (key ∈ keys → CreateFilter (FilterPolicy := InternalFilterPolicy F) keys dst = None)).
Proof.
  intros HF Hn. split.
  - intros HD. pose proof (Internal_laws F D HF) as HI.
    destruct (CreateFilter_appends (F := InternalFilterPolicy F) keys dst Hn HD) as (keys' & filter & E & Hm).
    exists filter, keys'. split; [|split; [done|]].
    + cbn in E. by rewrite Internal_adjust_keys_spec in E by (intros key Hkey; by apply HD).
    + intros key key' Hkey Eu. specialize (Hm key Hkey). cbn in *. by rewrite Eu.
  - intros key filter Hk. split.
    + cbn. by rewrite (proj2 (ExtractUserKey_None key) Hk).
    + intros (j & Hj)%list_elem_of_lookup. cbn. rewrite (Internal_adjust_keys_short 0 _ _ key); [done| |done].
      exists j. split; [|done]. apply lookup_lt_Some in Hj. lia.
Qed.

(** ** Witnesses *)

Lemma Bloom_no_false_negatives_witness :
  k_ (BloomFilterPolicy_new 10) = 6 ∧
  ∃ filter, Bloom_CreateFilter (BloomFilterPolicy_new 10) [str "hello"; str "world"] (str "x")
              = str "x" ++ filter ∧
    Slice_size filter = 9 ∧ Bloom_KeyMayMatch (str "world") filter = true.
Proof.
  split; [reflexivity|].
  destruct (Bloom_no_false_negatives 10 [str "hello"; str "world"] (str "x"))
    as (_ & filter & H1 & H2 & H3); [lia|simpl; lia|].
  exists filter. split; [exact H1|]. split; [exact H2|]. apply H3.
  right. left.
Defined.

Lemma InternalFilterPolicy_no_false_negatives_witness :
  ∃ filter keys',
    CreateFilter (FilterPolicy := InternalFilterPolicy (NewBloomFilterPolicy 10))
      [str "k12345678"] [] = Some (keys', [] ++ filter) ∧
    KeyMayMatch (FilterPolicy := InternalFilterPolicy (NewBloomFilterPolicy 10))
      (str "kabcdefgh") filter = Some true.
Proof.
  destruct (InternalFilterPolicy_no_false_negatives (NewBloomFilterPolicy 10) (λ _, True)
    [str "k12345678"] [] NewBloomFilterPolicy_laws_10) as [H _]; [simpl; lia|].
  destruct H as (filter & keys' & _ & H1 & H2).
  { intros key ->%list_elem_of_singleton. split; [simpl; lia|exact I]. }
  exists filter, keys'. split; [exact H1|]. apply (H2 (str "k12345678")); [left|reflexivity].
Defined.
