(* ===== verification/Random.v ===== *)
(** * The random number generator (util/random.h)

    The generator's state is [seed_]; every operation takes it and returns its
    result with the new state. *)
From stdpp Require Import base list numbers list_numbers.
From Stdlib Require Import ZArith Lia Zpow_facts.
From S2P Require Import Prelude.

#[local] Open Scope Z_scope.

(** ** Definitions *)

Definition Random_new (s : Z) : Z :=
  let seed_ := Z.land s 0x7fffffff in
  if (seed_ =? 0) || (seed_ =? 2147483647) then 1 else seed_.

Definition random_M : Z := 2147483647.
Definition random_A : Z := 16807.

Definition Random_Next (seed_ : Z) : Z * Z :=
  let product := u64 (seed_ * random_A) in
  let seed_ := u32 (Z.shiftr product 31 + Z.land product random_M) in
  let seed_ := if random_M <? seed_ then u32 (seed_ - random_M) else seed_ in
  (seed_, seed_).

(** REQUIRES: [n > 0]; [n] is converted to [uint32_t] by the remainder. *)
Definition Random_Uniform (n : Z) (seed_ : Z) : Z * Z :=
  let (r, seed_) := Random_Next seed_ in (r mod u32 n, seed_).

Definition Random_OneIn (n : Z) (seed_ : Z) : bool * Z :=
  let (r, seed_) := Random_Next seed_ in (r mod u32 n =? 0, seed_).

Definition Random_Skewed (max_log : Z) (seed_ : Z) : Z * Z :=
  let (base, seed_) := Random_Uniform (max_log + 1) seed_ in
  Random_Uniform (Z.shiftl 1 base) seed_.

(** ** Specification *)

(** The seeds the generator can be in: neither 0 nor M. *)
Definition valid_seed (s : Z) : Prop := 0 < s < random_M.

Definition Next_n (n : nat) (seed_ : Z) : Z := Nat.iter n (λ s, snd (Random_Next s)) seed_.

(** ** Lemmas: one step *)

Lemma Random_new_valid s : valid_seed (Random_new s).
Proof.
  unfold valid_seed, Random_new, random_M.
  assert (Z.land s 0x7fffffff = s mod 2 ^ 31) as -> by apply (land_ones_mod s 31 ltac:(lia)).
  pose proof (Z.mod_pos_bound s (2 ^ 31) ltac:(lia)).
  destruct (Z.eqb_spec (s mod 2 ^ 31) 0), (Z.eqb_spec (s mod 2 ^ 31) 2147483647);
    simpl; lia.
Qed.

Lemma random_A_coprime : Z.gcd random_M random_A = 1.
Proof. by vm_compute. Qed.

Lemma valid_seed_mul_mod s : valid_seed s → valid_seed (s * random_A mod random_M).
Proof.
  unfold valid_seed. intros Hs.
  pose proof (Z.mod_pos_bound (s * random_A) random_M ltac:(done)) as Hb.
  enough (s * random_A mod random_M ≠ 0) by lia.
  intros H%Z.mod_divide; [|done]. rewrite Z.mul_comm in H.
  apply Z.gauss in H; [|apply random_A_coprime].
  apply Z.divide_pos_le in H; lia.
Qed.

(** The shift-and-add reduction computes the remainder modulo M. *)
Lemma Random_Next_step s :
  valid_seed s → Random_Next s = (s * random_A mod random_M, s * random_A mod random_M).
Proof.
  intros Hs. pose proof (valid_seed_mul_mod s Hs) as Hr. unfold valid_seed in *.
  unfold Random_Next.
  assert (Hp : 0 < s * random_A < 2 ^ 31 * 16807) by (unfold random_M, random_A in *; lia).
  rewrite u64_small by lia.
  set (p := s * random_A) in *.
  assert (Z.land p random_M = p mod 2 ^ 31) as -> by apply (land_ones_mod p 31 ltac:(lia)).
  rewrite Z.shiftr_div_pow2 by lia.
  pose proof (Z.mod_pos_bound p (2 ^ 31) ltac:(lia)).
  pose proof (Z.div_mod p (2 ^ 31) ltac:(lia)) as Hdm.
  assert (0 ≤ p / 2 ^ 31 < 16807)
    by (split; [apply Z.div_pos; lia|apply Z.div_lt_upper_bound; lia]).
  set (q := p / 2 ^ 31 + p mod 2 ^ 31).
  assert (Hq : 0 ≤ q < 2 ^ 31 + 16807) by lia. rewrite u32_small by lia.
  assert (Hmod : p mod random_M = q mod random_M).
  { replace p with (q + p / 2 ^ 31 * random_M) by (unfold q, random_M in *; lia).
    apply Z.mod_add. done. }
  rewrite Hmod in *. clearbody q. unfold random_M in *.
  assert (q mod 2147483647 = if 2147483647 <? q then q - 2147483647 else q) as E.
  { destruct (Z.ltb_spec 2147483647 q).
    - symmetry. apply (Z.mod_unique _ _ 1); lia.
    - destruct (Z.eq_dec q 2147483647) as [->|]; [change (2147483647 mod 2147483647) with 0 in Hr; lia|].
      apply Z.mod_small. lia. }
  rewrite E. destruct (Z.ltb_spec 2147483647 q); [|done]. by rewrite u32_small by lia.
Qed.

Lemma Random_Next_valid s : valid_seed s → valid_seed (snd (Random_Next s)).
Proof. intros Hs. rewrite Random_Next_step by done. by apply valid_seed_mul_mod. Qed.

Lemma Next_n_spec n s :
  valid_seed s →
  valid_seed (Next_n n s) ∧ Next_n n s = s * random_A ^ Z.of_nat n mod random_M.
Proof.
  intros Hs. unfold Next_n. induction n as [|n [IHv IH]].
  - split; [done|]. change (s = (s * 1) mod random_M).
    unfold valid_seed in Hs. rewrite Z.mul_1_r, Z.mod_small by lia. done.
  - rewrite Nat.iter_succ. split; [by apply Random_Next_valid|].
    rewrite Random_Next_step by done. cbn [snd]. rewrite IH, Z.mul_mod_idemp_l by done.
    f_equal. rewrite Nat2Z.inj_succ, Z.pow_succ_r by lia. lia.
Qed.

(** ** Lemmas: the multiplicative order of 16807 modulo 2^31 - 1 *)

Definition prime_check (q : Z) : bool :=
  (1 <? q) && forallb (λ n, Z.gcd n q =? 1) (seqZ 1 (q - 1)).

(** A number that passes the check divides or is coprime to any other. *)
Lemma prime_check_sound q c : prime_check q = true → (q | c) ∨ Z.gcd q c = 1.
Proof.
  unfold prime_check. rewrite andb_true_iff, Z.ltb_lt, forallb_forall. intros [Hq Hall].
  set (d := Z.gcd q c).
  assert (Hdq : (d | q)) by apply Z.gcd_divide_l.
  assert (Hd : 0 < d ≤ q).
  { split; [|by apply Z.divide_pos_le; [lia|]]. pose proof (Z.gcd_nonneg q c).
    enough (d ≠ 0) by lia. intros E%Z.gcd_eq_0_l. lia. }
  destruct (Z.eq_dec d q) as [E|]; [left; rewrite <- E; apply Z.gcd_divide_r|right].
  assert (Hin : In d (seqZ 1 (q - 1))) by (apply list_elem_of_In, elem_of_seqZ; lia).
  apply Hall, Z.eqb_eq in Hin. rewrite Z.divide_gcd_iff in Hdq by lia. congruence.
Qed.

(** The prime factors of [M - 1 = 2 * 3 * 3 * 7 * 11 * 31 * 151 * 331]. *)
Definition random_factors : list Z := [2; 3; 3; 7; 11; 31; 151; 331].

(** A divisor of a product of primes that none of them divides is a unit. *)
Lemma divide_product_primes l c :
  Forall (λ q, prime_check q = true) l → 0 < c → (c | foldr Z.mul 1 l) →
  c = 1 ∨ Exists (λ q, (q | c)) l.
Proof.
  intros Hl Hc. induction Hl as [|q l Hq Hl IH]; simpl; intros Hd.
  - left. apply Z.divide_pos_le in Hd; lia.
  - destruct (prime_check_sound q c Hq) as [Hqc|Hqc]; [right; by constructor|].
    apply Z.gauss in Hd; [|by rewrite Z.gcd_comm].
    destruct (IH Hd); [by left|right; by constructor].
Qed.

Lemma random_order_check :
  forallb prime_check random_factors &&
  (foldr Z.mul 1 random_factors =? random_M - 1) &&
  (Zpow_mod random_A (random_M - 1) random_M =? 1) &&
  forallb (λ q, negb (Zpow_mod random_A ((random_M - 1) / q) random_M =? 1)) random_factors
  = true.
Proof. by vm_compute. Qed.

Definition is_one (k : Z) : Prop := random_A ^ k mod random_M = 1.

Lemma pow_add_mod i j :
  0 ≤ i → 0 ≤ j →
  random_A ^ (i + j) mod random_M = (random_A ^ i mod random_M) * (random_A ^ j mod random_M) mod random_M.
Proof. intros. by rewrite Z.pow_add_r, Z.mul_mod by done. Qed.

Lemma is_one_mul k n : is_one k → 0 ≤ k → 0 ≤ n → is_one (k * n).
Proof.
  unfold is_one. intros H Hk Hn. rewrite Z.pow_mul_r by done.
  by rewrite Zpower_mod, H, Z.pow_1_l by done.
Qed.

(** [2^31 - 2] is an exponent that gives 1, its quotients by a prime factor are
    not. *)
Lemma random_order_facts :
  Forall (λ q, prime_check q = true) random_factors ∧ foldr Z.mul 1 random_factors = random_M - 1 ∧
  is_one (random_M - 1) ∧ Forall (λ q, ¬ is_one ((random_M - 1) / q)) random_factors.
Proof.
  pose proof random_order_check as H.
  apply andb_true_iff in H as [[[H1 H2]%andb_true_iff H3]%andb_true_iff H4].
  rewrite forallb_forall in H1, H4.
  split_and!.
  - apply Forall_forall. intros q Hq. apply H1. by apply list_elem_of_In.
  - by apply Z.eqb_eq.
  - apply Z.eqb_eq in H3. unfold is_one. by rewrite <- Zpow_mod_correct.
  - apply Forall_forall. intros q Hq%list_elem_of_In Hone.
    specialize (H4 q Hq). unfold is_one in Hone.
    by rewrite Zpow_mod_correct, Hone in H4.
Qed.

Lemma is_one_sub i j : 0 ≤ i → 0 ≤ j → is_one (i + j) → is_one j → is_one i.
Proof.
  unfold is_one. intros Hi Hj Hij H. rewrite pow_add_mod, H, Z.mul_1_r in Hij by done.
  by rewrite Z.mod_mod in Hij by done.
Qed.

(** The exponents that give 1 are closed under gcd with [M - 1]. *)
Lemma is_one_gcd k : 0 < k < random_M - 1 → is_one k → is_one (Z.gcd k (random_M - 1)).
Proof.
  intros Hk Hone. destruct random_order_facts as (_ & _ & HN & _).
  set (N := random_M - 1) in *. assert (HN0 : 0 < N) by done. clearbody N.
  set (g := Z.gcd k N).
  assert (Hg : 0 < g ≤ k).
  { split; [|apply Z.divide_pos_le; [lia|apply Z.gcd_divide_l]].
    pose proof (Z.gcd_nonneg k N). enough (g ≠ 0) by lia.
    intros E%Z.gcd_eq_0_l. lia. }
  destruct (Z.gcd_bezout k N g eq_refl) as (u & v & Huv).
  pose proof (Z.div_mod u N ltac:(lia)) as Hu. pose proof (Z.mod_pos_bound u N HN0).
  set (x := u mod N) in *. set (y := - v - k * (u / N)).
  assert (E : x * k = g + y * N) by (unfold y; nia).
  assert (0 ≤ y) by nia.
  apply (is_one_sub g (y * N)); [lia|nia| |].
  - rewrite <- E, Z.mul_comm. apply is_one_mul; [done|lia|lia].
  - rewrite Z.mul_comm. apply is_one_mul; [done|lia|lia].
Qed.

(** No smaller positive exponent gives 1. *)
Lemma random_order k : 0 < k < random_M - 1 → ¬ is_one k.
Proof.
  intros Hk Hone. apply is_one_gcd in Hone; [|done].
  destruct random_order_facts as (Hprimes & Hprod & _ & Hnot).
  set (N := random_M - 1) in *. assert (HN0 : 0 < N) by done. clearbody N.
  destruct (Z.gcd_divide_r k N) as [c Hc].
  assert (Hg : 0 < Z.gcd k N ≤ k).
  { split; [|apply Z.divide_pos_le; [lia|apply Z.gcd_divide_l]].
    pose proof (Z.gcd_nonneg k N). enough (Z.gcd k N ≠ 0) by lia.
    intros E%Z.gcd_eq_0_l. lia. }
  set (g := Z.gcd k N) in *. clearbody g.
  destruct (divide_product_primes random_factors c) as [->|Hq]; [done|nia| |lia|].
  { rewrite Hprod. exists g. lia. }
  apply Exists_exists in Hq as (q & Hin & c' & Hc').
  pose proof (proj1 (Forall_forall _ _) Hprimes q Hin) as Hqp.
  apply andb_true_iff in Hqp as [Hqp%Z.ltb_lt _].
  apply (proj1 (Forall_forall _ _) Hnot q Hin).
  assert (N / q = g * c') as ->.
  { rewrite Hc, Hc'. replace (c' * q * g) with (g * c' * q) by lia.
    apply Z.div_mul. lia. }
  apply is_one_mul; [done|lia|nia].
Qed.

(** ** Lemmas: the full period *)

Lemma pigeonhole_surj (N : Z) (f : Z → Z) :
  (∀ i, 0 ≤ i < N → 1 ≤ f i ≤ N) →
  (∀ i j, 0 ≤ i < N → 0 ≤ j < N → f i = f j → i = j) →
  ∀ t, 1 ≤ t ≤ N → ∃ i, 0 ≤ i < N ∧ f i = t.
Proof.
  intros Hr Hinj t Ht.
  assert (Hin : In t (map f (seqZ 0 N))).
  { apply (NoDup_length_incl (l := map f (seqZ 0 N)) (l' := seqZ 1 N)).
    - apply NoDup_ListNoDup, NoDup_fmap_2_strong; [|apply NoDup_seqZ].
      intros i j Hi%elem_of_seqZ Hj%elem_of_seqZ. apply Hinj; lia.
    - by rewrite length_map, !length_seqZ.
    - intros x (i & <- & Hi)%in_map_iff.
      apply list_elem_of_In, elem_of_seqZ in Hi.
      apply list_elem_of_In, elem_of_seqZ. specialize (Hr i). lia.
    - apply list_elem_of_In, elem_of_seqZ. lia. }
  apply in_map_iff in Hin as (i & <- & Hi).
  apply list_elem_of_In, elem_of_seqZ in Hi. exists i. split; [lia|done].
Qed.

Lemma pow_mod_valid i : 0 ≤ i → valid_seed (random_A ^ i mod random_M).
Proof.
  intros Hi. destruct (Next_n_spec (Z.to_nat i) 1) as [Hv E]; [done|].
  by rewrite Z2Nat.id, Z.mul_1_l in E by done; rewrite <- E.
Qed.

Lemma pow_mod_inj i j :
  0 ≤ i < random_M - 1 → 0 ≤ j < random_M - 1 →
  random_A ^ i mod random_M = random_A ^ j mod random_M → i = j.
Proof.
  assert (H : ∀ i j, 0 ≤ i < j → j < random_M - 1 →
    random_A ^ i mod random_M ≠ random_A ^ j mod random_M).
  { clear. intros i j Hi Hj E. apply (random_order (j - i)); [lia|].
    destruct random_order_facts as (_ & _ & HN & _).
    set (N := random_M - 1) in *. clearbody N.
    apply (is_one_sub (j - i) N); [lia|lia| |done].
    replace (j - i + N) with (N - i + j) by lia. unfold is_one in *.
    by rewrite pow_add_mod, <- E, <- pow_add_mod, Z.sub_add by lia. }
  intros Hi Hj E. destruct (Z.lt_trichotomy i j) as [?|[?|?]]; [|done|].
  - by destruct (H i j); [lia|lia|].
  - by destruct (H j i); [lia|lia|].
Qed.

Lemma discrete_log t :
  valid_seed t → ∃ i, 0 ≤ i < random_M - 1 ∧ random_A ^ i mod random_M = t.
Proof.
  unfold valid_seed. intros Ht.
  apply (pigeonhole_surj (random_M - 1) (λ i, random_A ^ i mod random_M)); [| |lia].
  - intros i Hi. destruct (pow_mod_valid i); lia.
  - intros i j. apply pow_mod_inj.
Qed.

(** ** Properties *)

(** From any constructor argument the seed is neither 0 nor M = 2^31 - 1,
    and every Next() computes seed * 16807 mod M exactly (its 64-bit product,
    shift-and-add reduction and conditional subtraction never lose a bit) and
    again yields a value in [1, M-1]. *)
Theorem Random_Next_modulo s seed :
  valid_seed (Random_new s) ∧
  (valid_seed seed →
   Random_Next seed = (seed * 16807 mod 2147483647, seed * 16807 mod 2147483647) ∧
   valid_seed (snd (Random_Next seed))).
Proof.
  split; [apply Random_new_valid|]. intros Hs.
  split; [by apply Random_Next_step|by apply Random_Next_valid].
Qed.

(** The generator has full period: from any valid seed the sequence of
    Next() values cycles through every number in [1, M-1], returning to the
    seed after exactly M-1 steps and not before. *)
Theorem Random_full_period s t :
  valid_seed s → valid_seed t →
  (∃ n, Next_n n s = t) ∧
  Next_n (Z.to_nat (random_M - 1)) s = s ∧
  (∀ k, 0 < k < random_M - 1 → Next_n (Z.to_nat k) s ≠ s).
Proof.
  intros Hs Ht. destruct random_order_facts as (_ & _ & HN & _).
  destruct (discrete_log s Hs) as (m & Hm & Es).
  destruct (discrete_log t Ht) as (n & Hn & Et).
  set (N := random_M - 1) in *.
  assert (Hpow : ∀ k, 0 ≤ k → Next_n (Z.to_nat k) s = random_A ^ (m + k) mod random_M).
  { intros k Hk. destruct (Next_n_spec (Z.to_nat k) s Hs) as [_ ->].
    rewrite Z2Nat.id, <- Es, Z.mul_mod_idemp_l by done.
    by rewrite <- Z.pow_add_r by lia. }
  assert (Hred : ∀ k, 0 ≤ k → random_A ^ (N + k) mod random_M = random_A ^ k mod random_M).
  { intros k Hk. rewrite pow_add_mod by lia. unfold is_one in HN. rewrite HN, Z.mul_1_l.
    by rewrite Z.mod_mod. }
  split_and!.
  - exists (Z.to_nat (N - m + n)). rewrite Hpow by lia.
    replace (m + (N - m + n)) with (N + n) by lia. by rewrite Hred by lia.
  - rewrite Hpow, Z.add_comm, Hred by lia. done.
  - intros k Hk. rewrite Hpow by lia. rewrite <- Es at 1. intros E.
    apply (random_order k Hk). unfold is_one.
    rewrite <- (Hred k) by lia. replace (N + k) with (N - m + (m + k)) by lia.
    rewrite pow_add_mod, E, <- pow_add_mod, Z.sub_add by lia. exact HN.
Qed.

(** ** Witnesses *)

Lemma Random_Next_modulo_witness :
  Random_Next 301 = (301 * 16807 mod 2147483647, 301 * 16807 mod 2147483647).
Proof. apply (Random_Next_modulo 0 301). split; reflexivity. Defined.

Lemma Random_full_period_witness : ∃ n, Next_n n 1 = 2147483646.
Proof. apply (Random_full_period 1 2147483646); split; reflexivity. Defined.
