(* ===== verification/Arena.v ===== *)
(** * Arena (util/arena.h, util/arena.cpp)

    Bump allocation from blocks.  Addresses are 64-bit integers, null is 0.
    [new char[n]] belongs to the run-time library: it is a parameter,
    [new_char], of the blocks that are live and the size; [None] is
    [std::bad_alloc].  Each public operation holds [mu_], so a concurrent
    history is a sequence of whole operations. *)
From stdpp Require Import base list numbers.
From Stdlib Require Import ZArith Lia.
From S2P Require Import Prelude.

#[local] Open Scope Z_scope.

Definition kBlockSize : Z := 4096.

(** A range of memory: address and size. *)
Abbreviation range := (Z * Z)%type.

Record Arena := {
  alloc_ptr : Z;
  alloc_bytes_remaining : Z;
  blocks : list range;
  memory_usage : Z }.

Definition Arena_new : Arena :=
  {| alloc_ptr := 0; alloc_bytes_remaining := 0; blocks := []; memory_usage := 0 |}.

Definition MemoryUsage (a : Arena) : Z := memory_usage a.

(** Two ranges share no byte. *)
Definition disjoint_range (r1 r2 : range) : Prop :=
  r1.1 + r1.2 <= r2.1 ∨ r2.1 + r2.2 <= r1.1.

(** [r1] lies inside [r2]. *)
Definition inside (r1 r2 : range) : Prop := r2.1 <= r1.1 ∧ r1.1 + r1.2 <= r2.1 + r2.2.

(** What the C++ standard promises of [new char[n]]: a fresh range of the
    address space, aligned for any object ([alignof(std::max_align_t)] = 16). *)
Class NewLaws (new_char : list range → Z → option Z) : Prop := {
  new_char_fresh live n p :
    0 <= n → new_char live n = Some p →
    0 < p ∧ p + n < 2 ^ 64 ∧ p mod 16 = 0 ∧ Forall (disjoint_range (p, n)) live }.

Section Arena.
  Context (new_char : list range → Z → option Z).

(** The result of an operation: the pointer returned and the new state; [None] is
    [std::bad_alloc], thrown before the arena is changed, or a failed assertion. *)
Definition AllocateNewBlock (a : Arena) (block_bytes : Z) : option (Z * Arena) :=
  result ← new_char (blocks a) block_bytes;
  Some (result, {| alloc_ptr := alloc_ptr a;
                   alloc_bytes_remaining := alloc_bytes_remaining a;
                   blocks := blocks a ++ [(result, block_bytes)];
                   memory_usage := u64 (memory_usage a + u64 (block_bytes + 8)) |}).

(** [alloc_ptr_ += d; alloc_bytes_remaining_ -= d] with the given values. *)
Definition bump (a : Arena) (ptr remaining : Z) : Arena :=
  {| alloc_ptr := ptr; alloc_bytes_remaining := remaining;
     blocks := blocks a; memory_usage := memory_usage a |}.

Definition AllocateFallback (a : Arena) (bytes : Z) : option (Z * Arena) :=
  if kBlockSize / 4 <? bytes then AllocateNewBlock a bytes
  else
    '(ptr, a) ← AllocateNewBlock a kBlockSize;
    let a := bump a ptr kBlockSize in
    let result := alloc_ptr a in
    Some (result, bump a (u64 (alloc_ptr a + bytes)) (u64 (alloc_bytes_remaining a - bytes))).

Definition Allocate (a : Arena) (bytes : Z) : option (Z * Arena) :=
  if negb (0 <? bytes) then None
  else if bytes <=? alloc_bytes_remaining a then
    Some (alloc_ptr a,
          bump a (u64 (alloc_ptr a + bytes)) (u64 (alloc_bytes_remaining a - bytes)))
  else AllocateFallback a bytes.

Definition AllocateAligned (a : Arena) (bytes : Z) : option (Z * Arena) :=
  let align := 8 in
  let misalign := Z.land (alloc_ptr a) (align - 1) in
  let padding := if misalign =? 0 then 0 else align - misalign in
  if alloc_bytes_remaining a <? u64 (bytes + padding) then AllocateFallback a bytes
  else
    Some (u64 (alloc_ptr a + padding),
          bump a (u64 (alloc_ptr a + u64 (padding + bytes)))
               (u64 (alloc_bytes_remaining a - u64 (padding + bytes)))).

(** ** Histories *)

Inductive request := Req (bytes : Z) | ReqAligned (bytes : Z).

Definition request_bytes (r : request) : Z := match r with Req n | ReqAligned n => n end.

Definition serve (a : Arena) (r : request) : option (Z * Arena) :=
  match r with Req n => Allocate a n | ReqAligned n => AllocateAligned a n end.

(** The pointers handed out, a failed request giving none. *)
Fixpoint serve_all (a : Arena) (rs : list request) : list (option Z) * Arena :=
  match rs with
  | [] => ([], a)
  | r :: rs =>
      match serve a r with
      | None => let (ps, a) := serve_all a rs in (None :: ps, a)
      | Some (p, a) => let (ps, a) := serve_all a rs in (Some p :: ps, a)
      end
  end.

(** The ranges the successful requests own. *)
Fixpoint owned (rs : list request) (ps : list (option Z)) : list range :=
  match rs, ps with
  | r :: rs, Some p :: ps => (p, request_bytes r) :: owned rs ps
  | _ :: rs, None :: ps => owned rs ps
  | _, _ => []
  end.

(** An aligned request gets a multiple of 8. *)
Definition aligned_result (r : request) (p : option Z) : Prop :=
  match r, p with ReqAligned _, Some p => p mod 8 = 0 | _, _ => True end.

(** ** Invariant *)

Definition usage (bs : list range) : Z := foldr (λ b n, b.2 + 8 + n) 0 bs.

Definition good_block (b : range) : Prop := 0 < b.1 ∧ 0 <= b.2 ∧ b.1 + b.2 < 2 ^ 64 ∧ b.1 mod 16 = 0.

Definition free_range (a : Arena) : range := (alloc_ptr a, alloc_bytes_remaining a).

(** [used] are the ranges handed out so far: inside the blocks, apart from
    each other and from the free rest of the current block. *)
Record arena_ok (a : Arena) (used : list range) : Prop := {
  ok_blocks : Forall good_block (blocks a);
  ok_disjoint : ForallOrdPairs disjoint_range (blocks a);
  ok_free : 0 <= alloc_bytes_remaining a ∧
    ((alloc_ptr a = 0 ∧ alloc_bytes_remaining a = 0) ∨
     Exists (inside (free_range a)) (blocks a));
  ok_used : Forall (λ r, Exists (inside r) (blocks a)) used;
  ok_used_disjoint : ForallOrdPairs disjoint_range used;
  ok_used_free : Forall (disjoint_range (free_range a)) used;
  ok_usage : memory_usage a = u64 (usage (blocks a)) }.

(** ** Lemmas *)

Lemma FOP_snoc {A} (R : A → A → Prop) l x :
  ForallOrdPairs R l → Forall (λ y, R y x) l → ForallOrdPairs R (l ++ [x]).
Proof.
  induction 1 as [|y l Hy Hl IH]; simpl; [by repeat constructor|].
  intros [Hyx Hx]%Forall_cons_1. constructor; [|by apply IH].
  apply Forall_app. split; [done|]. by constructor.
Qed.

Lemma disjoint_range_sym r1 r2 : disjoint_range r1 r2 → disjoint_range r2 r1.
Proof. unfold disjoint_range. tauto. Qed.

Lemma inside_disjoint r b1 b2 : inside r b1 → disjoint_range b1 b2 → disjoint_range r b2.
Proof. unfold inside, disjoint_range. lia. Qed.

Lemma inside_trans r1 r2 r3 : inside r1 r2 → inside r2 r3 → inside r1 r3.
Proof. unfold inside. lia. Qed.

(** What lies in a block is apart from a range apart from all blocks. *)
Lemma inside_blocks_disjoint r r' bs :
  Exists (inside r) bs → Forall (disjoint_range r') bs → disjoint_range r r'.
Proof.
  rewrite Exists_exists, Forall_forall. intros (b & Hb & Hi) H.
  eapply inside_disjoint; [exact Hi|]. by apply disjoint_range_sym, H.
Qed.

Lemma usage_snoc bs b : usage (bs ++ [b]) = usage bs + (b.2 + 8).
Proof. induction bs as [|c bs IH]; simpl; lia. Qed.

Lemma land_7 x : Z.land x (8 - 1) = x mod 8.
Proof. exact (land_ones_mod x 3 ltac:(lia)). Qed.

Lemma arena_ok_new : arena_ok Arena_new [].
Proof. split; simpl; try constructor; try done. by left. Qed.

(** The free rest does not wrap around the address space. *)
Lemma free_bounds a used :
  arena_ok a used → 0 < alloc_bytes_remaining a →
  0 < alloc_ptr a ∧ alloc_ptr a + alloc_bytes_remaining a < 2 ^ 64.
Proof.
  intros [Hb _ [_ [[_ ?]|Hf]] _ _ _ _] Hr; [lia|].
  apply Exists_exists in Hf as (b & Hbin & [Hi1 Hi2]). simpl in Hi1, Hi2.
  destruct (proj1 (Forall_forall _ _) Hb b Hbin) as (? & ? & ? & _). lia.
Qed.

(** Cutting [pad + n] bytes from the free rest of the current block. *)
Lemma carve a used pad n :
  arena_ok a used → 0 <= pad → 0 < n → pad + n <= alloc_bytes_remaining a →
  let a' := bump a (u64 (alloc_ptr a + (pad + n))) (u64 (alloc_bytes_remaining a - (pad + n))) in
  u64 (alloc_ptr a + pad) = alloc_ptr a + pad ∧
  arena_ok a' (used ++ [(alloc_ptr a + pad, n)]).
Proof.
  intros [Hb Hd [Hr Hf] Hu Hud Huf Hm] Hpad Hn Hle.
  destruct Hf as [[? ?]|Hf]; [lia|].
  pose proof Hf as (b & Hbin & [Hi1 Hi2])%Exists_exists. simpl in Hi1, Hi2.
  destruct (proj1 (Forall_forall _ _) Hb b Hbin) as (Hb1 & Hb2 & Hb3 & _).
  assert (inside (alloc_ptr a + pad, n) (free_range a)) as Hin by (split; simpl; lia).
  rewrite !u64_small by lia. split; [done|].
  split; simpl; try done.
  - split; [lia|right]. eapply Exists_impl; [|exact Hf]. intros c. apply inside_trans.
    split; simpl; lia.
  - apply Forall_app. split; [done|]. constructor; [|constructor].
    eapply Exists_impl; [|exact Hf]. intros c. by apply inside_trans.
  - apply FOP_snoc; [done|]. eapply Forall_impl; [|exact Huf]. intros c Hc.
    apply disjoint_range_sym. by eapply inside_disjoint.
  - apply Forall_app. split; [|constructor; [|constructor]].
    + eapply Forall_impl; [|exact Huf]. intros c Hc. eapply inside_disjoint; [|exact Hc].
      split; simpl; lia.
    + right. simpl. lia.
Qed.

Context `{!NewLaws new_char}.

(** A new block leaves the rest as it was. *)
Lemma AllocateNewBlock_ok a used n p a' :
  arena_ok a used → 0 <= n < 2 ^ 63 → AllocateNewBlock a n = Some (p, a') →
  arena_ok a' used ∧ blocks a' = blocks a ++ [(p, n)] ∧ good_block (p, n) ∧
  Forall (λ r, disjoint_range r (p, n)) used.
Proof.
  intros [Hb Hd [Hr Hf] Hu Hud Huf Hm] Hn. unfold AllocateNewBlock.
  destruct (new_char (blocks a) n) as [q|] eqn:E; [|done].
  cbn [mbind option_bind]. intros [= <- <-].
  destruct (new_char_fresh _ n q ltac:(lia) E) as (Hq & Hqn & Hal & Hdis).
  assert (Hg : good_block (q, n)) by (unfold good_block; simpl; lia).
  assert (Hex : ∀ r, Exists (inside r) (blocks a) → Exists (inside r) (blocks a ++ [(q, n)]))
    by (intros r H; apply Exists_app; by left).
  split_and!; [|done..|].
  - split; simpl.
    + apply Forall_app. split; [done|]. by constructor.
    + apply FOP_snoc; [done|]. eapply Forall_impl; [|exact Hdis].
      intros ?. apply disjoint_range_sym.
    + split; [done|]. destruct Hf; [by left|right; by apply Hex].
    + eapply Forall_impl; [|exact Hu]. exact Hex.
    + done.
    + done.
    + rewrite Hm, usage_snoc. simpl. unfold u64. by rewrite <- Zplus_mod.
  - eapply Forall_impl; [|exact Hu]. intros r Hr'. exact (inside_blocks_disjoint _ _ _ Hr' Hdis).
Qed.

(** [AllocateFallback] never touches memory in use and aligns its result. *)
Lemma AllocateFallback_ok a used n p a' :
  arena_ok a used → 0 < n < 2 ^ 63 → AllocateFallback a n = Some (p, a') →
  arena_ok a' (used ++ [(p, n)]) ∧ p mod 8 = 0.
Proof.
  intros Ha Hn. unfold AllocateFallback. change (kBlockSize / 4) with 1024.
  assert (H8 : ∀ q, q mod 16 = 0 → q mod 8 = 0).
  { intros q Hq. rewrite (Z.div_mod q 16), Hq by lia.
    replace (16 * (q / 16) + 0) with (2 * (q / 16) * 8) by lia. apply Z.mod_mul. lia. }
  destruct (Z.ltb_spec 1024 n) as [Hlt|Hle].
  - intros E. destruct (AllocateNewBlock_ok a used n p a') as (Ha' & Hbl & Hg & Hdis);
      [done|lia|done|]. split; [|by apply H8, Hg].
    destruct Ha' as [Hb Hd Hf Hu Hud Huf Hm]. split; try done.
    + apply Forall_app. split; [done|]. constructor; [|constructor]. rewrite Hbl.
      apply Exists_app. right. constructor. split; simpl; lia.
    + by apply FOP_snoc.
    + apply Forall_app. split; [done|]. constructor; [|constructor].
      unfold AllocateNewBlock in E. destruct (new_char (blocks a) n) as [q|] eqn:Eq; [|done].
      cbn [mbind option_bind] in E. injection E as <- <-. unfold free_range. simpl.
      destruct (new_char_fresh _ n q ltac:(lia) Eq) as (Hq & _ & _ & Hdq).
      destruct Ha as [_ _ [_ [[-> ->]|Hin]] _ _ _ _]; [left; simpl; lia|].
      by eapply inside_blocks_disjoint.
  - destruct (AllocateNewBlock a kBlockSize) as [[q a1]|] eqn:E; [|done].
    cbn [mbind option_bind]. intros [= <- <-].
    destruct (AllocateNewBlock_ok a used kBlockSize q a1) as (Ha1 & Hbl & Hg & Hdis);
      [done|unfold kBlockSize; lia|done|].
    split; [|by apply H8, Hg].
    assert (Hb : arena_ok (bump a1 q kBlockSize) used).
    { destruct Ha1 as [Hb Hd Hf Hu Hud Huf Hm]. split; simpl; try done.
      - split; [unfold kBlockSize; lia|right]. rewrite Hbl. apply Exists_app. right.
        constructor. split; simpl; lia.
      - eapply Forall_impl; [|exact Hdis]. intros ?. apply disjoint_range_sym. }
    destruct (carve _ used 0 n Hb) as [_ H]; [lia..|unfold kBlockSize; simpl; lia|].
    rewrite Z.add_0_r in H. exact H.
Qed.

(** The padding is what is missing to the next multiple of 8. *)
Lemma AllocateAligned_pad a n :
  0 < n < 2 ^ 63 →
  let pad := (- alloc_ptr a) mod 8 in
  AllocateAligned a n
  = if alloc_bytes_remaining a <? n + pad then AllocateFallback a n
    else Some (u64 (alloc_ptr a + pad),
               bump a (u64 (alloc_ptr a + (pad + n))) (u64 (alloc_bytes_remaining a - (pad + n)))).
Proof.
  intros Hn pad. unfold AllocateAligned. rewrite land_7.
  pose proof (Z.mod_pos_bound (- alloc_ptr a) 8 ltac:(lia)) as Hp. fold pad in Hp.
  assert ((if alloc_ptr a mod 8 =? 0 then 0 else 8 - alloc_ptr a mod 8) = pad) as ->.
  { subst pad. destruct (Z.eqb_spec (alloc_ptr a mod 8) 0).
    - by rewrite Z.mod_opp_l_z.
    - by rewrite Z.mod_opp_l_nz. }
  by rewrite (u64_small (n + pad)), (u64_small (pad + n)) by lia.
Qed.

Lemma serve_ok a used r p a' :
  arena_ok a used → 0 < request_bytes r < 2 ^ 63 → serve a r = Some (p, a') →
  arena_ok a' (used ++ [(p, request_bytes r)]) ∧ aligned_result r (Some p).
Proof.
  intros Ha Hr. destruct r as [n|n]; simpl in *.
  - unfold Allocate. rewrite (proj2 (Z.ltb_lt 0 n)) by lia. cbn [negb].
    destruct (Z.leb_spec n (alloc_bytes_remaining a)).
    + intros [= <- <-]. split; [|done].
      destruct (carve a used 0 n Ha) as [_ H']; [lia..|]. by rewrite Z.add_0_r in H'.
    + intros E. split; [|done]. by eapply AllocateFallback_ok.
  - rewrite AllocateAligned_pad by lia.
    pose proof (Z.mod_pos_bound (- alloc_ptr a) 8 ltac:(lia)).
    destruct (Z.ltb_spec (alloc_bytes_remaining a) (n + (- alloc_ptr a) mod 8)).
    + intros E. by eapply (AllocateFallback_ok a used n).
    + intros [= <- <-].
      destruct (carve a used ((- alloc_ptr a) mod 8) n Ha) as [E H']; [lia..|].
      rewrite E. split; [done|]. simpl. rewrite Zplus_mod_idemp_r, Z.add_opp_diag_r. done.
Qed.

Lemma serve_all_ok a used rs :
  arena_ok a used → Forall (λ r, 0 < request_bytes r < 2 ^ 63) rs →
  let (ps, a') := serve_all a rs in
  arena_ok a' (used ++ owned rs ps) ∧ Forall2 aligned_result rs ps.
Proof.
  revert a used. induction rs as [|r rs IH]; intros a used Ha; simpl.
  - intros _. by rewrite app_nil_r.
  - intros [Hr Hrs]%Forall_cons_1. destruct (serve a r) as [[p a1]|] eqn:E.
    + destruct (serve_ok a used r p a1) as [Ha1 Hal]; [done..|].
      specialize (IH a1 _ Ha1 Hrs). destruct (serve_all a1 rs) as [ps a2].
      destruct IH as [IH1 IH2]. simpl. rewrite <- app_assoc in IH1. split; [exact IH1|].
      by constructor.
    + specialize (IH a _ Ha Hrs). destruct (serve_all a rs) as [ps a2].
      destruct IH as [IH1 IH2]. simpl. split; [done|]. constructor; [|done]. by destruct r.
Qed.
End Arena.

(** ** Properties *)

(** C11: whatever the sequence of requests, and whatever addresses [new] picks,
    the ranges handed out never overlap, lie inside the arena's blocks, and the
    aligned ones start at a multiple of 8; [MemoryUsage] is the total size of the
    blocks plus a pointer for each (modulo 2^64). *)
Theorem Arena_allocations_disjoint new_char rs :
  NewLaws new_char → Forall (λ r, 0 < request_bytes r < 2 ^ 63) rs →
  let (ps, a) := serve_all new_char Arena_new rs in
  ForallOrdPairs disjoint_range (owned rs ps) ∧
  Forall (λ r, Exists (inside r) (blocks a)) (owned rs ps) ∧
  Forall2 aligned_result rs ps ∧
  MemoryUsage a = u64 (usage (blocks a)).
Proof.
  intros Hl Hrs. pose proof (serve_all_ok new_char Arena_new [] rs arena_ok_new Hrs) as H.
  destruct (serve_all new_char Arena_new rs) as [ps a].
  destruct H as [[] Hal]. by split_and!.
Qed.

(** A request fails only when [new] does, and otherwise its branch is
    decided by the room left: served from the current block when it fits (with
    padding to a multiple of 8 for the aligned one), from a block of its own when it
    is larger than a quarter of a block, otherwise from the start of a fresh
    block, abandoning less than 1032 bytes of the old one. *)
Theorem Allocate_branches new_char a used r :
  NewLaws new_char → arena_ok a used → 0 < request_bytes r < 2 ^ 63 →
  let n := request_bytes r in
  let pad := match r with Req _ => 0 | ReqAligned _ => (- alloc_ptr a) mod 8 end in
  (n + pad <= alloc_bytes_remaining a →
     serve new_char a r
     = Some (alloc_ptr a + pad,
             bump a (alloc_ptr a + pad + n) (alloc_bytes_remaining a - (pad + n)))) ∧
  (alloc_bytes_remaining a < n + pad → 1024 < n →
     serve new_char a r = AllocateNewBlock new_char a n) ∧
  (alloc_bytes_remaining a < n + pad → n <= 1024 →
     alloc_bytes_remaining a < 1032 ∧
     match new_char (blocks a) 4096, serve new_char a r with
     | None, None => True
     | Some p, Some (q, a') =>
         q = p ∧ alloc_ptr a' = p + n ∧ alloc_bytes_remaining a' = 4096 - n ∧
         blocks a' = blocks a ++ [(p, 4096)]
     | _, _ => False
     end).
Proof.
  intros Hl Ha Hr n pad.
  assert (0 <= pad < 8) as Hpad.
  { subst pad. destruct r; [lia|]. apply Z.mod_pos_bound. lia. }
  assert (serve new_char a r
    = if alloc_bytes_remaining a <? n + pad then AllocateFallback new_char a n
      else Some (u64 (alloc_ptr a + pad),
                 bump a (u64 (alloc_ptr a + (pad + n)))
                      (u64 (alloc_bytes_remaining a - (pad + n))))) as ->.
  { destruct r as [m|m]; subst n pad; cbn [serve request_bytes] in *.
    - unfold Allocate. rewrite (proj2 (Z.ltb_lt 0 m)) by lia. cbn [negb]. rewrite !Z.add_0_r, Z.add_0_l, Z.leb_antisym.
      destruct (Z.ltb_spec (alloc_bytes_remaining a) m) as [H|H]; simpl; [done|].
      destruct (free_bounds a used Ha); [lia|]. by rewrite (u64_small (alloc_ptr a)) by lia.
    - by apply AllocateAligned_pad. }
  split_and!.
  - intros H. destruct (Z.ltb_spec (alloc_bytes_remaining a) (n + pad)); [lia|].
    destruct (free_bounds a used Ha); [lia|]. rewrite !u64_small by lia.
    by rewrite Z.add_assoc.
  - intros H H'. destruct (Z.ltb_spec (alloc_bytes_remaining a) (n + pad)); [|lia].
    unfold AllocateFallback. change (kBlockSize / 4) with 1024.
    by rewrite (proj2 (Z.ltb_lt 1024 n)).
  - intros H H'. destruct (Z.ltb_spec (alloc_bytes_remaining a) (n + pad)); [|lia].
    split; [lia|]. unfold AllocateFallback, AllocateNewBlock.
    change (kBlockSize / 4) with 1024. change kBlockSize with 4096.
    destruct (Z.ltb_spec 1024 n); [lia|].
    destruct (new_char (blocks a) 4096) as [p|] eqn:E; [|done]. cbn [mbind option_bind].
    destruct (new_char_fresh _ 4096 p ltac:(lia) E) as (? & ? & _). simpl.
    rewrite !u64_small by lia. done.
Qed.

(** ** Witnesses *)

(** An allocator that never reuses memory, in an address space of 1 MB. *)
Definition bump_new (live : list range) (n : Z) : option Z :=
  let p := foldr (λ r m, Z.max m ((r.1 + r.2 + 15) / 16 * 16)) 16 live in
  if (0 <=? n) && (p + n <? 2 ^ 20) then Some p else None.

Lemma bump_new_ok : NewLaws bump_new.
Proof.
  split. intros live n p Hn. unfold bump_new.
  set (f := foldr _ 16 live). destruct (Z.leb_spec 0 n); [|lia].
  destruct (Z.ltb_spec (f + n) (2 ^ 20)); [|done]. simpl. intros [= <-].
  assert (16 <= f ∧ f mod 16 = 0 ∧ Forall (λ r, r.1 + r.2 <= f) live) as (H1 & H2 & H3).
  { subst f. clear. induction live as [|r live (I1 & I2 & I3)]; simpl; [done|].
    set (f := foldr _ 16 live) in *.
    pose proof (Z.div_mod (r.1 + r.2 + 15) 16). pose proof (Z.mod_pos_bound (r.1 + r.2 + 15) 16).
    split; [lia|]. split.
    - destruct (Z.max_spec f ((r.1 + r.2 + 15) / 16 * 16)) as [[_ ->]|[_ ->]]; [|done].
      apply Z.mod_mul. lia.
    - constructor; [lia|]. eapply Forall_impl; [|exact I3]. simpl. lia. }
  split_and!; [lia..|done|]. eapply Forall_impl; [|exact H3]. intros r Hr. right. done.
Qed.

Lemma Arena_allocations_disjoint_witness :
  let rs := [Req 100; ReqAligned 30; Req 5000; Req 4000; ReqAligned 8] in
  let (ps, a) := serve_all bump_new Arena_new rs in
  ForallOrdPairs disjoint_range (owned rs ps) ∧
  Forall (λ r, Exists (inside r) (blocks a)) (owned rs ps) ∧
  Forall2 aligned_result rs ps ∧
  MemoryUsage a = u64 (usage (blocks a)).
Proof.
  exact (Arena_allocations_disjoint bump_new
    [Req 100; ReqAligned 30; Req 5000; Req 4000; ReqAligned 8] bump_new_ok
    ltac:(repeat constructor)).
Defined.

Lemma Allocate_branches_witness :
  serve bump_new Arena_new (Req 5000) = AllocateNewBlock bump_new Arena_new 5000.
Proof.
  apply (Allocate_branches bump_new Arena_new [] (Req 5000) bump_new_ok arena_ok_new);
    simpl; lia.
Defined.
