(* ===== verification/SkipList.v ===== *)
(** * The skip list (memtable/skiplist.h)

    Nodes live at addresses of a heap; a node's [next_] array starts
    uninitialised (reading an entry never written, or an entry at or above the
    node's height, is an error, [None]).  The file models the searches, the
    insertion, the iterator, and - as a transition system - one writer whose
    stores to shared memory interleave with the loads of any number of
    readers.  Addresses handed out by [arena_] are fresh (Arena.v). *)
From stdpp Require Import base list gmap fin_maps fin_sets sets numbers sorting relations.
From Stdlib Require Import ZArith Lia.
From S2P Require Import Prelude Random.

#[local] Open Scope Z_scope.

(** What a [Comparator] of keys promises: a total preorder, given by the sign
    of [compare_]. *)
Class KeyOrder {Key : Type} (compare_ : Key → Key → Z) : Prop := {
  compare_antisym a b : Z.sgn (compare_ a b) = - Z.sgn (compare_ b a);
  compare_trans a b c : compare_ a b <= 0 → compare_ b c <= 0 → compare_ a c <= 0 }.

Definition kMaxHeight : nat := 12.

Section SkipList.
  Context {Key : Type} (compare_ : Key → Key → Z) (key0 : Key).

(** ** State *)

Record Node := { nkey : Key; height : nat; next_ : gmap nat (option positive) }.

Record SkipList := {
  nodes : gmap positive Node;
  head_ : positive;
  max_height_ : nat;
  rnd_ : Z }.

Definition Equal (a b : Key) : bool := compare_ a b =? 0.

(** [x->Next(n)], [x->NoBarrier_Next(n)]. *)
Definition Next (s : SkipList) (x : positive) (n : nat) : option (option positive) :=
  nd ← nodes s !! x; next_ nd !! n.

(** [x->SetNext(n, v)], [x->NoBarrier_SetNext(n, v)]. *)
Definition SetNext (s : SkipList) (x : positive) (n : nat) (v : option positive) :
  option SkipList :=
  nd ← nodes s !! x;
  if (n <? height nd)%nat then
    let nd := {| nkey := nkey nd; height := height nd; next_ := <[n := v]> (next_ nd) |} in
    Some {| nodes := <[x := nd]> (nodes s); head_ := head_ s;
            max_height_ := max_height_ s; rnd_ := rnd_ s |}
  else None.

(** [NewNode(key, height)] in the arena. *)
Definition NewNode (ns : gmap positive Node) (key : Key) (h : nat) :
  positive * gmap positive Node :=
  let x := fresh (dom ns) in
  (x, <[x := {| nkey := key; height := h; next_ := ∅ |}]> ns).

(** The constructor. *)
Definition SkipList_new : option SkipList :=
  let (head, ns) := NewNode ∅ key0 kMaxHeight in
  let s := {| nodes := ns; head_ := head; max_height_ := 1; rnd_ := Random_new 0xdeadbeef |} in
  foldl (λ s i, s ← s; SetNext s (head_ s) i None) (Some s) (seq 0 kMaxHeight).

(** ** Searches *)

(** [n->key] *)
Definition node_key (s : SkipList) (n : positive) : option Key := nkey <$> nodes s !! n.

(** The local variables of a search: [x], [level] and, unless null, [prev]. *)
Record search := { cur : positive; lvl : nat; prev : option (gmap nat positive) }.

(** One iteration of the [while (true)] loops of [FindGreaterOrEqual],
    [FindLessThan] and [FindLast]: one load of shared memory.  [go n] tells
    whether the loop keeps searching in this list past the non-null [n], and
    [asserted x] what the loop asserts of [x].  The loop ends with [x] and [next]. *)
Definition search_step (asserted go : SkipList → positive → option bool) (s : SkipList) (st : search) :
  option (search + positive * option positive * option (gmap nat positive)) :=
  holds ← asserted s (cur st);
  if negb holds then None else
  next ← Next s (cur st) (lvl st);
  keep ← match next with None => Some false | Some n => go s n end;
  match next, keep with
  | Some n, true => Some (inl {| cur := n; lvl := lvl st; prev := prev st |})
  | _, _ =>
      let prev := insert (lvl st) (cur st) <$> prev st in
      match lvl st with
      | O => Some (inr (cur st, next, prev))
      | S l => Some (inl {| cur := cur st; lvl := l; prev := prev |})
      end
  end.

Fixpoint search_loop (fuel : nat) (asserted go : SkipList → positive → option bool) (s : SkipList)
  (st : search) : option (positive * option positive * option (gmap nat positive)) :=
  match fuel with
  | O => None
  | S fuel =>
      r ← search_step asserted go s st;
      match r with inl st => search_loop fuel asserted go s st | inr r => Some r end
  end.

(** Enough iterations for any search (theorem [search_loop_total]). *)
Definition search_fuel (s : SkipList) : nat := size (nodes s) + kMaxHeight + 1.

Definition start (s : SkipList) (prev : option (gmap nat positive)) : search :=
  {| cur := head_ s; lvl := max_height_ s - 1; prev := prev |}.

(** [KeyIsAfterNode(key, n)] for non-null [n]; the negation of the test
    [compare_(next->key, key) >= 0] of [FindLessThan]. *)
Definition KeyIsAfterNode (key : Key) (s : SkipList) (n : positive) : option bool :=
  k ← node_key s n; Some (compare_ k key <? 0).

(** Nothing is asserted in the loop; [x == head_ || compare_(x->key, key) < 0]. *)
Definition no_assertion (s : SkipList) (x : positive) : option bool := Some true.
Definition head_or_before (key : Key) (s : SkipList) (x : positive) : option bool :=
  if decide (x = head_ s) then Some true else KeyIsAfterNode key s x.

(** [FindGreaterOrEqual(key, prev)]: the node returned and the filled [prev]. *)
Definition FindGreaterOrEqual (s : SkipList) (key : Key) (prev : option (gmap nat positive)) :
  option (option positive * option (gmap nat positive)) :=
  '(_, next, prev) ← search_loop (search_fuel s) no_assertion (KeyIsAfterNode key) s (start s prev);
  Some (next, prev).

Definition FindLessThan (s : SkipList) (key : Key) : option positive :=
  '(x, _, _) ← search_loop (search_fuel s) (head_or_before key) (KeyIsAfterNode key) s (start s None);
  Some x.

Definition FindLast (s : SkipList) : option positive :=
  '(x, _, _) ← search_loop (search_fuel s) no_assertion (λ _ _, Some true) s (start s None); Some x.

Definition Contains (s : SkipList) (key : Key) : option bool :=
  '(x, _) ← FindGreaterOrEqual s key None;
  match x with
  | None => Some false
  | Some x => k ← node_key s x; Some (Equal key k)
  end.

(** ** Insert *)

(** [while (height < kMaxHeight && rnd_.OneIn(kBranching)) height++]; [n] is
    [kMaxHeight - height]. *)
Fixpoint RandomHeight_loop (n : nat) (h : nat) (rnd : Z) : nat * Z :=
  match n with
  | O => (h, rnd)
  | S n =>
      let (one, rnd) := Random_OneIn 4 rnd in
      if one then RandomHeight_loop n (S h) rnd else (h, rnd)
  end.

Definition RandomHeight (rnd : Z) : nat * Z := RandomHeight_loop (kMaxHeight - 1) 1 rnd.

(** [assert(x == nullptr || !Equal(key, x->key))] *)
Definition not_equal (s : SkipList) (key : Key) (x : option positive) : option bool :=
  match x with None => Some true | Some x => k ← node_key s x; Some (negb (Equal key k)) end.

(** [Insert] up to the store to [max_height_]: the new state, [prev] and
    [height]. *)
Definition Insert_begin (s : SkipList) (key : Key) :
  option (SkipList * gmap nat positive * nat) :=
  '(x, prev) ← FindGreaterOrEqual s key (Some ∅);
  prev ← prev;
  holds ← not_equal s key x;
  if negb holds then None else
  let (h, rnd) := RandomHeight (rnd_ s) in
  let prev := foldl (λ p i, <[i := head_ s]> p) prev (seq (max_height_ s) (h - max_height_ s)) in
  Some ({| nodes := nodes s; head_ := head_ s;
           max_height_ := if (max_height_ s <? h)%nat then h else max_height_ s;
           rnd_ := rnd |}, prev, h).

(** [x = NewNode(key, height)] *)
Definition Insert_new (s : SkipList) (key : Key) (h : nat) : positive * SkipList :=
  let (x, ns) := NewNode (nodes s) key h in
  (x, {| nodes := ns; head_ := head_ s; max_height_ := max_height_ s; rnd_ := rnd_ s |}).

(** The body of the linking loop. *)
Definition link_level (s : SkipList) (x : positive) (prev : gmap nat positive) (i : nat) :
  option SkipList :=
  p ← prev !! i;
  next ← Next s p i;
  s ← SetNext s x i next;
  SetNext s p i (Some x).

(** [for (; i < height; i++)], for [n] iterations. *)
Fixpoint link (s : SkipList) (x : positive) (prev : gmap nat positive) (i n : nat) :
  option SkipList :=
  match n with
  | O => Some s
  | S n => s ← link_level s x prev i; link s x prev (S i) n
  end.

Definition Insert (s : SkipList) (key : Key) : option SkipList :=
  '(s, prev, h) ← Insert_begin s key;
  let (x, s) := Insert_new s key h in
  link s x prev 0 h.

(** ** Iterator: [node_], null when not valid *)

Definition Iterator_new : option positive := None.
Definition Iterator_Valid (it : option positive) : bool :=
  match it with Some _ => true | None => false end.
Definition Iterator_key (s : SkipList) (it : option positive) : option Key :=
  n ← it; node_key s n.
Definition Iterator_Next (s : SkipList) (it : option positive) : option (option positive) :=
  n ← it; Next s n 0.
Definition Iterator_Prev (s : SkipList) (it : option positive) : option (option positive) :=
  n ← it; k ← node_key s n; x ← FindLessThan s k;
  Some (if decide (x = head_ s) then None else Some x).
Definition Iterator_Seek (s : SkipList) (target : Key) : option (option positive) :=
  fst <$> FindGreaterOrEqual s target None.
Definition Iterator_SeekToFirst (s : SkipList) : option (option positive) := Next s (head_ s) 0.
Definition Iterator_SeekToLast (s : SkipList) : option (option positive) :=
  x ← FindLast s; Some (if decide (x = head_ s) then None else Some x).

(** ** Invariant *)

(** The key of a node, for nodes that exist. *)
Definition key_at (s : SkipList) (n : positive) : Key := default key0 (node_key s n).

Definition nlt (s : SkipList) (a b : positive) : Prop := compare_ (key_at s a) (key_at s b) < 0.

(** The links of level [i] from [p] lead through [l] to null. *)
Fixpoint chain (s : SkipList) (i : nat) (p : positive) (l : list positive) : Prop :=
  match l with
  | [] => Next s p i = Some None
  | q :: l => Next s p i = Some (Some q) ∧ chain s i q l
  end.

(** What holds at every moment, also half way through an insertion: [lv i] is
    the list at level [i]; the lists are strictly sorted and each is contained
    in the one below. *)
Record shared_ok (s : SkipList) (lv : nat → list positive) : Prop := {
  so_chain i : (i < kMaxHeight)%nat → chain s i (head_ s) (lv i);
  so_sorted i : StronglySorted (nlt s) (lv i);
  so_sub i n : n ∈ lv (S i) → n ∈ lv i;
  so_max : (1 <= max_height_ s <= kMaxHeight)%nat;
  so_high i : (max_height_ s <= i)%nat → lv i = [];
  so_head i : head_ s ∉ lv i;
  so_node i n : n ∈ lv i → ∃ nd, nodes s !! n = Some nd ∧ (i < height nd)%nat;
  so_head_node : ∃ nd, nodes s !! head_ s = Some nd ∧ height nd = kMaxHeight }.

(** Between insertions every node is linked at all levels below its height. *)
Definition quiescent (s : SkipList) (lv : nat → list positive) : Prop :=
  ∀ n nd i, n ∈ lv 0%nat → nodes s !! n = Some nd →
    (height nd <= kMaxHeight)%nat ∧ (n ∈ lv i ↔ (i < height nd)%nat).

(** [key] cuts the sorted list [l] into [l1], before it, and [l2]. *)
Definition cut (s : SkipList) (key : Key) (l l1 l2 : list positive) : Prop :=
  l = l1 ++ l2 ∧ Forall (λ n, compare_ (key_at s n) key < 0) l1 ∧
  Forall (λ n, 0 <= compare_ (key_at s n) key) l2.

(** ** Lemmas: order and sorted lists *)

Context `{!KeyOrder compare_}.

Lemma compare_lt_iff a b : compare_ a b < 0 ↔ 0 < compare_ b a.
Proof. pose proof (compare_antisym a b). lia. Qed.

Lemma compare_lt_trans a b c : compare_ a b < 0 → compare_ b c < 0 → compare_ a c < 0.
Proof.
  intros H1 H2. assert (compare_ a c <= 0) by (apply (compare_trans a b c); lia).
  destruct (Z.eq_dec (compare_ a c) 0) as [E|]; [|lia].
  assert (compare_ c a = 0) by (pose proof (compare_antisym a c); lia).
  assert (compare_ c b <= 0) by (apply (compare_trans c a b); lia).
  apply compare_lt_iff in H2. lia.
Qed.

Lemma compare_ge_trans a b c : 0 <= compare_ a c → compare_ a b < 0 → 0 <= compare_ b c.
Proof.
  intros H1 H2. destruct (Z_lt_le_dec (compare_ b c) 0) as [H3|]; [|done].
  pose proof (compare_lt_trans a b c H2 H3). lia.
Qed.

Lemma compare_refl a : compare_ a a = 0.
Proof. pose proof (compare_antisym a a). lia. Qed.

Lemma nlt_trans s a b c : nlt s a b → nlt s b c → nlt s a c.
Proof. apply compare_lt_trans. Qed.

Lemma nlt_irrefl s a : ¬ nlt s a a.
Proof. unfold nlt. rewrite compare_refl. lia. Qed.

Lemma sorted_NoDup s l : StronglySorted (nlt s) l → NoDup l.
Proof.
  induction 1 as [|x l Hl IH Hx]; constructor; [|done].
  intros Hin. rewrite Forall_forall in Hx. by apply (nlt_irrefl s x), Hx.
Qed.

Lemma chain_split s i p l l1 x l2 :
  chain s i p l → p :: l = l1 ++ x :: l2 → chain s i x l2.
Proof.
  revert p l. induction l1 as [|y l1 IH]; intros p l Hc; simpl.
  - by intros [= -> ->].
  - destruct l as [|q l]; intros [= -> E]; [by destruct l1|].
    destruct Hc as [_ Hc]. by apply (IH q l).
Qed.

Lemma chain_next s i x l : chain s i x l → Next s x i = Some (head l).
Proof. destruct l; simpl; [done|by intros [? _]]. Qed.

(** A position of the search: the head or a node before the key. *)
Lemma position_split s l (P : positive → Prop) hd x l1 l2 :
  StronglySorted (nlt s) l → (∀ a b, nlt s a b → P b → P a) → hd ∉ l →
  hd :: l = l1 ++ x :: l2 → (x = hd ∨ P x) →
  ∃ l1', l = l1' ++ l2 ∧ Forall P l1' ∧ x = last_or hd l1'.
Proof.
  intros Hs Hdown Hh E Hx. destruct l1 as [|y l1].
  - injection E as -> ->. by exists [].
  - simpl in E. injection E as -> ->. exists (l1 ++ [x]).
    rewrite <- app_assoc. split; [done|].
    assert (x ≠ y) by (intros ->; apply Hh, elem_of_mid).
    destruct Hx as [Hx|Hx]; [done|]. split.
    + apply Forall_app. split; [|by constructor].
      apply sorted_app_lt in Hs as [Hs _]. eapply Forall_impl; [exact Hs|].
      intros a Ha. exact (Hdown a x Ha Hx).
    + unfold last_or. by rewrite last_snoc.
Qed.

Lemma sorted_head_Forall s l (P : positive → Prop) :
  StronglySorted (nlt s) l → (∀ a b, nlt s a b → P b → P a) →
  (∀ n, head l = Some n → ¬ P n) → Forall (λ n, ¬ P n) l.
Proof.
  destruct l as [|x l]; intros Hs Hd H; [constructor|].
  apply StronglySorted_inv in Hs as [_ Hs]. pose proof (H x eq_refl) as Hx.
  constructor; [done|]. eapply Forall_impl; [exact Hs|]. intros a Ha Hp.
  by apply Hx, (Hd x a).
Qed.

(** ** Lemmas: one search step on any shared state *)

(** What a search looks for: [go] decides the predicate [P], which holds of a
    prefix of the sorted list, and the assertion holds on the way. *)
Record search_pred (s : SkipList) (lv : nat → list positive)
  (asserted go : SkipList → positive → option bool) (P : positive → Prop) : Prop := {
  sp_holds n : n = head_ s ∨ n ∈ lv 0%nat ∧ P n → asserted s n = Some true;
  sp_go n : n ∈ lv 0%nat → ∃ b, go s n = Some b ∧ (b = true ↔ P n);
  sp_down a b : nlt s a b → P b → P a }.

Definition position_ok (s : SkipList) (lv : nat → list positive) (P : positive → Prop)
  (st : search) : Prop :=
  (lvl st < kMaxHeight)%nat ∧ cur st ∈ head_ s :: lv (lvl st) ∧ (cur st = head_ s ∨ P (cur st)).

(** [x] is the last node of level [i] satisfying [P], [next] the one after. *)
Definition found (s : SkipList) (lv : nat → list positive) (P : positive → Prop) (i : nat)
  (x : positive) (next : option positive) : Prop :=
  ∃ l1 l2, lv i = l1 ++ l2 ∧ Forall P l1 ∧ Forall (λ n, ¬ P n) l2 ∧
    x = last_or (head_ s) l1 ∧ next = head l2.

Lemma so_sub_0 s lv i n : shared_ok s lv → n ∈ lv i → n ∈ lv 0%nat.
Proof. intros Hs. induction i as [|i IH]; [done|]. intros H. by apply IH, (so_sub s lv Hs). Qed.

Lemma search_step_ok s lv asserted go P st :
  shared_ok s lv → search_pred s lv asserted go P → position_ok s lv P st →
  match search_step asserted go s st with
  | None => False
  | Some (inl st') =>
      position_ok s lv P st' ∧
      ((lvl st' = lvl st ∧ prev st' = prev st ∧ cur st' ∈ lv (lvl st) ∧
        (cur st = head_ s ∨ nlt s (cur st) (cur st'))) ∨
       (lvl st = S (lvl st') ∧ cur st' = cur st ∧
        (∃ next, found s lv P (lvl st) (cur st) next) ∧
        prev st' = insert (lvl st) (cur st) <$> prev st))
  | Some (inr (x, next, pv)) =>
      lvl st = 0%nat ∧ x = cur st ∧ found s lv P 0 x next ∧
      pv = insert (lvl st) (cur st) <$> prev st
  end.
Proof.
  intros Hs Hp (Hl & Hin & Hcur). destruct st as [x l pv]. simpl in *.
  assert (asserted s x = Some true) as Has.
  { apply (sp_holds _ _ _ _ _ Hp). apply elem_of_cons in Hin as [->|Hin]; [by left|].
    destruct Hcur as [->|Hcur]; [by left|]. right. split; [by eapply so_sub_0|done]. }
  destruct (list_elem_of_split _ _ Hin) as (l1 & l2 & E).
  pose proof (chain_split _ _ _ _ _ _ _ (so_chain s lv Hs l Hl) E) as Hc.
  pose proof (so_sorted s lv Hs l) as Hsort.
  destruct (position_split s (lv l) P (head_ s) x l1 l2) as (l1' & E' & HP1 & Hlast);
    [done|apply (sp_down _ _ _ _ _ Hp)|apply (so_head s lv Hs)|done..|].
  unfold search_step. simpl. rewrite Has. cbn [mbind option_bind negb].
  rewrite (chain_next _ _ _ _ Hc). cbn [mbind option_bind].
  assert (Hdone : (∀ n, head l2 = Some n → ¬ P n) → found s lv P l x (head l2)).
  { intros Hh. exists l1', l2. split_and!; try done.
    eapply sorted_head_Forall; [|apply (sp_down _ _ _ _ _ Hp)|done].
    rewrite E' in Hsort. clear -Hsort. induction l1' as [|y l1' IH]; [done|].
    apply IH. by apply StronglySorted_inv in Hsort as [? _]. }
  destruct l2 as [|n l2]; cbn [head mbind option_bind].
  { assert (found s lv P l x None) by (by apply Hdone). destruct l as [|l]; simpl; [done|].
    split; [|right; split_and!; eauto]. split; [simpl; lia|]. simpl. split; [|done].
    apply elem_of_cons in Hin as [->|Hin]; apply elem_of_cons; [by left|].
    right. by apply (so_sub s lv Hs). }
  assert (n ∈ lv l) as Hn by (rewrite E'; apply elem_of_mid).
  destruct (sp_go _ _ _ _ _ Hp n) as (b & -> & Hb); [by eapply so_sub_0|].
  cbn [mbind option_bind]. destruct b.
  - split.
    + split; [done|]. simpl. split; [by apply elem_of_cons; right|right; by apply Hb].
    + left. split_and!; try done. simpl. destruct Hcur as [|Hcur]; [by left|].
      destruct l1 as [|y l1]; simpl in E; injection E as -> E; [by left|right].
      rewrite E in Hsort. apply sorted_app_lt in Hsort as [_ H].
      by apply Forall_cons in H as [H _].
  - assert (¬ P n) as HnP by (intros H; by apply Hb in H).
    assert (found s lv P l x (Some n)) by (apply Hdone; by intros ? [= <-]).
    destruct l as [|l]; simpl; [done|].
    split; [|right; split_and!; eauto]. split; [simpl; lia|]. simpl. split; [|done].
    apply elem_of_cons in Hin as [->|Hin]; apply elem_of_cons; [by left|].
    right. by apply (so_sub s lv Hs).
Qed.

(** ** Lemmas: the search loops terminate *)

#[local] Instance nlt_dec s a b : Decision (nlt s a b).
Proof. unfold nlt. apply _. Defined.

Lemma filter_length_lt {A} (P Q : A → Prop) `{!∀ x, Decision (P x), !∀ x, Decision (Q x)} l x :
  (∀ y, P y → Q y) → x ∈ l → Q x → ¬ P x →
  (length (filter P l) < length (filter Q l))%nat.
Proof.
  intros HPQ Hx HQ HP.
  assert (∀ l, (length (filter P l) <= length (filter Q l))%nat) as Hle.
  { clear -HPQ. induction l as [|y l IH]; [done|]. rewrite !filter_cons.
    destruct (decide (P y)) as [HPy|], (decide (Q y)) as [|HQy]; simpl; [lia| |lia..].
    by destruct HQy; apply HPQ. }
  apply list_elem_of_split in Hx as (l1 & l2 & ->). rewrite !filter_app, !length_app, !filter_cons.
  rewrite decide_False, decide_True by done. pose proof (Hle l1). pose proof (Hle l2).
  simpl. lia.
Qed.

(** The nodes at the lowest level past [x]. *)
Definition after (s : SkipList) (lv : nat → list positive) (x : positive) : nat :=
  if decide (x = head_ s) then length (lv 0%nat) else length (filter (nlt s x) (lv 0%nat)).

Lemma after_lt s lv x n :
  shared_ok s lv → n ∈ lv 0%nat → (x = head_ s ∨ nlt s x n) → (after s lv n < after s lv x)%nat.
Proof.
  intros Hs Hn Hx. unfold after. rewrite (decide_False (P:=n = head_ s)).
  2: { intros ->. by apply (so_head s lv Hs 0). }
  destruct (decide (x = head_ s)) as [_|Hne].
  - assert (length (lv 0%nat) = length (filter (λ _, True) (lv 0%nat))) as ->.
    { clear. induction (lv 0%nat); [done|]. rewrite filter_cons, decide_True by done.
      simpl. by f_equal. }
    apply filter_length_lt with n; [done..|]. apply nlt_irrefl.
  - destruct Hx as [|Hx]; [done|].
    apply filter_length_lt with n; [|done..|apply nlt_irrefl].
    intros y. by apply nlt_trans.
Qed.

Lemma after_bound s lv x : shared_ok s lv → (after s lv x <= size (nodes s))%nat.
Proof.
  intros Hs. transitivity (length (lv 0%nat)).
  - unfold after. case_decide; [done|]. apply length_filter.
  - rewrite <- size_dom, <- (size_list_to_set (C:=gset positive) (lv 0%nat)).
    + apply subseteq_size. intros n Hn%elem_of_list_to_set.
      destruct (so_node s lv Hs 0 n Hn) as (nd & E & _). apply elem_of_dom. by exists nd.
    + by eapply sorted_NoDup, (so_sorted s lv Hs).
Qed.

Lemma search_loop_ok fuel s lv asserted go P st :
  shared_ok s lv → search_pred s lv asserted go P → position_ok s lv P st →
  (after s lv (cur st) + lvl st < fuel)%nat →
  ∃ x next pv, search_loop fuel asserted go s st = Some (x, next, pv) ∧ found s lv P 0 x next ∧
    match prev st, pv with
    | None, None => True
    | Some p0, Some p1 =>
        (∀ i, (i <= lvl st)%nat → ∃ y nx, p1 !! i = Some y ∧ found s lv P i y nx) ∧
        (∀ i, (lvl st < i)%nat → p1 !! i = p0 !! i)
    | _, _ => False
    end.
Proof.
  intros Hs Hp. revert st. induction fuel as [|fuel IH]; intros st Hst Hf; [lia|].
  cbn [search_loop]. pose proof (search_step_ok s lv asserted go P st Hs Hp Hst) as Hstep.
  destruct (search_step asserted go s st) as [[st'|[[x next] pv]]|]; [|clear IH|done];
    cbn [mbind option_bind].
  - destruct Hstep as [Hst' [(El & Ep & Hin & Hlt)|(El & Ec & [nx Hfd] & Ep)]].
    + assert (after s lv (cur st') < after s lv (cur st))%nat as Hm
        by (apply after_lt; [done|by eapply so_sub_0|done]).
      destruct (IH st' Hst') as (x & next & pv & E1 & E2 & E3).
      { rewrite El. lia. }
      exists x, next, pv. rewrite Ep, El in E3. done.
    + destruct (IH st' Hst') as (x & next & pv & E1 & E2 & E3); [rewrite Ec; lia|].
      exists x, next, pv. split; [done|]. split; [done|]. rewrite Ep in E3.
      destruct (prev st) as [p0|]; simpl in E3; [|done]. destruct pv as [p1|]; [|done].
      destruct E3 as [E3 E4]. split.
      * intros i Hi. destruct (decide (i = lvl st)) as [->|]; [|apply E3; lia].
        exists (cur st), nx. by rewrite E4, lookup_insert_eq by lia.
      * intros i Hi. rewrite E4 by lia. apply lookup_insert_ne. lia.
  - destruct Hstep as (El & -> & Hfd & ->). eexists _, _, _. split; [done|]. split; [done|].
    destruct (prev st) as [p0|]; simpl; [|done]. split.
    + intros i Hi. exists (cur st), next. replace i with 0%nat by lia.
      by rewrite El, lookup_insert_eq.
    + intros i Hi. apply lookup_insert_ne. lia.
Qed.

Lemma start_ok s lv P pv : shared_ok s lv → position_ok s lv P (start s pv).
Proof.
  intros Hs. pose proof (so_max s lv Hs). unfold position_ok, start. simpl.
  split; [lia|]. split; [apply elem_of_cons; by left|by left].
Qed.

(** Every search ends within [search_fuel] iterations, at the right place. *)
Lemma search_loop_total s lv asserted go P pv :
  shared_ok s lv → search_pred s lv asserted go P →
  ∃ x next pv', search_loop (search_fuel s) asserted go s (start s pv) = Some (x, next, pv') ∧
    found s lv P 0 x next ∧
    match pv, pv' with
    | None, None => True
    | Some _, Some p1 =>
        ∀ i, (i < max_height_ s)%nat → ∃ y nx, p1 !! i = Some y ∧ found s lv P i y nx
    | _, _ => False
    end.
Proof.
  intros Hs Hp.
  destruct (search_loop_ok (search_fuel s) s lv asserted go P (start s pv)) as (x & nx & pv' & E1 & E2 & E3);
    [done..|by apply start_ok| |].
  - pose proof (after_bound s lv (head_ s) Hs). pose proof (so_max s lv Hs).
    unfold search_fuel. simpl. lia.
  - exists x, nx, pv'. split; [done|]. split; [done|]. simpl in E3.
    destruct pv, pv'; try done. intros i Hi. apply E3. lia.
Qed.

(** ** Lemmas: searches by key *)

Lemma KeyIsAfterNode_ok s lv key n :
  shared_ok s lv → n ∈ lv 0%nat →
  ∃ b, KeyIsAfterNode key s n = Some b ∧ (b = true ↔ compare_ (key_at s n) key < 0).
Proof.
  intros Hs Hn. destruct (so_node s lv Hs 0 n Hn) as (nd & E & _).
  unfold KeyIsAfterNode, key_at, node_key. rewrite E. simpl. eexists. split; [done|]. lia.
Qed.

Lemma key_search_pred s lv key :
  shared_ok s lv →
  search_pred s lv no_assertion (KeyIsAfterNode key) (λ n, compare_ (key_at s n) key < 0).
Proof.
  intros Hs. split; [done|by intros n; apply KeyIsAfterNode_ok|].
  intros a b. apply compare_lt_trans.
Qed.

Lemma less_search_pred s lv key :
  shared_ok s lv →
  search_pred s lv (head_or_before key) (KeyIsAfterNode key) (λ n, compare_ (key_at s n) key < 0).
Proof.
  intros Hs. split; [|by intros n; apply KeyIsAfterNode_ok|intros a b; apply compare_lt_trans].
  intros n Hn. unfold head_or_before. case_decide as Hh; [done|]. destruct Hn as [Hn|[Hn Hb]]; [done|].
  destruct (KeyIsAfterNode_ok s lv key n Hs Hn) as (b & -> & H). by rewrite (proj2 H Hb).
Qed.

Lemma last_search_pred s lv : search_pred s lv no_assertion (λ _ _, Some true) (λ _, True).
Proof. split; [done| |done]. intros n _. by exists true. Qed.

Lemma found_cut s lv key i x next :
  found s lv (λ n, compare_ (key_at s n) key < 0) i x next →
  ∃ l1 l2, cut s key (lv i) l1 l2 ∧ x = last_or (head_ s) l1 ∧ next = head l2.
Proof.
  intros (l1 & l2 & E & H1 & H2 & Hx & Hn). exists l1, l2. split; [|done].
  split; [done|]. split; [done|]. eapply Forall_impl; [exact H2|]. simpl. lia.
Qed.

Lemma cut_unique s key l l1 l2 k1 k2 :
  cut s key l l1 l2 → cut s key l k1 k2 → l1 = k1 ∧ l2 = k2.
Proof.
  intros (-> & H1 & H2) (E & K1 & K2). revert k1 E K1.
  induction l1 as [|x l1 IH]; intros [|y k1] E K1; simplify_eq/=; [done| | |].
  - apply Forall_cons in H2 as [H2 _], K1 as [K1 _]. simpl in *. lia.
  - apply Forall_cons in K2 as [K2 _], H1 as [H1 _]. simpl in *. lia.
  - apply Forall_cons in H1 as [_ H1], K1 as [_ K1]. by destruct (IH H1 k1) as [-> ->].
Qed.

Lemma FindGreaterOrEqual_ok s lv key :
  shared_ok s lv →
  ∃ l1 l2, cut s key (lv 0%nat) l1 l2 ∧
    FindGreaterOrEqual s key None = Some (head l2, None) ∧
    FindLessThan s key = Some (last_or (head_ s) l1).
Proof.
  intros Hs. pose proof (key_search_pred s lv key Hs) as Hp.
  destruct (search_loop_total s lv _ _ _ None Hs Hp) as (x & nx & pv & E & Hf & Hpv).
  destruct pv; [done|]. destruct (found_cut _ _ _ _ _ _ Hf) as (l1 & l2 & Hc & -> & ->).
  destruct (search_loop_total s lv _ _ _ None Hs (less_search_pred s lv key Hs)) as (x & nx & pv & E' & Hf' & _).
  destruct (found_cut _ _ _ _ _ _ Hf') as (k1 & k2 & Hc' & -> & ->).
  destruct (cut_unique _ _ _ _ _ _ _ Hc' Hc) as [-> ->].
  exists l1, l2. split; [done|]. unfold FindGreaterOrEqual, FindLessThan. rewrite E, E'. done.
Qed.

Lemma FindGreaterOrEqual_prev s lv key :
  shared_ok s lv →
  ∃ next prev, FindGreaterOrEqual s key (Some ∅) = Some (next, Some prev) ∧
    (∃ l1 l2, cut s key (lv 0%nat) l1 l2 ∧ next = head l2) ∧
    ∀ i, (i < max_height_ s)%nat →
      ∃ l1 l2, cut s key (lv i) l1 l2 ∧ prev !! i = Some (last_or (head_ s) l1).
Proof.
  intros Hs. pose proof (key_search_pred s lv key Hs) as Hp.
  destruct (search_loop_total s lv _ _ _ (Some ∅) Hs Hp) as (x & nx & [pv|] & E & Hf & Hpv); [|done].
  exists nx, pv. unfold FindGreaterOrEqual. rewrite E. split; [done|].
  split; [destruct (found_cut _ _ _ _ _ _ Hf) as (l1 & l2 & Hc & _ & ->); eauto|].
  intros i Hi. destruct (Hpv i Hi) as (y & nx' & Ey & Hfi).
  destruct (found_cut _ _ _ _ _ _ Hfi) as (l1 & l2 & Hc & -> & _). eauto.
Qed.

Lemma FindLast_ok s lv :
  shared_ok s lv → FindLast s = Some (last_or (head_ s) (lv 0%nat)).
Proof.
  intros Hs.
  destruct (search_loop_total s lv _ _ _ None Hs (last_search_pred s lv)) as (x & nx & pv & E & Hf & _).
  unfold FindLast. rewrite E. simpl. destruct Hf as (l1 & l2 & El & _ & H2 & -> & _).
  destruct l2 as [|n l2]; [|by apply Forall_cons in H2 as [[] _]].
  by rewrite El, app_nil_r.
Qed.

(** ** Lemmas: writing a link *)

(** What a store of a link leaves alone. *)
Definition shape (s : SkipList) (n : positive) : option (Key * nat) :=
  (λ nd, (nkey nd, height nd)) <$> nodes s !! n.

Record stored (s s' : SkipList) (x : positive) (n : nat) (v : option positive) : Prop := {
  st_next y j : Next s' y j = if decide (y = x ∧ j = n) then Some v else Next s y j;
  st_shape y : shape s' y = shape s y;
  st_head : head_ s' = head_ s;
  st_max : max_height_ s' = max_height_ s;
  st_rnd : rnd_ s' = rnd_ s }.

Lemma SetNext_ok s x n v k h :
  shape s x = Some (k, h) → (n < h)%nat → ∃ s', SetNext s x n v = Some s' ∧ stored s s' x n v.
Proof.
  unfold shape, SetNext. destruct (nodes s !! x) as [nd|] eqn:E; [|done].
  simpl. intros [= <- <-] Hn. destruct (Nat.ltb_spec n (height nd)); [|lia].
  eexists. split; [done|]. split; simpl; try done.
  - intros y j. unfold Next. simpl. destruct (decide (y = x)) as [->|Hy].
    + rewrite lookup_insert_eq. cbn [mbind option_bind next_].
      destruct (decide (j = n)) as [->|Hj].
      * by rewrite lookup_insert_eq, decide_True.
      * rewrite lookup_insert_ne, decide_False, E by (done || intros [_ ?]; done). done.
    + rewrite lookup_insert_ne, decide_False by (done || intros [? _]; done). done.
  - intros y. unfold shape. simpl. destruct (decide (y = x)) as [->|Hy].
    + by rewrite lookup_insert_eq, E.
    + by rewrite lookup_insert_ne.
Qed.

Lemma key_at_shape s s' n : shape s' n = shape s n → key_at s' n = key_at s n.
Proof.
  unfold shape, key_at, node_key. destruct (nodes s' !! n), (nodes s !! n); simpl; congruence.
Qed.

Lemma sorted_same_keys s s' l :
  (∀ n, n ∈ l → key_at s' n = key_at s n) →
  StronglySorted (nlt s) l → StronglySorted (nlt s') l.
Proof.
  induction l as [|x l IH]; intros Hk Hs; [constructor|].
  apply StronglySorted_inv in Hs as [Hs Hx].
  constructor; [apply IH; [|done]; intros n Hn; apply Hk, elem_of_cons; by right|].
  rewrite Forall_forall in *. intros y Hy. unfold nlt.
  rewrite !Hk by (apply elem_of_cons; auto). by apply Hx.
Qed.

Lemma chain_same s s' i p l :
  (∀ y, y ∈ p :: l → Next s' y i = Next s y i) → chain s i p l → chain s' i p l.
Proof.
  revert p. induction l as [|q l IH]; intros p Hn; simpl.
  - rewrite Hn; [done|apply elem_of_cons; by left].
  - intros [Hq Hc]. rewrite Hn by (apply elem_of_cons; by left). split; [done|].
    apply IH; [|done]. intros y Hy. apply Hn, elem_of_cons. by right.
Qed.

(** Linking [x] between [l1] and [l2]. *)
Lemma chain_insert s s' i p l1 l2 x :
  chain s i p (l1 ++ l2) → NoDup (p :: l1 ++ l2) → x ∉ p :: l1 ++ l2 →
  (∀ y, Next s' y i = if decide (y = last_or p l1) then Some (Some x)
                      else if decide (y = x) then Some (head l2) else Next s y i) →
  chain s' i p (l1 ++ x :: l2).
Proof.
  intros Hc Hnd Hx Hn. revert p Hc Hnd Hx Hn. induction l1 as [|q l1 IH]; intros p Hc Hnd Hx Hn.
  - simpl in *. apply NoDup_cons in Hnd as [Hp Hnd].
    apply not_elem_of_cons in Hx as [Hxp Hx2]. change (last_or p []) with p in Hn.
    split; [by rewrite Hn, decide_True|].
    destruct l2 as [|q l2]; simpl in *.
    + by rewrite Hn, decide_False, decide_True.
    + split; [by rewrite Hn, decide_False, decide_True|].
      destruct Hc as [_ Hc]. eapply chain_same; [|exact Hc].
      intros y Hy. rewrite Hn, !decide_False; congruence || (intros ->; done).
  - simpl in *. destruct Hc as [Hq Hc]. apply NoDup_cons in Hnd as [Hp Hnd].
    apply not_elem_of_cons in Hx as [Hxp Hx2].
    assert (p ≠ last_or q l1).
    { intros ->. apply Hp. pose proof (last_or_elem q l1) as H.
      apply elem_of_cons in H as [->|H]; apply elem_of_cons; [by left|right].
      apply elem_of_app. by left. }
    split; [by rewrite Hn, last_or_cons, !decide_False|].
    apply IH; try done. intros y. by rewrite Hn, last_or_cons.
Qed.

(** ** Lemmas: linking a node level by level *)

Definition set_level (lv : nat → list positive) (i : nat) (l : list positive) :
  nat → list positive := λ j, if decide (j = i) then l else lv j.

(** [x], with [key] and [h] levels, is linked at the levels below [i]; [prev]
    holds its predecessors at the others. *)
Record linking (s : SkipList) (lv : nat → list positive) (x : positive) (key : Key)
  (prev : gmap nat positive) (i h : nat) : Prop := {
  lk_ok : shared_ok s lv;
  lk_shape : shape s x = Some (key, h);
  lk_head : x ≠ head_ s;
  lk_height : (i <= h <= max_height_ s)%nat;
  lk_linked j : x ∈ lv j ↔ (j < i)%nat;
  lk_distinct n : n ∈ lv 0%nat → n ≠ x → compare_ (key_at s n) key ≠ 0;
  lk_prev j : (i <= j < h)%nat →
    ∃ l1 l2, cut s key (lv j) l1 l2 ∧ prev !! j = Some (last_or (head_ s) l1) }.

Lemma shape_key_at s x k h : shape s x = Some (k, h) → key_at s x = k.
Proof. unfold shape, key_at, node_key. destruct (nodes s !! x); simpl; congruence. Qed.

Lemma linking_bounds s lv x key prev i h l1 l2 :
  linking s lv x key prev i h → (i < h)%nat → cut s key (lv i) l1 l2 →
  Forall (λ n, nlt s n x) l1 ∧ Forall (nlt s x) l2.
Proof.
  intros Hlk Hi (E & H1 & H2). unfold nlt. rewrite (shape_key_at s x _ _ (lk_shape _ _ _ _ _ _ _ Hlk)).
  split; [done|]. rewrite Forall_forall in H2 |- *. intros n Hn.
  assert (n ∈ lv i) as Hin by (rewrite E; apply elem_of_app; by right).
  assert (compare_ (key_at s n) key ≠ 0).
  { apply (lk_distinct _ _ _ _ _ _ _ Hlk); [by eapply so_sub_0, Hin; apply Hlk|].
    intros ->. apply (lk_linked _ _ _ _ _ _ _ Hlk) in Hin. lia. }
  specialize (H2 n Hn). simpl in H2. apply compare_lt_iff. lia.
Qed.

(** Predecessors are tall enough. *)
Lemma so_tall s lv i l1 l2 :
  shared_ok s lv → (i < kMaxHeight)%nat → lv i = l1 ++ l2 →
  ∃ k h, shape s (last_or (head_ s) l1) = Some (k, h) ∧ (i < h)%nat.
Proof.
  intros Hs Hi E. unfold shape. destruct (last_or_in (head_ s) l1) as [->|Hin].
  - destruct (so_head_node s lv Hs) as (nd & -> & Eh). eexists _, _. split; [done|lia].
  - destruct (so_node s lv Hs i (last_or (head_ s) l1)) as (nd & -> & Hh).
    + rewrite E. apply elem_of_app. by left.
    + eexists _, _. by split.
Qed.

(** The links of [s'] when [x] has been linked after [p] at level [i]. *)
Record linked_at (s s' : SkipList) (x p : positive) (i : nat) (next : option positive) : Prop := {
  la_next y j : Next s' y j =
    if decide (j = i)
    then if decide (y = p) then Some (Some x)
         else if decide (y = x) then Some next else Next s y j
    else Next s y j;
  la_shape y : shape s' y = shape s y;
  la_head : head_ s' = head_ s;
  la_max : max_height_ s' = max_height_ s }.

Lemma link_level_links s lv x key prev i h l1 l2 :
  linking s lv x key prev i h → (i < h)%nat → cut s key (lv i) l1 l2 →
  prev !! i = Some (last_or (head_ s) l1) →
  ∃ s', link_level s x prev i = Some s' ∧ linked_at s s' x (last_or (head_ s) l1) i (head l2).
Proof.
  intros Hlk Hi Hc Hp. pose proof (lk_ok _ _ _ _ _ _ _ Hlk) as Hs. set (p := last_or (head_ s) l1).
  destruct Hc as (E & H1 & H2). pose proof (lk_height _ _ _ _ _ _ _ Hlk).
  pose proof (so_max s lv Hs).
  assert (chain s i p l2) as Hch.
  { destruct (last_or_split (head_ s) l1) as [l' El].
    eapply chain_split; [apply (so_chain s lv Hs); lia|].
    rewrite E, app_comm_cons, El, <- app_assoc. done. }
  unfold link_level. rewrite Hp. cbn [mbind option_bind]. fold p.
  rewrite (chain_next _ _ _ _ Hch). cbn [mbind option_bind].
  destruct (SetNext_ok s x i (head l2) key h (lk_shape _ _ _ _ _ _ _ Hlk) Hi) as (s1 & -> & St1).
  cbn [mbind option_bind].
  destruct (so_tall s lv i l1 l2) as (k & hp & Ek & Hhp); [done|lia|done|]. fold p in Ek.
  rewrite <- (st_shape _ _ _ _ _ St1 p) in Ek.
  destruct (SetNext_ok s1 p i (Some x) k hp Ek Hhp) as (s2 & -> & St2).
  eexists. split; [done|]. split.
  - intros y j. rewrite (st_next _ _ _ _ _ St2), (st_next _ _ _ _ _ St1).
    destruct (decide (j = i)) as [->|Hj].
    + destruct (decide (y = p)) as [->|Hyp]; [by rewrite decide_True|].
      rewrite decide_False by (intros [? _]; done).
      destruct (decide (y = x)) as [->|Hyx]; [by rewrite decide_True|].
      by rewrite decide_False by (intros [? _]; done).
    + by rewrite !decide_False by (intros [_ ?]; done).
  - intros y. by rewrite (st_shape _ _ _ _ _ St2), (st_shape _ _ _ _ _ St1).
  - by rewrite (st_head _ _ _ _ _ St2), (st_head _ _ _ _ _ St1).
  - by rewrite (st_max _ _ _ _ _ St2), (st_max _ _ _ _ _ St1).
Qed.

(** The state after one level: the invariant holds with [x] in the list. *)
Lemma linked_at_shared s s' lv x key prev i h l1 l2 :
  linking s lv x key prev i h → (i < h)%nat → cut s key (lv i) l1 l2 →
  linked_at s s' x (last_or (head_ s) l1) i (head l2) →
  shared_ok s' (set_level lv i (l1 ++ x :: l2)).
Proof.
  intros Hlk Hi Hc La. pose proof (lk_ok _ _ _ _ _ _ _ Hlk) as Hs.
  destruct (linking_bounds _ _ _ _ _ _ _ _ _ Hlk Hi Hc) as [Hb1 Hb2].
  destruct Hc as (E & _ & _). pose proof (lk_linked _ _ _ _ _ _ _ Hlk) as Hx.
  pose proof (lk_height _ _ _ _ _ _ _ Hlk) as Hh.
  assert (x ∉ lv i) as Hxi by (intros H; apply Hx in H; lia).
  assert (Hkey : ∀ n, key_at s' n = key_at s n) by (intros n; apply key_at_shape, La).
  assert (Hmem : ∀ n, n ∈ l1 ++ x :: l2 ↔ n = x ∨ n ∈ lv i).
  { intros n. rewrite E, !elem_of_app, elem_of_cons. tauto. }
  assert (Hnode : ∀ n j nd, nodes s !! n = Some nd → (j < height nd)%nat →
            ∃ nd', nodes s' !! n = Some nd' ∧ (j < height nd')%nat).
  { intros n j nd En Hj. pose proof (la_shape _ _ _ _ _ _ La n) as Es. unfold shape in Es.
    rewrite En in Es. destruct (nodes s' !! n) as [nd'|]; [|done]. simpl in Es.
    exists nd'. split; [done|]. congruence. }
  unfold set_level. split.
  - intros j Hj. rewrite (la_head _ _ _ _ _ _ La). destruct (decide (j = i)) as [->|Hne].
    + apply (chain_insert s); [rewrite <- E; by apply (so_chain s lv Hs)| | |].
      * rewrite <- E. constructor; [apply (so_head s lv Hs)|].
        by eapply sorted_NoDup, (so_sorted s lv Hs).
      * rewrite <- E. apply not_elem_of_cons. split; [by apply Hlk|done].
      * intros y. by rewrite (la_next _ _ _ _ _ _ La), decide_True.
    + eapply chain_same; [|by apply (so_chain s lv Hs)].
      intros y _. by rewrite (la_next _ _ _ _ _ _ La), decide_False.
  - intros j. apply (sorted_same_keys s); [by intros|].
    destruct (decide (j = i)) as [->|_]; [|apply (so_sorted s lv Hs)].
    apply sorted_insert; [rewrite <- E; apply (so_sorted s lv Hs)|done..].
  - intros j n. destruct (decide (S j = i)) as [Ej|]; [|destruct (decide (j = i)) as [->|]].
    + rewrite decide_False by lia. subst i.
      intros [->|Hn]%Hmem; [apply Hx; lia|by apply (so_sub s lv Hs)].
    + intros Hn. apply Hmem. right. by apply (so_sub s lv Hs).
    + apply (so_sub s lv Hs).
  - rewrite (la_max _ _ _ _ _ _ La). apply (so_max s lv Hs).
  - intros j. rewrite (la_max _ _ _ _ _ _ La). intros Hj.
    rewrite decide_False by lia. by apply (so_high s lv Hs).
  - intros j. rewrite (la_head _ _ _ _ _ _ La). destruct (decide (j = i)) as [->|_].
    + rewrite Hmem. intros [H|H]; [by apply (lk_head _ _ _ _ _ _ _ Hlk)|].
      by apply (so_head s lv Hs i).
    + apply (so_head s lv Hs).
  - intros j n. destruct (decide (j = i)) as [->|_].
    + intros [->|Hn]%Hmem.
      * pose proof (lk_shape _ _ _ _ _ _ _ Hlk) as Es. rewrite <- (la_shape _ _ _ _ _ _ La) in Es.
        unfold shape in Es. destruct (nodes s' !! x) as [nd|]; [|done].
        exists nd. simpl in Es. injection Es as _ ->. done.
      * destruct (so_node s lv Hs i n Hn) as (nd & En & Hnd). by eapply Hnode.
    + intros Hn. destruct (so_node s lv Hs j n Hn) as (nd & En & Hnd). by eapply Hnode.
  - rewrite (la_head _ _ _ _ _ _ La). destruct (so_head_node s lv Hs) as (nd & En & Eh).
    pose proof (la_shape _ _ _ _ _ _ La (head_ s)) as Es. unfold shape in Es. rewrite En in Es.
    destruct (nodes s' !! head_ s) as [nd'|]; [|done]. exists nd'. simpl in Es.
    split; [done|]. congruence.
Qed.

Lemma linked_at_linking s s' lv x key prev i h l1 l2 :
  linking s lv x key prev i h → (i < h)%nat → cut s key (lv i) l1 l2 →
  linked_at s s' x (last_or (head_ s) l1) i (head l2) →
  linking s' (set_level lv i (l1 ++ x :: l2)) x key prev (S i) h.
Proof.
  intros Hlk Hi Hc La.
  pose proof (linked_at_shared _ _ _ _ _ _ _ _ _ _ Hlk Hi Hc La) as Hs'.
  pose proof (lk_height _ _ _ _ _ _ _ Hlk) as Hh. pose proof (lk_linked _ _ _ _ _ _ _ Hlk) as Hx.
  assert (Hkey : ∀ n, key_at s' n = key_at s n) by (intros n; apply key_at_shape, La).
  destruct Hc as (E & _ & _). split; [done|..].
  - rewrite (la_shape _ _ _ _ _ _ La). apply Hlk.
  - rewrite (la_head _ _ _ _ _ _ La). apply Hlk.
  - rewrite (la_max _ _ _ _ _ _ La). lia.
  - intros j. unfold set_level. destruct (decide (j = i)) as [->|Hne].
    + split; [lia|]. intros _. apply elem_of_mid.
    + rewrite Hx. lia.
  - intros n Hn Hne. rewrite Hkey. apply (lk_distinct _ _ _ _ _ _ _ Hlk); [|done].
    unfold set_level in Hn. destruct (decide (0%nat = i)) as [<-|]; [|done].
    rewrite E. apply elem_of_app in Hn as [?|[?|?]%elem_of_cons]; [|done|];
      apply elem_of_app; auto.
  - intros j Hj. destruct (lk_prev _ _ _ _ _ _ _ Hlk j) as (l1' & l2' & (E' & H1' & H2') & Hp');
      [lia|]. exists l1', l2'. rewrite (la_head _ _ _ _ _ _ La). split; [|done].
    unfold set_level. rewrite decide_False by lia. split; [done|].
    split; [eapply Forall_impl; [exact H1'|]|eapply Forall_impl; [exact H2'|]];
      intros n; simpl; by rewrite Hkey.
Qed.

(** Stores to links of no list change nothing. *)
Lemma shared_ok_same s s' lv :
  (∀ y j, y ∈ head_ s :: lv j → Next s' y j = Next s y j) → (∀ y, shape s' y = shape s y) →
  head_ s' = head_ s → max_height_ s' = max_height_ s → shared_ok s lv → shared_ok s' lv.
Proof.
  intros Hn Hsh Hh Hm [H1 H2 H3 H4 H5 H6 H7 H8].
  assert (Hnode : ∀ n j nd, nodes s !! n = Some nd → (j < height nd)%nat →
            ∃ nd', nodes s' !! n = Some nd' ∧ height nd' = height nd).
  { intros n j nd En Hj. specialize (Hsh n). unfold shape in Hsh. rewrite En in Hsh.
    destruct (nodes s' !! n) as [nd'|]; [|done]. exists nd'. split; [done|]. simpl in Hsh. congruence. }
  split; rewrite ?Hh, ?Hm; try done.
  - intros i Hi. eapply chain_same; [|by apply H1]. intros y. apply Hn.
  - intros i. apply (sorted_same_keys s); [|done]. intros n _. by apply key_at_shape.
  - intros i n Hin. destruct (H7 i n Hin) as (nd & En & Hi).
    destruct (Hnode _ _ _ En Hi) as (nd' & En' & E). exists nd'. by rewrite E.
  - destruct H8 as (nd & En & E). destruct (Hnode _ 0%nat _ En) as (nd' & En' & E'); [unfold kMaxHeight in E; lia|].
    exists nd'. by rewrite E'.
Qed.

Lemma linking_same s s' lv x key prev i h :
  (∀ y j, y ∈ head_ s :: lv j → Next s' y j = Next s y j) → (∀ y, shape s' y = shape s y) →
  head_ s' = head_ s → max_height_ s' = max_height_ s →
  linking s lv x key prev i h → linking s' lv x key prev i h.
Proof.
  intros Hn Hsh Hh Hm [H1 H2 H3 H4 H5 H6 H7].
  assert (Hkey : ∀ n, key_at s' n = key_at s n) by (intros n; by apply key_at_shape).
  split; rewrite ?Hh, ?Hm, ?Hsh; try done.
  - by apply (shared_ok_same s).
  - intros n. rewrite Hkey. apply H6.
  - intros j Hj. destruct (H7 j Hj) as (l1 & l2 & (E & Hl1 & Hl2) & Hp). exists l1, l2. split; [|done].
    split; [done|]. split; [eapply Forall_impl; [exact Hl1|]|eapply Forall_impl; [exact Hl2|]];
      intros n; simpl; by rewrite Hkey.
Qed.

Lemma SetNext_stored s x n v s' : SetNext s x n v = Some s' → stored s s' x n v.
Proof.
  intros E. assert (∃ k h, shape s x = Some (k, h) ∧ (n < h)%nat) as (k & h & Hsh & Hn).
  { unfold SetNext in E. unfold shape. destruct (nodes s !! x) as [nd|]; [|done]. cbn in E.
    case_match eqn:Hlt; [|done]. apply Nat.ltb_lt in Hlt. by exists (nkey nd), (height nd). }
  destruct (SetNext_ok s x n v k h Hsh Hn) as (s2 & E2 & Hst). congruence.
Qed.

(** The predecessor at a level that is not linked yet, and what comes after it. *)
Lemma linking_prev s lv x key prev i h :
  linking s lv x key prev i h → (i < h)%nat →
  ∃ l1 l2, cut s key (lv i) l1 l2 ∧ prev !! i = Some (last_or (head_ s) l1) ∧
    Next s (last_or (head_ s) l1) i = Some (head l2).
Proof.
  intros Hlk Hi. destruct (lk_prev _ _ _ _ _ _ _ Hlk i) as (l1 & l2 & Hc & Hp); [lia|].
  exists l1, l2. split; [done|]. split; [done|]. destruct Hc as (E & _ & _).
  pose proof (lk_ok _ _ _ _ _ _ _ Hlk) as Hs. pose proof (so_max s lv Hs).
  pose proof (lk_height _ _ _ _ _ _ _ Hlk).
  apply chain_next. destruct (last_or_split (head_ s) l1) as [l' El].
  eapply chain_split; [apply (so_chain s lv Hs); lia|]. rewrite E, app_comm_cons, El, <- app_assoc. done.
Qed.

Lemma chain_unique s i p l l' : chain s i p l → chain s i p l' → l = l'.
Proof.
  revert p l'. induction l as [|q l IH]; intros p [|q' l']; simpl; try done.
  - intros -> [? _]. done.
  - intros [-> _] ?. done.
  - intros [-> Hc] [[= <-] Hc']. f_equal. by eapply IH.
Qed.

Lemma link_level_ok s lv x key prev i h :
  linking s lv x key prev i h → (i < h)%nat →
  ∃ s' l1 l2, link_level s x prev i = Some s' ∧ cut s key (lv i) l1 l2 ∧
    linking s' (set_level lv i (l1 ++ x :: l2)) x key prev (S i) h ∧
    ∀ n, shape s' n = shape s n.
Proof.
  intros Hlk Hi. destruct (lk_prev _ _ _ _ _ _ _ Hlk i) as (l1 & l2 & Hc & Hp); [lia|].
  destruct (link_level_links _ _ _ _ _ _ _ _ _ Hlk Hi Hc Hp) as (s' & Hl & La).
  exists s', l1, l2. split; [done|]. split; [done|]. split; [|apply La].
  by eapply linked_at_linking.
Qed.

(** ** Lemmas: the whole insertion *)

Lemma RandomHeight_bounds rnd : (1 <= fst (RandomHeight rnd) <= kMaxHeight)%nat.
Proof.
  unfold RandomHeight. assert (∀ n h r, (h <= fst (RandomHeight_loop n h r) <= h + n)%nat) as H.
  { induction n as [|n IH]; intros h r; cbn [RandomHeight_loop]; [cbn [fst]; lia|].
    destruct (Random_OneIn 4 r) as [[] r']; cbn [fst]; [|lia]. pose proof (IH (S h) r'). lia. }
  pose proof (H (kMaxHeight - 1)%nat 1%nat rnd). unfold kMaxHeight in *. lia.
Qed.

(** The loop that sets [prev] above the old height. *)
Lemma prev_fill (hd : positive) a n (p : gmap nat positive) j :
  foldl (λ p i, <[i := hd]> p) p (seq a n) !! j
  = if decide (a <= j < a + n)%nat then Some hd else p !! j.
Proof.
  revert a p. induction n as [|n IH]; intros a p; simpl.
  - by rewrite decide_False by lia.
  - rewrite IH. destruct (decide (j = a)) as [->|].
    + rewrite decide_False, decide_True by lia. by rewrite lookup_insert_eq.
    + rewrite lookup_insert_ne by done.
      destruct (decide (S a <= j < S a + n)%nat); [by rewrite decide_True by lia|].
      by rewrite decide_False by lia.
Qed.

Definition no_equal (s : SkipList) (lv : nat → list positive) (key : Key) : Prop :=
  ∀ n, n ∈ lv 0%nat → compare_ (key_at s n) key ≠ 0.

#[local] Instance no_equal_dec s lv key : Decision (no_equal s lv key).
Proof.
  refine (cast_if (decide (Forall (λ n, compare_ (key_at s n) key ≠ 0) (lv 0%nat)))); unfold no_equal;
    by rewrite <- Forall_forall.
Defined.

(** The assertion on the node the search found decides whether an equal key is there. *)
Lemma not_equal_head s lv key l1 l2 :
  shared_ok s lv → cut s key (lv 0%nat) l1 l2 →
  not_equal s key (head l2) = Some (bool_decide (no_equal s lv key)).
Proof.
  intros Hs (E & H1 & H2). rewrite Forall_forall in H1.
  assert (∀ n, n ∈ l1 → compare_ (key_at s n) key ≠ 0) as Hl1 by (intros n Hn; specialize (H1 n Hn); simpl in H1; lia).
  destruct l2 as [|x l2]; cbn [head not_equal].
  - f_equal. symmetry. apply bool_decide_eq_true_2. intros n Hn. rewrite E, app_nil_r in Hn. by apply Hl1.
  - assert (x ∈ lv 0%nat) as Hx by (rewrite E; apply elem_of_mid).
    destruct (so_node s lv Hs 0 x Hx) as (nd & End & _).
    assert (node_key s x = Some (key_at s x)) as -> by (unfold key_at, node_key; by rewrite End).
    cbn [mbind option_bind]. f_equal. unfold Equal.
    pose proof (compare_antisym key (key_at s x)) as Ha.
    destruct (Z.eqb_spec (compare_ key (key_at s x)) 0) as [E0|E0]; symmetry; cbn [negb].
    + apply bool_decide_eq_false_2. intros Hne. apply (Hne x Hx). lia.
    + apply bool_decide_eq_true_2. intros n Hn. rewrite E in Hn.
      apply elem_of_app in Hn as [Hn|[->|Hn]%elem_of_cons]; [by apply Hl1|lia|].
      pose proof (so_sorted s lv Hs 0) as Hso. rewrite E in Hso.
      apply StronglySorted_app_1_r, StronglySorted_inv in Hso as [_ Hso].
      rewrite Forall_forall in Hso. specialize (Hso n Hn). unfold nlt in Hso.
      apply Forall_cons in H2 as [H2 _]. simpl in H2. intros En.
      assert (compare_ (key_at s x) key <= 0) by (apply (compare_trans _ (key_at s n)); lia).
      lia.
Qed.

(** Everything before the new node: searches, height and [max_height_]. *)
Lemma Insert_begin_ok s lv key :
  shared_ok s lv → no_equal s lv key →
  ∃ s' prev h, Insert_begin s key = Some (s', prev, h) ∧
    nodes s' = nodes s ∧ head_ s' = head_ s ∧
    (1 <= h <= kMaxHeight)%nat ∧ (h <= max_height_ s')%nat ∧ shared_ok s' lv ∧
    ∀ j, (j < h)%nat →
      ∃ l1 l2, cut s' key (lv j) l1 l2 ∧ prev !! j = Some (last_or (head_ s') l1).
Proof.
  intros Hs Hne. destruct (FindGreaterOrEqual_prev s lv key Hs) as (nx & p1 & E & (k1 & k2 & Hc & ->) & Hp1).
  unfold Insert_begin. rewrite E. cbn [mbind option_bind]. rewrite (not_equal_head s lv key k1 k2 Hs Hc).
  cbn [mbind option_bind]. rewrite (bool_decide_eq_true_2 _ Hne). cbn [negb].
  pose proof (RandomHeight_bounds (rnd_ s)) as Hh.
  destruct (RandomHeight (rnd_ s)) as [h rnd]. simpl in Hh.
  pose proof (so_max s lv Hs) as Hm.
  eexists _, _, h. split; [done|]. simpl. split; [done|]. split; [done|]. split; [done|].
  split; [destruct (Nat.ltb_spec (max_height_ s) h); lia|]. split.
  - destruct Hs as [Hchain ? ? ? Hhigh ? ? ?]. split; simpl; try done.
    + intros i Hi. eapply chain_same; [|by apply Hchain]. done.
    + destruct (Nat.ltb_spec (max_height_ s) h); lia.
    + intros i Hi. apply Hhigh. destruct (Nat.ltb_spec (max_height_ s) h); lia.
  - intros j Hj. rewrite prev_fill. destruct (decide (max_height_ s <= j)%nat).
    + rewrite decide_True by lia. exists [], []. split; [|done].
      split; [|done]. by apply (so_high s lv Hs).
    + rewrite decide_False by lia. apply Hp1. lia.
Qed.

Lemma Insert_begin_equal s lv key :
  shared_ok s lv → ¬ no_equal s lv key → Insert_begin s key = None.
Proof.
  intros Hs Hne. destruct (FindGreaterOrEqual_prev s lv key Hs) as (nx & p1 & E & (k1 & k2 & Hc & ->) & _).
  unfold Insert_begin. rewrite E. cbn [mbind option_bind]. rewrite (not_equal_head s lv key k1 k2 Hs Hc).
  cbn [mbind option_bind]. by rewrite (bool_decide_eq_false_2 _ Hne).
Qed.

Lemma Insert_begin_max s key s' prev h :
  Insert_begin s key = Some (s', prev, h) → (max_height_ s <= max_height_ s')%nat.
Proof.
  unfold Insert_begin. intros ([x p] & _ & (p2 & _ & ([] & _ & E)%bind_Some)%bind_Some)%bind_Some; [|done].
  cbn [negb] in E.
  destruct (RandomHeight (rnd_ s)) as [h2 rnd]. injection E as <- _ _. simpl.
  destruct (Nat.ltb_spec (max_height_ s) h2); lia.
Qed.

(** The new node, not linked anywhere yet. *)
Lemma Insert_new_ok s lv key prev h :
  shared_ok s lv → no_equal s lv key → (1 <= h <= max_height_ s)%nat →
  (∀ j, (j < h)%nat → ∃ l1 l2, cut s key (lv j) l1 l2 ∧ prev !! j = Some (last_or (head_ s) l1)) →
  let (x, s') := Insert_new s key h in
  linking s' lv x key prev 0 h ∧ nodes s !! x = None ∧ head_ s' = head_ s ∧
  ∀ n, n ≠ x → shape s' n = shape s n.
Proof.
  intros Hs Hne Hh Hprev. unfold Insert_new, NewNode. set (x := fresh (dom (nodes s))).
  assert (nodes s !! x = None) as Hx by (apply not_elem_of_dom, is_fresh).
  set (s' := {| nodes := _; head_ := _; max_height_ := _; rnd_ := _ |}).
  assert (Hin : ∀ n i, n ∈ lv i → n ≠ x).
  { intros n i Hn ->. destruct (so_node s lv Hs i x Hn) as (nd & E & _). congruence. }
  assert (Hhd : head_ s ≠ x).
  { intros E. destruct (so_head_node s lv Hs) as (nd & En & _). congruence. }
  assert (Hlk : ∀ n, n ≠ x → nodes s' !! n = nodes s !! n)
    by (intros n Hn; apply lookup_insert_ne; congruence).
  assert (Hsh : ∀ n, n ≠ x → shape s' n = shape s n) by (intros n Hn; unfold shape; by rewrite Hlk).
  assert (Hkey : ∀ n i, n ∈ lv i → key_at s' n = key_at s n)
    by (intros n i Hn; by eapply key_at_shape, Hsh, Hin).
  split_and!; [|done|done|done]. split; simpl; try (done || lia).
  - destruct Hs as [Hc Hso Hsub Hmax Hhigh Hhead Hnode Hhn]. split; simpl; try done.
    + intros i Hi. eapply chain_same; [|by apply Hc].
      intros y Hy. unfold Next. rewrite Hlk; [done|].
      apply elem_of_cons in Hy as [->|Hy]; [done|by eapply Hin].
    + intros i. apply (sorted_same_keys s); [intros n; apply Hkey|done].
    + intros i n Hn. rewrite Hlk by (by eapply Hin). by apply Hnode.
    + by rewrite Hlk.
  - unfold shape. subst s'. simpl. by rewrite lookup_insert_eq.
  - intros j. split; [|lia]. intros Hj. by destruct (Hin x j).
  - intros n Hn _. rewrite (Hkey n 0%nat Hn). by apply Hne.
  - intros j [_ Hj]. destruct (Hprev j Hj) as (l1 & l2 & (E & H1 & H2) & Hp).
    exists l1, l2. split; [|done]. split; [done|].
    rewrite Forall_forall in H1, H2. split; apply Forall_forall; intros n Hn;
      rewrite (Hkey n j) by (rewrite E; apply elem_of_app; auto); auto.
Qed.

(** The loop links the remaining levels. *)
Lemma link_ok n s lv x key prev i h :
  linking s lv x key prev i h → (i + n = h)%nat →
  ∃ s' lv', link s x prev i n = Some s' ∧ linking s' lv' x key prev h h ∧
    (∀ m, shape s' m = shape s m) ∧
    (∀ j, (i <= j < h)%nat → ∃ l1 l2, cut s key (lv j) l1 l2 ∧ lv' j = l1 ++ x :: l2) ∧
    (∀ j, ¬ (i <= j < h)%nat → lv' j = lv j).
Proof.
  revert s lv i. induction n as [|n IH]; intros s lv i Hlk Hn; cbn [link].
  - exists s, lv. replace h with i in * by lia.
    split_and!; try done. intros j Hj. lia.
  - destruct (link_level_ok _ _ _ _ _ _ _ Hlk) as (s1 & l1 & l2 & -> & Hc & Hlk1 & Hsh1); [lia|].
    cbn [mbind option_bind].
    destruct (IH s1 _ (S i) Hlk1) as (s2 & lv2 & -> & Hlk2 & Hsh2 & Hin & Hout); [lia|].
    exists s2, lv2. split; [done|]. split; [done|].
    split; [intros m; by rewrite Hsh2, Hsh1|]. split.
    + intros j Hj. destruct (decide (j = i)) as [->|Hne].
      * exists l1, l2. split; [done|]. rewrite Hout by lia. unfold set_level.
        by rewrite decide_True.
      * destruct (Hin j) as (k1 & k2 & (E & H1 & H2) & E2); [lia|].
        exists k1, k2. split; [|done]. unfold set_level in E. rewrite decide_False in E by done.
        split; [done|]. split; [eapply Forall_impl; [exact H1|]|eapply Forall_impl; [exact H2|]];
          intros y; simpl; by rewrite (key_at_shape _ _ _ (Hsh1 y)).
    + intros j Hj. rewrite Hout by lia. unfold set_level. rewrite decide_False; [done|lia].
Qed.

Lemma Insert_ok s lv key :
  shared_ok s lv → quiescent s lv → no_equal s lv key →
  ∃ s' lv' x l1 l2, Insert s key = Some s' ∧ shared_ok s' lv' ∧ quiescent s' lv' ∧
    cut s key (lv 0%nat) l1 l2 ∧ lv' 0%nat = l1 ++ x :: l2 ∧ key_at s' x = key ∧
    (∀ n, n ∈ lv 0%nat → key_at s' n = key_at s n).
Proof.
  intros Hs Hq Hne. unfold Insert.
  destruct (Insert_begin_ok s lv key Hs Hne) as (s0 & prev & h & -> & En & Eh & Hh & Hm & Hs0 & Hprev).
  cbn [mbind option_bind].
  assert (Hk0 : ∀ n, key_at s0 n = key_at s n) by (intros n; unfold key_at, node_key; by rewrite En).
  assert (no_equal s0 lv key) as Hne0 by (intros n Hn; rewrite Hk0; by apply Hne).
  pose proof (Insert_new_ok s0 lv key prev h Hs0 Hne0 ltac:(lia) Hprev) as Hnew.
  destruct (Insert_new s0 key h) as [x s1]. destruct Hnew as (Hlk & Hx & Eh1 & Hsh1).
  destruct (link_ok h s1 lv x key prev 0 h Hlk) as (s2 & lv2 & El & Hlk2 & Hsh2 & Hin & Hout); [lia|].
  assert (Hxin : ∀ n i, n ∈ lv i → n ≠ x).
  { intros n i Hn ->. destruct (so_node s0 lv Hs0 i x Hn) as (nd & E & _). congruence. }
  assert (Hkey1 : ∀ n, n ∈ lv 0%nat → key_at s1 n = key_at s n).
  { intros n Hn. rewrite (key_at_shape _ _ _ (Hsh1 n (Hxin n 0%nat Hn))). apply Hk0. }
  destruct (Hin 0%nat) as (l1 & l2 & (E & H1 & H2) & E2); [lia|].
  exists s2, lv2, x, l1, l2. split; [done|]. split; [apply Hlk2|]. split.
  - intros n nd i Hn Hnd.
    assert (shape s1 n = Some (nkey nd, height nd)) as Hs1.
    { rewrite <- Hsh2. unfold shape. by rewrite Hnd. }
    destruct (decide (n = x)) as [->|Hnx].
    + rewrite (lk_shape _ _ _ _ _ _ _ Hlk) in Hs1. injection Hs1 as _ <-.
      split; [lia|]. apply (lk_linked _ _ _ _ _ _ _ Hlk2).
    + rewrite Hsh1 in Hs1 by done. unfold shape in Hs1. rewrite En in Hs1.
      destruct (nodes s !! n) as [nd0|] eqn:Hnd0; [|done]. simpl in Hs1. injection Hs1 as _ <-.
      assert (Hmem : ∀ j, n ∈ lv2 j ↔ n ∈ lv j).
      { intros j. destruct (decide (j < h)%nat).
        - destruct (Hin j) as (k1 & k2 & (Ej & _) & ->); [lia|]. rewrite Ej, !elem_of_app, elem_of_cons.
          tauto.
        - by rewrite Hout by lia. }
      rewrite Hmem in *. by apply Hq.
  - split; [|split; [done|]].
    + split; [done|]. rewrite Forall_forall in H1, H2.
      split; apply Forall_forall; intros n Hn; rewrite <- Hkey1 by (rewrite E; apply elem_of_app; auto);
        auto.
    + split; [|intros n Hn; rewrite (key_at_shape _ _ _ (Hsh2 n)); by apply Hkey1].
      rewrite (key_at_shape _ _ _ (Hsh2 x)).
      apply (shape_key_at s1 x key h), (lk_shape _ _ _ _ _ _ _ Hlk).
Qed.

(** ** Specification: a sorted list of keys *)

(** [s] is a finished skip list with keys [ks]. *)
Definition Repr (s : SkipList) (ks : list Key) : Prop :=
  ∃ lv, shared_ok s lv ∧ quiescent s lv ∧ ks = key_at s <$> lv 0%nat.

Fixpoint insert_key (key : Key) (ks : list Key) : list Key :=
  match ks with
  | [] => [key]
  | k :: ks' => if compare_ k key <? 0 then k :: insert_key key ks' else key :: ks
  end.

(** The number of keys before [key], in a sorted list: the position of the
    first one that is not. *)
Fixpoint count_lt (key : Key) (ks : list Key) : nat :=
  match ks with
  | [] => 0
  | k :: ks => if compare_ k key <? 0 then S (count_lt key ks) else 0
  end.

Lemma cut_count s key l l1 l2 :
  cut s key l l1 l2 →
  count_lt key (key_at s <$> l) = length l1 ∧ l1 = take (length l1) l ∧
  insert_key key (key_at s <$> l) = (key_at s <$> l1) ++ key :: (key_at s <$> l2).
Proof.
  intros (-> & H1 & H2). rewrite take_app_length. split_and!; [|done|].
  - induction H1 as [|n l1 Hn _ IH]; simpl.
    + destruct H2 as [|n l2 Hn _]; simpl; [done|]. destruct (Z.ltb_spec (compare_ (key_at s n) key) 0); lia.
    + rewrite (proj2 (Z.ltb_lt _ _) Hn). by f_equal.
  - induction H1 as [|n l1 Hn _ IH]; simpl.
    + destruct H2 as [|n l2 Hn _]; simpl; [done|].
      destruct (Z.ltb_spec (compare_ (key_at s n) key) 0); [lia|done].
    + rewrite (proj2 (Z.ltb_lt _ _) Hn). by f_equal.
Qed.

Lemma head_drop {A} n (l : list A) : head (drop n l) = l !! n.
Proof. revert l. induction n; intros [|x l]; simpl; done. Qed.

Lemma cut_head s key l l1 l2 : cut s key l l1 l2 → head l2 = l !! length l1.
Proof. intros (-> & _). by rewrite <- (head_drop (length l1)), drop_app_length. Qed.

Lemma SkipList_new_shared : ∃ s, SkipList_new = Some s ∧ shared_ok s (λ _, []).
Proof.
  eexists. split; [vm_compute; reflexivity|].
  assert (Hnil : ∀ n : positive, n ∉ []) by (intros n; apply not_elem_of_nil).
  split; simpl; try (intros; by apply Hnil); try done.
  - intros i Hi. unfold kMaxHeight in Hi. do 12 (destruct i as [|i]; [by vm_compute|]). lia.
  - constructor.
  - unfold kMaxHeight. lia.
  - intros i n Hn. by destruct (Hnil n).
  - by eexists.
Qed.

Lemma Repr_new : ∃ s, SkipList_new = Some s ∧ Repr s [].
Proof.
  destruct SkipList_new_shared as (s & E & Hs). exists s. split; [done|]. exists (λ _, []).
  split; [done|]. split; [|done]. intros n nd i Hn. destruct (not_elem_of_nil _ Hn).
Qed.

Lemma Repr_sorted s ks : Repr s ks → StronglySorted (λ a b, compare_ a b < 0) ks.
Proof.
  intros (lv & Hs & _ & ->). generalize (so_sorted s lv Hs 0). generalize (lv 0%nat) as l.
  induction 1 as [|n l Hl IH Hn]; simpl; constructor; [done|].
  rewrite Forall_forall in Hn. apply Forall_forall. intros k (m & -> & Hm)%list_elem_of_fmap. by apply Hn.
Qed.

(** The successor of the [i]-th node. *)
Lemma chain_lookup s i p l j x :
  chain s i p l → l !! j = Some x → Next s x i = Some (l !! S j).
Proof.
  intros Hc Hj. rewrite <- head_drop. apply chain_next.
  eapply (chain_split _ _ _ _ (p :: take j l)); [exact Hc|].
  simpl. f_equal. by rewrite <- (take_drop_middle l j x Hj) at 1.
Qed.

(** Cutting at the key of the [i]-th node. *)
Lemma cut_at s l i x :
  StronglySorted (nlt s) l → l !! i = Some x → cut s (key_at s x) l (take i l) (drop i l).
Proof.
  intros Hs Hi. split; [by rewrite take_drop|].
  rewrite <- (take_drop_middle l i x Hi) in Hs. apply sorted_app_lt in Hs as [H1 H2].
  split; [done|]. rewrite (drop_S l x i Hi). constructor; [rewrite compare_refl; lia|].
  eapply Forall_impl; [exact H2|]. intros n Hn. unfold nlt in Hn.
  pose proof (compare_antisym (key_at s x) (key_at s n)). lia.
Qed.

(** ** Readers and a writer running concurrently *)

(** Where the writer stands inside [Insert]. *)
Inductive wstate :=
  | WIdle
  | WNew (key : Key) (prev : gmap nat positive) (h : nat)
      (* [max_height_] stored, the node not allocated *)
  | WLink (x : positive) (key : Key) (prev : gmap nat positive) (i h : nat).
      (* levels below [i] linked *)

Record config := {
  shared : SkipList;
  writer : wstate;
  readers : list (Key * search) }.

(** One load of a reader, or one publishing store of the writer, at a time. *)
Inductive step : config → config → Prop :=
  | step_begin c key s' prev h :
      writer c = WIdle → Contains (shared c) key = Some false →
      Insert_begin (shared c) key = Some (s', prev, h) →
      step c {| shared := s'; writer := WNew key prev h; readers := readers c |}
  | step_new c key prev h x s' :
      writer c = WNew key prev h → Insert_new (shared c) key h = (x, s') →
      step c {| shared := s'; writer := WLink x key prev 0 h; readers := readers c |}
  | step_link c x key prev i h s' :
      writer c = WLink x key prev i h → (i < h)%nat →
      link_level (shared c) x prev i = Some s' →
      step c {| shared := s'; writer := WLink x key prev (S i) h; readers := readers c |}
  | step_end c x key prev h :
      writer c = WLink x key prev h h →
      step c {| shared := shared c; writer := WIdle; readers := readers c |}
  | step_seek c key :
      step c {| shared := shared c; writer := writer c;
                readers := readers c ++ [(key, start (shared c) None)] |}
  | step_read c j key st st' :
      readers c !! j = Some (key, st) →
      search_step no_assertion (KeyIsAfterNode key) (shared c) st = Some (inl st') →
      step c {| shared := shared c; writer := writer c;
                readers := <[j := (key, st')]> (readers c) |}
  | step_done c j key st r :
      readers c !! j = Some (key, st) →
      search_step no_assertion (KeyIsAfterNode key) (shared c) st = Some (inr r) →
      step c {| shared := shared c; writer := writer c; readers := delete j (readers c) |}.

Definition config_new (s : SkipList) : config := {| shared := s; writer := WIdle; readers := [] |}.

Definition writer_ok (s : SkipList) (lv : nat → list positive) (w : wstate) : Prop :=
  match w with
  | WIdle => True
  | WNew key prev h =>
      no_equal s lv key ∧ (1 <= h <= max_height_ s)%nat ∧
      ∀ j, (j < h)%nat → ∃ l1 l2, cut s key (lv j) l1 l2 ∧ prev !! j = Some (last_or (head_ s) l1)
  | WLink x key prev i h => linking s lv x key prev i h
  end.

Definition before (s : SkipList) (key : Key) (n : positive) : Prop :=
  compare_ (key_at s n) key < 0.

Definition config_ok (c : config) (lv : nat → list positive) : Prop :=
  shared_ok (shared c) lv ∧ writer_ok (shared c) lv (writer c) ∧
  ∀ j key st, readers c !! j = Some (key, st) →
    position_ok (shared c) lv (before (shared c) key) st.

(** Positions stay good when nodes are added. *)
Lemma position_mono s s' lv lv' key st :
  head_ s' = head_ s → (∀ i n, n ∈ lv i → n ∈ lv' i ∧ key_at s' n = key_at s n) →
  position_ok s lv (before s key) st → position_ok s' lv' (before s' key) st.
Proof.
  intros Hh Hmono (Hl & Hin & Hcur). unfold position_ok, before. rewrite Hh.
  split; [done|]. apply elem_of_cons in Hin as [->|Hin].
  - split; [apply elem_of_cons; by left|by left].
  - destruct (Hmono _ _ Hin) as [Hin' Hk]. split; [apply elem_of_cons; by right|].
    rewrite Hk. exact Hcur.
Qed.

Lemma position_search_step s lv key st :
  shared_ok s lv → position_ok s lv (before s key) st →
  match search_step no_assertion (KeyIsAfterNode key) s st with
  | None => False
  | Some (inl st') => position_ok s lv (before s key) st'
  | Some (inr (x, next, _)) =>
      ∃ l1 l2, cut s key (lv 0%nat) l1 l2 ∧ x = last_or (head_ s) l1 ∧ next = head l2
  end.
Proof.
  intros Hs Hpos.
  pose proof (search_step_ok s lv _ _ _ st Hs (key_search_pred s lv key Hs) Hpos) as H.
  destruct (search_step _ _ s st) as [[st'|[[x nx] pv]]|]; [by destruct H| |done].
  destruct H as (_ & _ & Hf & _). by apply found_cut in Hf.
Qed.

Lemma Contains_not_equal s lv key :
  shared_ok s lv → Contains s key = Some (negb (bool_decide (no_equal s lv key))).
Proof.
  intros Hs. destruct (FindGreaterOrEqual_ok s lv key Hs) as (l1 & l2 & Hc & HF & _).
  pose proof (not_equal_head s lv key l1 l2 Hs Hc) as H.
  unfold Contains. rewrite HF. cbn [mbind option_bind]. unfold not_equal in H.
  destruct (head l2) as [x|]; [|by injection H as <-].
  destruct (node_key s x) as [k|]; [|done]. cbn [mbind option_bind] in *. injection H as <-.
  by rewrite negb_involutive.
Qed.

Lemma Contains_ok s lv key :
  shared_ok s lv →
  ∃ b, Contains s key = Some b ∧
       (b = true ↔ ∃ n, n ∈ lv 0%nat ∧ compare_ (key_at s n) key = 0).
Proof.
  intros Hs. exists (negb (bool_decide (no_equal s lv key))). split; [by apply Contains_not_equal|].
  rewrite negb_true_iff, bool_decide_eq_false. split.
  - intros Hne. unfold no_equal in Hne. rewrite <- (Forall_forall (λ n, compare_ (key_at s n) key ≠ 0)) in Hne.
    apply not_Forall_Exists, Exists_exists in Hne as (n & Hn & E0); [|apply _].
    exists n. split; [done|by apply dec_stable].
  - intros (n & Hn & E0) Hne. by apply (Hne n Hn).
Qed.

(** The assertion of [Insert] fails exactly when [Contains] finds the key. *)
Lemma Contains_Insert_begin s lv key :
  shared_ok s lv → ∃ b, Contains s key = Some b ∧ (is_Some (Insert_begin s key) ↔ b = false).
Proof.
  intros Hs. exists (negb (bool_decide (no_equal s lv key))). split; [by apply Contains_not_equal|].
  case_bool_decide as Hne; cbn [negb].
  - destruct (Insert_begin_ok s lv key Hs Hne) as (s' & p & h & -> & _). split; [done|by eexists].
  - rewrite (Insert_begin_equal s lv key Hs Hne). split; [by intros []|done].
Qed.

Lemma Contains_false s lv key : shared_ok s lv → Contains s key = Some false → no_equal s lv key.
Proof.
  intros Hs. rewrite (Contains_not_equal s lv key Hs). intros [= H].
  by apply negb_false_iff, bool_decide_eq_true in H.
Qed.

Lemma linking_grows s s' lv x key prev i h l1 l2 :
  linking s lv x key prev i h → cut s key (lv i) l1 l2 →
  linking s' (set_level lv i (l1 ++ x :: l2)) x key prev (S i) h →
  (∀ n, shape s' n = shape s n) →
  ∀ j n, n ∈ lv j → n ∈ set_level lv i (l1 ++ x :: l2) j ∧ key_at s' n = key_at s n.
Proof.
  intros _ (E & _) _ Hsh j n Hn. split; [|apply key_at_shape, Hsh].
  unfold set_level. destruct (decide (j = i)) as [->|]; [|done].
  rewrite E in Hn. apply elem_of_app in Hn as [?|?]; apply elem_of_app; [by left|right].
  apply elem_of_cons. by right.
Qed.

Lemma SetNext_head s x n v s' : SetNext s x n v = Some s' → head_ s' = head_ s.
Proof.
  unfold SetNext. intros (nd & _ & H)%bind_Some. destruct (n <? height nd)%nat; [|done].
  by injection H as <-.
Qed.

Lemma link_level_head s x prev i s' : link_level s x prev i = Some s' → head_ s' = head_ s.
Proof.
  intros (p & _ & (nx & _ & (s1 & H1 & H2)%bind_Some)%bind_Some)%bind_Some.
  by rewrite (SetNext_head _ _ _ _ _ H2), (SetNext_head _ _ _ _ _ H1).
Qed.

Lemma step_ok c c' lv : config_ok c lv → step c c' → ∃ lv', config_ok c' lv'.
Proof.
  intros (Hs & Hw & Hr) Hst.
  destruct Hst as [c key s' prev h Ew Ec Eb|c key prev h x s' Ew En|c x key prev i h s' Ew Hi El
    |c x key prev h Ew|c key|c j key st st' Ej Es|c j key st r Ej Es]; try rewrite Ew in Hw.
  - pose proof (Contains_false _ lv key Hs Ec) as Hne.
    destruct (Insert_begin_ok _ lv key Hs Hne) as (s2 & p2 & h2 & E2 & Hn & Hh & Hb & Hm & Hs2 & Hp).
    rewrite Eb in E2. injection E2 as <- <- <-. exists lv.
    assert (Hk : ∀ n, key_at s' n = key_at (shared c) n)
      by (intros n; unfold key_at, node_key; by rewrite Hn).
    split; [done|]. split; simpl.
    + split; [|split; [lia|done]]. intros n Hin. rewrite Hk. by apply Hne.
    + intros j k st Hj. apply (position_mono (shared c) _ lv); [done| |by eapply Hr]. auto.
  - destruct Hw as (Hne & Hh & Hp). exists lv.
    pose proof (Insert_new_ok (shared c) lv key prev h Hs Hne Hh Hp) as H. rewrite En in H.
    destruct H as (Hlk & Hx & Hhd & Hsh). split; [apply Hlk|]. split; [done|]. simpl.
    intros j k st Hj. apply (position_mono (shared c) _ lv); [done| |by eapply Hr].
    intros i n Hn. split; [done|]. apply key_at_shape, Hsh. intros ->.
    destruct (so_node _ lv Hs i x Hn) as (nd & E & _). congruence.
  - destruct (link_level_ok _ lv x key prev i h Hw Hi) as (s2 & l1 & l2 & E2 & Hc & Hlk & Hsh).
    rewrite El in E2. injection E2 as <-. eexists. split; [apply Hlk|]. split; [done|]. simpl.
    intros j k st Hj.
    apply (position_mono (shared c) _ lv); [by eapply link_level_head| |by eapply Hr].
    by eapply linking_grows.
  - exists lv. split; [exact Hs|]. split; [done|]. exact Hr.
  - exists lv. split; [done|]. split; [done|]. simpl. intros j k st Hj.
    apply lookup_app_Some in Hj as [Hj|[_ Hj]]; [by eapply Hr|].
    apply list_lookup_singleton_Some in Hj as [_ [= <- <-]]. by apply start_ok.
  - exists lv. split; [done|]. split; [done|]. simpl. intros j' k st0 Hj.
    apply list_lookup_insert_Some in Hj as [(-> & [= <- <-] & _)|[_ Hj]]; [|by eapply Hr].
    pose proof (position_search_step _ lv key st Hs (Hr _ _ _ Ej)) as H. by rewrite Es in H.
  - exists lv. split; [done|]. split; [done|]. simpl. intros j' k st0 Hj.
    rewrite list_lookup_delete in Hj. case_match; by eapply Hr.
Qed.

Lemma steps_ok s c : Repr s [] → rtc step (config_new s) c → ∃ lv, config_ok c lv.
Proof.
  intros (lv0 & Hs & _) Hrtc.
  assert (config_ok (config_new s) lv0) as Hok by (split; [done|]; split; [done|]; by intros).
  clear Hs. revert lv0 Hok. induction Hrtc as [c|c1 c2 c3 H12 _ IH]; intros lv Hok; [by exists lv|].
  destruct (step_ok c1 c2 lv Hok H12) as [lv2 H2]. by eapply IH.
Qed.

Lemma insert_key_Permutation key ks : insert_key key ks ≡ₚ key :: ks.
Proof.
  induction ks as [|k ks IH]; simpl; [done|]. destruct (compare_ k key <? 0); [|done].
  rewrite IH. apply Permutation_swap.
Qed.

Lemma Repr_insert s ks key :
  Repr s ks → Forall (λ k, compare_ k key ≠ 0) ks →
  ∃ s', Insert s key = Some s' ∧ Repr s' (insert_key key ks).
Proof.
  intros (lv & Hs & Hq & ->) Hne.
  destruct (Insert_ok s lv key Hs Hq) as (s' & lv' & x & l1 & l2 & E & Hs' & Hq' & Hc & El & Hk & Hkeys).
  { intros n Hn. rewrite Forall_forall in Hne. apply Hne. by apply list_elem_of_fmap_2. }
  exists s'. split; [done|]. exists lv'. split; [done|]. split; [done|].
  destruct (cut_count _ _ _ _ _ Hc) as (_ & _ & ->). rewrite El, fmap_app, fmap_cons, Hk.
  destruct Hc as [Elv _]. f_equal; [|f_equal]; apply list_fmap_ext; intros i n Hi; symmetry;
    apply Hkeys; rewrite Elv; apply elem_of_app; apply list_elem_of_lookup_2 in Hi; auto.
Qed.

(** ** Properties *)

(** C2: a new list is empty, and inserting a key that compares equal to none of
    the list's keys succeeds (no uninitialised or out-of-range link is touched and
    the search loops end) and leaves a well-formed skip list - every node
    linked at exactly the levels below its height, every level sorted - whose
    keys are the old ones with the new one at its sorted place.  Inserting a key
    that is in the list fails the assertion against duplicates. *)
Theorem SkipList_Insert_sorted :
  (∃ s, SkipList_new = Some s ∧ Repr s []) ∧
  (∀ s ks key, Repr s ks → Forall (λ k, compare_ k key ≠ 0) ks →
    ∃ s', Insert s key = Some s' ∧ Repr s' (insert_key key ks) ∧
      StronglySorted (λ a b, compare_ a b < 0) (insert_key key ks) ∧
      insert_key key ks ≡ₚ key :: ks) ∧
  (∀ s ks key, Repr s ks → ¬ Forall (λ k, compare_ k key ≠ 0) ks → Insert s key = None).
Proof.
  split; [exact Repr_new|]. split.
  2:{ intros s ks key (lv & Hs & _ & ->) Hne. unfold Insert. rewrite (Insert_begin_equal s lv key Hs); [done|].
      intros H. apply Hne, Forall_forall. intros k (n & -> & Hn)%list_elem_of_fmap. by apply H. }
  intros s ks key Hr Hne.
  destruct (Repr_insert s ks key Hr Hne) as (s' & E & Hr'). exists s'. split; [done|].
  split; [done|]. split; [by eapply Repr_sorted|apply insert_key_Permutation].
Qed.

(** [Contains] terminates and answers whether some key of the list
    compares equal. *)
Theorem SkipList_Contains_spec s ks key :
  Repr s ks →
  ∃ b, Contains s key = Some b ∧ (b = true ↔ ∃ k, k ∈ ks ∧ compare_ k key = 0).
Proof.
  intros (lv & Hs & _ & ->). destruct (Contains_ok s lv key Hs) as (b & E & Hb).
  exists b. split; [done|]. rewrite Hb. split.
  - intros (n & Hn & E0). exists (key_at s n). split; [|done]. by apply list_elem_of_fmap_2.
  - intros (k & (n & -> & Hn)%list_elem_of_fmap & E0). by exists n.
Qed.

(** Where [Seek] goes. *)
Lemma Iterator_Seek_key s ks target :
  Repr s ks → ∃ it, Iterator_Seek s target = Some it ∧ Iterator_key s it = ks !! count_lt target ks.
Proof.
  intros (lv & Hs & _ & ->). unfold Iterator_Seek.
  destruct (FindGreaterOrEqual_ok s lv target Hs) as (l1 & l2 & Hcut & -> & _). simpl.
  eexists. split; [done|]. destruct (cut_count _ _ _ _ _ Hcut) as (-> & _).
  rewrite (cut_head _ _ _ _ _ Hcut), list_lookup_fmap. unfold Iterator_key.
  destruct (lv 0%nat !! length l1) as [n|] eqn:E; [|done]. simpl. unfold key_at.
  destruct (so_node s lv Hs 0 n) as (nd & End & _); [by eapply list_elem_of_lookup_2|].
  unfold node_key. by rewrite End.
Qed.

(** C27: the iterator is a cursor over the sorted keys: [node_ i] stands for the
    [i]-th position (not valid past the end), and every operation moves to the
    position it should, [Seek] to the first key not before the target, [Prev] by
    a fresh search. *)
Theorem SkipList_Iterator_spec s ks :
  Repr s ks →
  ∃ node_ : nat → option positive,
    (∀ i, Iterator_Valid (node_ i) = bool_decide (i < length ks)%nat) ∧
    (∀ i, Iterator_key s (node_ i) = ks !! i) ∧
    Iterator_SeekToFirst s = Some (node_ 0%nat) ∧
    Iterator_SeekToLast s = Some (node_ (length ks - 1)%nat) ∧
    (∀ target, Iterator_Seek s target = Some (node_ (count_lt target ks))) ∧
    (∀ i, (i < length ks)%nat → Iterator_Next s (node_ i) = Some (node_ (S i))) ∧
    (∀ i, (i < length ks)%nat →
       Iterator_Prev s (node_ i) = Some (if decide (i = 0%nat) then None else node_ (i - 1)%nat)).
Proof.
  intros (lv & Hs & _ & ->). set (l := lv 0%nat). exists (λ i, l !! i). rewrite length_fmap.
  pose proof (so_chain s lv Hs 0 ltac:(unfold kMaxHeight; lia)) as Hc.
  assert (Hlast : ∀ k, (k <= length l)%nat →
    (if decide (last_or (head_ s) (take k l) = head_ s) then None
     else Some (last_or (head_ s) (take k l))) = if decide (k = 0%nat) then None else l !! (k - 1)%nat).
  { intros k Hk. destruct k as [|k]; [by rewrite decide_True|].
    destruct (lookup_lt_is_Some_2 l k) as [x Hx]; [lia|].
    rewrite (take_S_r l k x Hx). unfold last_or. rewrite last_snoc. simpl.
    rewrite Nat.sub_0_r, Hx, decide_False; [done|]. intros ->.
    apply (so_head s lv Hs 0). by eapply list_elem_of_lookup_2. }
  split_and!.
  - intros i. unfold Iterator_Valid. destruct (l !! i) eqn:E.
    + apply lookup_lt_Some in E. by rewrite bool_decide_true.
    + apply lookup_ge_None in E. rewrite bool_decide_false; [done|lia].
  - intros i. rewrite list_lookup_fmap. unfold Iterator_key.
    destruct (l !! i) as [n|] eqn:E; [|done]. simpl. unfold key_at.
    destruct (so_node s lv Hs 0 n) as (nd & End & _); [by eapply list_elem_of_lookup_2|].
    unfold node_key. by rewrite End.
  - unfold Iterator_SeekToFirst. rewrite (chain_next _ _ _ _ Hc). by destruct (lv 0%nat).
  - unfold Iterator_SeekToLast. rewrite (FindLast_ok s lv Hs). cbn [mbind option_bind]. f_equal.
    fold l. specialize (Hlast (length l) ltac:(lia)). rewrite take_ge in Hlast by lia.
    rewrite Hlast. destruct l; simpl; done.
  - intros target. unfold Iterator_Seek.
    destruct (FindGreaterOrEqual_ok s lv target Hs) as (l1 & l2 & Hcut & -> & _). simpl.
    fold l in Hcut. destruct (cut_count _ _ _ _ _ Hcut) as (-> & _).
    by rewrite (cut_head _ _ _ _ _ Hcut).
  - intros i Hi. destruct (lookup_lt_is_Some_2 l i Hi) as [x Hx]. rewrite Hx.
    exact (chain_lookup s 0 _ _ _ _ Hc Hx).
  - intros i Hi. destruct (lookup_lt_is_Some_2 l i Hi) as [x Hx]. rewrite Hx.
    destruct (so_node s lv Hs 0 x) as (nd & End & _); [by eapply list_elem_of_lookup_2|].
    destruct (FindGreaterOrEqual_ok s lv (key_at s x) Hs) as (l1 & l2 & Hcut & _ & HF).
    destruct (cut_unique _ _ _ _ _ _ _ Hcut (cut_at _ _ _ _ (so_sorted s lv Hs 0) Hx)) as [-> ->].
    unfold Iterator_Prev, node_key. cbn [mbind option_bind]. rewrite End.
    cbn [fmap option_fmap option_map mbind option_bind].
    assert (key_at s x = nkey nd) as Ek by (unfold key_at, node_key; by rewrite End).
    rewrite <- Ek, HF. cbn [mbind option_bind]. f_equal. apply Hlast. lia.
Qed.

(** One writer inserting keys, each store to shared memory a step of its own,
    and any number of concurrent searches, each load a step of its own: in every
    reachable state the lowest level is a strictly sorted list, the writer's next
    step cannot fail, no reader ever touches an uninitialised link, and a reader
    about to finish returns the first node not before its key, and the one before
    it, in the list as it is at that moment. *)
Theorem SkipList_concurrent_readers s c :
  SkipList_new = Some s → rtc step (config_new s) c →
  ∃ l, chain (shared c) 0 (head_ (shared c)) l ∧ StronglySorted (nlt (shared c)) l ∧
    match writer c with
    | WIdle => ∀ key, ∃ b, Contains (shared c) key = Some b ∧ (is_Some (Insert_begin (shared c) key) ↔ b = false)
    | WNew _ _ _ => True
    | WLink x key prev i h =>
        (i <= h)%nat ∧ ((i < h)%nat → is_Some (link_level (shared c) x prev i))
    end ∧
    ∀ j key st, readers c !! j = Some (key, st) →
      match search_step no_assertion (KeyIsAfterNode key) (shared c) st with
      | None => False
      | Some (inl _) => True
      | Some (inr (x, next, _)) =>
          ∃ l1 l2, cut (shared c) key l l1 l2 ∧ x = last_or (head_ (shared c)) l1 ∧ next = head l2
      end.
Proof.
  intros Hnew Hrtc. destruct Repr_new as (s' & Hnew' & Hr).
  rewrite Hnew in Hnew'. injection Hnew' as <-.
  destruct (steps_ok s c Hr Hrtc) as (lv & Hs & Hw & Hrd). exists (lv 0%nat).
  split; [apply (so_chain _ _ Hs); unfold kMaxHeight; lia|].
  split; [apply (so_sorted _ _ Hs)|]. split.
  - destruct (writer c) as [|key prev h|x key prev i h]; [|done|].
    + intros key. by apply (Contains_Insert_begin _ lv).
    + split; [apply Hw|]. intros Hi.
      destruct (link_level_ok _ _ _ _ _ _ _ Hw Hi) as (s2 & _ & _ & -> & _). by eexists.
  - intros j key st Hj. pose proof (position_search_step _ lv key st Hs (Hrd _ _ _ Hj)) as H.
    by destruct (search_step _ _ _ _) as [[|[[??]?]]|].
Qed.
End SkipList.

(** ** Witnesses: integer keys, as in test/test_skiplist.cpp *)

Definition int_compare (a b : Z) : Z := if a <? b then -1 else if b <? a then 1 else 0.

#[export] Instance int_compare_order : KeyOrder int_compare.
Proof.
  split; unfold int_compare; intros;
    repeat match goal with
           | |- context [?x <? ?y] => destruct (Z.ltb_spec x y)
           | H : context [?x <? ?y] |- _ => destruct (Z.ltb_spec x y)
           end; simpl; lia.
Qed.

(** A list built by insertions. *)
Definition insert_all (ks : list Z) : option (SkipList (Key:=Z)) :=
  foldl (λ s k, s ← s; Insert int_compare s k) (SkipList_new 0) ks.

Lemma insert_all_Repr : ∃ s, insert_all [30; 10; 20] = Some s ∧ Repr int_compare 0 s [10; 20; 30].
Proof.
  destruct (Repr_new int_compare 0) as (s0 & E0 & R0).
  destruct (Repr_insert int_compare 0 s0 [] 30 R0) as (s1 & E1 & R1); [constructor|].
  destruct (Repr_insert int_compare 0 s1 [30] 10 R1) as (s2 & E2 & R2); [by repeat constructor|].
  destruct (Repr_insert int_compare 0 s2 [10; 30] 20 R2) as (s3 & E3 & R3); [by repeat constructor|].
  exists s3. split; [|exact R3]. unfold insert_all. rewrite E0. cbn [foldl mbind option_bind].
  rewrite E1. cbn [mbind option_bind]. by rewrite E2.
Qed.

Lemma SkipList_Insert_sorted_witness :
  ∃ s, SkipList_new 0 = Some s ∧
  ∃ s', Insert int_compare s 7 = Some s' ∧ Repr int_compare 0 s' [7].
Proof.
  destruct (SkipList_Insert_sorted int_compare 0) as [(s & E & R) [H _]]. exists s. split; [exact E|].
  destruct (H s [] 7 R) as (s' & E' & R' & _); [constructor|]. exists s'. split; [exact E'|exact R'].
Defined.

Lemma SkipList_Contains_spec_witness :
  ∃ s b, insert_all [30; 10; 20] = Some s ∧ Contains int_compare s 20 = Some b ∧
    (b = true ↔ ∃ k, k ∈ [10; 20; 30] ∧ int_compare k 20 = 0).
Proof.
  destruct insert_all_Repr as (s & E & R).
  destruct (SkipList_Contains_spec int_compare 0 s [10; 20; 30] 20 R) as (b & H).
  exists s, b. split; [exact E|exact H].
Defined.

Lemma SkipList_Iterator_spec_witness :
  ∃ s (node_ : nat → option positive), insert_all [30; 10; 20] = Some s ∧
    Iterator_SeekToLast s = Some (node_ 2%nat) ∧ Iterator_key s (node_ 2%nat) = Some 30 ∧
    Iterator_Seek int_compare s 15 = Some (node_ 1%nat).
Proof.
  destruct insert_all_Repr as (s & E & R).
  destruct (SkipList_Iterator_spec int_compare 0 s [10; 20; 30] R)
    as (node_ & _ & Hk & _ & Hlast & Hseek & _).
  exists s, node_. split; [exact E|]. split; [exact Hlast|].
  split; [exact (Hk 2%nat)|exact (Hseek 15)].
Defined.

(** A reader in the middle of a search while the writer links a node. *)
Lemma reachable_mid_insert :
  ∃ s c, SkipList_new 0 = Some s ∧ rtc (step int_compare) (config_new s) c ∧
    length (readers c) = 1%nat ∧ ∃ x prev h, writer c = WLink x 5 prev 1 h.
Proof.
  eexists _, _. split; [vm_compute; reflexivity|]. split.
  - eapply rtc_l; [apply (step_seek int_compare _ 4)|].
    eapply rtc_l; [eapply (step_begin int_compare _ 5);
      [reflexivity|vm_compute; reflexivity|vm_compute; reflexivity]|].
    eapply rtc_l; [eapply step_new; [reflexivity|vm_compute; reflexivity]|].
    eapply rtc_l; [eapply step_link; [reflexivity|lia|vm_compute; reflexivity]|].
    apply rtc_refl.
  - split; [reflexivity|]. by eexists _, _, _.
Qed.

Lemma SkipList_concurrent_readers_witness :
  ∃ s c l, SkipList_new 0 = Some s ∧ length (readers c) = 1%nat ∧
    chain (shared c) 0 (head_ (shared c)) l ∧ StronglySorted (nlt int_compare 0 (shared c)) l.
Proof.
  destruct reachable_mid_insert as (s & c & E & Hrtc & Hr & _).
  destruct (SkipList_concurrent_readers int_compare 0 s c E Hrtc) as (l & Hc & Hs & _).
  exists s, c, l. split; [exact E|]. split; [exact Hr|]. split; [exact Hc|exact Hs].
Defined.

(** The model runs: insertions, membership, iteration. *)
Example SkipList_run :
  (s ← insert_all [5; 3; 9; 1; 7];
   a ← Contains int_compare s 9; b ← Contains int_compare s 4;
   it ← Iterator_Seek int_compare s 4; it' ← Iterator_Prev int_compare s it;
   last ← Iterator_SeekToLast s;
   Some (a, b, Iterator_key s it, Iterator_key s it', Iterator_key s last))
  = Some (true, false, Some 5, Some 3, Some 9).
Proof. by vm_compute. Qed.
