(* ===== verification/WeakMemory.v ===== *)
(** * Shared memory with C++ atomics (std::atomic, memory_order)

    The memory model the skip list is written for: every location keeps the
    messages written to it in modification order, a thread has a view - for each
    location the first message it may still read - and a load returns any message
    from there on.  A release store attaches the view of the writer to its
    message, an acquire load takes over the view of the message it reads, relaxed
    accesses order nothing but their own location.  Plain accesses must be ordered
    by happens-before: anything else is a race.

    Stores go to the end of the modification order, so the model is for locations
    with one writer; a thread that never stores, such as a reader of the skip
    list, cannot make a load depend on a later store, so that no speculation is
    lost. *)
From stdpp Require Import base gmap fin_maps numbers list.
From Stdlib Require Import Lia.
From S2P Require Import Prelude.

(** ** State *)

Abbreviation view Loc := (gmap Loc nat).

(** [mval] is [None] for memory that was never written. *)
Record message (Loc Val : Type) `{Countable Loc} := { mval : option Val; mview : view Loc }.
Arguments mval {Loc Val _ _}.
Arguments mview {Loc Val _ _}.
Arguments Build_message {Loc Val _ _}.

Abbreviation memory Loc Val := (gmap Loc (list (message Loc Val))).

Inductive memory_order := relaxed | acquire | release.

Section Memory.
Context {Loc Val : Type} `{Countable Loc}.

Abbreviation view := (view Loc).
Abbreviation memory := (memory Loc Val).

Definition at_ (V : view) (l : Loc) : nat := default 0 (V !! l).
Definition history (mem : memory) (l : Loc) : list (message Loc Val) := default [] (mem !! l).

Definition join (V1 V2 : view) : view := union_with (λ a b, Some (Nat.max a b)) V1 V2.
Definition raise (V : view) (l : Loc) (t : nat) : view := <[l := Nat.max t (at_ V l)]> V.

Definition view_le (V1 V2 : view) : Prop := ∀ l, at_ V1 l ≤ at_ V2 l.

(** ** Accesses *)

(** The messages a thread may read. *)
Definition readable (mem : memory) (V : view) (l : Loc) (t : nat) : Prop :=
  at_ V l ≤ t < length (history mem l).

(** [load] of the message at [t]; [None] if it is uninitialised memory. *)
Definition load (o : memory_order) (mem : memory) (V : view) (l : Loc) (t : nat) : option (Val * view) :=
  m ← (history mem l !! t);
  v ← mval m;
  Some (v, match o with acquire => join (raise V l t) (mview m) | _ => raise V l t end).

(** [store], and the view of the thread that stored. *)
Definition store (o : memory_order) (mem : memory) (V : view) (l : Loc) (v : Val) : memory * view :=
  let V' := <[l := length (history mem l)]> V in
  (<[l := history mem l ++ [{| mval := Some v; mview := match o with release => V' | _ => ∅ end |}]]> mem,
   V').

(** Fresh memory: one message without a value at each location. *)
Definition alloc (mem : memory) (ls : list Loc) : memory :=
  foldr (λ l mem, <[l := [{| mval := None; mview := ∅ |}]]> mem) mem ls.

(** A plain read: [None] if another write is not ordered before it (a race), or
    if the memory was never written. *)
Definition plain_read (mem : memory) (V : view) (l : Loc) : option Val :=
  if decide (S (at_ V l) = length (history mem l))
  then m ← last (history mem l); mval m else None.

(** ** Lemmas: views *)

Lemma at_empty l : at_ ∅ l = 0.
Proof. unfold at_. by rewrite lookup_empty. Qed.

Lemma at_insert (V : view) l t l' : at_ (<[l := t]> V) l' = if decide (l' = l) then t else at_ V l'.
Proof.
  unfold at_. case_decide as E; [subst; by rewrite lookup_insert_eq|]. by rewrite lookup_insert_ne.
Qed.

Lemma at_join V1 V2 l : at_ (join V1 V2) l = Nat.max (at_ V1 l) (at_ V2 l).
Proof.
  unfold at_, join. rewrite lookup_union_with. destruct (V1 !! l), (V2 !! l); simpl; lia.
Qed.

Lemma at_raise V l t l' : at_ (raise V l t) l' = if decide (l' = l) then Nat.max t (at_ V l) else at_ V l'.
Proof. unfold raise. apply at_insert. Qed.

#[export] Instance view_le_preorder : PreOrder view_le.
Proof. split; [by intros V l|intros V1 V2 V3 H1 H2 l; specialize (H1 l); specialize (H2 l); lia]. Qed.

Lemma join_l V1 V2 : view_le V1 (join V1 V2).
Proof. intros l. rewrite at_join. lia. Qed.
Lemma join_r V1 V2 : view_le V2 (join V1 V2).
Proof. intros l. rewrite at_join. lia. Qed.
Lemma join_least V1 V2 V : view_le V1 V → view_le V2 V → view_le (join V1 V2) V.
Proof. intros H1 H2 l. rewrite at_join. specialize (H1 l). specialize (H2 l). lia. Qed.
Lemma raise_le V l t : view_le V (raise V l t).
Proof. intros l'. rewrite at_raise. case_decide; subst; lia. Qed.
Lemma raise_id V l t : t ≤ at_ V l → ∀ l', at_ (raise V l t) l' = at_ V l'.
Proof. intros Ht l'. rewrite at_raise. case_decide; subst; lia. Qed.

(** ** Lemmas: histories *)

Lemma history_insert (mem : memory) l h l' :
  history (<[l := h]> mem) l' = if decide (l' = l) then h else history mem l'.
Proof.
  unfold history. case_decide as E; [subst; by rewrite lookup_insert_eq|]. by rewrite lookup_insert_ne.
Qed.

Lemma history_alloc mem ls l :
  history (alloc mem ls) l = if decide (l ∈ ls) then [{| mval := None; mview := ∅ |}] else history mem l.
Proof.
  induction ls as [|l' ls IH]; cbn [alloc foldr]; [by rewrite decide_False by apply not_elem_of_nil|].
  rewrite history_insert. fold (alloc mem ls). rewrite IH. destruct (decide (l = l')) as [->|Hl].
  - rewrite decide_True; [done|]. apply elem_of_cons. by left.
  - destruct (decide (l ∈ ls)) as [Hin|Hin].
    + rewrite decide_True; [done|]. apply elem_of_cons. by right.
    + rewrite decide_False; [done|]. by intros [?|?]%elem_of_cons.
Qed.

Lemma history_store o mem V l v l' :
  history (fst (store o mem V l v)) l' =
    if decide (l' = l)
    then history mem l ++ [{| mval := Some v;
                              mview := match o with release => snd (store o mem V l v) | _ => ∅ end |}]
    else history mem l'.
Proof. unfold store. simpl. by rewrite history_insert. Qed.

Lemma at_store o mem V l v l' :
  at_ (snd (store o mem V l v)) l' = if decide (l' = l) then length (history mem l) else at_ V l'.
Proof. apply at_insert. Qed.

(** A thread that made the last store reads it back, and nothing else. *)
Definition up_to_date (mem : memory) (V : view) (l : Loc) : Prop := S (at_ V l) = length (history mem l).

Lemma up_to_date_readable mem V l t : up_to_date mem V l → readable mem V l t → t = at_ V l.
Proof. unfold up_to_date, readable. lia. Qed.

Lemma last_history mem V l : up_to_date mem V l → last (history mem l) = history mem l !! at_ V l.
Proof. unfold up_to_date. intros E. by rewrite last_lookup, <- E. Qed.

(** A store keeps the thread up to date. *)
Lemma store_up_to_date o mem V l v l' :
  up_to_date mem V l' ∨ l' = l → up_to_date (fst (store o mem V l v)) (snd (store o mem V l v)) l'.
Proof.
  unfold up_to_date. rewrite history_store, at_store. intros Hl. case_decide as E.
  - rewrite length_app. simpl. lia.
  - by destruct Hl.
Qed.
End Memory.
