(* ===== verification/SkipListWeak.v ===== *)
(** * The skip list on weak memory (memtable/skiplist.h)

    One writer and any number of readers over the memory of WeakMemory.v, with the
    memory orders of the source: [Next] is an acquire load, [SetNext] a release
    store, [NoBarrier_SetNext], [max_height_.load] and [max_height_.store] are
    relaxed, keys are plain memory.  A reader may find old links, and of every
    link any of them that its view allows.

    The writer's own loads return what it stored last ([writer_loads_last]), so its
    searches run on the list [shared] of SkipList.v; each of its stores to memory
    that readers can reach is a step of its own. *)
From stdpp Require Import base list gmap fin_maps fin_sets sets numbers sorting relations.
From Stdlib Require Import ZArith Lia.
From S2P Require Import Prelude Random SkipList WeakMemory.

(** ** Locations and values *)

Inductive loc := L_next (x : positive) (i : nat) | L_key (x : positive) | L_max.

#[export] Instance loc_eq_dec : EqDecision loc.
Proof. solve_decision. Defined.

#[export] Instance loc_countable : Countable loc.
Proof.
  refine (inj_countable'
    (λ l, match l with L_next x i => inl (x, i) | L_key x => inr (inl x) | L_max => inr (inr ()) end)
    (λ l, match l with inl (x, i) => L_next x i | inr (inl x) => L_key x | inr (inr _) => L_max end) _).
  by intros [].
Defined.

Inductive value (Key : Type) := V_ptr (p : option positive) | V_key (k : Key) | V_int (n : nat).
Arguments V_ptr {Key}.
Arguments V_key {Key}.
Arguments V_int {Key}.

Section Weak.
Context {Key : Type} (compare_ : Key → Key → Z) (key0 : Key).

Definition as_ptr (v : value Key) : option (option positive) := match v with V_ptr p => Some p | _ => None end.
Definition as_key (v : value Key) : option Key := match v with V_key k => Some k | _ => None end.
Definition as_int (v : value Key) : option nat := match v with V_int n => Some n | _ => None end.

Abbreviation mem := (memory loc (value Key)).
Abbreviation list_state := (SkipList (Key:=Key)).

(** ** Readers *)

(** [FindGreaterOrEqual(key, nullptr)] for [Seek] and [Contains], [FindLessThan(key)]
    for [Prev], [FindLast] for [SeekToLast]. *)
Inductive query := Q_GreaterOrEqual (key : Key) | Q_LessThan (key : Key) | Q_Last.

(** What a reading thread does next: [Seek], [Prev], [SeekToLast] begin with the
    load of [max_height_] and go on with one iteration of the search loop at a
    time; [SeekToFirst] and [Next] are one load. *)
Inductive action := A_Seek (key : Key) | A_Prev | A_SeekToLast | A_search | A_SeekToFirst | A_Next.

(** A reading thread: its view, its iterator, the search it is in the middle of,
    and - for the specification only - the nodes it must not miss. *)
Record reader := {
  rview : view loc;
  node_ : option positive;
  searching : option (query * search);
  known : list positive }.

(** [n->key] *)
Definition read_key (m : mem) (V : view loc) (n : positive) : option Key :=
  v ← plain_read m V (L_key n); as_key v.

(** Does the loop keep searching past the non-null [n]? *)
Definition keep_searching (q : query) (m : mem) (V : view loc) (n : positive) : option bool :=
  match q with
  | Q_GreaterOrEqual key | Q_LessThan key => k ← read_key m V n; Some (compare_ k key <? 0)%Z
  | Q_Last => Some true
  end.

(** [x->Next(i)], reading the message at [t]. *)
Definition weak_Next (m : mem) (V : view loc) (x : positive) (i t : nat) :
  option (option positive * view loc) :=
  '(v, V) ← load acquire m V (L_next x i) t; p ← as_ptr v; Some (p, V).

(** The assertion in the loop of [FindLessThan]: [x == head_ || compare_(x->key, key) < 0]. *)
Definition search_assertion (head : positive) (q : query) (m : mem) (V : view loc) (x : positive) :
  option bool :=
  match q with
  | Q_LessThan key =>
      if decide (x = head) then Some true else k ← read_key m V x; Some (compare_ k key <? 0)%Z
  | Q_GreaterOrEqual _ | Q_Last => Some true
  end.

(** One iteration of the search loops; the loop ends with [x] and [next]. *)
Definition weak_search_step (head : positive) (q : query) (m : mem) (V : view loc) (st : search) (t : nat) :
  option ((search + positive * option positive) * view loc) :=
  holds ← search_assertion head q m V (cur st);
  if negb holds then None else
  '(next, V) ← weak_Next m V (cur st) (lvl st) t;
  keep ← match next with None => Some false | Some n => keep_searching q m V n end;
  Some (match next, keep with
        | Some n, true => inl {| cur := n; lvl := lvl st; prev := prev st |}
        | _, _ =>
            match lvl st with
            | O => inr (cur st, next)
            | S l => inl {| cur := cur st; lvl := l; prev := prev st |}
            end
        end, V).

(** What the function of the search, and the iterator, make of its end. *)
Definition query_result (head : positive) (q : query) (r : positive * option positive) : option positive :=
  match q with
  | Q_GreaterOrEqual _ => r.2
  | Q_LessThan _ | Q_Last => if decide (r.1 = head) then None else Some r.1
  end.

(** The search that an action begins. *)
Definition action_query (a : action) (m : mem) (r : reader) : option query :=
  match a with
  | A_Seek key => Some (Q_GreaterOrEqual key)
  | A_Prev => n ← node_ r; k ← read_key m (rview r) n; Some (Q_LessThan k)
  | A_SeekToLast => Some Q_Last
  | _ => None
  end.

(** The location an action loads from; [None] when the thread cannot do it now. *)
Definition action_loc (a : action) (head : positive) (r : reader) : option loc :=
  match a, searching r with
  | A_search, Some (_, st) => Some (L_next (cur st) (lvl st))
  | (A_Seek _ | A_SeekToLast), None => Some L_max
  | A_Prev, None => _ ← node_ r; Some L_max
  | A_SeekToFirst, None => Some (L_next head 0)
  | A_Next, None => n ← node_ r; Some (L_next n 0)
  | _, _ => None
  end.

(** The thread after a search or a move of its iterator to [n]. *)
Definition arrive (r : reader) (V : view loc) (n : option positive) : reader :=
  {| rview := V; node_ := n; searching := None; known := option_list n ++ known r |}.

(** The action, with the message at [t]; [None] is undefined behaviour: a read of
    uninitialised memory, or a race. *)
Definition reader_act (a : action) (m : mem) (head : positive) (t : nat) (r : reader) : option reader :=
  match a with
  | A_Seek _ | A_Prev | A_SeekToLast =>
      q ← action_query a m r;
      '(v, V) ← load relaxed m (rview r) L_max t;
      h ← as_int v;
      Some {| rview := V; node_ := node_ r; known := known r;
              searching := Some (q, {| cur := head; lvl := h - 1; prev := None |}) |}
  | A_search =>
      '(q, st) ← searching r;
      '(res, V) ← weak_search_step head q m (rview r) st t;
      Some match res with
           | inl st => {| rview := V; node_ := node_ r; searching := Some (q, st); known := known r |}
           | inr res => arrive r V (query_result head q res)
           end
  | A_SeekToFirst => '(n, V) ← weak_Next m (rview r) head 0 t; Some (arrive r V n)
  | A_Next => x ← node_ r; '(n, V) ← weak_Next m (rview r) x 0 t; Some (arrive r V n)
  end.

(** ** The writer *)

(** Where the writer stands inside [Insert]: before the node is allocated, before
    the relaxed store to the node's level [i], before the release store that links
    it there. *)
Inductive weak_wstate :=
  | W_idle
  | W_new (key : Key) (prev : gmap nat positive) (h : nat)
  | W_init (x : positive) (key : Key) (prev : gmap nat positive) (i h : nat)
  | W_publish (x : positive) (key : Key) (prev : gmap nat positive) (i h : nat).

Record weak_config := {
  wshared : list_state;
  wmem : mem;
  wview : view loc;
  wwriter : weak_wstate;
  wreaders : list reader }.

(** [max_height_.store(height, relaxed)], if the height grows. *)
Definition store_max (s s' : list_state) (m : mem) (V : view loc) : mem * view loc :=
  if max_height_ s <? max_height_ s' then store relaxed m V L_max (V_int (max_height_ s')) else (m, V).

(** [NewNode]: memory of the arena, and the key. *)
Definition store_node (x : positive) (key : Key) (h : nat) (m : mem) (V : view loc) : mem * view loc :=
  store relaxed (alloc m (L_key x :: (L_next x <$> seq 0 h))) V (L_key x) (V_key key).

(** The constructor: the head and its links, and [max_height_]. *)
Definition weak_new : option weak_config :=
  s ← SkipList_new key0;
  let mV := store_node (head_ s) key0 kMaxHeight (alloc ∅ [L_max]) ∅ in
  let mV := store relaxed mV.1 mV.2 L_max (V_int 1) in
  let mV := foldl (λ mV i, store release mV.1 mV.2 (L_next (head_ s) i) (V_ptr None)) mV
              (seq 0 kMaxHeight) in
  Some {| wshared := s; wmem := mV.1; wview := mV.2; wwriter := W_idle; wreaders := [] |}.

Definition with_writer (c : weak_config) (s : list_state) (mV : mem * view loc) (w : weak_wstate) : weak_config :=
  {| wshared := s; wmem := mV.1; wview := mV.2; wwriter := w; wreaders := wreaders c |}.

(** A step of the writer, whose stores are in the order of the source. *)
Inductive writer_step : weak_config → weak_config → Prop :=
  | w_begin c key s' prev h :
      wwriter c = W_idle → Contains compare_ (wshared c) key = Some false →
      Insert_begin compare_ (wshared c) key = Some (s', prev, h) →
      writer_step c (with_writer c s' (store_max (wshared c) s' (wmem c) (wview c)) (W_new key prev h))
  | w_new c key prev h x s' :
      wwriter c = W_new key prev h → Insert_new (wshared c) key h = (x, s') →
      writer_step c (with_writer c s' (store_node x key h (wmem c) (wview c)) (W_init x key prev 0 h))
  | w_init c x key prev i h p next s' :
      wwriter c = W_init x key prev i h → i < h →
      prev !! i = Some p → Next (wshared c) p i = Some next → SetNext (wshared c) x i next = Some s' →
      writer_step c (with_writer c s' (store relaxed (wmem c) (wview c) (L_next x i) (V_ptr next))
                       (W_publish x key prev i h))
  | w_publish c x key prev i h p s' :
      wwriter c = W_publish x key prev i h →
      prev !! i = Some p → SetNext (wshared c) p i (Some x) = Some s' →
      writer_step c (with_writer c s' (store release (wmem c) (wview c) (L_next p i) (V_ptr (Some x)))
                       (W_init x key prev (S i) h))
  | w_end c x key prev h :
      wwriter c = W_init x key prev h h →
      writer_step c (with_writer c (wshared c) (wmem c, wview c) W_idle).

Definition with_readers (c : weak_config) (rs : list reader) : weak_config :=
  {| wshared := wshared c; wmem := wmem c; wview := wview c; wwriter := wwriter c; wreaders := rs |}.

(** A new reading thread, or one that synchronises with the writer by other means
    (a mutex, say) while no insertion is under way: it must find the nodes [l] that
    are in the list. *)
Definition synced (c : weak_config) (l : list positive) (r : reader) : reader :=
  {| rview := join (rview r) (wview c); node_ := node_ r; searching := searching r; known := l ++ known r |}.

Definition reader_new : reader := {| rview := ∅; node_ := None; searching := None; known := [] |}.

Inductive weak_step : weak_config → weak_config → Prop :=
  | ws_writer c c' : writer_step c c' → weak_step c c'
  | ws_spawn c l :
      wwriter c = W_idle → chain (wshared c) 0 (head_ (wshared c)) l →
      weak_step c (with_readers c (wreaders c ++ [synced c l reader_new]))
  | ws_sync c j r l :
      wwriter c = W_idle → chain (wshared c) 0 (head_ (wshared c)) l → wreaders c !! j = Some r →
      weak_step c (with_readers c (<[j := synced c l r]> (wreaders c)))
  | ws_read c j r a l t r' :
      wreaders c !! j = Some r → action_loc a (head_ (wshared c)) r = Some l →
      readable (wmem c) (rview r) l t →
      reader_act a (wmem c) (head_ (wshared c)) t r = Some r' →
      weak_step c (with_readers c (<[j := r']> (wreaders c))).

(** ** Invariant *)

(** The value of the link of level [i] of [x] at time [t]; [None] if it is not
    initialised. *)
Definition ptr_at (m : mem) (x : positive) (i t : nat) : option (option positive) :=
  msg ← (history m (L_next x i) !! t); v ← mval msg; as_ptr v.

Abbreviation nlt := (nlt compare_ key0).

(** A view with which node [n] cannot be missed: from the head and every node
    before it, all links that can be read lead to [n] or to a node before it. *)
Record sees (s : list_state) (m : mem) (lv : nat → list positive) (V : view loc) (n : positive) : Prop := {
  se_in : n ∈ lv 0;
  se_next x t v : x ∈ head_ s :: lv 0 → (x = head_ s ∨ nlt s x n) → at_ V (L_next x 0) ≤ t →
    ptr_at m x 0 t = Some v → ∃ q, v = Some q ∧ (q = n ∨ nlt s q n) }.

(** A view that a reader may have: a link that it knows to be initialised belongs
    to a node that is linked at this level and can be read. *)
Record good (s : list_state) (m : mem) (lv : nat → list positive) (wV V : view loc) : Prop := {
  go_le : view_le V wV;
  go_linked x i : 1 ≤ at_ V (L_next x i) → x ∈ head_ s :: lv i;
  go_key x i : 1 ≤ at_ V (L_next x i) → x ≠ head_ s → 1 ≤ at_ V (L_key x) ∧ sees s m lv V x;
  go_below x i : 1 ≤ at_ V (L_next x (S i)) → 1 ≤ at_ V (L_next x i);
  go_init x i q : 1 ≤ at_ V (L_next x i) → ptr_at m x i 1 = Some (Some q) → 1 ≤ at_ V (L_next q i) }.

(** The memory, against what the writer sees: [pub] is the link that is initialised
    and not published yet. *)
Record mem_base (s : list_state) (m : mem) (wV : view loc) (lv : nat → list positive)
  (pub : option (positive * nat)) : Prop := {
  mb_last l : at_ wV l = length (history m l) - 1;
  mb_dom x i : history m (L_next x i) ≠ [] ↔ ∃ nd, nodes s !! x = Some nd ∧ i < height nd;
  mb_value x i : ptr_at m x i (at_ wV (L_next x i)) = Next s x i;
  mb_zero x i : ptr_at m x i 0 = None;
  mb_ptr x i t : 1 ≤ t < length (history m (L_next x i)) →
    ∃ v, ptr_at m x i t = Some v ∧ ∀ q, v = Some q → q ∈ lv i ∧ (x = head_ s ∨ nlt s x q);
  mb_init x i : 2 ≤ length (history m (L_next x i)) →
    x ∈ head_ s :: lv i ∨ pub = Some (x, i) ∧ length (history m (L_next x i)) = 2;
  mb_key x nd : nodes s !! x = Some nd →
    length (history m (L_key x)) = 2 ∧ mval <$> last (history m (L_key x)) = Some (Some (V_key (nkey nd)));
  mb_fresh x : nodes s !! x = None → history m (L_key x) = [];
  mb_max : history m L_max ≠ [];
  mb_height t msg : history m L_max !! t = Some msg → t = 0 ∨ ∃ h, mval msg = Some (V_int h) ∧ h ≤ kMaxHeight }.

(** The views that the messages carry: of a link, from its publication on; and the
    last height. *)
Record mem_ok (s : list_state) (m : mem) (wV : view loc) (lv : nat → list positive)
  (pub : option (positive * nat)) : Prop := {
  mo_base : mem_base s m wV lv pub;
  mo_view x i t msg : 1 ≤ t → history m (L_next x i) !! t = Some msg → good s m lv wV (mview msg);
  mo_publish x i t msg q : 2 ≤ t → history m (L_next x i) !! t = Some msg →
    ptr_at m x i t = Some (Some q) → 1 ≤ at_ (mview msg) (L_next q i);
  mo_max : ∃ msg, 1 ≤ at_ wV L_max ∧ history m L_max !! at_ wV L_max = Some msg ∧
                  mval msg = Some (V_int (max_height_ s)) }.

Definition before_query (s : list_state) (q : query) (n : positive) : Prop :=
  match q with
  | Q_GreaterOrEqual key | Q_LessThan key => before compare_ key0 s key n
  | Q_Last => True
  end.

Record reader_ok (s : list_state) (m : mem) (lv : nat → list positive) (wV : view loc) (r : reader) : Prop := {
  ro_good : good s m lv wV (rview r);
  ro_max : 1 ≤ at_ (rview r) L_max;
  ro_head i : i < kMaxHeight → 1 ≤ at_ (rview r) (L_next (head_ s) i);
  ro_known n : n ∈ known r → sees s m lv (rview r) n;
  ro_node n : node_ r = Some n → n ≠ head_ s ∧ 1 ≤ at_ (rview r) (L_next n 0);
  ro_search q st : searching r = Some (q, st) →
    lvl st < kMaxHeight ∧ 1 ≤ at_ (rview r) (L_next (cur st) (lvl st)) ∧
    (cur st = head_ s ∨ before_query s q (cur st)) }.

(** The head is always readable for a view of the writer. *)
Definition weak_writer_ok (s : list_state) (lv : nat → list positive) (w : weak_wstate) : Prop :=
  match w with
  | W_idle => True
  | W_new key prev h => writer_ok compare_ key0 s lv (WNew key prev h)
  | W_init x key prev i h => linking compare_ key0 s lv x key prev i h
  | W_publish x key prev i h =>
      linking compare_ key0 s lv x key prev i h ∧ i < h ∧
      ∃ l1 l2, cut compare_ key0 s key (lv i) l1 l2 ∧ prev !! i = Some (last_or (head_ s) l1) ∧
               Next s x i = Some (head l2)
  end.

Definition pending (w : weak_wstate) : option (positive * nat) :=
  match w with W_publish x _ _ i _ => Some (x, i) | _ => None end.

Record weak_ok (c : weak_config) (lv : nat → list positive) : Prop := {
  wo_shared : shared_ok compare_ key0 (wshared c) lv;
  wo_writer : weak_writer_ok (wshared c) lv (wwriter c);
  wo_mem : mem_ok (wshared c) (wmem c) (wview c) lv (pending (wwriter c));
  wo_readers j r : wreaders c !! j = Some r → reader_ok (wshared c) (wmem c) lv (wview c) r }.
Context `{!KeyOrder compare_}.

(** ** Lemmas: views that see, good views *)

Lemma sees_mono s m lv V V' n : view_le V V' → sees s m lv V n → sees s m lv V' n.
Proof.
  intros HV [H1 H2]. split; [done|]. intros x t v Hx Hlt Ht. apply H2; [done|done|].
  etrans; [apply HV|done].
Qed.

Lemma good_empty s m lv wV : good s m lv wV ∅.
Proof. split; try (intros *; rewrite !at_empty; lia). intros l. rewrite at_empty. lia. Qed.

Lemma good_join s m lv wV V1 V2 :
  good s m lv wV V1 → good s m lv wV V2 → good s m lv wV (join V1 V2).
Proof.
  intros G1 G2. pose proof (join_l V1 V2) as J1. pose proof (join_r V1 V2) as J2.
  assert (Hcase : ∀ l, 1 ≤ at_ (join V1 V2) l → 1 ≤ at_ V1 l ∨ 1 ≤ at_ V2 l)
    by (intros l; rewrite at_join; lia).
  split.
  - apply join_least; [apply G1|apply G2].
  - intros x i [Hx|Hx]%Hcase; [by apply (go_linked _ _ _ _ _ G1)|by apply (go_linked _ _ _ _ _ G2)].
  - intros x i [Hx|Hx]%Hcase Hne.
    + destruct (go_key _ _ _ _ _ G1 x i Hx Hne) as [Hk Hs]. specialize (J1 (L_key x)).
      split; [lia|]. eapply sees_mono; [apply join_l|done].
    + destruct (go_key _ _ _ _ _ G2 x i Hx Hne) as [Hk Hs]. specialize (J2 (L_key x)).
      split; [lia|]. eapply sees_mono; [apply join_r|done].
  - intros x i [Hx|Hx]%Hcase.
    + apply (go_below _ _ _ _ _ G1) in Hx. specialize (J1 (L_next x i)). lia.
    + apply (go_below _ _ _ _ _ G2) in Hx. specialize (J2 (L_next x i)). lia.
  - intros x i q [Hx|Hx]%Hcase Hq.
    + apply (go_init _ _ _ _ _ G1) with (q := q) in Hx; [|done]. specialize (J1 (L_next q i)). lia.
    + apply (go_init _ _ _ _ _ G2) with (q := q) in Hx; [|done]. specialize (J2 (L_next q i)). lia.
Qed.

(** Reading a later message of a link that is known, or of [max_height_]. *)
Lemma good_raise s m lv wV V l t :
  good s m lv wV V → t ≤ at_ wV l →
  (∀ x i, l = L_next x i → 1 ≤ at_ V l) → (∀ x, l ≠ L_key x) → good s m lv wV (raise V l t).
Proof.
  intros G Ht Hl Hk. pose proof (raise_le V l t) as HV.
  assert (Hcase : ∀ x i, 1 ≤ at_ (raise V l t) (L_next x i) → 1 ≤ at_ V (L_next x i)).
  { intros x i. rewrite at_raise. case_decide as E; [|done]. intros _. rewrite E. by eapply Hl. }
  split.
  - intros l'. rewrite at_raise. pose proof (go_le _ _ _ _ _ G l). case_decide; subst; [lia|].
    apply (go_le _ _ _ _ _ G).
  - intros x i Hx%Hcase. by apply (go_linked _ _ _ _ _ G).
  - intros x i Hx%Hcase Hne. destruct (go_key _ _ _ _ _ G x i Hx Hne) as [Hkx Hs].
    specialize (HV (L_key x)). split; [lia|]. eapply sees_mono; [apply raise_le|done].
  - intros x i Hx%Hcase%(go_below _ _ _ _ _ G). specialize (HV (L_next x i)). lia.
  - intros x i q Hx%Hcase Hq. apply (go_init _ _ _ _ _ G) with (q := q) in Hx; [|done].
    specialize (HV (L_next q i)). lia.
Qed.

(** ** Lemmas: a reader's loads *)

Lemma ptr_at_Some m x i t v :
  ptr_at m x i t = Some v → ∃ msg, history m (L_next x i) !! t = Some msg ∧ mval msg = Some (V_ptr v).
Proof.
  unfold ptr_at. intros (msg & -> & (w & E & Hw)%bind_Some)%bind_Some. exists msg. split; [done|].
  rewrite E. destruct w; simpl in Hw; congruence.
Qed.

(** A link that is known leads to a node that is known. *)
Lemma weak_Next_ok s m lv wV pub V x i t :
  mem_ok s m wV lv pub → good s m lv wV V → readable m V (L_next x i) t → 1 ≤ at_ V (L_next x i) →
  ∃ v V', weak_Next m V x i t = Some (v, V') ∧ ptr_at m x i t = Some v ∧ at_ V (L_next x i) ≤ t ∧
    view_le V V' ∧ good s m lv wV V' ∧
    ∀ q, v = Some q → q ∈ lv i ∧ (x = head_ s ∨ nlt s x q) ∧ 1 ≤ at_ V' (L_next q i).
Proof.
  intros Hm G [Ht1 Ht2] HV. pose proof (mo_base _ _ _ _ _ Hm) as Hb.
  destruct (mb_ptr _ _ _ _ _ Hb x i t) as (v & Ev & Hq); [lia|].
  destruct (ptr_at_Some _ _ _ _ _ Ev) as (msg & Emsg & Em).
  pose proof (mo_view _ _ _ _ _ Hm x i t msg ltac:(lia) Emsg) as Gm.
  set (V' := join (raise V (L_next x i) t) (mview msg)).
  exists v, V'. unfold weak_Next, load. rewrite Emsg. cbn [mbind option_bind]. rewrite Em.
  split; [done|]. split; [done|]. split; [done|]. assert (HVV' : view_le V V').
  { etrans; [apply raise_le|apply join_l]. }
  split; [done|]. split.
  - apply good_join; [|done]. apply good_raise; [done| |by intros|done].
    rewrite (mb_last _ _ _ _ _ Hb). lia.
  - intros q ->. destruct (Hq q eq_refl) as (Hin & Hlt). split; [done|]. split; [done|].
    destruct (decide (2 ≤ t)) as [H2t|H2t].
    + pose proof (mo_publish _ _ _ _ _ Hm x i t msg q H2t Emsg Ev).
      pose proof (join_r (raise V (L_next x i) t) (mview msg) (L_next q i)). unfold V'. lia.
    + assert (t = 1) as -> by lia. pose proof (go_init _ _ _ _ _ G x i q HV Ev).
      specialize (HVV' (L_next q i)). lia.
Qed.

(** The key of a node that is known can be read. *)
Lemma read_key_ok s m lv wV pub V x i :
  shared_ok compare_ key0 s lv → mem_ok s m wV lv pub → good s m lv wV V →
  1 ≤ at_ V (L_next x i) → x ≠ head_ s → read_key m V x = Some (key_at key0 s x).
Proof.
  intros Hs Hm G HV Hne. pose proof (go_linked _ _ _ _ _ G x i HV) as [?|Hin]%elem_of_cons; [done|].
  destruct (so_node _ _ s lv Hs i x Hin) as (nd & End & _).
  destruct (mb_key _ _ _ _ _ (mo_base _ _ _ _ _ Hm) x nd End) as [Hlen Hlast].
  destruct (go_key _ _ _ _ _ G x i HV Hne) as [Hk _].
  pose proof (go_le _ _ _ _ _ G (L_key x)) as Hle. rewrite (mb_last _ _ _ _ _ (mo_base _ _ _ _ _ Hm)), Hlen in Hle.
  unfold read_key, plain_read. rewrite decide_True by lia.
  destruct (last (history m (L_key x))) as [msg|]; [|done]. injection Hlast as E.
  cbn [mbind option_bind]. rewrite E. cbn. f_equal. unfold key_at, node_key. by rewrite End.
Qed.
(** ** Lemmas: what a reader's action does *)

(** What a search should return on a list. *)
Definition query_spec (s : list_state) (q : query) (l : list positive) (r : option positive) : Prop :=
  match q with
  | Q_GreaterOrEqual key => ∃ l1 l2, cut compare_ key0 s key l l1 l2 ∧ r = head l2
  | Q_LessThan key => ∃ l1 l2, cut compare_ key0 s key l l1 l2 ∧ r = last l1
  | Q_Last => r = last l
  end.

(** The same for the action that ends an operation of the reader. *)
Definition action_spec (s : list_state) (a : action) (r : reader) (l : list positive)
  (res : option positive) : Prop :=
  match a with
  | A_search => match searching r with Some (q, _) => query_spec s q l res | None => False end
  | A_SeekToFirst => res = head l
  | A_Next => ∃ n l1 l2, node_ r = Some n ∧ l = l1 ++ n :: l2 ∧ res = head l2
  | _ => False
  end.

(** A link of level 0 that was read is a link of some list that lacks no node the
    reader must find. *)
Lemma link_read s m lv V x t v (ns : list positive) :
  shared_ok compare_ key0 s lv → x ∈ head_ s :: lv 0 →
  (∀ n, n ∈ ns → sees s m lv V n) → at_ V (L_next x 0) ≤ t → ptr_at m x 0 t = Some v →
  (∀ q, v = Some q → q ∈ lv 0 ∧ (x = head_ s ∨ nlt s x q)) →
  ∃ k1 k2, (k1 ++ k2) `sublist_of` lv 0 ∧ (∀ n, n ∈ ns → n ∈ k1 ++ k2) ∧
    x = last_or (head_ s) k1 ∧ v = head k2.
Proof.
  intros Hs Hx Hns Ht Hv Hq. pose proof (so_sorted _ _ s lv Hs 0) as Hsort.
  destruct (list_elem_of_split _ _ Hx) as (l1 & l2 & E).
  assert (∃ k1 k, lv 0 = k1 ++ k ∧ x = last_or (head_ s) k1 ∧ (∀ n, n ∈ k → x = head_ s ∨ nlt s x n))
    as (k1 & k & Ek & Hk1 & Hlt).
  { destruct l1 as [|y l1]; simpl in E; injection E as E0 E1.
    - exists [], (lv 0). split; [done|]. split; [by rewrite E0|]. auto.
    - subst y. exists (l1 ++ [x]), l2. rewrite <- app_assoc. split; [done|].
      split; [unfold last_or; by rewrite last_snoc|]. intros n Hn. right.
      rewrite E1 in Hsort. apply StronglySorted_app_1_r, StronglySorted_inv in Hsort as [_ Hall].
      rewrite Forall_forall in Hall. by apply Hall. }
  assert (Hsee : ∀ n, n ∈ ns → n ∈ k → ∃ q, v = Some q ∧ (q = n ∨ nlt s q n)).
  { intros n Hn Hnk. apply (se_next _ _ _ _ _ (Hns n Hn) x t v Hx (Hlt n Hnk) Ht Hv). }
  destruct v as [q|].
  - destruct (Hq q eq_refl) as [Hqin Hxq].
    assert (q ∈ k) as Hqk.
    { rewrite Ek in Hqin. apply elem_of_app in Hqin as [Hq1|]; [|done]. exfalso.
      destruct Hxq as [->|Hxq].
      - destruct k1 as [|y k1]; [by apply elem_of_nil in Hq1|].
        assert (last_or (head_ s) (y :: k1) ∈ y :: k1) as Hin by (rewrite last_or_cons; apply last_or_elem).
        rewrite <- Hk1 in Hin. apply (so_head _ _ s lv Hs 0). rewrite Ek. apply elem_of_app. by left.
      - destruct (last_or_split (head_ s) k1) as [k' Ek']. rewrite <- Hk1 in Ek'.
        destruct k' as [|z k']; simpl in Ek'; injection Ek' as <- Ek1.
        + destruct k1; [by apply elem_of_nil in Hq1|done].
        + rewrite Ek, Ek1, <- app_assoc in Hsort. simpl in Hsort.
          rewrite Ek1 in Hq1. apply elem_of_app in Hq1 as [Hq1|Hq1%list_elem_of_singleton]; [|subst q].
          * apply sorted_app_lt in Hsort as [Hlt1 _]. rewrite Forall_forall in Hlt1.
            apply (nlt_irrefl compare_ key0 s q), (nlt_trans _ _ s q x q); [by apply Hlt1|done].
          * by apply (nlt_irrefl compare_ key0 s x). }
    destruct (list_elem_of_split _ _ Hqk) as (ka & kb & Eab). exists k1, (q :: kb). rewrite Ek, Eab.
    split; [apply sublist_app; [done|]; by apply sublist_inserts_l|]. split; [|done].
    intros n Hn. pose proof (se_in _ _ _ _ _ (Hns n Hn)) as Hin. rewrite Ek in Hin.
    apply elem_of_app in Hin as [Hin|Hin]; apply elem_of_app; [by left|right].
    destruct (Hsee n Hn Hin) as (q' & [= <-] & Hle). rewrite Eab in Hin.
    apply elem_of_app in Hin as [Hin|]; [|done]. exfalso.
    rewrite Ek, Eab in Hsort. apply StronglySorted_app_1_r, sorted_app_lt in Hsort as [Hlt1 _].
    rewrite Forall_forall in Hlt1. specialize (Hlt1 n Hin).
    destruct Hle as [->|Hle]; [by apply (nlt_irrefl compare_ key0 s n)|].
    by apply (nlt_irrefl compare_ key0 s n), (nlt_trans _ _ s n q n).
  - exists k1, []. rewrite app_nil_r, Ek. split; [by apply sublist_inserts_r|]. split; [|done].
    intros n Hn. pose proof (se_in _ _ _ _ _ (Hns n Hn)) as Hin. rewrite Ek in Hin.
    apply elem_of_app in Hin as [?|Hin]; [done|]. by destruct (Hsee n Hn Hin) as (? & ? & _).
Qed.
Lemma keep_searching_ok s m lv wV pub V q n i :
  shared_ok compare_ key0 s lv → mem_ok s m wV lv pub → good s m lv wV V →
  1 ≤ at_ V (L_next n i) → n ≠ head_ s →
  ∃ b, keep_searching q m V n = Some b ∧ (b = true ↔ before_query s q n).
Proof.
  intros Hs Hm G HV Hne. destruct q as [key|key|]; cbn [keep_searching before_query].
  - rewrite (read_key_ok _ _ _ _ _ _ _ _ Hs Hm G HV Hne). cbn. eexists. split; [done|]. apply Z.ltb_lt.
  - rewrite (read_key_ok _ _ _ _ _ _ _ _ Hs Hm G HV Hne). cbn. eexists. split; [done|]. apply Z.ltb_lt.
  - by exists true.
Qed.

(** The assertion holds, and the key it reads can be read. *)
Lemma search_assertion_ok s m lv wV pub V q x i :
  shared_ok compare_ key0 s lv → mem_ok s m wV lv pub → good s m lv wV V →
  1 ≤ at_ V (L_next x i) → (x = head_ s ∨ before_query s q x) →
  search_assertion (head_ s) q m V x = Some true.
Proof.
  intros Hs Hm G HV Hx. destruct q as [key|key|]; try done. unfold search_assertion.
  case_decide as Hne; [done|]. destruct Hx as [|Hx]; [done|].
  destruct (keep_searching_ok _ _ _ _ _ _ (Q_LessThan key) _ _ Hs Hm G HV Hne) as (b & E & Hb).
  cbn [keep_searching] in E. by rewrite E, (proj2 Hb Hx).
Qed.

(** One iteration of a search; [x] and [next] are where it ends. *)
Lemma weak_search_step_ok s m lv wV pub V q st t :
  shared_ok compare_ key0 s lv → mem_ok s m wV lv pub → good s m lv wV V →
  readable m V (L_next (cur st) (lvl st)) t →
  lvl st < kMaxHeight → 1 ≤ at_ V (L_next (cur st) (lvl st)) →
  (cur st = head_ s ∨ before_query s q (cur st)) →
  ∃ res V', weak_search_step (head_ s) q m V st t = Some (res, V') ∧ view_le V V' ∧ good s m lv wV V' ∧
    match res with
    | inl st' => lvl st' < kMaxHeight ∧ 1 ≤ at_ V' (L_next (cur st') (lvl st')) ∧
                 (cur st' = head_ s ∨ before_query s q (cur st'))
    | inr (x, next) =>
        x = cur st ∧ lvl st = 0 ∧ ptr_at m x 0 t = Some next ∧ at_ V (L_next x 0) ≤ t ∧
        ∀ n, next = Some n → n ∈ lv 0 ∧ (x = head_ s ∨ nlt s x n) ∧ 1 ≤ at_ V' (L_next n 0) ∧
                             ¬ before_query s q n
    end.
Proof.
  intros Hs Hm G Hr Hl HV Hcur. destruct st as [x i pv]. simpl in *.
  destruct (weak_Next_ok _ _ _ _ _ _ _ _ _ Hm G Hr HV) as (v & V' & E & Hv & Ht & HVV & G' & Hq).
  unfold weak_search_step. simpl. rewrite (search_assertion_ok _ _ _ _ _ _ _ _ _ Hs Hm G HV Hcur).
  cbn [mbind option_bind negb]. rewrite E. cbn [mbind option_bind].
  assert (Hdown : ∀ j, i = S j → j < kMaxHeight ∧ 1 ≤ at_ V' (L_next x j)).
  { intros j ->. apply (go_below _ _ _ _ _ G) in HV. specialize (HVV (L_next x j)). split; lia. }
  destruct v as [n|].
  - destruct (Hq n eq_refl) as (Hin & Hlt & Hn).
    assert (n ≠ head_ s) as Hne by (intros ->; by apply (so_head _ _ s lv Hs i)).
    destruct (keep_searching_ok _ _ _ _ _ _ q _ _ Hs Hm G' Hn Hne) as (b & -> & Hb).
    cbn [mbind option_bind]. destruct b.
    + eexists _, V'. split; [done|]. split; [done|]. split; [done|]. simpl.
      split; [done|]. split; [done|]. right. by apply Hb.
    + assert (¬ before_query s q n) as Hnb by (intros H; by apply Hb in H).
      destruct i as [|i]; eexists _, V'; (split; [done|]); (split; [done|]); (split; [done|]); simpl.
      * split; [done|]. split; [done|]. split; [done|]. split; [done|]. intros ? [= <-]. done.
      * destruct (Hdown i eq_refl). done.
  - cbn [mbind option_bind].
    destruct i as [|i]; eexists _, V'; (split; [done|]); (split; [done|]); (split; [done|]); simpl.
    * done.
    * destruct (Hdown i eq_refl). done.
Qed.

Lemma query_cut s lv q l1 l2 :
  shared_ok compare_ key0 s lv → (l1 ++ l2) `sublist_of` lv 0 →
  (last_or (head_ s) l1 = head_ s ∨ before_query s q (last_or (head_ s) l1)) →
  (∀ n, head l2 = Some n → ¬ before_query s q n) →
  query_spec s q (l1 ++ l2) (query_result (head_ s) q (last_or (head_ s) l1, head l2)).
Proof.
  intros Hs Hsub Hx Hn. pose proof (so_sorted _ _ s lv Hs 0) as Hsort.
  assert (StronglySorted (nlt s) (l1 ++ l2)) as Hso.
  { clear -Hsub Hsort. induction Hsub as [|x l k Hsub IH|x l k Hsub IH]; [constructor| |].
    - apply StronglySorted_inv in Hsort as [Hk Hx]. constructor; [by apply IH|].
      apply Forall_forall.
      rewrite Forall_forall in Hx. intros y Hy. apply Hx. by eapply elem_of_sublist.
    - apply StronglySorted_inv in Hsort as [Hk Hx]. by apply IH. }
  assert (Hhd : ∀ n, n ∈ l1 → n ≠ head_ s).
  { intros n Hin ->. apply (so_head _ _ s lv Hs 0). eapply elem_of_sublist; [|exact Hsub].
    apply elem_of_app. by left. }
  assert (Hlast : (if decide (last_or (head_ s) l1 = head_ s) then None else Some (last_or (head_ s) l1)) = last l1).
  { destruct l1 as [|y l1] using rev_ind; [by rewrite decide_True|].
    unfold last_or. rewrite last_snoc. simpl. rewrite decide_False; [done|].
    apply Hhd, elem_of_app. right. by apply list_elem_of_singleton. }
  assert (Hcut : ∀ key, (q = Q_GreaterOrEqual key ∨ q = Q_LessThan key) →
            cut compare_ key0 s key (l1 ++ l2) l1 l2).
  { intros key Hq. assert (∀ n, before_query s q n ↔ before compare_ key0 s key n) as Hb by (by destruct Hq as [->| ->]).
    split; [done|]. split.
    - destruct l1 as [|y l1] using rev_ind; [constructor|]. unfold last_or in Hx. rewrite last_snoc in Hx.
      simpl in Hx. destruct Hx as [Hx|Hx%Hb].
      + exfalso. apply (Hhd y); [|done]. apply elem_of_app. right. by apply list_elem_of_singleton.
      + rewrite <- app_assoc in Hso. apply sorted_app_lt in Hso as [Hlt _].
        apply Forall_app. split; [|by constructor]. eapply Forall_impl; [exact Hlt|].
        intros a Ha. eapply compare_lt_trans; [done|exact Ha|exact Hx].
    - assert (∀ n, head l2 = Some n → ¬ before compare_ key0 s key n) as Hn' by (intros n En; rewrite <- Hb; auto).
      apply StronglySorted_app_1_r in Hso.
      eapply Forall_impl; [apply (sorted_head_Forall compare_ key0 s l2 (before compare_ key0 s key)); [done| |done]|].
      + intros a b Hab Hb'. eapply compare_lt_trans; [done|exact Hab|exact Hb'].
      + unfold before. simpl. lia. }
  destruct q as [key|key|]; simpl.
  - exists l1, l2. split; [by apply Hcut; left|done].
  - exists l1, l2. split; [by apply Hcut; right|done].
  - rewrite Hlast. destruct l2 as [|n l2]; [by rewrite app_nil_r|]. by destruct (Hn n eq_refl).
Qed.
(** What [action_spec] asks for, once the reader is back from an operation. *)
Definition answered (s : list_state) (lv : nat → list positive) (a : action) (r : reader)
  (res : option positive) : Prop :=
  ∃ l, l `sublist_of` lv 0 ∧ (∀ n, n ∈ known r → n ∈ l) ∧ action_spec s a r l res.

Lemma arrive_ok s m lv wV r V' n :
  reader_ok s m lv wV r → view_le (rview r) V' → good s m lv wV V' →
  (∀ x, n = Some x → x ≠ head_ s ∧ 1 ≤ at_ V' (L_next x 0)) → reader_ok s m lv wV (arrive r V' n).
Proof.
  intros [R1 R2 R3 R4 R5 R6] HV G Hn. split; simpl.
  - done.
  - specialize (HV L_max). lia.
  - intros i Hi. specialize (HV (L_next (head_ s) i)). specialize (R3 i Hi). lia.
  - intros x [Hx|Hx]%elem_of_app; [|eapply sees_mono; [exact HV|by apply R4]].
    destruct n as [y|]; simpl in Hx; [|by apply elem_of_nil in Hx].
    apply list_elem_of_singleton in Hx as ->. destruct (Hn y eq_refl) as [Hne Hy].
    by apply (go_key _ _ _ _ _ G y 0 Hy Hne).
  - done.
  - done.
Qed.

(** A reader that only sees more, and searches from where it may. *)
Lemma view_ok s m lv wV r V' q :
  reader_ok s m lv wV r → view_le (rview r) V' → good s m lv wV V' →
  (∀ query st, q = Some (query, st) →
     lvl st < kMaxHeight ∧ 1 ≤ at_ V' (L_next (cur st) (lvl st)) ∧
     (cur st = head_ s ∨ before_query s query (cur st))) →
  reader_ok s m lv wV {| rview := V'; node_ := node_ r; known := known r; searching := q |}.
Proof.
  intros [R1 R2 R3 R4 R5 R6] HV G Hq. split; simpl.
  - done.
  - specialize (HV L_max). lia.
  - intros i Hi. specialize (HV (L_next (head_ s) i)). specialize (R3 i Hi). lia.
  - intros n Hn. eapply sees_mono; [exact HV|by apply R4].
  - intros n Hn. destruct (R5 n Hn) as [? ?]. specialize (HV (L_next n 0)). split; [done|lia].
  - intros query st E. by apply Hq.
Qed.

(** The three moves of a reader: it loads the height and starts a search at the
    head, it takes a step of a search, it follows a link of level 0. *)
Lemma start_reads s m lv wV pub r q t :
  mem_ok s m wV lv pub → reader_ok s m lv wV r → readable m (rview r) L_max t →
  ∃ r', ('(v, V) ← load relaxed m (rview r) L_max t; h ← as_int v;
         Some {| rview := V; node_ := node_ r; known := known r;
                 searching := Some (q, {| cur := head_ s; lvl := h - 1; prev := None |}) |}) = Some r' ∧
    reader_ok s m lv wV r' ∧ is_Some (searching r').
Proof.
  intros Hm Hr [Ht1 Ht2]. pose proof Hr as [G Rmax Rhead _ _ _].
  destruct (lookup_lt_is_Some_2 _ _ Ht2) as [msg Emsg].
  destruct (mb_height _ _ _ _ _ (mo_base _ _ _ _ _ Hm) t msg Emsg) as [->|(h & Eh & Hh)]; [lia|].
  unfold load. rewrite Emsg. cbn [mbind option_bind]. rewrite Eh. cbn [mbind option_bind as_int].
  eexists. split; [done|]. split; [|by eexists]. pose proof (raise_le (rview r) L_max t) as HV.
  apply view_ok; [done|done| |].
  - apply good_raise; [done|rewrite (mb_last _ _ _ _ _ (mo_base _ _ _ _ _ Hm)); lia|done|done].
  - intros ? st [= <- <-]. simpl. assert (h - 1 < kMaxHeight) as Hlt by (unfold kMaxHeight in *; lia).
    split; [done|]. split; [|by left]. specialize (HV (L_next (head_ s) (h - 1))).
    specialize (Rhead _ Hlt). lia.
Qed.

Lemma search_reads s m lv wV pub r q st t :
  shared_ok compare_ key0 s lv → mem_ok s m wV lv pub → reader_ok s m lv wV r →
  searching r = Some (q, st) → readable m (rview r) (L_next (cur st) (lvl st)) t →
  ∃ res V', weak_search_step (head_ s) q m (rview r) st t = Some (res, V') ∧
    match res with
    | inl st => reader_ok s m lv wV
                  {| rview := V'; node_ := node_ r; searching := Some (q, st); known := known r |}
    | inr res => reader_ok s m lv wV (arrive r V' (query_result (head_ s) q res)) ∧
        ∃ l, l `sublist_of` lv 0 ∧ (∀ n, n ∈ known r → n ∈ l) ∧
             query_spec s q l (query_result (head_ s) q res)
    end.
Proof.
  intros Hs Hm Hr Esr Ht. pose proof Hr as [G _ _ Rknown _ Rsearch].
  destruct (Rsearch q st Esr) as (Hlv & HV & Hcur).
  destruct (weak_search_step_ok _ _ _ _ _ _ _ _ _ Hs Hm G Ht Hlv HV Hcur)
    as (res & V' & E & HVV & G' & Hres). exists res, V'. split; [done|].
  destruct res as [st'|[x next]]; [by apply view_ok; [..|intros ?? [= <- <-]]|].
  destruct Hres as (-> & E0 & Hv & Htx & Hnext). rewrite E0 in HV.
  pose proof (go_linked _ _ _ _ _ G _ _ HV) as Hx. split.
  - apply arrive_ok; [done..|]. intros n En. destruct q; simpl in En.
    + destruct (Hnext n En) as (Hin & _ & Hn & _). split; [|done].
      intros ->. by apply (so_head _ _ s lv Hs 0).
    + case_decide; [done|]. injection En as <-. split; [done|]. specialize (HVV (L_next (cur st) 0)). lia.
    + case_decide; [done|]. injection En as <-. split; [done|]. specialize (HVV (L_next (cur st) 0)). lia.
  - destruct (link_read s m lv (rview r) (cur st) t next (known r)) as (k1 & k2 & Hsub & Hkn & Ex & En);
      try done.
    { intros n En. destruct (Hnext n En) as (? & ? & _). done. }
    exists (k1 ++ k2). split; [done|]. split; [done|]. rewrite Ex, En.
    apply (query_cut s lv); [done|done|by rewrite <- Ex|].
    intros n En'. rewrite <- En in En'. by destruct (Hnext n En') as (_ & _ & _ & ?).
Qed.

Lemma link_reads s m lv wV pub r x t :
  shared_ok compare_ key0 s lv → mem_ok s m wV lv pub → reader_ok s m lv wV r →
  x ∈ head_ s :: lv 0 → 1 ≤ at_ (rview r) (L_next x 0) → readable m (rview r) (L_next x 0) t →
  ∃ n V', weak_Next m (rview r) x 0 t = Some (n, V') ∧ reader_ok s m lv wV (arrive r V' n) ∧
    ∃ k1 k2, (k1 ++ k2) `sublist_of` lv 0 ∧ (∀ y, y ∈ known r → y ∈ k1 ++ k2) ∧
             x = last_or (head_ s) k1 ∧ n = head k2.
Proof.
  intros Hs Hm Hr Hx HV Ht. pose proof Hr as [G _ _ Rknown _ _].
  destruct (weak_Next_ok _ _ _ _ _ _ _ _ _ Hm G Ht HV) as (v & V' & E & Hv & Htx & HVV & G' & Hq).
  exists v, V'. split; [done|]. split.
  - apply arrive_ok; [done..|]. intros n ->. destruct (Hq n eq_refl) as (Hin & _ & Hn). split; [|done].
    intros ->. by apply (so_head _ _ s lv Hs 0).
  - apply (link_read s m lv (rview r) x t v (known r)); try done.
    intros q ->. destruct (Hq q eq_refl) as (? & ? & _). done.
Qed.

(** A reader cannot go wrong, and what it returns is right for some list between
    what it must see and what there is. *)
Lemma reader_act_ok s m lv wV pub r a l t :
  shared_ok compare_ key0 s lv → mem_ok s m wV lv pub → reader_ok s m lv wV r →
  action_loc a (head_ s) r = Some l → readable m (rview r) l t →
  ∃ r', reader_act a m (head_ s) t r = Some r' ∧ reader_ok s m lv wV r' ∧
    (searching r' = None → answered s lv a r (node_ r')).
Proof.
  intros Hs Hm Hr Hl Ht. pose proof Hr as [G _ Rhead _ Rnode _].
  assert (Hstart : ∀ o q, L_max = l → o = Some q →
    ∃ r', (q ← o; '(v, V) ← load relaxed m (rview r) L_max t; h ← as_int v;
           Some {| rview := V; node_ := node_ r; known := known r;
                   searching := Some (q, {| cur := head_ s; lvl := h - 1; prev := None |}) |}) = Some r' ∧
      reader_ok s m lv wV r' ∧ (searching r' = None → answered s lv a r (node_ r'))).
  { intros ? q <- ->. destruct (start_reads _ _ _ _ _ _ q _ Hm Hr Ht) as (r' & E & Hr' & q' & Eq).
    exists r'. split; [exact E|]. split; [done|]. by rewrite Eq. }
  destruct a as [key| | | | |]; cbn [reader_act action_loc] in *.
  - destruct (searching r); [done|]. injection Hl. intros El. by eapply Hstart.
  - destruct (searching r); [done|]. destruct (node_ r) as [n|] eqn:En; [|done]. injection Hl. intros El.
    destruct (Rnode n eq_refl) as [Hne Hn]. eapply Hstart; [done|].
    cbn [action_query]. rewrite En. cbn [mbind option_bind].
    by rewrite (read_key_ok _ _ _ _ _ _ _ _ Hs Hm G Hn Hne).
  - destruct (searching r); [done|]. injection Hl. intros El. by eapply Hstart.
  - destruct (searching r) as [[q st]|] eqn:Esr; [|done]. injection Hl as <-. cbn [mbind option_bind].
    destruct (search_reads _ _ _ _ _ _ _ _ _ Hs Hm Hr Esr Ht) as (res & V' & -> & Hres).
    cbn [mbind option_bind]. destruct res as [st'|res]; eexists; (split; [done|]); [by split|].
    destruct Hres as [Hok (k & Hsub & Hkn & Hq)]. split; [done|]. intros _. exists k.
    split; [done|]. split; [done|]. simpl. by rewrite Esr.
  - destruct (searching r) eqn:Esr; [done|]. injection Hl as <-.
    destruct (link_reads _ _ _ _ _ _ (head_ s) t Hs Hm Hr)
      as (n & V' & E & Hok & k1 & k2 & Hsub & Hkn & Ex & En);
      [apply elem_of_cons; by left|by apply Rhead; unfold kMaxHeight; lia|done|].
    rewrite E. cbn [mbind option_bind]. eexists. split; [done|]. split; [done|]. intros _.
    exists (k1 ++ k2). split; [done|]. split; [done|]. simpl. rewrite En.
    destruct k1 as [|y k1]; [done|]. exfalso. apply (so_head _ _ s lv Hs 0).
    eapply elem_of_sublist; [|exact Hsub]. apply elem_of_app. left. rewrite Ex at 1. rewrite last_or_cons.
    apply last_or_elem.
  - destruct (searching r) eqn:Esr; [done|]. destruct (node_ r) as [x|] eqn:Enode; [|done].
    injection Hl as <-. destruct (Rnode x eq_refl) as [Hne HV].
    destruct (link_reads _ _ _ _ _ _ _ _ Hs Hm Hr (go_linked _ _ _ _ _ G _ _ HV) HV Ht)
      as (n & V' & E & Hok & k1 & k2 & Hsub & Hkn & Ex & En).
    cbn [mbind option_bind]. rewrite E. cbn [mbind option_bind]. eexists. split; [done|]. split; [done|].
    intros _. exists (k1 ++ k2). split; [done|]. split; [done|]. simpl. rewrite En.
    destruct k1 as [|y k1] using rev_ind; [by destruct Hne|]. unfold last_or in Ex. rewrite last_snoc in Ex.
    simpl in Ex. subst y. exists x, k1, k2. rewrite <- app_assoc. done.
Qed.

(** ** Lemmas: the writer's view *)

Lemma ptr_in s m wV lv pub x i t q :
  mem_base s m wV lv pub → ptr_at m x i t = Some (Some q) → q ∈ lv i ∧ (x = head_ s ∨ nlt s x q).
Proof.
  intros Hb Hp. destruct (ptr_at_Some _ _ _ _ _ Hp) as (msg & E & _). apply lookup_lt_Some in E.
  destruct t as [|t]; [by rewrite (mb_zero _ _ _ _ _ Hb) in Hp|].
  destruct (mb_ptr _ _ _ _ _ Hb x i (S t)) as (v & E' & Hv); [lia|]. rewrite Hp in E'. injection E' as <-.
  by apply Hv.
Qed.

Lemma level_bound s lv i n : shared_ok compare_ key0 s lv → n ∈ lv i → i < kMaxHeight.
Proof.
  intros Hs Hn. pose proof (so_max _ _ s lv Hs). destruct (decide (i < max_height_ s)); [lia|].
  rewrite (so_high _ _ s lv Hs i) in Hn by lia. by apply elem_of_nil in Hn.
Qed.

(** The link that follows a node of the list, and the rest of the list. *)
Lemma next_in_list s lv i x :
  shared_ok compare_ key0 s lv → i < kMaxHeight → x ∈ head_ s :: lv i →
  ∃ l1 l2, lv i = l1 ++ l2 ∧ x = last_or (head_ s) l1 ∧ Next s x i = Some (head l2).
Proof.
  intros Hs Hi Hx. destruct (list_elem_of_split _ _ Hx) as (l1 & l2 & E).
  pose proof (chain_split s i _ _ l1 x l2 (so_chain _ _ s lv Hs i Hi) E) as Hc%chain_next.
  destruct l1 as [|y l1]; injection E as E1 E2; subst.
  - by exists [], (lv i).
  - exists (l1 ++ [x]), l2. rewrite <- app_assoc. split; [done|]. split; [|done].
    unfold last_or. by rewrite last_snoc.
Qed.

(** What comes after a node of a sorted list is at or after the next one. *)
Lemma after_last_or s lv l1 l2 n :
  shared_ok compare_ key0 s lv → lv 0 = l1 ++ l2 → n ∈ lv 0 →
  (last_or (head_ s) l1 = head_ s ∨ nlt s (last_or (head_ s) l1) n) →
  ∃ q, head l2 = Some q ∧ (q = n ∨ nlt s q n) ∧ n ∈ l2.
Proof.
  intros Hs E Hn Hlt. pose proof (so_sorted _ _ s lv Hs 0) as Hsort. rewrite E in Hn, Hsort.
  assert (n ∈ l2) as Hn2.
  { apply elem_of_app in Hn as [Hn|]; [|done]. exfalso.
    destruct l1 as [|y l1] using rev_ind; [by apply elem_of_nil in Hn|].
    unfold last_or in Hlt. rewrite last_snoc in Hlt. simpl in Hlt. destruct Hlt as [->|Hlt].
    - apply (so_head _ _ s lv Hs 0). rewrite E. apply elem_of_app. left. apply elem_of_app. right.
      by apply list_elem_of_singleton.
    - rewrite <- app_assoc in Hsort. apply sorted_app_lt in Hsort as [H1 _].
      rewrite Forall_forall in H1.
      apply elem_of_app in Hn as [Hn|Hn%list_elem_of_singleton]; [|subst; by eapply nlt_irrefl].
      by apply (nlt_irrefl compare_ key0 s n), (nlt_trans _ _ s n y n), Hlt; apply H1. }
  destruct l2 as [|q l2]; [by apply elem_of_nil in Hn2|]. exists q. split; [done|]. split; [|done].
  apply StronglySorted_app_1_r, StronglySorted_inv in Hsort as [_ Hall].
  rewrite Forall_forall in Hall. apply elem_of_cons in Hn2 as [->|Hn2]; [by left|right]. by apply Hall.
Qed.

Lemma mb_linked s m wV lv pub x i :
  shared_ok compare_ key0 s lv → mem_base s m wV lv pub → i < kMaxHeight → x ∈ head_ s :: lv i →
  1 ≤ at_ wV (L_next x i).
Proof.
  intros Hs Hb Hi Hx. destruct (next_in_list s lv i x Hs Hi Hx) as (l1 & l2 & _ & _ & E).
  pose proof (mb_value _ _ _ _ _ Hb x i) as Hv. rewrite E in Hv.
  destruct (at_ wV (L_next x i)); [|lia]. by rewrite (mb_zero _ _ _ _ _ Hb) in Hv.
Qed.

Lemma writer_sees s m wV lv pub n :
  shared_ok compare_ key0 s lv → mem_base s m wV lv pub → n ∈ lv 0 → sees s m lv wV n.
Proof.
  intros Hs Hb Hn. split; [done|]. intros x t v Hx Hlt Ht Hv.
  destruct (ptr_at_Some _ _ _ _ _ Hv) as (msg & E%lookup_lt_Some & _).
  pose proof (mb_last _ _ _ _ _ Hb (L_next x 0)) as Hlast.
  assert (t = at_ wV (L_next x 0)) as -> by lia. rewrite (mb_value _ _ _ _ _ Hb) in Hv.
  destruct (next_in_list s lv 0 x Hs ltac:(unfold kMaxHeight; lia) Hx) as (l1 & l2 & El & -> & En).
  rewrite En in Hv. injection Hv as <-.
  destruct (after_last_or s lv l1 l2 n Hs El Hn Hlt) as (q & Eq & Hq & _). by exists q.
Qed.

(** Between the stores of a level the writer's view is good. *)
Lemma writer_good s m wV lv :
  shared_ok compare_ key0 s lv → mem_base s m wV lv None → good s m lv wV wV.
Proof.
  intros Hs Hb. assert (Hlinked : ∀ x i, 1 ≤ at_ wV (L_next x i) → x ∈ head_ s :: lv i).
  { intros x i. rewrite (mb_last _ _ _ _ _ Hb). intros Hl.
    destruct (mb_init _ _ _ _ _ Hb x i) as [|[? _]]; [lia|done..]. }
  assert (Hbound : ∀ x i, 1 ≤ at_ wV (L_next x i) → i < kMaxHeight).
  { intros x i Hx. pose proof (Hlinked x i Hx) as [->|Hin]%elem_of_cons; [|by eapply level_bound].
    destruct (so_head_node _ _ s lv Hs) as (hd & Ehd & Eh).
    destruct (proj1 (mb_dom _ _ _ _ _ Hb (head_ s) i)) as (nd & End & Hi).
    - rewrite (mb_last _ _ _ _ _ Hb) in Hx. intros E. rewrite E in Hx. simpl in Hx. lia.
    - rewrite Ehd in End. injection End as <-. lia. }
  split.
  - by intros l.
  - done.
  - intros x i Hx Hne. pose proof (Hlinked x i Hx) as [?|Hin]%elem_of_cons; [done|].
    destruct (so_node _ _ s lv Hs i x Hin) as (nd & End & _).
    destruct (mb_key _ _ _ _ _ Hb x nd End) as [Hk _]. rewrite (mb_last _ _ _ _ _ Hb), Hk.
    split; [simpl; lia|]. eapply writer_sees; [done..|]. by eapply so_sub_0.
  - intros x i Hx. pose proof (Hbound _ _ Hx). apply (mb_linked s m wV lv None); [done|done|lia|].
    apply Hlinked in Hx. apply elem_of_cons in Hx as [->|Hx]; apply elem_of_cons; [by left|right].
    by apply (so_sub _ _ s lv Hs).
  - intros x i q Hx Hq. apply (mb_linked s m wV lv None); [done|done|by eapply Hbound|].
    apply elem_of_cons. right. by eapply ptr_in.
Qed.

(** ** Lemmas: what a reader knows outlives the writer's steps *)

(** From [s], [m], [lv], [wV] to [s'], [m'], [lv'], [wV']. *)
Record evolves (s : list_state) (m : mem) (lv : nat → list positive) (wV : view loc)
  (s' : list_state) (m' : mem) (lv' : nat → list positive) (wV' : view loc) : Prop := {
  ev_head : head_ s' = head_ s;
  ev_in i n : n ∈ lv i → n ∈ lv' i;
  ev_key n : n ∈ lv 0 → key_at key0 s' n = key_at key0 s n;
  ev_view : view_le wV wV';
  ev_first x i : 2 ≤ length (history m (L_next x i)) → ptr_at m' x i 1 = ptr_at m x i 1;
  ev_sees V n : view_le V wV → sees s m lv V n → sees s' m' lv' V n }.

Lemma good_evolves s m lv wV pub s' m' lv' wV' V :
  mem_base s m wV lv pub → evolves s m lv wV s' m' lv' wV' →
  good s m lv wV V → good s' m' lv' wV' V.
Proof.
  intros Hb Ev G. split.
  - etrans; [apply G|apply Ev].
  - intros x i Hx. rewrite (ev_head _ _ _ _ _ _ _ _ Ev).
    apply (go_linked _ _ _ _ _ G) in Hx. apply elem_of_cons in Hx as [->|Hx]; apply elem_of_cons; [by left|right].
    by apply (ev_in _ _ _ _ _ _ _ _ Ev).
  - intros x i Hx Hne. rewrite (ev_head _ _ _ _ _ _ _ _ Ev) in Hne.
    destruct (go_key _ _ _ _ _ G x i Hx Hne) as [? ?]. split; [done|].
    apply (ev_sees _ _ _ _ _ _ _ _ Ev); [apply G|done].
  - apply G.
  - intros x i q Hx Hq. apply (go_init _ _ _ _ _ G x i q Hx).
    rewrite <- (ev_first _ _ _ _ _ _ _ _ Ev); [done|].
    pose proof (go_le _ _ _ _ _ G (L_next x i)) as Hle. rewrite (mb_last _ _ _ _ _ Hb) in Hle. lia.
Qed.

Lemma reader_evolves s m lv wV pub s' m' lv' wV' r :
  shared_ok compare_ key0 s lv → mem_base s m wV lv pub → evolves s m lv wV s' m' lv' wV' →
  reader_ok s m lv wV r → reader_ok s' m' lv' wV' r.
Proof.
  intros Hs Hb Ev [G R2 R3 R4 R5 R6]. pose proof (ev_head _ _ _ _ _ _ _ _ Ev) as Hh. split; rewrite ?Hh.
  - by eapply good_evolves.
  - done.
  - done.
  - intros n Hn. apply (ev_sees _ _ _ _ _ _ _ _ Ev); [apply G|by apply R4].
  - done.
  - intros q st E. destruct (R6 q st E) as (Hl & HV & Hcur). split; [done|]. split; [done|].
    destruct (decide (cur st = head_ s)) as [|Hne]; [by left|right].
    destruct Hcur as [|Hcur]; [done|].
    pose proof (go_linked _ _ _ _ _ G _ _ HV) as [?|Hin]%elem_of_cons; [done|].
    assert (key_at key0 s' (cur st) = key_at key0 s (cur st)) as Hk
      by (apply (ev_key _ _ _ _ _ _ _ _ Ev); by eapply so_sub_0).
    destruct q; simpl in *; unfold before in *; by rewrite ?Hk.
Qed.

(** Steps that leave the links of the lowest level alone. *)
Lemma sees_same s m wV lv pub s' m' lv' V n :
  mem_base s m wV lv pub → head_ s' = head_ s → lv' 0 = lv 0 →
  (∀ y, y ∈ lv 0 → key_at key0 s' y = key_at key0 s y) →
  (∀ y t v, y ∈ head_ s :: lv 0 → ptr_at m' y 0 t = Some v → ptr_at m y 0 t = Some v) →
  sees s m lv V n → sees s' m' lv' V n.
Proof.
  intros Hb Hh Hl Hk Hp [Hin Hn]. split; [by rewrite Hl|]. rewrite Hl, Hh.
  intros x t v Hx Hlt Ht Hv%Hp; [|done].
  assert (x = head_ s ∨ nlt s x n) as Hlt'.
  { destruct (decide (x = head_ s)) as [|Hne]; [by left|right]. destruct Hlt as [|Hlt]; [done|].
    apply elem_of_cons in Hx as [?|Hx]; [done|]. unfold SkipList.nlt in *. by rewrite !Hk in Hlt. }
  destruct (Hn x t v Hx Hlt' Ht Hv) as (q & -> & Hq). exists q. split; [done|].
  destruct Hq as [|Hq]; [by left|right]. destruct (ptr_in _ _ _ _ _ _ _ _ _ Hb Hv) as [Hqin _].
  unfold SkipList.nlt in *. by rewrite !Hk.
Qed.

(** ** Lemmas: stores of links *)

Lemma ptr_at_store o m V y i v x j t :
  ptr_at (store o m V (L_next y i) (V_ptr v)).1 x j t =
    if decide (x = y ∧ j = i ∧ t = length (history m (L_next y i))) then Some v else ptr_at m x j t.
Proof.
  unfold ptr_at. rewrite history_store. destruct (decide (L_next x j = L_next y i)) as [[= -> ->]|Hne].
  - destruct (decide (t = length (history m (L_next y i)))) as [->|Ht].
    + rewrite decide_True by done. rewrite list_lookup_middle by done. done.
    + rewrite decide_False by tauto. destruct (decide (t < length (history m (L_next y i)))).
      * by rewrite lookup_app_l.
      * rewrite !(lookup_ge_None_2 _ t); [done|lia|rewrite length_app; simpl; lia].
  - rewrite decide_False; [done|]. intros (-> & -> & _). done.
Qed.

Lemma stored_node (s s' : list_state) x i v y nd :
  stored s s' x i v → nodes s' !! y = Some nd →
  ∃ nd0, nodes s !! y = Some nd0 ∧ nkey nd0 = nkey nd ∧ height nd0 = height nd.
Proof.
  intros St E. pose proof (st_shape _ _ _ _ _ St y) as H. unfold shape in H. rewrite E in H.
  destruct (nodes s !! y) as [nd0|]; [|done]. exists nd0. simpl in H. split; [done|]. by injection H.
Qed.

Lemma stored_node_iff (s s' : list_state) x i v y j :
  stored s s' x i v →
  (∃ nd, nodes s' !! y = Some nd ∧ j < height nd) ↔ ∃ nd, nodes s !! y = Some nd ∧ j < height nd.
Proof.
  intros St. pose proof (st_shape _ _ _ _ _ St y) as H. unfold shape in H.
  destruct (nodes s' !! y) as [a|], (nodes s !! y) as [b|]; try done.
  injection H as _ E. split; intros (? & [= <-] & ?); eexists; (split; [done|lia]).
Qed.

Lemma mem_base_store o s m wV lv pub s' lv' pub' y i v :
  mem_base s m wV lv pub → stored s s' y i v → history m (L_next y i) ≠ [] →
  (∀ j n, n ∈ lv j → n ∈ lv' j) →
  (∀ q, v = Some q → q ∈ lv' i ∧ (y = head_ s ∨ nlt s y q)) →
  (∀ x j, pub = Some (x, j) → x ∈ lv' j) →
  (y ∈ head_ s :: lv' i ∨ pub' = Some (y, i) ∧ length (history m (L_next y i)) = 1) →
  mem_base s' (store o m wV (L_next y i) (V_ptr v)).1 (store o m wV (L_next y i) (V_ptr v)).2 lv' pub'.
Proof.
  intros Hb St Hne Hin Hv Hpub Hy. pose proof (st_head _ _ _ _ _ St) as Hh.
  assert (Hnlt : ∀ a b, nlt s a b → nlt s' a b).
  { intros a b. unfold SkipList.nlt. by rewrite !(key_at_shape _ s s') by apply St. }
  assert (1 ≤ length (history m (L_next y i))) as Hlen by (destruct (history _ _); simpl; [done|lia]).
  split.
  - intros l. rewrite at_store, history_store. case_decide as E; [subst|apply Hb].
    rewrite length_app. simpl. lia.
  - intros x j. rewrite (stored_node_iff _ _ _ _ _ _ _ St), <- (mb_dom _ _ _ _ _ Hb), history_store.
    case_decide as E; [|done]. injection E as -> ->. split; [done|]. intros _ E%(f_equal length).
    rewrite length_app in E. simpl in E. lia.
  - intros x j. rewrite at_store, ptr_at_store, (st_next _ _ _ _ _ St).
    destruct (decide (x = y ∧ j = i)) as [[-> ->]|Hxy].
    + by rewrite (decide_True (P := L_next y i = _)), !decide_True.
    + rewrite (decide_False (P := L_next x j = _)), decide_False; [apply Hb|tauto|].
      intros [= -> ->]. by apply Hxy.
  - intros x j. rewrite ptr_at_store, decide_False; [apply Hb|lia].
  - intros x j t. rewrite history_store, Hh. intros Ht. rewrite ptr_at_store.
    destruct (decide (x = y ∧ j = i ∧ t = length (history m (L_next y i)))) as [(-> & -> & ->)|Hnew].
    + exists v. split; [done|]. intros q Hq. destruct (Hv q Hq) as [? [?|?]]; auto.
    + destruct (mb_ptr _ _ _ _ _ Hb x j t) as (w & Ew & Hw).
      { case_decide as E; [|lia]. injection E as -> ->. rewrite length_app in Ht. simpl in Ht.
        assert (t ≠ length (history m (L_next y i))) by tauto. lia. }
      exists w. split; [done|]. intros q Hq. destruct (Hw q Hq) as [? [?|?]]; auto.
  - intros x j. rewrite history_store, Hh. case_decide as E.
    + injection E as -> ->. rewrite length_app. simpl. intros _. destruct Hy as [?|[-> ->]]; [by left|by right].
    + intros Hl. left. destruct (mb_init _ _ _ _ _ Hb x j Hl) as [Hx|[Hx _]]; apply elem_of_cons.
      * apply elem_of_cons in Hx as [?|?]; [by left|right; by apply Hin].
      * right. by apply Hpub.
  - intros x nd End. destruct (stored_node _ _ _ _ _ _ _ St End) as (nd0 & E0 & <- & _).
    rewrite history_store, decide_False by done. by apply Hb.
  - intros x Hx. rewrite history_store, decide_False by done. apply Hb.
    pose proof (st_shape _ _ _ _ _ St x) as H. unfold shape in H. rewrite Hx in H.
    by destruct (nodes s !! x).
  - rewrite history_store, decide_False by done. apply Hb.
  - intros t msg. rewrite history_store, decide_False by done. apply Hb.
Qed.

Lemma mem_ok_store o s m wV lv pub s' lv' pub' y i v :
  mem_ok s m wV lv pub → stored s s' y i v →
  let mV := store o m wV (L_next y i) (V_ptr v) in
  mem_base s' mV.1 mV.2 lv' pub' → evolves s m lv wV s' mV.1 lv' mV.2 →
  (o = release → good s' mV.1 lv' mV.2 mV.2) →
  (∀ q, v = Some q → 2 ≤ length (history m (L_next y i)) → o = release ∧ 1 ≤ at_ mV.2 (L_next q i)) →
  mem_ok s' mV.1 mV.2 lv' pub'.
Proof.
  intros Hm St mV Hb Ev HG Hpub. pose proof (mo_base _ _ _ _ _ Hm) as Hb0. split; [done|..].
  - intros x j t msg Ht. unfold mV. rewrite history_store. case_decide as E.
    + injection E as -> ->. intros [Hm'|[_ Hnew]]%lookup_app_Some.
      * eapply good_evolves; [done..|]. by eapply mo_view.
      * apply list_lookup_singleton_Some in Hnew as [_ <-]. simpl.
        destruct o; [apply good_empty..|by apply HG].
    + intros Hm'. eapply good_evolves; [done..|]. by eapply mo_view.
  - intros x j t msg q Ht. unfold mV. rewrite history_store, ptr_at_store. case_decide as E.
    + injection E as -> ->. intros [Hm'|[Hlen Hnew]]%lookup_app_Some.
      * apply lookup_lt_Some in Hm' as Hlt. rewrite decide_False by lia. by eapply mo_publish.
      * apply list_lookup_singleton_Some in Hnew as [Ht0 <-]. rewrite decide_True by (split_and!; [done|done|lia]).
        intros [= ->]. destruct (Hpub q eq_refl) as [-> Hq]; [lia|]. exact Hq.
    + rewrite decide_False by (intros (-> & -> & _); done). by eapply mo_publish.
  - destruct (mo_max _ _ _ _ _ Hm) as (msg & H1 & H2 & H3). exists msg.
    unfold mV. rewrite history_store, at_store, !decide_False by done.
    by rewrite (st_max _ _ _ _ _ St).
Qed.

(** ** Lemmas: stores to [max_height_], and a new node *)

(** Memory that differs at locations other than links of nodes that exist. *)
Lemma evolves_same s m wV lv pub s' m' wV' :
  shared_ok compare_ key0 s lv → mem_base s m wV lv pub →
  head_ s' = head_ s → (∀ y, nodes s !! y ≠ None → nodes s' !! y = nodes s !! y) → view_le wV wV' →
  (∀ y j, nodes s !! y ≠ None → history m' (L_next y j) = history m (L_next y j)) →
  evolves s m lv wV s' m' lv wV'.
Proof.
  intros Hs Hb Hh Hn HV Hhist.
  assert (Hin : ∀ y, y ∈ lv 0 → nodes s !! y ≠ None).
  { intros y Hy. destruct (so_node _ _ s lv Hs 0 y Hy) as (nd & -> & _). done. }
  assert (Hk : ∀ y, y ∈ lv 0 → key_at key0 s' y = key_at key0 s y).
  { intros y Hy. unfold key_at, node_key. by rewrite Hn by auto. }
  split; try done.
  - intros x i Hl. assert (nodes s !! x ≠ None) as Hx.
    { destruct (proj1 (mb_dom _ _ _ _ _ Hb x i)) as (nd & -> & _); [|done]. intros E. rewrite E in Hl.
      simpl in Hl. lia. }
    unfold ptr_at. by rewrite Hhist.
  - intros V n _. apply (sees_same s m wV lv pub); [done..|].
    intros y t v Hy. assert (nodes s !! y ≠ None) as Hy'.
    { apply elem_of_cons in Hy as [->|Hy]; [|auto].
      by destruct (so_head_node _ _ s lv Hs) as (nd & -> & _). }
    unfold ptr_at. by rewrite Hhist.
Qed.

(** Only the entries of [s] that the memory is about. *)
Lemma mem_base_nodes s s' m wV lv pub :
  nodes s' = nodes s → head_ s' = head_ s → mem_base s m wV lv pub → mem_base s' m wV lv pub.
Proof.
  intros Hn Hh Hb. assert (Hk : ∀ x, key_at key0 s' x = key_at key0 s x)
    by (intros x; unfold key_at, node_key; by rewrite Hn).
  assert (Hnx : ∀ x i, Next s' x i = Next s x i) by (intros x i; unfold Next; by rewrite Hn).
  destruct Hb as [H1 H2 H3 H4 H5 H6 H7 H8 H9 H10]. split; rewrite ?Hn, ?Hh; try done.
  - intros x i. rewrite Hnx. apply H3.
  - intros x i t Ht. destruct (H5 x i t Ht) as (v & Ev & Hv). exists v. split; [done|].
    unfold SkipList.nlt. intros q Hq. rewrite !Hk. by apply Hv.
Qed.

Lemma mem_base_max s m wV lv pub h :
  mem_base s m wV lv pub → h ≤ kMaxHeight →
  mem_base s (store relaxed m wV L_max (V_int h)).1 (store relaxed m wV L_max (V_int h)).2 lv pub.
Proof.
  intros [H1 H2 H3 H4 H5 H6 H7 H8 H9 H10] Hh.
  assert (Hp : ∀ x i t, ptr_at (store relaxed m wV L_max (V_int h)).1 x i t = ptr_at m x i t)
    by (intros x i t; unfold ptr_at; by rewrite history_store, decide_False by done).
  split.
  - intros l. rewrite at_store, history_store. case_decide; [subst|apply H1]. rewrite length_app. simpl. lia.
  - intros x i. rewrite history_store, decide_False by done. apply H2.
  - intros x i. rewrite Hp, at_store, decide_False by done. apply H3.
  - intros x i. rewrite Hp. apply H4.
  - intros x i t. rewrite Hp, history_store, decide_False by done. apply H5.
  - intros x i. rewrite history_store, decide_False by done. apply H6.
  - intros x nd. rewrite history_store, decide_False by done. apply H7.
  - intros x. rewrite history_store, decide_False by done. apply H8.
  - rewrite history_store, decide_True by done. by destruct (history m L_max).
  - intros t msg. rewrite history_store, decide_True by done.
    intros [Ht|[_ Ht]]%lookup_app_Some; [by apply (H10 t)|]. right.
    apply list_lookup_singleton_Some in Ht as [_ <-]. exists h. done.
Qed.

Lemma mem_ok_max s m wV lv s' :
  shared_ok compare_ key0 s lv → mem_ok s m wV lv None →
  nodes s' = nodes s → head_ s' = head_ s → max_height_ s ≤ max_height_ s' ≤ kMaxHeight →
  let mV := store_max s s' m wV in
  mem_ok s' mV.1 mV.2 lv None ∧ evolves s m lv wV s' mV.1 lv mV.2.
Proof.
  intros Hs Hm Hn Hh Hmax mV. pose proof (mo_base _ _ _ _ _ Hm) as Hb.
  destruct (mo_max _ _ _ _ _ Hm) as (msg & M1 & M2 & M3).
  assert (HV : view_le wV mV.2 ∧ (∀ y j, history mV.1 (L_next y j) = history m (L_next y j)) ∧
               mem_base s' mV.1 mV.2 lv None ∧
               ∃ msg, 1 ≤ at_ mV.2 L_max ∧ history mV.1 L_max !! at_ mV.2 L_max = Some msg ∧
                      mval msg = Some (V_int (max_height_ s'))).
  { unfold mV, store_max. destruct (Nat.ltb_spec (max_height_ s) (max_height_ s')).
    - split; [|split; [|split]].
      + intros l. rewrite at_store. case_decide; [subst|done]. rewrite (mb_last _ _ _ _ _ Hb). lia.
      + intros y j. by rewrite history_store, decide_False by done.
      + eapply mem_base_nodes; [done..|]. apply mem_base_max; [done|lia].
      + rewrite at_store, history_store, !decide_True by done. rewrite list_lookup_middle by done.
        eexists. split; [|done]. pose proof (mb_max _ _ _ _ _ Hb). destruct (history m L_max); simpl; [done|lia].
    - split; [done|]. split; [done|]. split; [by eapply mem_base_nodes|]. exists msg.
      split; [done|]. split; [done|]. rewrite M3. do 2 f_equal. lia. }
  destruct HV as (HV & Hhist & Hb' & Hmsg).
  assert (Ev : evolves s m lv wV s' mV.1 lv mV.2)
    by (eapply evolves_same; [done|done|done|by rewrite Hn|done|done]).
  split; [|done]. split; [done|..|done].
  - intros x i t msg' Ht. rewrite Hhist. intros Hl. apply (good_evolves s m lv wV None); [done..|]. by eapply mo_view.
  - intros x i t msg' q Ht. rewrite Hhist.
    assert (ptr_at mV.1 x i t = ptr_at m x i t) as -> by (unfold ptr_at; by rewrite Hhist).
    by eapply mo_publish.
Qed.

Lemma history_store_node x key h (m : mem) V l :
  history (store_node x key h m V).1 l =
    if decide (l = L_key x) then [{| mval := None; mview := ∅ |}; {| mval := Some (V_key key); mview := ∅ |}]
    else if decide (l ∈ L_next x <$> seq 0 h) then [{| mval := None; mview := ∅ |}] else history m l.
Proof.
  unfold store_node. rewrite history_store, !history_alloc.
  rewrite (decide_True (P := L_key x ∈ _)) by (apply elem_of_cons; by left).
  case_decide as E; [done|]. destruct (decide (l ∈ L_next x <$> seq 0 h)) as [Hl|Hl].
  - by rewrite decide_True by (apply elem_of_cons; by right).
  - rewrite decide_False; [done|]. by intros [?|?]%elem_of_cons.
Qed.

Lemma history_next_node x key h (m : mem) V y j :
  history (store_node x key h m V).1 (L_next y j) =
    if decide (y = x ∧ j < h) then [{| mval := None; mview := ∅ |}] else history m (L_next y j).
Proof.
  rewrite history_store_node, decide_False by done.
  destruct (decide (y = x ∧ j < h)) as [[-> Hj]|Hne].
  - rewrite decide_True; [done|]. apply list_elem_of_fmap_2, elem_of_seq. lia.
  - rewrite decide_False; [done|]. intros (k & [= -> ->] & Hk%elem_of_seq)%list_elem_of_fmap. apply Hne. lia.
Qed.

Lemma at_store_node x key h (m : mem) V l :
  at_ (store_node x key h m V).2 l = if decide (l = L_key x) then 1 else at_ V l.
Proof.
  unfold store_node. rewrite at_store. case_decide; [subst|done].
  rewrite history_alloc, decide_True by (apply elem_of_cons; by left). done.
Qed.

Lemma mem_base_node s m wV lv s' x key h :
  mem_base s m wV lv None → nodes s !! x = None → head_ s' = head_ s →
  nodes s' = <[x := {| nkey := key; height := h; next_ := ∅ |}]> (nodes s) →
  (∀ i n, n ∈ lv i → nodes s !! n ≠ None) →
  mem_base s' (store_node x key h m wV).1 (store_node x key h m wV).2 lv None.
Proof.
  intros Hb Hx Hh Hn Hlv.
  assert (Hold : ∀ y, y ≠ x → nodes s' !! y = nodes s !! y) by (intros y Hy; by rewrite Hn, lookup_insert_ne).
  assert (Hempty : ∀ j, history m (L_next x j) = []).
  { intros j. destruct (history m (L_next x j)) eqn:E; [done|].
    destruct (proj1 (mb_dom _ _ _ _ _ Hb x j)) as (nd & End & _); [by rewrite E|congruence]. }
  assert (Hp : ∀ y j t, ptr_at (store_node x key h m wV).1 y j t = ptr_at m y j t).
  { intros y j t. unfold ptr_at. rewrite history_next_node. case_decide as E; [|done].
    destruct E as [-> _]. rewrite Hempty. by destruct t. }
  assert (Hlong : ∀ y j, 2 ≤ length (history (store_node x key h m wV).1 (L_next y j)) →
            history (store_node x key h m wV).1 (L_next y j) = history m (L_next y j) ∧ y ≠ x).
  { intros y j. rewrite history_next_node. case_decide; simpl; [lia|]. intros Hl. split; [done|].
    intros ->. rewrite Hempty in Hl. simpl in Hl. lia. }
  split.
  - intros l. rewrite at_store_node. rewrite history_store_node. case_decide as E; [done|].
    case_decide as E2; [|apply Hb]. apply list_elem_of_fmap in E2 as (j & -> & _).
    by rewrite (mb_last _ _ _ _ _ Hb), Hempty.
  - intros y j. rewrite history_next_node. destruct (decide (y = x)) as [->|Hy].
    + rewrite Hn, lookup_insert_eq, Hempty. case_decide as E.
      * split; [|done]. intros _. eexists. split; [done|]. simpl. lia.
      * split; [done|]. intros (nd & [= <-] & ?). simpl in *. by destruct E.
    + rewrite decide_False by tauto. rewrite Hold by done. apply Hb.
  - intros y j. rewrite at_store_node, decide_False by done. rewrite Hp, (mb_value _ _ _ _ _ Hb).
    unfold Next. destruct (decide (y = x)) as [->|Hy]; [by rewrite Hn, lookup_insert_eq, Hx|by rewrite Hold].
  - intros y j. rewrite Hp. apply Hb.
  - intros y j t Ht. destruct (Hlong y j) as [E Hy]; [lia|]. rewrite E in Ht. rewrite Hp, Hh.
    destruct (mb_ptr _ _ _ _ _ Hb y j t Ht) as (v & Ev & Hv). exists v. split; [done|].
    intros q Hq. destruct (Hv q Hq) as [Hin Hlt]. split; [done|]. unfold SkipList.nlt, key_at, node_key in *.
    assert (q ≠ x) by (intros ->; by destruct (Hlv j x Hin)). by rewrite !Hold.
  - intros y j Hl. destruct (Hlong y j Hl) as [E Hy]. rewrite E in *. rewrite Hh. by apply Hb.
  - intros y nd. destruct (decide (y = x)) as [->|Hy].
    + rewrite Hn, lookup_insert_eq. intros [= <-]. by rewrite history_store_node, decide_True.
    + rewrite Hold by done. rewrite history_store_node, !decide_False; [apply Hb| |congruence].
      by intros (? & ? & _)%list_elem_of_fmap.
  - intros y Hy. assert (y ≠ x) as Hyx by (intros ->; by rewrite Hn, lookup_insert_eq in Hy).
    rewrite Hold in Hy by done. rewrite history_store_node, !decide_False; [by apply Hb| |congruence].
    by intros (? & ? & _)%list_elem_of_fmap.
  - rewrite history_store_node, !decide_False; [apply Hb| |done].
    by intros (? & ? & _)%list_elem_of_fmap.
  - intros t msg. rewrite history_store_node, !decide_False; [apply Hb| |done].
    by intros (? & ? & _)%list_elem_of_fmap.
Qed.

Lemma mem_ok_node s m wV lv key h x s' :
  shared_ok compare_ key0 s lv → mem_ok s m wV lv None → Insert_new s key h = (x, s') →
  let mV := store_node x key h m wV in
  mem_ok s' mV.1 mV.2 lv None ∧ evolves s m lv wV s' mV.1 lv mV.2.
Proof.
  intros Hs Hm En mV. pose proof (mo_base _ _ _ _ _ Hm) as Hb.
  unfold Insert_new, NewNode in En. injection En as Ex Es.
  assert (nodes s !! x = None) as Hx by (rewrite <- Ex; apply not_elem_of_dom, is_fresh).
  assert (nodes s' = <[x := {| nkey := key; height := h; next_ := ∅ |}]> (nodes s)) as Hn by (by subst).
  assert (head_ s' = head_ s ∧ max_height_ s' = max_height_ s) as [Hh Hmax] by (by subst).
  assert (mem_base s' mV.1 mV.2 lv None) as Hb'.
  { apply (mem_base_node s); try done. intros i n Hin.
    by destruct (so_node _ _ s lv Hs i n Hin) as (nd & -> & _). }
  assert (Hhist : ∀ y j, y ≠ x → history mV.1 (L_next y j) = history m (L_next y j)).
  { intros y j Hy. unfold mV. rewrite history_next_node, decide_False; [done|]. by intros [? _]. }
  assert (Ev : evolves s m lv wV s' mV.1 lv mV.2).
  { apply (evolves_same s m wV lv None); [done..| | |].
    - intros y Hy. rewrite Hn, lookup_insert_ne; congruence.
    - intros l. unfold mV. rewrite at_store_node. case_decide; [|done]. subst l.
      rewrite (mb_last _ _ _ _ _ Hb), (mb_fresh _ _ _ _ _ Hb) by done. simpl. lia.
    - intros y j Hy. apply Hhist. congruence. }
  assert (Hold : ∀ y j t msg, 1 ≤ t → history mV.1 (L_next y j) !! t = Some msg → y ≠ x).
  { intros y j t msg Ht Hl ->. apply lookup_lt_Some in Hl. unfold mV in Hl. rewrite history_next_node in Hl.
    case_decide; simpl in Hl; [lia|].
    destruct (proj1 (mb_dom _ _ _ _ _ Hb x j)) as (nd & End & _); [|congruence].
    intros E. rewrite E in Hl. simpl in Hl. lia. }
  split; [|done]. split; [done|..].
  - intros y j t msg Ht Hl. rewrite Hhist in Hl by (by eapply Hold).
    apply (good_evolves s m lv wV None); [done..|]. by eapply mo_view.
  - intros y j t msg q Ht Hl. assert (y ≠ x) as Hy by (eapply Hold, Hl; lia). rewrite Hhist in Hl by done.
    assert (ptr_at mV.1 y j t = ptr_at m y j t) as -> by (unfold ptr_at; by rewrite Hhist).
    by eapply mo_publish.
  - destruct (mo_max _ _ _ _ _ Hm) as (msg & H1 & H2 & H3). exists msg. unfold mV.
    rewrite history_store_node, at_store_node, !decide_False; rewrite ?Hmax; try done.
    by intros (? & ? & _)%list_elem_of_fmap.
Qed.

(** ** Lemmas: the two stores of a level *)

Lemma mem_ok_init s m wV lv x key prev i h p next s' :
  linking compare_ key0 s lv x key prev i h → i < h → mem_ok s m wV lv None →
  length (history m (L_next x i)) = 1 →
  prev !! i = Some p → Next s p i = Some next → SetNext s x i next = Some s' →
  let mV := store relaxed m wV (L_next x i) (V_ptr next) in
  shared_ok compare_ key0 s' lv ∧ weak_writer_ok s' lv (W_publish x key prev i h) ∧
  mem_ok s' mV.1 mV.2 lv (Some (x, i)) ∧ evolves s m lv wV s' mV.1 lv mV.2.
Proof.
  intros Hlk Hi Hm Hlen Hp Hnext St%SetNext_stored mV. pose proof (mo_base _ _ _ _ _ Hm) as Hb.
  pose proof (lk_ok _ _ _ _ _ _ _ _ _ Hlk) as Hs.
  destruct (linking_prev _ _ _ _ _ _ _ _ _ Hlk Hi) as (l1 & l2 & Hc & Hp' & Hn').
  rewrite Hp in Hp'. injection Hp' as ->. rewrite Hn' in Hnext. injection Hnext as <-.
  assert (x ∉ head_ s :: lv i) as Hx.
  { intros [?|Hin]%elem_of_cons; [by apply (lk_head _ _ _ _ _ _ _ _ _ Hlk)|].
    apply (lk_linked _ _ _ _ _ _ _ _ _ Hlk) in Hin. lia. }
  assert (Hsame : ∀ y j, y ∈ head_ s :: lv j → Next s' y j = Next s y j).
  { intros y j Hy. rewrite (st_next _ _ _ _ _ St), decide_False; [done|]. by intros [-> ->]. }
  assert (linking compare_ key0 s' lv x key prev i h) as Hlk'
    by (apply (linking_same _ _ s); [done..|apply St|apply St|apply St|done]).
  assert (Hk : ∀ n, key_at key0 s' n = key_at key0 s n) by (intros n; apply key_at_shape, St).
  split; [apply Hlk'|]. split.
  { split; [done|]. split; [done|]. exists l1, l2. rewrite (st_head _ _ _ _ _ St). split_and!.
    - destruct Hc as (E & H1 & H2). split; [done|].
      split; [eapply Forall_impl; [exact H1|]|eapply Forall_impl; [exact H2|]]; intros n; simpl; by rewrite Hk.
    - done.
    - rewrite (st_next _ _ _ _ _ St), decide_True by done. done. }
  assert (evolves s m lv wV s' mV.1 lv mV.2) as Ev.
  { split.
    - apply St.
    - done.
    - auto.
    - intros l. unfold mV. rewrite at_store. case_decide; [subst|done]. rewrite (mb_last _ _ _ _ _ Hb). lia.
    - intros y j Hl. unfold mV. rewrite ptr_at_store, decide_False; [done|].
      intros (-> & -> & _). lia.
    - intros V n _. eapply (sees_same s m wV); [done|apply St|done|auto|].
      intros y t v Hy. unfold mV. rewrite ptr_at_store, decide_False; [done|]. intros (-> & <- & _). done. }
  split; [|done]. unfold mV. apply (mem_ok_store _ s m wV lv None); [done|done| |done|done|].
  - apply (mem_base_store _ s m wV lv None); try done.
    + by destruct (history m (L_next x i)).
    + intros q Hq. destruct l2 as [|q' l2]; [done|]. injection Hq as ->.
      destruct (linking_bounds _ _ _ _ _ _ _ _ _ _ _ Hlk Hi Hc) as [_ H2].
      destruct Hc as (E & _). split; [rewrite E; apply elem_of_app; right; apply elem_of_cons; by left|right].
      rewrite Forall_forall in H2. apply H2, elem_of_cons. by left.
    + right. done.
  - intros q _. lia.
Qed.

(** Where [x] goes at level [i], when its link there is written. *)
Lemma publish_position s m wV lv x key prev i h :
  weak_writer_ok s lv (W_publish x key prev i h) → mem_base s m wV lv (Some (x, i)) →
  ∃ l1 l2, cut compare_ key0 s key (lv i) l1 l2 ∧ prev !! i = Some (last_or (head_ s) l1) ∧
    last_or (head_ s) l1 ∈ head_ s :: lv i ∧ last_or (head_ s) l1 ≠ x ∧
    (last_or (head_ s) l1 = head_ s ∨ nlt s (last_or (head_ s) l1) x) ∧ Forall (nlt s x) l2 ∧
    Next s x i = Some (head l2) ∧ at_ wV (L_next x i) = 1 ∧
    ∀ t v, ptr_at m x i t = Some v → v = head l2.
Proof.
  intros (Hlk & Hi & l1 & l2 & Hc & Hp & Hn) Hb. exists l1, l2. split; [done|]. split; [done|].
  destruct (linking_bounds _ _ _ _ _ _ _ _ _ _ _ Hlk Hi Hc) as [H1 H2].
  pose proof (lk_head _ _ _ _ _ _ _ _ _ Hlk) as Hne.
  assert (x ∉ lv i) as Hxi by (intros Hin; apply (lk_linked _ _ _ _ _ _ _ _ _ Hlk) in Hin; lia).
  destruct Hc as (E & _).
  assert (x ∉ head_ s :: lv i) as Hx by (by intros [?|?]%elem_of_cons).
  assert (last_or (head_ s) l1 = head_ s ∨ last_or (head_ s) l1 ∈ l1) as Hl1 by apply last_or_in.
  assert (last_or (head_ s) l1 ∈ head_ s :: lv i) as Hpin.
  { apply elem_of_cons. destruct Hl1 as [|Hl1]; [by left|right]. rewrite E. apply elem_of_app. by left. }
  split; [done|]. split; [by intros <-|]. split.
  { destruct Hl1 as [|Hl1]; [by left|right]. rewrite Forall_forall in H1. by apply H1. }
  split; [done|]. split; [done|].
  pose proof (mb_value _ _ _ _ _ Hb x i) as Hv. rewrite Hn in Hv.
  pose proof (mb_last _ _ _ _ _ Hb (L_next x i)) as Hlast.
  assert (at_ wV (L_next x i) = 1) as H1x.
  { destruct (decide (2 ≤ length (history m (L_next x i)))) as [Hl|Hl].
    - destruct (mb_init _ _ _ _ _ Hb x i Hl) as [|[_ ?]]; [done|lia].
    - assert (at_ wV (L_next x i) = 0) as E0 by lia. rewrite E0, (mb_zero _ _ _ _ _ Hb) in Hv. done. }
  split; [done|]. intros t v Ht. destruct (ptr_at_Some _ _ _ _ _ Ht) as (msg & Hl%lookup_lt_Some & _).
  destruct t as [|t]; [by rewrite (mb_zero _ _ _ _ _ Hb) in Ht|].
  assert (S t = 1) as Et by lia. rewrite Et in Ht. rewrite H1x in Hv. congruence.
Qed.

(** Linking a node at the lowest level: it is where no view can miss it, nor any
    node behind it. *)
Lemma sees_publish s m wV lv x key prev h l1 l2 s' V n :
  weak_writer_ok s lv (W_publish x key prev 0 h) → mem_base s m wV lv (Some (x, 0)) →
  cut compare_ key0 s key (lv 0) l1 l2 →
  stored s s' (last_or (head_ s) l1) 0 (Some x) →
  sees s m lv V n →
  sees s' (store release m wV (L_next (last_or (head_ s) l1) 0) (V_ptr (Some x))).1
    (set_level lv 0 (l1 ++ x :: l2)) V n.
Proof.
  intros Hw Hb Hc St [Hin Hn]. destruct Hw as (Hlk & Hrest).
  destruct (publish_position _ _ _ _ _ _ _ _ _ (conj Hlk Hrest) Hb)
    as (k1 & k2 & Hck & Hp & Hpin & Hpx & Hpl & H2 & _ & _ & Hxv).
  pose proof (lk_ok _ _ _ _ _ _ _ _ _ Hlk) as Hs.
  assert (∀ a b, nlt s' a b ↔ nlt s a b) as Hnlt.
  { intros a b. unfold SkipList.nlt. by rewrite !(key_at_shape _ s s') by apply St. }
  destruct (cut_unique _ _ _ _ _ _ _ _ _ Hck Hc) as [-> ->]. destruct Hc as (El & _).
  assert (Hmem : ∀ y, y ∈ l1 ++ x :: l2 ↔ y = x ∨ y ∈ lv 0).
  { intros y. rewrite El, !elem_of_app, elem_of_cons. tauto. }
  unfold set_level. split; rewrite decide_True by done; [apply Hmem; by right|].
  rewrite (st_head _ _ _ _ _ St). intros y t v Hy Hlt Ht. rewrite ptr_at_store.
  assert (y = head_ s ∨ nlt s y n) as Hlt' by (destruct Hlt as [?|?%Hnlt]; auto).
  case_decide as Enew.
  - destruct Enew as (-> & _ & _). intros [= <-]. exists x. split; [done|].
    destruct (after_last_or s lv l1 l2 n Hs El Hin Hlt') as (_ & _ & _ & Hn2).
    right. apply Hnlt. rewrite Forall_forall in H2. by apply H2.
  - intros Hv. destruct (decide (y = x)) as [->|Hyx].
    + apply Hxv in Hv as ->. destruct Hlt' as [?|Hxn]; [by destruct (lk_head _ _ _ _ _ _ _ _ _ Hlk)|].
      destruct (after_last_or s lv l1 l2 n Hs El Hin) as (q & Hq & Hqn & _).
      { destruct Hpl as [|Hpl]; [by left|right]. by eapply nlt_trans. }
      exists q. split; [done|]. rewrite Hnlt. done.
    + destruct (Hn y t v) as (q & -> & Hq); [|done..|].
      { apply elem_of_cons in Hy as [->|Hy]; apply elem_of_cons; [by left|right].
        apply Hmem in Hy as [?|?]; done. }
      exists q. split; [done|]. rewrite Hnlt. done.
Qed.

Lemma mem_ok_publish s m wV lv x key prev i h p s' :
  weak_writer_ok s lv (W_publish x key prev i h) → mem_ok s m wV lv (Some (x, i)) →
  prev !! i = Some p → SetNext s p i (Some x) = Some s' →
  let mV := store release m wV (L_next p i) (V_ptr (Some x)) in
  ∃ lv', linking compare_ key0 s' lv' x key prev (S i) h ∧
    mem_ok s' mV.1 mV.2 lv' None ∧ evolves s m lv wV s' mV.1 lv' mV.2.
Proof.
  intros Hw Hm Hp St%SetNext_stored mV. pose proof (mo_base _ _ _ _ _ Hm) as Hb.
  destruct (publish_position _ _ _ _ _ _ _ _ _ Hw Hb)
    as (l1 & l2 & Hc & Hp' & Hpin & Hpx & Hpl & H2 & Hnx & Hx1 & Hxv).
  rewrite Hp in Hp'. injection Hp' as ->. pose proof Hw as (Hlk & Hi & _).
  pose proof (lk_ok _ _ _ _ _ _ _ _ _ Hlk) as Hs. pose proof Hc as (El & _).
  exists (set_level lv i (l1 ++ x :: l2)).
  assert (linked_at s s' x (last_or (head_ s) l1) i (head l2)) as La.
  { split; [|apply St..]. intros y j. rewrite (st_next _ _ _ _ _ St).
    destruct (decide (j = i)) as [->|Hj]; [|by rewrite decide_False by tauto].
    destruct (decide (y = last_or (head_ s) l1)) as [->|Hy]; [by rewrite decide_True|].
    rewrite decide_False by tauto. by case_decide; subst. }
  pose proof (linked_at_linking _ _ _ _ _ _ _ _ _ _ _ _ Hlk Hi Hc La) as Hlk'.
  split; [done|]. pose proof (lk_ok _ _ _ _ _ _ _ _ _ Hlk') as Hs'.
  assert (Hgrow : ∀ j n, n ∈ lv j → n ∈ set_level lv i (l1 ++ x :: l2) j).
  { intros j n Hn. unfold set_level. case_decide as E; [|done]. subst j. rewrite El in Hn.
    rewrite elem_of_app, elem_of_cons. apply elem_of_app in Hn. tauto. }
  assert (Hxin : x ∈ set_level lv i (l1 ++ x :: l2) i).
  { unfold set_level. rewrite decide_True by done. apply elem_of_mid. }
  assert (i < kMaxHeight) as Hik.
  { pose proof (lk_height _ _ _ _ _ _ _ _ _ Hlk). pose proof (so_max _ _ s lv Hs). lia. }
  pose proof (mb_linked _ _ _ _ _ _ _ Hs Hb Hik Hpin) as Hpat.
  assert (2 ≤ length (history m (L_next (last_or (head_ s) l1) i))) as Hplen
    by (rewrite (mb_last _ _ _ _ _ Hb) in Hpat; lia).
  assert (mem_base s' mV.1 mV.2 (set_level lv i (l1 ++ x :: l2)) None) as Hb'.
  { apply (mem_base_store _ s m wV lv (Some (x, i))); try done.
    - intros E. rewrite E in Hplen. simpl in Hplen. lia.
    - by intros q [= <-].
    - by intros y j [= <- <-].
    - left. apply elem_of_cons in Hpin as [->|Hpin]; apply elem_of_cons; [by left|right]. auto. }
  assert (evolves s m lv wV s' mV.1 (set_level lv i (l1 ++ x :: l2)) mV.2) as Ev.
  { split.
    - apply St.
    - done.
    - intros n _. apply key_at_shape, St.
    - intros l. unfold mV. rewrite at_store. case_decide; [subst|done]. rewrite (mb_last _ _ _ _ _ Hb). lia.
    - intros y j Hl. unfold mV. rewrite ptr_at_store, decide_False; [done|].
      intros (-> & -> & E). rewrite <- E in Hl. lia.
    - intros V n _. destruct i as [|i].
      + by eapply sees_publish.
      + eapply (sees_same s m wV); [done|apply St|done|intros y _; apply key_at_shape, St|].
        intros y t v Hy. unfold mV. rewrite ptr_at_store, decide_False; [done|]. by intros (_ & ? & _). }
  split; [|done]. unfold mV. apply (mem_ok_store _ s m wV lv (Some (x, i))); try done.
  - intros _. by apply writer_good.
  - intros q [= <-] _. split; [done|]. rewrite at_store, decide_False by congruence. by rewrite Hx1.
Qed.

(** ** Lemmas: steps *)

(** A step of the writer that readers outlive. *)
Lemma weak_ok_writer c lv s' mV w lv' :
  weak_ok c lv → shared_ok compare_ key0 s' lv' → weak_writer_ok s' lv' w →
  mem_ok s' mV.1 mV.2 lv' (pending w) →
  evolves (wshared c) (wmem c) lv (wview c) s' mV.1 lv' mV.2 →
  weak_ok (with_writer c s' mV w) lv'.
Proof.
  intros [O1 O2 O3 O4] Hs Hw Hm Ev. split; [done..|]. simpl. intros j r Hj.
  eapply reader_evolves; [exact O1|apply O3|exact Ev|by eapply O4].
Qed.

(** The link that the writer initialises has not been written. *)
Lemma init_length s m wV lv x key prev i h :
  linking compare_ key0 s lv x key prev i h → i < h → mem_base s m wV lv None →
  length (history m (L_next x i)) = 1.
Proof.
  intros Hlk Hi Hb. destruct (decide (2 ≤ length (history m (L_next x i)))) as [Hl|Hl].
  - exfalso. destruct (mb_init _ _ _ _ _ Hb x i Hl) as [[?|Hin]%elem_of_cons|[? _]]; [|..|done].
    + by apply (lk_head _ _ _ _ _ _ _ _ _ Hlk).
    + apply (lk_linked _ _ _ _ _ _ _ _ _ Hlk) in Hin. lia.
  - assert (history m (L_next x i) ≠ []) as Hne.
    { apply (mb_dom _ _ _ _ _ Hb). pose proof (lk_shape _ _ _ _ _ _ _ _ _ Hlk) as Hsh. unfold shape in Hsh.
      destruct (nodes s !! x) as [nd|]; [|done]. injection Hsh as _ E. exists nd. split; [done|lia]. }
    destruct (history m (L_next x i)); [done|]. simpl in *. lia.
Qed.

Lemma writer_step_ok c c' lv : weak_ok c lv → writer_step c c' → ∃ lv', weak_ok c' lv'.
Proof.
  intros Hok Hst. pose proof Hok as [Hs Hw Hm _].
  destruct Hst as [c key s' prev h Ew Ec Eb|c key prev h x s' Ew En|c x key prev i h p next s' Ew Hi Ep En Es
    |c x key prev i h p s' Ew Ep Es|c x key prev h Ew]; rewrite Ew in Hw, Hm.
  - pose proof (Contains_false _ _ _ lv key Hs Ec) as Hne.
    destruct (Insert_begin_ok _ _ _ lv key Hs Hne) as (s2 & p2 & h2 & E2 & Hn & Hh & Hb & Hmx & Hs2 & Hp).
    rewrite Eb in E2. injection E2 as <- <- <-. exists lv.
    destruct (mem_ok_max (wshared c) (wmem c) (wview c) lv s' Hs Hm Hn Hh) as [Hm' Ev].
    { pose proof (so_max _ _ s' lv Hs2). split; [|lia]. by eapply Insert_begin_max. }
    apply weak_ok_writer with lv; try done. split; [|split; [lia|done]].
    intros n Hin E0. unfold key_at, node_key in E0. rewrite Hn in E0. by apply (Hne n).
  - destruct Hw as (Hne & Hh & Hp). exists lv.
    pose proof (Insert_new_ok _ _ (wshared c) lv key prev h Hs Hne Hh Hp) as H. rewrite En in H.
    destruct H as (Hlk & _). destruct (mem_ok_node _ _ _ _ _ _ _ _ Hs Hm En) as [Hm' Ev].
    apply weak_ok_writer with lv; try done. apply Hlk.
  - exists lv. pose proof (init_length _ _ _ _ _ _ _ _ _ Hw Hi (mo_base _ _ _ _ _ Hm)) as Hlen.
    destruct (mem_ok_init _ _ _ _ _ _ _ _ _ _ _ _ Hw Hi Hm Hlen Ep En Es) as (Hs' & Hw' & Hm' & Ev).
    by apply weak_ok_writer with lv.
  - destruct (mem_ok_publish _ _ _ _ _ _ _ _ _ _ _ Hw Hm Ep Es) as (lv' & Hlk & Hm' & Ev). exists lv'.
    apply weak_ok_writer with lv; try done. apply Hlk.
  - exists lv. destruct Hok as [O1 O2 O3 O4]. rewrite Ew in O3. by split.
Qed.

(** A thread that synchronises with the writer sees the whole list. *)
Lemma synced_ok c lv l r :
  weak_ok c lv → wwriter c = W_idle → chain (wshared c) 0 (head_ (wshared c)) l →
  r = reader_new ∨ reader_ok (wshared c) (wmem c) lv (wview c) r →
  reader_ok (wshared c) (wmem c) lv (wview c) (synced c l r).
Proof.
  intros [Hs _ Hm _] Ew Hl Hr. rewrite Ew in Hm. pose proof (mo_base _ _ _ _ _ Hm) as Hb.
  assert (0 < kMaxHeight) as H0 by (unfold kMaxHeight; lia).
  rewrite (chain_unique _ _ _ _ _ Hl (so_chain _ _ _ lv Hs 0 H0)). clear Hl l.
  pose proof (writer_good _ _ _ _ Hs Hb) as Gw. pose proof (join_l (rview r) (wview c)) as Jl.
  pose proof (join_r (rview r) (wview c)) as Jr.
  assert (good (wshared c) (wmem c) lv (wview c) (rview r)) as G
    by (destruct Hr as [->|Hr]; [apply good_empty|apply Hr]).
  split; simpl.
  - by apply good_join.
  - destruct (mo_max _ _ _ _ _ Hm) as (_ & H1 & _). specialize (Jr L_max). lia.
  - intros i Hi. pose proof (mb_linked _ _ _ _ _ (head_ (wshared c)) i Hs Hb Hi ltac:(apply elem_of_cons; by left)).
    specialize (Jr (L_next (head_ (wshared c)) i)). lia.
  - intros n [Hn|Hn]%elem_of_app.
    + eapply sees_mono; [exact Jr|]. by eapply writer_sees.
    + destruct Hr as [->|Hr]; [by apply elem_of_nil in Hn|].
      eapply sees_mono; [exact Jl|]. by apply Hr.
  - intros n Hn. destruct Hr as [->|Hr]; [done|]. destruct (ro_node _ _ _ _ _ Hr n Hn) as [? ?].
    specialize (Jl (L_next n 0)). split; [done|lia].
  - intros q st E. destruct Hr as [->|Hr]; [done|]. destruct (ro_search _ _ _ _ _ Hr q st E) as (? & ? & ?).
    specialize (Jl (L_next (cur st) (lvl st))). split; [done|]. split; [lia|done].
Qed.

Lemma weak_step_ok c c' lv : weak_ok c lv → weak_step c c' → ∃ lv', weak_ok c' lv'.
Proof.
  intros Hok Hst. destruct Hst as [c c' Hst|c l Ew Hl|c j r l Ew Hl Hj|c j r a l t r' Hj Ha Ht Hact].
  - by eapply writer_step_ok.
  - exists lv. pose proof Hok as [O1 O2 O3 O4]. split; [done..|]. simpl. intros j r [Hr|[_ Hr]]%lookup_app_Some.
    + by eapply O4.
    + apply list_lookup_singleton_Some in Hr as [_ <-]. apply synced_ok; [done..|by left].
  - exists lv. pose proof Hok as [O1 O2 O3 O4]. split; [done..|]. simpl.
    intros j' r' [(-> & <- & _)|[_ Hr]]%list_lookup_insert_Some; [|by eapply O4].
    apply synced_ok; [done..|]. right. by eapply O4.
  - exists lv. pose proof Hok as [O1 O2 O3 O4]. split; [done..|]. simpl.
    intros j' r0 [(-> & <- & _)|[_ Hr]]%list_lookup_insert_Some; [|by eapply O4].
    destruct (reader_act_ok _ _ _ _ _ _ _ _ _ O1 O3 (O4 _ _ Hj) Ha Ht) as (r2 & E2 & Hr2 & _). congruence.
Qed.

(** ** Lemmas: the constructor *)

Abbreviation no_levels := (λ _ : nat, @nil positive).

Lemma new_good s m wV V :
  mem_base s m wV no_levels None → view_le V wV →
  (∀ x i, 1 ≤ at_ V (L_next x (S i)) → 1 ≤ at_ V (L_next x i)) → good s m no_levels wV V.
Proof.
  intros Hb HV Hbelow.
  assert (Hhead : ∀ x i, 1 ≤ at_ V (L_next x i) → x ∈ [head_ s]).
  { intros x i Hx. specialize (HV (L_next x i)). rewrite (mb_last _ _ _ _ _ Hb) in HV.
    destruct (mb_init _ _ _ _ _ Hb x i) as [|[? _]]; [lia|done..]. }
  split; [done|done| |done|].
  - intros x i Hx. apply Hhead, list_elem_of_singleton in Hx. done.
  - intros x i q _ Hq. apply (ptr_in _ _ _ _ _ _ _ _ _ Hb) in Hq as [Hq _]. by apply elem_of_nil in Hq.
Qed.

(** One store of the constructor's loop. *)
Definition new_ok (hd : positive) (k : nat) (s : list_state) (mV : mem * view loc) : Prop :=
  mem_ok s mV.1 mV.2 no_levels None ∧ good s mV.1 no_levels mV.2 mV.2 ∧ head_ s = hd ∧
  ∀ j, j < k → 1 ≤ at_ mV.2 (L_next hd j).

Lemma new_ok_step hd k s mV s' :
  new_ok hd k s mV → SetNext s hd k None = Some s' →
  new_ok hd (S k) s' (store release mV.1 mV.2 (L_next hd k) (V_ptr None)).
Proof.
  destruct mV as [m wV]. simpl. intros (Hm & G & Hhd & Hk) E. simpl in *. pose proof (mo_base _ _ _ _ _ Hm) as Hb.
  pose proof (SetNext_stored _ _ _ _ _ E) as St. set (mV' := store release m wV (L_next hd k) (V_ptr None)).
  assert (history m (L_next hd k) ≠ []) as Hne.
  { apply (mb_dom _ _ _ _ _ Hb). unfold SetNext in E. destruct (nodes s !! hd) as [nd|]; [|done]. simpl in E.
    exists nd. split; [done|]. case_match eqn:Hlt; [|done]. by apply Nat.ltb_lt in Hlt. }
  assert (1 ≤ length (history m (L_next hd k))) as Hlen by (destruct (history _ _); simpl; [done|lia]).
  assert (HV : view_le wV mV'.2).
  { intros l. unfold mV'. rewrite at_store. case_decide; [subst|done]. rewrite (mb_last _ _ _ _ _ Hb). lia. }
  assert (Hhd' : head_ s' = hd) by (rewrite <- Hhd; apply St).
  assert (Hb' : mem_base s' mV'.1 mV'.2 no_levels None).
  { apply (mem_base_store _ s m wV no_levels None); try done. left. apply list_elem_of_singleton. congruence. }
  assert (Hk' : ∀ j, j < S k → 1 ≤ at_ mV'.2 (L_next hd j)).
  { intros j Hj. destruct (decide (j = k)) as [->|Hjk].
    - unfold mV'. by rewrite at_store, decide_True.
    - specialize (HV (L_next hd j)). specialize (Hk j ltac:(lia)). lia. }
  assert (G' : good s' mV'.1 no_levels mV'.2 mV'.2).
  { apply new_good; [done|done|]. intros x i Hx. destruct (decide (x = hd ∧ S i = k)) as [[-> <-]|Hxi].
    - apply Hk'. lia.
    - unfold mV' in Hx. rewrite at_store, decide_False in Hx by (intros [= ? ?]; by apply Hxi).
      apply (go_below _ _ _ _ _ G) in Hx. specialize (HV (L_next x i)). lia. }
  split; [|done]. apply (mem_ok_store _ s m wV no_levels None); [done|done|done| |done|done].
  split; [congruence|done| |done| |].
  - intros n Hn. by apply elem_of_nil in Hn.
  - intros x i Hl. rewrite ptr_at_store, decide_False; [done|]. intros (-> & -> & E1). rewrite <- E1 in Hl. lia.
  - intros V n _ Hn. apply se_in in Hn. by apply elem_of_nil in Hn.
Qed.

Lemma new_ok_loop hd n s mV :
  new_ok hd 0 s mV →
  ∀ s', foldl (λ s i, s ← s; SetNext s (head_ s) i None) (Some s) (seq 0 n) = Some s' →
  new_ok hd n s' (foldl (λ mV i, store release mV.1 mV.2 (L_next hd i) (V_ptr None)) mV (seq 0 n)).
Proof.
  intros H0. induction n as [|n IH]; intros s'; [by intros [= <-]|].
  rewrite seq_S, !foldl_snoc. simpl. intros (s1 & E1 & E2)%bind_Some. specialize (IH s1 E1).
  pose proof IH as (_ & _ & Hhd & _). rewrite Hhd in E2. by eapply new_ok_step.
Qed.

(** Memory before the head is allocated. *)
Definition no_nodes (hd : positive) : list_state :=
  {| nodes := ∅; head_ := hd; max_height_ := 1; rnd_ := 0 |}.

Lemma history_max l : l ≠ L_max → history (Val := value Key) (alloc ∅ [L_max]) l = [].
Proof. intros Hl. rewrite history_alloc, decide_False; [done|]. by intros ?%list_elem_of_singleton. Qed.

Lemma mem_base_empty hd : mem_base (no_nodes hd) (alloc ∅ [L_max]) ∅ no_levels None.
Proof.
  assert (∀ x i t, ptr_at (alloc ∅ [L_max]) x i t = None) as Hp
    by (intros x i t; unfold ptr_at; by rewrite history_max).
  split; intros *; rewrite ?history_max, ?Hp by done; try (done || (simpl; lia)).
  - rewrite at_empty, history_alloc. by case_decide.
  - split; [done|]. by intros (? & ? & _).
  - intros Hm%lookup_lt_Some. rewrite history_alloc, decide_True in Hm
      by (by apply list_elem_of_singleton). simpl in Hm. left. lia.
Qed.

(** The head, and the first store to [max_height_]. *)
Lemma new_ok_start hd s0 :
  nodes s0 = <[hd := {| nkey := key0; height := kMaxHeight; next_ := ∅ |}]> ∅ → head_ s0 = hd →
  max_height_ s0 = 1 →
  let mV := store_node hd key0 kMaxHeight (alloc ∅ [L_max]) ∅ in
  new_ok hd 0 s0 (store relaxed mV.1 mV.2 L_max (V_int 1)).
Proof.
  intros Hns Hhd Hmax mV. pose proof (mem_base_empty hd) as Hbe.
  assert (mem_base s0 mV.1 mV.2 no_levels None) as Hb0.
  { apply (mem_base_node (no_nodes hd)); [done|done|done|done|]. intros i n Hn. by apply elem_of_nil in Hn. }
  pose proof (mem_base_max s0 mV.1 mV.2 no_levels None 1 Hb0 ltac:(unfold kMaxHeight; lia)) as Hb1.
  assert (∀ x i, length (history mV.1 (L_next x i)) ≤ 1) as Hlen.
  { intros x i. unfold mV. rewrite history_next_node. case_decide; [done|]. rewrite history_max by done.
    simpl. lia. }
  assert (∀ x i, history (store relaxed mV.1 mV.2 L_max (V_int 1)).1 (L_next x i) = history mV.1 (L_next x i))
    as Hhist by (intros x i; by rewrite history_store, decide_False).
  split; [|split; [|split; [done|intros; lia]]].
  - split; [done|..].
    + intros x i t msg Ht. rewrite Hhist. intros Hm%lookup_lt_Some. specialize (Hlen x i). lia.
    + intros x i t msg q Ht. rewrite Hhist. intros Hm%lookup_lt_Some. specialize (Hlen x i). lia.
    + rewrite history_store, at_store, !decide_True by done. rewrite list_lookup_middle by done.
      rewrite Hmax. eexists. split; [|done]. pose proof (mb_max _ _ _ _ _ Hb0).
      destruct (history mV.1 L_max); simpl; [done|lia].
  - apply new_good; [done|done|]. intros x i.
    rewrite (mb_last _ _ _ _ _ Hb1), Hhist. specialize (Hlen x (S i)). lia.
Qed.

Lemma weak_new_ok : ∃ c, weak_new = Some c ∧ weak_ok c no_levels ∧ wwriter c = W_idle ∧ wreaders c = [].
Proof.
  destruct (SkipList_new_shared compare_ key0) as (s & Enew & Hs). unfold weak_new. rewrite Enew.
  cbn [mbind option_bind]. unfold SkipList_new in Enew.
  destruct (NewNode ∅ key0 kMaxHeight) as [hd ns] eqn:EN. unfold NewNode in EN.
  set (s0 := {| nodes := ns; head_ := hd; max_height_ := 1; rnd_ := Random_new 0xdeadbeef |}) in *.
  assert (ns = <[hd := {| nkey := key0; height := kMaxHeight; next_ := ∅ |}]> ∅) as Hns by congruence.
  pose proof (new_ok_start hd s0 Hns eq_refl eq_refl) as Hn0.
  pose proof (new_ok_loop hd kMaxHeight s0 _ Hn0 s Enew) as (Hm & _ & Hhd & _).
  rewrite Hhd. set (mV := foldl _ _ _) in *. eexists. split; [reflexivity|]. split; [|split; reflexivity].
  split; [done|done|exact Hm|]. intros j r Hj. done.
Qed.

Lemma weak_steps_ok c0 c : weak_new = Some c0 → rtc weak_step c0 c → ∃ lv, weak_ok c lv.
Proof.
  destruct weak_new_ok as (c1 & E & Hok & _). rewrite E. intros [= <-] Hrtc.
  generalize no_levels, Hok. clear E Hok. induction Hrtc as [c|c1 c2 c3 H12 _ IH]; intros lv Hok; [by exists lv|].
  destruct (weak_step_ok c1 c2 lv Hok H12) as [lv2 H2]. by eapply IH.
Qed.

(** The writer reads its own stores. *)
Record writer_loads (s : list_state) (m : mem) (V : view loc) : Prop := {
  wl_next x i t : readable m V (L_next x i) t → ptr_at m x i t = Next s x i;
  wl_max t : readable m V L_max t →
    ∃ msg, history m L_max !! t = Some msg ∧ mval msg = Some (V_int (max_height_ s));
  wl_key x k : node_key s x = Some k → read_key m V x = Some k }.

Lemma writer_loads_last s m wV lv pub : mem_ok s m wV lv pub → writer_loads s m wV.
Proof.
  intros Hm. pose proof (mo_base _ _ _ _ _ Hm) as Hb.
  assert (Hlast : ∀ l t, readable m wV l t → t = at_ wV l).
  { intros l t [? ?]. pose proof (mb_last _ _ _ _ _ Hb l). lia. }
  split.
  - intros x i t ->%Hlast. apply Hb.
  - intros t ->%Hlast. destruct (mo_max _ _ _ _ _ Hm) as (msg & _ & ? & ?). by exists msg.
  - intros x k. unfold node_key. destruct (nodes s !! x) as [nd|] eqn:End; [|done]. intros [= <-].
    destruct (mb_key _ _ _ _ _ Hb x nd End) as [Hlen Hl]. unfold read_key, plain_read.
    rewrite decide_True by (rewrite (mb_last _ _ _ _ _ Hb), Hlen; done).
    destruct (last (history m (L_key x))) as [msg|]; [|done]. injection Hl as E.
    cbn [mbind option_bind]. by rewrite E.
Qed.

(** Inside an insertion the writer can always go on. *)
Lemma writer_progress c lv : weak_ok c lv → wwriter c ≠ W_idle → ∃ c', writer_step c c'.
Proof.
  intros [Hs Hw Hm _] Hne. destruct (wwriter c) as [|key prev h|x key prev i h|x key prev i h] eqn:Ew; [done|..].
  - destruct (Insert_new (wshared c) key h) as [x s'] eqn:En. eexists. by eapply w_new.
  - pose proof (lk_height _ _ _ _ _ _ _ _ _ Hw) as Hh.
    destruct (decide (i = h)) as [->|Hi]; [eexists; by eapply w_end|].
    destruct (linking_prev _ _ _ _ _ _ _ _ _ Hw ltac:(lia)) as (l1 & l2 & _ & Hp & Hn).
    destruct (SetNext_ok (wshared c) x i (head l2) key h) as (s' & E & _);
      [apply (lk_shape _ _ _ _ _ _ _ _ _ Hw)|lia|]. eexists. eapply w_init; [done|lia|done..].
  - destruct (publish_position _ _ _ _ _ _ _ _ _ Hw (mo_base _ _ _ _ _ Hm)) as (l1 & l2 & [El _] & Hp & _).
    destruct Hw as (Hlk & Hi & _). pose proof (lk_height _ _ _ _ _ _ _ _ _ Hlk) as Hh.
    pose proof (so_max _ _ _ _ Hs).
    destruct (so_tall _ _ (wshared c) lv i l1 l2 Hs ltac:(lia) El) as (k & hp & Ek & Hhp).
    destruct (SetNext_ok (wshared c) _ i (Some x) k hp Ek Hhp) as (s' & E & _). eexists. by eapply w_publish.
Qed.

(** A reader always finds a message. *)
Lemma reader_progress s m lv wV pub r a l :
  mem_ok s m wV lv pub → reader_ok s m lv wV r → action_loc a (head_ s) r = Some l →
  ∃ t, readable m (rview r) l t.
Proof.
  intros Hm [G R2 R3 _ R5 R6] Ha. pose proof (mo_base _ _ _ _ _ Hm) as Hb.
  assert (1 ≤ at_ (rview r) l) as H1.
  { unfold kMaxHeight in R3. destruct a; simpl in Ha; destruct (searching r) as [[q st]|]; try done;
      try destruct (node_ r) as [n|] eqn:En; simplify_eq/=; try done;
      try (by eapply R6); try (apply R3; lia); by apply R5. }
  pose proof (go_le _ _ _ _ _ G l) as Hle. rewrite (mb_last _ _ _ _ _ Hb) in Hle.
  exists (at_ (rview r) l). unfold readable. lia.
Qed.

(** From an idle writer to the middle of an insertion. *)
Lemma reach_insertion c lv key :
  weak_ok c lv → wwriter c = W_idle → Contains compare_ (wshared c) key = Some false →
  ∃ c' x prev h, rtc weak_step c c' ∧ wwriter c' = W_init x key prev 1 h ∧ wreaders c' = wreaders c.
Proof.
  intros Hok Ew Ec. pose proof Hok as [Hs _ _ _].
  destruct (Insert_begin_ok _ _ _ lv key Hs (Contains_false _ _ _ lv key Hs Ec))
    as (s1 & prev & h & Eb & _ & _ & Hh & _).
  set (c1 := with_writer c s1 (store_max (wshared c) s1 (wmem c) (wview c)) (W_new key prev h)).
  assert (writer_step c c1) as H1 by (by apply w_begin).
  destruct (writer_step_ok _ _ _ Hok H1) as [lv1 Hok1].
  destruct (Insert_new s1 key h) as [x s2] eqn:En.
  set (c2 := with_writer c1 s2 (store_node x key h (wmem c1) (wview c1)) (W_init x key prev 0 h)).
  assert (writer_step c1 c2) as H2 by (by apply w_new).
  destruct (writer_step_ok _ _ _ Hok1 H2) as [lv2 Hok2].
  destruct (writer_progress c2 lv2 Hok2) as [c3 H3]; [done|].
  destruct (writer_step_ok _ _ _ Hok2 H3) as [lv3 Hok3].
  assert (wwriter c3 = W_publish x key prev 0 h ∧ wreaders c3 = wreaders c) as [E3 R3]
    by (inversion H3; subst; simplify_eq/=; [done|lia]).
  destruct (writer_progress c3 lv3 Hok3) as [c4 H4]; [by rewrite E3|].
  assert (wwriter c4 = W_init x key prev 1 h ∧ wreaders c4 = wreaders c) as [E4 R4]
    by (inversion H4; subst; simpl; split; congruence).
  exists c4, x, prev, h. split; [|done]. eapply rtc_l; [apply ws_writer, H1|].
  eapply rtc_l; [apply ws_writer, H2|]. eapply rtc_l; [apply ws_writer, H3|].
  apply rtc_once, ws_writer, H4.
Qed.

(** C1: the skip list on weak memory: one writer inserting keys, readers that may
    find any old value of a link that the memory orders of the code let them find,
    and every interleaving of their accesses. In every reachable state
    the lowest level is a strictly sorted list; the writer's loads return what it
    stored last, its searches cannot fail, an insertion can begin exactly with a key
    that is not there (its assertion), and inside an insertion it can go on; a
    reader can always go on, and whatever message it reads, it does not
    race with the writer nor touch uninitialised memory; and when it ends an
    operation of the iterator, the answer is the right one for some list between the
    nodes it must not miss - all that were there when it last synchronised with the
    writer, and all that it found itself - and the nodes that are there now. *)
Theorem SkipList_weak_readers c0 c :
  weak_new = Some c0 → rtc weak_step c0 c →
  let s := wshared c in
  ∃ l, chain s 0 (head_ s) l ∧ StronglySorted (nlt s) l ∧
    writer_loads s (wmem c) (wview c) ∧
    (∀ key, ∃ b, Contains compare_ s key = Some b ∧ (is_Some (Insert_begin compare_ s key) ↔ b = false)) ∧
    (wwriter c ≠ W_idle → ∃ c', writer_step c c') ∧
    ∀ j r a x, wreaders c !! j = Some r → action_loc a (head_ s) r = Some x →
      (∃ t, readable (wmem c) (rview r) x t) ∧
      ∀ t, readable (wmem c) (rview r) x t →
        ∃ r', reader_act a (wmem c) (head_ s) t r = Some r' ∧
          (searching r' = None →
           ∃ l', l' `sublist_of` l ∧ (∀ n, n ∈ known r → n ∈ l') ∧ action_spec s a r l' (node_ r')).
Proof.
  intros Hnew Hrtc s. destruct (weak_steps_ok c0 c Hnew Hrtc) as (lv & Hok). pose proof Hok as [Hs _ Hm Hr].
  exists (lv 0). split; [apply (so_chain _ _ _ _ Hs); unfold kMaxHeight; lia|].
  split; [apply (so_sorted _ _ _ _ Hs)|]. split; [by eapply writer_loads_last|]. split.
  { intros key. by apply (Contains_Insert_begin _ key0 _ lv). }
  split; [by apply (writer_progress c lv)|]. intros j r a x Hj Ha.
  split; [by eapply reader_progress; [|by eapply Hr|]|]. intros t Ht.
  destruct (reader_act_ok _ _ _ _ _ _ _ _ _ Hs Hm (Hr _ _ Hj) Ha Ht) as (r' & E & _ & Hans).
  exists r'. split; [exact E|exact Hans].
Qed.
End Weak.

(** ** Witness: a reader, synchronised with an empty list, while a key is inserted *)

Lemma weak_reachable :
  ∃ c0 c r, weak_new 0%Z = Some c0 ∧ rtc (weak_step int_compare) c0 c ∧
    wreaders c !! 0 = Some r ∧ searching r = None ∧ ∃ x prev h, wwriter c = W_init x 5%Z prev 1 h.
Proof.
  destruct (weak_new_ok int_compare 0%Z) as (c0 & Hnew & Hok & Ew & Er).
  exists c0. enough (∃ c r, rtc (weak_step int_compare) c0 c ∧ wreaders c !! 0 = Some r ∧
    searching r = None ∧ ∃ x prev h, wwriter c = W_init x 5%Z prev 1 h) as (c & r & H)
    by (exists c, r; split; [exact Hnew|exact H]).
  clear Hnew. pose proof Hok as [Hs _ _ _].
  set (c1 := with_readers c0 (wreaders c0 ++ [synced c0 [] reader_new])).
  assert (weak_step int_compare c0 c1) as H1.
  { apply ws_spawn; [done|]. apply (so_chain _ _ _ _ Hs). unfold kMaxHeight. lia. }
  destruct (weak_step_ok _ 0%Z _ _ _ Hok H1) as [lv1 Hok1].
  destruct (Contains_ok int_compare 0%Z (wshared c1) _ 5%Z Hs) as ([] & Ec & Hb).
  { destruct (proj1 Hb eq_refl) as (n & Hn & _). destruct (not_elem_of_nil _ Hn). }
  destruct (reach_insertion int_compare 0%Z c1 lv1 5%Z Hok1 Ew Ec) as (c & x & prev & h & Hrtc & Ew' & Er').
  exists c, (synced c0 [] reader_new). split; [by eapply rtc_l|].
  split; [|split; [done|by exists x, prev, h]]. rewrite Er'. simpl. by rewrite Er.
Qed.

Lemma SkipList_weak_readers_witness :
  ∃ c0 c r t r', weak_new 0%Z = Some c0 ∧ rtc (weak_step int_compare) c0 c ∧
    wreaders c !! 0 = Some r ∧ (∃ x prev h, wwriter c = W_init x 5%Z prev 1 h) ∧
    reader_act int_compare A_SeekToFirst (wmem c) (head_ (wshared c)) t r = Some r'.
Proof.
  destruct weak_reachable as (c0 & c & r & Hnew & Hrtc & Hr & Es & Hw).
  destruct (SkipList_weak_readers int_compare 0%Z c0 c Hnew Hrtc) as (l & _ & _ & _ & _ & _ & H).
  destruct (H 0 r A_SeekToFirst (L_next (head_ (wshared c)) 0) Hr) as [[t Ht] Hact].
  { simpl. by rewrite Es. }
  destruct (Hact t Ht) as (r' & E & _). exists c0, c, r, t, r'. split; [exact Hnew|]. split; [exact Hrtc|].
  split; [exact Hr|]. split; [exact Hw|exact E].
Defined.
