(* ===== verification/HandleTable.v ===== *)
(** * The hash table of the cache (util/cache_impl.h, util/cache.cpp: LRUHandle,
    HandleTable)

    Entries are records at addresses of a heap; the table links them into
    bucket chains through their [next_hash] fields and edits the chains through
    pointers to pointers.  The table refines a finite set of entries with
    distinct (hash, key) pairs. *)
From Stdlib Require Import ZArith Lia.
From stdpp Require Import base gmap fin_maps fin_sets sets numbers list.
From S2P Require Import Prelude.

#[local] Open Scope Z_scope.

(** ** State *)

(** [value] and [deleter] are opaque pointers; null and uninitialised links are
    [None] (following one is an error). *)
Record LRUHandle := {
  value : Z;
  deleter : Z;
  next_hash : option positive;
  next : option positive;
  prev : option positive;
  charge : Z;
  in_cache : bool;
  refs : Z;
  hash : Z;
  key_data : bytes }.

Abbreviation heap := (gmap positive LRUHandle).

Record HandleTable := {
  length_ : Z;
  elems_ : Z;
  list_ : list (option positive) }.

Definition set_next_hash (v : option positive) (e : LRUHandle) : LRUHandle :=
  {| value := value e; deleter := deleter e; next_hash := v; next := next e; prev := prev e;
     charge := charge e; in_cache := in_cache e; refs := refs e; hash := hash e;
     key_data := key_data e |}.

(** [e->key()], with its assertion. *)
Definition handle_key (h : heap) (e : positive) : option bytes :=
  hd ← h !! e; if decide (next hd = Some e) then None else Some (key_data hd).

(** A [LRUHandle**]: into the array or at the [next_hash] field of an entry. *)
Inductive pointer := Bucket (i : nat) | NextHash (e : positive).

Definition load (h : heap) (t : HandleTable) (p : pointer) : option (option positive) :=
  match p with
  | Bucket i => list_ t !! i
  | NextHash e => next_hash <$> h !! e
  end.

Definition store (h : heap) (t : HandleTable) (p : pointer) (v : option positive) :
  option (heap * HandleTable) :=
  match p with
  | Bucket i =>
      _ ← (list_ t !! i);
      Some (h, {| length_ := length_ t; elems_ := elems_ t; list_ := <[i := v]> (list_ t) |})
  | NextHash e => hd ← (h !! e); Some (<[e := set_next_hash v hd]> h, t)
  end.

(** ** Operations *)

(** [hash & (length - 1)] *)
Definition bucket_of (hash length : Z) : nat := Z.to_nat (Z.land hash (length - 1)).

(** The [while] loop of [FindPointer]. *)
Fixpoint FindPointer_loop (fuel : nat) (h : heap) (t : HandleTable) (key : bytes) (hs : Z)
  (ptr : pointer) : option pointer :=
  match fuel with
  | O => None
  | S fuel =>
      cur ← load h t ptr;
      match cur with
      | None => Some ptr
      | Some e =>
          hd ← (h !! e);
          if decide (hash hd ≠ hs) then FindPointer_loop fuel h t key hs (NextHash e)
          else
            k ← handle_key h e;
            if decide (key ≠ k) then FindPointer_loop fuel h t key hs (NextHash e) else Some ptr
      end
  end.

(** A chain has no more entries than the heap. *)
Definition chain_fuel (h : heap) : nat := S (size h).

Definition FindPointer (h : heap) (t : HandleTable) (key : bytes) (hs : Z) : option pointer :=
  FindPointer_loop (chain_fuel h) h t key hs (Bucket (bucket_of hs (length_ t))).

Definition Table_Lookup (h : heap) (t : HandleTable) (key : bytes) (hs : Z) :
  option (option positive) :=
  ptr ← FindPointer h t key hs; load h t ptr.

(** [while (new_length < elems_) new_length *= 2]; 32 doublings exceed any
    32-bit count. *)
Fixpoint grow (fuel : nat) (new_length elems : Z) : option Z :=
  if new_length <? elems then
    match fuel with O => None | S fuel => grow fuel (u32 (new_length * 2)) elems end
  else Some new_length.

(** [while (h != nullptr)]: the entries of one chain move to [new_list]. *)
Fixpoint move_chain (fuel : nat) (h : heap) (new_length : Z) (new_list : list (option positive))
  (count : Z) (p : option positive) : option (heap * list (option positive) * Z) :=
  match p with
  | None => Some (h, new_list, count)
  | Some e =>
      match fuel with
      | O => None
      | S fuel =>
          hd ← (h !! e);
          let i := bucket_of (hash hd) new_length in
          q ← (new_list !! i);
          move_chain fuel (<[e := set_next_hash q hd]> h) new_length (<[i := Some e]> new_list)
            (u32 (count + 1)) (next_hash hd)
      end
  end.

(** [for (i = 0; i < length_; i++)] over the chains of the old array. *)
Fixpoint move_chains (h : heap) (new_length : Z) (new_list : list (option positive))
  (count : Z) (old : list (option positive)) : option (heap * list (option positive) * Z) :=
  match old with
  | [] => Some (h, new_list, count)
  | p :: old =>
      '(h, new_list, count) ← move_chain (chain_fuel h) h new_length new_list count p;
      move_chains h new_length new_list count old
  end.

Definition Resize (h : heap) (t : HandleTable) : option (heap * HandleTable) :=
  new_length ← grow 32 4 (elems_ t);
  '(h, new_list, count) ←
    move_chains h new_length (replicate (Z.to_nat new_length) None) 0 (list_ t);
  if elems_ t =? count then
    Some (h, {| length_ := new_length; elems_ := elems_ t; list_ := new_list |})
  else None.

(** The constructor. *)
Definition HandleTable_new (h : heap) : option (heap * HandleTable) :=
  Resize h {| length_ := 0; elems_ := 0; list_ := [] |}.

(** [Insert(e)]: the entry it replaces, if any. *)
Definition Table_Insert (h : heap) (t : HandleTable) (e : positive) :
  option (option positive * heap * HandleTable) :=
  hd ← (h !! e);
  k ← handle_key h e;
  ptr ← FindPointer h t k (hash hd);
  old ← load h t ptr;
  nh ← match old with None => Some None | Some o => next_hash <$> h !! o end;
  '(h, t) ← store h t (NextHash e) nh;
  '(h, t) ← store h t ptr (Some e);
  match old with
  | Some _ => Some (old, h, t)
  | None =>
      let t := {| length_ := length_ t; elems_ := u32 (elems_ t + 1); list_ := list_ t |} in
      if length_ t <? elems_ t then '(h, t) ← Resize h t; Some (old, h, t) else Some (old, h, t)
  end.

Definition Table_Remove (h : heap) (t : HandleTable) (key : bytes) (hs : Z) :
  option (option positive * heap * HandleTable) :=
  ptr ← FindPointer h t key hs;
  result ← load h t ptr;
  match result with
  | None => Some (None, h, t)
  | Some r =>
      nh ← next_hash <$> h !! r;
      '(h, t) ← store h t ptr nh;
      Some (result, h, {| length_ := length_ t; elems_ := u32 (elems_ t - 1); list_ := list_ t |})
  end.

(** ** Invariant *)

(** The chain that starts at [p]. *)
Fixpoint hchain (h : heap) (p : option positive) (l : list positive) : Prop :=
  match l with
  | [] => p = None
  | e :: l => p = Some e ∧ ∃ hd, h !! e = Some hd ∧ hchain h (next_hash hd) l
  end.

(** The chains [bs] of an array [lst] of [n] buckets. *)
Record buckets_ok (h : heap) (n : Z) (lst : list (option positive)) (bs : list (list positive)) :
  Prop := {
  bo_size : Z.of_nat (length lst) = n ∧ length bs = length lst;
  bo_pow : ∃ k, 2 <= k <= 31 ∧ n = 2 ^ k;
  bo_chain i p l : lst !! i = Some p → bs !! i = Some l → hchain h p l;
  bo_hash i l e : bs !! i = Some l → e ∈ l →
    ∃ hd, h !! e = Some hd ∧ next hd ≠ Some e ∧ 0 <= hash hd < 2 ^ 32 ∧ bucket_of (hash hd) n = i;
  bo_nodup : NoDup (concat bs) }.

Definition matches (h : heap) (key : bytes) (hs : Z) (e : positive) : Prop :=
  ∃ hd, h !! e = Some hd ∧ hash hd = hs ∧ key_data hd = key.

(** Two entries of the table never have the same hash and key. *)
Definition distinct (h : heap) (es : list positive) : Prop :=
  ∀ e1 e2 key hs, e1 ∈ es → e2 ∈ es → matches h key hs e1 → matches h key hs e2 → e1 = e2.

(** The table holds exactly the entries [E]. *)
Definition table_rep (h : heap) (t : HandleTable) (E : gset positive) : Prop :=
  ∃ bs, buckets_ok h (length_ t) (list_ t) bs ∧ distinct h (concat bs) ∧
    elems_ t = Z.of_nat (length (concat bs)) ∧ E = list_to_set (concat bs).

(** Heaps that differ in [next_hash] fields only. *)
Definition strip (e : LRUHandle) : LRUHandle := set_next_hash None e.
Definition same_but_hash (h h' : heap) : Prop := ∀ a, strip <$> h !! a = strip <$> h' !! a.

(** ** Lemmas: chains *)

Lemma hchain_head h p l : hchain h p l → p = head l.
Proof. destruct l; [done|]. by intros [-> _]. Qed.

Lemma hchain_next h p l' x l2 :
  hchain h p (l' ++ x :: l2) → ∃ hd, h !! x = Some hd ∧ hchain h (next_hash hd) l2.
Proof.
  revert p. induction l' as [|y l' IH]; intros p; simpl; [by intros [_ H]|].
  intros (_ & hd & _ & H). by apply IH in H.
Qed.

Lemma hchain_frame h h' p l :
  (∀ e, e ∈ l → h' !! e = h !! e) → hchain h p l → hchain h' p l.
Proof.
  revert p. induction l as [|e l IH]; intros p Heq; [done|]. intros (-> & hd & E & H).
  split; [done|]. exists hd. rewrite Heq by (apply elem_of_cons; by left). split; [done|].
  apply IH; [|done]. intros y Hy. apply Heq, elem_of_cons. by right.
Qed.

Lemma hchain_lookup h p l e : hchain h p l → e ∈ l → is_Some (h !! e).
Proof.
  intros H (l1 & l2 & ->)%list_elem_of_split. apply hchain_next in H as (hd & E & _). by exists hd.
Qed.

(** Redirecting the link after [x]. *)
Lemma hchain_update h p l' x hd l2 v l3 :
  h !! x = Some hd → hchain h p (l' ++ x :: l2) → x ∉ l' → x ∉ l3 → hchain h v l3 →
  hchain (<[x := set_next_hash v hd]> h) p (l' ++ x :: l3).
Proof.
  intros E. revert p. induction l' as [|y l' IH]; intros p Hc H1 H3 Hv; simpl in *.
  - destruct Hc as (-> & _). split; [done|]. exists (set_next_hash v hd).
    rewrite lookup_insert_eq. split; [done|]. simpl. eapply hchain_frame; [|exact Hv].
    intros e He. apply lookup_insert_ne. by intros ->.
  - destruct Hc as (-> & hy & Ey & Hc). apply not_elem_of_cons in H1 as [Hxy H1].
    split; [done|]. exists hy. rewrite lookup_insert_ne by done. split; [done|]. by apply IH.
Qed.

(** The pointer to the link that follows the prefix [l1] of bucket [i]. *)
Definition ptr_at (i : nat) (l1 : list positive) : pointer :=
  match last l1 with None => Bucket i | Some x => NextHash x end.

Lemma ptr_at_snoc i l x : ptr_at i (l ++ [x]) = NextHash x.
Proof. unfold ptr_at. by rewrite last_snoc. Qed.

Lemma load_at h t i p l1 l2 :
  list_ t !! i = Some p → hchain h p (l1 ++ l2) → load h t (ptr_at i l1) = Some (head l2).
Proof.
  intros Hi Hc. destruct l1 as [|x l1 _] using rev_ind.
  - simpl. rewrite Hi. f_equal. by apply (hchain_head h).
  - rewrite ptr_at_snoc. simpl. rewrite <- app_assoc in Hc.
    apply hchain_next in Hc as (hd & -> & Hc). simpl. f_equal. by eapply hchain_head.
Qed.

Lemma same_but_hash_refl h : same_but_hash h h.
Proof. done. Qed.

Lemma same_but_hash_trans h1 h2 h3 :
  same_but_hash h1 h2 → same_but_hash h2 h3 → same_but_hash h1 h3.
Proof. intros H1 H2 a. by rewrite H1. Qed.

Lemma same_but_hash_set h e hd v :
  h !! e = Some hd → same_but_hash h (<[e := set_next_hash v hd]> h).
Proof.
  intros E a. destruct (decide (a = e)) as [->|Hne].
  - rewrite lookup_insert_eq, E. done.
  - by rewrite lookup_insert_ne.
Qed.

Lemma same_but_hash_lookup h h' a hd :
  same_but_hash h h' → h !! a = Some hd → ∃ hd', h' !! a = Some hd' ∧ strip hd' = strip hd.
Proof.
  intros H E. specialize (H a). rewrite E in H. destruct (h' !! a) as [hd'|]; [|done].
  exists hd'. split; [done|]. simpl in H. congruence.
Qed.

Lemma strip_fields hd hd' : strip hd' = strip hd →
  next hd' = next hd ∧ hash hd' = hash hd ∧ key_data hd' = key_data hd.
Proof. unfold strip, set_next_hash. intros H. by inversion H. Qed.

Lemma matches_same h h' key hs e :
  same_but_hash h h' → matches h key hs e → matches h' key hs e.
Proof.
  intros Hs (hd & E & <- & <-). destruct (same_but_hash_lookup h h' e hd Hs E) as (hd' & E' & Hf).
  apply strip_fields in Hf as (_ & ? & ?). by exists hd'.
Qed.

Lemma same_but_hash_sym h h' : same_but_hash h h' → same_but_hash h' h.
Proof. intros H a. by rewrite H. Qed.

(** The link at [ptr_at i l1] now leads to the chain [l3]. *)
Lemma store_at h t i p l1 l2 v l3 :
  list_ t !! i = Some p → hchain h p (l1 ++ l2) → NoDup l1 →
  (∀ x, x ∈ l1 → x ∉ l3) → hchain h v l3 →
  ∃ h' lst', store h t (ptr_at i l1) v
             = Some (h', {| length_ := length_ t; elems_ := elems_ t; list_ := lst' |}) ∧
    length lst' = length (list_ t) ∧
    (∃ p', lst' !! i = Some p' ∧ hchain h' p' (l1 ++ l3)) ∧
    (∀ j, j ≠ i → lst' !! j = list_ t !! j) ∧
    (∀ a, a ∉ l1 → h' !! a = h !! a) ∧ same_but_hash h h'.
Proof.
  intros Hi Hc Hnd Hdis Hv. destruct l1 as [|x l1 _] using rev_ind.
  - eexists h, _. simpl. rewrite Hi. cbn [mbind option_bind]. split; [done|].
    rewrite length_insert. split; [done|]. split.
    { exists v. rewrite list_lookup_insert_eq by (by eapply lookup_lt_Some). done. }
    split_and!; try done. intros j Hj. by rewrite list_lookup_insert_ne.
  - rewrite ptr_at_snoc. simpl. rewrite <- app_assoc in Hc.
    destruct (hchain_next _ _ _ _ _ Hc) as (hd & E & _). rewrite E. cbn [mbind option_bind].
    eexists _, (list_ t). split; [by destruct t|]. split; [done|]. split.
    { exists p. split; [done|]. rewrite <- app_assoc. simpl. eapply hchain_update; try done.
      - apply NoDup_app in Hnd as (_ & Hnd & _). intros Hx. by apply (Hnd x Hx), list_elem_of_singleton.
      - apply Hdis, elem_of_app. right. by apply list_elem_of_singleton. }
    split_and!; [done| |by apply same_but_hash_set].
    intros a Ha. apply lookup_insert_ne. intros ->. apply Ha, elem_of_app. right.
    by apply list_elem_of_singleton.
Qed.

(** ** Lemmas: searching *)

Lemma FindPointer_loop_spec fuel h t key hs i p l1 l2 :
  list_ t !! i = Some p → hchain h p (l1 ++ l2) →
  (∀ e, e ∈ l2 → ∃ hd, h !! e = Some hd ∧ next hd ≠ Some e) →
  Forall (λ e, ¬ matches h key hs e) l1 → (length l2 < fuel)%nat →
  ∃ k1 k2, l1 ++ l2 = k1 ++ k2 ∧
    FindPointer_loop fuel h t key hs (ptr_at i l1) = Some (ptr_at i k1) ∧
    Forall (λ e, ¬ matches h key hs e) k1 ∧ (∀ e, head k2 = Some e → matches h key hs e).
Proof.
  intros Hi. revert fuel l1. induction l2 as [|e l2 IH]; intros fuel l1 Hc Hk Hl1 Hf;
    destruct fuel as [|fuel]; try (simpl in Hf; lia); cbn [FindPointer_loop];
    rewrite (load_at _ _ _ _ _ _ Hi Hc); cbn [mbind option_bind head].
  - by exists l1, [].
  - destruct (Hk e) as (hd & E & Hself); [apply elem_of_cons; by left|].
    rewrite E. cbn [mbind option_bind].
    assert (Hrec : ¬ matches h key hs e →
      ∃ k1 k2, l1 ++ e :: l2 = k1 ++ k2 ∧
        FindPointer_loop fuel h t key hs (NextHash e) = Some (ptr_at i k1) ∧
        Forall (λ e, ¬ matches h key hs e) k1 ∧ (∀ e, head k2 = Some e → matches h key hs e)).
    { intros Hm. destruct (IH fuel (l1 ++ [e])) as (k1 & k2 & E1 & E2 & E3).
      - by rewrite <- app_assoc.
      - intros x Hx. apply Hk, elem_of_cons. by right.
      - apply Forall_app. by repeat constructor.
      - simpl in Hf. lia.
      - exists k1, k2. rewrite <- E1, <- app_assoc. split; [done|].
        rewrite ptr_at_snoc in E2. done. }
    destruct (decide (hash hd ≠ hs)) as [Hh|Hh].
    { apply Hrec. intros (hd' & E' & Hh' & _). congruence. }
    apply dec_stable in Hh. unfold handle_key. rewrite E. cbn [mbind option_bind].
    rewrite decide_False by done. cbn [mbind option_bind].
    destruct (decide (key ≠ key_data hd)) as [Hkey|Hkey].
    { apply Hrec. intros (hd' & E' & _ & Hk'). congruence. }
    apply dec_stable in Hkey. exists l1, (e :: l2). split; [done|]. split; [done|]. split; [done|].
    intros e' [= <-]. by exists hd.
Qed.

Lemma elem_of_bucket {A} (bs : list (list A)) i l e : bs !! i = Some l → e ∈ l → e ∈ concat bs.
Proof.
  intros Hi He. rewrite <- (take_drop_middle bs i l Hi), concat_app. simpl.
  apply elem_of_app. right. apply elem_of_app. by left.
Qed.

Lemma concat_bucket {A} (bs : list (list A)) i l :
  bs !! i = Some l →
  ∃ r, concat bs ≡ₚ l ++ r ∧ ∀ l', concat (<[i := l']> bs) ≡ₚ l' ++ r.
Proof.
  intros Hi. exists (concat (take i bs) ++ concat (drop (S i) bs)).
  assert (∀ x y z : list A, x ++ y ++ z ≡ₚ y ++ x ++ z) as Hp.
  { intros x y z. rewrite !app_assoc. by rewrite (Permutation_app_comm x y). }
  split.
  - rewrite <- (take_drop_middle bs i l Hi) at 1. rewrite concat_app. simpl. apply Hp.
  - intros l'. rewrite insert_take_drop by (by eapply lookup_lt_Some).
    rewrite concat_app. simpl. apply Hp.
Qed.

Lemma length_concat_heap h n lst bs :
  buckets_ok h n lst bs → (length (concat bs) <= size h)%nat.
Proof.
  intros Hb. rewrite <- size_dom, <- (size_list_to_set (C:=gset positive) (concat bs)) by apply Hb.
  apply subseteq_size. intros e He%elem_of_list_to_set. apply elem_of_dom.
  apply list_elem_of_In, in_concat in He as (l & Hl%list_elem_of_In & He%list_elem_of_In).
  apply list_elem_of_lookup in Hl as [i Hi].
  destruct (bo_hash _ _ _ _ Hb i l e Hi He) as (hd & E & _). by exists hd.
Qed.

Lemma bucket_of_lt hs n : (∃ k, 2 <= k <= 31 ∧ n = 2 ^ k) → (bucket_of hs n < Z.to_nat n)%nat.
Proof.
  intros (k & Hk & ->). unfold bucket_of. rewrite land_ones_mod by lia.
  pose proof (Z.mod_pos_bound hs (2 ^ k) ltac:(lia)). lia.
Qed.

(** [FindPointer] cuts its bucket at the matching entry. *)
Lemma FindPointer_spec h t bs key hs :
  buckets_ok h (length_ t) (list_ t) bs →
  let i := bucket_of hs (length_ t) in
  ∃ p k1 k2, list_ t !! i = Some p ∧ bs !! i = Some (k1 ++ k2) ∧ hchain h p (k1 ++ k2) ∧
    FindPointer h t key hs = Some (ptr_at i k1) ∧
    Forall (λ e, ¬ matches h key hs e) k1 ∧ (∀ e, head k2 = Some e → matches h key hs e).
Proof.
  intros Hb i. destruct (bo_size _ _ _ _ Hb) as [Hn Hl].
  pose proof (bucket_of_lt hs (length_ t) (bo_pow _ _ _ _ Hb)) as Hi. fold i in Hi.
  destruct (lookup_lt_is_Some_2 (list_ t) i) as [p Hp]; [lia|].
  destruct (lookup_lt_is_Some_2 bs i) as [l Hbi]; [lia|].
  pose proof (bo_chain _ _ _ _ Hb i p l Hp Hbi) as Hc.
  assert (length l <= size h)%nat as Hlen.
  { destruct (concat_bucket bs i l Hbi) as (r & E & _).
    pose proof (length_concat_heap _ _ _ _ Hb) as H. rewrite E, length_app in H. lia. }
  destruct (FindPointer_loop_spec (chain_fuel h) h t key hs i p [] l Hp Hc)
    as (k1 & k2 & E & E2 & H1 & H2).
  - intros e He. destruct (bo_hash _ _ _ _ Hb i l e Hbi He) as (hd & Ehd & Hself & _). eauto.
  - constructor.
  - unfold chain_fuel. lia.
  - simpl in E. subst l. exists p, k1, k2. by split_and!.
Qed.

(** Entries found elsewhere cannot match. *)
Lemma match_bucket h n lst bs key hs e i l :
  buckets_ok h n lst bs → bs !! i = Some l → e ∈ l → matches h key hs e → i = bucket_of hs n.
Proof.
  intros Hb Hi He (hd & E & <- & _). destruct (bo_hash _ _ _ _ Hb i l e Hi He) as (hd' & E' & _ & _ & Hx).
  congruence.
Qed.

Lemma elem_of_concat {A} (bs : list (list A)) e :
  e ∈ concat bs → ∃ i l, bs !! i = Some l ∧ e ∈ l.
Proof.
  intros (l & Hl%list_elem_of_In & He%list_elem_of_In)%list_elem_of_In%in_concat.
  apply list_elem_of_lookup in Hl as [i Hi]. eauto.
Qed.

Lemma no_match_concat h t bs key hs k1 k2 :
  buckets_ok h (length_ t) (list_ t) bs → distinct h (concat bs) →
  bs !! bucket_of hs (length_ t) = Some (k1 ++ k2) →
  Forall (λ e, ¬ matches h key hs e) k1 → (∀ e, head k2 = Some e → matches h key hs e) →
  ∀ e, e ∈ concat bs → matches h key hs e → head k2 = Some e.
Proof.
  intros Hb Hd Hi H1 H2 e (j & l & Hj & He)%elem_of_concat Hm.
  pose proof (match_bucket _ _ _ _ _ _ _ _ _ Hb Hj He Hm) as ->. rewrite Hi in Hj. injection Hj as <-.
  apply elem_of_app in He as [He|He].
  - rewrite Forall_forall in H1. by destruct (H1 e).
  - destruct k2 as [|e' k2]; [by apply elem_of_nil in He|]. simpl. f_equal.
    assert (∀ x, x ∈ e' :: k2 → x ∈ concat bs) as Hin.
    { intros x Hx. eapply elem_of_bucket; [exact Hi|]. apply elem_of_app. by right. }
    apply (Hd e' e key hs); [apply Hin, elem_of_cons; by left|by apply Hin|by apply H2|done].
Qed.

(** What a search for [key] and [hs] may answer. *)
Definition search_result (h : heap) (E : gset positive) (key : bytes) (hs : Z)
  (r : option positive) : Prop :=
  match r with
  | Some e => e ∈ E ∧ matches h key hs e
  | None => ∀ e, e ∈ E → ¬ matches h key hs e
  end.

Lemma search_result_head h t bs key hs k1 k2 :
  buckets_ok h (length_ t) (list_ t) bs → distinct h (concat bs) →
  bs !! bucket_of hs (length_ t) = Some (k1 ++ k2) →
  Forall (λ e, ¬ matches h key hs e) k1 → (∀ e, head k2 = Some e → matches h key hs e) →
  search_result h (list_to_set (concat bs)) key hs (head k2).
Proof.
  intros Hb Hd Hi H1 H2. pose proof (no_match_concat _ _ _ _ _ _ _ Hb Hd Hi H1 H2) as Hno.
  destruct k2 as [|e k2]; simpl.
  - intros e He%elem_of_list_to_set Hm. by specialize (Hno e He Hm).
  - split; [|by apply H2]. apply elem_of_list_to_set. eapply elem_of_bucket; [exact Hi|].
    apply elem_of_mid.
Qed.

Lemma Table_Lookup_spec h t E key hs :
  table_rep h t E → ∃ r, Table_Lookup h t key hs = Some r ∧ search_result h E key hs r.
Proof.
  intros (bs & Hb & Hd & _ & ->).
  destruct (FindPointer_spec h t bs key hs Hb) as (p & k1 & k2 & Hp & Hi & Hc & HF & H1 & H2).
  unfold Table_Lookup. rewrite HF. cbn [mbind option_bind].
  rewrite (load_at _ _ _ _ _ _ Hp Hc). eexists. split; [done|].
  by eapply search_result_head.
Qed.

(** Replacing the part of a bucket after [k1]. *)
Lemma buckets_store h t bs i p k1 k2 v l3 :
  buckets_ok h (length_ t) (list_ t) bs → bs !! i = Some (k1 ++ k2) →
  list_ t !! i = Some p → hchain h v l3 →
  (∀ e, e ∈ l3 → ∃ hd, h !! e = Some hd ∧ next hd ≠ Some e ∧ 0 <= hash hd < 2 ^ 32 ∧
     bucket_of (hash hd) (length_ t) = i) →
  NoDup (concat (<[i := k1 ++ l3]> bs)) →
  ∃ h' lst', store h t (ptr_at i k1) v
             = Some (h', {| length_ := length_ t; elems_ := elems_ t; list_ := lst' |}) ∧
    buckets_ok h' (length_ t) lst' (<[i := k1 ++ l3]> bs) ∧ same_but_hash h h'.
Proof.
  intros Hb Hi Hp Hv Hl3 Hnd. pose proof (bo_chain _ _ _ _ Hb i p _ Hp Hi) as Hc.
  destruct (concat_bucket bs i _ Hi) as (r & Er & Er').
  assert (NoDup (k1 ++ k2 ++ r)) as Hnd0.
  { rewrite app_assoc, <- Er. apply Hb. }
  assert (NoDup (k1 ++ l3 ++ r)) as Hnd1 by (rewrite app_assoc, <- Er'; done).
  destruct (store_at h t i p k1 k2 v l3 Hp Hc) as (h' & lst' & Est & Hlen & (p' & Hp' & Hc') & Hoth & Hfr & Hsame).
  - by apply NoDup_app in Hnd1 as (? & _ & _).
  - apply NoDup_app in Hnd1 as (_ & H & _). intros x Hx Hx'. by apply (H x Hx), elem_of_app; left.
  - done.
  - exists h', lst'. split; [done|]. split; [|done]. split.
    + rewrite length_insert. destruct (bo_size _ _ _ _ Hb). lia.
    + apply Hb.
    + intros j q l Hq Hl. destruct (decide (j = i)) as [->|Hne].
      * rewrite list_lookup_insert_eq in Hl by (by eapply lookup_lt_Some). congruence.
      * rewrite list_lookup_insert_ne in Hl by done. rewrite Hoth in Hq by done.
        eapply hchain_frame; [|by eapply (bo_chain _ _ _ _ Hb)]. intros e He. apply Hfr. intros He1.
        assert (e ∈ r) as Her.
        { assert (e ∈ concat bs) as Hec by (eapply elem_of_bucket; [exact Hl|exact He]). rewrite Er in Hec.
          apply elem_of_app in Hec as [Hec|]; [|done]. exfalso.
          destruct (bo_hash _ _ _ _ Hb j l e Hl He) as (hd & E1 & _ & _ & Hj).
          destruct (bo_hash _ _ _ _ Hb i _ e Hi Hec) as (hd' & E2 & _ & _ & Hi'). congruence. }
        apply NoDup_app in Hnd0 as (_ & H & _). by apply (H e He1), elem_of_app; right.
    + intros j l e Hl He.
      assert (∃ hd, h !! e = Some hd ∧ next hd ≠ Some e ∧ 0 <= hash hd < 2 ^ 32 ∧
                    bucket_of (hash hd) (length_ t) = j) as (hd & E & H1 & H2 & H3).
      { destruct (decide (j = i)) as [->|Hne].
        - rewrite list_lookup_insert_eq in Hl by (by eapply lookup_lt_Some). injection Hl as <-.
          apply elem_of_app in He as [He|He]; [|by apply Hl3].
          apply (bo_hash _ _ _ _ Hb i _ e Hi). apply elem_of_app. by left.
        - rewrite list_lookup_insert_ne in Hl by done. by apply (bo_hash _ _ _ _ Hb j l). }
      destruct (same_but_hash_lookup _ _ _ _ Hsame E) as (hd' & E' & Hf).
      apply strip_fields in Hf as (F1 & F2 & F3). exists hd'. rewrite F1, F2. done.
    + done.
Qed.

Lemma distinct_same h h' es : same_but_hash h h' → distinct h es → distinct h' es.
Proof.
  intros Hs Hd e1 e2 key hs H1 H2 M1 M2. apply same_but_hash_sym in Hs.
  apply (Hd e1 e2 key hs); [done..| |]; by eapply matches_same.
Qed.

Lemma distinct_sub h es es' : (∀ e, e ∈ es' → e ∈ es) → distinct h es → distinct h es'.
Proof. intros Hs Hd e1 e2 key hs H1 H2. apply Hd; auto. Qed.

Lemma Table_Remove_spec h t E key hs :
  table_rep h t E → Z.of_nat (size E) < 2 ^ 31 →
  ∃ r h' t', Table_Remove h t key hs = Some (r, h', t') ∧ search_result h E key hs r ∧
    table_rep h' t' (match r with Some e => E ∖ {[e]} | None => E end) ∧ same_but_hash h h'.
Proof.
  intros (bs & Hb & Hd & Hel & ->) Hsz.
  destruct (FindPointer_spec h t bs key hs Hb) as (p & k1 & k2 & Hp & Hi & Hc & HF & H1 & H2).
  pose proof (search_result_head _ _ _ _ _ _ _ Hb Hd Hi H1 H2) as Hres.
  unfold Table_Remove. rewrite HF. cbn [mbind option_bind].
  rewrite (load_at _ _ _ _ _ _ Hp Hc). cbn [mbind option_bind].
  destruct k2 as [|e k2]; cbn [head].
  { exists None, h, t. split; [done|]. split; [done|]. split; [|done]. by exists bs. }
  destruct (hchain_next _ _ _ _ _ Hc) as (hd & Ehd & Hc2). rewrite Ehd. cbn [fmap option_fmap option_map mbind option_bind].
  set (i := bucket_of hs (length_ t)) in *.
  destruct (concat_bucket bs i _ Hi) as (r & Er & Er').
  assert (NoDup (e :: k1 ++ k2 ++ r)) as Hnd.
  { assert (e :: k1 ++ k2 ++ r ≡ₚ concat bs) as ->; [|apply Hb].
    rewrite Er, <- app_assoc. simpl. apply Permutation_middle. }
  apply NoDup_cons in Hnd as [Hnin Hnd].
  destruct (buckets_store h t bs i p k1 (e :: k2) (next_hash hd) k2 Hb Hi Hp Hc2)
    as (h' & lst' & -> & Hb' & Hsame).
  { intros x Hx. apply (bo_hash _ _ _ _ Hb i _ x Hi), elem_of_app. right.
    apply elem_of_cons. by right. }
  { by rewrite Er', <- app_assoc. }
  cbn [mbind option_bind]. eexists _, _, _. split; [done|]. split; [done|]. split; [|done].
  assert (concat bs ≡ₚ e :: concat (<[i := k1 ++ k2]> bs)) as Hperm.
  { rewrite Er, Er', <- !app_assoc. simpl. symmetry. apply Permutation_middle. }
  exists (<[i := k1 ++ k2]> bs). simpl. split; [done|]. split; [|split].
  - eapply distinct_same; [exact Hsame|]. eapply distinct_sub; [|exact Hd].
    intros x Hx. rewrite Hperm. apply elem_of_cons. by right.
  - rewrite Hel, Hperm. simpl. rewrite size_list_to_set in Hsz by apply Hb.
    rewrite Hperm in Hsz. simpl in Hsz. rewrite u32_small by lia. lia.
  - rewrite Hperm. simpl.
    assert (e ∉ (list_to_set (concat (<[i := k1 ++ k2]> bs)) : gset positive)) as Hne.
    { rewrite elem_of_list_to_set, Er', <- app_assoc. done. }
    apply set_eq. intros x. rewrite elem_of_difference, elem_of_union, elem_of_singleton.
    split; [by intros [[?|?] ?]|]. intros Hx. split; [by right|]. by intros ->.
Qed.

(** ** Lemmas: resizing *)

Lemma grow_spec fuel k elems :
  2 <= k <= 31 → elems <= 2 ^ 31 → (Z.to_nat (31 - k) <= fuel)%nat →
  ∃ j, grow fuel (2 ^ k) elems = Some (2 ^ j) ∧ 2 <= j <= 31 ∧ elems <= 2 ^ j.
Proof.
  intros Hk He. revert k Hk. induction fuel as [|fuel IH]; intros k Hk Hf; cbn [grow].
  - assert (k = 31) as -> by lia. destruct (Z.ltb_spec (2 ^ 31) elems); [lia|]. by exists 31.
  - destruct (Z.ltb_spec (2 ^ k) elems); [|exists k; split_and!; done || lia].
    destruct (Z.eq_dec k 31) as [->|]; [lia|].
    assert (2 ^ (k + 1) = 2 ^ k * 2) as E by (rewrite Z.pow_add_r by lia; lia).
    assert (2 ^ (k + 1) <= 2 ^ 31) by (apply Z.pow_le_mono_r; lia).
    rewrite u32_small by lia. rewrite <- E. apply IH; lia.
Qed.

(** An entry that can be put in a table. *)
Definition entry_ok (h : heap) (e : positive) : Prop :=
  ∃ hd, h !! e = Some hd ∧ next hd ≠ Some e ∧ 0 <= hash hd < 2 ^ 32.

Lemma entry_ok_same h h' e : same_but_hash h h' → entry_ok h e → entry_ok h' e.
Proof.
  intros Hs (hd & E & H1 & H2). destruct (same_but_hash_lookup _ _ _ _ Hs E) as (hd' & E' & Hf).
  apply strip_fields in Hf as (F1 & F2 & _). exists hd'. by rewrite F1, F2.
Qed.

(** Pushing an entry in front of its new bucket. *)
Lemma push_bucket h n nl nbs e hd q :
  buckets_ok h n nl nbs → h !! e = Some hd → entry_ok h e → e ∉ concat nbs →
  nl !! bucket_of (hash hd) n = Some q →
  ∃ b, nbs !! bucket_of (hash hd) n = Some b ∧
    buckets_ok (<[e := set_next_hash q hd]> h) n (<[bucket_of (hash hd) n := Some e]> nl)
      (<[bucket_of (hash hd) n := e :: b]> nbs).
Proof.
  set (i := bucket_of (hash hd) n). intros Hb E (hd' & E' & Hself & Hhash) Hne Hq.
  rewrite E in E'. injection E' as <-. destruct (bo_size _ _ _ _ Hb) as [Hn Hl].
  destruct (lookup_lt_is_Some_2 nbs i) as [b Hbi]; [rewrite Hl; by eapply lookup_lt_Some|].
  exists b. split; [done|].
  destruct (concat_bucket nbs i b Hbi) as (r & Er & Er').
  assert (Hfr : ∀ j l, nbs !! j = Some l → ∀ x, x ∈ l →
            <[e := set_next_hash q hd]> h !! x = h !! x).
  { intros j l Hj x Hx. apply lookup_insert_ne. intros <-. apply Hne. by eapply elem_of_bucket. }
  split.
  - by rewrite !length_insert.
  - apply Hb.
  - intros j p l Hp Hlj. destruct (decide (j = i)) as [->|Hj].
    + rewrite list_lookup_insert_eq in Hp by (by eapply lookup_lt_Some).
      rewrite list_lookup_insert_eq in Hlj by (by eapply lookup_lt_Some).
      injection Hp as <-. injection Hlj as <-. split; [done|].
      exists (set_next_hash q hd). rewrite lookup_insert_eq. split; [done|]. simpl.
      eapply hchain_frame; [|by eapply (bo_chain _ _ _ _ Hb)]. by apply (Hfr i b Hbi).
    + rewrite list_lookup_insert_ne in Hp by done. rewrite list_lookup_insert_ne in Hlj by done.
      eapply hchain_frame; [|by eapply (bo_chain _ _ _ _ Hb)]. by apply (Hfr j l Hlj).
  - intros j l x Hlj Hx. destruct (decide (x = e)) as [->|Hxe].
    + exists (set_next_hash q hd). rewrite lookup_insert_eq.
      split; [done|]. split; [exact Hself|]. split; [exact Hhash|]. simpl.
      destruct (decide (j = i)) as [->|Hj]; [done|].
      rewrite list_lookup_insert_ne in Hlj by done. destruct Hne. by eapply elem_of_bucket.
    + rewrite lookup_insert_ne by done. destruct (decide (j = i)) as [->|Hj].
      * rewrite list_lookup_insert_eq in Hlj by (by eapply lookup_lt_Some). injection Hlj as <-.
        apply elem_of_cons in Hx as [?|Hx]; [done|]. by apply (bo_hash _ _ _ _ Hb i b).
      * rewrite list_lookup_insert_ne in Hlj by done. by apply (bo_hash _ _ _ _ Hb j l).
  - rewrite Er'. simpl. constructor; [by rewrite <- Er|]. rewrite <- Er. apply Hb.
Qed.

Lemma move_chain_spec fuel h n nl nbs count p l :
  buckets_ok h n nl nbs → hchain h p l → NoDup (l ++ concat nbs) →
  (∀ e, e ∈ l → entry_ok h e) → (length l < fuel)%nat →
  0 <= count → count + Z.of_nat (length l) < 2 ^ 32 →
  ∃ h' nl' nbs',
    move_chain fuel h n nl count p = Some (h', nl', count + Z.of_nat (length l)) ∧
    buckets_ok h' n nl' nbs' ∧ concat nbs' ≡ₚ l ++ concat nbs ∧ same_but_hash h h' ∧
    (∀ a, a ∉ l → h' !! a = h !! a).
Proof.
  revert h nl nbs count p fuel. induction l as [|e l IH];
    intros h nl nbs count p fuel Hb Hc Hnd Hok Hf H0 H32; destruct fuel as [|fuel];
    try (simpl in Hf; lia).
  - simpl in Hc. subst p. exists h, nl, nbs. simpl. rewrite Z.add_0_r. by split_and!.
  - simpl in Hc, Hf, H32. destruct Hc as (-> & hd & E & Hc). cbn [move_chain].
    rewrite E. cbn [mbind option_bind].
    pose proof (bucket_of_lt (hash hd) n (bo_pow _ _ _ _ Hb)) as Hi.
    destruct (bo_size _ _ _ _ Hb) as [Hn _].
    destruct (lookup_lt_is_Some_2 nl (bucket_of (hash hd) n)) as [q Hq]; [lia|].
    rewrite Hq. cbn [mbind option_bind].
    simpl in Hnd. apply NoDup_cons in Hnd as [Hnin Hnd].
    assert ((e ∉ l) ∧ (e ∉ concat nbs)) as [Hel Hen] by (rewrite elem_of_app in Hnin; tauto).
    destruct (push_bucket h n nl nbs e hd q Hb E) as (b & Hbi & Hb1);
      [apply Hok, elem_of_cons; by left|done|done|].
    set (h1 := <[e := set_next_hash q hd]> h) in *.
    assert (same_but_hash h h1) as Hs1 by by apply same_but_hash_set.
    assert (Hfr1 : ∀ a, a ≠ e → h1 !! a = h !! a) by (intros a Ha; by apply lookup_insert_ne).
    destruct (concat_bucket nbs _ b Hbi) as (r & Er & Er').
    assert (concat (<[bucket_of (hash hd) n := e :: b]> nbs) ≡ₚ e :: concat nbs) as Ep
      by by rewrite Er', Er.
    rewrite (u32_small (count + 1)) by lia.
    destruct (IH h1 _ _ (count + 1) (next_hash hd) fuel Hb1) as (h2 & nl2 & nbs2 & E2 & Hb2 & Ep2 & Hs2 & Hfr2).
    + eapply hchain_frame; [|exact Hc]. intros x Hx. apply Hfr1. by intros ->.
    + rewrite Ep. rewrite <- Permutation_middle. by constructor.
    + intros x Hx. eapply entry_ok_same; [exact Hs1|]. apply Hok, elem_of_cons. by right.
    + lia.
    + lia.
    + lia.
    + exists h2, nl2, nbs2. rewrite E2. split; [f_equal; f_equal; simpl; lia|]. split; [done|].
      split; [|split; [by eapply same_but_hash_trans|]].
      * rewrite Ep2, Ep. simpl. symmetry. apply Permutation_middle.
      * intros a [Hae Hal]%not_elem_of_cons. by rewrite Hfr2, Hfr1.
Qed.

Lemma hchains_frame h h' old bs :
  (∀ a, a ∈ concat bs → h' !! a = h !! a) → Forall2 (hchain h) old bs → Forall2 (hchain h') old bs.
Proof.
  intros Hfr. induction 1 as [|p l old bs Hc _ IH]; constructor.
  - eapply hchain_frame; [|exact Hc]. intros e He. apply Hfr. simpl. apply elem_of_app. by left.
  - apply IH. intros a Ha. apply Hfr. simpl. apply elem_of_app. by right.
Qed.

Lemma move_chains_spec h n nl nbs count old bs :
  buckets_ok h n nl nbs → Forall2 (hchain h) old bs → NoDup (concat bs ++ concat nbs) →
  (∀ e, e ∈ concat bs → entry_ok h e) →
  0 <= count → count + Z.of_nat (length (concat bs)) < 2 ^ 32 →
  ∃ h' nl' nbs',
    move_chains h n nl count old = Some (h', nl', count + Z.of_nat (length (concat bs))) ∧
    buckets_ok h' n nl' nbs' ∧ concat nbs' ≡ₚ concat bs ++ concat nbs ∧ same_but_hash h h'.
Proof.
  intros Hb H2. revert bs h nl nbs count Hb H2. induction old as [|p old IH];
    intros bs h nl nbs count Hb H2 Hnd Hok H0 H32.
  - apply Forall2_nil_inv_l in H2 as ->. exists h, nl, nbs. simpl. rewrite Z.add_0_r. by split_and!.
  - apply Forall2_cons_inv_l in H2 as (l & bs' & Hc & H2 & ->). simpl in Hnd, H32, Hok.
    rewrite length_app in H32. rewrite <- app_assoc in Hnd.
    assert (Hperm : l ++ concat bs' ++ concat nbs ≡ₚ concat bs' ++ l ++ concat nbs).
    { rewrite !app_assoc. by rewrite (Permutation_app_comm l). }
    assert (NoDup (l ++ concat nbs)) as Hnd1.
    { rewrite Hperm in Hnd. by apply NoDup_app in Hnd as (_ & _ & ?). }
    cbn [move_chains].
    assert (length l <= size h)%nat as Hlen.
    { apply NoDup_app in Hnd1 as (Hl & _ & _).
      rewrite <- size_dom, <- (size_list_to_set (C:=gset positive) l) by done.
      apply subseteq_size. intros e He%elem_of_list_to_set. apply elem_of_dom.
      by eapply hchain_lookup. }
    destruct (move_chain_spec (chain_fuel h) h n nl nbs count p l Hb Hc Hnd1)
      as (h1 & nl1 & nbs1 & E1 & Hb1 & Ep1 & Hs1 & Hfr1).
    + intros e He. apply Hok, elem_of_app. by left.
    + unfold chain_fuel. lia.
    + done.
    + lia.
    + rewrite E1. cbn [mbind option_bind].
      destruct (IH bs' h1 nl1 nbs1 (count + Z.of_nat (length l)) Hb1) as (h2 & nl2 & nbs2 & E2 & Hb2 & Ep2 & Hs2).
      * eapply hchains_frame; [|exact H2]. intros a Ha. apply Hfr1. intros Hal.
        rewrite app_assoc in Hnd. apply NoDup_app in Hnd as (Hnd & _ & _).
        apply NoDup_app in Hnd as (_ & Hd & _). by apply (Hd a Hal).
      * rewrite Ep1. by rewrite <- Hperm.
      * intros e He. eapply entry_ok_same; [exact Hs1|]. apply Hok, elem_of_app. by right.
      * lia.
      * lia.
      * exists h2, nl2, nbs2. rewrite E2. simpl. rewrite length_app.
        split; [f_equal; f_equal; lia|]. split; [done|]. split; [|by eapply same_but_hash_trans].
        by rewrite Ep2, Ep1, <- app_assoc, Hperm.
Qed.

Lemma concat_replicate_nil {A} n : concat (replicate n ([] : list A)) = [].
Proof. by induction n. Qed.

Lemma empty_buckets h n :
  (∃ k, 2 <= k <= 31 ∧ n = 2 ^ k) →
  buckets_ok h n (replicate (Z.to_nat n) None) (replicate (Z.to_nat n) []).
Proof.
  intros Hn. split.
  - rewrite !length_replicate. destruct Hn as (k & ? & ->). lia.
  - done.
  - intros i p l [-> _]%lookup_replicate [-> _]%lookup_replicate. done.
  - intros i l e [-> _]%lookup_replicate He. by apply elem_of_nil in He.
  - rewrite concat_replicate_nil. constructor.
Qed.

(** [Resize] keeps the entries and makes room for all of them. *)
Lemma Resize_spec h t bs :
  Forall2 (hchain h) (list_ t) bs → NoDup (concat bs) → (∀ e, e ∈ concat bs → entry_ok h e) →
  elems_ t = Z.of_nat (length (concat bs)) → elems_ t <= 2 ^ 31 →
  ∃ h' t' bs', Resize h t = Some (h', t') ∧ buckets_ok h' (length_ t') (list_ t') bs' ∧
    concat bs' ≡ₚ concat bs ∧ elems_ t' = elems_ t ∧ elems_ t <= length_ t' ∧ same_but_hash h h'.
Proof.
  intros Hc Hnd Hok Hel H31. unfold Resize. change (grow 32 4) with (grow 32 (2 ^ 2)).
  destruct (grow_spec 32 2 (elems_ t)) as (j & -> & Hj & Hge); [lia|done|lia|].
  cbn [mbind option_bind].
  destruct (move_chains_spec h (2 ^ j) _ _ 0 (list_ t) bs (empty_buckets h (2 ^ j) ltac:(eauto)) Hc)
    as (h' & nl & nbs & -> & Hb & Ep & Hs).
  - by rewrite concat_replicate_nil, app_nil_r.
  - done.
  - done.
  - lia.
  - cbn [mbind option_bind]. rewrite Z.add_0_l, Hel, Z.eqb_refl.
    rewrite concat_replicate_nil, app_nil_r in Ep.
    eexists _, _, nbs. split; [done|]. simpl.
    split; [done|]. split; [done|]. split; [done|]. split; [lia|done].
Qed.

Lemma buckets_frame h h' n lst bs :
  (∀ a, a ∈ concat bs → h' !! a = h !! a) → buckets_ok h n lst bs → buckets_ok h' n lst bs.
Proof.
  intros Hfr Hb. split; try apply Hb.
  - intros i p l Hp Hl. eapply hchain_frame; [|by eapply (bo_chain _ _ _ _ Hb)].
    intros e He. apply Hfr. by eapply elem_of_bucket.
  - intros i l e Hl He. rewrite Hfr by (by eapply elem_of_bucket).
    by apply (bo_hash _ _ _ _ Hb i l).
Qed.

Lemma buckets_chains h n lst bs : buckets_ok h n lst bs → Forall2 (hchain h) lst bs.
Proof.
  intros Hb. apply Forall2_same_length_lookup. split; [symmetry; apply Hb|].
  intros i p l. apply Hb.
Qed.

Lemma buckets_entry_ok h n lst bs e : buckets_ok h n lst bs → e ∈ concat bs → entry_ok h e.
Proof.
  intros Hb (i & l & Hi & He)%elem_of_concat.
  destruct (bo_hash _ _ _ _ Hb i l e Hi He) as (hd & E & H1 & H2 & _). by exists hd.
Qed.

(** The entries after an insertion: the new one replaces the one it matched. *)
Definition insert_entries (E : gset positive) (e : positive) (old : option positive) :
  gset positive := {[e]} ∪ match old with Some o => E ∖ {[o]} | None => E end.

Lemma elem_of_insert_entries E e old x :
  x ∈ insert_entries E e old ↔ x = e ∨ x ∈ E ∧ old ≠ Some x.
Proof.
  unfold insert_entries. rewrite elem_of_union, elem_of_singleton.
  destruct old as [o|]; rewrite ?elem_of_difference, ?elem_of_singleton;
    (split; [intros [?|Hx]; [by left|right]|intros [?|[? Hne]]; [by left|right]]); [destruct Hx; split; [done|congruence]|split; [done|congruence]|done|done].
Qed.

(** What [e] replaces in the buckets: the entry that [FindPointer] stopped at. *)
Lemma replace_bucket (bs : list (list positive)) i k1 k2 e :
  bs !! i = Some (k1 ++ k2) → NoDup (concat bs) → e ∉ concat bs →
  let bs' := <[i := k1 ++ e :: tail k2]> bs in
  NoDup (concat bs') ∧ (∀ x, x ∈ concat bs' ↔ x = e ∨ x ∈ concat bs ∧ head k2 ≠ Some x) ∧
  Z.of_nat (length (concat bs'))
  = Z.of_nat (length (concat bs)) + match head k2 with None => 1 | Some _ => 0 end.
Proof.
  intros Hi Hnd Hnin. simpl. destruct (concat_bucket bs i _ Hi) as (r & Er & Er').
  assert (∃ o, k2 = o ++ tail k2 ∧ o = match head k2 with Some x => [x] | None => [] end) as (o & Ek2 & Eo)
    by (destruct k2 as [|o k2]; [by exists []|by exists [o]]).
  set (R := k1 ++ tail k2 ++ r).
  assert (concat bs ≡ₚ o ++ R) as P1.
  { rewrite Er, Ek2 at 1. unfold R. rewrite <- !app_assoc. apply Permutation_app_swap_app. }
  assert (concat (<[i := k1 ++ e :: tail k2]> bs) ≡ₚ e :: R) as P2.
  { rewrite Er', <- app_assoc. simpl. symmetry. apply Permutation_middle. }
  rewrite P1 in Hnd. apply NoDup_app in Hnd as (_ & Hod & Hnd).
  assert (HR : ∀ x, x ∈ R ↔ x ∈ concat bs ∧ head k2 ≠ Some x).
  { intros x. rewrite P1, elem_of_app. specialize (Hod x). rewrite Eo in *.
    destruct (head k2) as [y|]; rewrite ?list_elem_of_singleton, ?elem_of_nil in *.
    - split; [intros Hx; split; [by right|]|intros [[->|?] Hne]; by intuition].
      intros [= ->]. by apply Hod.
    - split; [intros Hx; by split; [right|]|intros [[?|?] _]; done]. }
  split; [|split].
  - rewrite P2. constructor; [|done]. by intros [? _]%HR.
  - intros x. by rewrite P2, elem_of_cons, HR.
  - rewrite P1, P2, length_app. simpl. rewrite Eo. destruct (head k2); simpl; lia.
Qed.

(** Linking [e] in its bucket, before a possible resize. *)
Lemma Insert_link h t bs e hd :
  buckets_ok h (length_ t) (list_ t) bs → distinct h (concat bs) → h !! e = Some hd →
  entry_ok h e → e ∉ concat bs →
  ∃ ptr old h1 h2 lst bs', FindPointer h t (key_data hd) (hash hd) = Some ptr ∧
    load h t ptr = Some old ∧
    search_result h (list_to_set (concat bs)) (key_data hd) (hash hd) old ∧
    (∃ nh, match old with None => Some None | Some o => next_hash <$> h !! o end = Some nh ∧
      store h t (NextHash e) nh = Some (h1, t)) ∧
    store h1 t ptr (Some e)
    = Some (h2, {| length_ := length_ t; elems_ := elems_ t; list_ := lst |}) ∧
    buckets_ok h2 (length_ t) lst bs' ∧ distinct h2 (concat bs') ∧
    Z.of_nat (length (concat bs'))
    = Z.of_nat (length (concat bs)) + match old with None => 1 | Some _ => 0 end ∧
    (list_to_set (concat bs') : gset positive)
    = insert_entries (list_to_set (concat bs)) e old ∧ same_but_hash h h2.
Proof.
  intros Hb Hd E Hok Hnin.
  destruct (FindPointer_spec h t bs (key_data hd) (hash hd) Hb)
    as (p & k1 & k2 & Hp & Hi & Hc & HF & H1 & H2).
  pose proof (no_match_concat _ _ _ _ _ _ _ Hb Hd Hi H1 H2) as Honly.
  pose proof (search_result_head _ _ _ _ _ _ _ Hb Hd Hi H1 H2) as Hres.
  set (i := bucket_of (hash hd) (length_ t)) in *.
  destruct (replace_bucket bs i k1 k2 e Hi (bo_nodup _ _ _ _ Hb) Hnin) as (Hnd & HR & Hlen).
  set (nh := head (tail k2)).
  assert (match head k2 with None => Some None | Some o => next_hash <$> h !! o end = Some nh) as Hnh.
  { destruct k2 as [|o k2]; [done|]. destruct (hchain_next _ _ _ _ _ Hc) as (ho & Eo & Hco).
    simpl. rewrite Eo. simpl. f_equal. by apply (hchain_head h). }
  set (h1 := <[e := set_next_hash nh hd]> h).
  assert (Hfr : ∀ a, a ∈ concat bs → h1 !! a = h !! a).
  { intros a Ha. apply lookup_insert_ne. by intros ->. }
  assert (same_but_hash h h1) as Hs1 by by apply same_but_hash_set.
  pose proof (buckets_frame _ h1 _ _ _ Hfr Hb) as Hb1.
  assert (Hin : ∀ x, x ∈ k1 ++ k2 → x ∈ concat bs) by (intros x Hx; by eapply elem_of_bucket).
  assert (hchain h1 nh (tail k2)) as Hc1.
  { destruct k2 as [|o k2]; [done|]. destruct (hchain_next _ _ _ _ _ Hc) as (ho & Eo & Hco).
    simpl in *. unfold nh. simpl. rewrite <- (hchain_head _ _ _ Hco).
    eapply hchain_frame; [|exact Hco]. intros x Hx. apply Hfr, Hin, elem_of_app. right.
    apply elem_of_cons. by right. }
  destruct (buckets_store h1 t bs i p k1 k2 (Some e) (e :: tail k2) Hb1 Hi Hp) as (h2 & lst & Est & Hb2 & Hs2).
  - split; [done|]. exists (set_next_hash nh hd). unfold h1 at 1. by rewrite lookup_insert_eq.
  - intros x [->|Hx]%elem_of_cons.
    + exists (set_next_hash nh hd). unfold h1. rewrite lookup_insert_eq. split; [done|].
      destruct Hok as (hd' & E' & Hself & Hhash). rewrite E in E'. injection E' as <-. done.
    + apply (bo_hash _ _ _ _ Hb1 i _ x Hi). apply elem_of_app. right. by destruct k2; [|right].
  - done.
  - exists (ptr_at i k1), (head k2), h1, h2, lst, (<[i := k1 ++ e :: tail k2]> bs).
    assert (same_but_hash h h2) as Hs by by eapply same_but_hash_trans.
    split; [done|]. split; [by eapply load_at|]. split; [done|].
    split; [exists nh; split; [done|]; simpl; by rewrite E|]. split; [done|]. split; [done|].
    split; [|split; [done|split; [|done]]].
    + apply (distinct_same h); [done|].
      assert (Heq : ∀ x key hs, x ∈ concat bs ∧ head k2 ≠ Some x → matches h key hs e →
                matches h key hs x → False).
      { intros x key hs [Hx Hxo] (hd' & E' & <- & <-) Hm. rewrite E in E'. injection E' as <-.
        by apply Hxo, (Honly x Hx Hm). }
      intros x y key hs [->|Hx]%HR [->|Hy]%HR Mx My; [done| | |].
      * by destruct (Heq y key hs).
      * by destruct (Heq x key hs).
      * destruct Hx as [Hx _], Hy as [Hy _]. by apply (Hd x y key hs).
    + apply set_eq. intros x.
      by rewrite elem_of_insert_entries, !elem_of_list_to_set, HR.
Qed.

Lemma Table_Insert_spec h t E e hd :
  table_rep h t E → Z.of_nat (size E) < 2 ^ 31 → h !! e = Some hd → entry_ok h e → e ∉ E →
  ∃ old h' t', Table_Insert h t e = Some (old, h', t') ∧
    search_result h E (key_data hd) (hash hd) old ∧
    table_rep h' t' (insert_entries E e old) ∧ same_but_hash h h'.
Proof.
  intros (bs & Hb & Hd & Hel & ->) Hsz Ehd Hok Hnin. rewrite elem_of_list_to_set in Hnin.
  rewrite size_list_to_set in Hsz by apply Hb.
  destruct (Insert_link h t bs e hd Hb Hd Ehd Hok Hnin)
    as (ptr & old & h1 & h2 & lst & bs' & HF & Hld & Hres & (nh & Enh & Est1) & Est2 & Hb2 & Hd2 &
        Hlen & Hset & Hs2).
  unfold Table_Insert, handle_key. rewrite Ehd. cbn [mbind option_bind].
  destruct Hok as (hd' & E' & Hself & _). rewrite Ehd in E'. injection E' as <-.
  rewrite decide_False by done. cbn [mbind option_bind]. rewrite HF. cbn [mbind option_bind].
  rewrite Hld. cbn [mbind option_bind]. rewrite Enh. cbn [mbind option_bind].
  rewrite Est1. cbn [mbind option_bind]. rewrite Est2. cbn [mbind option_bind].
  destruct old as [o|].
  - eexists _, _, _. split; [done|]. split; [done|]. split; [|done]. exists bs'. simpl.
    split; [done|]. split; [done|]. split; [lia|done].
  - simpl length_. simpl elems_. simpl list_. rewrite u32_small by lia.
    destruct (Z.ltb_spec (length_ t) (elems_ t + 1)).
    + destruct (Resize_spec h2 {| length_ := length_ t; elems_ := elems_ t + 1; list_ := lst |} bs')
        as (h3 & t3 & bs3 & E3 & Hb3 & Ep & El3 & _ & Hs3); simpl.
      * by eapply buckets_chains.
      * apply Hb2.
      * intros x Hx. by eapply buckets_entry_ok.
      * lia.
      * lia.
      * rewrite E3. cbn [mbind option_bind]. eexists _, _, _. split; [done|]. split; [done|].
        split; [|by eapply same_but_hash_trans]. exists bs3. split; [done|].
        split; [apply (distinct_same h2); [done|]; eapply distinct_sub; [|exact Hd2];
                intros x; by rewrite Ep|].
        simpl in El3. rewrite El3, Ep. split; [lia|]. by rewrite <- Hset.
    + eexists _, _, _. split; [done|]. split; [done|]. split; [|done]. exists bs'. simpl.
      split; [done|]. split; [done|]. split; [lia|done].
Qed.

Lemma HandleTable_new_spec h :
  ∃ h' t, HandleTable_new h = Some (h', t) ∧ table_rep h' t ∅ ∧ same_but_hash h h'.
Proof.
  unfold HandleTable_new.
  destruct (Resize_spec h {| length_ := 0; elems_ := 0; list_ := [] |} [])
    as (h' & t & bs & E & Hb & Ep & El & _ & Hs); simpl.
  - constructor.
  - apply NoDup_nil_2.
  - intros e He. by apply elem_of_nil in He.
  - done.
  - done.
  - exists h', t. split; [done|]. split; [|done]. exists bs. split; [done|].
    apply Permutation_nil_r in Ep. rewrite Ep, El. simpl. split; [|done].
    intros x y key hs Hx. by apply elem_of_nil in Hx.
Qed.

(** ** Properties *)

(** C16: the table refines a set of entries with distinct (hash, key) pairs: a new
    one is empty, [Lookup] finds the entry with the given hash and key exactly
    when there is one, [Insert] adds an entry in place of the one it matches,
    which it returns, growing the array when needed, [Remove] takes the matching
    entry out and returns it.  All of them terminate, follow no dead pointer and
    change nothing of the entries but their [next_hash]. *)
Theorem HandleTable_refines_set :
  (∀ h, ∃ h' t, HandleTable_new h = Some (h', t) ∧ table_rep h' t ∅ ∧ same_but_hash h h') ∧
  ∀ h t E, table_rep h t E → Z.of_nat (size E) < 2 ^ 31 →
    (∀ key hs, ∃ r, Table_Lookup h t key hs = Some r ∧ search_result h E key hs r) ∧
    (∀ e hd, h !! e = Some hd → entry_ok h e → e ∉ E →
       ∃ old h' t', Table_Insert h t e = Some (old, h', t') ∧
         search_result h E (key_data hd) (hash hd) old ∧
         table_rep h' t' (insert_entries E e old) ∧ same_but_hash h h') ∧
    (∀ key hs, ∃ r h' t', Table_Remove h t key hs = Some (r, h', t') ∧
       search_result h E key hs r ∧
       table_rep h' t' (match r with Some e => E ∖ {[e]} | None => E end) ∧
       same_but_hash h h').
Proof.
  split; [exact HandleTable_new_spec|]. intros h t E Hr Hsz. split_and!.
  - intros key hs. by apply Table_Lookup_spec.
  - intros e hd. by apply Table_Insert_spec.
  - intros key hs. by apply Table_Remove_spec.
Qed.

(** ** Witnesses *)

(** Entries 1 to [n] with keys of one byte and hashes that share buckets. *)
Definition sample_entry (e : positive) : LRUHandle :=
  {| value := Zpos e; deleter := 0; next_hash := None; next := None; prev := None; charge := 1;
     in_cache := true; refs := 1; hash := Zpos e * 2; key_data := [z2b (Zpos e)] |}.

Definition sample_heap : heap :=
  list_to_map ((λ n, let e := Pos.of_succ_nat n in (e, sample_entry e)) <$> seq 0 9).

Lemma HandleTable_refines_set_witness :
  ∃ h t h' t', HandleTable_new sample_heap = Some (h, t) ∧
    Table_Insert h t 1%positive = Some (None, h', t') ∧ table_rep h' t' {[1%positive]}.
Proof.
  destruct HandleTable_refines_set as [Hnew Hops].
  destruct (Hnew sample_heap) as (h & t & E & R & Hs).
  assert (H1 : sample_heap !! 1%positive = Some (sample_entry 1)) by (vm_compute; reflexivity).
  destruct (same_but_hash_lookup _ _ _ _ Hs H1) as (hd & E1 & Hf).
  apply strip_fields in Hf as (F1 & F2 & F3).
  destruct (Hops h t ∅ R eq_refl) as (_ & Hins & _).
  destruct (Hins 1%positive hd E1) as (old & h' & t' & E2 & Hold & R' & _).
  - exists hd. split; [exact E1|]. rewrite F1, F2. split; [discriminate|]. simpl. lia.
  - apply not_elem_of_empty.
  - destruct old as [o|]; [destruct Hold as [Ho _]; destruct (not_elem_of_empty o Ho)|].
    exists h, t, h', t'. split; [exact E|]. split; [exact E2|].
    unfold insert_entries in R'. rewrite right_id_L in R' by apply _. exact R'.
Defined.

(** Nine entries: the array grows from 4 to 16 buckets, lookups still work. *)
Example HandleTable_run :
  ('(h, t) ← HandleTable_new sample_heap;
   '(h, t) ← foldl (λ s e, '(h, t) ← s; '(_, h, t) ← Table_Insert h t e; Some (h, t))
     (Some (h, t)) (Pos.of_succ_nat <$> seq 0 9);
   a ← Table_Lookup h t [z2b 7] 14; b ← Table_Lookup h t [z2b 7] 15;
   '(r, h, t) ← Table_Remove h t [z2b 3] 6; c ← Table_Lookup h t [z2b 3] 6;
   Some (length_ t, elems_ t, a, b, r, c))
  = Some (16, 8, Some 7%positive, None, Some 3%positive, None).
Proof. by vm_compute. Qed.
