(* ===== verification/LRUCache.v ===== *)
(** * The LRU cache (util/cache_impl.h, util/cache.cpp: LRUCache,
    ShardedLRUCache)

    Entries sit on one of two circular doubly-linked lists threaded through
    their [next] and [prev] fields - [lru_] (only the cache holds them) and
    [in_use_] (clients hold them too) - and in the hash table.  The heads of
    the lists are the records at addresses [lru_] and [in_use_] of the heap.
    The detailed model refines an abstract cache of two lists of handles and
    their client reference counts.  Operations hold [mutex_], so they are
    atomic. *)
From Stdlib Require Import ZArith Lia.
From stdpp Require Import base gmap fin_maps fin_sets sets numbers list.
From S2P Require Import Prelude Slice Hash HandleTable.

#[local] Open Scope Z_scope.

(** ** State *)

Definition lru_ : positive := 1.
Definition in_use_ : positive := 2.

(** [deleted] records the calls of the deleters: deleter, key and value. *)
Record LRUCache := {
  capacity_ : Z;
  usage_ : Z;
  handles : heap;
  table_ : HandleTable;
  deleted : list (Z * bytes * Z) }.

Definition set_next (v : option positive) (e : LRUHandle) : LRUHandle :=
  {| value := value e; deleter := deleter e; next_hash := next_hash e; next := v; prev := prev e;
     charge := charge e; in_cache := in_cache e; refs := refs e; hash := hash e;
     key_data := key_data e |}.
Definition set_prev (v : option positive) (e : LRUHandle) : LRUHandle :=
  {| value := value e; deleter := deleter e; next_hash := next_hash e; next := next e; prev := v;
     charge := charge e; in_cache := in_cache e; refs := refs e; hash := hash e;
     key_data := key_data e |}.
Definition set_refs (n : Z) (e : LRUHandle) : LRUHandle :=
  {| value := value e; deleter := deleter e; next_hash := next_hash e; next := next e;
     prev := prev e; charge := charge e; in_cache := in_cache e; refs := n; hash := hash e;
     key_data := key_data e |}.
Definition set_in_cache (b : bool) (e : LRUHandle) : LRUHandle :=
  {| value := value e; deleter := deleter e; next_hash := next_hash e; next := next e;
     prev := prev e; charge := charge e; in_cache := b; refs := refs e; hash := hash e;
     key_data := key_data e |}.

(** [e->field = ...] *)
Definition modify (h : heap) (e : positive) (f : LRUHandle → LRUHandle) : option heap :=
  hd ← (h !! e); Some (<[e := f hd]> h).

(** [e->next], [e->prev], for links that lead somewhere. *)
Definition nx (h : heap) (e : positive) : option positive := hd ← (h !! e); next hd.
Definition pv (h : heap) (e : positive) : option positive := hd ← (h !! e); prev hd.

Definition with_handles (c : LRUCache) (h : heap) : LRUCache :=
  {| capacity_ := capacity_ c; usage_ := usage_ c; handles := h; table_ := table_ c;
     deleted := deleted c |}.

(** ** Operations *)

(** [e->next->prev = e->prev; e->prev->next = e->next;] *)
Definition LRU_Remove (h : heap) (e : positive) : option heap :=
  n ← nx h e; p ← pv h e; h ← modify h n (set_prev (Some p));
  p ← pv h e; n ← nx h e; modify h p (set_next (Some n)).

Definition LRU_Append (h : heap) (list e : positive) : option heap :=
  h ← modify h e (set_next (Some list));
  lp ← pv h list; h ← modify h e (set_prev (Some lp));
  p ← pv h e; h ← modify h p (set_next (Some e));
  n ← nx h e; modify h n (set_prev (Some e)).

Definition Ref (h : heap) (e : positive) : option heap :=
  hd ← (h !! e);
  h ← (if (refs hd =? 1) && in_cache hd
       then h ← LRU_Remove h e; LRU_Append h in_use_ e else Some h);
  modify h e (λ hd, set_refs (u32 (refs hd + 1)) hd).

(** [Unref(e)], with its assertions. *)
Definition Unref (c : LRUCache) (e : positive) : option LRUCache :=
  hd ← (handles c !! e);
  if 0 <? refs hd then
    let n := u32 (refs hd - 1) in
    h ← modify (handles c) e (set_refs n);
    if n =? 0 then
      if in_cache hd then None
      else
        k ← handle_key h e;
        Some {| capacity_ := capacity_ c; usage_ := usage_ c; handles := delete e h;
                table_ := table_ c; deleted := deleted c ++ [(deleter hd, k, value hd)] |}
    else if in_cache hd && (n =? 1) then
      h ← LRU_Remove h e; h ← LRU_Append h lru_ e; Some (with_handles c h)
    else Some (with_handles c h)
  else None.

Definition FinishErase (c : LRUCache) (e : option positive) : option (bool * LRUCache) :=
  match e with
  | None => Some (false, c)
  | Some e =>
      hd ← (handles c !! e);
      if in_cache hd then
        h ← LRU_Remove (handles c) e;
        h ← modify h e (set_in_cache false);
        c ← Unref {| capacity_ := capacity_ c; usage_ := u64 (usage_ c - charge hd); handles := h;
                     table_ := table_ c; deleted := deleted c |} e;
        Some (true, c)
      else None
  end.

Definition head_handle (self : positive) : LRUHandle :=
  {| value := 0; deleter := 0; next_hash := None; next := Some self; prev := Some self;
     charge := 0; in_cache := false; refs := 0; hash := 0; key_data := [] |}.

(** The constructor, followed by [SetCapacity]. *)
Definition LRUCache_new (capacity : Z) : option LRUCache :=
  let h := <[lru_ := head_handle lru_]> (<[in_use_ := head_handle in_use_]> ∅) in
  '(h, t) ← HandleTable_new h;
  Some {| capacity_ := capacity; usage_ := 0; handles := h; table_ := t; deleted := [] |}.

Definition TotalCharge (c : LRUCache) : Z := usage_ c.

Definition LRU_Lookup (c : LRUCache) (key : bytes) (hs : Z) : option (option positive * LRUCache) :=
  e ← Table_Lookup (handles c) (table_ c) key hs;
  match e with
  | None => Some (None, c)
  | Some e => h ← Ref (handles c) e; Some (Some e, with_handles c h)
  end.

Definition LRU_Release (c : LRUCache) (handle : positive) : option LRUCache := Unref c handle.

(** [FinishErase(table_.Remove(key, hash))] *)
Definition erase_key (c : LRUCache) (key : bytes) (hs : Z) : option (bool * LRUCache) :=
  '(r, h, t) ← Table_Remove (handles c) (table_ c) key hs;
  FinishErase {| capacity_ := capacity_ c; usage_ := usage_ c; handles := h; table_ := t;
                 deleted := deleted c |} r.

Definition LRU_Erase (c : LRUCache) (key : bytes) (hs : Z) : option LRUCache :=
  snd <$> erase_key c key hs.

(** The body of the eviction loops: the oldest entry of [lru_] goes, with the
    assertions [old->refs == 1] and [erased]. *)
Definition evict_oldest (c : LRUCache) (old : positive) : option LRUCache :=
  hd ← (handles c !! old);
  if refs hd =? 1 then
    k ← handle_key (handles c) old;
    '(erased, c) ← erase_key c k (hash hd);
    if (erased : bool) then Some c else None
  else None.

(** [while (usage_ > capacity_ && lru_.next != &lru_)]; [all] is [Prune]'s loop,
    without the first condition.  Every iteration takes an entry off the heap. *)
Fixpoint evict_loop (fuel : nat) (all : bool) (c : LRUCache) : option LRUCache :=
  old ← nx (handles c) lru_;
  if (all || (capacity_ c <? usage_ c)) && bool_decide (old ≠ lru_) then
    match fuel with
    | O => None
    | S fuel => c ← evict_oldest c old; evict_loop fuel all c
    end
  else Some c.

Definition evict_fuel (c : LRUCache) : nat := size (handles c).

Definition LRU_Insert (c : LRUCache) (key : bytes) (hs value charge deleter : Z) :
  option (positive * LRUCache) :=
  let e := fresh (dom (handles c)) in
  let hd := {| HandleTable.value := value; HandleTable.deleter := deleter; next_hash := None;
               next := None; prev := None; HandleTable.charge := charge; in_cache := false;
               refs := 1; hash := hs; key_data := key |} in
  let c := with_handles c (<[e := hd]> (handles c)) in
  c ← (if 0 <? capacity_ c then
         h ← modify (handles c) e (λ hd, set_in_cache true (set_refs (u32 (refs hd + 1)) hd));
         h ← LRU_Append h in_use_ e;
         '(old, h, t) ← Table_Insert h (table_ c) e;
         snd <$> FinishErase
           {| capacity_ := capacity_ c; usage_ := u64 (usage_ c + charge); handles := h;
              table_ := t; deleted := deleted c |} old
       else
         h ← modify (handles c) e (set_next None); Some (with_handles c h));
  c ← evict_loop (evict_fuel c) false c;
  Some (e, c).

Definition LRU_Prune (c : LRUCache) : option LRUCache := evict_loop (evict_fuel c) true c.

(** The destructor's loop over [lru_], with its assertions. *)
Fixpoint destroy_loop (fuel : nat) (c : LRUCache) (e : positive) : option LRUCache :=
  if decide (e = lru_) then Some c
  else
    match fuel with
    | O => None
    | S fuel =>
        hd ← (handles c !! e);
        n ← next hd;
        if in_cache hd && (refs hd =? 1) then
          h ← modify (handles c) e (set_in_cache false);
          c ← Unref (with_handles c h) e;
          destroy_loop fuel c n
        else None
    end.

Definition LRUCache_destroy (c : LRUCache) : option LRUCache :=
  first_in_use ← nx (handles c) in_use_;
  if decide (first_in_use = in_use_) then
    e ← nx (handles c) lru_; destroy_loop (S (size (handles c))) c e
  else None.

(** ** Lemmas: circular lists *)

Definition head_or (x : positive) (l : list positive) : positive := default x (head l).

Definition linked (h : heap) (a b : positive) : Prop := nx h a = Some b ∧ pv h b = Some a.

(** From [x] through [l] to [y], links in both directions. *)
Fixpoint dpath (h : heap) (x : positive) (l : list positive) (y : positive) : Prop :=
  match l with
  | [] => linked h x y
  | z :: l => linked h x z ∧ dpath h z l y
  end.

(** The circular list with head [hd]. *)
Definition dlist (h : heap) (hd : positive) (l : list positive) : Prop := dpath h hd l hd.

Lemma head_or_elem x l : head_or x l ∈ l ++ [x].
Proof. destruct l; simpl; apply elem_of_cons; by left. Qed.

Lemma dpath_app h x l1 z l2 y : dpath h x (l1 ++ z :: l2) y ↔ dpath h x l1 z ∧ dpath h z l2 y.
Proof.
  revert x. induction l1 as [|w l1 IH]; intros x; simpl; [done|]. rewrite IH. tauto.
Qed.

Lemma dpath_last h x l y : dpath h x l y → linked h (last_or x l) y.
Proof.
  revert x. induction l as [|z l IH]; intros x; simpl; [done|]. intros [_ H].
  rewrite last_or_cons. by apply IH.
Qed.

Lemma dpath_first h x l y : dpath h x l y → linked h x (head_or y l).
Proof. destruct l; simpl; [done|by intros [? _]]. Qed.

Lemma dpath_frame h h' x l y :
  (∀ a, a ∈ x :: l → nx h' a = nx h a) → (∀ b, b ∈ l ++ [y] → pv h' b = pv h b) →
  dpath h x l y → dpath h' x l y.
Proof.
  revert x. induction l as [|z l IH]; intros x Hn Hp.
  - intros [H1 H2]. split.
    + rewrite Hn; [done|apply elem_of_cons; by left].
    + rewrite Hp; [done|apply elem_of_cons; by left].
  - intros [[H1 H2] Hd]. split; [split|].
    + rewrite Hn; [done|apply elem_of_cons; by left].
    + rewrite Hp; [done|apply elem_of_cons; by left].
    + apply IH; [|by intros b Hb; apply Hp, elem_of_cons; right|done].
      intros a Ha. apply Hn, elem_of_cons. by right.
Qed.

(** Making the path end at [z] instead of [y]. *)
Lemma dpath_retarget h h' x l y z :
  NoDup (x :: l) → dpath h x l y → linked h' (last_or x l) z →
  (∀ a, a ∈ x :: l → a ≠ last_or x l → nx h' a = nx h a) →
  (∀ b, b ∈ l → pv h' b = pv h b) → dpath h' x l z.
Proof.
  revert x. induction l as [|w l IH]; intros x Hnd Hd Hz Hn Hp; [done|].
  destruct Hd as [[H1 H2] Hd]. rewrite last_or_cons in Hz, Hn.
  apply NoDup_cons in Hnd as [Hx Hnd]. split; [split|].
  - rewrite Hn; [done|apply elem_of_cons; by left|]. intros ->. apply Hx, last_or_elem.
  - rewrite Hp; [done|apply elem_of_cons; by left].
  - apply IH; [done..| |].
    + intros a Ha. apply Hn, elem_of_cons. by right.
    + intros b Hb. apply Hp, elem_of_cons. by right.
Qed.

(** Taking an element out of a path. *)
Lemma dpath_remove h h' x l1 e l2 y :
  NoDup (x :: l1 ++ e :: l2) → y ∉ l1 ++ e :: l2 →
  dpath h x (l1 ++ e :: l2) y →
  nx h' (last_or x l1) = Some (head_or y l2) → pv h' (head_or y l2) = Some (last_or x l1) →
  (∀ a, a ≠ last_or x l1 → nx h' a = nx h a) →
  (∀ b, b ≠ head_or y l2 → pv h' b = pv h b) → dpath h' x (l1 ++ l2) y.
Proof.
  intros Hnd Hy Hd Hnx Hpv Hn Hp. apply dpath_app in Hd as [Hd1 Hd2].
  rewrite app_comm_cons in Hnd. apply NoDup_app in Hnd as (Hnd1 & Hdis & Hnd2).
  apply NoDup_cons in Hnd2 as [He Hnd2].
  assert (dpath h' x l1 (head_or y l2)) as Hd1'.
  { eapply dpath_retarget; [done|exact Hd1|done| |].
    - intros a _ Ha. by apply Hn.
    - intros b Hb. apply Hp. intros ->. destruct l2 as [|s l2]; simpl in *.
      + apply Hy, elem_of_app. by left.
      + apply (Hdis s); [apply elem_of_cons; by right|].
        apply elem_of_cons. right. apply elem_of_cons. by left. }
  destruct l2 as [|s l2]; simpl in *; [by rewrite app_nil_r|].
  apply dpath_app. split; [done|]. destruct Hd2 as [_ Hd2].
  apply NoDup_cons in Hnd2 as [Hs Hnd2].
  eapply dpath_frame; [| |exact Hd2].
  - intros a Ha. apply Hn. intros ->.
    apply (Hdis (last_or x l1)); [apply last_or_elem|]. apply elem_of_cons. by right.
  - intros b Hb. apply Hp. change (head_or y (s :: l2)) with s. intros ->.
    apply elem_of_app in Hb as [Hb|Hb]; [done|].
    apply list_elem_of_singleton in Hb as <-. apply Hy, elem_of_app. right.
    apply elem_of_cons. right. apply elem_of_cons. by left.
Qed.

(** Changes to the links only. *)
Definition unlink (e : LRUHandle) : LRUHandle := set_prev None (set_next None e).
Definition same_but_links (h h' : heap) : Prop := ∀ a, unlink <$> h' !! a = unlink <$> h !! a.

Lemma modify_some h e hd f : h !! e = Some hd → modify h e f = Some (<[e := f hd]> h).
Proof. unfold modify. by intros ->. Qed.

Lemma nx_insert h e hd a :
  nx (<[e := hd]> h) a = if decide (a = e) then next hd else nx h a.
Proof.
  unfold nx. destruct (decide (a = e)) as [->|Hne];
    [by rewrite lookup_insert_eq|by rewrite lookup_insert_ne].
Qed.

Lemma pv_insert h e hd a :
  pv (<[e := hd]> h) a = if decide (a = e) then prev hd else pv h a.
Proof.
  unfold pv. destruct (decide (a = e)) as [->|Hne];
    [by rewrite lookup_insert_eq|by rewrite lookup_insert_ne].
Qed.

Lemma same_but_links_insert h e hd hd' :
  h !! e = Some hd → unlink hd' = unlink hd → same_but_links h (<[e := hd']> h).
Proof.
  intros E H a. destruct (decide (a = e)) as [->|Hne].
  - rewrite lookup_insert_eq, E. simpl. by f_equal.
  - by rewrite lookup_insert_ne.
Qed.

Lemma same_but_links_trans h1 h2 h3 :
  same_but_links h1 h2 → same_but_links h2 h3 → same_but_links h1 h3.
Proof. intros H1 H2 a. by rewrite H2. Qed.

Lemma nx_alive h a b : nx h a = Some b → ∃ hd, h !! a = Some hd ∧ next hd = Some b.
Proof. unfold nx. intros (hd & ? & ?)%bind_Some. by exists hd. Qed.
Lemma pv_alive h a b : pv h a = Some b → ∃ hd, h !! a = Some hd ∧ prev hd = Some b.
Proof. unfold pv. intros (hd & ? & ?)%bind_Some. by exists hd. Qed.

(** What [LRU_Remove] does to the links. *)
Lemma LRU_Remove_links h e p n :
  pv h e = Some p → nx h e = Some n → is_Some (h !! p) → is_Some (h !! n) → p ≠ e → n ≠ e →
  ∃ h', LRU_Remove h e = Some h' ∧ same_but_links h h' ∧
    (∀ a, nx h' a = if decide (a = p) then Some n else nx h a) ∧
    (∀ b, pv h' b = if decide (b = n) then Some p else pv h b).
Proof.
  intros Hp Hn [hp Ep] [hn En] Hpe Hne. unfold LRU_Remove.
  rewrite Hp, Hn. cbn [mbind option_bind]. rewrite (modify_some _ _ _ _ En).
  cbn [mbind option_bind]. set (h1 := <[n := set_prev (Some p) hn]> h).
  assert (pv h1 e = Some p) as -> by (unfold h1; rewrite pv_insert, decide_False; congruence).
  assert (nx h1 e = Some n) as -> by (unfold h1; rewrite nx_insert, decide_False; congruence).
  cbn [mbind option_bind].
  assert (∃ hp1, h1 !! p = Some hp1 ∧ prev hp1 = (if decide (p = n) then Some p else prev hp) ∧
          unlink hp1 = unlink hp) as (hp1 & Ep1 & Epv & Eul).
  { unfold h1. destruct (decide (p = n)) as [->|Hpn].
    - rewrite lookup_insert_eq. eexists. split; [done|]. rewrite En in Ep. injection Ep as ->.
      done.
    - rewrite lookup_insert_ne by done. by exists hp. }
  rewrite (modify_some _ _ _ _ Ep1). eexists. split; [done|]. split; [|split].
  - apply (same_but_links_trans h h1); [by apply (same_but_links_insert h n hn)|].
    by apply (same_but_links_insert h1 p hp1).
  - intros a. rewrite nx_insert. destruct (decide (a = p)); [done|].
    unfold h1. rewrite nx_insert. destruct (decide (a = n)) as [->|]; [|done].
    unfold nx. by rewrite En.
  - intros b. rewrite pv_insert. destruct (decide (b = p)) as [->|]; simpl.
    + rewrite Epv. destruct (decide (p = n)); [done|]. unfold pv. by rewrite Ep.
    + unfold h1. by rewrite pv_insert.
Qed.

(** What [LRU_Append] does to the links. *)
Lemma LRU_Append_links h hd lp e :
  pv h hd = Some lp → is_Some (h !! lp) → is_Some (h !! e) → e ≠ hd → e ≠ lp →
  ∃ h', LRU_Append h hd e = Some h' ∧ same_but_links h h' ∧
    (∀ a, nx h' a = if decide (a = e) then Some hd
                    else if decide (a = lp) then Some e else nx h a) ∧
    (∀ b, pv h' b = if decide (b = hd) then Some e
                    else if decide (b = e) then Some lp else pv h b).
Proof.
  intros Hlp [hl El] [he Ee] Hne Hel. unfold LRU_Append.
  rewrite (modify_some _ _ _ _ Ee). cbn [mbind option_bind].
  set (h1 := <[e := set_next (Some hd) he]> h).
  assert (pv h1 hd = Some lp) as Hlp1 by (unfold h1; rewrite pv_insert, decide_False; congruence).
  rewrite Hlp1. cbn [mbind option_bind].
  assert (h1 !! e = Some (set_next (Some hd) he)) as Ee1 by apply lookup_insert_eq.
  rewrite (modify_some _ _ _ _ Ee1). cbn [mbind option_bind].
  set (he2 := set_prev (Some lp) (set_next (Some hd) he)). set (h2 := <[e := he2]> h1).
  assert (pv h2 e = Some lp) as -> by (unfold h2; rewrite pv_insert, decide_True; done).
  cbn [mbind option_bind].
  assert (h2 !! lp = Some hl) as El2.
  { unfold h2, h1. by rewrite !lookup_insert_ne by congruence. }
  rewrite (modify_some _ _ _ _ El2). cbn [mbind option_bind].
  set (h3 := <[lp := set_next (Some e) hl]> h2).
  assert (nx h3 e = Some hd) as ->.
  { unfold h3, h2. rewrite nx_insert, decide_False, nx_insert, decide_True; done. }
  cbn [mbind option_bind].
  destruct (pv_alive _ _ _ Hlp) as (hh & Eh & _).
  assert (∃ hh3, h3 !! hd = Some hh3 ∧ next hh3 = nx h3 hd) as (hh3 & Eh3 & Enx).
  { unfold nx. destruct (h3 !! hd) as [hh3|] eqn:E; [by exists hh3|].
    unfold h3, h2, h1 in E. destruct (decide (hd = lp)) as [->|].
    - by rewrite lookup_insert_eq in E.
    - rewrite !lookup_insert_ne in E by congruence. congruence. }
  rewrite (modify_some _ _ _ _ Eh3). eexists. split; [done|]. split; [|split].
  - apply (same_but_links_trans h h1); [by apply (same_but_links_insert h e he)|].
    apply (same_but_links_trans h1 h2); [by apply (same_but_links_insert h1 e (set_next (Some hd) he))|].
    apply (same_but_links_trans h2 h3); [by apply (same_but_links_insert h2 lp hl)|].
    by apply (same_but_links_insert h3 hd hh3).
  - intros a. rewrite nx_insert. destruct (decide (a = hd)) as [->|].
    + rewrite (decide_False (P:=hd = e)) by congruence. simpl. rewrite Enx. unfold h3, h2, h1.
      rewrite nx_insert. destruct (decide (hd = lp)); [done|].
      by rewrite !nx_insert, !decide_False by congruence.
    + unfold h3, h2, h1. rewrite !nx_insert.
      destruct (decide (a = e)) as [->|]; [|by repeat case_decide].
      by rewrite decide_False by congruence.
  - intros b. rewrite pv_insert. destruct (decide (b = hd)) as [->|]; [done|].
    unfold h3, h2, h1. rewrite !pv_insert.
    destruct (decide (b = lp)) as [->|].
    + rewrite decide_False by congruence. simpl. unfold pv. by rewrite El.
    + by destruct (decide (b = e)).
Qed.

(** ** Lemmas: the two lists *)

(** Two circular lists apart from each other. *)
Record two_lists (h : heap) (x : positive) (L : list positive) (y : positive) (U : list positive) :
  Prop := {
  tl_fst : dlist h x L;
  tl_snd : dlist h y U;
  tl_nodup : NoDup ((x :: L) ++ (y :: U));
  tl_alive e : e ∈ (x :: L) ++ (y :: U) → is_Some (h !! e) }.

Definition lists_ok (h : heap) (L U : list positive) : Prop := two_lists h lru_ L in_use_ U.

Lemma dlist_frame h h' hd l :
  (∀ a, a ∈ hd :: l → nx h' a = nx h a ∧ pv h' a = pv h a) → dlist h hd l → dlist h' hd l.
Proof.
  intros Hf. apply dpath_frame; intros a Ha; apply Hf; [done|].
  apply elem_of_app in Ha as [Ha|Ha]; apply elem_of_cons; [by right|left].
  by apply list_elem_of_singleton in Ha.
Qed.

Lemma same_but_links_alive h h' a : same_but_links h h' → is_Some (h !! a) → is_Some (h' !! a).
Proof. intros Hs [hd E]. specialize (Hs a). rewrite E in Hs. by destruct (h' !! a). Qed.

(** [LRU_Remove] on a circular list. *)
Lemma dlist_remove h hd l1 e l2 :
  dlist h hd (l1 ++ e :: l2) → NoDup (hd :: l1 ++ e :: l2) →
  (∀ a, a ∈ hd :: l1 ++ e :: l2 → is_Some (h !! a)) →
  ∃ h', LRU_Remove h e = Some h' ∧ same_but_links h h' ∧ dlist h' hd (l1 ++ l2) ∧
    nx h' e = nx h e ∧
    ∀ a, a ∉ hd :: l1 ++ e :: l2 → nx h' a = nx h a ∧ pv h' a = pv h a.
Proof.
  intros Hd Hnd Hal. pose proof Hd as [Hd1 Hd2]%dpath_app.
  destruct (dpath_last _ _ _ _ Hd1) as [_ Hp]. destruct (dpath_first _ _ _ _ Hd2) as [Hn _].
  set (p := last_or hd l1) in *. set (n := head_or hd l2) in *.
  assert (p ∈ hd :: l1) as Hpin by apply last_or_elem.
  assert (n ∈ l2 ++ [hd]) as Hnin by apply head_or_elem.
  assert (p ∈ hd :: l1 ++ e :: l2) as Hpin'.
  { apply elem_of_cons in Hpin as [->|?]; apply elem_of_cons; [by left|right].
    apply elem_of_app. by left. }
  assert (n ∈ hd :: l1 ++ e :: l2) as Hnin'.
  { apply elem_of_app in Hnin as [?|Hx%list_elem_of_singleton]; apply elem_of_cons;
      [right; apply elem_of_app; right; apply elem_of_cons; by right|by left]. }
  pose proof Hnd as Hnd'. rewrite app_comm_cons in Hnd'.
  apply NoDup_app in Hnd' as (_ & Hdis & He). apply NoDup_cons in He as [He _].
  assert (p ≠ e) by (intros ->; apply (Hdis e Hpin), elem_of_cons; by left).
  assert (n ≠ e).
  { intros E. rewrite E in Hnin. apply elem_of_app in Hnin as [?|Hx%list_elem_of_singleton]; [done|].
    subst e. apply (Hdis hd); apply elem_of_cons; by left. }
  destruct (LRU_Remove_links h e p n Hp Hn) as (h' & E & Hs & Hnx & Hpv);
    [by apply Hal|by apply Hal|done|done|].
  exists h'. split; [done|]. split; [done|]. split; [|split].
  - unfold dlist. eapply dpath_remove; [done| |exact Hd|..].
    + by apply NoDup_cons in Hnd as [? _].
    + by rewrite Hnx, decide_True.
    + by rewrite Hpv, decide_True.
    + intros a Ha. by rewrite Hnx, decide_False.
    + intros b Hb. by rewrite Hpv, decide_False.
  - by rewrite Hnx, decide_False by congruence.
  - intros a Ha. rewrite Hnx, Hpv, !decide_False; [done| |]; by intros ->.
Qed.

(** [LRU_Append] on a circular list. *)
Lemma dlist_append h hd l e :
  dlist h hd l → NoDup (hd :: l) → e ∉ hd :: l → (∀ a, a ∈ hd :: l → is_Some (h !! a)) →
  is_Some (h !! e) →
  ∃ h', LRU_Append h hd e = Some h' ∧ same_but_links h h' ∧ dlist h' hd (l ++ [e]) ∧
    ∀ a, a ≠ e → a ∉ hd :: l → nx h' a = nx h a ∧ pv h' a = pv h a.
Proof.
  intros Hd Hnd He Hal Hale. destruct (dpath_last _ _ _ _ Hd) as [_ Hp].
  pose proof (last_or_elem hd l) as Hlin. set (lp := last_or hd l) in *.
  destruct (LRU_Append_links h hd lp e Hp) as (h' & E & Hs & Hnx & Hpv);
    [by apply Hal|done|intros ->; apply He, elem_of_cons; by left|by intros ->|].
  assert (e ≠ hd) by (intros ->; apply He, elem_of_cons; by left).
  assert (e ≠ lp) by by intros ->.
  exists h'. split; [done|]. split; [done|]. split.
  - apply dpath_app. split; [|split].
    + eapply dpath_retarget; [done|exact Hd|split| |].
      * fold lp. rewrite Hnx, decide_False, decide_True by congruence. done.
      * fold lp. rewrite Hpv, decide_False, decide_True by congruence. done.
      * fold lp. intros a Ha Hne. rewrite Hnx, !decide_False; [done..|]. by intros ->.
      * intros b Hb. apply NoDup_cons in Hnd as [Hh _].
        rewrite Hpv, !decide_False; [done| |]; intros ->; [|done].
        by apply He, elem_of_cons; right.
    + by rewrite Hnx, decide_True.
    + by rewrite Hpv, decide_True.
  - intros a Hae Ha. apply not_elem_of_cons in Ha as [Hah Hal'].
    rewrite Hnx, Hpv, !decide_False; try done. intros ->.
    apply elem_of_cons in Hlin as [Hx|Hx]; done.
Qed.

(** ** Specification: lists of handles with client references *)

Record info := { i_key : bytes; i_hash : Z; i_value : Z; i_charge : Z; i_deleter : Z }.

(** [a_lru] from the least recently released; [a_live] holds every entry that
    exists with the number of client handles to it. *)
Record astate := {
  a_cap : Z;
  a_lru : list positive;
  a_use : list positive;
  a_live : gmap positive (info * nat);
  a_deleted : list (Z * bytes * Z) }.

Definition cached (a : astate) : list positive := a_lru a ++ a_use a.

Definition without (e : positive) (l : list positive) : list positive := filter (λ x, x ≠ e) l.

Definition charge_of (live : gmap positive (info * nat)) (e : positive) : Z :=
  from_option (λ p, i_charge (fst p)) 0 (live !! e).

Definition total (live : gmap positive (info * nat)) (l : list positive) : Z :=
  foldr (λ e n, charge_of live e + n) 0 l.

(** The sum of the charges of the cached entries, as a [size_t]. *)
Definition a_usage (a : astate) : Z := u64 (total (a_live a) (cached a)).

Definition is_match (live : gmap positive (info * nat)) (key : bytes) (hs : Z) (e : positive) : bool :=
  match live !! e with
  | Some (i, _) => bool_decide (i_hash i = hs ∧ i_key i = key)
  | None => false
  end.

Definition a_find (a : astate) (key : bytes) (hs : Z) : option positive :=
  head (filter (λ e, is_match (a_live a) key hs e = true) (cached a)).

(** A client takes a reference. *)
Definition a_ref (a : astate) (e : positive) : astate :=
  match a_live a !! e with
  | None => a
  | Some (i, n) =>
      {| a_cap := a_cap a;
         a_lru := if decide (n = 0%nat) then without e (a_lru a) else a_lru a;
         a_use := if decide (n = 0%nat) then a_use a ++ [e] else a_use a;
         a_live := <[e := (i, S n)]> (a_live a); a_deleted := a_deleted a |}
  end.

(** An entry nobody refers to goes, through its deleter. *)
Definition a_free (a : astate) (e : positive) (i : info) : astate :=
  {| a_cap := a_cap a; a_lru := a_lru a; a_use := a_use a; a_live := delete e (a_live a);
     a_deleted := a_deleted a ++ [(i_deleter i, i_key i, i_value i)] |}.

(** A client gives a reference back. *)
Definition a_unref (a : astate) (e : positive) : astate :=
  match a_live a !! e with
  | Some (i, S n) =>
      if decide (n = 0%nat) then
        if decide (e ∈ a_use a) then
          {| a_cap := a_cap a; a_lru := a_lru a ++ [e]; a_use := without e (a_use a);
             a_live := <[e := (i, 0%nat)]> (a_live a); a_deleted := a_deleted a |}
        else a_free a e i
      else
        {| a_cap := a_cap a; a_lru := a_lru a; a_use := a_use a;
           a_live := <[e := (i, n)]> (a_live a); a_deleted := a_deleted a |}
  | _ => a
  end.

(** The cache forgets an entry; it lives on while clients hold it. *)
Definition a_drop (a : astate) (e : positive) : astate :=
  let a' := {| a_cap := a_cap a; a_lru := without e (a_lru a); a_use := without e (a_use a);
               a_live := a_live a; a_deleted := a_deleted a |} in
  match a_live a !! e with Some (i, O) => a_free a' e i | _ => a' end.

Definition a_drop_opt (a : astate) (e : option positive) : astate :=
  match e with None => a | Some e => a_drop a e end.

(** Least recently released entries go while the cache is over its capacity. *)
Fixpoint a_evict (fuel : nat) (all : bool) (a : astate) : astate :=
  match fuel, a_lru a with
  | S fuel, e :: _ =>
      if all || (a_cap a <? a_usage a) then a_evict fuel all (a_drop a e) else a
  | _, _ => a
  end.

Definition a_new (cap : Z) : astate :=
  {| a_cap := cap; a_lru := []; a_use := []; a_live := ∅; a_deleted := [] |}.

Definition a_lookup (a : astate) (key : bytes) (hs : Z) : option positive * astate :=
  match a_find a key hs with None => (None, a) | Some e => (Some e, a_ref a e) end.

Definition a_erase (a : astate) (key : bytes) (hs : Z) : astate :=
  a_drop_opt a (a_find a key hs).

(** [e] is the address of the new entry. *)
Definition a_add (a : astate) (e : positive) (i : info) : astate :=
  {| a_cap := a_cap a; a_lru := a_lru a;
     a_use := if 0 <? a_cap a then a_use a ++ [e] else a_use a;
     a_live := <[e := (i, 1%nat)]> (a_live a); a_deleted := a_deleted a |}.

(** [Insert] before its eviction loop: the entry it replaces, if any, goes. *)
Definition a_fill (a : astate) (e : positive) (i : info) : astate :=
  a_drop_opt (a_add a e i) (if 0 <? a_cap a then a_find a (i_key i) (i_hash i) else None).

Definition a_insert (a : astate) (e : positive) (i : info) : astate :=
  a_evict (length (a_lru (a_fill a e i))) false (a_fill a e i).

Definition a_prune (a : astate) : astate := a_evict (length (a_lru a)) true a.

(** *** The relation between the two *)

Definition data (hd : LRUHandle) : info :=
  {| i_key := key_data hd; i_hash := hash hd; i_value := value hd; i_charge := charge hd;
     i_deleter := deleter hd |}.

(** A live entry: [inc] tells whether the cache holds it. *)
Definition entry_rep (h : heap) (e : positive) (inc : bool) (i : info) (n : nat) : Prop :=
  ∃ hd, h !! e = Some hd ∧ data hd = i ∧ in_cache hd = inc ∧
    refs hd = Z.of_nat n + (if inc then 1 else 0) ∧ refs hd < 2 ^ 32 ∧
    next hd ≠ Some e ∧ 0 <= hash hd < 2 ^ 32.

(** [E] is the content of the table; between operations it is [cached a]. *)
Record RepG (c : LRUCache) (a : astate) (E : gset positive) : Prop := {
  r_cap : capacity_ c = a_cap a;
  r_lists : lists_ok (handles c) (a_lru a) (a_use a);
  r_table : table_rep (handles c) (table_ c) E;
  r_size : Z.of_nat (size E) < 2 ^ 31;
  r_sub e : e ∈ E → e ∈ cached a;
  r_live e i n : a_live a !! e = Some (i, n) →
    entry_rep (handles c) e (bool_decide (e ∈ cached a)) i n;
  r_dom e : is_Some (handles c !! e) ↔ e = lru_ ∨ e = in_use_ ∨ is_Some (a_live a !! e);
  r_heads : a_live a !! lru_ = None ∧ a_live a !! in_use_ = None;
  r_idle e : e ∈ a_lru a ↔ ∃ i, a_live a !! e = Some (i, 0%nat);
  r_used e : e ∈ a_use a → ∃ i n, a_live a !! e = Some (i, S n);
  r_usage : usage_ c = a_usage a;
  r_deleted : deleted c = a_deleted a }.

Definition Rep (c : LRUCache) (a : astate) : Prop := RepG c a (list_to_set (cached a)).

(** ** Lemmas: moving entries between the lists *)

Lemma two_lists_sym h x L y U : two_lists h x L y U → two_lists h y U x L.
Proof.
  intros [H1 H2 H3 H4]. split; [done..| |].
  - by rewrite Permutation_app_comm.
  - intros e He. apply H4. by rewrite Permutation_app_comm.
Qed.

Lemma without_notin e l : e ∉ l → without e l = l.
Proof.
  intros He. unfold without. induction l as [|x l IH]; [done|].
  apply not_elem_of_cons in He as [Hx He]. rewrite filter_cons, decide_True by congruence.
  f_equal. by apply IH.
Qed.

Lemma without_mid e l1 l2 : NoDup (l1 ++ e :: l2) → without e (l1 ++ e :: l2) = l1 ++ l2.
Proof.
  intros Hnd. assert (e ∉ l1 ++ l2) as He.
  { rewrite <- Permutation_middle in Hnd. by apply NoDup_cons in Hnd as [? _]. }
  unfold without. rewrite filter_app, filter_cons, decide_False by (intros H; by apply H).
  rewrite <- filter_app. by apply without_notin.
Qed.

Lemma elem_of_without x e l : x ∈ without e l ↔ x ≠ e ∧ x ∈ l.
Proof. unfold without. by rewrite list_elem_of_filter. Qed.

Lemma two_remove h x L y U e :
  two_lists h x L y U → e ∈ L →
  ∃ h', LRU_Remove h e = Some h' ∧ same_but_links h h' ∧ two_lists h' x (without e L) y U ∧
    nx h' e = nx h e ∧ ∀ a, a ∉ (x :: L) ++ (y :: U) → nx h' a = nx h a.
Proof.
  intros [H1 H2 Hnd Hal] (l1 & l2 & ->)%list_elem_of_split.
  pose proof Hnd as (Hnd1 & Hdis & Hnd2)%NoDup_app.
  destruct (dlist_remove h x l1 e l2 H1 Hnd1) as (h' & E & Hs & Hd & Hne & Hfr).
  { intros a Ha. apply Hal, elem_of_app. by left. }
  exists h'. split; [done|]. split; [done|].
  rewrite without_mid by (by apply NoDup_cons in Hnd1 as [_ ?]).
  split; [|split; [done|]].
  - split; [done| | |].
    + eapply dlist_frame; [|exact H2]. intros a Ha. apply Hfr. intros Ha'. by apply (Hdis a Ha').
    + assert ((x :: l1 ++ e :: l2) ++ y :: U ≡ₚ e :: (x :: l1 ++ l2) ++ y :: U) as Hp.
      { rewrite <- (Permutation_middle l1 l2 e). simpl. apply Permutation_swap. }
      rewrite Hp in Hnd. by apply NoDup_cons in Hnd as [_ ?].
    + intros a Ha. eapply same_but_links_alive; [exact Hs|]. apply Hal.
      apply elem_of_app in Ha as [Ha|Ha]; apply elem_of_app; [left|by right].
      apply elem_of_cons in Ha as [->|Ha]; apply elem_of_cons; [by left|right].
      apply elem_of_app in Ha as [Ha|Ha]; apply elem_of_app; [by left|right].
      apply elem_of_cons. by right.
  - intros a Ha. apply Hfr. intros Ha'. apply Ha, elem_of_app. by left.
Qed.

Lemma two_append h x L y U e :
  two_lists h x L y U → e ∉ (x :: L) ++ (y :: U) → is_Some (h !! e) →
  ∃ h', LRU_Append h x e = Some h' ∧ same_but_links h h' ∧ two_lists h' x (L ++ [e]) y U ∧
    ∀ a, a ≠ e → a ∉ (x :: L) ++ (y :: U) → nx h' a = nx h a.
Proof.
  intros [H1 H2 Hnd Hal] He Hale. pose proof Hnd as (Hnd1 & Hdis & Hnd2)%NoDup_app.
  assert ((e ∉ x :: L) ∧ (e ∉ y :: U)) as [He1 He2] by (rewrite elem_of_app in He; tauto).
  destruct (dlist_append h x L e H1 Hnd1 He1) as (h' & E & Hs & Hd & Hfr); [|done|].
  { intros a Ha. apply Hal, elem_of_app. by left. }
  exists h'. split; [done|]. split; [done|]. split.
  - split; [done| | |].
    + eapply dlist_frame; [|exact H2]. intros a Ha. apply Hfr; [by intros ->|].
      intros Ha'. by apply (Hdis a Ha').
    + assert ((x :: L ++ [e]) ++ y :: U ≡ₚ e :: (x :: L) ++ y :: U) as ->.
      { rewrite <- app_comm_cons, <- app_assoc. simpl.
        rewrite <- (Permutation_middle L (y :: U) e). apply Permutation_swap. }
      by constructor.
    + intros a Ha. eapply same_but_links_alive; [exact Hs|].
      apply elem_of_app in Ha as [Ha|Ha]; [|apply Hal, elem_of_app; by right].
      apply elem_of_cons in Ha as [->|Ha]; [apply Hal, elem_of_app; left; apply elem_of_cons; by left|].
      apply elem_of_app in Ha as [Ha|Ha%list_elem_of_singleton]; [|by subst a].
      apply Hal, elem_of_app. left. apply elem_of_cons. by right.
  - intros a Hae Ha. apply Hfr; [done|]. intros Ha'. apply Ha, elem_of_app. by left.
Qed.

(** Entries of a circular list never link to themselves. *)
Lemma dlist_next_ne h x l e : dlist h x l → NoDup (x :: l) → e ∈ l → nx h e ≠ Some e.
Proof.
  intros Hd Hnd (l1 & l2 & ->)%list_elem_of_split. apply dpath_app in Hd as [_ Hd].
  apply dpath_first in Hd as [Hn _]. rewrite Hn. intros [= E].
  apply NoDup_cons in Hnd as [Hx Hnd]. apply NoDup_app in Hnd as (_ & _ & Hnd).
  apply NoDup_cons in Hnd as [He _]. destruct l2 as [|s l2]; simpl in E; unfold head_or in E; simpl in E.
  - subst e. apply Hx, elem_of_mid.
  - subst s. apply He, elem_of_cons. by left.
Qed.

Lemma lists_next_ne h L U e : lists_ok h L U → e ∈ L ++ U → nx h e ≠ Some e.
Proof.
  intros [H1 H2 Hnd _] He. apply NoDup_app in Hnd as (Hnd1 & _ & Hnd2).
  apply elem_of_app in He as [He|He];
    [exact (dlist_next_ne _ _ _ _ H1 Hnd1 He)|exact (dlist_next_ne _ _ _ _ H2 Hnd2 He)].
Qed.

(** ** Lemmas: frames *)

Lemma table_rep_frame h h' t E :
  table_rep h t E →
  (∀ e hd, e ∈ E → h !! e = Some hd → ∃ hd', h' !! e = Some hd' ∧ next_hash hd' = next_hash hd ∧
     hash hd' = hash hd ∧ key_data hd' = key_data hd ∧ next hd' ≠ Some e) →
  table_rep h' t E.
Proof.
  intros (bs & Hb & Hd & Hel & ->) Hf.
  assert (Hf' : ∀ e hd, e ∈ concat bs → h !! e = Some hd → ∃ hd', h' !! e = Some hd' ∧
     next_hash hd' = next_hash hd ∧ hash hd' = hash hd ∧ key_data hd' = key_data hd ∧
     next hd' ≠ Some e) by (intros e hd He; apply Hf; by apply elem_of_list_to_set).
  exists bs. split; [|split; [|done]].
  - split; try apply Hb.
    + intros i p l Hp Hl. pose proof (bo_chain _ _ _ _ Hb i p l Hp Hl) as Hc.
      assert (∀ e, e ∈ l → e ∈ concat bs) as Hin by (intros e He; by eapply elem_of_bucket).
      clear Hp Hl. revert p Hc. induction l as [|e l IH]; intros p Hc; [done|].
      destruct Hc as (-> & hd & E & Hc). split; [done|].
      destruct (Hf' e hd) as (hd' & E' & Enh & _); [apply Hin, elem_of_cons; by left|done|].
      exists hd'. split; [done|]. rewrite Enh. apply IH; [|done].
      intros x Hx. apply Hin, elem_of_cons. by right.
    + intros i l e Hl He. destruct (bo_hash _ _ _ _ Hb i l e Hl He) as (hd & E & _ & H2 & H3).
      destruct (Hf' e hd) as (hd' & E' & _ & Eh & _ & Hn); [by eapply elem_of_bucket|done|].
      exists hd'. by rewrite Eh.
  - assert (Hm : ∀ key hs e, e ∈ concat bs → matches h' key hs e → matches h key hs e).
    { intros key hs e He (hd' & E' & <- & <-). apply elem_of_concat in He as (i & l & Hi & He).
      destruct (bo_hash _ _ _ _ Hb i l e Hi He) as (hd & E & _).
      destruct (Hf' e hd) as (hd2 & E2 & _ & Eh & Ek & _); [by eapply elem_of_bucket|done|].
      rewrite E' in E2. injection E2 as <-. by exists hd. }
    intros e1 e2 key hs H1 H2 M1 M2. apply (Hd e1 e2 key hs); auto.
Qed.

Lemma lists_frame h h' L U :
  (∀ a, nx h' a = nx h a ∧ pv h' a = pv h a) → (∀ a, a ∈ lru_ :: in_use_ :: L ++ U → is_Some (h !! a) → is_Some (h' !! a)) →
  lists_ok h L U → lists_ok h' L U.
Proof.
  intros Hf Hal [H1 H2 H3 H4]. split; [by eapply dlist_frame|by eapply dlist_frame|done|].
  intros e He. apply Hal; [|by apply H4].
  apply elem_of_app in He as [[->|He]%elem_of_cons|[->|He]%elem_of_cons];
    repeat (apply elem_of_cons; first [by left|right]); apply elem_of_app; auto.
Qed.

Lemma nx_modify h e hd hd' a :
  h !! e = Some hd → next hd' = next hd → prev hd' = prev hd →
  nx (<[e := hd']> h) a = nx h a ∧ pv (<[e := hd']> h) a = pv h a.
Proof.
  intros E H1 H2. rewrite nx_insert, pv_insert.
  destruct (decide (a = e)) as [->|]; [|done]. unfold nx, pv. rewrite E. simpl. by rewrite H1, H2.
Qed.

Lemma same_links_lookup h h' a hd :
  same_but_links h h' → h !! a = Some hd →
  ∃ hd', h' !! a = Some hd' ∧ data hd' = data hd ∧ in_cache hd' = in_cache hd ∧
    refs hd' = refs hd ∧ next_hash hd' = next_hash hd.
Proof.
  intros Hs E. specialize (Hs a). rewrite E in Hs. destruct (h' !! a) as [hd'|]; [|done].
  exists hd'. split; [done|]. simpl in Hs. injection Hs as ????????. unfold data. by split_and!; try congruence.
Qed.

Lemma nx_next h e hd : h !! e = Some hd → nx h e = next hd.
Proof. unfold nx. by intros ->. Qed.

Lemma entry_rep_links h h' e inc i n :
  same_but_links h h' → nx h' e ≠ Some e → entry_rep h e inc i n → entry_rep h' e inc i n.
Proof.
  intros Hs Hn (hd & E & Hd & Hi & Hr & Hb & Hx & Hh).
  destruct (same_links_lookup _ _ _ _ Hs E) as (hd' & E' & Hd' & Hi' & Hr' & _).
  exists hd'. rewrite Hd', Hi', Hr'. split_and!; try done.
  - by rewrite <- (nx_next _ _ _ E').
  - apply (f_equal i_hash) in Hd'. simpl in Hd'. lia.
  - apply (f_equal i_hash) in Hd'. simpl in Hd'. lia.
Qed.

Lemma table_rep_links h h' t E :
  same_but_links h h' → (∀ e, e ∈ E → nx h' e ≠ Some e) → table_rep h t E → table_rep h' t E.
Proof.
  intros Hs Hn Ht. eapply table_rep_frame; [exact Ht|]. intros e hd He E0.
  destruct (same_links_lookup _ _ _ _ Hs E0) as (hd' & E' & Hd' & _ & _ & Hnh).
  exists hd'. split; [done|]. split; [done|].
  pose proof (f_equal i_hash Hd'). pose proof (f_equal i_key Hd'). simpl in *.
  split_and!; [done..|]. rewrite <- (nx_next _ _ _ E'). by apply Hn.
Qed.

Lemma charge_of_insert live e i n n0 x :
  live !! e = Some (i, n0) → charge_of (<[e := (i, n)]> live) x = charge_of live x.
Proof.
  intros E. unfold charge_of. destruct (decide (x = e)) as [->|Hne].
  - by rewrite lookup_insert_eq, E.
  - by rewrite lookup_insert_ne.
Qed.

Lemma total_ext live live' l :
  (∀ e, e ∈ l → charge_of live' e = charge_of live e) → total live' l = total live l.
Proof.
  induction l as [|e l IH]; intros H; simpl; [done|]. rewrite H by (apply elem_of_cons; by left).
  f_equal. apply IH. intros x Hx. apply H, elem_of_cons. by right.
Qed.

Lemma total_perm live l l' : l ≡ₚ l' → total live l = total live l'.
Proof. induction 1; simpl; lia. Qed.

Lemma total_app live l l' : total live (l ++ l') = total live l + total live l'.
Proof. induction l; simpl; lia. Qed.

Lemma cached_nodup c a E : RepG c a E → NoDup (cached a) ∧ (lru_ ∉ cached a) ∧ (in_use_ ∉ cached a).
Proof.
  intros Hr. pose proof (tl_nodup _ _ _ _ _ (r_lists _ _ _ Hr)) as Hnd.
  assert ((lru_ :: a_lru a) ++ in_use_ :: a_use a ≡ₚ lru_ :: in_use_ :: cached a) as Hp.
  { simpl. f_equiv. unfold cached. symmetry. apply Permutation_middle. }
  rewrite Hp in Hnd. apply NoDup_cons in Hnd as [H1 [H2 H3]%NoDup_cons].
  split; [done|]. split; [|done]. intros H. apply H1, elem_of_cons. by right.
Qed.

Lemma without_perm e l : NoDup l → e ∈ l → l ≡ₚ e :: without e l.
Proof.
  intros Hnd (l1 & l2 & ->)%list_elem_of_split. rewrite without_mid by done.
  symmetry. apply Permutation_middle.
Qed.

Lemma heads_not_live c a E e p : RepG c a E → a_live a !! e = Some p → e ≠ lru_ ∧ e ≠ in_use_.
Proof. intros Hr He. destruct (r_heads _ _ _ Hr). split; intros ->; congruence. Qed.

(** ** Lemmas: each step keeps the relation *)

Lemma not_cached_head c a E e p :
  RepG c a E → a_live a !! e = Some p → e ∉ cached a →
  e ∉ (lru_ :: a_lru a) ++ (in_use_ :: a_use a).
Proof.
  intros Hr He Hn. destruct (heads_not_live _ _ _ _ _ Hr He) as [H1 H2].
  unfold cached in Hn. rewrite elem_of_app in Hn |- *. rewrite !elem_of_cons. tauto.
Qed.

Lemma cached_live c a E e : RepG c a E → e ∈ cached a → ∃ i n, a_live a !! e = Some (i, n).
Proof.
  intros Hr [He|He]%elem_of_app.
  - apply (r_idle _ _ _ Hr) in He as [i ?]. eauto.
  - apply (r_used _ _ _ Hr) in He as (i & n & ?). eauto.
Qed.

(** The links of the entries of both lists never loop. *)
Lemma rep_next_ne c a E e : RepG c a E → is_Some (a_live a !! e) → nx (handles c) e ≠ Some e.
Proof.
  intros Hr [[i n] He]. destruct (r_live _ _ _ Hr e i n He) as (hd & Eh & _ & _ & _ & _ & Hn & _).
  by rewrite (nx_next _ _ _ Eh).
Qed.

(** Moving an entry to the end of the other list. *)
Lemma two_move h x L y U e :
  two_lists h x L y U → e ∈ L →
  ∃ h', (h ← LRU_Remove h e; LRU_Append h y e) = Some h' ∧ same_but_links h h' ∧
    two_lists h' x (without e L) y (U ++ [e]) ∧
    ∀ z, z ∉ (x :: L) ++ (y :: U) → nx h' z = nx h z.
Proof.
  intros Hl He. pose proof (tl_nodup _ _ _ _ _ Hl) as Hnd.
  destruct (two_remove h x L y U e Hl He) as (h1 & E1 & Hs1 & Hl1 & _ & Hfr1).
  assert (e ∉ (y :: U) ++ x :: without e L) as Hne.
  { rewrite elem_of_app, !elem_of_cons, elem_of_without.
    apply NoDup_app in Hnd as (HndL & Hdis & _). apply NoDup_cons in HndL as [Hlru _].
    intros [H|[->|[? _]]]; [|done|done].
    apply (Hdis e); [apply elem_of_cons; by right|by apply elem_of_cons]. }
  destruct (two_append h1 y U x (without e L) e (two_lists_sym _ _ _ _ _ Hl1) Hne)
    as (h2 & E2 & Hs2 & Hl2 & Hfr2).
  { eapply same_but_links_alive; [exact Hs1|]. apply (tl_alive _ _ _ _ _ Hl).
    apply elem_of_app. left. apply elem_of_cons. by right. }
  exists h2. rewrite E1. cbn [mbind option_bind]. split; [done|].
  split; [by eapply same_but_links_trans|]. split; [by apply two_lists_sym|].
  intros z Hz. rewrite Hfr2, Hfr1; [done|done| |].
  - intros ->. apply Hz, elem_of_app. left. apply elem_of_cons. by right.
  - intros Hz2. apply Hz. rewrite elem_of_app, !elem_of_cons, elem_of_without in Hz2.
    rewrite elem_of_app, !elem_of_cons. tauto.
Qed.

Lemma not_in_lists x L U : x ∉ lru_ :: in_use_ :: L ++ U → x ∉ (lru_ :: L) ++ in_use_ :: U.
Proof.
  intros Hx. rewrite !elem_of_cons, elem_of_app in Hx. rewrite elem_of_app, !elem_of_cons. tauto.
Qed.

(** A new record for [e] with the same data, followed by changes of links, keeps
    the domain of the heap and what the table reads of every record. *)
Lemma replace_dom h h' e hd hd0 x :
  h !! e = Some hd → same_but_links (<[e := hd0]> h) h' → is_Some (h' !! x) ↔ is_Some (h !! x).
Proof.
  intros Ehd Hs. transitivity (is_Some (<[e := hd0]> h !! x)).
  - specialize (Hs x). destruct (h' !! x), (<[e := hd0]> h !! x); simpl in Hs; try done; split; eauto.
  - destruct (decide (x = e)) as [->|]; [|by rewrite lookup_insert_ne].
    rewrite lookup_insert_eq, Ehd. split; eauto.
Qed.

Lemma replace_record h h' e hd hd0 x hx :
  h !! e = Some hd → data hd0 = data hd → next_hash hd0 = next_hash hd →
  same_but_links (<[e := hd0]> h) h' → h !! x = Some hx → nx h' x ≠ Some x →
  ∃ hx', h' !! x = Some hx' ∧ next_hash hx' = next_hash hx ∧ hash hx' = hash hx ∧
    key_data hx' = key_data hx ∧ next hx' ≠ Some x.
Proof.
  intros Ehd Hdata Hnh Hs Ex Hn.
  assert (∃ hx0, <[e := hd0]> h !! x = Some hx0 ∧ data hx0 = data hx ∧ next_hash hx0 = next_hash hx)
    as (hx0 & Ex0 & D0 & N0).
  { destruct (decide (x = e)) as [->|]; [|exists hx; by rewrite lookup_insert_ne].
    exists hd0. rewrite lookup_insert_eq. rewrite Ehd in Ex. by injection Ex as <-. }
  destruct (same_links_lookup _ _ _ _ Hs Ex0) as (hx' & Ex' & D' & _ & _ & N').
  exists hx'. rewrite D0 in D'. injection D' as ?????.
  rewrite <- (nx_next _ _ _ Ex'), N', N0. by split_and!.
Qed.

(** A new record for [e] (same data), which may change lists or references; the
    records of the other entries keep all but their links. *)
Lemma RepG_update c c' a E e i n n' hd hd0 L U :
  RepG c a E → a_live a !! e = Some (i, n) → handles c !! e = Some hd →
  data hd0 = data hd → next_hash hd0 = next_hash hd → next hd0 = next hd →
  same_but_links (<[e := hd0]> (handles c)) (handles c') →
  capacity_ c' = capacity_ c → table_ c' = table_ c → deleted c' = deleted c →
  in_cache hd0 = bool_decide (e ∈ L ++ U) →
  refs hd0 = Z.of_nat n' + (if bool_decide (e ∈ L ++ U) then 1 else 0) → refs hd0 < 2 ^ 32 →
  lists_ok (handles c') L U → (∀ x, x ≠ e → x ∈ L ++ U ↔ x ∈ cached a) → (∀ x, x ∈ E → x ∈ L ++ U) →
  (∀ x, x ∉ lru_ :: in_use_ :: L ++ U → nx (handles c') x = nx (handles c) x) →
  (∀ x, x ∈ L ↔ if decide (x = e) then n' = 0%nat else x ∈ a_lru a) →
  usage_ c' = u64 (total (a_live a) (L ++ U)) →
  RepG c' {| a_cap := a_cap a; a_lru := L; a_use := U; a_live := <[e := (i, n')]> (a_live a);
             a_deleted := a_deleted a |} E.
Proof.
  intros Hr He Ehd Hdata0 Hnh0 Hnx0 Hs Ecap Etab Edel Hin0 Hrefs0 Hb Hl Hp HE Hfr HL Hus.
  destruct (r_live _ _ _ Hr e i n He) as (hd' & E' & Hdata & _ & _ & _ & Hnext & Hhash).
  rewrite Ehd in E'. injection E' as <-. set (h0 := <[e := hd0]> (handles c)) in *.
  assert (Hh0 : hash hd0 = hash hd ∧ key_data hd0 = key_data hd)
    by (injection Hdata0 as ?????; done).
  assert (Hnd : NoDup (L ++ U)).
  { pose proof (tl_nodup _ _ _ _ _ Hl) as Hnd.
    rewrite <- app_comm_cons, <- Permutation_middle in Hnd. by apply NoDup_cons in Hnd as [_ [_ Hnd]%NoDup_cons]. }
  assert (Hlive : ∀ x, x ∈ L ++ U → is_Some (a_live a !! x)).
  { intros x Hx. destruct (decide (x = e)) as [->|Hxe]; [by rewrite He|].
    apply (Hp x Hxe) in Hx. by apply (cached_live _ _ _ _ Hr) in Hx as (? & ? & ->). }
  assert (Hnx : ∀ x, is_Some (a_live a !! x) → nx (handles c') x ≠ Some x).
  { intros x Hx. destruct (decide (x ∈ L ++ U)) as [Hxc|Hxc].
    - by eapply lists_next_ne.
    - rewrite Hfr; [by eapply rep_next_ne|]. destruct Hx as [p Hx].
      destruct (heads_not_live _ _ _ _ _ Hr Hx).
      intros [?|[?|?]%elem_of_cons]%elem_of_cons; done. }
  split; simpl.
  - rewrite Ecap. apply (r_cap _ _ _ Hr).
  - done.
  - rewrite Etab. eapply table_rep_frame; [apply (r_table _ _ _ Hr)|]. intros x hx Hx Ex.
    eapply replace_record; [exact Ehd|done..|]. by apply Hnx, Hlive, HE.
  - apply (r_size _ _ _ Hr).
  - done.
  - intros x ix nx'. unfold cached. simpl. intros Hx. apply (entry_rep_links h0); [done| |].
    { apply Hnx. destruct (decide (x = e)) as [->|]; [by rewrite He|].
      rewrite lookup_insert_ne in Hx by done. by rewrite Hx. }
    unfold h0. destruct (decide (x = e)) as [->|Hxe].
    + rewrite lookup_insert_eq in Hx. injection Hx as <- <-. exists hd0.
      rewrite lookup_insert_eq, (proj1 Hh0). split_and!; try first [done|apply Hhash|congruence].
    + rewrite lookup_insert_ne in Hx by done.
      destruct (r_live _ _ _ Hr x ix nx' Hx) as (hx & Ex & Hrest).
      exists hx. rewrite lookup_insert_ne by done. split; [done|].
      by replace (bool_decide (x ∈ L ++ U)) with (bool_decide (x ∈ cached a))
        by (apply bool_decide_ext; by rewrite Hp).
  - intros x. rewrite (replace_dom _ _ _ _ _ x Ehd Hs).
    rewrite (r_dom _ _ _ Hr x), lookup_insert_is_Some. destruct (decide (e = x)) as [<-|]; [|tauto].
    rewrite He. split; [by eauto|]. intros [?|[?|_]]; eauto.
  - destruct (r_heads _ _ _ Hr), (heads_not_live _ _ _ _ _ Hr He). by rewrite !lookup_insert_ne.
  - intros x. rewrite HL. destruct (decide (x = e)) as [->|Hxe].
    + rewrite lookup_insert_eq. split; [by intros ->; eauto|intros [i' [=]]; done].
    + rewrite lookup_insert_ne by done. apply (r_idle _ _ _ Hr).
  - intros x Hx. apply NoDup_app in Hnd as (_ & Hdis & _).
    assert (x ∉ L) as HxL by (intros HxL; by apply (Hdis x)). rewrite HL in HxL.
    destruct (decide (x = e)) as [->|Hxe].
    + rewrite lookup_insert_eq. destruct n' as [|n']; [done|eauto].
    + rewrite lookup_insert_ne by done. apply (r_used _ _ _ Hr).
      assert (x ∈ cached a) as Hc by (apply (Hp x Hxe), elem_of_app; by right).
      apply elem_of_app in Hc as [?|?]; done.
  - rewrite Hus. unfold a_usage. simpl. f_equal. symmetry. apply total_ext.
    intros x _. by eapply charge_of_insert.
  - rewrite Edel. apply (r_deleted _ _ _ Hr).
Qed.

(** Updates that leave the links alone commute with changes of links. *)
Lemma same_but_links_touch h h' e hd hd' f :
  same_but_links h h' → h !! e = Some hd → h' !! e = Some hd' →
  (∀ x y, unlink x = unlink y → unlink (f x) = unlink (f y)) →
  same_but_links (<[e := f hd]> h) (<[e := f hd']> h').
Proof.
  intros Hs Eh Eh' Hf x. destruct (decide (x = e)) as [->|]; [|by rewrite !lookup_insert_ne].
  specialize (Hs e). rewrite Eh, Eh' in Hs. rewrite !lookup_insert_eq. simpl in *.
  f_equal. apply Hf. congruence.
Qed.

Lemma unlink_fields f :
  (∀ x, unlink (f x) = f (unlink x)) → ∀ x y, unlink x = unlink y → unlink (f x) = unlink (f y).
Proof. intros Hf x y E. by rewrite !Hf, E. Qed.

Lemma RepG_ref c a E e i n :
  RepG c a E → a_live a !! e = Some (i, n) → Z.of_nat n + 2 < 2 ^ 32 →
  ∃ h, Ref (handles c) e = Some h ∧ RepG (with_handles c h) (a_ref a e) E.
Proof.
  intros Hr He Hn. destruct (r_live _ _ _ Hr e i n He) as (hd & Ehd & Hdata & Hinc & Hrefs & _).
  destruct (cached_nodup _ _ _ Hr) as (Hnd & _ & _). pose proof Hnd as (HndL & HndD & _)%NoDup_app.
  assert (∃ h1 L U,
      (if (refs hd =? 1) && in_cache hd
       then h ← LRU_Remove (handles c) e; LRU_Append h in_use_ e else Some (handles c)) = Some h1 ∧
      L = (if decide (n = 0%nat) then without e (a_lru a) else a_lru a) ∧
      U = (if decide (n = 0%nat) then a_use a ++ [e] else a_use a) ∧
      same_but_links (handles c) h1 ∧ lists_ok h1 L U ∧ L ++ U ≡ₚ cached a ∧
      (∀ x, x ∉ lru_ :: in_use_ :: cached a → nx h1 x = nx (handles c) x))
    as (h1 & L & U & E1 & EL & EU & Hs1 & Hl1 & Hp & Hfr1).
  { rewrite Hrefs, Hinc. destruct (decide (n = 0%nat)) as [->|Hn0].
    - assert (e ∈ a_lru a) as HeL by (apply (r_idle _ _ _ Hr); eauto).
      rewrite bool_decide_true by (apply elem_of_app; by left). simpl.
      destruct (two_move _ _ _ _ _ _ (r_lists _ _ _ Hr) HeL) as (h1 & ? & ? & ? & Hfr).
      eexists h1, _, _. split_and!; try done; [|by intros x Hx; apply Hfr, not_in_lists]. rewrite app_assoc, (Permutation_app_comm _ [e]). simpl.
      rewrite app_comm_cons, <- (without_perm e (a_lru a)) by done. done.
    - eexists (handles c), _, _. split_and!; try done; [|apply (r_lists _ _ _ Hr)].
      destruct (bool_decide (e ∈ cached a)); [|by rewrite andb_false_r].
      by rewrite (proj2 (Z.eqb_neq _ _)) by lia. }
  destruct (same_links_lookup _ _ _ _ Hs1 Ehd) as (hd1 & Ehd1 & _ & _ & Hr1 & _).
  unfold Ref. rewrite Ehd. cbn [mbind option_bind]. rewrite E1. cbn [mbind option_bind].
  rewrite (modify_some _ _ _ _ Ehd1). eexists. split; [done|]. unfold a_ref. rewrite He, <- EL, <- EU.
  assert (Hlinks : ∀ x, nx (<[e := set_refs (u32 (refs hd1 + 1)) hd1]> h1) x = nx h1 x ∧
            pv (<[e := set_refs (u32 (refs hd1 + 1)) hd1]> h1) x = pv h1 x)
    by (intros x; by eapply nx_modify).
  assert (refs hd + 1 < 2 ^ 32) as Hrb by (rewrite Hrefs; destruct (bool_decide _); lia).
  assert (bool_decide (e ∈ L ++ U) = bool_decide (e ∈ cached a)) as Ebd
    by (apply bool_decide_ext; by rewrite Hp).
  eapply (RepG_update c _ _ _ _ _ _ _ hd (set_refs (u32 (refs hd + 1)) hd));
    try done; try (by intros; rewrite Hp).
  - replace (u32 (refs hd + 1)) with (u32 (refs hd1 + 1)) by by rewrite Hr1.
    by apply (same_but_links_touch _ _ _ _ _ (set_refs _)), unlink_fields.
  - by rewrite Ebd.
  - rewrite Ebd. simpl. rewrite u32_small; [lia|]. rewrite Hrefs in Hrb |- *. destruct (bool_decide _); lia.
  - simpl. rewrite u32_small; [done|]. rewrite Hrefs in Hrb |- *. destruct (bool_decide _); lia.
  - eapply lists_frame; [exact Hlinks| |exact Hl1]. intros x _ [hx Hx]. simpl.
    destruct (decide (x = e)) as [->|]; [by rewrite lookup_insert_eq|by rewrite lookup_insert_ne].
  - intros x Hx. rewrite Hp. by apply (r_sub _ _ _ Hr).
  - intros x Hx. simpl. rewrite (proj1 (Hlinks x)). apply Hfr1. by rewrite <- Hp.
  - intros x. rewrite EL. pose proof (r_idle _ _ _ Hr e) as Hi. rewrite He in Hi.
    destruct (decide (n = 0%nat)) as [->|]; [rewrite elem_of_without|];
      destruct (decide (x = e)) as [->|]; try tauto.
    + split; [by intros [? _]|done].
    + rewrite Hi. split; [by intros [i' [=]]|done].
  - simpl. rewrite (r_usage _ _ _ Hr). unfold a_usage. f_equal. by apply total_perm.
Qed.

(** An entry that is not cached goes. *)
Lemma RepG_free c c' a E e i n :
  RepG c a E → a_live a !! e = Some (i, n) → e ∉ cached a →
  capacity_ c' = capacity_ c → table_ c' = table_ c → usage_ c' = usage_ c →
  handles c' = delete e (handles c) →
  deleted c' = deleted c ++ [(i_deleter i, i_key i, i_value i)] → RepG c' (a_free a e i) E.
Proof.
  intros Hr He Hc Ecap Etab Eus Eh Edel. destruct (heads_not_live _ _ _ _ _ Hr He) as [Hne1 Hne2].
  assert (Hk : ∀ x, x ∈ cached a → handles c' !! x = handles c !! x)
    by (intros x Hx; rewrite Eh; apply lookup_delete_ne; by intros ->).
  split; simpl; rewrite ?Ecap, ?Etab, ?Eus, ?Edel.
  - apply (r_cap _ _ _ Hr).
  - destruct (r_lists _ _ _ Hr) as [H1 H2 H3 H4].
    assert (Hf : ∀ x, x ∈ (lru_ :: a_lru a) ++ in_use_ :: a_use a → handles c' !! x = handles c !! x).
    { intros x Hx. rewrite Eh. apply lookup_delete_ne. intros <-.
      by apply (not_cached_head _ _ _ _ _ Hr He Hc). }
    split; [| |done|by intros x Hx; rewrite Hf; [apply H4|]];
      (eapply dlist_frame; [|done]); intros x Hx; unfold nx, pv; rewrite Hf; try done;
      apply elem_of_app; auto.
  - eapply table_rep_frame; [apply (r_table _ _ _ Hr)|]. intros x hx Hx Ex.
    apply (r_sub _ _ _ Hr) in Hx. exists hx. rewrite Hk by done. split_and!; try done.
    rewrite <- (nx_next _ _ _ Ex). eapply rep_next_ne; [done|].
    by apply (cached_live _ _ _ _ Hr) in Hx as (? & ? & ->).
  - apply (r_size _ _ _ Hr).
  - apply (r_sub _ _ _ Hr).
  - intros x ix m. change (cached (a_free a e i)) with (cached a).
    intros [Hxe Hx]%lookup_delete_Some. destruct (r_live _ _ _ Hr x ix m Hx) as (hx & Ex & Hrest).
    exists hx. by rewrite Eh, lookup_delete_ne.
  - intros x. rewrite Eh. destruct (decide (x = e)) as [->|Hxe].
    + rewrite !lookup_delete_eq. split; [by intros [? ?]|]. intros [?|[?|[? ?]]]; done.
    + rewrite !lookup_delete_ne by done. apply (r_dom _ _ _ Hr).
  - destruct (r_heads _ _ _ Hr). by rewrite !lookup_delete_ne.
  - intros x. destruct (decide (x = e)) as [->|Hxe].
    + rewrite lookup_delete_eq. split; [|by intros [? ?]]. intros Hx. destruct Hc.
      apply elem_of_app. by left.
    + rewrite lookup_delete_ne by done. apply (r_idle _ _ _ Hr).
  - intros x Hx. rewrite lookup_delete_ne; [by apply (r_used _ _ _ Hr)|].
    intros <-. apply Hc, elem_of_app. by right.
  - rewrite (r_usage _ _ _ Hr). unfold a_usage. change (cached (a_free a e i)) with (cached a).
    f_equal. simpl. symmetry. apply total_ext. intros x Hx. unfold charge_of.
    rewrite lookup_delete_ne; [done|]. by intros <-.
  - by rewrite (r_deleted _ _ _ Hr).
Qed.

Lemma lists_modify h L U e hd hd0 :
  h !! e = Some hd → next hd0 = next hd → prev hd0 = prev hd →
  lists_ok h L U → lists_ok (<[e := hd0]> h) L U.
Proof.
  intros Ehd E1 E2. apply lists_frame; [intros x; by eapply nx_modify|]. intros x _ [hx Hx].
  destruct (decide (x = e)) as [->|]; [by rewrite lookup_insert_eq|by rewrite lookup_insert_ne].
Qed.

(** [Unref] of an entry that is not cached and has one reference left. *)
Lemma Unref_free c a E e i hd :
  RepG c a E → a_live a !! e = Some (i, 1%nat) → e ∉ cached a → handles c !! e = Some hd →
  ∃ c', Unref c e = Some c' ∧ RepG c' (a_free a e i) E.
Proof.
  intros Hr He Hc Ehd.
  destruct (r_live _ _ _ Hr e i _ He) as (hd' & E' & Hdata & Hinc & Hrefs & _ & Hnext & _).
  rewrite Ehd in E'. injection E' as <-. rewrite bool_decide_false in Hinc, Hrefs by done.
  unfold Unref. rewrite Ehd. cbn [mbind option_bind]. rewrite Hrefs. cbn [Z.ltb Z.compare Z.of_nat].
  change (0 <? Z.pos (Pos.of_succ_nat 0) + 0) with true. cbn iota zeta.
  rewrite (modify_some _ _ _ _ Ehd). cbn [mbind option_bind].
  change (u32 (Z.pos (Pos.of_succ_nat 0) + 0 - 1) =? 0) with true. cbn iota. rewrite Hinc.
  unfold handle_key. rewrite lookup_insert_eq. cbn [mbind option_bind].
  rewrite decide_False by done. cbn [mbind option_bind]. eexists. split; [done|].
  eapply RepG_free; try done; simpl.
  - by rewrite delete_insert_eq.
  - by rewrite <- Hdata.
Qed.

(** The last reference of a client to a cached entry: it becomes idle. *)
Lemma Unref_idle c a E e i hd :
  RepG c a E → a_live a !! e = Some (i, 1%nat) → e ∈ a_use a → handles c !! e = Some hd →
  ∃ c', Unref c e = Some c' ∧
    RepG c' {| a_cap := a_cap a; a_lru := a_lru a ++ [e]; a_use := without e (a_use a);
               a_live := <[e := (i, 0%nat)]> (a_live a); a_deleted := a_deleted a |} E.
Proof.
  intros Hr He Hu Ehd.
  destruct (r_live _ _ _ Hr e i _ He) as (hd' & E' & Hdata & Hinc & Hrefs & Hb & _).
  rewrite Ehd in E'. injection E' as <-. assert (e ∈ cached a) as Hc by (apply elem_of_app; by right).
  rewrite bool_decide_true in Hinc, Hrefs by done.
  pose proof (lists_modify _ _ _ _ _ (set_refs 1 hd) Ehd eq_refl eq_refl (r_lists _ _ _ Hr)) as Hl.
  destruct (two_move _ _ _ _ _ _ (two_lists_sym _ _ _ _ _ Hl) Hu) as (h2 & E2 & Hs2 & Hl2 & Hfr2).
  unfold Unref. rewrite Ehd. cbn [mbind option_bind]. rewrite Hrefs, Hinc.
  change (0 <? Z.of_nat 1 + 1) with true. cbn iota zeta.
  rewrite (modify_some _ _ _ _ Ehd). cbn [mbind option_bind].
  change (u32 (Z.of_nat 1 + 1 - 1)) with 1. cbn [Z.eqb Pos.eqb andb].
  assert (∀ x, x ≠ e → x ∈ (a_lru a ++ [e]) ++ without e (a_use a) ↔ x ∈ cached a) as Hp.
  { intros x Hx. unfold cached.
    rewrite !elem_of_app, list_elem_of_singleton, elem_of_without. tauto. }
  assert (e ∈ (a_lru a ++ [e]) ++ without e (a_use a)) as HeC
    by (rewrite !elem_of_app, list_elem_of_singleton; auto).
  destruct (LRU_Remove _ e) as [hx|] eqn:ER; [|done]. cbn [mbind option_bind] in E2 |- *.
  rewrite E2. cbn [mbind option_bind]. eexists. split; [done|].
  eapply (RepG_update c _ _ _ _ _ _ _ hd (set_refs 1 hd)); try done.
  - by rewrite bool_decide_true.
  - by rewrite bool_decide_true.
  - by apply two_lists_sym.
  - intros x Hx. destruct (decide (x = e)) as [->|]; [done|]. apply Hp; [done|].
    by apply (r_sub _ _ _ Hr).
  - intros x Hx. simpl. rewrite Hfr2.
    + by destruct (nx_modify (handles c) e hd (set_refs 1 hd) x Ehd eq_refl eq_refl).
    + rewrite elem_of_app, !elem_of_cons. rewrite !elem_of_cons, Hp in Hx; [|by intros ->; auto].
      unfold cached in Hx. rewrite elem_of_app in Hx. tauto.
  - intros x. rewrite elem_of_app, list_elem_of_singleton. destruct (decide (x = e)); tauto.
  - simpl. rewrite (r_usage _ _ _ Hr). unfold a_usage. f_equal. apply total_perm. unfold cached.
    rewrite (without_perm e (a_use a)) at 1 by (destruct (cached_nodup _ _ _ Hr) as (Hnd & _);
      by apply NoDup_app in Hnd as (_ & _ & ?)). by rewrite <- app_assoc.
Qed.

(** A reference given back while clients hold others. *)
Lemma Unref_held c a E e i n hd :
  RepG c a E → a_live a !! e = Some (i, S n) → n ≠ 0%nat → handles c !! e = Some hd →
  ∃ c', Unref c e = Some c' ∧
    RepG c' {| a_cap := a_cap a; a_lru := a_lru a; a_use := a_use a;
               a_live := <[e := (i, n)]> (a_live a); a_deleted := a_deleted a |} E.
Proof.
  intros Hr He Hn Ehd.
  destruct (r_live _ _ _ Hr e i _ He) as (hd' & E' & Hdata & Hinc & Hrefs & Hb & _).
  rewrite Ehd in E'. injection E' as <-.
  assert (u32 (refs hd - 1) = Z.of_nat n + (if bool_decide (e ∈ cached a) then 1 else 0)) as Hu
    by (rewrite u32_small; destruct (bool_decide _); lia).
  unfold Unref. rewrite Ehd. cbn [mbind option_bind].
  rewrite (proj2 (Z.ltb_lt 0 (refs hd))) by (destruct (bool_decide _); lia). cbn zeta.
  rewrite (modify_some _ _ _ _ Ehd). cbn [mbind option_bind]. rewrite Hu.
  rewrite (proj2 (Z.eqb_neq _ 0)) by (destruct (bool_decide _); lia).
  assert (in_cache hd && (Z.of_nat n + (if bool_decide (e ∈ cached a) then 1 else 0) =? 1) = false)
    as ->.
  { rewrite Hinc. destruct (bool_decide _); [|done]. apply (proj2 (Z.eqb_neq _ _)). lia. }
  eexists. split; [done|].
  assert (e ∉ a_lru a) as HeL by (intros HL; apply (r_idle _ _ _ Hr) in HL as [? HL]; congruence).
  eapply (RepG_update c _ _ _ _ _ _ _ hd (set_refs _ hd)); try done.
  - simpl. destruct (bool_decide _); lia.
  - eapply lists_modify; [done..|apply (r_lists _ _ _ Hr)].
  - apply (r_sub _ _ _ Hr).
  - intros x _. eapply nx_modify; [exact Ehd|done..].
  - intros x. destruct (decide (x = e)) as [->|]; [|done]. split; [done|]. intros ->. done.
  - apply (r_usage _ _ _ Hr).
Qed.

Lemma RepG_unref c a E e i n :
  RepG c a E → a_live a !! e = Some (i, S n) →
  ∃ c', Unref c e = Some c' ∧ RepG c' (a_unref a e) E.
Proof.
  intros Hr He. destruct (r_live _ _ _ Hr e i _ He) as (hd & Ehd & _). unfold a_unref. rewrite He.
  destruct (decide (n = 0%nat)) as [->|Hn]; [|by eapply Unref_held].
  destruct (decide (e ∈ a_use a)) as [Hu|Hu]; [by eapply Unref_idle|].
  eapply Unref_free; try done. intros [Hc|Hc]%elem_of_app; [|done].
  apply (r_idle _ _ _ Hr) in Hc as [i' Hc]. congruence.
Qed.

Lemma lists_remove h L U e :
  lists_ok h L U → e ∈ L ++ U →
  ∃ h', LRU_Remove h e = Some h' ∧ same_but_links h h' ∧ lists_ok h' (without e L) (without e U) ∧
    nx h' e = nx h e ∧ ∀ x, x ∉ lru_ :: in_use_ :: L ++ U → nx h' x = nx h x.
Proof.
  intros Hl He. pose proof (tl_nodup _ _ _ _ _ Hl) as (_ & Hdis & _)%NoDup_app.
  apply elem_of_app in He as [He|He].
  - destruct (two_remove _ _ _ _ _ _ Hl He) as (h' & E & Hs & Hl' & Hn & Hfr).
    rewrite (without_notin e U).
    + exists h'. split_and!; try done. intros x Hx. by apply Hfr, not_in_lists.
    + intros HU. apply (Hdis e); apply elem_of_cons; by right.
  - destruct (two_remove _ _ _ _ _ _ (two_lists_sym _ _ _ _ _ Hl) He) as (h' & E & Hs & Hl' & Hn & Hfr).
    rewrite (without_notin e L).
    + exists h'. split_and!; try done; [by apply two_lists_sym|]. intros x Hx. apply Hfr.
      rewrite elem_of_app. apply not_in_lists in Hx. rewrite elem_of_app in Hx. tauto.
    + intros HL. apply (Hdis e); apply elem_of_cons; by right.
Qed.

Lemma without_app e l l' : without e (l ++ l') = without e l ++ without e l'.
Proof. apply filter_app. Qed.

Lemma u64_sub_idemp a b : u64 (u64 a - b) = u64 (a - b).
Proof. unfold u64. by rewrite Zminus_mod_idemp_l. Qed.

Lemma u64_add_idemp a b : u64 (u64 a + b) = u64 (a + b).
Proof. unfold u64. by rewrite Zplus_mod_idemp_l. Qed.

(** [FinishErase] before its [Unref]: the reference of the cache is now a
    client's. *)
Definition a_detach (a : astate) (e : positive) (i : info) (n : nat) : astate :=
  {| a_cap := a_cap a; a_lru := without e (a_lru a); a_use := without e (a_use a);
     a_live := <[e := (i, S n)]> (a_live a); a_deleted := a_deleted a |}.

Lemma RepG_detach c a E e i n hd :
  RepG c a E → a_live a !! e = Some (i, n) → e ∈ cached a → e ∉ E → handles c !! e = Some hd →
  ∃ h, (h ← LRU_Remove (handles c) e; modify h e (set_in_cache false)) = Some h ∧
    RepG {| capacity_ := capacity_ c; usage_ := u64 (usage_ c - charge hd); handles := h;
            table_ := table_ c; deleted := deleted c |} (a_detach a e i n) E.
Proof.
  intros Hr He Hc HE Ehd.
  destruct (r_live _ _ _ Hr e i _ He) as (hd' & E' & Hdata & Hinc & Hrefs & Hb & _).
  rewrite Ehd in E'. injection E' as <-. rewrite bool_decide_true in Hinc, Hrefs by done.
  destruct (cached_nodup _ _ _ Hr) as (Hnd & _ & _).
  destruct (lists_remove _ _ _ _ (r_lists _ _ _ Hr) Hc) as (h1 & E1 & Hs1 & Hl1 & Hn1 & Hfr1).
  destruct (same_links_lookup _ _ _ _ Hs1 Ehd) as (hd1 & Ehd1 & _ & _ & Hr1 & _).
  rewrite E1. cbn [mbind option_bind]. rewrite (modify_some _ _ _ _ Ehd1).
  eexists. split; [done|]. unfold a_detach.
  assert (e ∉ without e (a_lru a) ++ without e (a_use a)) as Hno
    by (rewrite elem_of_app, !elem_of_without; tauto).
  assert (∀ x, nx (<[e := set_in_cache false hd1]> h1) x = nx h1 x) as Hlk
    by (intros x; eapply nx_modify; [exact Ehd1|done..]).
  assert (Hsub : ∀ x, x ≠ e → x ∈ without e (a_lru a) ++ without e (a_use a) ↔ x ∈ cached a).
  { intros x Hx. rewrite <- without_app, elem_of_without. unfold cached. tauto. }
  eapply (RepG_update c _ _ _ _ _ _ _ hd (set_in_cache false hd)); try done.
  - by apply (same_but_links_touch _ _ _ _ _ (set_in_cache false)), unlink_fields.
  - by rewrite bool_decide_false.
  - rewrite bool_decide_false by done. simpl. lia.
  - by eapply lists_modify.
  - intros x Hx. apply Hsub; [by intros ->|]. by apply (r_sub _ _ _ Hr).
  - intros x Hx. simpl. rewrite Hlk. destruct (decide (x = e)) as [->|Hxe]; [done|].
    apply Hfr1. rewrite !elem_of_cons in Hx |- *. rewrite Hsub in Hx by done. done.
  - intros x. rewrite elem_of_without. destruct (decide (x = e)) as [->|]; [|tauto].
    split; [by intros [? _]|done].
  - simpl. rewrite (r_usage _ _ _ Hr). unfold a_usage. rewrite u64_sub_idemp. f_equal.
    rewrite (total_perm _ _ _ (without_perm _ _ Hnd Hc)), <- without_app. simpl.
    unfold charge_of at 1. rewrite He. simpl. rewrite <- Hdata. simpl. unfold cached. lia.
Qed.

Lemma RepG_drop c a E e :
  RepG c a E → e ∈ cached a → e ∉ E →
  ∃ c', FinishErase c (Some e) = Some (true, c') ∧ RepG c' (a_drop a e) E.
Proof.
  intros Hr Hc HE. destruct (cached_live _ _ _ _ Hr Hc) as (i & n & He).
  destruct (r_live _ _ _ Hr e i _ He) as (hd & Ehd & _ & Hinc & _).
  rewrite bool_decide_true in Hinc by done.
  destruct (RepG_detach _ _ _ _ _ _ _ Hr He Hc HE Ehd) as (h & E1 & Hr1).
  assert (a_live (a_detach a e i n) !! e = Some (i, S n)) as He1 by apply lookup_insert_eq.
  destruct (RepG_unref _ _ _ _ _ _ Hr1 He1) as (c' & E2 & Hr2).
  unfold FinishErase. rewrite Ehd. cbn [mbind option_bind]. rewrite Hinc.
  destruct (LRU_Remove (handles c) e) as [h0|]; [|done]. cbn [mbind option_bind] in E1 |- *.
  rewrite E1. cbn [mbind option_bind]. rewrite E2. cbn [mbind option_bind].
  exists c'. split; [done|].
  replace (a_drop a e) with (a_unref (a_detach a e i n) e); [done|].
  unfold a_unref. rewrite He1. unfold a_drop. rewrite He. unfold a_detach, a_free. simpl.
  destruct n as [|n]; simpl.
  - rewrite (decide_False (P:=e ∈ without e (a_use a))) by (rewrite elem_of_without; tauto).
    by rewrite delete_insert_eq.
  - by rewrite insert_insert_eq, insert_id.
Qed.

(** ** Lemmas: the operations *)

Lemma same_but_hash_links h h' x :
  same_but_hash h h' → nx h' x = nx h x ∧ pv h' x = pv h x.
Proof.
  intros Hs. specialize (Hs x). unfold nx, pv. destruct (h !! x), (h' !! x); try done.
  simpl in *. injection Hs as ?????????. auto.
Qed.

(** Changes to the table and its chains. *)
Lemma RepG_table c a E h' t' E' :
  RepG c a E → same_but_hash (handles c) h' → table_rep h' t' E' →
  (∀ x, x ∈ E' → x ∈ cached a) → Z.of_nat (size E') < 2 ^ 31 →
  RepG {| capacity_ := capacity_ c; usage_ := usage_ c; handles := h'; table_ := t';
          deleted := deleted c |} a E'.
Proof.
  intros Hr Hs Ht HE Hsz.
  assert (Hdom : ∀ x, is_Some (h' !! x) ↔ is_Some (handles c !! x)).
  { intros x. specialize (Hs x). destruct (handles c !! x), (h' !! x); try done; split; eauto. }
  split; simpl; try done; try apply Hr.
  - eapply lists_frame; [|intros x _; apply Hdom|apply Hr].
    intros x. by apply same_but_hash_links.
  - intros e i n He. destruct (r_live _ _ _ Hr e i n He) as (hd & Ehd & Hd & Hi & Hrf & Hb & Hn & Hh).
    destruct (same_but_hash_lookup _ _ _ _ Hs Ehd) as (hd' & Ehd' & Hst).
    exists hd'. split; [done|]. unfold strip, set_next_hash in Hst. injection Hst as Hst.
    unfold data in *. repeat match goal with H : _ hd' = _ hd |- _ => rewrite H; clear H end.
    split_and!; try done; apply Hh.
  - intros e. rewrite Hdom. apply Hr.
Qed.

Lemma is_match_iff c a E key hs e :
  RepG c a E → e ∈ cached a → is_match (a_live a) key hs e = true ↔ matches (handles c) key hs e.
Proof.
  intros Hr Hc. destruct (cached_live _ _ _ _ Hr Hc) as (i & n & He).
  destruct (r_live _ _ _ Hr e i n He) as (hd & Ehd & <- & _). unfold is_match, matches.
  rewrite He, Ehd, bool_decide_eq_true. simpl. split.
  - intros [? ?]. by exists hd.
  - intros (hd' & [= <-] & ?). done.
Qed.

Lemma rep_distinct c a E e1 e2 key hs :
  RepG c a E → e1 ∈ E → e2 ∈ E → matches (handles c) key hs e1 → matches (handles c) key hs e2 →
  e1 = e2.
Proof.
  intros Hr H1 H2. destruct (r_table _ _ _ Hr) as (bs & _ & Hd & _ & Hset).
  rewrite Hset, elem_of_list_to_set in H1, H2. by apply Hd.
Qed.

Lemma a_find_Some a key hs e :
  a_find a key hs = Some e → e ∈ cached a ∧ is_match (a_live a) key hs e = true.
Proof.
  unfold a_find. intros H. assert (e ∈ filter (λ e, is_match (a_live a) key hs e = true) (cached a)) as He.
  { destruct (filter _ _) as [|x l]; [done|]. injection H as ->. apply elem_of_cons. by left. }
  apply list_elem_of_filter in He. tauto.
Qed.

Lemma a_find_None a key hs e :
  a_find a key hs = None → e ∈ cached a → is_match (a_live a) key hs e = false.
Proof.
  unfold a_find. intros H He. apply not_true_is_false. intros Hm.
  assert (e ∈ filter (λ e, is_match (a_live a) key hs e = true) (cached a)) as Hf
    by by apply list_elem_of_filter.
  destruct (filter _ _); [by apply elem_of_nil in Hf|done].
Qed.

Lemma find_search_gen c a E a0 key hs r :
  RepG c a E → E = list_to_set (cached a0) →
  (∀ x, x ∈ cached a0 → is_match (a_live a) key hs x = is_match (a_live a0) key hs x) →
  search_result (handles c) E key hs r → a_find a0 key hs = r.
Proof.
  intros Hr HE Hm Hs.
  assert (HE' : ∀ x, x ∈ E ↔ x ∈ cached a0) by (intros x; by rewrite HE, elem_of_list_to_set).
  assert (Hmm : ∀ x, x ∈ E → is_match (a_live a0) key hs x = true ↔ matches (handles c) key hs x).
  { intros x Hx. rewrite <- Hm by by apply HE'. eapply is_match_iff; [exact Hr|].
    by apply (r_sub _ _ _ Hr). }
  destruct (a_find a0 key hs) as [e|] eqn:Ef.
  - apply a_find_Some in Ef as [He%HE' Hme]. apply (Hmm _ He) in Hme.
    destruct r as [e'|]; simpl in Hs.
    + destruct Hs as [He' Hm']. f_equal. by eapply rep_distinct.
    + by destruct (Hs e).
  - destruct r as [e'|]; [|done]. destruct Hs as [He' Hm'].
    apply (Hmm _ He') in Hm'. rewrite (a_find_None _ _ _ _ Ef) in Hm'; [done|by apply HE'].
Qed.

Lemma find_search c a key hs r :
  Rep c a → search_result (handles c) (list_to_set (cached a)) key hs r → a_find a key hs = r.
Proof. intros Hr. by eapply find_search_gen. Qed.

Lemma cached_drop a e : is_Some (a_live a !! e) → cached (a_drop a e) = without e (cached a).
Proof.
  intros [[i n] He]. unfold a_drop. rewrite He. unfold cached. rewrite without_app. by destruct n.
Qed.

Lemma drop_Rep c a e :
  RepG c (a_drop a e) (list_to_set (cached a) ∖ {[e]}) → is_Some (a_live a !! e) →
  Rep c (a_drop a e).
Proof.
  intros Hr He. unfold Rep. rewrite cached_drop by done.
  replace (list_to_set (without e (cached a)) : gset positive)
    with (list_to_set (cached a) ∖ {[e]} : gset positive); [done|].
  apply set_eq. intros x. rewrite elem_of_difference, elem_of_singleton, !elem_of_list_to_set,
    elem_of_without. tauto.
Qed.

Lemma Rep_size c a : Rep c a → size (list_to_set (cached a) : gset positive) = length (cached a).
Proof. intros Hr. apply size_list_to_set. by destruct (cached_nodup _ _ _ Hr). Qed.

Lemma size_difference_le (X : gset positive) e : (size (X ∖ {[e]}) <= size X)%nat.
Proof. apply subseteq_size. intros x. rewrite elem_of_difference. tauto. Qed.

Lemma Rep_erase_key c a key hs :
  Rep c a → ∃ c', erase_key c key hs = Some (bool_decide (is_Some (a_find a key hs)), c') ∧
                  Rep c' (a_erase a key hs).
Proof.
  intros Hr.
  destruct (Table_Remove_spec _ _ _ key hs (r_table _ _ _ Hr)) as (r & h' & t' & E & Hs & Ht & Hsb).
  { apply (r_size _ _ _ Hr). }
  unfold erase_key. rewrite E. cbn [mbind option_bind]. unfold a_erase.
  rewrite (find_search _ _ _ _ _ Hr Hs). destruct r as [e|].
  - destruct Hs as [He%elem_of_list_to_set Hm].
    assert (RepG {| capacity_ := capacity_ c; usage_ := usage_ c; handles := h'; table_ := t';
                    deleted := deleted c |} a (list_to_set (cached a) ∖ {[e]})) as Hr1.
    { eapply RepG_table; try done.
      - intros x. rewrite elem_of_difference, elem_of_list_to_set. tauto.
      - pose proof (r_size _ _ _ Hr). pose proof (size_difference_le (list_to_set (cached a)) e). lia. }
    destruct (RepG_drop _ _ _ e Hr1 He) as (c' & E' & Hr').
    { rewrite elem_of_difference, elem_of_singleton. tauto. }
    exists c'. split; [done|]. simpl. apply drop_Rep; [done|].
    by apply (cached_live _ _ _ _ Hr) in He as (? & ? & ->).
  - eexists. split; [done|]. simpl. eapply RepG_table; try done.
    + intros x. by rewrite elem_of_list_to_set.
    + apply (r_size _ _ _ Hr).
Qed.

(** The oldest idle entry is found in the table under its own key. *)
Lemma find_self c a e i n :
  Rep c a → e ∈ cached a → a_live a !! e = Some (i, n) → a_find a (i_key i) (i_hash i) = Some e.
Proof.
  intros Hr Hc He. assert (Hm : is_match (a_live a) (i_key i) (i_hash i) e = true).
  { unfold is_match. rewrite He. by apply bool_decide_eq_true. }
  destruct (a_find a (i_key i) (i_hash i)) as [e'|] eqn:E.
  - apply a_find_Some in E as [He' Hm']. f_equal. eapply (rep_distinct _ _ _ e' e (i_key i) (i_hash i));
      [exact Hr|by apply elem_of_list_to_set..| |]; by eapply is_match_iff.
  - by rewrite (a_find_None _ _ _ _ E Hc) in Hm.
Qed.

Lemma Rep_evict_oldest c a e l :
  Rep c a → a_lru a = e :: l → ∃ c', evict_oldest c e = Some c' ∧ Rep c' (a_drop a e).
Proof.
  intros Hr El. assert (e ∈ a_lru a) as HeL by (rewrite El; apply elem_of_cons; by left).
  assert (e ∈ cached a) as Hc by (apply elem_of_app; by left).
  apply (r_idle _ _ _ Hr) in HeL as [i He].
  destruct (r_live _ _ _ Hr e i 0%nat He) as (hd & Ehd & Hd & _ & Hrf & _ & Hn & _).
  rewrite bool_decide_true in Hrf by done. unfold evict_oldest, handle_key. rewrite Ehd.
  cbn [mbind option_bind]. rewrite Hrf, decide_False by done. cbn [Z.of_nat Z.add Z.eqb Pos.eqb].
  cbn [mbind option_bind]. pose proof (find_self _ _ _ _ _ Hr Hc He) as Hf.
  destruct (Rep_erase_key c a (key_data hd) (hash hd) Hr) as (c' & E & Hr').
  rewrite E. cbn [mbind option_bind]. subst i. simpl in Hf. unfold a_erase in Hr'.
  rewrite Hf in Hr' |- *. exists c'. split; [|done]. by rewrite bool_decide_true.
Qed.

Lemma a_lru_drop a e l :
  a_lru a = e :: l → e ∉ l → a_lru (a_drop a e) = l ∧ a_cap (a_drop a e) = a_cap a.
Proof.
  intros El Hl. unfold a_drop. rewrite El. unfold without. rewrite filter_cons, decide_False by (intros H; by apply H).
  fold (without e l). rewrite without_notin by done.
  by destruct (a_live a !! e) as [[? [|?]]|].
Qed.

Lemma lists_first h L U : lists_ok h L U → nx h lru_ = Some (head_or lru_ L).
Proof. intros [H _ _ _]. by apply dpath_first in H as [? _]. Qed.

Lemma Rep_evict_loop fuel all c a :
  Rep c a → (length (a_lru a) <= fuel)%nat →
  ∃ c', evict_loop fuel all c = Some c' ∧ Rep c' (a_evict (length (a_lru a)) all a).
Proof.
  revert c a. induction fuel as [|fuel IH]; intros c a Hr Hf; cbn [evict_loop];
    rewrite (lists_first _ _ _ (r_lists _ _ _ Hr)); cbn [mbind option_bind];
    rewrite (r_cap _ _ _ Hr), (r_usage _ _ _ Hr); destruct (a_lru a) as [|e l] eqn:El.
  - rewrite (bool_decide_false (_ ≠ _)) by (intros H; by apply H). rewrite andb_false_r. eauto.
  - simpl in Hf. lia.
  - rewrite (bool_decide_false (_ ≠ _)) by (intros H; by apply H). rewrite andb_false_r. eauto.
  - pose proof (tl_nodup _ _ _ _ _ (r_lists _ _ _ Hr)) as Hnd. rewrite El in Hnd.
    simpl in Hnd. apply NoDup_cons in Hnd as [Hlru Hnd]. apply NoDup_cons in Hnd as [He _].
    assert (e ≠ lru_) as Hne by (intros ->; apply Hlru, elem_of_cons; by left).
    change (head_or lru_ (e :: l)) with e. rewrite (bool_decide_true (e ≠ lru_)), andb_true_r by done.
    cbn [length a_evict]. rewrite El. destruct (all || (a_cap a <? a_usage a)); [|eauto].
    destruct (Rep_evict_oldest _ _ _ _ Hr El) as (c1 & E1 & Hr1). rewrite E1. cbn [mbind option_bind].
    destruct (a_lru_drop a e l El) as [El1 _]; [by intros H; apply He, elem_of_app; left|].
    destruct (IH c1 (a_drop a e) Hr1) as (c' & E' & Hr').
    + rewrite El1. simpl in Hf. lia.
    + exists c'. by rewrite El1 in Hr'.
Qed.

Lemma NoDup_length_size (m : heap) (l : list positive) :
  NoDup l → (∀ x, x ∈ l → is_Some (m !! x)) → (length l <= size m)%nat.
Proof.
  intros Hnd Hl. rewrite <- (size_dom m), <- (size_list_to_set (C:=gset positive)) by done.
  apply subseteq_size. intros x Hx%elem_of_list_to_set. apply elem_of_dom. by apply Hl.
Qed.

Lemma Rep_fuel c a E : RepG c a E → (length (a_lru a) <= evict_fuel c)%nat.
Proof.
  intros Hr. apply NoDup_length_size.
  - destruct (cached_nodup _ _ _ Hr) as (Hnd & _). by apply NoDup_app in Hnd as (? & _).
  - intros x Hx. apply (tl_alive _ _ _ _ _ (r_lists _ _ _ Hr)), elem_of_app. left.
    apply elem_of_cons. by right.
Qed.

Lemma Rep_Prune c a : Rep c a → ∃ c', LRU_Prune c = Some c' ∧ Rep c' (a_prune a).
Proof. intros Hr. apply Rep_evict_loop; [done|by eapply Rep_fuel]. Qed.

Lemma Rep_Erase c a key hs : Rep c a → ∃ c', LRU_Erase c key hs = Some c' ∧ Rep c' (a_erase a key hs).
Proof.
  intros Hr. destruct (Rep_erase_key c a key hs Hr) as (c' & E & Hr'). unfold LRU_Erase. rewrite E. eauto.
Qed.

Lemma cached_ref a e :
  NoDup (cached a) → (a_live a !! e ≠ None → (∃ i, a_live a !! e = Some (i, 0%nat)) ↔ e ∈ a_lru a) →
  cached (a_ref a e) ≡ₚ cached a.
Proof.
  intros Hnd Hi. unfold a_ref. destruct (a_live a !! e) as [[i n]|] eqn:He; [|done].
  unfold cached. simpl. destruct (decide (n = 0%nat)) as [->|]; [|done].
  assert (e ∈ a_lru a) as HeL by (apply Hi; eauto).
  rewrite app_assoc, (Permutation_app_comm _ [e]). simpl.
  rewrite app_comm_cons, <- (without_perm e (a_lru a)); [done| |done].
  by apply NoDup_app in Hnd as (? & _).
Qed.

Lemma Rep_perm c a l : RepG c a (list_to_set l) → cached a ≡ₚ l → Rep c a.
Proof.
  intros Hr Hp. unfold Rep. replace (list_to_set (cached a) : gset positive)
    with (list_to_set l : gset positive); [done|].
  apply set_eq. intros x. by rewrite !elem_of_list_to_set, Hp.
Qed.

Lemma Rep_Lookup c a key hs :
  Rep c a → (∀ e i n, a_live a !! e = Some (i, n) → Z.of_nat n + 2 < 2 ^ 32) →
  ∃ c', LRU_Lookup c key hs = Some (fst (a_lookup a key hs), c') ∧ Rep c' (snd (a_lookup a key hs)).
Proof.
  intros Hr Hb.
  destruct (Table_Lookup_spec _ _ _ key hs (r_table _ _ _ Hr)) as (r & E & Hs).
  unfold LRU_Lookup. rewrite E. cbn [mbind option_bind]. unfold a_lookup.
  rewrite (find_search _ _ _ _ _ Hr Hs). destruct r as [e|]; [|eauto].
  destruct Hs as [He%elem_of_list_to_set _].
  destruct (cached_live _ _ _ _ Hr He) as (i & n & Hl).
  destruct (RepG_ref _ _ _ _ _ _ Hr Hl (Hb _ _ _ Hl)) as (h & E1 & Hr1).
  rewrite E1. eexists. split; [done|]. simpl. eapply Rep_perm; [exact Hr1|]. apply cached_ref.
  - by destruct (cached_nodup _ _ _ Hr).
  - intros _. symmetry. apply (r_idle _ _ _ Hr).
Qed.

Lemma cached_unref c a E e : RepG c a E → cached (a_unref a e) ≡ₚ cached a.
Proof.
  intros Hr. destruct (cached_nodup _ _ _ Hr) as (Hnd & _). unfold a_unref.
  destruct (a_live a !! e) as [[i [|n]]|]; [done| |done].
  destruct (decide (n = 0%nat)); [|done]. destruct (decide (e ∈ a_use a)) as [Hu|]; [|done].
  unfold cached. simpl. rewrite <- app_assoc. simpl. rewrite <- (without_perm e (a_use a)); [done| |done].
  by apply NoDup_app in Hnd as (_ & _ & ?).
Qed.

Lemma Rep_Release c a e i n :
  Rep c a → a_live a !! e = Some (i, S n) →
  ∃ c', LRU_Release c e = Some c' ∧ Rep c' (a_unref a e).
Proof.
  intros Hr He. destruct (RepG_unref _ _ _ _ _ _ Hr He) as (c' & E & Hr').
  exists c'. split; [done|]. eapply Rep_perm; [exact Hr'|]. by eapply cached_unref.
Qed.

Lemma Rep_new cap :
  ∃ c, LRUCache_new cap = Some c ∧ Rep c (a_new cap).
Proof.
  unfold LRUCache_new. set (h0 := <[lru_ := head_handle lru_]> (<[in_use_ := head_handle in_use_]> ∅) : heap).
  destruct (HandleTable_new_spec h0) as (h & t & E & Ht & Hs). rewrite E. cbn [mbind option_bind].
  eexists. split; [done|].
  assert (Hdom : ∀ x, is_Some (h !! x) ↔ is_Some (h0 !! x)).
  { intros x. specialize (Hs x). destruct (h !! x), (h0 !! x); try done; split; eauto. }
  split; simpl; try done.
  - eapply (lists_frame h0); [intros x; by apply same_but_hash_links|intros x _; apply Hdom|].
    split; try (split; vm_compute; reflexivity).
    + simpl. repeat constructor; rewrite ?elem_of_cons, ?elem_of_nil; intros H; by destruct_or?.
    + simpl. intros x [->|[->|[]%elem_of_nil]%elem_of_cons]%elem_of_cons; eexists; vm_compute; reflexivity.
  - intros x. rewrite Hdom. unfold h0. rewrite !lookup_insert_is_Some, lookup_empty.
    split; [|intros [->|[->|[? ?]]]]; [|tauto| |done].
    + intros [?|[_ [?|[_ [? ?]]]]]; subst; try done; auto.
    + right. split; [done|]. by left.
  - intros x. split; [by intros ?%elem_of_nil|by intros [? ?]].
  - by intros x ?%elem_of_nil.
Qed.

(** A new entry, held by its client only. *)
Lemma RepG_alloc c a E e hd :
  RepG c a E → handles c !! e = None → next hd = None → in_cache hd = false → refs hd = 1 →
  0 <= hash hd < 2 ^ 32 →
  RepG (with_handles c (<[e := hd]> (handles c)))
    {| a_cap := a_cap a; a_lru := a_lru a; a_use := a_use a;
       a_live := <[e := (data hd, 1%nat)]> (a_live a); a_deleted := a_deleted a |} E.
Proof.
  intros Hr He Hn Hi Hrf Hh. pose proof (r_dom _ _ _ Hr e) as Hdom. rewrite He in Hdom.
  assert (e ≠ lru_ ∧ e ≠ in_use_ ∧ a_live a !! e = None) as (Hne1 & Hne2 & Hl).
  { assert (¬ (e = lru_ ∨ e = in_use_ ∨ is_Some (a_live a !! e))) as Hno
      by (rewrite <- Hdom; by intros [? ?]).
    split_and!; [tauto|tauto|]. destruct (a_live a !! e); [|done]. destruct Hno. eauto. }
  assert (Hc : e ∉ cached a) by (intros Hc; apply (cached_live _ _ _ _ Hr) in Hc as (? & ? & ?); congruence).
  assert (Hk : ∀ x, x ≠ e → <[e := hd]> (handles c) !! x = handles c !! x)
    by (intros x Hx; by apply lookup_insert_ne).
  assert (Hin : ∀ x, x ∈ (lru_ :: a_lru a) ++ in_use_ :: a_use a → x ≠ e).
  { intros x Hx ->. unfold cached in Hc. rewrite elem_of_app in Hc.
    rewrite elem_of_app, !elem_of_cons in Hx. destruct Hx as [[?|?]|[?|?]]; tauto. }
  split; simpl.
  - apply (r_cap _ _ _ Hr).
  - destruct (r_lists _ _ _ Hr) as [H1 H2 H3 H4].
    split; [| |done|by intros x Hx; rewrite Hk; [apply H4|apply Hin]];
      (eapply dlist_frame; [|done]); intros x Hx; unfold nx, pv; rewrite Hk; try done;
      apply Hin, elem_of_app; auto.
  - eapply table_rep_frame; [apply (r_table _ _ _ Hr)|]. intros x hx Hx Ex.
    apply (r_sub _ _ _ Hr) in Hx. exists hx. rewrite Hk by (by intros ->). split_and!; try done.
    rewrite <- (nx_next _ _ _ Ex). eapply rep_next_ne; [done|].
    by apply (cached_live _ _ _ _ Hr) in Hx as (? & ? & ->).
  - apply (r_size _ _ _ Hr).
  - apply (r_sub _ _ _ Hr).
  - intros x ix m. unfold cached. simpl. fold (cached a). destruct (decide (x = e)) as [->|Hxe].
    + rewrite lookup_insert_eq. intros [= <- <-]. exists hd. rewrite lookup_insert_eq.
      rewrite bool_decide_false by done. split_and!; try done; try (by rewrite Hn); try lia; apply Hh.
    + rewrite lookup_insert_ne by done. intros Hx.
      destruct (r_live _ _ _ Hr x ix m Hx) as (hx & Ex & Hrest). exists hx. by rewrite Hk.
  - intros x. rewrite !lookup_insert_is_Some, (r_dom _ _ _ Hr x).
    destruct (decide (e = x)) as [<-|]; tauto.
  - destruct (r_heads _ _ _ Hr). by rewrite !lookup_insert_ne.
  - intros x. destruct (decide (x = e)) as [->|Hxe].
    + rewrite lookup_insert_eq. split; [|by intros [? [=]]]. intros Hx. destruct Hc.
      apply elem_of_app. by left.
    + rewrite lookup_insert_ne by done. apply (r_idle _ _ _ Hr).
  - intros x Hx. rewrite lookup_insert_ne; [by apply (r_used _ _ _ Hr)|].
    intros <-. apply Hc, elem_of_app. by right.
  - rewrite (r_usage _ _ _ Hr). unfold a_usage. unfold cached. simpl. fold (cached a).
    f_equal. symmetry. apply total_ext. intros x Hx. unfold charge_of.
    rewrite lookup_insert_ne; [done|]. by intros <-.
  - apply (r_deleted _ _ _ Hr).
Qed.

(** The cache takes a reference to a new entry. *)
Lemma RepG_attach c a E e i hd :
  RepG c a E → a_live a !! e = Some (i, 1%nat) → e ∉ cached a → handles c !! e = Some hd →
  ∃ h, (h ← modify (handles c) e (λ hd, set_in_cache true (set_refs (u32 (refs hd + 1)) hd));
        LRU_Append h in_use_ e) = Some h ∧
    RepG {| capacity_ := capacity_ c; usage_ := u64 (usage_ c + charge hd); handles := h;
            table_ := table_ c; deleted := deleted c |}
      {| a_cap := a_cap a; a_lru := a_lru a; a_use := a_use a ++ [e];
         a_live := <[e := (i, 1%nat)]> (a_live a); a_deleted := a_deleted a |} E.
Proof.
  intros Hr He Hc Ehd. destruct (r_live _ _ _ Hr e i _ He) as (hd' & E' & Hdata & Hinc & Hrf & _).
  rewrite Ehd in E'. injection E' as <-. rewrite bool_decide_false in Hinc, Hrf by done.
  rewrite (modify_some _ _ _ _ Ehd). cbn [mbind option_bind]. rewrite Hrf.
  change (u32 (Z.of_nat 1 + 0 + 1)) with 2.
  pose proof (lists_modify _ _ _ _ _ (set_in_cache true (set_refs 2 hd)) Ehd eq_refl eq_refl (r_lists _ _ _ Hr)) as Hl.
  pose proof (not_cached_head _ _ _ _ _ Hr He Hc) as Hne.
  destruct (two_append _ in_use_ _ lru_ _ e (two_lists_sym _ _ _ _ _ Hl)) as (h & E1 & Hs & Hl1 & Hfr).
  { rewrite elem_of_app in Hne |- *. tauto. }
  { by rewrite lookup_insert_eq. }
  rewrite E1. eexists. split; [done|].
  assert (Hsub : ∀ x, x ≠ e → x ∈ a_lru a ++ a_use a ++ [e] ↔ x ∈ cached a).
  { intros x Hx. unfold cached. rewrite !elem_of_app, list_elem_of_singleton. tauto. }
  assert (e ∈ a_lru a ++ a_use a ++ [e]) as Hin
    by (rewrite !elem_of_app, list_elem_of_singleton; auto).
  eapply (RepG_update c _ _ _ _ _ _ _ hd (set_in_cache true (set_refs 2 hd))); try done.
  - by rewrite bool_decide_true.
  - by rewrite bool_decide_true.
  - by apply two_lists_sym.
  - intros x Hx. destruct (decide (x = e)) as [->|]; [done|]. apply Hsub; [done|].
    by apply (r_sub _ _ _ Hr).
  - intros x Hx. simpl. rewrite !elem_of_cons in Hx. assert (x ≠ e) as Hxe by (intros ->; auto).
    rewrite Hsub in Hx by done. rewrite Hfr; [eapply nx_modify; [exact Ehd|done..]|done|].
    unfold cached in Hx. rewrite !elem_of_app in *. rewrite !elem_of_cons. tauto.
  - intros x. destruct (decide (x = e)) as [->|]; [|done]. split; [|done]. intros Hx.
    destruct Hc. apply elem_of_app. by left.
  - simpl. rewrite (r_usage _ _ _ Hr). unfold a_usage. rewrite u64_add_idemp. f_equal.
    rewrite app_assoc, total_app. fold (cached a). simpl.
    replace (charge_of (a_live a) e) with (charge hd); [lia|].
    unfold charge_of. rewrite He, <- Hdata. done.
Qed.

Lemma a_live_fresh c a E : RepG c a E → a_live a !! fresh (dom (handles c)) = None.
Proof.
  intros Hr. pose proof (is_fresh (dom (handles c))) as Hf. rewrite elem_of_dom, (r_dom _ _ _ Hr) in Hf.
  destruct (a_live a !! _) eqn:E'; [|done]. destruct Hf. right. right. eauto.
Qed.

(** [Insert] up to its eviction loop, when the cache is on. *)
Lemma insert_entries_cached (l : list positive) e old : e ∉ l → old ≠ Some e →
  insert_entries (list_to_set l) e old
  = match old with
    | Some o => list_to_set (l ++ [e]) ∖ {[o]}
    | None => list_to_set (l ++ [e])
    end.
Proof.
  intros He Ho. apply set_eq. intros x. rewrite elem_of_insert_entries.
  destruct old as [o|]; rewrite ?elem_of_difference, ?elem_of_singleton, !elem_of_list_to_set,
    elem_of_app, list_elem_of_singleton.
  - split; [intros [->|[? Hne]]|intros [[?| ->] Hne]]; [..|by left].
    + split; [by right|congruence].
    + split; [by left|congruence].
    + right. split; [done|congruence].
  - split; [intros [?|[? _]]|intros [?|?]]; [by right|by left|by right|by left].
Qed.

Lemma Rep_add c a e hd :
  Rep c a → handles c !! e = None → a_live a !! e = None → 0 < a_cap a →
  Z.of_nat (length (cached a)) + 1 < 2 ^ 31 → next hd = None → in_cache hd = false → refs hd = 1 →
  0 <= hash hd < 2 ^ 32 →
  ∃ h old h' t' b c',
    (h ← modify (<[e := hd]> (handles c)) e (λ hd, set_in_cache true (set_refs (u32 (refs hd + 1)) hd));
     LRU_Append h in_use_ e) = Some h ∧
    Table_Insert h (table_ c) e = Some (old, h', t') ∧
    FinishErase {| capacity_ := capacity_ c; usage_ := u64 (usage_ c + charge hd); handles := h';
                   table_ := t'; deleted := deleted c |} old = Some (b, c') ∧
    Rep c' (a_drop_opt (a_add a e (data hd)) (a_find a (key_data hd) (hash hd))).
Proof.
  intros Hr He Hl Hcap Hsz Hn Hi Hrf Hh.
  assert (Hc : e ∉ cached a) by (intros Hc; apply (cached_live _ _ _ _ Hr) in Hc as (? & ? & ?); congruence).
  pose proof (RepG_alloc _ _ _ _ _ Hr He Hn Hi Hrf Hh) as Hr1.
  destruct (RepG_attach _ _ _ e (data hd) hd Hr1) as (h & E1 & Hr2);
    [apply lookup_insert_eq|done|apply lookup_insert_eq|].
  set (c2 := {| capacity_ := _; handles := h |}) in Hr2. simpl in Hr2.
  rewrite insert_insert_eq in Hr2.
  assert (a_add a e (data hd) = {| a_cap := a_cap a; a_lru := a_lru a; a_use := a_use a ++ [e];
    a_live := <[e := (data hd, 1%nat)]> (a_live a); a_deleted := a_deleted a |}) as Ea
    by (unfold a_add; by rewrite (proj2 (Z.ltb_lt _ _) Hcap)).
  rewrite <- Ea in Hr2. set (a2 := a_add a e (data hd)) in *.
  assert (Ec2 : cached a2 = cached a ++ [e]) by (rewrite Ea; unfold cached; simpl; by rewrite app_assoc).
  assert (Hl2 : a_live a2 !! e = Some (data hd, 1%nat)) by (rewrite Ea; apply lookup_insert_eq).
  destruct (r_live _ _ _ Hr2 _ _ _ Hl2) as (hd2 & Ehd2 & Hd2 & _ & _ & _ & Hn2 & Hh2).
  assert (He2 : e ∉ (list_to_set (cached a) : gset positive)) by by rewrite elem_of_list_to_set.
  destruct (Table_Insert_spec h (table_ c) (list_to_set (cached a)) e hd2) as (old & h' & t' & E2 & Hs & Ht & Hsb);
    [apply (r_table _ _ _ Hr2)|apply (r_size _ _ _ Hr)|done|by exists hd2|done|].
  injection Hd2 as Dk Dh _ _ _. rewrite Dk, Dh in Hs.
  assert (Ef : a_find a (key_data hd) (hash hd) = old).
  { eapply find_search_gen; [exact Hr2|done| |done]. intros x Hx. unfold is_match.
    rewrite Ea. simpl. by rewrite lookup_insert_ne by by intros ->. }
  rewrite Ef. assert (Hin : ∀ x, x ∈ insert_entries (list_to_set (cached a)) e old ↔
                        x = e ∨ x ∈ cached a ∧ old ≠ Some x).
  { intros x. by rewrite elem_of_insert_entries, elem_of_list_to_set. }
  assert (Hr3 : RepG {| capacity_ := capacity_ c; usage_ := u64 (usage_ c + charge hd);
                        handles := h'; table_ := t'; deleted := deleted c |} a2
                  (insert_entries (list_to_set (cached a)) e old)).
  { apply (RepG_table _ _ _ h' t' _ Hr2); [done|done| |].
    - intros x Hx%Hin. rewrite Ec2, elem_of_app, list_elem_of_singleton. tauto.
    - pose proof (Rep_size _ _ Hr). apply Z.le_lt_trans with (Z.of_nat (length (cached a)) + 1); [|done].
      transitivity (Z.of_nat (length (cached a2))); [|rewrite Ec2, length_app; simpl; lia].
      rewrite <- (size_list_to_set (C:=gset positive) (cached a2))
        by by destruct (cached_nodup _ _ _ Hr2). apply inj_le, subseteq_size.
      intros x Hx%Hin. rewrite elem_of_list_to_set, Ec2, elem_of_app, list_elem_of_singleton. tauto. }
  exists h, old, h', t'. destruct old as [o|]; simpl a_drop_opt.
  - destruct Hs as [Ho%elem_of_list_to_set _].
    assert (o ∈ cached a2) as Ho2 by (rewrite Ec2; apply elem_of_app; by left).
    destruct (RepG_drop _ _ _ o Hr3 Ho2) as (c' & E3 & Hr4).
    { rewrite Hin. intros [->|[_ ?]]; done. }
    exists true, c'. do 3 (split; [done|]). apply drop_Rep.
    + rewrite Ec2. erewrite <- (insert_entries_cached _ e (Some o)); [done|done|congruence].
    + by apply (cached_live _ _ _ _ Hr2) in Ho2 as (? & ? & ->).
  - eexists false, _. do 3 (split; [done|]). eapply Rep_perm; [|done].
    rewrite Ec2. by erewrite <- (insert_entries_cached _ e None).
Qed.

Lemma Rep_Insert c a key hs v ch d :
  Rep c a → Z.of_nat (length (cached a)) + 1 < 2 ^ 31 → 0 <= hs < 2 ^ 32 →
  let i := {| i_key := key; i_hash := hs; i_value := v; i_charge := ch; i_deleter := d |} in
  ∃ e c', LRU_Insert c key hs v ch d = Some (e, c') ∧ a_live a !! e = None ∧ Rep c' (a_insert a e i) ∧
    ∃ c1, Rep c1 (a_fill a e i).
Proof.
  intros Hr Hsz Hh i. pose proof (a_live_fresh _ _ _ Hr) as Hl. unfold LRU_Insert.
  set (e := fresh (dom (handles c))) in *. cbn zeta.
  assert (He : handles c !! e = None) by (apply not_elem_of_dom, is_fresh).
  set (hd := {| value := v; deleter := d; next_hash := None; next := None; prev := None;
                charge := ch; in_cache := false; refs := 1; hash := hs; key_data := key |}).
  assert (∃ c1, Rep c1 (a_fill a e i) ∧
    (if 0 <? capacity_ (with_handles c (<[e := hd]> (handles c))) then
       h ← modify (handles (with_handles c (<[e := hd]> (handles c)))) e
             (λ hd, set_in_cache true (set_refs (u32 (refs hd + 1)) hd));
       h ← LRU_Append h in_use_ e;
       '(old, h, t) ← Table_Insert h (table_ (with_handles c (<[e := hd]> (handles c)))) e;
       snd <$> FinishErase
         {| capacity_ := capacity_ (with_handles c (<[e := hd]> (handles c)));
            usage_ := u64 (usage_ (with_handles c (<[e := hd]> (handles c))) + ch); handles := h;
            table_ := t; deleted := deleted (with_handles c (<[e := hd]> (handles c))) |} old
     else
       h ← modify (handles (with_handles c (<[e := hd]> (handles c)))) e (set_next None);
       Some (with_handles (with_handles c (<[e := hd]> (handles c))) h)) = Some c1)
    as (c1 & Hr1 & E1).
  { simpl. rewrite (r_cap _ _ _ Hr). unfold a_fill.
    destruct (Z.ltb_spec 0 (a_cap a)) as [Hcap|Hcap].
    - destruct (Rep_add c a e hd Hr He Hl Hcap Hsz eq_refl eq_refl eq_refl Hh)
        as (h & old & h' & t' & b & c1 & E1 & E2 & E3 & Hr1).
      exists c1. split; [exact Hr1|].
      destruct (modify _ e _) as [h0|]; [|done]. cbn [mbind option_bind] in E1 |- *.
      rewrite E1. cbn [mbind option_bind]. rewrite E2. cbn [mbind option_bind].
      rewrite (r_cap _ _ _ Hr) in E3. change (charge hd) with ch in E3. by rewrite E3.
    - eexists. split.
      + pose proof (RepG_alloc _ _ _ _ _ Hr He (eq_refl : next hd = None) eq_refl eq_refl Hh) as Hr1.
        simpl. unfold a_add. rewrite (proj2 (Z.ltb_ge _ _) Hcap). exact Hr1.
      + rewrite (modify_some _ _ hd) by apply lookup_insert_eq. cbn [mbind option_bind].
        by rewrite insert_insert_eq. }
  rewrite E1. cbn [mbind option_bind].
  destruct (Rep_evict_loop (evict_fuel c1) false c1 _ Hr1) as (c' & E2 & Hr2); [by eapply Rep_fuel|].
  rewrite E2. cbn [mbind option_bind]. exists e, c'. eauto.
Qed.

(** The deleter calls for a list of entries. *)
Definition deletions (live : gmap positive (info * nat)) (l : list positive) : list (Z * bytes * Z) :=
  omap (λ e, (λ p, (i_deleter (fst p), i_key (fst p), i_value (fst p))) <$> live !! e) l.

(** From [e] through [l] to [lru_] along [next]. *)
Fixpoint forward (h : heap) (e : positive) (l : list positive) : Prop :=
  match l with
  | [] => e = lru_
  | x :: l => e = x ∧ ∃ n, nx h x = Some n ∧ forward h n l
  end.

Lemma dpath_forward h x l :
  dpath h x l lru_ → ∃ e, nx h x = Some e ∧ forward h e l.
Proof.
  revert x. induction l as [|y l IH]; intros x; simpl.
  - intros [-> _]. by exists lru_.
  - intros [[-> _] Hd]. exists y. split; [done|]. split; [done|]. by apply IH.
Qed.

Lemma forward_delete h e l x : x ∉ l → forward h e l → forward (delete x h) e l.
Proof.
  revert e. induction l as [|y l IH]; intros e Hx; simpl; [done|].
  apply not_elem_of_cons in Hx as [Hxy Hx]. intros (-> & n & Hn & Hf). split; [done|].
  exists n. split; [|by apply IH]. unfold nx in *. by rewrite lookup_delete_ne.
Qed.

(** The destructor's loop frees every entry of the list. *)
Lemma destroy_loop_spec live l fuel c e :
  forward (handles c) e l → NoDup l → lru_ ∉ l → (length l <= fuel)%nat →
  (∀ x, x ∈ l → ∃ i, live !! x = Some (i, 0%nat) ∧ entry_rep (handles c) x true i 0) →
  ∃ c', destroy_loop fuel c e = Some c' ∧ deleted c' = deleted c ++ deletions live l.
Proof.
  revert fuel c e. induction l as [|x l IH]; intros fuel c e Hf Hnd Hl Hfuel He; simpl in Hf.
  - subst e. exists c. rewrite app_nil_r. destruct fuel; done.
  - destruct Hf as (-> & n & Hn & Hf). apply NoDup_cons in Hnd as [Hx Hnd].
    apply not_elem_of_cons in Hl as [Hlx Hl].
    destruct (He x) as (i & Hlive & hd & Ehd & Hd & Hi & Hrf & _ & Hnn & _);
      [apply elem_of_cons; by left|].
    destruct fuel as [|fuel]; [simpl in Hfuel; lia|]. cbn [destroy_loop].
    rewrite decide_False by congruence. rewrite Ehd. cbn [mbind option_bind].
    rewrite (nx_next _ _ _ Ehd) in Hn. rewrite Hn, Hi, Hrf. cbn [mbind option_bind Z.of_nat Z.add Z.eqb Pos.eqb andb].
    rewrite (modify_some _ _ _ _ Ehd). cbn [mbind option_bind].
    unfold Unref. simpl handles. rewrite lookup_insert_eq. cbn [mbind option_bind].
    change (refs (set_in_cache false hd)) with (refs hd). rewrite Hrf.
    cbn [Z.of_nat Z.add Z.ltb Z.compare]. cbn zeta iota.
    rewrite (modify_some _ _ (set_in_cache false hd)) by apply lookup_insert_eq.
    cbn [mbind option_bind]. change (u32 (1 - 1) =? 0) with true. cbn iota.
    change (in_cache (set_in_cache false hd)) with false. cbn iota.
    unfold handle_key. rewrite lookup_insert_eq. cbn [mbind option_bind].
    rewrite decide_False by done. cbn [mbind option_bind].
    rewrite insert_insert_eq, delete_insert_eq. simpl.
    edestruct (IH fuel) as (c' & E & Hdel); [| | | | |rewrite E; exists c'; split; [done|]]; simpl.
    + by apply forward_delete.
    + done.
    + done.
    + simpl in Hfuel. lia.
    + intros y Hy. destruct (He y) as (iy & Hly & hy & Ehy & Hrest); [apply elem_of_cons; by right|].
      exists iy. split; [done|]. exists hy. by rewrite lookup_delete_ne by by intros ->.
    + rewrite Hdel. simpl. rewrite Hlive, <- app_assoc. simpl. by rewrite <- Hd.
Qed.

Lemma Rep_destroy c a :
  Rep c a →
  match a_use a with
  | [] => ∃ c', LRUCache_destroy c = Some c' ∧ deleted c' = a_deleted a ++ deletions (a_live a) (a_lru a)
  | _ :: _ => LRUCache_destroy c = None
  end.
Proof.
  intros Hr. unfold LRUCache_destroy. destruct (r_lists _ _ _ Hr) as [H1 H2 Hnd Hal].
  destruct (dpath_first _ _ _ _ H2) as [Hn _]. rewrite Hn. cbn [mbind option_bind].
  destruct (a_use a) as [|x U] eqn:EU.
  - rewrite decide_True by done. destruct (dpath_forward _ _ _ H1) as (e & He & Hf).
    rewrite He. cbn [mbind option_bind].
    destruct (destroy_loop_spec (a_live a) (a_lru a) (S (size (handles c))) c e) as (c' & E & Hd); try done.
    + by destruct (cached_nodup _ _ _ Hr) as ((? & _)%NoDup_app & _).
    + destruct (cached_nodup _ _ _ Hr) as (_ & Hl & _). intros HL. apply Hl, elem_of_app. by left.
    + pose proof (Rep_fuel _ _ _ Hr). unfold evict_fuel in *. lia.
    + intros y Hy. assert (y ∈ cached a) as Hyc by (apply elem_of_app; by left).
      apply (r_idle _ _ _ Hr) in Hy as [i Hi]. exists i. split; [done|].
      pose proof (r_live _ _ _ Hr y i _ Hi) as Hrep. by rewrite bool_decide_true in Hrep.
    + exists c'. rewrite E, Hd, (r_deleted _ _ _ Hr). done.
  - rewrite decide_False; [done|]. change (head_or in_use_ (x :: U)) with x.
    destruct (cached_nodup _ _ _ Hr) as (_ & _ & Hu). intros ->. apply Hu. unfold cached. rewrite EU.
    apply elem_of_app. right. apply elem_of_cons. by left.
Qed.

(** ** Lemmas: the abstract cache *)

Lemma deletions_ext live live' l :
  (∀ x, x ∈ l → live' !! x = live !! x) → deletions live' l = deletions live l.
Proof.
  unfold deletions. induction l as [|x l IH]; intros H; [done|]. simpl.
  rewrite H by (apply elem_of_cons; by left).
  specialize (IH (λ y Hy, H y (proj2 (elem_of_cons _ _ _) (or_intror Hy)))).
  destruct (live !! x); simpl; [f_equal|]; exact IH.
Qed.

Lemma deletions_delete live e l : e ∉ l → deletions (delete e live) l = deletions live l.
Proof. intros He. apply deletions_ext. intros x Hx. apply lookup_delete_ne. by intros ->. Qed.

Lemma total_delete live e l : e ∉ l → total (delete e live) l = total live l.
Proof.
  intros He. apply total_ext. intros x Hx. unfold charge_of. rewrite lookup_delete_ne; [done|].
  by intros ->.
Qed.

Lemma a_drop_idle a e l i :
  NoDup (cached a) → a_lru a = e :: l → a_live a !! e = Some (i, 0%nat) →
  a_drop a e = {| a_cap := a_cap a; a_lru := l; a_use := a_use a; a_live := delete e (a_live a);
                  a_deleted := a_deleted a ++ [(i_deleter i, i_key i, i_value i)] |}.
Proof.
  intros Hnd El Hl. unfold cached in Hnd. rewrite El in Hnd. simpl in Hnd.
  apply NoDup_cons in Hnd as [He _]. rewrite elem_of_app in He. unfold a_drop, a_free. rewrite Hl, El.
  simpl. f_equal; [|apply without_notin; tauto]. unfold without.
  rewrite filter_cons, decide_False by (intros H; by apply H). apply without_notin. tauto.
Qed.

(** What eviction does: entries go from the front of the idle list, while the
    cache is over its capacity. *)
Record evicts (all : bool) (a a' : astate) (l1 : list positive) : Prop := {
  ev_lru : a_lru a = l1 ++ a_lru a';
  ev_use : a_use a' = a_use a;
  ev_cap : a_cap a' = a_cap a;
  ev_live x : a_live a' !! x = if decide (x ∈ l1) then None else a_live a !! x;
  ev_deleted : a_deleted a' = a_deleted a ++ deletions (a_live a) l1;
  ev_enough : a_lru a' = [] ∨ (all = false ∧ a_usage a' <= a_cap a');
  ev_needed l x l' : l1 = l ++ x :: l' → all = true ∨
    a_cap a < u64 (total (a_live a) ((x :: l') ++ a_lru a' ++ a_use a)) }.

Lemma a_evict_spec fuel all c a :
  Rep c a → (length (a_lru a) <= fuel)%nat → ∃ l1, evicts all a (a_evict fuel all a) l1.
Proof.
  assert (Hnil : ∀ a, a_lru a = [] ∨ (all = false ∧ a_usage a <= a_cap a) → evicts all a a []).
  { intros a' H. split; try done.
    - by rewrite app_nil_r.
    - by intros [|? ?]. }
  revert c a. induction fuel as [|fuel IH]; intros c a Hr Hf; simpl.
  - exists []. apply Hnil. left. destruct (a_lru a); [done|simpl in Hf; lia].
  - destruct (a_lru a) as [|e l] eqn:El; [exists []; apply Hnil; by left|].
    destruct (all || (a_cap a <? a_usage a)) eqn:Ec.
    + destruct (Rep_evict_oldest _ _ _ _ Hr El) as (c1 & _ & Hr1).
      destruct (cached_nodup _ _ _ Hr) as (Hnd & _).
      assert (e ∈ a_lru a) as [i Hi]%(r_idle _ _ _ Hr) by (rewrite El; apply elem_of_cons; by left).
      rewrite (a_drop_idle _ _ _ _ Hnd El Hi) in *.
      destruct (IH _ _ Hr1) as [l1 [V1 V2 V3 V4 V5 V6 V7]]; [simpl in *; lia|]. simpl in *.
      set (a' := a_evict _ _ _) in *. unfold cached in Hnd. rewrite El, V1 in Hnd. simpl in Hnd.
      apply NoDup_cons in Hnd as [He _]. rewrite <- app_assoc, elem_of_app in He.
      exists (e :: l1). split; try done.
      * rewrite El. simpl. by f_equal.
      * intros x. rewrite V4. destruct (decide (x = e)) as [->|Hx].
        -- rewrite lookup_delete_eq, (decide_True (P:=e ∈ e :: l1)) by (apply elem_of_cons; by left).
           by destruct (decide _).
        -- rewrite lookup_delete_ne by done. destruct (decide (x ∈ l1)) as [H1|H1].
           ++ rewrite decide_True; [done|]. apply elem_of_cons. by right.
           ++ rewrite decide_False; [done|]. by intros [?|?]%elem_of_cons.
      * rewrite V5. simpl. rewrite Hi, <- app_assoc. simpl. rewrite deletions_delete by tauto. done.
      * intros [|y l0] x l' E.
        -- injection E as <- <-. apply orb_true_iff in Ec as [Ec|Ec%Z.ltb_lt]; [by left|right].
           unfold a_usage, cached in Ec. by rewrite El, V1, <- app_comm_cons, <- app_assoc in Ec.
        -- injection E as <- E. destruct (V7 _ _ _ E) as [?|V]; [by left|right].
           rewrite <- (total_delete (a_live a) e); [exact V|]. rewrite E in He.
           rewrite !elem_of_app in *. rewrite !elem_of_cons in *. tauto.
    + apply orb_false_iff in Ec as [-> Ec%Z.ltb_ge]. exists []. apply Hnil. by right.
Qed.

(** What [Insert] does before its eviction loop. *)
Lemma a_fill_spec c a e i :
  Rep c a → a_live a !! e = None →
  let old := if 0 <? a_cap a then a_find a (i_key i) (i_hash i) else None in
  let gone x := old = Some x ∧ ∃ j, a_live a !! x = Some (j, 0%nat) in
  a_cap (a_fill a e i) = a_cap a ∧
  a_lru (a_fill a e i) = from_option (λ o, without o (a_lru a)) (a_lru a) old ∧
  (0 < a_cap a → e ∈ a_use (a_fill a e i)) ∧
  a_live (a_fill a e i) !! e = Some (i, 1%nat) ∧
  (∀ x, x ≠ e → ¬ gone x → a_live (a_fill a e i) !! x = a_live a !! x) ∧
  (∀ x, gone x → a_live (a_fill a e i) !! x = None ∧
     a_deleted (a_fill a e i) = a_deleted a ++ deletions (a_live a) [x]) ∧
  ((∀ x, ¬ gone x) → a_deleted (a_fill a e i) = a_deleted a).
Proof.
  intros Hr He old gone. unfold a_fill. fold old.
  assert (Hold : ∀ o, old = Some o → o ∈ cached a).
  { intros o Ho. unfold old in Ho. destruct (0 <? a_cap a); [|done]. by apply a_find_Some in Ho as [? _]. }
  assert (Hu : 0 < a_cap a → e ∈ a_use (a_add a e i)).
  { intros Hcap. simpl. rewrite (proj2 (Z.ltb_lt _ _) Hcap), elem_of_app, list_elem_of_singleton. auto. }
  assert (Hl : a_live (a_add a e i) !! e = Some (i, 1%nat)) by apply lookup_insert_eq.
  assert (Hne : ∀ x, x ≠ e → a_live (a_add a e i) !! x = a_live a !! x)
    by (intros x Hx; simpl; by rewrite lookup_insert_ne).
  unfold gone. clear gone. destruct old as [o|]; simpl a_drop_opt; simpl from_option.
  - specialize (Hold o eq_refl). destruct (cached_live _ _ _ _ Hr Hold) as (j & n & Ho).
    assert (o ≠ e) as Hoe by (intros ->; congruence).
    assert (0 < a_cap a → e ∈ without o (a_use (a_add a e i))) as Hu'
      by (intros Hcap; apply elem_of_without; auto).
    unfold a_drop, a_free. rewrite Hne by done. rewrite Ho.
    destruct n as [|n]; cbn [a_cap a_lru a_use a_live a_deleted].
    + split_and!; try done.
      * by rewrite lookup_delete_ne.
      * intros x Hx Hg. rewrite lookup_delete_ne; [by apply Hne|]. intros <-. apply Hg. eauto.
      * intros x [[= <-] _]. rewrite lookup_delete_eq. split; [done|]. simpl. by rewrite Ho.
      * intros Hg. destruct (Hg o). eauto.
    + split_and!; try done.
      * intros x Hx _. by apply Hne.
      * intros x [[= <-] [j' ?]]. congruence.
  - split_and!; try done.
    + intros x Hx _. by apply Hne.
    + by intros x [? _].
Qed.

(** ** Properties *)

(** C4: the cache refines two lists of handles with client reference counts.
    From a new cache on, every operation returns (no assertion fails, no dead
    entry is touched) and corresponds to the abstract one: [Lookup] finds the
    cached entry with the key and takes a reference, [Insert] replaces and
    evicts, [Release] gives a reference back, [Erase] and [Prune] forget
    entries, [TotalCharge] is the sum of the cached charges. *)
Theorem LRUCache_refines :
  (∀ cap, ∃ c, LRUCache_new cap = Some c ∧ Rep c (a_new cap)) ∧
  ∀ c a, Rep c a →
    (∀ key hs, (∀ e i n, a_live a !! e = Some (i, n) → Z.of_nat n + 2 < 2 ^ 32) →
       ∃ c', LRU_Lookup c key hs = Some (fst (a_lookup a key hs), c') ∧
             Rep c' (snd (a_lookup a key hs))) ∧
    (∀ key hs v ch d, Z.of_nat (length (cached a)) + 1 < 2 ^ 31 → 0 <= hs < 2 ^ 32 →
       ∃ e c', LRU_Insert c key hs v ch d = Some (e, c') ∧ a_live a !! e = None ∧
         Rep c' (a_insert a e {| i_key := key; i_hash := hs; i_value := v; i_charge := ch;
                                 i_deleter := d |})) ∧
    (∀ e i n, a_live a !! e = Some (i, S n) → ∃ c', LRU_Release c e = Some c' ∧ Rep c' (a_unref a e)) ∧
    (∀ key hs, ∃ c', LRU_Erase c key hs = Some c' ∧ Rep c' (a_erase a key hs)) ∧
    (∃ c', LRU_Prune c = Some c' ∧ Rep c' (a_prune a)) ∧
    TotalCharge c = a_usage a ∧
    match a_use a with
    | [] => ∃ c', LRUCache_destroy c = Some c' ∧
                  deleted c' = a_deleted a ++ deletions (a_live a) (a_lru a)
    | _ :: _ => LRUCache_destroy c = None
    end.
Proof.
  split; [exact Rep_new|]. intros c a Hr. split_and!.
  - intros key hs. by apply Rep_Lookup.
  - intros key hs v ch d Hsz Hh. destruct (Rep_Insert c a key hs v ch d Hr Hsz Hh) as (e & c' & E & Hl & Hr' & _).
    eauto.
  - intros e i n. by apply Rep_Release.
  - intros key hs. by apply Rep_Erase.
  - by apply Rep_Prune.
  - apply (r_usage _ _ _ Hr).
  - by apply Rep_destroy.
Qed.

(** C6: what [Insert] guarantees.  The cache ends within its capacity or holds
    only entries that clients use; the new entry is found under its key (when the
    cache is on) and its client holds it; entries that clients hold stay alive
    with their data; the idle entries that go are the least recently released
    ones, no more than needed; the deleter runs once for each entry that dies,
    in that order. *)
Theorem LRUCache_Insert_spec c a key hs v ch d :
  Rep c a → Z.of_nat (length (cached a)) + 1 < 2 ^ 31 → 0 <= hs < 2 ^ 32 →
  let i := {| i_key := key; i_hash := hs; i_value := v; i_charge := ch; i_deleter := d |} in
  let old := if 0 <? a_cap a then a_find a key hs else None in
  let idle := from_option (λ o, without o (a_lru a)) (a_lru a) old in
  ∃ e c' a' evicted, LRU_Insert c key hs v ch d = Some (e, c') ∧ Rep c' a' ∧ a_live a !! e = None ∧
    (TotalCharge c' <= capacity_ c' ∨ a_lru a' = []) ∧
    (0 < capacity_ c → a_find a' key hs = Some e) ∧
    a_live a' !! e = Some (i, 1%nat) ∧
    (∀ x j n, a_live a !! x = Some (j, S n) → a_live a' !! x = Some (j, S n)) ∧
    idle = evicted ++ a_lru a' ∧
    (∀ l x l', evicted = l ++ x :: l' →
       a_cap a < u64 (total (a_live (a_fill a e i)) ((x :: l') ++ a_lru a' ++ a_use a'))) ∧
    (∀ x, x ∈ evicted → a_live a' !! x = None) ∧
    a_deleted a' = a_deleted a
      ++ deletions (a_live a) (match old with Some o => if decide (o ∈ a_lru a) then [o] else [] | None => [] end)
      ++ deletions (a_live a) evicted.
Proof.
  intros Hr Hsz Hh i old idle.
  destruct (Rep_Insert c a key hs v ch d Hr Hsz Hh) as (e & c' & E & Hl & Hr' & c1 & Hr1).
  fold i in Hr', Hr1. destruct (a_fill_spec c a e i Hr Hl) as (F1 & F2 & F3 & F4 & F5 & F6 & F7).
  change (a_find a (i_key i) (i_hash i)) with (a_find a key hs) in *. fold old in F2, F5, F6, F7.
  destruct (a_evict_spec _ false c1 _ Hr1 (le_n _)) as [l1 [V1 V2 V3 V4 V5 V6 V7]].
  fold (a_insert a e i) in *. set (a' := a_insert a e i) in *. set (a1 := a_fill a e i) in *.
  assert (He1 : e ∉ l1).
  { intros He. assert (e ∈ a_lru a1) as [j Hj]%(r_idle _ _ _ Hr1) by (rewrite V1, elem_of_app; auto).
    congruence. }
  assert (Hle : a_live a' !! e = Some (i, 1%nat)) by (rewrite V4, decide_False; done).
  assert (Hidle : ∀ x, x ∈ l1 → x ∈ a_lru a ∧ old ≠ Some x).
  { intros x Hx. assert (x ∈ a_lru a1) as Hx1 by (rewrite V1, elem_of_app; auto). rewrite F2 in Hx1.
    destruct old as [o|]; [apply elem_of_without in Hx1 as [? ?]; split; congruence|done]. }
  exists e, c', a', l1. split; [done|]. split; [done|]. split; [done|]. split_and!.
  - unfold TotalCharge. rewrite (r_usage _ _ _ Hr'), (r_cap _ _ _ Hr').
    destruct V6 as [?|[_ ?]]; auto.
  - rewrite (r_cap _ _ _ Hr). intros Hcap. apply (find_self c' a' e i 1 Hr'); [|done].
    unfold cached. rewrite V2, elem_of_app. right. by apply F3.
  - done.
  - intros x j n Hx. rewrite V4. rewrite decide_False.
    + rewrite F5; [done|congruence|]. intros [_ [j' Hj']]. congruence.
    + intros [Hx1 _]%Hidle. apply (r_idle _ _ _ Hr) in Hx1 as [? ?]. congruence.
  - unfold idle. by rewrite <- F2, V1.
  - intros l x l' El. destruct (V7 _ _ _ El) as [?|V]; [done|]. by rewrite V2, <- F1.
  - intros x Hx. by rewrite V4, decide_True.
  - assert (deletions (a_live a1) l1 = deletions (a_live a) l1) as Ed.
    { apply deletions_ext. intros x Hx. destruct (Hidle x Hx) as [Hx1 Hx2].
      apply F5; [by intros ->|]. by intros [? _]. }
    rewrite V5, Ed, app_assoc. f_equal. destruct old as [o|].
    + destruct (decide (o ∈ a_lru a)) as [Ho|Ho].
      * apply F6. split; [done|]. by apply (r_idle _ _ _ Hr).
      * rewrite app_nil_r. apply F7. intros x [[= <-] Hx]. by apply (r_idle _ _ _ Hr) in Hx.
    + rewrite app_nil_r. apply F7. by intros x [? _].
Qed.

(** ** Witnesses *)

(** A run: capacity 2; three one-byte keys with hash 5; the first is released
    and evicted by the third, the second is still held; then it is erased and
    its client releases it. *)
Example LRUCache_run :
  (c ← LRUCache_new 2;
   '(e1, c) ← LRU_Insert c [z2b 1] 5 11 1 0; '(e2, c) ← LRU_Insert c [z2b 2] 5 12 1 0;
   c ← LRU_Release c e1; '(e3, c) ← LRU_Insert c [z2b 3] 5 13 1 0;
   '(l1, c) ← LRU_Lookup c [z2b 1] 5; '(l3, c) ← LRU_Lookup c [z2b 3] 5;
   let d1 := deleted c in
   c ← LRU_Erase c [z2b 2] 5; '(l2, c) ← LRU_Lookup c [z2b 2] 5;
   let d2 := deleted c in
   c ← LRU_Release c e2;
   Some (l1, bool_decide (l3 = Some e3), l2, TotalCharge c, d1, d2, deleted c))
  = Some (None, true, None, 1, [(0, [z2b 1], 11)], [(0, [z2b 1], 11)],
          [(0, [z2b 1], 11); (0, [z2b 2], 12)]).
Proof. by vm_compute. Qed.

Lemma LRUCache_refines_witness :
  ∃ c e c', LRUCache_new 2 = Some c ∧ LRU_Insert c [z2b 1] 5 11 1 0 = Some (e, c') ∧
    ∃ c'', LRU_Release c' e = Some c''.
Proof.
  destruct LRUCache_refines as [Hnew Hops]. destruct (Hnew 2) as (c & E & Hr).
  destruct (Hops c _ Hr) as (_ & Hins & _).
  destruct (Hins [z2b 1] 5 11 1 0) as (e & c' & E' & _ & Hr'); [reflexivity|lia|].
  destruct (Hops c' _ Hr') as (_ & _ & Hrel & _).
  destruct (Hrel e {| i_key := [z2b 1]; i_hash := 5; i_value := 11; i_charge := 1; i_deleter := 0 |} 0%nat)
    as (c'' & E'' & _).
  { unfold a_insert, a_fill, a_add. simpl. apply lookup_insert_eq. }
  exists c, e, c'. split; [exact E|]. split; [exact E'|]. exists c''. exact E''.
Defined.

Lemma LRUCache_Insert_spec_witness :
  ∃ c e c', LRUCache_new 2 = Some c ∧ LRU_Insert c [z2b 1] 5 11 1 0 = Some (e, c') ∧
    ∃ a', Rep c' a' ∧ a_find a' [z2b 1] 5 = Some e.
Proof.
  destruct (Rep_new 2) as (c & E & Hr).
  destruct (LRUCache_Insert_spec c _ [z2b 1] 5 11 1 0 Hr) as (e & c' & a' & ev & E' & Hr' & _ & _ & Hf & _);
    [reflexivity|lia|].
  exists c, e, c'. split; [exact E|]. split; [exact E'|]. exists a'. split; [exact Hr'|].
  apply Hf. rewrite (r_cap _ _ _ Hr). reflexivity.
Defined.
