(* ===== verification/ShardedCache.v ===== *)
(** * The sharded cache (util/cache.cpp, util/cache_impl.h: ShardedLRUCache)

    Sixteen LRU caches; the high bits of the hash of a key choose its shard.
    A handle is modelled as the shard whose [malloc] returned it with its
    address there; [Release] still chooses the shard by the hash stored in the
    entry, and releasing through another shard is an error of the model, so the
    refinement shows that the two always agree. *)
From Stdlib Require Import ZArith Lia.
From stdpp Require Import base gmap fin_maps fin_sets sets numbers list.
From S2P Require Import Prelude Slice Hash HandleTable LRUCache.

#[local] Open Scope Z_scope.

(** ** State *)

Definition kNumShardBits : Z := 4.
Definition kNumShards : Z := Z.shiftl 1 kNumShardBits.

Record ShardedLRUCache := { shard_ : list LRUCache; last_id_ : Z }.

Abbreviation Handle := (nat * positive)%type.

Definition with_shard (s : ShardedLRUCache) (k : nat) (c : LRUCache) : ShardedLRUCache :=
  {| shard_ := <[k := c]> (shard_ s); last_id_ := last_id_ s |}.

(** ** Operations *)

Definition HashSlice (s : bytes) : Z := Hash.Hash s 0.
Definition Shard (hash : Z) : nat := Z.to_nat (Z.shiftr hash (32 - kNumShardBits)).

Definition per_shard (capacity : Z) : Z := u64 (capacity + (kNumShards - 1)) / kNumShards.

Definition NewLRUCache (capacity : Z) : option ShardedLRUCache :=
  c ← LRUCache_new (per_shard capacity);
  Some {| shard_ := replicate (Z.to_nat kNumShards) c; last_id_ := 0 |}.

Definition Sharded_Insert (s : ShardedLRUCache) (key : bytes) (value charge deleter : Z) :
  option (Handle * ShardedLRUCache) :=
  let hash := HashSlice key in
  c ← (shard_ s !! Shard hash);
  '(e, c) ← LRU_Insert c key hash value charge deleter;
  Some ((Shard hash, e), with_shard s (Shard hash) c).

Definition Sharded_Lookup (s : ShardedLRUCache) (key : bytes) :
  option (option Handle * ShardedLRUCache) :=
  let hash := HashSlice key in
  c ← (shard_ s !! Shard hash);
  '(e, c) ← LRU_Lookup c key hash;
  Some (pair (Shard hash) <$> (e : option positive), with_shard s (Shard hash) c).

Definition handle_entry (s : ShardedLRUCache) (handle : Handle) : option LRUHandle :=
  c ← (shard_ s !! handle.1); handles c !! handle.2.

Definition Sharded_Release (s : ShardedLRUCache) (handle : Handle) : option ShardedLRUCache :=
  h ← handle_entry s handle;
  if decide (Shard (hash h) = handle.1) then
    c ← (shard_ s !! Shard (hash h));
    c ← LRU_Release c handle.2;
    Some (with_shard s (Shard (hash h)) c)
  else None.

Definition Sharded_Erase (s : ShardedLRUCache) (key : bytes) : option ShardedLRUCache :=
  let hash := HashSlice key in
  c ← (shard_ s !! Shard hash);
  c ← LRU_Erase c key hash;
  Some (with_shard s (Shard hash) c).

Definition Sharded_Value (s : ShardedLRUCache) (handle : Handle) : option Z := value <$> handle_entry s handle.

Definition NewId (s : ShardedLRUCache) : Z * ShardedLRUCache :=
  let id := u64 (last_id_ s + 1) in (id, {| shard_ := shard_ s; last_id_ := id |}).

Definition Sharded_Prune (s : ShardedLRUCache) : option ShardedLRUCache :=
  cs ← mapM LRU_Prune (shard_ s); Some {| shard_ := cs; last_id_ := last_id_ s |}.

Definition Sharded_TotalCharge (s : ShardedLRUCache) : Z :=
  foldl (λ total c, u64 (total + TotalCharge c)) 0 (shard_ s).

(** ** Specification *)

(** Every entry sits in the shard of its key's hash. *)
Definition placed (k : nat) (a : astate) : Prop :=
  ∀ e i n, a_live a !! e = Some (i, n) → i_hash i = HashSlice (i_key i) ∧ Shard (i_hash i) = k.

Record SRep (s : ShardedLRUCache) (A : list astate) : Prop := {
  s_length : length A = Z.to_nat kNumShards;
  s_shards : Forall2 Rep (shard_ s) A;
  s_placed k a : A !! k = Some a → placed k a }.

(** ** Lemmas *)

Lemma Shard_lt key : (Shard (HashSlice key) < Z.to_nat kNumShards)%nat.
Proof.
  pose proof (Hash_range key 0) as H. unfold Shard, HashSlice. rewrite Z.shiftr_div_pow2 by done.
  apply Z2Nat.inj_lt; [apply Z.div_pos; [lia|done]|done|]. change kNumShards with 16.
  apply Z.div_lt_upper_bound; [done|]. change (2 ^ (32 - kNumShardBits) * 16) with (2 ^ 32). lia.
Qed.

(** Entries keep their data. *)
Definition live_sub (a a' : astate) : Prop :=
  ∀ x i n, a_live a' !! x = Some (i, n) → ∃ n', a_live a !! x = Some (i, n').

Lemma live_sub_refl a : live_sub a a.
Proof. intros x i n H. eauto. Qed.

Lemma live_sub_trans a1 a2 a3 : live_sub a1 a2 → live_sub a2 a3 → live_sub a1 a3.
Proof. intros H1 H2 x i n (n' & H)%H2. by apply H1 in H. Qed.

Lemma live_sub_placed k a a' : live_sub a a' → placed k a → placed k a'.
Proof. intros Hs Hp x i n (n' & H)%Hs. by apply Hp in H. Qed.

Lemma live_sub_ref a e : live_sub a (a_ref a e).
Proof.
  unfold a_ref. destruct (a_live a !! e) as [[i n]|] eqn:He; [|apply live_sub_refl].
  intros x j m; simpl; intros [[<- [= <- <-]]|[_ H]]%lookup_insert_Some; eauto.
Qed.

Lemma live_sub_delete a a' e : a_live a' = delete e (a_live a) → live_sub a a'.
Proof. intros E x i n. rewrite E. intros [_ H]%lookup_delete_Some. eauto. Qed.

Lemma live_sub_unref a e : live_sub a (a_unref a e).
Proof.
  unfold a_unref. destruct (a_live a !! e) as [[i [|n]]|] eqn:He; try apply live_sub_refl.
  destruct (decide (n = 0%nat)); [destruct (decide (e ∈ a_use a))|].
  - intros x j m; simpl; intros [[<- [= <- <-]]|[_ H]]%lookup_insert_Some; eauto.
  - by apply (live_sub_delete _ _ e).
  - intros x j m; simpl; intros [[<- [= <- <-]]|[_ H]]%lookup_insert_Some; eauto.
Qed.

Lemma live_sub_drop a e : live_sub a (a_drop a e).
Proof.
  unfold a_drop. destruct (a_live a !! e) as [[i [|n]]|] eqn:He; [by apply (live_sub_delete _ _ e)|..];
    intros x j m; simpl; eauto.
Qed.

Lemma live_sub_drop_opt a e : live_sub a (a_drop_opt a e).
Proof. destruct e; [apply live_sub_drop|apply live_sub_refl]. Qed.

Lemma live_sub_evict fuel all a : live_sub a (a_evict fuel all a).
Proof.
  revert a. induction fuel as [|fuel IH]; intros a; simpl; [apply live_sub_refl|].
  destruct (a_lru a) as [|e l]; [apply live_sub_refl|]. destruct (all || _); [|apply live_sub_refl].
  eapply live_sub_trans; [apply (live_sub_drop a e)|apply IH].
Qed.

Lemma live_sub_lookup a key hs : live_sub a (snd (a_lookup a key hs)).
Proof. unfold a_lookup. destruct (a_find a key hs); [apply live_sub_ref|apply live_sub_refl]. Qed.

Lemma placed_insert k a e i :
  placed k a → i_hash i = HashSlice (i_key i) → Shard (i_hash i) = k → placed k (a_insert a e i).
Proof.
  intros Hp H1 H2. unfold a_insert. eapply live_sub_placed; [apply live_sub_evict|].
  unfold a_fill. eapply live_sub_placed; [apply live_sub_drop_opt|].
  intros x j n; simpl; intros [[<- [= <- <-]]|[_ H]]%lookup_insert_Some; [done|by apply Hp in H].
Qed.

(** One shard changes. *)
Lemma SRep_update s A k c a :
  SRep s A → Rep c a → placed k a → SRep (with_shard s k c) (<[k := a]> A).
Proof.
  intros [H1 H2 H3] Hr Hp. split; simpl.
  - by rewrite length_insert.
  - by apply Forall2_insert.
  - intros j b [(-> & <- & _)|[_ Hj]]%list_lookup_insert_Some; [done|by apply H3].
Qed.

Lemma SRep_shard s A k :
  SRep s A → (k < Z.to_nat kNumShards)%nat →
  ∃ c a, shard_ s !! k = Some c ∧ A !! k = Some a ∧ Rep c a ∧ placed k a.
Proof.
  intros [H1 H2 H3] Hk. destruct (lookup_lt_is_Some_2 A k) as [a Ha]; [lia|].
  destruct (Forall2_lookup_r _ _ _ _ _ H2 Ha) as (c & Hc & Hr). exists c, a. auto.
Qed.

Lemma per_shard_bounds cap :
  0 <= cap → cap + 15 < 2 ^ 64 → cap <= kNumShards * per_shard cap < cap + kNumShards.
Proof.
  intros H0 H1. unfold per_shard. change kNumShards with 16. change (16 - 1) with 15.
  rewrite u64_small by lia. pose proof (Z.div_mod (cap + 15) 16). pose proof (Z.mod_pos_bound (cap + 15) 16). lia.
Qed.

Lemma Forall2_Prune cs A :
  Forall2 Rep cs A → ∃ cs', mapM LRU_Prune cs = Some cs' ∧ Forall2 Rep cs' (a_prune <$> A).
Proof.
  induction 1 as [|c a cs A Hr HR (cs' & E & IH)]; [exists []; split; [done|constructor]|].
  destruct (Rep_Prune _ _ Hr) as (c' & E' & Hr'). exists (c' :: cs'). simpl.
  rewrite E'. cbn [mbind option_bind]. rewrite E. split; [done|]. by constructor.
Qed.

Lemma TotalCharge_sum cs A t :
  Forall2 Rep cs A →
  foldl (λ total c, u64 (total + TotalCharge c)) (u64 t) cs
  = u64 (t + foldr (λ a n, total (a_live a) (cached a) + n) 0 A).
Proof.
  intros HR. revert t. induction HR as [|c a cs A Hr HR IH]; intros t; simpl; [f_equal; lia|].
  unfold TotalCharge at 2. rewrite (r_usage _ _ _ Hr). unfold a_usage.
  rewrite u64_add_idemp, (Z.add_comm t), u64_add_idemp, IH. f_equal. lia.
Qed.

(** *** The operations *)

Lemma SRep_new cap :
  0 <= cap → cap + 15 < 2 ^ 64 →
  ∃ s, NewLRUCache cap = Some s ∧ SRep s (replicate 16 (a_new (per_shard cap))) ∧ last_id_ s = 0 ∧
    cap <= 16 * per_shard cap < cap + 16.
Proof.
  intros H0 H1. destruct (Rep_new (per_shard cap)) as (c & E & Hr).
  unfold NewLRUCache. rewrite E. eexists. split; [done|].
  split; [|split; [done|by apply per_shard_bounds]].
  split; [done|by apply (Forall2_replicate Rep 16)|].
  intros k a Ha. apply lookup_replicate in Ha as [-> _]. by intros e i n.
Qed.

Lemma SRep_Insert s A key v ch d :
  SRep s A →
  let k := Shard (HashSlice key) in
  let i := {| i_key := key; i_hash := HashSlice key; i_value := v; i_charge := ch; i_deleter := d |} in
  ∃ a, A !! k = Some a ∧
    (Z.of_nat (length (cached a)) + 1 < 2 ^ 31 →
     ∃ e s' c1, Sharded_Insert s key v ch d = Some ((k, e), s') ∧ a_live a !! e = None ∧
       SRep s' (<[k := a_insert a e i]> A) ∧ last_id_ s' = last_id_ s ∧ Rep c1 (a_fill a e i)).
Proof.
  intros Hs k i. destruct (SRep_shard s A k Hs (Shard_lt key)) as (c & a & Ec & Ea & Hr & Hp).
  exists a. split; [done|]. intros Hsz.
  destruct (Rep_Insert c a key (HashSlice key) v ch d Hr Hsz) as (e & c' & E & Hl & Hr' & c1 & Hr1);
    [apply Hash_range|].
  unfold Sharded_Insert. fold k. rewrite Ec. cbn [mbind option_bind]. rewrite E.
  cbn [mbind option_bind]. exists e. eexists. exists c1. split; [done|]. split; [done|].
  split; [|done]. apply SRep_update; [done|exact Hr'|]. by apply placed_insert.
Qed.

Lemma SRep_Lookup s A key :
  SRep s A →
  let k := Shard (HashSlice key) in ∃ a, A !! k = Some a ∧
    ((∀ e i n, a_live a !! e = Some (i, n) → Z.of_nat n + 2 < 2 ^ 32) →
     ∃ s', Sharded_Lookup s key = Some (pair k <$> fst (a_lookup a key (HashSlice key)), s') ∧
       SRep s' (<[k := snd (a_lookup a key (HashSlice key))]> A) ∧ last_id_ s' = last_id_ s).
Proof.
  intros Hs k. destruct (SRep_shard s A k Hs (Shard_lt key)) as (c & a & Ec & Ea & Hr & Hp).
  exists a. split; [done|]. intros Hb.
  destruct (Rep_Lookup c a key (HashSlice key) Hr Hb) as (c' & E & Hr').
  unfold Sharded_Lookup. fold k. rewrite Ec. cbn [mbind option_bind]. rewrite E.
  cbn [mbind option_bind]. eexists. split; [done|]. split; [|done].
  apply SRep_update; [done..|]. eapply live_sub_placed; [apply live_sub_lookup|done].
Qed.

Lemma SRep_handle s A k e a i n :
  SRep s A → A !! k = Some a → a_live a !! e = Some (i, S n) →
  Sharded_Value s (k, e) = Some (i_value i) ∧
  ∃ s', Sharded_Release s (k, e) = Some s' ∧ SRep s' (<[k := a_unref a e]> A) ∧ last_id_ s' = last_id_ s.
Proof.
  intros Hs Ea Hl. pose proof Hs as [H1 H2 H3].
  destruct (Forall2_lookup_r _ _ _ _ _ H2 Ea) as (c & Ec & Hr).
  destruct (H3 _ _ Ea _ _ _ Hl) as [Hh Hk].
  destruct (r_live _ _ _ Hr _ _ _ Hl) as (hd & Ehd & Hd & _).
  assert (Een : handle_entry s (k, e) = Some hd) by (unfold handle_entry; simpl; by rewrite Ec).
  rewrite <- Hd in Hk. simpl in Hk. unfold Sharded_Value, Sharded_Release. rewrite Een.
  cbn [mbind option_bind fmap option_fmap option_map]. split; [by rewrite <- Hd|].
  rewrite decide_True, Hk, Ec by done. cbn [mbind option_bind].
  destruct (Rep_Release _ _ _ _ _ Hr Hl) as (c' & E & Hr'). simpl. rewrite E.
  eexists. split; [done|]. split; [|done]. apply SRep_update; [done..|].
  eapply live_sub_placed; [apply live_sub_unref|by apply H3].
Qed.

Lemma SRep_Erase s A key :
  SRep s A →
  let k := Shard (HashSlice key) in ∃ a s', A !! k = Some a ∧ Sharded_Erase s key = Some s' ∧
    SRep s' (<[k := a_erase a key (HashSlice key)]> A) ∧ last_id_ s' = last_id_ s.
Proof.
  intros Hs k. destruct (SRep_shard s A k Hs (Shard_lt key)) as (c & a & Ec & Ea & Hr & Hp).
  destruct (Rep_Erase c a key (HashSlice key) Hr) as (c' & E & Hr').
  exists a. unfold Sharded_Erase. fold k. rewrite Ec. cbn [mbind option_bind]. rewrite E.
  eexists. split; [done|]. split; [done|]. split; [|done]. apply SRep_update; [done..|].
  eapply live_sub_placed; [apply live_sub_drop_opt|done].
Qed.

Lemma SRep_Prune s A :
  SRep s A → ∃ s', Sharded_Prune s = Some s' ∧ SRep s' (a_prune <$> A) ∧ last_id_ s' = last_id_ s.
Proof.
  intros [H1 H2 H3]. destruct (Forall2_Prune _ _ H2) as (cs & E & HR).
  unfold Sharded_Prune. rewrite E. eexists. split; [done|]. split; [|done].
  split; simpl; [by rewrite length_fmap|done|].
  intros k a'. rewrite list_lookup_fmap. intros (a & Ea & ->)%fmap_Some.
  eapply live_sub_placed; [apply live_sub_evict|by apply H3].
Qed.

Lemma SRep_TotalCharge s A :
  SRep s A → Sharded_TotalCharge s = u64 (foldr (λ a n, total (a_live a) (cached a) + n) 0 A).
Proof. intros Hs. unfold Sharded_TotalCharge. apply (TotalCharge_sum _ _ 0 (s_shards _ _ Hs)). Qed.

(** ** Properties *)

(** The sharded cache refines one abstract cache per shard.  The shards'
    capacities add up to the capacity asked for, rounded up; every operation
    returns, works on the shard of the key's hash only, and [Release] finds the
    shard of the handle through the hash in the entry; [Value] is the value
    inserted; [Prune] drops the idle entries of every shard; [TotalCharge] sums
    the charges of all cached entries; [NewId] gives fresh numbers. *)
Theorem ShardedLRUCache_refines :
  (∀ cap, 0 <= cap → cap + 15 < 2 ^ 64 →
     ∃ s, NewLRUCache cap = Some s ∧ SRep s (replicate 16 (a_new (per_shard cap))) ∧
       cap <= 16 * per_shard cap < cap + 16) ∧
  ∀ s A, SRep s A →
    (∀ key v ch d, let k := Shard (HashSlice key) in ∃ a, A !! k = Some a ∧
       (Z.of_nat (length (cached a)) + 1 < 2 ^ 31 →
        ∃ e s', Sharded_Insert s key v ch d = Some ((k, e), s') ∧ a_live a !! e = None ∧
          SRep s' (<[k := a_insert a e {| i_key := key; i_hash := HashSlice key; i_value := v;
                                          i_charge := ch; i_deleter := d |}]> A))) ∧
    (∀ key, let k := Shard (HashSlice key) in ∃ a, A !! k = Some a ∧
       ((∀ e i n, a_live a !! e = Some (i, n) → Z.of_nat n + 2 < 2 ^ 32) →
        ∃ s', Sharded_Lookup s key = Some (pair k <$> fst (a_lookup a key (HashSlice key)), s') ∧
          SRep s' (<[k := snd (a_lookup a key (HashSlice key))]> A))) ∧
    (∀ k e a i n, A !! k = Some a → a_live a !! e = Some (i, S n) →
       Sharded_Value s (k, e) = Some (i_value i) ∧
       ∃ s', Sharded_Release s (k, e) = Some s' ∧ SRep s' (<[k := a_unref a e]> A)) ∧
    (∀ key, let k := Shard (HashSlice key) in ∃ a s', A !! k = Some a ∧
       Sharded_Erase s key = Some s' ∧ SRep s' (<[k := a_erase a key (HashSlice key)]> A)) ∧
    (∃ s', Sharded_Prune s = Some s' ∧ SRep s' (a_prune <$> A)) ∧
    Sharded_TotalCharge s = u64 (foldr (λ a n, total (a_live a) (cached a) + n) 0 A) ∧
    SRep (snd (NewId s)) A ∧ (last_id_ s + 1 < 2 ^ 64 → 0 <= last_id_ s →
      fst (NewId s) = last_id_ s + 1 ∧ last_id_ (snd (NewId s)) = last_id_ s + 1).
Proof.
  split.
  { intros cap H0 H1. destruct (SRep_new cap H0 H1) as (s & ? & ? & _ & ?). eauto. }
  intros s A Hs. split_and!.
  - intros key v ch d k. destruct (SRep_Insert s A key v ch d Hs) as (a & Ea & H). exists a. split; [done|].
    intros Hsz. destruct (H Hsz) as (e & s' & c1 & ? & ? & ? & _). eauto.
  - intros key k. destruct (SRep_Lookup s A key Hs) as (a & Ea & H). exists a. split; [done|].
    intros Hb. destruct (H Hb) as (s' & ? & ? & _). eauto.
  - intros k e a i n Ea Hl. destruct (SRep_handle s A k e a i n Hs Ea Hl) as (? & s' & ? & ? & _). eauto.
  - intros key k. destruct (SRep_Erase s A key Hs) as (a & s' & ? & ? & ? & _). eauto.
  - destruct (SRep_Prune s A Hs) as (s' & ? & ? & _). eauto.
  - by apply SRep_TotalCharge.
  - by destruct Hs.
  - intros H0 H1. simpl. by rewrite u64_small by lia.
Qed.

(** ** Witnesses *)

Lemma ShardedLRUCache_refines_witness :
  ∃ s k e s' s'', NewLRUCache 100 = Some s ∧
    Sharded_Insert s [z2b 65] 7 1 0 = Some ((k, e), s') ∧ Sharded_Value s' (k, e) = Some 7 ∧
    Sharded_Release s' (k, e) = Some s''.
Proof.
  destruct ShardedLRUCache_refines as [Hnew Hops].
  destruct (Hnew 100) as (s & E & Hs & _); [lia|reflexivity|].
  destruct (Hops s _ Hs) as (Hins & _). destruct (Hins [z2b 65] 7 1 0) as (a & Ea & Hi).
  apply lookup_replicate in Ea as Ha. destruct Ha as [-> Hk].
  destruct Hi as (e & s' & E' & _ & Hs'); [reflexivity|].
  destruct (Hops s' _ Hs') as (_ & _ & Hrel & _).
  destruct (Hrel (Shard (HashSlice [z2b 65])) e _
    {| i_key := [z2b 65]; i_hash := HashSlice [z2b 65]; i_value := 7; i_charge := 1; i_deleter := 0 |} 0%nat
    (list_lookup_insert_eq _ _ _ ltac:(rewrite length_replicate; exact Hk))) as (Hv & s'' & E'' & _).
  { unfold a_insert, a_fill, a_add. simpl. apply lookup_insert_eq. }
  exists s, (Shard (HashSlice [z2b 65])), e, s', s''. auto.
Defined.

(** Two keys, one shard each; the total charge; an id. *)
Example ShardedLRUCache_run :
  (s ← NewLRUCache 100;
   '(h1, s) ← Sharded_Insert s [z2b 65] 7 3 0; '(h2, s) ← Sharded_Insert s [z2b 66] 8 4 0;
   s ← Sharded_Release s h1; '(h3, s) ← Sharded_Lookup s [z2b 66]; s ← Sharded_Prune s;
   '(h4, s) ← Sharded_Lookup s [z2b 65];
   Some (Sharded_Value s h2, bool_decide (h3 = Some h2), h4, Sharded_TotalCharge s, fst (NewId s)))
  = Some (Some 8, true, None, 4, 1).
Proof. by vm_compute. Qed.
