(* ===== verification/Cache.v ===== *)
(** * The cache interface (include/lldb/cache.h: Cache)

    The operations are a class over the type of the cache and of its handles.
    What the header promises to a client is an automaton on what the client
    knows: the handles it holds, the last entry it inserted under each key, the
    entries whose deleter is still to run, the last id.  [CacheLaws] says that a
    cache answers every call the client is allowed to make, with an answer the
    automaton accepts; sessions of a client are proved against these laws, and
    CacheContract.v shows that the sharded cache meets them. *)
From Stdlib Require Import ZArith Lia.
From stdpp Require Import base gmap fin_maps numbers list.
From S2P Require Import Prelude Slice.

#[local] Open Scope Z_scope.

(** ** Operations *)

(** What a deleter is called with: the deleter, the key and the value. *)
Abbreviation entry := (Z * bytes * Z)%type.
Definition entry_key (x : entry) : bytes := x.1.2.
Definition entry_value (x : entry) : Z := x.2.

(** The arguments of [Cache_Insert] are the key, the value, the charge and the
    deleter.  [None] is a failed assertion.  [Cache_deleted] lists the calls of
    deleters so far. *)
Class Cache (C H : Type) := {
  Cache_Insert : C → bytes → Z → Z → Z → option (H * C);
  Cache_Lookup : C → bytes → option (option H * C);
  Cache_Release : C → H → option C;
  Cache_Value : C → H → option Z;
  Cache_Erase : C → bytes → option C;
  Cache_NewId : C → Z * C;
  Cache_Prune : C → option C;
  Cache_TotalCharge : C → Z;
  Cache_delete : C → option C;
  Cache_deleted : C → list entry }.
#[export] Hint Mode Cache ! - : typeclass_instances.

(** ** Calls *)

Inductive call (H : Type) :=
  | Call_Insert (key : bytes) (value charge deleter : Z)
  | Call_Lookup (key : bytes)
  | Call_Release (h : H)
  | Call_Value (h : H)
  | Call_Erase (key : bytes)
  | Call_NewId
  | Call_Prune
  | Call_TotalCharge.
Arguments Call_Insert {H}.
Arguments Call_Lookup {H}.
Arguments Call_Release {H}.
Arguments Call_Value {H}.
Arguments Call_Erase {H}.
Arguments Call_NewId {H}.
Arguments Call_Prune {H}.
Arguments Call_TotalCharge {H}.

Inductive answer (H : Type) :=
  | Ans_handle (h : H)
  | Ans_lookup (h : option H)
  | Ans_value (x : Z)
  | Ans_id (id : Z)
  | Ans_charge (n : Z)
  | Ans_void.
Arguments Ans_handle {H}.
Arguments Ans_lookup {H}.
Arguments Ans_value {H}.
Arguments Ans_id {H}.
Arguments Ans_charge {H}.
Arguments Ans_void {H}.

Definition perform {C H} `{Cache C H} (cl : call H) (c : C) : option (answer H * C) :=
  match cl with
  | Call_Insert key value charge deleter =>
      '(h, c) ← Cache_Insert c key value charge deleter; Some (Ans_handle h, c)
  | Call_Lookup key => '(h, c) ← Cache_Lookup c key; Some (Ans_lookup h, c)
  | Call_Release h => c ← Cache_Release c h; Some (Ans_void, c)
  | Call_Value h => x ← Cache_Value c h; Some (Ans_value x, c)
  | Call_Erase key => c ← Cache_Erase c key; Some (Ans_void, c)
  | Call_NewId => let '(id, c) := Cache_NewId c in Some (Ans_id id, c)
  | Call_Prune => c ← Cache_Prune c; Some (Ans_void, c)
  | Call_TotalCharge => Some (Ans_charge (Cache_TotalCharge c), c)
  end.

(** ** What a client knows *)

Section View.
Context {H : Type} `{Countable H}.

(** [v_pins]: the handles it holds, with the entry and the number of references;
    [v_latest]: for each key, what it inserted last and has not erased since. *)
Record view := {
  v_pins : gmap H (entry * nat);
  v_latest : gmap bytes (H * entry);
  v_inserted : list entry;
  v_id : Z;
  v_calls : nat }.

Definition view_new : view :=
  {| v_pins := ∅; v_latest := ∅; v_inserted := []; v_id := 0; v_calls := 0 |}.

(** "REQUIRES: handle must not have been released yet." *)
Definition allowed (v : view) (cl : call H) : bool :=
  match cl with
  | Call_Release h | Call_Value h => bool_decide (is_Some (v_pins v !! h))
  | _ => true
  end.

Definition pin (h : H) (x : entry) (pins : gmap H (entry * nat)) : gmap H (entry * nat) :=
  <[h := (x, S (from_option snd 0%nat (pins !! h)))]> pins.
Definition unpin (h : H) (pins : gmap H (entry * nat)) : gmap H (entry * nat) :=
  match pins !! h with
  | Some (x, S (S n)) => <[h := (x, S n)]> pins
  | _ => delete h pins
  end.

(** The client holds the entry it inserted last under the key. *)
Definition in_use (v : view) (key : bytes) : bool :=
  match v_latest v !! key with
  | Some (h, _) => match v_pins v !! h with
                   | Some (x, _) => bool_decide (entry_key x = key)
                   | None => false
                   end
  | None => false
  end.

Definition advance (v : view) (pins : gmap H (entry * nat)) (latest : gmap bytes (H * entry))
  (inserted : list entry) : view :=
  {| v_pins := pins; v_latest := latest; v_inserted := v_inserted v ++ inserted; v_id := v_id v;
     v_calls := S (v_calls v) |}.

(** What the client knows after an answer, if the answer is one the header
    promises.  [on]: the capacity is not 0, so that entries in use stay in the
    cache.  A lookup finds the last entry inserted under the key, or nothing,
    unless that entry is in use; [Prune] leaves the entries in use only; with no
    entry to be found the charge is 0. *)
Definition view_step (on : bool) (v : view) (cl : call H) (a : answer H) : option view :=
  let next pins latest := Some (advance v pins latest []) in
  match cl, a with
  | Call_Insert key value _ deleter, Ans_handle h =>
      let x := (deleter, key, value) in
      if decide (v_pins v !! h = None) then
        Some (advance v (<[h := (x, 1%nat)]> (v_pins v)) (<[key := (h, x)]> (v_latest v)) [x])
      else None
  | Call_Lookup key, Ans_lookup None =>
      if on && in_use v key then None else next (v_pins v) (v_latest v)
  | Call_Lookup key, Ans_lookup (Some h) =>
      '(h', x) ← (v_latest v !! key);
      if decide (h' = h ∧ entry_key x = key ∧ from_option fst x (v_pins v !! h) = x)
      then next (pin h x (v_pins v)) (v_latest v) else None
  | Call_Release h, Ans_void => next (unpin h (v_pins v)) (v_latest v)
  | Call_Value h, Ans_value x =>
      '(y, _) ← (v_pins v !! h);
      if decide (x = entry_value y) then next (v_pins v) (v_latest v) else None
  | Call_Erase key, Ans_void => next (v_pins v) (delete key (v_latest v))
  | Call_NewId, Ans_id id =>
      if decide (id = u64 (v_id v + 1)) then
        Some {| v_pins := v_pins v; v_latest := v_latest v; v_inserted := v_inserted v; v_id := id;
                v_calls := S (v_calls v) |}
      else None
  | Call_Prune, Ans_void =>
      next (v_pins v) (filter (λ p, in_use v p.1 = true) (v_latest v))
  | Call_TotalCharge, Ans_charge n =>
      if decide (v_latest v = ∅ ∧ n ≠ 0) then None else next (v_pins v) (v_latest v)
  | _, _ => None
  end.

(** ** The interface's laws *)

(** How many calls a session may have: the implementation counts in 32 bits. *)
Definition kMaxCalls : Z := 2 ^ 31 - 3.

(** [law_entries]: every entry inserted is either deleted, once, or still held by
    the cache, and those the client holds are held. *)
Class CacheLaws (C : Type) `{!Cache C H} := {
  cache_rep : bool → C → view → Prop;
  law_call on c v cl : cache_rep on c v → allowed v cl = true → Z.of_nat (v_calls v) < kMaxCalls →
    ∃ a c' v', perform cl c = Some (a, c') ∧ view_step on v cl a = Some v' ∧ cache_rep on c' v';
  law_entries on c v : cache_rep on c v →
    ∃ held : list (H * entry), NoDup (held.*1) ∧ v_inserted v ≡ₚ Cache_deleted c ++ held.*2 ∧
      ∀ h x n, v_pins v !! h = Some (x, n) → (h, x) ∈ held;
  law_delete on c v : cache_rep on c v → v_pins v = ∅ →
    ∃ c', Cache_delete c = Some c' ∧ Cache_deleted c' ≡ₚ v_inserted v }.

(** ** Sessions of a client *)

(** The states a client reaches from a new cache, making the calls it likes among
    those it is allowed to. *)
Inductive reached {C} `{!Cache C H} (on : bool) (c0 : C) : C → view → Prop :=
  | reached_new : reached on c0 c0 view_new
  | reached_call c v cl a c' v' :
      reached on c0 c v → allowed v cl = true → perform cl c = Some (a, c') →
      view_step on v cl a = Some v' → reached on c0 c' v'.

Lemma view_step_calls on v cl a v' : view_step on v cl a = Some v' → v_calls v' = S (v_calls v).
Proof.
  unfold view_step, mbind, option_bind. cbn zeta.
  destruct cl, a; try discriminate; repeat case_match; intros E; by simplify_eq.
Qed.

Lemma reached_rep {C} `{!Cache C H, !CacheLaws C} on c0 (c : C) v :
  cache_rep on c0 view_new → reached on c0 c v → Z.of_nat (v_calls v) <= kMaxCalls → cache_rep on c v.
Proof.
  intros Hnew Hr. induction Hr as [|c v cl a c' v' Hr IH Hal E Ev]; intros Hn; [done|].
  rewrite (view_step_calls _ _ _ _ _ Ev) in Hn.
  destruct (law_call on c v cl) as (a1 & c1 & v1 & E1 & Ev1 & Hrep); [apply IH; lia|done|lia|].
  rewrite E in E1. injection E1 as <- <-. rewrite Ev in Ev1. by injection Ev1 as <-.
Qed.
End View.
Arguments view H {_ _}.
