(* ===== verification/CacheContract.v ===== *)
(** * The sharded cache meets its interface (util/cache.cpp, include/lldb/cache.h)

    [ShardedLRUCache] as an instance of [Cache], the relation between its shards'
    abstract caches and what a client knows, each call on one shard, and the laws
    of the interface. *)
From Stdlib Require Import ZArith Lia.
From stdpp Require Import base gmap fin_maps fin_sets sets numbers list.
From S2P Require Import Prelude Slice Hash HandleTable LRUCache ShardedCache Cache.

#[local] Open Scope Z_scope.

(** ** The instance *)

(** The shards share nothing, so that the order in which the array destroys them
    does not matter. *)
Definition Sharded_delete (s : ShardedLRUCache) : option ShardedLRUCache :=
  cs ← mapM LRUCache_destroy (shard_ s); Some {| shard_ := cs; last_id_ := last_id_ s |}.

#[export] Instance ShardedLRUCache_Cache : Cache ShardedLRUCache Handle := {|
  Cache_Insert := Sharded_Insert;
  Cache_Lookup := Sharded_Lookup;
  Cache_Release := Sharded_Release;
  Cache_Value := Sharded_Value;
  Cache_Erase := Sharded_Erase;
  Cache_NewId := NewId;
  Cache_Prune := Sharded_Prune;
  Cache_TotalCharge := Sharded_TotalCharge;
  Cache_delete := Sharded_delete;
  Cache_deleted s := concat (deleted <$> shard_ s) |}.

(** ** The relation *)

Definition entry_of (i : info) : entry := (i_deleter i, i_key i, i_value i).

(** The references clients hold to an entry of a shard. *)
Definition pinned (a : astate) (e : positive) : option (entry * nat) :=
  match a_live a !! e with Some (i, S n) => Some (entry_of i, S n) | _ => None end.

(** The entries that are alive, and all entries. *)
Definition entries (live : gmap positive (info * nat)) : list entry :=
  (λ p : positive * (info * nat), entry_of p.2.1) <$> map_to_list live.
Definition content (a : astate) : list entry := a_deleted a ++ entries (a_live a).

Record shard_ok (on : bool) (v : view Handle) (k : nat) (a : astate) : Prop := {
  so_on : (0 <? a_cap a) = on;
  so_off : on = false → cached a = [];
  so_pins e : v_pins v !! (k, e) = pinned a e;
  so_cached e i n : e ∈ cached a → a_live a !! e = Some (i, n) →
    v_latest v !! i_key i = Some ((k, e), entry_of i);
  so_use key e x y n : v_latest v !! key = Some ((k, e), x) → pinned a e = Some (y, n) →
    entry_key y = key → on = true → e ∈ cached a;
  so_size : (length (cached a) <= v_calls v)%nat;
  so_refs e i n : a_live a !! e = Some (i, n) → (n <= v_calls v)%nat }.

Record sharded_rep (on : bool) (s : ShardedLRUCache) (v : view Handle) (A : list astate) : Prop := {
  sr_rep : SRep s A;
  sr_ok k a : A !! k = Some a → shard_ok on v k a;
  sr_pins k e x : v_pins v !! (k, e) = Some x → is_Some (A !! k);
  sr_content : v_inserted v ≡ₚ concat (content <$> A);
  sr_id : v_id v = last_id_ s }.

(** ** Lemmas: no entry is lost *)

Lemma entries_insert live e i n :
  live !! e = None → entries (<[e := (i, n)]> live) ≡ₚ entry_of i :: entries live.
Proof. intros He. unfold entries. by rewrite map_to_list_insert. Qed.

Lemma entries_delete live e i n :
  live !! e = Some (i, n) → entry_of i :: entries (delete e live) ≡ₚ entries live.
Proof. intros He. unfold entries. by rewrite <- (map_to_list_delete _ _ _ He). Qed.

Lemma entries_update live e i n m :
  live !! e = Some (i, m) → entries (<[e := (i, n)]> live) ≡ₚ entries live.
Proof.
  intros He. rewrite <- insert_delete_eq, entries_insert by apply lookup_delete_eq.
  by eapply entries_delete.
Qed.

Lemma content_free a e i n :
  a_live a !! e = Some (i, n) → content (a_free a e i) ≡ₚ content a.
Proof.
  intros He. unfold content, a_free. cbn [a_deleted a_live].
  rewrite <- app_assoc. change ([?x] ++ ?l) with (x :: l). fold (entry_of i).
  by rewrite (entries_delete _ _ _ _ He).
Qed.

Lemma content_ref a e : content (a_ref a e) ≡ₚ content a.
Proof.
  unfold a_ref. destruct (a_live a !! e) as [[i n]|] eqn:He; [|done].
  unfold content. cbn [a_deleted a_live]. by rewrite (entries_update _ _ _ _ _ He).
Qed.

Lemma content_unref a e : content (a_unref a e) ≡ₚ content a.
Proof.
  unfold a_unref. destruct (a_live a !! e) as [[i [|n]]|] eqn:He; [done| |done].
  case_decide; [case_decide|].
  - unfold content. cbn [a_deleted a_live]. by rewrite (entries_update _ _ _ _ _ He).
  - by eapply content_free.
  - unfold content. cbn [a_deleted a_live]. by rewrite (entries_update _ _ _ _ _ He).
Qed.

Lemma content_drop a e : content (a_drop a e) ≡ₚ content a.
Proof.
  unfold a_drop. destruct (a_live a !! e) as [[i [|n]]|] eqn:He; [|done..].
  by rewrite (content_free _ _ i 0%nat He).
Qed.

Lemma content_erase a key hs : content (a_erase a key hs) ≡ₚ content a.
Proof. unfold a_erase. destruct (a_find a key hs); [apply content_drop|done]. Qed.

Lemma content_evict fuel all a : content (a_evict fuel all a) ≡ₚ content a.
Proof.
  revert a. induction fuel as [|fuel IH]; intros a; [done|]. simpl.
  destruct (a_lru a) as [|e l]; [done|]. case_match; [|done]. by rewrite IH, content_drop.
Qed.

Lemma content_add a e i :
  a_live a !! e = None → content (a_add a e i) ≡ₚ content a ++ [entry_of i].
Proof.
  intros He. unfold content. cbn [a_add a_deleted a_live].
  by rewrite entries_insert, <- app_assoc, <- Permutation_cons_append.
Qed.

(** ** Lemmas: one shard *)

Lemma pinned_live a e i n : a_live a !! e = Some (i, S n) → pinned a e = Some (entry_of i, S n).
Proof. intros E. unfold pinned. by rewrite E. Qed.

Lemma pinned_Some a e x n :
  pinned a e = Some (x, n) → ∃ i m, a_live a !! e = Some (i, S m) ∧ x = entry_of i ∧ n = S m.
Proof.
  unfold pinned. destruct (a_live a !! e) as [[i [|m]]|]; [done| |done]. intros [= <- <-]. eauto.
Qed.

Lemma pinned_same a a' e : a_live a' !! e = a_live a !! e → pinned a' e = pinned a e.
Proof. intros E. unfold pinned. by rewrite E. Qed.

Lemma pinned_drop a e x : pinned (a_drop a e) x = pinned a x.
Proof.
  unfold a_drop, pinned. destruct (a_live a !! e) as [[i [|n]]|] eqn:He; [|done..].
  cbn [a_free a_live]. destruct (decide (x = e)) as [->|Hx]; [by rewrite lookup_delete_eq, He|].
  by rewrite lookup_delete_ne.
Qed.

Lemma placed_pinned k a e x n :
  placed k a → pinned a e = Some (x, n) → Shard (HashSlice (entry_key x)) = k.
Proof.
  intros Hp (i & m & El & -> & _)%pinned_Some. destruct (Hp _ _ _ El) as [Eh Es].
  change (entry_key (entry_of i)) with (i_key i). by rewrite <- Eh.
Qed.

(** Entries of other shards do not notice. *)
Lemma ok_frame on v v' k a :
  placed k a → shard_ok on v k a →
  (∀ e, v_pins v' !! (k, e) = v_pins v !! (k, e)) →
  (∀ key, Shard (HashSlice key) = k → v_latest v' !! key = v_latest v !! key) →
  (v_calls v <= v_calls v')%nat → shard_ok on v' k a.
Proof.
  intros Hp [H1 H2 H3 H4 H5 H6 H7] Hpins Hl Hc. split; try done.
  - intros e. by rewrite Hpins.
  - intros e i n He Hi. destruct (Hp _ _ _ Hi) as [Eh Es]. rewrite Hl; [eauto|by rewrite <- Eh].
  - intros key e x y n El Hy Hk Hon. rewrite Hl in El; [eauto|].
    rewrite <- Hk. by eapply placed_pinned.
  - lia.
  - intros e i n He. specialize (H7 e i n He). lia.
Qed.

Lemma ok_ref on v k c a e i n :
  Rep c a → shard_ok on v k a → a_live a !! e = Some (i, n) → e ∈ cached a →
  shard_ok on (advance v (pin (k, e) (entry_of i) (v_pins v)) (v_latest v) []) k (a_ref a e).
Proof.
  intros Hr [H1 H2 H3 H4 H5 H6 H7] He Hc.
  assert (Hp : cached (a_ref a e) ≡ₚ cached a).
  { apply cached_ref; [by destruct (cached_nodup _ _ _ Hr)|]. intros _. symmetry. apply (r_idle _ _ _ Hr). }
  assert (Hcap : a_cap (a_ref a e) = a_cap a) by (unfold a_ref; by rewrite He).
  assert (Hlive : a_live (a_ref a e) = <[e := (i, S n)]> (a_live a)) by (unfold a_ref; by rewrite He).
  split; cbn [advance v_pins v_latest v_calls].
  - by rewrite Hcap.
  - intros Hoff. specialize (H2 Hoff). rewrite H2 in Hp. by apply Permutation_nil_r.
  - intros x. unfold pin, pinned. rewrite Hlive. destruct (decide (x = e)) as [->|Hx].
    + rewrite !lookup_insert_eq, H3. unfold pinned. rewrite He. by destruct n.
    + rewrite !lookup_insert_ne by congruence. apply H3.
  - intros x j m. rewrite Hp, Hlive. intros Hx [[<- [= <- <-]]|[_ Hj]]%lookup_insert_Some; eauto.
  - intros key x y z m El Hz Hk Hon. rewrite Hp. destruct (decide (x = e)) as [->|Hx]; [done|].
    rewrite (pinned_same a) in Hz by (rewrite Hlive; by rewrite lookup_insert_ne). eauto.
  - rewrite Hp. lia.
  - intros x j m. rewrite Hlive. intros [[<- [= <- <-]]|[_ Hj]]%lookup_insert_Some.
    + specialize (H7 _ _ _ He). lia.
    + specialize (H7 _ _ _ Hj). lia.
Qed.

Lemma ok_unref on v k c a e i n :
  Rep c a → shard_ok on v k a → a_live a !! e = Some (i, S n) →
  shard_ok on (advance v (unpin (k, e) (v_pins v)) (v_latest v) []) k (a_unref a e).
Proof.
  intros Hr [H1 H2 H3 H4 H5 H6 H7] He.
  assert (Hp : cached (a_unref a e) ≡ₚ cached a) by by eapply cached_unref.
  assert (Hcap : a_cap (a_unref a e) = a_cap a).
  { unfold a_unref. rewrite He. case_decide; [case_decide|]; done. }
  assert (Hne : ∀ x, x ≠ e → a_live (a_unref a e) !! x = a_live a !! x).
  { intros x Hx. unfold a_unref. rewrite He. case_decide; [case_decide|]; cbn;
      by rewrite ?lookup_insert_ne, ?lookup_delete_ne. }
  assert (Heq : a_live (a_unref a e) !! e = Some (i, n) ∨ n = 0%nat ∧ a_live (a_unref a e) !! e = None).
  { unfold a_unref. rewrite He. case_decide; [case_decide|]; cbn; subst;
      rewrite ?lookup_insert_eq, ?lookup_delete_eq; auto. }
  assert (Hsub : ∀ x j m, a_live (a_unref a e) !! x = Some (j, m) → ∃ m', a_live a !! x = Some (j, m') ∧ (m <= m')%nat).
  { intros x j m Hj. destruct (decide (x = e)) as [->|Hx]; [|rewrite Hne in Hj by done; eauto].
    destruct Heq as [Heq|[_ Heq]]; rewrite Heq in Hj; [|done]. injection Hj as <- <-. eauto. }
  split; cbn [advance v_pins v_latest v_calls].
  - by rewrite Hcap.
  - intros Hoff. specialize (H2 Hoff). rewrite H2 in Hp. by apply Permutation_nil_r.
  - intros x. unfold unpin. rewrite (H3 e), (pinned_live _ _ _ _ He).
    destruct (decide (x = e)) as [->|Hx].
    + unfold pinned. destruct n as [|n]; [rewrite lookup_delete_eq|rewrite lookup_insert_eq].
      * by destruct Heq as [->|[_ ->]].
      * by destruct Heq as [->|[? _]].
    + rewrite (pinned_same a) by by apply Hne. rewrite <- H3.
      destruct n; [rewrite lookup_delete_ne by congruence|rewrite lookup_insert_ne by congruence]; done.
  - intros x j m. rewrite Hp. intros Hx (m' & Hj & _)%Hsub. eauto.
  - intros key x y z m El Hz Hk Hon. rewrite Hp.
    apply pinned_Some in Hz as (j & m' & (m1 & Hj & Hm)%Hsub & -> & ->). destruct m1 as [|m1]; [lia|].
    apply pinned_live in Hj. eauto.
  - rewrite Hp. lia.
  - intros x j m (m' & Hj & Hm)%Hsub. specialize (H7 _ _ _ Hj). lia.
Qed.

(** A call that changes nothing in the shard. *)
Lemma ok_advance on v k a :
  placed k a → shard_ok on v k a → shard_ok on (advance v (v_pins v) (v_latest v) []) k a.
Proof. intros Hp Ho. apply (ok_frame on v); simpl; auto. Qed.

Lemma find_live a key hs e :
  a_find a key hs = Some e → e ∈ cached a ∧ ∃ i n, a_live a !! e = Some (i, n) ∧ i_hash i = hs ∧ i_key i = key.
Proof.
  intros [Hc Hm]%a_find_Some. split; [done|]. unfold is_match in Hm.
  destruct (a_live a !! e) as [[i n]|]; [|done]. apply bool_decide_eq_true in Hm as [Hh Hk]. eauto.
Qed.

(** After [Erase] no entry is found under the key. *)
Definition forgotten (a : astate) (key : bytes) : Prop :=
  ∀ e i n, e ∈ cached a → a_live a !! e = Some (i, n) → i_key i ≠ key.

Lemma erase_forgotten on v k c a key :
  Rep c a → placed k a → shard_ok on v k a → forgotten (a_erase a key (HashSlice key)) key.
Proof.
  intros Hr Hp Ho e i n He Hi Hk. unfold a_erase in *.
  destruct (a_find a key (HashSlice key)) as [e'|] eqn:E; simpl in *.
  - destruct (find_live _ _ _ _ E) as (Hc' & j & m & Hj & _ & Hkj).
    rewrite cached_drop in He by eauto. apply elem_of_without in He as [Hne Hc].
    destruct (live_sub_drop a e' e i n) as [m' Hi']; [done|].
    pose proof (so_cached _ _ _ _ Ho _ _ _ Hc Hi') as E1.
    pose proof (so_cached _ _ _ _ Ho _ _ _ Hc' Hj) as E2. congruence.
  - pose proof (find_self _ _ _ _ _ Hr He Hi) as Ef. destruct (Hp _ _ _ Hi) as [Eh _].
    rewrite Eh, Hk in Ef. congruence.
Qed.

Definition forget (v : view Handle) (key : bytes) : view Handle :=
  {| v_pins := v_pins v; v_latest := delete key (v_latest v); v_inserted := v_inserted v;
     v_id := v_id v; v_calls := v_calls v |}.

Lemma ok_erase on v k c a key :
  Rep c a → placed k a → shard_ok on v k a →
  shard_ok on (forget v key) k (a_erase a key (HashSlice key)).
Proof.
  intros Hr Hp Ho. pose proof (erase_forgotten _ _ _ _ _ key Hr Hp Ho) as Hf.
  destruct Ho as [H1 H2 H3 H4 H5 H6 H7].
  set (a' := a_erase a key (HashSlice key)) in *.
  assert (Hpin : ∀ x, pinned a' x = pinned a x).
  { intros x. unfold a', a_erase. destruct (a_find a key (HashSlice key)); [apply pinned_drop|done]. }
  assert (Hsub : live_sub a a') by apply live_sub_drop_opt.
  assert (Hcap : a_cap a' = a_cap a).
  { unfold a', a_erase, a_drop_opt, a_drop, a_free. by repeat case_match. }
  assert (Hc : ∃ l, cached a' = l ∧ (∀ x, x ∈ l → x ∈ cached a) ∧ (length l <= length (cached a))%nat ∧
                    ∀ x, x ∈ cached a → x ∈ l ∨ ∃ i n, a_live a !! x = Some (i, n) ∧ i_key i = key).
  { unfold a', a_erase. destruct (a_find a key (HashSlice key)) as [e|] eqn:E; simpl; [|eauto 10].
    destruct (find_live _ _ _ _ E) as (_ & j & m & Hj & _ & Hkj). rewrite cached_drop by eauto.
    eexists. split; [done|]. split; [intros x [_ ?]%elem_of_without; done|].
    split; [apply length_filter|]. intros x Hx. destruct (decide (x = e)) as [->|Hne]; [right; eauto|].
    left. by apply elem_of_without. }
  destruct Hc as (l & El & Hl1 & Hl2 & Hl3).
  split; cbn [forget v_pins v_latest v_calls]; rewrite ?El.
  - by rewrite Hcap.
  - intros Hoff. rewrite (H2 Hoff) in Hl2. by apply nil_length_inv, Nat.le_0_r.
  - intros x. by rewrite Hpin.
  - intros x i n Hx Hi. rewrite <- El in Hx. rewrite lookup_delete_ne by by apply not_eq_sym, (Hf _ _ _ Hx Hi).
    rewrite El in Hx. destruct (Hsub _ _ _ Hi) as [m Hm]. eauto.
  - intros key' x y z n [Hk Ex]%lookup_delete_Some Hz Hkz Hon. rewrite Hpin in Hz.
    destruct (Hl3 x) as [?|(i & m & Hi & Hki)]; [eauto|done|]. exfalso.
    apply pinned_Some in Hz as (j & m' & Hj & -> & _). by simplify_eq.
  - lia.
  - intros x i n Hi. destruct (decide (n = 0%nat)) as [->|Hn]; [lia|].
    destruct n as [|n]; [done|]. apply pinned_live in Hi. rewrite Hpin in Hi.
    apply pinned_Some in Hi as (j & m & Hj & _ & [= ->]). specialize (H7 _ _ _ Hj). lia.
Qed.

(** [Insert] before its eviction loop erases the key and adds the entry. *)
Lemma fill_erase c a e i :
  Rep c a → a_live a !! e = None → 0 < a_cap a →
  a_fill a e i = a_add (a_erase a (i_key i) (i_hash i)) e i.
Proof.
  intros Hr He Hcap. unfold a_fill, a_erase. rewrite (proj2 (Z.ltb_lt _ _) Hcap).
  destruct (a_find a (i_key i) (i_hash i)) as [o|] eqn:E; [|done]. simpl.
  destruct (find_live _ _ _ _ E) as (Ho & j & n & Hj & _).
  assert (e ≠ o) as Hne by congruence. unfold a_drop, a_add, a_free. simpl.
  rewrite lookup_insert_ne, Hj, (proj2 (Z.ltb_lt _ _) Hcap) by done.
  assert (without o (a_use a ++ [e]) = without o (a_use a) ++ [e]) as Hu.
  { rewrite without_app. f_equal. apply without_notin. by rewrite list_elem_of_singleton. }
  destruct n as [|n]; cbn; rewrite Hu, (proj2 (Z.ltb_lt _ _) Hcap); [|done]. f_equal.
  by rewrite delete_insert_ne.
Qed.

Lemma ok_add on v k a e i :
  (∀ x, x ∈ cached a → is_Some (a_live a !! x)) → a_live a !! e = None → (on = true → forgotten a (i_key i)) →
  Shard (HashSlice (i_key i)) = k →
  shard_ok on v k a →
  shard_ok on (advance v (<[(k, e) := (entry_of i, 1%nat)]> (v_pins v))
                         (<[i_key i := ((k, e), entry_of i)]> (v_latest v)) [entry_of i]) k (a_add a e i).
Proof.
  intros Hlive He Hf Hk [H1 H2 H3 H4 H5 H6 H7].
  assert (Hc : cached (a_add a e i) = cached a ++ if on then [e] else []).
  { unfold cached, a_add. cbn [a_lru a_use]. rewrite H1. destruct on; [by rewrite <- app_assoc|by rewrite app_nil_r]. }
  assert (Hne : ∀ x, x ∈ cached a → x ≠ e) by (intros x Hx ->; destruct (Hlive e Hx); congruence).
  split; cbn [advance v_pins v_latest v_calls].
  - done.
  - intros ->. by rewrite Hc, app_nil_r, H2.
  - intros x. unfold pinned. cbn [a_add a_live]. destruct (decide (x = e)) as [->|Hx].
    + by rewrite !lookup_insert_eq.
    + rewrite !lookup_insert_ne by congruence. apply H3.
  - intros x j n. rewrite Hc. intros [Hx|Hx]%elem_of_app.
    + cbn [a_add a_live]. rewrite lookup_insert_ne by by apply not_eq_sym, Hne. intros Hj.
      destruct on; [|rewrite H2 in Hx by done; by apply elem_of_nil in Hx].
      rewrite lookup_insert_ne; [eauto|]. intros Hkj. by apply (Hf eq_refl x j n Hx Hj).
    + destruct on; [|by apply elem_of_nil in Hx]. apply list_elem_of_singleton in Hx as ->.
      cbn [a_add a_live]. rewrite lookup_insert_eq. intros [= <- <-]. apply lookup_insert_eq.
  - intros key x y z n Hl Hz Hkz ->. rewrite Hc. apply elem_of_app.
    destruct (decide (x = e)) as [->|Hx]; [right; by apply list_elem_of_singleton|left].
    rewrite (pinned_same a) in Hz by (cbn [a_add a_live]; by rewrite lookup_insert_ne).
    apply lookup_insert_Some in Hl as [[_ [= ? _]]|[_ Hl]]; [done|]. eauto.
  - rewrite Hc, length_app. destruct on; simpl; lia.
  - intros x j n. cbn [a_add a_live]. intros [[<- [= <- <-]]|[_ Hj]]%lookup_insert_Some; [lia|].
    specialize (H7 _ _ _ Hj). lia.
Qed.

(** Eviction takes idle entries. *)
Lemma evicts_pinned all c a a' l1 x :
  Rep c a → evicts all a a' l1 → pinned a' x = pinned a x.
Proof.
  intros Hr [V1 V2 V3 V4 V5 V6 V7]. unfold pinned. rewrite V4. case_decide as Hx; [|done].
  assert (x ∈ a_lru a) as [i ->]%(r_idle _ _ _ Hr) by (rewrite V1; apply elem_of_app; auto). done.
Qed.

Lemma ok_evict on v k all c a a' l1 :
  Rep c a → evicts all a a' l1 → shard_ok on v k a → shard_ok on v k a'.
Proof.
  intros Hr He. pose proof (λ x, evicts_pinned _ _ _ _ _ x Hr He) as Hpin.
  destruct He as [V1 V2 V3 V4 V5 V6 V7]. intros [H1 H2 H3 H4 H5 H6 H7].
  assert (Hc : cached a = l1 ++ cached a') by (unfold cached; by rewrite V1, V2, app_assoc).
  assert (Hsub : ∀ x p, a_live a' !! x = Some p → a_live a !! x = Some p).
  { intros x p. rewrite V4. by case_decide. }
  split.
  - by rewrite V3.
  - intros Hoff. rewrite (H2 Hoff) in Hc. symmetry in Hc. by apply app_nil in Hc as [_ ?].
  - intros x. by rewrite Hpin.
  - intros x i n Hx Hi%Hsub. apply (H4 x i n); [|done]. rewrite Hc. apply elem_of_app. auto.
  - intros key x y z n El Hz Hk Hon. rewrite Hpin in Hz. pose proof (H5 _ _ _ _ _ El Hz Hk Hon) as Hx.
    unfold cached in Hx |- *. rewrite V2. apply elem_of_app in Hx as [Hx|Hx]; apply elem_of_app; [|auto].
    apply (r_idle _ _ _ Hr) in Hx as [i Hi]. apply pinned_Some in Hz as (j & m & Hj & _). congruence.
  - rewrite Hc, length_app in H6. lia.
  - intros x i n Hi%Hsub. eauto.
Qed.

(** After [Prune] every cached entry is in use. *)
Lemma ok_prune on v k c a :
  Rep c a → shard_ok on v k a →
  shard_ok on (advance v (v_pins v) (filter (λ p, in_use v p.1 = true) (v_latest v)) []) k (a_prune a).
Proof.
  intros Hr Ho. destruct (a_evict_spec _ true c a Hr (le_n _)) as [l1 He]. fold (a_prune a) in He.
  pose proof (λ x, evicts_pinned _ _ _ _ _ x Hr He) as Hpin.
  pose proof (ok_evict _ _ _ _ _ _ _ _ Hr He Ho) as [H1 H2 H3 H4 H5 H6 H7].
  destruct He as [V1 V2 V3 V4 V5 [V6|[? _]] V7]; [|done].
  split; cbn [advance v_pins v_latest v_calls]; try done.
  - intros x i n Hx Hi. apply map_lookup_filter_Some. pose proof (H4 _ _ _ Hx Hi) as El. split; [done|].
    unfold in_use. simpl. rewrite El, H3, Hpin. unfold cached in Hx. rewrite V6, V2 in Hx.
    destruct (r_used _ _ _ Hr _ Hx) as (j & m & Hj).
    assert (j = i) as ->. { rewrite V4 in Hi. case_decide; [done|]. congruence. }
    rewrite (pinned_live _ _ _ _ Hj). by apply bool_decide_eq_true.
  - intros key x y z n [El _]%map_lookup_filter_Some. eauto.
  - lia.
  - intros x i n Hi. specialize (H7 _ _ _ Hi). lia.
Qed.

Lemma ok_insert on v k c c1 a e i :
  Rep c a → Rep c1 (a_fill a e i) → placed k a → shard_ok on v k a → a_live a !! e = None →
  i_hash i = HashSlice (i_key i) → Shard (i_hash i) = k →
  shard_ok on (advance v (<[(k, e) := (entry_of i, 1%nat)]> (v_pins v))
                         (<[i_key i := ((k, e), entry_of i)]> (v_latest v)) [entry_of i]) k (a_insert a e i).
Proof.
  intros Hr Hr1 Hp Ho He Hh Hk.
  destruct (a_evict_spec _ false c1 _ Hr1 (le_n _)) as [l1 Hev]. fold (a_insert a e i) in Hev.
  eapply ok_evict; [exact Hr1|exact Hev|]. pose proof (so_on _ _ _ _ Ho) as Hon. destruct on.
  - apply Z.ltb_lt in Hon. rewrite (fill_erase _ _ _ _ Hr He Hon), Hh.
    destruct (Rep_Erase c a (i_key i) (HashSlice (i_key i)) Hr) as (c2 & _ & Hr2).
    pose proof (ok_add true (forget v (i_key i)) k (a_erase a (i_key i) (HashSlice (i_key i))) e i) as Hadd.
    unfold advance in *. cbn [forget v_pins v_latest v_calls v_inserted v_id] in Hadd.
    rewrite insert_delete_eq in Hadd. apply Hadd.
    + intros x Hx. destruct (cached_live _ _ _ _ Hr2 Hx) as (j & n & ->). eauto.
    + destruct (a_live (a_erase _ _ _) !! e) as [[j n]|] eqn:E; [|done].
      destruct (live_sub_drop_opt a (a_find a (i_key i) (HashSlice (i_key i))) e j n E) as [m Hm]. congruence.
    + intros _. by eapply erase_forgotten.
    + by rewrite <- Hh.
    + by eapply ok_erase.
  - assert (a_fill a e i = a_add a e i) as -> by (unfold a_fill; by rewrite Hon).
    apply ok_add; [|done|done|by rewrite <- Hh|done].
    intros x Hx. destruct (cached_live _ _ _ _ Hr Hx) as (j & n & ->). eauto.
Qed.

(** ** Lemmas: all shards *)

Lemma concat_insert {A} (f : A → list entry) (l : list A) k x y (d : list entry) :
  l !! k = Some x → f y ≡ₚ f x ++ d → concat (f <$> <[k := y]> l) ≡ₚ concat (f <$> l) ++ d.
Proof.
  intros Hx Hy. rewrite <- (take_drop_middle _ _ _ Hx) at 2.
  rewrite (insert_take_drop l k y) by by eapply lookup_lt_Some.
  rewrite !fmap_app, !concat_app. simpl. rewrite Hy, <- !app_assoc. do 2 f_equiv. apply Permutation_app_comm.
Qed.

(** One shard changes, and what the client knows of it. *)
Lemma sharded_update on s v A k a a' s' pins latest ins :
  sharded_rep on s v A → A !! k = Some a → SRep s' (<[k := a']> A) → last_id_ s' = last_id_ s →
  shard_ok on (advance v pins latest ins) k a' →
  (∀ j e, j ≠ k → pins !! (j, e) = v_pins v !! (j, e)) →
  (∀ key, Shard (HashSlice key) ≠ k → latest !! key = v_latest v !! key) →
  content a' ≡ₚ content a ++ ins →
  sharded_rep on s' (advance v pins latest ins) (<[k := a']> A).
Proof.
  intros [R1 R2 R3 R4 R5] Ha Hs Hid Ho Hpins Hl Hc. split; cbn [advance v_pins v_latest v_calls v_inserted v_id].
  - done.
  - intros j b [(<- & <- & _)|[Hj Hb]]%list_lookup_insert_Some; [done|].
    apply (ok_frame on v); cbn [advance v_pins v_latest v_calls]; [by apply (s_placed _ _ R1)|by apply R2| | |lia].
    + intros e. apply Hpins. congruence.
    + intros key Hk. apply Hl. congruence.
  - intros j e x Hx. destruct (decide (j = k)) as [->|Hj].
    + rewrite list_lookup_insert_eq by by eapply lookup_lt_Some. done.
    + rewrite Hpins in Hx by done. rewrite list_lookup_insert_ne by congruence. eauto.
  - by rewrite R4, (concat_insert _ _ _ _ _ _ Ha Hc).
  - congruence.
Qed.

(** ** Lemmas: the calls *)

(** What each call has to give. *)
Definition answers (on : bool) (s : ShardedLRUCache) (v : view Handle) (cl : call Handle) : Prop :=
  ∃ a s' v', perform cl s = Some (a, s') ∧ view_step on v cl a = Some v' ∧ ∃ A', sharded_rep on s' v' A'.

Lemma shard_of on s v A k a :
  sharded_rep on s v A → A !! k = Some a →
  placed k a ∧ shard_ok on v k a ∧ ∃ c, Rep c a.
Proof.
  intros [R1 R2 _ _ _] Ha. split; [by apply (s_placed _ _ R1)|]. split; [by apply R2|].
  destruct (Forall2_lookup_r _ _ _ _ _ (s_shards _ _ R1) Ha) as (c & _ & Hr). eauto.
Qed.

Lemma answers_Insert on s v A key val ch d :
  sharded_rep on s v A → Z.of_nat (v_calls v) < kMaxCalls → answers on s v (Call_Insert key val ch d).
Proof.
  intros HR Hn. destruct (SRep_Insert s A key val ch d (sr_rep _ _ _ _ HR)) as (a & Ea & H).
  destruct (shard_of _ _ _ _ _ _ HR Ea) as (Hp & Ho & c & Hr). unfold kMaxCalls in Hn.
  destruct H as (e & s' & c1 & E & Hl & Hs & Hid & Hr1); [pose proof (so_size _ _ _ _ Ho); lia|].
  unfold answers. cbn [perform Cache_Insert ShardedLRUCache_Cache]. rewrite E. cbn [mbind option_bind].
  eexists _, _, _. split; [done|]. cbn [view_step].
  rewrite decide_True by (rewrite (so_pins _ _ _ _ Ho); unfold pinned; by rewrite Hl).
  split; [done|]. eexists.
  set (i := {| i_key := key; i_hash := HashSlice key; i_value := val; i_charge := ch; i_deleter := d |}) in *.
  apply (sharded_update on s v A _ a _ s' _ _ _ HR Ea Hs Hid).
  - by apply (ok_insert _ _ _ c c1 a e i).
  - intros j x Hj. rewrite lookup_insert_ne; [done|congruence].
  - intros key' Hk. rewrite lookup_insert_ne; [done|congruence].
  - unfold a_insert. rewrite content_evict. unfold a_fill, a_drop_opt.
    destruct (if 0 <? a_cap a then _ else _); rewrite ?content_drop; by apply content_add.
Qed.

Lemma answers_Lookup on s v A key :
  sharded_rep on s v A → Z.of_nat (v_calls v) < kMaxCalls → answers on s v (Call_Lookup key).
Proof.
  intros HR Hn. destruct (SRep_Lookup s A key (sr_rep _ _ _ _ HR)) as (a & Ea & H).
  destruct (shard_of _ _ _ _ _ _ HR Ea) as (Hp & Ho & c & Hr). unfold kMaxCalls in Hn.
  destruct H as (s' & E & Hs & Hid); [intros e i n Hi; pose proof (so_refs _ _ _ _ Ho _ _ _ Hi); lia|].
  unfold answers. cbn [perform Cache_Lookup ShardedLRUCache_Cache]. rewrite E. cbn [mbind option_bind].
  unfold a_lookup in *.
  destruct (a_find a key (HashSlice key)) as [e|] eqn:Ef; cbn [fst snd fmap option_fmap option_map] in *.
  - destruct (find_live _ _ _ _ Ef) as (Hc & i & n & Hi & Hh & <-).
    eexists _, _, _. split; [done|]. cbn [view_step].
    rewrite (so_cached _ _ _ _ Ho _ _ _ Hc Hi). cbn [mbind option_bind].
    rewrite decide_True; [split; [done|]|].
    2:{ rewrite (so_pins _ _ _ _ Ho). unfold pinned. rewrite Hi. by destruct n. }
    eexists. apply (sharded_update on s v A _ a _ s' _ _ _ HR Ea Hs Hid).
    + by eapply ok_ref.
    + intros j x Hj. unfold pin. rewrite lookup_insert_ne; [done|congruence].
    + done.
    + rewrite app_nil_r. apply content_ref.
  - eexists _, _, _. split; [done|]. cbn [view_step]. destruct (on && in_use v key) eqn:Eu.
    + exfalso. apply andb_true_iff in Eu as [-> Eu]. unfold in_use in Eu.
      destruct (v_latest v !! key) as [[[k e] x]|] eqn:El; [|done].
      destruct (v_pins v !! (k, e)) as [[y n]|] eqn:Ey; [|done]. apply bool_decide_eq_true in Eu.
      destruct (sr_pins _ _ _ _ HR _ _ _ Ey) as [b Hb].
      destruct (shard_of _ _ _ _ _ _ HR Hb) as (Hpb & Hob & _).
      rewrite (so_pins _ _ _ _ Hob) in Ey. pose proof (placed_pinned _ _ _ _ _ Hpb Ey) as Hk.
      rewrite Eu in Hk. subst k. rewrite Ea in Hb. injection Hb as <-.
      pose proof (so_use _ _ _ _ Ho _ _ _ _ _ El Ey Eu eq_refl) as Hc.
      apply pinned_Some in Ey as (i & m & Hi & -> & _).
      pose proof (find_self _ _ _ _ _ Hr Hc Hi) as Ef'. destruct (Hp _ _ _ Hi) as [Eh _].
      change (entry_key (entry_of i)) with (i_key i) in Eu. rewrite Eh, Eu in Ef'. congruence.
    + split; [done|]. eexists.
      apply (sharded_update on s v A _ a _ s' _ _ _ HR Ea Hs Hid); try done.
      * by apply ok_advance.
      * by rewrite app_nil_r.
Qed.

Lemma pin_live on s v A k e x n :
  sharded_rep on s v A → v_pins v !! (k, e) = Some (x, n) →
  ∃ a i m, A !! k = Some a ∧ a_live a !! e = Some (i, S m) ∧ x = entry_of i.
Proof.
  intros HR Hx. destruct (sr_pins _ _ _ _ HR _ _ _ Hx) as [a Ha].
  destruct (shard_of _ _ _ _ _ _ HR Ha) as (_ & Ho & _).
  rewrite (so_pins _ _ _ _ Ho) in Hx. apply pinned_Some in Hx as (i & m & Hi & -> & _). eauto 6.
Qed.

(** A call that changes nothing. *)
Lemma rep_advance on s v A :
  sharded_rep on s v A → sharded_rep on s (advance v (v_pins v) (v_latest v) []) A.
Proof.
  intros [R1 R2 R3 R4 R5]. split; cbn [advance v_pins v_latest v_calls v_inserted v_id]; try done.
  - intros k a Ha. apply ok_advance; [by apply (s_placed _ _ R1)|by apply R2].
  - by rewrite app_nil_r.
Qed.

Lemma answers_Release on s v A h :
  sharded_rep on s v A → allowed v (Call_Release h) = true → answers on s v (Call_Release h).
Proof.
  intros HR [[x n] Hx]%bool_decide_eq_true. destruct h as [k e].
  destruct (pin_live _ _ _ _ _ _ _ _ HR Hx) as (a & i & m & Ea & Hi & ->).
  destruct (shard_of _ _ _ _ _ _ HR Ea) as (Hp & Ho & c & Hr).
  destruct (SRep_handle s A k e a i m (sr_rep _ _ _ _ HR) Ea Hi) as (_ & s' & E & Hs & Hid).
  unfold answers. cbn [perform Cache_Release ShardedLRUCache_Cache]. rewrite E. cbn [mbind option_bind].
  eexists _, _, _. split; [done|]. split; [done|]. eexists.
  apply (sharded_update on s v A _ a _ s' _ _ _ HR Ea Hs Hid).
  - by eapply ok_unref.
  - intros j y Hj. unfold unpin. rewrite Hx.
    destruct n as [|[|n]]; [rewrite lookup_delete_ne by congruence..|rewrite lookup_insert_ne by congruence]; done.
  - done.
  - rewrite app_nil_r. apply content_unref.
Qed.

Lemma answers_Value on s v A h :
  sharded_rep on s v A → allowed v (Call_Value h) = true → answers on s v (Call_Value h).
Proof.
  intros HR [[x n] Hx]%bool_decide_eq_true. destruct h as [k e].
  destruct (pin_live _ _ _ _ _ _ _ _ HR Hx) as (a & i & m & Ea & Hi & ->).
  destruct (SRep_handle s A k e a i m (sr_rep _ _ _ _ HR) Ea Hi) as (E & _).
  unfold answers. cbn [perform Cache_Value ShardedLRUCache_Cache]. rewrite E. cbn [mbind option_bind].
  eexists _, _, _. split; [done|]. cbn [view_step]. rewrite Hx. cbn [mbind option_bind].
  rewrite decide_True by done. split; [done|]. eexists. by apply rep_advance.
Qed.

Lemma answers_Erase on s v A key : sharded_rep on s v A → answers on s v (Call_Erase key).
Proof.
  intros HR. destruct (SRep_Erase s A key (sr_rep _ _ _ _ HR)) as (a & s' & Ea & E & Hs & Hid).
  destruct (shard_of _ _ _ _ _ _ HR Ea) as (Hp & Ho & c & Hr).
  unfold answers. cbn [perform Cache_Erase ShardedLRUCache_Cache]. rewrite E. cbn [mbind option_bind].
  eexists _, _, _. split; [done|]. split; [done|]. eexists.
  apply (sharded_update on s v A _ a _ s' _ _ _ HR Ea Hs Hid).
  - eapply ok_frame; [|by eapply ok_erase|done|done|simpl; lia].
    eapply live_sub_placed; [apply live_sub_drop_opt|done].
  - done.
  - intros key' Hk. rewrite lookup_delete_ne; [done|congruence].
  - rewrite app_nil_r. apply content_erase.
Qed.

Lemma answers_Prune on s v A : sharded_rep on s v A → answers on s v Call_Prune.
Proof.
  intros HR. destruct (SRep_Prune s A (sr_rep _ _ _ _ HR)) as (s' & E & Hs & Hid).
  unfold answers. cbn [perform Cache_Prune ShardedLRUCache_Cache]. rewrite E. cbn [mbind option_bind].
  eexists _, _, _. split; [done|]. split; [done|]. exists (a_prune <$> A).
  pose proof HR as [R1 R2 R3 R4 R5]. split; cbn [advance v_pins v_latest v_calls v_inserted v_id]; try done.
  - intros k a'. rewrite list_lookup_fmap. intros (a & Ea & ->)%fmap_Some.
    destruct (shard_of _ _ _ _ _ _ HR Ea) as (_ & Ho & c & Hr). by eapply ok_prune.
  - intros k e x Hx. rewrite list_lookup_fmap. apply fmap_is_Some. eauto.
  - rewrite app_nil_r, R4. clear. induction A as [|a A IH]; [done|]. simpl.
    by rewrite <- IH, (content_evict _ true a : content (a_prune a) ≡ₚ _).
  - congruence.
Qed.

Lemma answers_NewId on s v A : sharded_rep on s v A → answers on s v Call_NewId.
Proof.
  intros [R1 R2 R3 R4 R5]. unfold answers. cbn [perform Cache_NewId ShardedLRUCache_Cache NewId].
  eexists _, _, _. split; [done|]. cbn [view_step]. rewrite decide_True by (by rewrite R5).
  split; [done|]. exists A. split; cbn [v_pins v_latest v_calls v_inserted v_id last_id_]; try done.
  - by destruct R1.
  - intros k a Ha. apply (ok_frame on v); simpl; auto. by apply (s_placed _ _ R1).
Qed.

Lemma answers_TotalCharge on s v A : sharded_rep on s v A → answers on s v Call_TotalCharge.
Proof.
  intros HR. unfold answers. cbn [perform Cache_TotalCharge ShardedLRUCache_Cache].
  eexists _, _, _. split; [done|]. cbn [view_step]. rewrite decide_False.
  - split; [done|]. exists A. by apply rep_advance.
  - intros [El Hn]. apply Hn. rewrite (SRep_TotalCharge _ _ (sr_rep _ _ _ _ HR)).
    replace (foldr _ 0 A) with 0; [done|]. symmetry.
    assert (∀ a, a ∈ A → cached a = []) as Hc.
    { intros a [k Ea]%list_elem_of_lookup. destruct (shard_of _ _ _ _ _ _ HR Ea) as (_ & Ho & c & Hr).
      destruct (cached a) as [|e l] eqn:Ec; [done|].
      assert (e ∈ cached a) as He by (rewrite Ec; apply elem_of_cons; auto).
      destruct (cached_live _ _ _ _ Hr He) as (i & n & Hi).
      pose proof (so_cached _ _ _ _ Ho _ _ _ He Hi) as E. rewrite El in E. done. }
    clear -Hc. induction A as [|a A IH]; [done|]. simpl. rewrite (Hc a) by (apply elem_of_cons; auto).
    rewrite IH; [done|]. intros b Hb. apply Hc, elem_of_cons. auto.
Qed.

Lemma Sharded_answers on s v A cl :
  sharded_rep on s v A → allowed v cl = true → Z.of_nat (v_calls v) < kMaxCalls → answers on s v cl.
Proof.
  intros HR Hal Hn. destruct cl.
  - by eapply answers_Insert.
  - by eapply answers_Lookup.
  - by eapply answers_Release.
  - by eapply answers_Value.
  - by eapply answers_Erase.
  - by eapply answers_NewId.
  - by eapply answers_Prune.
  - by eapply answers_TotalCharge.
Qed.

(** ** Lemmas: the entries and the destructor *)

(** The entries alive in the shards from number [k] on. *)
Fixpoint held_from (k : nat) (A : list astate) : list (Handle * entry) :=
  match A with
  | [] => []
  | a :: A => ((λ p : positive * (info * nat), ((k, p.1), entry_of p.2.1)) <$> map_to_list (a_live a))
                ++ held_from (S k) A
  end.

Lemma held_from_spec k A h x :
  (h, x) ∈ held_from k A ↔
  ∃ j a i n, h.1 = (k + j)%nat ∧ A !! j = Some a ∧ a_live a !! h.2 = Some (i, n) ∧ x = entry_of i.
Proof.
  revert k. induction A as [|a A IH]; intros k; simpl.
  { split; [by intros ?%elem_of_nil|by intros (j & a & i & n & _ & ? & _)]. }
  rewrite elem_of_app, IH, list_elem_of_fmap. split.
  - intros [([e [i n]] & [= -> ->] & Hi%elem_of_map_to_list)|(j & b & i & n & E & Hb & Hi & ->)].
    + exists 0%nat, a, i, n. split; [simpl; lia|]. auto.
    + exists (S j), b, i, n. split; [lia|]. auto.
  - intros ([|j] & b & i & n & E & Hb & Hi & ->); simpl in Hb.
    + injection Hb as ->. left. destruct h as [k' e]. simpl in E, Hi. exists (e, (i, n)).
      split; [simpl; do 2 f_equal; lia|by apply elem_of_map_to_list].
    + right. exists j, b, i, n. split; [lia|]. auto.
Qed.

Lemma held_from_NoDup k A : NoDup ((held_from k A).*1).
Proof.
  revert k. induction A as [|a A IH]; intros k; simpl; [constructor|].
  rewrite fmap_app. apply NoDup_app. split; [|split; [|apply IH]].
  - rewrite <- list_fmap_compose.
    assert (fst ∘ (λ p : positive * (info * nat), ((k, p.1), entry_of p.2.1)) = pair k ∘ fst) as -> by done.
    rewrite list_fmap_compose. apply NoDup_fmap_2; [intros ?? [=]; done|]. apply NoDup_fst_map_to_list.
  - intros h [[h1 x] [-> Hx]]%list_elem_of_fmap [[h2 y] [E Hy]]%list_elem_of_fmap. simpl in E. subst h2.
    apply list_elem_of_fmap in Hx as (p & [= -> _] & _).
    apply held_from_spec in Hy as (j & _ & _ & _ & E & _). simpl in E. lia.
Qed.

Lemma held_from_snd k A : (held_from k A).*2 = concat ((λ a, entries (a_live a)) <$> A).
Proof.
  revert k. induction A as [|a A IH]; intros k; simpl; [done|].
  rewrite fmap_app, IH. unfold entries. by rewrite <- list_fmap_compose.
Qed.

Lemma deleted_concat cs A :
  Forall2 Rep cs A → concat (deleted <$> cs) = concat (a_deleted <$> A).
Proof. induction 1 as [|c a cs A Hr _ IH]; [done|]. simpl. f_equal; [apply (r_deleted _ _ _ Hr)|exact IH]. Qed.

Lemma content_concat A :
  concat (content <$> A) ≡ₚ concat (a_deleted <$> A) ++ concat ((λ a, entries (a_live a)) <$> A).
Proof.
  induction A as [|a A IH]; [done|]. simpl. rewrite IH. unfold content.
  rewrite <- !app_assoc. apply Permutation_app_head. rewrite !app_assoc.
  apply Permutation_app_tail, Permutation_app_comm.
Qed.

Lemma Sharded_entries on s v A :
  sharded_rep on s v A →
  ∃ held : list (Handle * entry), NoDup (held.*1) ∧ v_inserted v ≡ₚ Cache_deleted s ++ held.*2 ∧
    ∀ h x n, v_pins v !! h = Some (x, n) → (h, x) ∈ held.
Proof.
  intros HR. exists (held_from 0 A). split; [apply held_from_NoDup|]. split.
  - rewrite (sr_content _ _ _ _ HR), content_concat, held_from_snd. cbn [Cache_deleted ShardedLRUCache_Cache].
    by rewrite (deleted_concat _ _ (s_shards _ _ (sr_rep _ _ _ _ HR))).
  - intros [k e] x n Hx. destruct (pin_live _ _ _ _ _ _ _ _ HR Hx) as (a & i & m & Ea & Hi & ->).
    apply held_from_spec. exists k, a, i, (S m). auto.
Qed.

#[local] Instance deletions_Permutation live : Proper (Permutation ==> Permutation) (deletions live).
Proof. intros l l' Hp. unfold deletions. by rewrite Hp. Qed.

(** With no entry in use, the entries alive are the idle ones. *)
Lemma idle_entries c a :
  Rep c a → (∀ e, pinned a e = None) → a_use a = [] ∧ deletions (a_live a) (a_lru a) ≡ₚ entries (a_live a).
Proof.
  intros Hr Hp. split.
  - destruct (a_use a) as [|e l] eqn:E; [done|]. destruct (r_used _ _ _ Hr e) as (i & n & Hi).
    { rewrite E. apply elem_of_cons. auto. }
    apply pinned_live in Hi. by rewrite Hp in Hi.
  - assert (a_lru a ≡ₚ (map_to_list (a_live a)).*1) as ->.
    { apply NoDup_Permutation.
      - destruct (cached_nodup _ _ _ Hr) as (Hnd & _). by apply NoDup_app in Hnd as (? & _).
      - apply NoDup_fst_map_to_list.
      - intros e. rewrite (r_idle _ _ _ Hr). split.
        + intros [i Hi]. apply list_elem_of_fmap. exists (e, (i, 0%nat)). split; [done|].
          by apply elem_of_map_to_list.
        + intros ([e' [i [|n]]] & -> & Hi%elem_of_map_to_list)%list_elem_of_fmap; simpl; [eauto|].
          apply pinned_live in Hi. by rewrite Hp in Hi. }
    unfold entries. assert (∀ p, p ∈ map_to_list (a_live a) → a_live a !! p.1 = Some p.2) as Hl.
    { intros [e p] He. by apply elem_of_map_to_list. }
    revert Hl. generalize (map_to_list (a_live a)). intros l Hl. unfold deletions.
    induction l as [|[e [i n]] l IH]; [done|]. simpl.
    assert (a_live a !! e = Some (i, n)) as -> by (apply (Hl (e, (i, n))), elem_of_cons; auto).
    simpl. rewrite IH; [done|]. intros p Hp'. apply Hl, elem_of_cons. auto.
Qed.

Lemma Sharded_delete_spec on s v A :
  sharded_rep on s v A → v_pins v = ∅ →
  ∃ s', Sharded_delete s = Some s' ∧ concat (deleted <$> shard_ s') ≡ₚ v_inserted v.
Proof.
  intros HR Hv.
  assert (∀ a, a ∈ A → ∀ e, pinned a e = None) as Hp.
  { intros a [k Ea]%list_elem_of_lookup e. destruct (shard_of _ _ _ _ _ _ HR Ea) as (_ & Ho & _).
    by rewrite <- (so_pins _ _ _ _ Ho), Hv. }
  destruct HR as [R1 _ _ R4 _]. unfold Sharded_delete.
  assert (∃ cs, mapM LRUCache_destroy (shard_ s) = Some cs ∧
                concat (deleted <$> cs) ≡ₚ concat (content <$> A)) as (cs & E & Hcs).
  { pose proof (s_shards _ _ R1) as H2. clear R1 R4. induction H2 as [|c a cs A Hr _ IH]; [by exists []|].
    destruct IH as (cs' & E & Hcs); [intros b Hb; apply Hp, elem_of_cons; auto|].
    destruct (idle_entries _ _ Hr) as [Hu Hd]; [apply Hp, elem_of_cons; auto|].
    pose proof (Rep_destroy _ _ Hr) as H. rewrite Hu in H. destruct H as (c' & Ec & Hc).
    exists (c' :: cs'). simpl. rewrite Ec. cbn [mbind option_bind]. rewrite E. split; [done|].
    simpl. rewrite Hc, Hd, Hcs. done. }
  rewrite E. eexists. split; [done|]. simpl. by rewrite Hcs, R4.
Qed.

(** ** The interface *)

#[export] Instance ShardedLRUCache_Laws : CacheLaws (H:=Handle) ShardedLRUCache := {|
  cache_rep on s v := ∃ A, sharded_rep on s v A;
  law_call on s v cl H := match H with ex_intro _ A HR => Sharded_answers on s v A cl HR end;
  law_entries on s v H := match H with ex_intro _ A HR => Sharded_entries on s v A HR end;
  law_delete on s v H := match H with ex_intro _ A HR => Sharded_delete_spec on s v A HR end |}.

Lemma NewLRUCache_rep cap :
  0 <= cap → cap + 15 < 2 ^ 64 →
  ∃ s, NewLRUCache cap = Some s ∧ cache_rep (0 <? cap) s view_new.
Proof.
  intros H0 H1. destruct (SRep_new cap H0 H1) as (s & E & Hs & Hid & Hcap). exists s. split; [done|].
  exists (replicate 16 (a_new (per_shard cap))). split; try done.
  - intros k a [-> Hk]%lookup_replicate. split; try done. simpl.
    destruct (Z.ltb_spec 0 cap), (Z.ltb_spec 0 (per_shard cap)); lia || done.
Qed.

(** ** Properties *)

(** C3: the promises of the cache's interface, kept by the sharded cache in every
    session of a client: whatever calls the client makes, releasing and reading
    only handles it holds, each call returns and no assertion fails, with an
    answer its interface allows.  A lookup finds the very entry that was inserted
    last under the key, with the handle of the insertion, or nothing if it was
    erased, replaced or is not in use; a handle keeps its value until it is
    released; a new handle is not one the client holds.  Every entry inserted
    either had its deleter called, once, or is held by the cache, as all entries
    in use are; when the client has released all of them, destroying the cache
    calls the deleters that are left, each once. *)
Theorem Cache_contract cap :
  0 <= cap → cap + 15 < 2 ^ 64 →
  ∃ s0, NewLRUCache cap = Some s0 ∧
  ∀ s v, reached (0 <? cap) s0 s v → Z.of_nat (v_calls v) < kMaxCalls →
    (∀ cl, allowed v cl = true → ∃ a s' v', perform cl s = Some (a, s') ∧
       view_step (0 <? cap) v cl a = Some v' ∧ reached (0 <? cap) s0 s' v') ∧
    (∃ held : list (Handle * entry), NoDup (held.*1) ∧ v_inserted v ≡ₚ Cache_deleted s ++ held.*2 ∧
       ∀ h x n, v_pins v !! h = Some (x, n) → (h, x) ∈ held) ∧
    (v_pins v = ∅ → ∃ s', Cache_delete s = Some s' ∧ Cache_deleted s' ≡ₚ v_inserted v).
Proof.
  intros H0 H1. destruct (NewLRUCache_rep cap H0 H1) as (s0 & E & Hnew). exists s0. split; [done|].
  intros s v Hr Hn. pose proof (reached_rep _ _ _ _ Hnew Hr (Z.lt_le_incl _ _ Hn)) as Hrep.
  split; [|split].
  - intros cl Hal. destruct (law_call _ _ _ _ Hrep Hal Hn) as (a & s' & v' & Ea & Ev & _).
    exists a, s', v'. split; [done|]. split; [done|]. by eapply reached_call.
  - by eapply law_entries.
  - by eapply law_delete.
Qed.

(** ** Witnesses *)

(** The client inserts a value, reads it, releases it and destroys the cache. *)
Lemma Cache_contract_witness :
  ∃ s0 h s1 s2 s3 v3 s', NewLRUCache 100 = Some s0 ∧
    perform (Call_Insert [z2b 65] 7 1 0) s0 = Some (Ans_handle h, s1) ∧
    perform (Call_Value h) s1 = Some (Ans_value 7, s2) ∧
    perform (Call_Release h) s2 = Some (Ans_void, s3) ∧ reached true s0 s3 v3 ∧
    Cache_delete s3 = Some s' ∧ Cache_deleted s' ≡ₚ [(0, [z2b 65], 7)].
Proof.
  destruct (Cache_contract 100) as (s0 & E0 & H); [discriminate|reflexivity|].
  destruct (H s0 view_new (reached_new _ _) eq_refl) as (Hc0 & _).
  destruct (Hc0 (Call_Insert [z2b 65] 7 1 0) eq_refl) as ([h| | | | | ] & s1 & v1 & E1 & V1 & R1); try discriminate V1.
  cbn [view_step v_pins view_new] in V1. rewrite decide_True in V1 by done. injection V1 as <-.
  destruct (H _ _ R1 eq_refl) as (Hc1 & _).
  destruct (Hc1 (Call_Value h)) as ([| |x| | | ] & s2 & v2 & E2 & V2 & R2); try discriminate V2.
  { cbn [allowed advance v_pins]. rewrite lookup_insert_eq. reflexivity. }
  cbn [view_step v_pins advance] in V2. rewrite lookup_insert_eq in V2. cbn [mbind option_bind] in V2.
  destruct (decide _) as [Hx|]; [|discriminate V2]. injection V2 as <-. subst x.
  destruct (H _ _ R2 eq_refl) as (Hc2 & _).
  destruct (Hc2 (Call_Release h)) as ([| | | | | ] & s3 & v3 & E3 & V3 & R3); try discriminate V3.
  { cbn [allowed advance v_pins]. rewrite lookup_insert_eq. reflexivity. }
  injection V3 as <-. cbn [advance v_pins v_latest v_inserted v_calls] in R3.
  destruct (H _ _ R3 eq_refl) as (_ & _ & Hd). cbn [advance v_pins v_inserted] in Hd.
  destruct Hd as (s' & Ed & Hdel).
  { unfold unpin. rewrite lookup_insert_eq, delete_insert_eq. reflexivity. }
  do 7 eexists. split; [exact E0|]. split; [exact E1|]. split; [exact E2|]. split; [exact E3|].
  split; [exact R3|]. split; [exact Ed|]. exact Hdel.
Defined.
