(* ===== verification/CacheAtomic.v ===== *)
(** * The cache of several threads, with atomic calls (include/lldb/cache.h)

    What the mutexes of the cache are for: threads call it, at some moment of each call
    the cache performs it at once, as if it were alone, with an answer that the
    interface of Cache.v accepts, and the call returns that answer.  [Prune] and
    [TotalCharge] go through the shards one after the other; they are atomic for each
    shard only.

    The references that clients hold are a multiset: a handle is there once for each
    call that returned it and was not released.  A thread may release a reference or
    read a value while it is there, whichever thread obtained it.  CacheThreads.v shows
    that the threads of the implementation behave like this. *)
From Stdlib Require Import ZArith Lia.
From stdpp Require Import base gmap gmultiset fin_maps numbers list relations.
From S2P Require Import Prelude Slice Hash HandleTable LRUCache ShardedCache Cache CacheContract Counting.

#[local] Open Scope Z_scope.

(** ** State *)

(** What a thread does: nothing, a call not performed yet, a loop over the shards from
    one on, a call that was performed with its answer. *)
Inductive status :=
  | A_outside
  | A_called (cl : call Handle)
  | A_prune (s : nat)
  | A_charge (s : nat) (total : Z)
  | A_done (a : answer Handle).

Inductive event := Ev_call (i : nat) (cl : call Handle) | Ev_return (i : nat) (a : answer Handle).

(** [known] is what the interface lets the clients know. *)
Record atomic_cache := {
  cache : ShardedLRUCache;
  known : view Handle;
  statuses : list status;
  held : gmultiset Handle;
  history : list event }.

Definition invoked (cl : call Handle) : status :=
  match cl with Call_Prune => A_prune 0 | Call_TotalCharge => A_charge 0 0 | _ => A_called cl end.

(** The references a call takes, and an answer gives. *)
Definition takes (cl : call Handle) : gmultiset Handle :=
  match cl with Call_Release h => {[+ h +]} | _ => ∅ end.
Definition gives (a : answer Handle) : gmultiset Handle :=
  match a with Ans_handle h | Ans_lookup (Some h) => {[+ h +]} | _ => ∅ end.

(** ** Steps *)

Definition atomic_new (s : ShardedLRUCache) (threads : nat) : atomic_cache :=
  {| cache := s; known := view_new; statuses := replicate threads A_outside; held := ∅; history := [] |}.

(** "handle must not have been released yet", not even while its value is being read. *)
Definition may_call (cl : call Handle) (a : atomic_cache) : Prop :=
  match cl with
  | Call_Release h =>
      h ∈ held a ∧ ((2 <= multiplicity h (held a))%nat ∨ ∀ j, statuses a !! j ≠ Some (A_called (Call_Value h)))
  | Call_Value h => h ∈ held a
  | _ => True
  end.

(** One shard is pruned: its entries that are not in use are gone. *)
Definition pruned (k : nat) (v : view Handle) : view Handle :=
  advance v (v_pins v) (filter (λ p, Shard (HashSlice p.1) = k → in_use v p.1 = true) (v_latest v)) [].

Definition moved (i : nat) (t : status) (s : ShardedLRUCache) (v : view Handle) (a : atomic_cache) : atomic_cache :=
  {| cache := s; known := v; statuses := <[i := t]> (statuses a); held := held a; history := history a |}.

Inductive atomic_step (on : bool) (i : nat) (a : atomic_cache) : atomic_cache → Prop :=
  | at_call cl :
      statuses a !! i = Some A_outside → may_call cl a →
      atomic_step on i a
        {| cache := cache a; known := known a; statuses := <[i := invoked cl]> (statuses a);
           held := held a ∖ takes cl; history := history a ++ [Ev_call i cl] |}
  | at_perform cl x s v :
      statuses a !! i = Some (A_called cl) → allowed (known a) cl = true →
      perform cl (cache a) = Some (x, s) → view_step on (known a) cl x = Some v →
      atomic_step on i a (moved i (A_done x) s v a)
  | at_prune k c c' :
      statuses a !! i = Some (A_prune k) → shard_ (cache a) !! k = Some c → LRU_Prune c = Some c' →
      atomic_step on i a (moved i (A_prune (S k)) (with_shard (cache a) k c') (pruned k (known a)) a)
  | at_prune_end k :
      statuses a !! i = Some (A_prune k) → (Z.to_nat kNumShards <= k)%nat →
      atomic_step on i a (moved i (A_done Ans_void) (cache a) (known a) a)
  | at_charge k n c :
      statuses a !! i = Some (A_charge k n) → shard_ (cache a) !! k = Some c →
      atomic_step on i a (moved i (A_charge (S k) (u64 (n + TotalCharge c))) (cache a) (known a) a)
  | at_charge_end k n :
      statuses a !! i = Some (A_charge k n) → (Z.to_nat kNumShards <= k)%nat →
      atomic_step on i a (moved i (A_done (Ans_charge n)) (cache a) (known a) a)
  | at_return x :
      statuses a !! i = Some (A_done x) →
      atomic_step on i a
        {| cache := cache a; known := known a; statuses := <[i := A_outside]> (statuses a);
           held := held a ⊎ gives x; history := history a ++ [Ev_return i x] |}.

Definition any_atomic_step (on : bool) (a a' : atomic_cache) : Prop := ∃ i, atomic_step on i a a'.

(** ** Invariant *)

(** How many references the cache counts for a handle. *)
Definition references (v : view Handle) (h : Handle) : nat := from_option snd 0%nat (v_pins v !! h).

(** The references a thread has taken or will give. *)
Definition owes (h : Handle) (t : status) : nat :=
  match t with
  | A_called cl => multiplicity h (takes cl)
  | A_done x => multiplicity h (gives x)
  | _ => 0%nat
  end.

(** How many steps of the cache a thread has to make before it returns. *)
Definition todo (t : status) : nat :=
  match t with A_called _ => 1 | A_prune k => Z.to_nat kNumShards - k | _ => 0 end.

Record atomic_ok (on : bool) (a : atomic_cache) : Prop := {
  ao_rep : ∃ A, sharded_rep on (cache a) (known a) A;
  ao_references h :
    (multiplicity h (held a) + sum_list (owes h <$> statuses a) <= references (known a) h)%nat;
  ao_value i h : statuses a !! i = Some (A_called (Call_Value h)) → h ∈ held a;
  ao_calls : (v_calls (known a) + sum_list (todo <$> statuses a) <= Z.to_nat kNumShards * length (history a))%nat }.

(** The number of events up to which no counter overflows. *)
Definition short (l : list event) : Prop := kNumShards * Z.of_nat (length l) < kMaxCalls.

(** ** Lemmas: references *)

Lemma references_is_Some v h : (0 < references v h)%nat → is_Some (v_pins v !! h).
Proof. unfold references. destruct (v_pins v !! h); [eauto|simpl; lia]. Qed.

Lemma references_insert v h x n pins latest ins :
  pins = <[h := (x, n)]> (v_pins v) →
  ∀ h', references (advance v pins latest ins) h' = if decide (h' = h) then n else references v h'.
Proof.
  intros -> h'. unfold references. simpl. case_decide as E; [subst; by rewrite lookup_insert_eq|].
  by rewrite lookup_insert_ne by done.
Qed.

(** Each call changes the references by those it takes and its answer gives. *)
Lemma view_step_references on v cl x v' h :
  view_step on v cl x = Some v' →
  (references v h + multiplicity h (gives x) <= references v' h + multiplicity h (takes cl))%nat.
Proof.
  destruct cl as [key value ch d|key|h0|h0|key| | |]; destruct x as [h1|[h1|]|y|id|n|]; cbn [view_step]; try done;
    cbn [gives takes]; rewrite ?multiplicity_empty.
  - case_decide as E; [|done]. intros [= <-]. rewrite (references_insert v h1 _ _ _ _ _ eq_refl).
    case_decide as E1; [subst|rewrite multiplicity_singleton_ne by done; lia].
    rewrite multiplicity_singleton_eq. unfold references. rewrite E. simpl. lia.
  - intros ([h2 y] & _ & H)%bind_Some. case_decide; [|done]. injection H as <-.
    rewrite (references_insert v h1 y (S (references v h1)) _ _ _ eq_refl).
    case_decide as E1; [subst; rewrite multiplicity_singleton_eq; lia|].
    rewrite multiplicity_singleton_ne by done. lia.
  - destruct (_ && _); [done|]. intros [= <-]. unfold references. simpl. lia.
  - intros [= <-]. unfold references. simpl. unfold unpin. destruct (decide (h = h0)) as [->|Hne].
    + rewrite multiplicity_singleton_eq. destruct (v_pins v !! h0) as [[y [|[|m]]]|] eqn:E;
        rewrite ?lookup_delete_eq, ?lookup_insert_eq; simpl; lia.
    + rewrite multiplicity_singleton_ne by done. destruct (v_pins v !! h0) as [[y [|[|m]]]|];
        rewrite ?lookup_delete_ne, ?lookup_insert_ne by done; lia.
  - intros ([z m] & _ & H)%bind_Some. case_decide; [|done]. injection H as <-. unfold references. simpl. lia.
  - intros [= <-]. unfold references. simpl. lia.
  - case_decide; [|done]. intros [= <-]. unfold references. simpl. lia.
  - intros [= <-]. unfold references. simpl. lia.
  - case_decide; [done|]. intros [= <-]. unfold references. simpl. lia.
Qed.

(** Handles of other shards are left alone. *)
Lemma view_step_other on v cl x v' h :
  view_step on v cl x = Some v' → h ∉ takes cl → h ∉ gives x → v_pins v' !! h = v_pins v !! h.
Proof.
  destruct cl as [key value ch d|key|h0|h0|key| | |]; destruct x as [h1|[h1|]|y|id|n|]; cbn [view_step]; try done;
    cbn [gives takes].
  - case_decide as E; [|done]. intros [= <-] _ Hh. simpl. rewrite lookup_insert_ne; [done|multiset_solver].
  - intros ([h2 y] & _ & H)%bind_Some _ Hh. case_decide; [|done]. injection H as <-. simpl.
    unfold pin. rewrite lookup_insert_ne; [done|multiset_solver].
  - destruct (_ && _); [done|]. by intros [= <-].
  - intros [= <-] Hh _. simpl. unfold unpin. assert (h0 ≠ h) by multiset_solver.
    destruct (v_pins v !! h0) as [[y [|[|m]]]|]; by rewrite ?lookup_delete_ne, ?lookup_insert_ne by done.
  - intros ([z m] & _ & H)%bind_Some. case_decide; [|done]. by injection H as <-.
  - by intros [= <-].
  - case_decide; [|done]. by intros [= <-].
  - by intros [= <-].
  - case_decide; [done|]. by intros [= <-].
Qed.

(** ** Lemmas: pruning one shard *)

Lemma rep_prune_shard on s v A k c :
  sharded_rep on s v A → shard_ s !! k = Some c →
  ∃ c' A', LRU_Prune c = Some c' ∧ sharded_rep on (with_shard s k c') (pruned k v) A'.
Proof.
  intros HR Ec. destruct (Forall2_lookup_l _ _ _ _ _ (s_shards _ _ (sr_rep _ _ _ _ HR)) Ec) as (a & Ea & Hr).
  destruct (shard_of _ _ _ _ _ _ HR Ea) as (Hp & Ho & _).
  destruct (Rep_Prune _ _ Hr) as (c' & E & Hr'). exists c', (<[k := a_prune a]> A). split; [done|].
  assert (placed k (a_prune a)) as Hp' by (eapply live_sub_placed; [apply live_sub_evict|done]).
  apply (sharded_update on s v A k a _ _ _ _ _ HR Ea).
  - apply SRep_update; [apply (sr_rep _ _ _ _ HR)|exact Hr'|exact Hp'].
  - reflexivity.
  - eapply ok_frame; [exact Hp'|by eapply ok_prune|reflexivity| |cbn [advance v_calls]; lia].
    intros key Hk. unfold pruned. cbn [advance v_latest]. apply option_eq. intros x.
    rewrite !map_lookup_filter_Some. cbn [fst]. tauto.
  - reflexivity.
  - intros key Hk. apply option_eq. intros x. rewrite map_lookup_filter_Some. cbn [fst]. tauto.
  - rewrite app_nil_r. apply (content_evict _ true a).
Qed.

(** ** Lemmas: the invariant *)

Lemma owes_invoked h cl : owes h (invoked cl) = multiplicity h (takes cl).
Proof. by destruct cl. Qed.

Lemma todo_invoked cl : (todo (invoked cl) <= Z.to_nat kNumShards)%nat.
Proof. destruct cl; cbn [invoked todo]; change (Z.to_nat kNumShards) with 16%nat; lia. Qed.

(** What a thread may take is there. *)
Lemma may_take cl a h : may_call cl a → (multiplicity h (takes cl) <= multiplicity h (held a))%nat.
Proof.
  destruct cl as [| |h0| | | | |]; cbn [takes may_call]; rewrite ?multiplicity_empty; try lia.
  intros [Hin _]. destruct (decide (h = h0)) as [->|Hne].
  - rewrite multiplicity_singleton_eq. rewrite elem_of_multiplicity in Hin. lia.
  - rewrite multiplicity_singleton_ne by done. lia.
Qed.

Lemma atomic_new_ok cap s n :
  0 <= cap → cap + 15 < 2 ^ 64 → NewLRUCache cap = Some s → atomic_ok (0 <? cap) (atomic_new s n).
Proof.
  intros H0 H1 E. destruct (NewLRUCache_rep cap H0 H1) as (s0 & E0 & Hrep). assert (s0 = s) as -> by congruence.
  split; cbn [atomic_new cache known statuses held history].
  - exact Hrep.
  - intros h. cbn [statuses]. rewrite multiplicity_empty, sum_replicate_0 by done. cbn. lia.
  - intros i h Hi. by apply lookup_replicate in Hi as [? _].
  - rewrite sum_replicate_0 by done. cbn [view_new v_calls]. lia.
Qed.

Lemma few_calls on a : atomic_ok on a → short (history a) → Z.of_nat (v_calls (known a)) < kMaxCalls.
Proof.
  intros Ha Hs. pose proof (ao_calls _ _ Ha). unfold short in Hs.
  assert (Z.of_nat (Z.to_nat kNumShards) = kNumShards) as E by reflexivity. nia.
Qed.

(** A call that was made can be performed. *)
Lemma perform_called on a i cl :
  atomic_ok on a → short (history a) → statuses a !! i = Some (A_called cl) →
  allowed (known a) cl = true ∧
  ∃ x s v, perform cl (cache a) = Some (x, s) ∧ view_step on (known a) cl x = Some v ∧ ∃ A, sharded_rep on s v A.
Proof.
  intros Ha Hs Hi. assert (allowed (known a) cl = true) as Hal.
  { destruct cl as [| |h|h| | | |]; try done; apply bool_decide_eq_true, references_is_Some;
      pose proof (ao_references _ _ Ha h) as Hr.
    - pose proof (sum_elem (owes h) _ _ _ Hi) as He. cbn [owes takes] in He. rewrite multiplicity_singleton_eq in He. lia.
    - pose proof (ao_value _ _ Ha _ _ Hi) as Hin. rewrite elem_of_multiplicity in Hin. lia. }
  split; [done|]. destruct (ao_rep _ _ Ha) as [A HR].
  exact (Sharded_answers _ _ _ _ _ HR Hal (few_calls _ _ Ha Hs)).
Qed.

Lemma short_app l l' : short (l ++ l') → short l.
Proof. unfold short. rewrite length_app. change kNumShards with 16. lia. Qed.

Lemma history_grows on i a a' : atomic_step on i a a' → short (history a') → short (history a).
Proof. destruct 1; cbn [history moved]; eauto using short_app. Qed.

(** A step that leaves the threads' references as they are. *)
Lemma moved_ok on i a s v t t' :
  atomic_ok on a → statuses a !! i = Some t → (∃ A, sharded_rep on s v A) →
  (∀ h, references (known a) h + owes h t' <= references v h + owes h t)%nat →
  (v_calls v + todo t' <= v_calls (known a) + todo t)%nat →
  (∀ h, t' ≠ A_called (Call_Value h)) → atomic_ok on (moved i t' s v a).
Proof.
  intros [H1 H2 H3 H4] Hi HR Hrefs Htodo Hval. split; cbn [moved cache known statuses held history].
  - done.
  - intros h. pose proof (sum_insert (owes h) _ _ _ t' Hi). specialize (H2 h). specialize (Hrefs h). lia.
  - intros j h [(_ & E & _)|[_ Hj]]%list_lookup_insert_Some; [by apply Hval in E|eauto].
  - pose proof (sum_insert todo _ _ _ t' Hi). lia.
Qed.

Lemma atomic_step_ok on i a a' :
  atomic_step on i a a' → short (history a') → atomic_ok on a → atomic_ok on a'.
Proof.
  intros Hst Hs Ha. pose proof (history_grows _ _ _ _ Hst Hs) as Hs0.
  destruct Hst as [cl Hi Hc|cl x s v Hi Hal Ep Ev|k c c' Hi Ec Ep|k Hi Hk|k n c Hi Ec|k n Hi Hk|x Hi].
  - pose proof Ha as [H1 H2 H3 H4]. split; cbn [cache known statuses held history].
    + done.
    + intros h. pose proof (sum_insert (owes h) _ _ _ (invoked cl) Hi) as E. rewrite owes_invoked in E.
      cbn [owes] in E. specialize (H2 h). pose proof (may_take cl a h Hc).
      rewrite multiplicity_difference. lia.
    + intros j h Hj. apply elem_of_multiplicity. rewrite multiplicity_difference.
      apply list_lookup_insert_Some in Hj as [(_ & E & _)|[_ Hj]].
      * destruct cl; try done. injection E as ->. cbn [takes may_call] in *. rewrite multiplicity_empty.
        rewrite elem_of_multiplicity in Hc. lia.
      * pose proof (H3 _ _ Hj) as Hin. rewrite elem_of_multiplicity in Hin.
        destruct cl as [| |h0| | | | |]; cbn [takes may_call] in *; rewrite ?multiplicity_empty; try lia.
        destruct (decide (h = h0)) as [->|Hne]; [|rewrite multiplicity_singleton_ne by done; lia].
        rewrite multiplicity_singleton_eq. destruct Hc as [_ [Hm|Hn]]; [lia|]. by apply Hn in Hj.
    + pose proof (sum_insert todo _ _ _ (invoked cl) Hi). pose proof (todo_invoked cl).
      rewrite length_app. cbn [todo length] in *. lia.
  - destruct (perform_called _ _ _ _ Ha Hs0 Hi) as (_ & x1 & s1 & v1 & Ep1 & Ev1 & HR).
    rewrite Ep in Ep1. injection Ep1 as <- <-. rewrite Ev in Ev1. injection Ev1 as <-.
    eapply moved_ok; [done|exact Hi|done| | |done].
    + intros h. apply (view_step_references _ _ _ _ _ h Ev).
    + rewrite (view_step_calls _ _ _ _ _ Ev). cbn [todo]. lia.
  - destruct (ao_rep _ _ Ha) as [A HR]. destruct (rep_prune_shard _ _ _ _ _ _ HR Ec) as (c1 & A1 & E1 & HR1).
    assert (c1 = c') as -> by congruence. eapply moved_ok; [done|exact Hi|by eexists|done| |done].
    pose proof (lookup_lt_Some _ _ _ Ec) as Hlt.
    rewrite (Forall2_length _ _ _ (s_shards _ _ (sr_rep _ _ _ _ HR))), (s_length _ _ (sr_rep _ _ _ _ HR)) in Hlt.
    cbn [pruned advance v_calls todo]. lia.
  - eapply moved_ok; [done|exact Hi|apply (ao_rep _ _ Ha)|done|cbn [todo]; lia|done].
  - eapply moved_ok; [done|exact Hi|apply (ao_rep _ _ Ha)|done|done|done].
  - eapply moved_ok; [done|exact Hi|apply (ao_rep _ _ Ha)|done|done|done].
  - pose proof Ha as [H1 H2 H3 H4]. split; cbn [cache known statuses held history].
    + done.
    + intros h. pose proof (sum_insert (owes h) _ _ _ A_outside Hi) as E. cbn [owes] in E.
      rewrite multiplicity_disj_union. specialize (H2 h). lia.
    + intros j h [(_ & E & _)|[_ Hj]]%list_lookup_insert_Some; [done|].
      specialize (H3 _ _ Hj). rewrite elem_of_multiplicity in *.
      rewrite multiplicity_disj_union. lia.
    + pose proof (sum_insert todo _ _ _ A_outside Hi) as E. rewrite length_app. cbn [todo length] in *. lia.
Qed.
