(* ===== verification/CacheSections.v ===== *)
(** * The critical sections of the LRU cache (util/cache.cpp: LRUCache)

    Each operation of [LRUCache] holds [mutex_] from its first line to its last.  Here
    it is the sequence of accesses it makes meanwhile: a call of a helper or an
    iteration of a loop at a time.  Run to its end the sequence does what the operation
    of LRUCache.v does ([completes_Insert] and the like); on the way entries may be
    freed but the key, the hash, the value and the deleter of an entry never change
    ([completes_keeps]), so that [Release] and [Value] may read them without the
    mutex. *)
From Stdlib Require Import ZArith Lia.
From stdpp Require Import base gmap fin_maps numbers list relations.
From S2P Require Import Prelude HandleTable LRUCache.

#[local] Open Scope Z_scope.

(** ** Instructions *)

Inductive result :=
  | R_handle (e : positive)
  | R_lookup (e : option positive)
  | R_void
  | R_charge (n : Z).

(** Where a thread is inside of a critical section. *)
Inductive section :=
  | S_malloc (key : bytes) (hs value charge deleter : Z)
  | S_in_use (e : positive) (charge : Z)
  | S_usage (e : positive) (charge : Z)
  | S_table (e : positive)
  | S_replaced (e : positive) (old : option positive)
  | S_evict (all : bool) (r : result)
  | S_find (key : bytes) (hs : Z)
  | S_ref (e : positive)
  | S_unref (e : positive)
  | S_remove (key : bytes) (hs : Z)
  | S_removed (r : option positive)
  | S_total
  | S_end (r : result).

Definition with_table (c : LRUCache) (h : heap) (t : HandleTable) : LRUCache :=
  {| capacity_ := capacity_ c; usage_ := usage_ c; handles := h; table_ := t; deleted := deleted c |}.

Definition section_step (p : section) (c : LRUCache) : option (section * LRUCache) :=
  match p with
  | S_malloc key hs value charge deleter =>
      let e := fresh (dom (handles c)) in
      let hd := {| HandleTable.value := value; HandleTable.deleter := deleter; next_hash := None;
                   next := None; prev := None; HandleTable.charge := charge; in_cache := false;
                   refs := 1; hash := hs; key_data := key |} in
      Some (S_in_use e charge, with_handles c (<[e := hd]> (handles c)))
  | S_in_use e charge =>
      if 0 <? capacity_ c then
        h ← modify (handles c) e (λ hd, set_in_cache true (set_refs (u32 (refs hd + 1)) hd));
        h ← LRU_Append h in_use_ e;
        Some (S_usage e charge, with_handles c h)
      else
        h ← modify (handles c) e (set_next None);
        Some (S_evict false (R_handle e), with_handles c h)
  | S_usage e charge =>
      Some (S_table e, {| capacity_ := capacity_ c; usage_ := u64 (usage_ c + charge);
                          handles := handles c; table_ := table_ c; deleted := deleted c |})
  | S_table e =>
      '(old, h, t) ← Table_Insert (handles c) (table_ c) e;
      Some (S_replaced e old, with_table c h t)
  | S_replaced e old => c ← snd <$> FinishErase c old; Some (S_evict false (R_handle e), c)
  | S_evict all r =>
      old ← nx (handles c) lru_;
      if (all || (capacity_ c <? usage_ c)) && bool_decide (old ≠ lru_) then
        c ← evict_oldest c old; Some (S_evict all r, c)
      else Some (S_end r, c)
  | S_find key hs =>
      e ← Table_Lookup (handles c) (table_ c) key hs;
      match e with
      | None => Some (S_end (R_lookup None), c)
      | Some e => Some (S_ref e, c)
      end
  | S_ref e => h ← Ref (handles c) e; Some (S_end (R_lookup (Some e)), with_handles c h)
  | S_unref e => c ← Unref c e; Some (S_end R_void, c)
  | S_remove key hs =>
      '(r, h, t) ← Table_Remove (handles c) (table_ c) key hs; Some (S_removed r, with_table c h t)
  | S_removed r => c ← snd <$> FinishErase c r; Some (S_end R_void, c)
  | S_total => Some (S_end (R_charge (TotalCharge c)), c)
  | S_end _ => None
  end.

(** From [p] and [c] the section ends with the result [r] in [c']. *)
Inductive completes : section → LRUCache → result → LRUCache → Prop :=
  | completes_end r c : completes (S_end r) c r c
  | completes_step p c p1 c1 r c' :
      section_step p c = Some (p1, c1) → completes p1 c1 r c' → completes p c r c'.

(** ** Lemmas: sections as operations *)

Lemma completes_evict fuel all r c c' :
  evict_loop fuel all c = Some c' → completes (S_evict all r) c r c'.
Proof.
  revert c. induction fuel as [|fuel IH]; intros c; simpl.
  - destruct (nx (handles c) lru_) as [old|] eqn:Eo; [|done]. cbn [mbind option_bind].
    destruct ((all || _) && _) eqn:Ec; [done|]. intros [= <-].
    econstructor; [|constructor]. cbn [section_step]. rewrite Eo. cbn [mbind option_bind]. by rewrite Ec.
  - destruct (nx (handles c) lru_) as [old|] eqn:Eo; [|done]. cbn [mbind option_bind].
    destruct ((all || _) && _) eqn:Ec.
    + destruct (evict_oldest c old) as [c1|] eqn:Ee; [|done]. cbn [mbind option_bind]. intros H%IH.
      econstructor; [|exact H]. cbn [section_step]. rewrite Eo. cbn [mbind option_bind]. rewrite Ec, Ee. done.
    + intros [= <-]. econstructor; [|constructor]. cbn [section_step]. rewrite Eo. cbn [mbind option_bind]. by rewrite Ec.
Qed.

Lemma completes_Prune c c' : LRU_Prune c = Some c' → completes (S_evict true R_void) c R_void c'.
Proof. apply completes_evict. Qed.

Lemma completes_Insert c key hs v ch d e c' :
  LRU_Insert c key hs v ch d = Some (e, c') → completes (S_malloc key hs v ch d) c (R_handle e) c'.
Proof.
  unfold LRU_Insert. intros (c2 & E & (c3 & Ee & [= <- <-])%bind_Some)%bind_Some.
  econstructor; [reflexivity|]. set (c1 := with_handles c _) in *. clearbody c1.
  set (e := fresh _) in *. clearbody e. destruct (0 <? capacity_ c1) eqn:Ecap.
  - apply bind_Some in E as (h1 & E1 & (h2 & E2 & ([[old h3] t] & E3 & E4)%bind_Some)%bind_Some).
    econstructor; [cbn [section_step]; rewrite Ecap, E1; cbn [mbind option_bind]; rewrite E2; reflexivity|].
    econstructor; [reflexivity|].
    econstructor; [cbn [section_step handles table_ with_handles]; rewrite E3; reflexivity|].
    cbn [mbind option_bind] in E4.
    econstructor; [cbn [section_step]; unfold with_table; cbn; rewrite E4; reflexivity|].
    by eapply completes_evict.
  - apply bind_Some in E as (h1 & E1 & [= <-]).
    econstructor; [cbn [section_step]; rewrite Ecap, E1; reflexivity|].
    by eapply completes_evict.
Qed.

Lemma completes_Lookup c key hs e c' :
  LRU_Lookup c key hs = Some (e, c') → completes (S_find key hs) c (R_lookup e) c'.
Proof.
  unfold LRU_Lookup. intros ([x|] & E & H)%bind_Some.
  - apply bind_Some in H as (h & Eh & [= <- <-]).
    econstructor; [cbn [section_step]; rewrite E; reflexivity|].
    econstructor; [cbn [section_step]; rewrite Eh; reflexivity|constructor].
  - injection H as <- <-. econstructor; [cbn [section_step]; rewrite E; reflexivity|constructor].
Qed.

Lemma completes_Release c e c' : LRU_Release c e = Some c' → completes (S_unref e) c R_void c'.
Proof.
  unfold LRU_Release. intros E. econstructor; [cbn [section_step]; rewrite E; reflexivity|constructor].
Qed.

Lemma completes_Erase c key hs c' :
  LRU_Erase c key hs = Some c' → completes (S_remove key hs) c R_void c'.
Proof.
  unfold LRU_Erase, erase_key. intros ([b c1] & ([[r h] t] & E & Ef)%bind_Some & ->)%fmap_Some. cbn [snd].
  econstructor; [cbn [section_step]; rewrite E; reflexivity|].
  econstructor; [cbn [section_step]; unfold with_table; cbn; rewrite Ef; reflexivity|constructor].
Qed.

Lemma completes_Total c : completes S_total c (R_charge (TotalCharge c)) c.
Proof. econstructor; [reflexivity|constructor]. Qed.

Lemma completes_inv p c r c' :
  completes p c r c' →
  (p = S_end r ∧ c' = c) ∨ (∃ p1 c1, section_step p c = Some (p1, c1) ∧ completes p1 c1 r c').
Proof. destruct 1; eauto. Qed.

(** ** Lemmas: what does not change in an entry *)

Definition fixed (e : LRUHandle) : Z * Z * Z * bytes := (value e, deleter e, hash e, key_data e).

(** Entries of [h'] are entries of [h]. *)
Definition keeps (h h' : heap) : Prop :=
  ∀ e hd', h' !! e = Some hd' → ∃ hd, h !! e = Some hd ∧ fixed hd' = fixed hd.

#[local] Instance keeps_preorder : PreOrder keeps.
Proof.
  split; [intros h e hd; eauto|]. intros h1 h2 h3 H1 H2 e hd (hd2 & E2 & F2)%H2.
  destruct (H1 _ _ E2) as (hd1 & E1 & F1). exists hd1. split; [done|congruence].
Qed.

Lemma keeps_insert (h : heap) e hd hd' : h !! e = Some hd → fixed hd' = fixed hd → keeps h (<[e := hd']> h).
Proof. intros E F x y [[<- <-]|[_ H]]%lookup_insert_Some; eauto. Qed.

Lemma keeps_delete (h : heap) e : keeps h (delete e h).
Proof. intros x y [_ H]%lookup_delete_Some. eauto. Qed.

Lemma keeps_modify h e f h' : modify h e f = Some h' → (∀ hd, fixed (f hd) = fixed hd) → keeps h h'.
Proof. intros (hd & E & [= <-])%bind_Some Hf. by eapply keeps_insert. Qed.

Ltac keeps_modifies :=
  repeat match goal with
         | H : modify ?h _ _ = Some ?h1 |- keeps ?h ?h2 =>
             transitivity h1; [by refine (keeps_modify _ _ _ _ H _)|clear H]
         end.

Lemma keeps_Remove h e h' : LRU_Remove h e = Some h' → keeps h h'.
Proof.
  unfold LRU_Remove.
  intros (n & _ & (p & _ & (h1 & E1 & (p' & _ & (n' & _ & E2)%bind_Some)%bind_Some)%bind_Some)%bind_Some)%bind_Some.
  keeps_modifies. reflexivity.
Qed.

Lemma keeps_Append h l e h' : LRU_Append h l e = Some h' → keeps h h'.
Proof.
  unfold LRU_Append.
  intros (h1 & E1 & (p & _ & (h2 & E2 & (q & _ & (h3 & E3 & (n & _ & E4)%bind_Some)%bind_Some)%bind_Some)%bind_Some)%bind_Some)%bind_Some.
  keeps_modifies. reflexivity.
Qed.

Lemma keeps_Ref h e h' : Ref h e = Some h' → keeps h h'.
Proof.
  unfold Ref. intros (hd & _ & (h1 & E & Em)%bind_Some)%bind_Some. transitivity h1.
  - destruct (_ && _); [|by injection E as <-]. apply bind_Some in E as (h2 & E2 & E3).
    transitivity h2; [by eapply keeps_Remove|by eapply keeps_Append].
  - by eapply keeps_modify.
Qed.

Lemma keeps_Unref c e c' : Unref c e = Some c' → keeps (handles c) (handles c').
Proof.
  unfold Unref. intros (hd & _ & H)%bind_Some. destruct (0 <? refs hd); [|done].
  apply bind_Some in H as (h & Em & H). transitivity h; [by eapply keeps_modify|].
  destruct (_ =? 0).
  - destruct (in_cache hd); [done|]. apply bind_Some in H as (k & _ & [= <-]). apply keeps_delete.
  - destruct (_ && _); [|by injection H as <-].
    apply bind_Some in H as (h1 & E1 & (h2 & E2 & [= <-])%bind_Some).
    transitivity h1; [by eapply keeps_Remove|by eapply keeps_Append].
Qed.

Lemma keeps_FinishErase c e b c' : FinishErase c e = Some (b, c') → keeps (handles c) (handles c').
Proof.
  unfold FinishErase. destruct e as [e|]; [|by intros [= <- <-]].
  intros (hd & _ & H)%bind_Some. destruct (in_cache hd); [|done].
  apply bind_Some in H as (h1 & E1 & (h2 & E2 & (c2 & E3 & [= _ <-])%bind_Some)%bind_Some).
  transitivity h1; [by eapply keeps_Remove|]. transitivity h2; [by eapply keeps_modify|].
  by apply keeps_Unref in E3.
Qed.

Lemma keeps_store h t p v h' t' : store h t p v = Some (h', t') → keeps h h'.
Proof.
  destruct p as [i|e]; simpl.
  - by intros (x & _ & [= <- <-])%bind_Some.
  - intros (hd & E & [= <- <-])%bind_Some. by eapply keeps_insert.
Qed.

Lemma keeps_move_chain fuel h n l k p h' l' k' :
  move_chain fuel h n l k p = Some (h', l', k') → keeps h h'.
Proof.
  revert h l k p. induction fuel as [|fuel IH]; intros h l k [e|]; simpl; try done; try by intros [= <- <- <-].
  intros (hd & E & (q & _ & H%IH)%bind_Some)%bind_Some. etrans; [|exact H]. by eapply keeps_insert.
Qed.

Lemma keeps_move_chains h n l k old h' l' k' : move_chains h n l k old = Some (h', l', k') → keeps h h'.
Proof.
  revert h l k. induction old as [|p old IH]; intros h l k; cbn [move_chains]; [by intros [= <- <- <-]|].
  intros ([[h1 l1] k1] & E & H%IH)%bind_Some. etrans; [by eapply keeps_move_chain|done].
Qed.

Lemma keeps_Resize h t h' t' : Resize h t = Some (h', t') → keeps h h'.
Proof.
  unfold Resize. intros (n & _ & ([[h1 l1] k1] & E & H)%bind_Some)%bind_Some.
  destruct (_ =? _); [|done]. injection H as <- <-. by eapply keeps_move_chains.
Qed.

Lemma keeps_Table_Insert h t e old h' t' : Table_Insert h t e = Some (old, h', t') → keeps h h'.
Proof.
  unfold Table_Insert.
  intros (hd & _ & (k & _ & (ptr & _ & (o & _ & (nh & _ & ([h1 t1] & E1 & ([h2 t2] & E2 & H)%bind_Some)%bind_Some)%bind_Some)%bind_Some)%bind_Some)%bind_Some)%bind_Some.
  transitivity h1; [by eapply keeps_store|]. transitivity h2; [by eapply keeps_store|].
  destruct o; [by injection H as <- <- <-|]. cbn zeta in H. destruct (_ <? _); [|by injection H as <- <- <-].
  apply bind_Some in H as ([h3 t3] & E3 & [= <- <- <-]). by eapply keeps_Resize.
Qed.

Lemma keeps_Table_Remove h t key hs r h' t' : Table_Remove h t key hs = Some (r, h', t') → keeps h h'.
Proof.
  unfold Table_Remove. intros (ptr & _ & (o & _ & H)%bind_Some)%bind_Some. destruct o as [o|]; [|by injection H as <- <- <-].
  apply bind_Some in H as (nh & _ & ([h1 t1] & E & [= <- <- <-])%bind_Some). by eapply keeps_store.
Qed.

Lemma keeps_evict_oldest c old c' : evict_oldest c old = Some c' → keeps (handles c) (handles c').
Proof.
  unfold evict_oldest, erase_key. intros (hd & _ & H)%bind_Some. destruct (_ =? 1); [|done].
  apply bind_Some in H as (k & _ & ([b c1] & ([[r h] t] & E1 & E2)%bind_Some & H)%bind_Some).
  destruct b; [|done]. injection H as <-. transitivity h; [by eapply keeps_Table_Remove|].
  by apply keeps_FinishErase in E2.
Qed.

Definition is_malloc (p : section) : bool := match p with S_malloc _ _ _ _ _ => true | _ => false end.

Create HintDb keeps.
#[local] Hint Resolve keeps_modify keeps_Append keeps_Table_Insert keeps_Table_Remove keeps_evict_oldest
  keeps_Ref keeps_Unref : keeps.

Lemma section_keeps p c p' c' :
  section_step p c = Some (p', c') → is_malloc p = false → keeps (handles c) (handles c') ∧ is_malloc p' = false.
Proof.
  destruct p as [| | | |e old|all r|key hs| | | |r0| |]; cbn [section_step is_malloc]; try done; intros H _.
  - destruct (0 <? capacity_ c).
    + apply bind_Some in H as (h1 & E1 & (h2 & E2 & [= <- <-])%bind_Some). split; [|done].
      transitivity h1; eauto with keeps.
    + apply bind_Some in H as (h1 & E1 & [= <- <-]). split; [|done]. eauto with keeps.
  - by injection H as <- <-.
  - apply bind_Some in H as ([[o h] t] & E & [= <- <-]). split; [|done]. eauto with keeps.
  - apply bind_Some in H as (c1 & ([b c2] & E & ->)%fmap_Some & [= <- <-]). split; [|done]. by eapply keeps_FinishErase.
  - apply bind_Some in H as (o & _ & H). destruct (_ && _); [|by injection H as <- <-].
    apply bind_Some in H as (c1 & E & [= <- <-]). split; [|done]. eauto with keeps.
  - apply bind_Some in H as ([x|] & _ & [= <- <-]); done.
  - apply bind_Some in H as (h1 & E & [= <- <-]). split; [|done]. eauto with keeps.
  - apply bind_Some in H as (c1 & E & [= <- <-]). split; [|done]. eauto with keeps.
  - apply bind_Some in H as ([[o h] t] & E & [= <- <-]). split; [|done]. eauto with keeps.
  - apply bind_Some in H as (c1 & ([b c2] & E & ->)%fmap_Some & [= <- <-]). split; [|done]. by eapply keeps_FinishErase.
  - by injection H as <- <-.
Qed.

Lemma completes_keeps_allocated p c r c' :
  completes p c r c' → is_malloc p = false → keeps (handles c) (handles c').
Proof.
  induction 1 as [r c|p c p1 c1 r c' E _ IH]; intros Hm; [reflexivity|].
  destruct (section_keeps _ _ _ _ E Hm). etrans; [done|auto].
Qed.

(** The rest of an insertion returns the entry it has made. *)
Definition inserts (p : section) (e : positive) : Prop :=
  match p with
  | S_in_use x _ | S_usage x _ | S_table x | S_replaced x _ => x = e
  | S_evict _ r | S_end r => r = R_handle e
  | _ => False
  end.

Lemma completes_inserts p c r c' e : completes p c r c' → inserts p e → r = R_handle e.
Proof.
  induction 1 as [r c|p c p1 c1 r c' E _ IH]; [done|]. intros Hp. apply IH. clear IH.
  destruct p as [| | | |x old|all r0| | | | | | |]; try done; simpl in Hp; subst; cbn [section_step] in E.
  - destruct (0 <? capacity_ c).
    + by apply bind_Some in E as (h1 & _ & (h2 & _ & [= <- <-])%bind_Some).
    + by apply bind_Some in E as (h1 & _ & [= <- <-]).
  - by injection E as <- <-.
  - by apply bind_Some in E as ([[o h] t] & _ & [= <- <-]).
  - by apply bind_Some in E as (c2 & _ & [= <- <-]).
  - apply bind_Some in E as (o & _ & E). destruct (_ && _); [|by injection E as <- <-].
    by apply bind_Some in E as (c2 & _ & [= <- <-]).
Qed.

(** The entries a section leaves, apart from one it returns, were there on the way. *)
Lemma completes_keeps p c r c' e hd' :
  completes p c r c' → handles c' !! e = Some hd' → r ≠ R_handle e →
  ∃ hd, handles c !! e = Some hd ∧ fixed hd' = fixed hd.
Proof.
  intros Hc He Hr. destruct (is_malloc p) eqn:Hm; [|by eapply completes_keeps_allocated].
  destruct p as [key hs v ch d| | | | | | | | | | | |]; try done.
  apply completes_inv in Hc as [[? _]|(p1 & c1 & E & Hc)]; [done|]. cbn [section_step] in E. injection E as <- <-.
  destruct (completes_keeps_allocated _ _ _ _ Hc eq_refl e hd' He) as (hd & Ehd & F).
  cbn [handles with_handles] in Ehd. apply lookup_insert_Some in Ehd as [[Ee _]|[_ ?]]; [|eauto].
  exfalso. apply Hr. by apply (completes_inserts _ _ _ _ _ Hc).
Qed.
