(* ===== verification/CacheThreads.v ===== *)
(** * The sharded cache used by several threads (util/cache.cpp, util/mutexlock.h)

    Threads that call [ShardedLRUCache], an access at a time: each shard has its
    [mutex_], [NewId] has [id_mutex_], the critical sections are those of
    CacheSections.v; [Release] and [Value] read the entry of their handle without any
    mutex.  [Cache_linearizable]: whatever the threads do looks like atomic calls.  *)
From Stdlib Require Import ZArith Lia.
From stdpp Require Import base gmap gmultiset fin_maps numbers list relations.
From S2P Require Import Prelude Slice Hash HandleTable LRUCache ShardedCache Cache CacheContract Counting.
From S2P Require Import CacheAtomic CacheSections.

#[local] Open Scope Z_scope.

(** ** State *)

(** What a thread does with the result of its critical section: it returns it, or goes
    on with the next shard. *)
Inductive continuation := K_return | K_prune | K_charge (total : Z).

(** Where a thread is: outside; in a call, before any of its accesses; in [Release],
    having read the hash, about to lock a shard; inside of the critical section of a
    shard; in the loops of [Prune] and [TotalCharge], about to lock a shard; inside of
    [NewId], before and after the increment; about to return. *)
Inductive cache_pc :=
  | P_outside
  | P_called (cl : call Handle)
  | P_release (h : Handle) (shard : nat)
  | P_inside (k : nat) (K : continuation) (p : section)
  | P_prune (s : nat)
  | P_charge (s : nat) (total : Z)
  | P_id
  | P_id_unlock (id : Z)
  | P_return (a : answer Handle).

(** The shards with their mutexes, [last_id_] with its mutex, the threads; the
    references that clients hold, and what happened. *)
Record machine := {
  shards : list LRUCache;
  mutexes : list (option nat);
  last_id : Z;
  id_mutex : option nat;
  threads : list cache_pc;
  refs_held : gmultiset Handle;
  events : list event }.

(** ** Operations *)

Definition machine_new (s : ShardedLRUCache) (n : nat) : machine :=
  {| shards := shard_ s; mutexes := (λ _, None) <$> shard_ s; last_id := last_id_ s; id_mutex := None;
     threads := replicate n P_outside; refs_held := ∅; events := [] |}.

Definition goto (i : nat) (t : cache_pc) (m : machine) : machine :=
  {| shards := shards m; mutexes := mutexes m; last_id := last_id m; id_mutex := id_mutex m;
     threads := <[i := t]> (threads m); refs_held := refs_held m; events := events m |}.

(** [mutex_.Lock()] and [mutex_.Unlock()] of shard [k]. *)
Definition shard_mutex (k : nat) (o : option nat) (m : machine) : machine :=
  {| shards := shards m; mutexes := <[k := o]> (mutexes m); last_id := last_id m; id_mutex := id_mutex m;
     threads := threads m; refs_held := refs_held m; events := events m |}.

Definition write_shard (k : nat) (c : LRUCache) (m : machine) : machine :=
  {| shards := <[k := c]> (shards m); mutexes := mutexes m; last_id := last_id m; id_mutex := id_mutex m;
     threads := threads m; refs_held := refs_held m; events := events m |}.

Definition write_id (id : Z) (o : option nat) (m : machine) : machine :=
  {| shards := shards m; mutexes := mutexes m; last_id := id; id_mutex := o;
     threads := threads m; refs_held := refs_held m; events := events m |}.

(** Reading through a handle, without a mutex. *)
Definition entry_at (m : machine) (h : Handle) : option LRUHandle := c ← (shards m !! h.1); handles c !! h.2.

Definition first (cl : call Handle) : cache_pc :=
  match cl with Call_Prune => P_prune 0 | Call_TotalCharge => P_charge 0 0 | _ => P_called cl end.

(** The shard and the section of a call that has only its key. *)
Definition enter (cl : call Handle) : option (nat * section) :=
  match cl with
  | Call_Insert key value charge deleter =>
      Some (Shard (HashSlice key), S_malloc key (HashSlice key) value charge deleter)
  | Call_Lookup key => Some (Shard (HashSlice key), S_find key (HashSlice key))
  | Call_Erase key => Some (Shard (HashSlice key), S_remove key (HashSlice key))
  | _ => None
  end.

(** After the section of shard [k]. *)
Definition resume (k : nat) (K : continuation) (r : result) : option cache_pc :=
  match K, r with
  | K_return, R_handle e => Some (P_return (Ans_handle (k, e)))
  | K_return, R_lookup e => Some (P_return (Ans_lookup (pair k <$> e)))
  | K_return, R_void => Some (P_return Ans_void)
  | K_prune, R_void => Some (P_prune (S k))
  | K_charge total, R_charge n => Some (P_charge (S k) (u64 (total + n)))
  | _, _ => None
  end.

(** What a client has to see to when it calls; see [may_call]. *)
Definition may_start (cl : call Handle) (m : machine) : Prop :=
  match cl with
  | Call_Release h =>
      h ∈ refs_held m ∧
      ((2 <= multiplicity h (refs_held m))%nat ∨ ∀ j, threads m !! j ≠ Some (P_called (Call_Value h)))
  | Call_Value h => h ∈ refs_held m
  | _ => True
  end.

(** ** Steps of thread [i] *)

Inductive cache_step (i : nat) (m : machine) : machine → Prop :=
  | c_call cl :
      threads m !! i = Some P_outside → may_start cl m →
      cache_step i m
        {| shards := shards m; mutexes := mutexes m; last_id := last_id m; id_mutex := id_mutex m;
           threads := <[i := first cl]> (threads m); refs_held := refs_held m ∖ takes cl;
           events := events m ++ [Ev_call i cl] |}
  | c_enter cl k p :
      threads m !! i = Some (P_called cl) → enter cl = Some (k, p) → mutexes m !! k = Some None →
      cache_step i m (shard_mutex k (Some i) (goto i (P_inside k K_return p) m))
  | c_hash h hd :
      threads m !! i = Some (P_called (Call_Release h)) → entry_at m h = Some hd →
      cache_step i m (goto i (P_release h (Shard (hash hd))) m)
  | c_release h :
      threads m !! i = Some (P_release h h.1) → mutexes m !! h.1 = Some None →
      cache_step i m (shard_mutex h.1 (Some i) (goto i (P_inside h.1 K_return (S_unref h.2)) m))
  | c_value h hd :
      threads m !! i = Some (P_called (Call_Value h)) → entry_at m h = Some hd →
      cache_step i m (goto i (P_return (Ans_value (value hd))) m)
  | c_prune k :
      threads m !! i = Some (P_prune k) → (k < Z.to_nat kNumShards)%nat → mutexes m !! k = Some None →
      cache_step i m (shard_mutex k (Some i) (goto i (P_inside k K_prune (S_evict true R_void)) m))
  | c_prune_end k :
      threads m !! i = Some (P_prune k) → (Z.to_nat kNumShards <= k)%nat →
      cache_step i m (goto i (P_return Ans_void) m)
  | c_charge k n :
      threads m !! i = Some (P_charge k n) → (k < Z.to_nat kNumShards)%nat → mutexes m !! k = Some None →
      cache_step i m (shard_mutex k (Some i) (goto i (P_inside k (K_charge n) S_total) m))
  | c_charge_end k n :
      threads m !! i = Some (P_charge k n) → (Z.to_nat kNumShards <= k)%nat →
      cache_step i m (goto i (P_return (Ans_charge n)) m)
  | c_access k K p c p' c' :
      threads m !! i = Some (P_inside k K p) → mutexes m !! k = Some (Some i) → shards m !! k = Some c →
      section_step p c = Some (p', c') →
      cache_step i m (write_shard k c' (goto i (P_inside k K p') m))
  | c_unlock k K r t :
      threads m !! i = Some (P_inside k K (S_end r)) → mutexes m !! k = Some (Some i) →
      resume k K r = Some t → cache_step i m (shard_mutex k None (goto i t m))
  | c_id_lock :
      threads m !! i = Some (P_called Call_NewId) → id_mutex m = None →
      cache_step i m (write_id (last_id m) (Some i) (goto i P_id m))
  | c_id :
      threads m !! i = Some P_id → id_mutex m = Some i →
      cache_step i m (write_id (u64 (last_id m + 1)) (Some i) (goto i (P_id_unlock (u64 (last_id m + 1))) m))
  | c_id_unlock id :
      threads m !! i = Some (P_id_unlock id) → id_mutex m = Some i →
      cache_step i m (write_id (last_id m) None (goto i (P_return (Ans_id id)) m))
  | c_return x :
      threads m !! i = Some (P_return x) →
      cache_step i m
        {| shards := shards m; mutexes := mutexes m; last_id := last_id m; id_mutex := id_mutex m;
           threads := <[i := P_outside]> (threads m); refs_held := refs_held m ⊎ gives x;
           events := events m ++ [Ev_return i x] |}.

Definition any_cache_step (m m' : machine) : Prop := ∃ i, cache_step i m m'.

(** A thread waits for a mutex that another one holds. *)
Definition waits_for (t : cache_pc) (m : machine) (j : nat) : Prop :=
  match t with
  | P_called Call_NewId => id_mutex m = Some j
  | P_called cl => ∃ k p, enter cl = Some (k, p) ∧ mutexes m !! k = Some (Some j)
  | P_release h k => mutexes m !! k = Some (Some j)
  | P_prune k | P_charge k _ => mutexes m !! k = Some (Some j)
  | _ => False
  end.

(** ** The relation to atomic calls

    A call takes effect when its thread locks the shard: from then on the shard of the
    atomic cache is what the section will have made of it. *)

(** What a thread outside of critical sections has done. *)
Definition plain (t : cache_pc) : option status :=
  match t with
  | P_outside => Some A_outside
  | P_called Call_Prune | P_called Call_TotalCharge => None
  | P_called cl => Some (A_called cl)
  | P_release h k => if decide (k = h.1) then Some (A_called (Call_Release h)) else None
  | P_prune k => Some (A_prune k)
  | P_charge k n => Some (A_charge k n)
  | P_return x => Some (A_done x)
  | P_inside _ _ _ | P_id | P_id_unlock _ => None
  end.

(** A shard [c] in the implementation and [c'] in the atomic cache, while thread [i] is
    inside. *)
Record inside_rel (m : machine) (a : atomic_cache) (k i : nat) (c c' : LRUCache) : Prop := {
  ir_rel : ∃ K p r t s,
    threads m !! i = Some (P_inside k K p) ∧ completes p c r c' ∧ resume k K r = Some t ∧
    plain t = Some s ∧ statuses a !! i = Some s ∧
    ∀ e, r = R_handle e → references (known a) (k, e) = 1%nat }.

Definition shard_rel (m : machine) (a : atomic_cache) (k : nat) : Prop :=
  ∃ c c' o, shards m !! k = Some c ∧ shard_ (cache a) !! k = Some c' ∧ mutexes m !! k = Some o ∧
    match o with None => c = c' | Some i => inside_rel m a k i c c' end.

Definition thread_rel (m : machine) (a : atomic_cache) (i : nat) : Prop :=
  ∀ t, threads m !! i = Some t →
  match t with
  | P_inside k _ _ => mutexes m !! k = Some (Some i)
  | P_id | P_id_unlock _ => id_mutex m = Some i
  | _ => ∃ s, plain t = Some s ∧ statuses a !! i = Some s
  end.

Definition id_rel (m : machine) (a : atomic_cache) : Prop :=
  match id_mutex m with
  | None => last_id_ (cache a) = last_id m
  | Some i =>
      statuses a !! i = Some (A_done (Ans_id (last_id_ (cache a)))) ∧
      (threads m !! i = Some P_id ∧ last_id_ (cache a) = u64 (last_id m + 1) ∨
       threads m !! i = Some (P_id_unlock (last_id m)) ∧ last_id_ (cache a) = last_id m)
  end.

Record related (m : machine) (a : atomic_cache) : Prop := {
  re_shards k : (k < Z.to_nat kNumShards)%nat → shard_rel m a k;
  re_threads i : thread_rel m a i;
  re_id : id_rel m a;
  re_length : length (statuses a) = length (threads m);
  re_held : refs_held m = held a;
  re_events : events m = history a;
  re_mutexes : length (mutexes m) = Z.to_nat kNumShards;
  re_count : length (shards m) = Z.to_nat kNumShards }.

Lemma mutex_shard m a k o : related m a → mutexes m !! k = Some o → (k < Z.to_nat kNumShards)%nat.
Proof. intros R H. rewrite <- (re_mutexes _ _ R). by eapply lookup_lt_Some. Qed.

(** ** Lemmas: what a step leaves alone *)

Lemma shard_frame m a m' a' i t t' s' k :
  shard_rel m a k → threads m !! i = Some t → (∀ K p, t ≠ P_inside k K p) →
  threads m' = <[i := t']> (threads m) → statuses a' = <[i := s']> (statuses a) →
  shards m' !! k = shards m !! k → mutexes m' !! k = mutexes m !! k →
  shard_ (cache a') !! k = shard_ (cache a) !! k →
  (∀ e, references (known a') (k, e) = references (known a) (k, e)) → shard_rel m' a' k.
Proof.
  intros (c & c' & o & Ec & Ec' & Eo & H) Hi Ht Et Es E1 E2 E3 E4. exists c, c', o.
  split; [congruence|]. split; [congruence|]. split; [congruence|]. destruct o as [j|]; [|done].
  destruct H as [(K & p & r & u & s & Hj & Hc & Ha & Hp & Hs & Hr)].
  assert (i ≠ j) as Hne by (intros ->; rewrite Hj in Hi; injection Hi as <-; by eapply Ht).
  constructor. exists K, p, r, u, s. rewrite Et, Es, !list_lookup_insert_ne by done.
  split_and!; try done. intros e He. rewrite E4. auto.
Qed.

Lemma thread_frame m a m' a' i t' s' j :
  thread_rel m a j → j ≠ i → threads m' = <[i := t']> (threads m) → statuses a' = <[i := s']> (statuses a) →
  (∀ k, mutexes m !! k = Some (Some j) → mutexes m' !! k = Some (Some j)) →
  (id_mutex m = Some j → id_mutex m' = Some j) → thread_rel m' a' j.
Proof.
  intros H Hne Et Es Hm Hid t. rewrite Et, Es, !list_lookup_insert_ne by done. intros Ht. specialize (H t Ht).
  destruct t; auto.
Qed.

Definition in_id (t : cache_pc) : Prop := match t with P_id | P_id_unlock _ => True | _ => False end.

Lemma id_frame m a m' a' i t t' s' :
  id_rel m a → threads m !! i = Some t → ¬ in_id t →
  threads m' = <[i := t']> (threads m) → statuses a' = <[i := s']> (statuses a) →
  id_mutex m' = id_mutex m → last_id m' = last_id m → last_id_ (cache a') = last_id_ (cache a) → id_rel m' a'.
Proof.
  unfold id_rel. intros H Hi Ht Et Es -> -> ->. destruct (id_mutex m) as [j|]; [|done].
  assert (i ≠ j) as Hne.
  { intros ->. destruct H as [_ [[Hj _]|[Hj _]]]; rewrite Hj in Hi; injection Hi as <-; by apply Ht. }
  by rewrite Et, Es, !list_lookup_insert_ne.
Qed.

(** Thread [i] makes a step that concerns at most one shard and, if [b], the ids. *)
Lemma related_step (o : option nat) (b : bool) i m a m' a' t t' s' :
  related m a → threads m !! i = Some t →
  threads m' = <[i := t']> (threads m) → statuses a' = <[i := s']> (statuses a) →
  (∀ k K p, t = P_inside k K p → o = Some k) →
  (∀ k, o ≠ Some k → shards m' !! k = shards m !! k ∧ mutexes m' !! k = mutexes m !! k ∧
     shard_ (cache a') !! k = shard_ (cache a) !! k ∧
     ∀ e, references (known a') (k, e) = references (known a) (k, e)) →
  (∀ k, o = Some k → (∀ j, mutexes m !! k = Some (Some j) → j = i) ∧ shard_rel m' a' k) →
  (if b then id_rel m' a' ∧ ∀ j, id_mutex m = Some j → j = i
   else ¬ in_id t ∧ id_mutex m' = id_mutex m ∧ last_id m' = last_id m ∧ last_id_ (cache a') = last_id_ (cache a)) →
  thread_rel m' a' i → refs_held m' = held a' → events m' = history a' →
  length (mutexes m') = length (mutexes m) → length (shards m') = length (shards m) → related m' a'.
Proof.
  intros [R1 R2 R3 R4 R5 R6 R7 R8] Hi Et Es Hin Hout Ho Hid Hti Hh He Hl Hl'. split; try done.
  - intros k Hk. destruct (decide (o = Some k)) as [Ek|Hk']; [by apply Ho|].
    destruct (Hout k Hk') as (E1 & E2 & E3 & E4). eapply shard_frame; try done; [by apply R1|].
    intros K p ->. by apply Hk', (Hin k K p).
  - intros j. destruct (decide (j = i)) as [->|Hne]; [done|]. eapply thread_frame; try done.
    + intros k Hk. destruct (decide (o = Some k)) as [Ek|Hk'].
      * by destruct (Hne (proj1 (Ho k Ek) j Hk)).
      * destruct (Hout k Hk') as (_ & E & _). by rewrite E.
    + intros Hj. destruct b; [by destruct (Hne (proj2 Hid j Hj))|]. destruct Hid as (_ & E & _). by rewrite E.
  - destruct b; [by apply Hid|]. destruct Hid as (Hn & E1 & E2 & E3). by eapply id_frame.
  - by rewrite Et, Es, !length_insert.
  - congruence.
  - congruence.
Qed.

(** ** Lemmas: the kinds of steps *)

Lemma plain_not_in_id t s : plain t = Some s → ¬ in_id t.
Proof. intros H. destruct t; simpl; (tauto || done). Qed.

(** No thread is inside of a critical section. *)
Lemma related_local i m a m' a' t t' s' :
  related m a → threads m !! i = Some t → is_Some (plain t) → plain t' = Some s' →
  threads m' = <[i := t']> (threads m) → statuses a' = <[i := s']> (statuses a) →
  shards m' = shards m → mutexes m' = mutexes m → last_id m' = last_id m → id_mutex m' = id_mutex m →
  cache a' = cache a → (∀ h, references (known a') h = references (known a) h) →
  refs_held m' = held a' → events m' = history a' → related m' a'.
Proof.
  intros R Hi [s Hs] Ht' Et Es E1 E2 E3 E4 E5 E6 Hh He.
  eapply (related_step None false i); try done.
  - by intros k K p ->.
  - intros k _. by rewrite E1, E2, E5.
  - split; [by eapply plain_not_in_id|]. by rewrite E5.
  - intros u Hu. rewrite Et, list_lookup_insert_eq in Hu by (by eapply lookup_lt_Some). injection Hu as <-.
    assert (statuses a' !! i = Some s') as Ha.
    { rewrite Es, list_lookup_insert_eq; [done|]. rewrite (re_length _ _ R). by eapply lookup_lt_Some. }
    destruct t'; try done; by exists s'.
  - by rewrite E2.
  - by rewrite E1.
Qed.

(** Thread [i] locks shard [k]; the atomic cache makes the step of the whole section. *)
Lemma related_lock i m a t k K p c c' r t' s' g v :
  related m a → threads m !! i = Some t → is_Some (plain t) → (k < Z.to_nat kNumShards)%nat →
  mutexes m !! k = Some None → shard_ (cache a) !! k = Some c → completes p c r c' →
  resume k K r = Some t' → plain t' = Some s' →
  shard_ g = <[k := c']> (shard_ (cache a)) → last_id_ g = last_id_ (cache a) →
  (∀ e, r = R_handle e → references v (k, e) = 1%nat) →
  (∀ h : Handle, h.1 ≠ k → references v h = references (known a) h) →
  related (shard_mutex k (Some i) (goto i (P_inside k K p) m)) (moved i s' g v a).
Proof.
  intros R Hi [s Hs] Hk Hm Ec Hc Ha Hp Eg Eid Hr Hrefs.
  pose proof (lookup_lt_Some _ _ _ Hi) as Hlt. pose proof (re_length _ _ R) as Hlen.
  destruct (re_shards _ _ R k Hk) as (c0 & c1 & o & E0 & E1 & Eo & Hrel).
  rewrite Hm in Eo. injection Eo as <-. subst c1. rewrite Ec in E1. injection E1 as <-.
  eapply (related_step (Some k) false i); try done; cbn [shard_mutex goto moved threads mutexes shards statuses cache known].
  - by intros k' K' p' ->.
  - intros k' Hne. rewrite list_lookup_insert_ne by congruence. split_and!; try done.
    + rewrite Eg. apply list_lookup_insert_ne. congruence.
    + intros e. apply Hrefs. simpl. congruence.
  - intros k' [= <-]. split; [intros j Hj; congruence|]. exists c, c', (Some i).
    cbn [shard_mutex goto moved threads mutexes shards statuses cache known].
    rewrite list_lookup_insert_eq by (by eapply lookup_lt_Some).
    rewrite Eg, list_lookup_insert_eq by (by eapply lookup_lt_Some).
    split_and!; try done. constructor. exists K, p, r, t', s'.
    cbn [shard_mutex goto moved threads statuses known].
    rewrite list_lookup_insert_eq by done. rewrite list_lookup_insert_eq by lia. done.
  - split; [by eapply plain_not_in_id|done].
  - intros u Hu. cbn [shard_mutex goto threads mutexes] in *. rewrite list_lookup_insert_eq in Hu by done.
    injection Hu as <-. by rewrite list_lookup_insert_eq by (by eapply lookup_lt_Some).
  - apply (re_held _ _ R).
  - apply (re_events _ _ R).
  - apply length_insert.
Qed.

Lemma insert_status i m a t s :
  related m a → threads m !! i = Some t → statuses a !! i = Some s → <[i := s]> (statuses a) = statuses a.
Proof. intros _ _ H. by apply list_insert_id. Qed.

(** An access inside of a section is none of the atomic cache. *)
Lemma related_access i m a k K p c p' c' :
  related m a → threads m !! i = Some (P_inside k K p) →
  mutexes m !! k = Some (Some i) → shards m !! k = Some c → section_step p c = Some (p', c') →
  related (write_shard k c' (goto i (P_inside k K p') m)) a.
Proof.
  intros R Hi Hm Ec Est. pose proof (lookup_lt_Some _ _ _ Hi) as Hlt. pose proof (mutex_shard _ _ _ _ R Hm) as Hk.
  destruct (re_shards _ _ R k Hk) as (c0 & g & o & E0 & E1 & Eo & Hrel).
  rewrite Hm in Eo. injection Eo as <-. rewrite Ec in E0. injection E0 as <-.
  destruct Hrel as [(K1 & p1 & r & t & s & Hj & Hc & Ha & Hp & Hs & Hr)].
  rewrite Hi in Hj. injection Hj as <- <-.
  apply completes_inv in Hc as [[-> _]|(p2 & c2 & Est2 & Hc)]; [done|].
  rewrite Est in Est2. injection Est2 as <- <-.
  eapply (related_step (Some k) false i _ _ _ _ _ _ s R Hi); try done;
    cbn [write_shard goto threads mutexes shards].
  - by rewrite list_insert_id.
  - by intros k' K' p'' [= -> _ _].
  - intros k' Hne. rewrite list_lookup_insert_ne by congruence. done.
  - intros k' [= <-]. split; [intros j Hj; congruence|]. exists c', g, (Some i).
    cbn [write_shard goto threads mutexes shards].
    rewrite list_lookup_insert_eq by (by eapply lookup_lt_Some). split_and!; try done.
    constructor. exists K, p', r, t, s. cbn [write_shard goto threads].
    rewrite list_lookup_insert_eq by done. done.
  - split; [by intros []|done].
  - intros u Hu. cbn [write_shard goto threads mutexes] in *. rewrite list_lookup_insert_eq in Hu by done.
    by injection Hu as <-.
  - apply (re_held _ _ R).
  - apply (re_events _ _ R).
  - apply length_insert.
Qed.

Lemma related_unlock i m a k K r t :
  related m a → threads m !! i = Some (P_inside k K (S_end r)) →
  mutexes m !! k = Some (Some i) → resume k K r = Some t → related (shard_mutex k None (goto i t m)) a.
Proof.
  intros R Hi Hm Eaf. pose proof (lookup_lt_Some _ _ _ Hi) as Hlt. pose proof (mutex_shard _ _ _ _ R Hm) as Hk.
  destruct (re_shards _ _ R k Hk) as (c & g & o & E0 & E1 & Eo & Hrel).
  rewrite Hm in Eo. injection Eo as <-.
  destruct Hrel as [(K1 & p1 & r1 & t1 & s & Hj & Hc & Ha & Hp & Hs & Hr)].
  rewrite Hi in Hj. injection Hj as <- <-.
  apply completes_inv in Hc as [[[= <-] ->]|(p2 & c2 & Est2 & Hc)]; [|done].
  rewrite Eaf in Ha. injection Ha as <-.
  eapply (related_step (Some k) false i _ _ _ _ _ _ s R Hi); try done;
    cbn [shard_mutex goto threads mutexes shards].
  - by rewrite list_insert_id.
  - by intros k' K' p'' [= -> _ _].
  - intros k' Hne. rewrite list_lookup_insert_ne by congruence. done.
  - intros k' [= <-]. split; [intros j Hj; congruence|]. exists c, c, None.
    cbn [shard_mutex goto threads mutexes shards].
    rewrite list_lookup_insert_eq by (by eapply lookup_lt_Some). done.
  - split; [by intros []|done].
  - intros u Hu. cbn [shard_mutex goto threads mutexes] in *. rewrite list_lookup_insert_eq in Hu by done.
    injection Hu as <-. destruct t; try done; by exists s.
  - apply (re_held _ _ R).
  - apply (re_events _ _ R).
  - apply length_insert.
Qed.

(** ** Lemmas: calls as critical sections *)

Lemma perform_enter cl g x g' k p :
  perform cl g = Some (x, g') → enter cl = Some (k, p) →
  ∃ c c' r, shard_ g !! k = Some c ∧ g' = with_shard g k c' ∧ completes p c r c' ∧
    resume k K_return r = Some (P_return x) ∧ (k < Z.to_nat kNumShards)%nat.
Proof.
  destruct cl as [key val ch d|key| | |key| | |]; try done; cbn [perform enter]; intros E Ee;
    injection Ee as <- <-.
  - apply bind_Some in E as ([h g1] & E & [= <- <-]).
    apply bind_Some in E as (c & Ec & ([e c'] & E & [= <- <-])%bind_Some).
    exists c, c', (R_handle e). split; [done|]. split; [done|]. split; [by apply completes_Insert|].
    split; [done|apply Shard_lt].
  - apply bind_Some in E as ([h g1] & E & [= <- <-]).
    apply bind_Some in E as (c & Ec & ([e c'] & E & [= <- <-])%bind_Some).
    exists c, c', (R_lookup e). split; [done|]. split; [done|]. split; [by apply completes_Lookup|].
    split; [done|apply Shard_lt].
  - apply bind_Some in E as (g1 & E & [= <- <-]).
    apply bind_Some in E as (c & Ec & (c' & E & [= <-])%bind_Some).
    exists c, c', R_void. split; [done|]. split; [done|]. split; [by apply completes_Erase|].
    split; [done|apply Shard_lt].
Qed.

Lemma perform_release h g x g' :
  perform (Call_Release h) g = Some (x, g') →
  x = Ans_void ∧ ∃ c c' hd, shard_ g !! h.1 = Some c ∧ g' = with_shard g h.1 c' ∧
    completes (S_unref h.2) c R_void c' ∧ handle_entry g h = Some hd ∧ Shard (hash hd) = h.1.
Proof.
  cbn [perform]. intros (g1 & E & [= <- <-])%bind_Some. split; [done|].
  apply bind_Some in E as (hd & Ehd & E). case_decide as Eh; [|done].
  apply bind_Some in E as (c & Ec & (c' & E & [= <-])%bind_Some). rewrite Eh in Ec |- *.
  exists c, c', hd. split; [done|]. split; [done|]. split; [by apply completes_Release|done].
Qed.

Lemma enter_takes cl k p : enter cl = Some (k, p) → takes cl = ∅.
Proof. by destruct cl. Qed.

Lemma no_handle (h : Handle) : h ∉ (∅ : gmultiset Handle).
Proof. rewrite elem_of_multiplicity, multiplicity_empty. lia. Qed.

Lemma resume_gives k r x h : resume k K_return r = Some (P_return x) → h ∈ gives x → h.1 = k.
Proof.
  destruct r as [e|[e|]| |n]; simpl; intros [= <-]; cbn [gives]; intros Hh;
    rewrite ?gmultiset_elem_of_singleton in Hh; subst; try done; by apply no_handle in Hh.
Qed.

Lemma view_step_new on v cl h v' :
  view_step on v cl (Ans_handle h) = Some v' → references v' h = 1%nat.
Proof.
  destruct cl; try done. cbn [view_step]. case_decide; [|done]. intros [= <-].
  unfold references. simpl. by rewrite lookup_insert_eq.
Qed.

Lemma other_references on v cl x v' k (h : Handle) :
  view_step on v cl x = Some v' → (∀ h', h' ∈ takes cl → h'.1 = k) → (∀ h', h' ∈ gives x → h'.1 = k) →
  h.1 ≠ k → references v' h = references v h.
Proof.
  intros E Ht Hg Hne. unfold references. rewrite (view_step_other _ _ _ _ _ h E); [done|..];
    intros Hh; [by apply Hne, Ht|by apply Hne, Hg].
Qed.

Lemma handle_shard on a h hd :
  atomic_ok on a → handle_entry (cache a) h = Some hd → (h.1 < Z.to_nat kNumShards)%nat.
Proof.
  intros Ha (c' & Ec' & _)%bind_Some. destruct (ao_rep _ _ Ha) as [A HR].
  pose proof (lookup_lt_Some _ _ _ Ec') as Hlt.
  rewrite (Forall2_length _ _ _ (s_shards _ _ (sr_rep _ _ _ _ HR))) in Hlt.
  by rewrite (s_length _ _ (sr_rep _ _ _ _ HR)) in Hlt.
Qed.

(** Through a handle that a client holds a thread reads what it would read if no
    section were under way. *)
Lemma entry_agrees on m a h hd' :
  related m a → atomic_ok on a → handle_entry (cache a) h = Some hd' →
  h ∈ held a ∨ (∃ i, statuses a !! i = Some (A_called (Call_Release h))) →
  ∃ hd, entry_at m h = Some hd ∧ fixed hd' = fixed hd.
Proof.
  intros R Ha Eh Hown. pose proof (handle_shard _ _ _ _ Ha Eh) as Hk.
  unfold handle_entry in Eh. apply bind_Some in Eh as (c' & Ec' & Ehd).
  destruct (re_shards _ _ R _ Hk) as (c & c1 & o & Ec & Ec1 & Eo & Hrel).
  rewrite Ec' in Ec1. injection Ec1 as <-. unfold entry_at. rewrite Ec. cbn [mbind option_bind].
  destruct o as [j|]; [|subst; eauto].
  destruct Hrel as [(K & p & r & t & s & Hj & Hc & Haf & Hp & Hs & Hr)].
  destruct (completes_keeps _ _ _ _ _ _ Hc Ehd) as (hd & E & F); [|by exists hd].
  intros ->. destruct K; try done. injection Haf as <-. injection Hp as <-.
  assert (((h.1, h.2) : Handle) = h) as Ehh by (by destruct h). rewrite Ehh in *.
  specialize (Hr h.2 eq_refl). rewrite Ehh in Hr.
  pose proof (ao_references _ _ Ha h) as Href. rewrite Hr in Href.
  destruct Hown as [Hin|[i Hi]].
  - rewrite elem_of_multiplicity in Hin. pose proof (sum_elem (owes h) _ _ _ Hs) as Ho.
    cbn [owes gives] in Ho. rewrite multiplicity_singleton_eq in Ho. lia.
  - assert (i ≠ j) as Hne by congruence. pose proof (sum_elem_two (owes h) _ _ _ _ _ Hi Hs Hne) as Ho.
    cbn [owes gives takes] in Ho. rewrite multiplicity_singleton_eq in Ho. lia.
Qed.

(** ** Lemmas: the simulation *)

Lemma plain_status m a i t s :
  related m a → threads m !! i = Some t → plain t = Some s → statuses a !! i = Some s.
Proof.
  intros R Hi Hp. pose proof (re_threads _ _ R i t Hi) as H.
  destruct t; try done; destruct H as (s' & E & Hs); congruence.
Qed.

(** While a thread is inside of a section or of [NewId] its call is done. *)
Lemma busy_status m a i t s :
  related m a → threads m !! i = Some t → plain t = None → statuses a !! i = Some s →
  ∀ cl, s ≠ A_called cl.
Proof.
  intros R Hi Hp Hs cl ->. pose proof (re_threads _ _ R i t Hi) as H.
  assert (∀ k K r t', resume k K r = Some t' → plain t' ≠ Some (A_called cl)) as Haf
    by (intros k [] []; simpl; congruence || (intros t' [= <-]; done)).
  pose proof (re_id _ _ R) as Hid. unfold id_rel in Hid.
  destruct t as [|cl'|h k|k K p|k|k n| |id|x]; try (destruct H as (s & E & _); congruence).
  - pose proof (mutex_shard _ _ _ _ R H) as Hk.
    destruct (re_shards _ _ R _ Hk) as (c & c1 & o & _ & _ & Eo & Hrel). rewrite H in Eo. injection Eo as <-.
    destruct Hrel as [(K1 & p1 & r & t & s & Hj & _ & Eaf & Hpl & Hs' & _)]. rewrite Hs in Hs'. injection Hs' as <-.
    by apply Haf in Eaf.
  - rewrite H in Hid. destruct Hid as [Hid _]. congruence.
  - rewrite H in Hid. destruct Hid as [Hid _]. congruence.
Qed.

(** A thread that has to read a value has not read it. *)
Lemma status_value m a i h :
  related m a → statuses a !! i = Some (A_called (Call_Value h)) → threads m !! i = Some (P_called (Call_Value h)).
Proof.
  intros R Hs. destruct (lookup_lt_is_Some_2 (threads m) i) as [t Ht].
  { rewrite <- (re_length _ _ R). by eapply lookup_lt_Some. }
  rewrite Ht. f_equal. destruct (plain t) as [s|] eqn:Hp.
  - pose proof (plain_status _ _ _ _ _ R Ht Hp) as E. rewrite Hs in E. injection E as <-.
    destruct t as [|cl|h' k| | | | | |]; simpl in Hp; try congruence; [|by case_decide].
    destruct cl; congruence.
  - by destruct (busy_status _ _ _ _ _ R Ht Hp Hs (Call_Value h)).
Qed.

Lemma may_start_call m a cl : related m a → may_start cl m → may_call cl a.
Proof.
  intros R. destruct cl as [| |h|h| | | |]; simpl; try done; rewrite (re_held _ _ R); [|done].
  intros [Hin [Hm|Hn]]; (split; [done|]); [by left|right]. intros j Hj. by apply (Hn j), (status_value _ a).
Qed.

Lemma simulates_enter on i m a cl k p :
  related m a → atomic_ok on a → short (history a) → threads m !! i = Some (P_called cl) →
  enter cl = Some (k, p) → mutexes m !! k = Some None →
  ∃ a', atomic_step on i a a' ∧ related (shard_mutex k (Some i) (goto i (P_inside k K_return p) m)) a'.
Proof.
  intros R Ha Hs Hi Ee Hm. assert (plain (P_called cl) = Some (A_called cl)) as Hp by (by destruct cl).
  pose proof (plain_status _ _ _ _ _ R Hi Hp) as Hst.
  destruct (perform_called _ _ _ _ Ha Hs Hst) as (Hal & x & g & v & Ep & Ev & _).
  destruct (perform_enter _ _ _ _ _ _ Ep Ee) as (c & c' & r & Ec & -> & Hc & Haf & Hk).
  eexists. split; [by eapply at_perform|]. eapply (related_lock i m a (P_called cl)); try done.
  - intros e ->. injection Haf as <-. by eapply view_step_new.
  - intros h Hh. eapply other_references; [exact Ev| |intros h'; by eapply resume_gives|done].
    intros h' Hin. rewrite (enter_takes _ _ _ Ee) in Hin; by apply no_handle in Hin.
Qed.

Lemma simulates_release on i m a h :
  related m a → atomic_ok on a → short (history a) → threads m !! i = Some (P_release h h.1) →
  mutexes m !! h.1 = Some None →
  ∃ a', atomic_step on i a a' ∧ related (shard_mutex h.1 (Some i) (goto i (P_inside h.1 K_return (S_unref h.2)) m)) a'.
Proof.
  intros R Ha Hs Hi Hm. assert (plain (P_release h h.1) = Some (A_called (Call_Release h))) as Hp
    by (simpl; by rewrite decide_True).
  pose proof (plain_status _ _ _ _ _ R Hi Hp) as Hst.
  destruct (perform_called _ _ _ _ Ha Hs Hst) as (Hal & x & g & v & Ep & Ev & _).
  destruct (perform_release _ _ _ _ Ep) as (-> & c & c' & hd & Ec & -> & Hc & _ & _).
  eexists. split; [by eapply at_perform|].
  eapply (related_lock i m a (P_release h h.1)); try done; [by eapply mutex_shard|].
  intros h1 Hh. eapply other_references; [exact Ev| |intros h' Hin; by apply no_handle in Hin|done].
  intros h' Hin. cbn [takes] in Hin. apply gmultiset_elem_of_singleton in Hin. by subst.
Qed.

Lemma simulates_prune on i m a k :
  related m a → atomic_ok on a → threads m !! i = Some (P_prune k) → mutexes m !! k = Some None →
  ∃ a', atomic_step on i a a' ∧
    related (shard_mutex k (Some i) (goto i (P_inside k K_prune (S_evict true R_void)) m)) a'.
Proof.
  intros R Ha Hi Hm. pose proof (plain_status _ _ _ _ _ R Hi eq_refl) as Hst.
  pose proof (mutex_shard _ _ _ _ R Hm) as Hk.
  destruct (re_shards _ _ R _ Hk) as (c0 & c & o & _ & Ec & _ & _).
  destruct (ao_rep _ _ Ha) as [A HR]. destruct (rep_prune_shard _ _ _ _ _ _ HR Ec) as (c' & A' & E & _).
  eexists. split; [by eapply at_prune|].
  eapply (related_lock i m a (P_prune k) k K_prune (S_evict true R_void) c c' R_void (P_prune (S k))); try done.
  by apply completes_Prune.
Qed.

Lemma simulates_charge on i m a k n :
  related m a → threads m !! i = Some (P_charge k n) → mutexes m !! k = Some None →
  ∃ a', atomic_step on i a a' ∧
    related (shard_mutex k (Some i) (goto i (P_inside k (K_charge n) S_total) m)) a'.
Proof.
  intros R Hi Hm. pose proof (plain_status _ _ _ _ _ R Hi eq_refl) as Hst.
  pose proof (mutex_shard _ _ _ _ R Hm) as Hk.
  destruct (re_shards _ _ R _ Hk) as (c0 & c & o & _ & Ec & _ & _).
  eexists. split; [by eapply at_charge|].
  eapply (related_lock i m a (P_charge k n) k (K_charge n) S_total c c (R_charge (TotalCharge c))); try done;
    [apply completes_Total|].
  symmetry. by apply list_insert_id.
Qed.

(** The increment of [last_id_]. *)
Lemma related_id i m a m' a' t t' s' :
  related m a → threads m !! i = Some t → (∀ k K p, t ≠ P_inside k K p) →
  threads m' = <[i := t']> (threads m) → statuses a' = <[i := s']> (statuses a) →
  shards m' = shards m → mutexes m' = mutexes m → shard_ (cache a') = shard_ (cache a) →
  (∀ h, references (known a') h = references (known a) h) → refs_held m' = refs_held m → held a' = held a →
  events m' = events m → history a' = history a →
  (∀ j, id_mutex m = Some j → j = i) → id_rel m' a' → thread_rel m' a' i → related m' a'.
Proof.
  intros R Hi Hn Et Es E1 E2 E3 E4 E5 E6 E7 E8 Hid Hrel Hti.
  eapply (related_step None true i); try done; [| |by rewrite E5, E6; apply R|by rewrite E7, E8; apply R|by rewrite E2|by rewrite E1].
  - intros k K p ->. by destruct (Hn k K p).
  - intros k _. by rewrite E1, E2, E3.
Qed.

Lemma id_alone m a i : related m a → id_mutex m = Some i → ∀ j, id_mutex m = Some j → j = i.
Proof. intros _ H j Hj. congruence. Qed.

Lemma simulates_id on i m a m' :
  related m a → atomic_ok on a → short (history a) →
  (threads m !! i = Some (P_called Call_NewId) ∧ id_mutex m = None ∧
     m' = write_id (last_id m) (Some i) (goto i P_id m)) ∨
  (threads m !! i = Some P_id ∧ id_mutex m = Some i ∧
     m' = write_id (u64 (last_id m + 1)) (Some i) (goto i (P_id_unlock (u64 (last_id m + 1))) m)) ∨
  (∃ id, threads m !! i = Some (P_id_unlock id) ∧ id_mutex m = Some i ∧
     m' = write_id (last_id m) None (goto i (P_return (Ans_id id)) m)) →
  ∃ a', (a' = a ∨ atomic_step on i a a') ∧ related m' a'.
Proof.
  intros R Ha Hs H. pose proof (re_id _ _ R) as Hid. pose proof (re_length _ _ R) as Hlen. unfold id_rel in Hid.
  destruct H as [(Hi & Em & ->)|[(Hi & Em & ->)|(id & Hi & Em & ->)]];
    pose proof (lookup_lt_Some _ _ _ Hi) as Hlt; rewrite Em in Hid.
  - pose proof (plain_status _ _ _ _ _ R Hi eq_refl) as Hst.
    destruct (perform_called _ _ _ _ Ha Hs Hst) as (Hal & x & g & v & Ep & Ev & _).
    pose proof Ep as Ep'. cbn [perform Cache_NewId ShardedLRUCache_Cache] in Ep'. unfold NewId in Ep'. injection Ep' as <- <-.
    eexists. split; [right; by eapply at_perform|].
    eapply (related_id i m a); try done; [..|by rewrite Em| |].
    + intros h. unfold references. cbn [moved known]. rewrite (view_step_other _ _ _ _ _ h Ev); [done|apply no_handle..].
    + unfold id_rel. cbn [write_id goto moved id_mutex threads statuses cache last_id last_id_].
      rewrite list_lookup_insert_eq by lia. rewrite list_lookup_insert_eq by done. rewrite Hid. auto.
    + intros t. cbn [write_id goto threads id_mutex]. rewrite list_lookup_insert_eq by done. by intros [= <-].
  - destruct Hid as [Hst [[_ Hid]|[Hi' _]]]; [|congruence].
    exists a. split; [by left|].
    eapply (related_id i m a _ a _ _ _ R Hi); try done; [by rewrite list_insert_id|by eapply id_alone| |].
    + unfold id_rel. cbn [write_id goto id_mutex threads last_id]. rewrite list_lookup_insert_eq by done. auto.
    + intros t. cbn [write_id goto threads id_mutex]. rewrite list_lookup_insert_eq by done. by intros [= <-].
  - destruct Hid as [Hst [[Hi' _]|[Hi' Hid]]]; [congruence|]. rewrite Hi in Hi'. injection Hi' as ->.
    exists a. split; [by left|].
    eapply (related_id i m a _ a _ _ _ R Hi); try done; [by rewrite list_insert_id|by eapply id_alone|].
    intros t. cbn [write_id goto threads id_mutex]. rewrite list_lookup_insert_eq by done. intros [= <-].
    eexists. split; [done|]. by rewrite <- Hid.
Qed.

(** What a thread that releases, or reads a value, finds in the entry. *)
Lemma release_reads on i m a h :
  related m a → atomic_ok on a → short (history a) → statuses a !! i = Some (A_called (Call_Release h)) →
  (h.1 < Z.to_nat kNumShards)%nat ∧ ∃ hd, entry_at m h = Some hd ∧ Shard (hash hd) = h.1.
Proof.
  intros R Ha Hs Hst. destruct (perform_called _ _ _ _ Ha Hs Hst) as (_ & x & g & v & Ep & _).
  destruct (perform_release _ _ _ _ Ep) as (_ & c & c' & hd' & _ & _ & _ & Eh & Esh).
  split; [by eapply handle_shard|].
  destruct (entry_agrees _ _ _ _ _ R Ha Eh) as (hd & E & F); [by right; exists i|].
  exists hd. split; [done|]. injection F as _ _ F _. by rewrite <- F.
Qed.

Lemma value_reads on i m a h :
  related m a → atomic_ok on a → short (history a) → statuses a !! i = Some (A_called (Call_Value h)) →
  ∃ hd v, entry_at m h = Some hd ∧ allowed (known a) (Call_Value h) = true ∧
    perform (Call_Value h) (cache a) = Some (Ans_value (value hd), cache a) ∧
    view_step on (known a) (Call_Value h) (Ans_value (value hd)) = Some v.
Proof.
  intros R Ha Hs Hst. destruct (perform_called _ _ _ _ Ha Hs Hst) as (Hal & x & g & v & Ep & Ev & _).
  pose proof Ep as Ep'. cbn [perform] in Ep'. apply bind_Some in Ep' as (y & Ey & [= <- <-]).
  apply fmap_Some in Ey as (hd' & Eh & ->).
  destruct (entry_agrees _ _ _ _ _ R Ha Eh) as (hd & E & F); [left; by eapply ao_value|].
  exists hd, v. injection F as F _ _ _. rewrite <- F. done.
Qed.

Lemma plain_first cl : plain (first cl) = Some (invoked cl).
Proof. by destruct cl. Qed.

Lemma simulates on i m a m' :
  cache_step i m m' → related m a → atomic_ok on a → short (history a) →
  ∃ a', (a' = a ∨ atomic_step on i a a') ∧ related m' a'.
Proof.
  intros Hst R Ha Hs. pose proof (re_held _ _ R) as Rh. pose proof (re_events _ _ R) as Re.
  destruct Hst as [cl Hi Hc|cl k p Hi Ee Hm|h hd Hi Eh|h Hi Hm|h hd Hi Eh|k Hi Hk Hm|k Hi Hk|k n Hi Hk Hm|k n Hi Hk
    |k K p c p' c' Hi Hm Ec Est|k K r t Hi Hm Haf|Hi Hm|Hi Hm|id Hi Hm|x Hi].
  - pose proof (plain_status _ _ _ _ _ R Hi eq_refl) as Hp.
    eexists. split; [right; apply at_call; [exact Hp|by eapply may_start_call]|].
    eapply (related_local i m a _ _ P_outside (first cl)); try done; [apply plain_first|cbn; congruence|cbn; congruence].
  - destruct (simulates_enter on i m a cl k p) as (a' & ? & ?); eauto.
  - pose proof (plain_status _ _ _ _ _ R Hi eq_refl) as Hp.
    destruct (release_reads _ _ _ _ _ R Ha Hs Hp) as (_ & hd1 & E & Esh).
    assert (hd1 = hd) as -> by congruence. exists a. split; [by left|].
    eapply (related_local i m a _ _ _ (P_release h (Shard (hash hd)))); try done;
      [cbn [plain]; by rewrite decide_True|by rewrite list_insert_id].
  - destruct (simulates_release on i m a h) as (a' & ? & ?); eauto.
  - pose proof (plain_status _ _ _ _ _ R Hi eq_refl) as Hp.
    destruct (value_reads _ _ _ _ _ R Ha Hs Hp) as (hd1 & v & E & Hal & Ep & Ev).
    assert (hd1 = hd) as -> by congruence.
    eexists. split; [right; by eapply at_perform|].
    eapply (related_local i m a _ _ _ (P_return (Ans_value (value hd)))); try done.
    intros h'. unfold references. cbn [moved known]. rewrite (view_step_other _ _ _ _ _ h' Ev); [done|apply no_handle..].
  - destruct (simulates_prune on i m a k) as (a' & ? & ?); eauto.
  - pose proof (plain_status _ _ _ _ _ R Hi eq_refl) as Hp.
    eexists. split; [right; by eapply at_prune_end|].
    by eapply (related_local i m a _ _ _ (P_return Ans_void)).
  - destruct (simulates_charge on i m a k n) as (a' & ? & ?); eauto.
  - pose proof (plain_status _ _ _ _ _ R Hi eq_refl) as Hp.
    eexists. split; [right; by eapply at_charge_end|].
    by eapply (related_local i m a _ _ _ (P_return (Ans_charge n))).
  - exists a. split; [by left|]. by eapply related_access.
  - exists a. split; [by left|]. by eapply related_unlock.
  - eapply simulates_id; eauto.
  - eapply simulates_id; eauto.
  - eapply simulates_id; eauto 6.
  - pose proof (plain_status _ _ _ _ _ R Hi eq_refl) as Hp.
    eexists. split; [right; by apply at_return|].
    eapply (related_local i m a _ _ _ P_outside); try done; cbn; congruence.
Qed.

(** ** Lemmas: progress *)

Definition can_step (i : nat) (m : machine) : Prop := ∃ m', cache_step i m m'.

(** The holder of a mutex can go on. *)
Lemma shard_holder_steps m a k i :
  related m a → mutexes m !! k = Some (Some i) → can_step i m ∧ ∃ K p, threads m !! i = Some (P_inside k K p).
Proof.
  intros R Hm. destruct (re_shards _ _ R _ (mutex_shard _ _ _ _ R Hm)) as (c & c' & o & Ec & _ & Eo & Hrel).
  rewrite Hm in Eo. injection Eo as <-. destruct Hrel as [(K & p & r & t & s & Hi & Hc & Haf & _)].
  split; [|eauto]. apply completes_inv in Hc as [[-> _]|(p1 & c1 & Est & _)]; eexists.
  - by eapply c_unlock.
  - by eapply c_access.
Qed.

Lemma id_holder_steps m a i :
  related m a → id_mutex m = Some i →
  can_step i m ∧ (threads m !! i = Some P_id ∨ threads m !! i = Some (P_id_unlock (last_id m))).
Proof.
  intros R Hm. pose proof (re_id _ _ R) as Hid. unfold id_rel in Hid. rewrite Hm in Hid.
  destruct Hid as [_ [[Hi _]|[Hi _]]]; (split; [eexists|by auto]); [by apply c_id|by eapply c_id_unlock].
Qed.

(** A thread that wants the mutex of a shard. *)
Lemma wants_shard m a i t k :
  related m a → threads m !! i = Some t → (∀ K p, t ≠ P_inside k K p) → (k < Z.to_nat kNumShards)%nat →
  (mutexes m !! k = Some None → can_step i m) → (∀ j, mutexes m !! k = Some (Some j) → waits_for t m j) →
  can_step i m ∨ ∃ j, j ≠ i ∧ waits_for t m j ∧ can_step j m.
Proof.
  intros R Hi Ht Hk Hfree Hwait. destruct (re_shards _ _ R _ Hk) as (_ & _ & o & _ & _ & Eo & _).
  destruct o as [j|]; [right|by left; auto]. destruct (shard_holder_steps _ _ _ _ R Eo) as (Hj & K & p & Hp).
  exists j. split; [|auto]. intros ->. rewrite Hi in Hp. injection Hp as ->. by apply (Ht K p).
Qed.

Lemma progress on m a i t :
  related m a → atomic_ok on a → short (history a) → threads m !! i = Some t →
  can_step i m ∨ ∃ j, j ≠ i ∧ waits_for t m j ∧ can_step j m.
Proof.
  intros R Ha Hs Hi. pose proof (re_threads _ _ R i t Hi) as Hrel.
  destruct t as [|cl|h k|k K p|k|k n| |id|x].
  - left. eexists. by apply (c_call i m Call_NewId).
  - destruct Hrel as (s & Hp & Hst). destruct (enter cl) as [[k p]|] eqn:Ee.
    + assert (s = A_called cl) as -> by (destruct cl; simplify_eq; by injection Hp).
      destruct (perform_called _ _ _ _ Ha Hs Hst) as (_ & x & g & v & Ep & _).
      destruct (perform_enter _ _ _ _ _ _ Ep Ee) as (_ & _ & _ & _ & _ & _ & _ & Hk).
      eapply wants_shard; try done; [intros Hm; eexists; by eapply c_enter|].
      intros j Hj. destruct cl; try done; by exists k, p.
    + destruct cl as [| |h|h| | | |]; try done; injection Hp as <-.
      * destruct (release_reads _ _ _ _ _ R Ha Hs Hst) as (_ & hd & E & _). left. eexists. by eapply c_hash.
      * destruct (value_reads _ _ _ _ _ R Ha Hs Hst) as (hd & v & E & _). left. eexists. by eapply c_value.
      * destruct (id_mutex m) as [j|] eqn:Em; [|left; eexists; by apply c_id_lock].
        destruct (id_holder_steps _ _ _ R Em) as (Hj & Hp). right. exists j. split; [|done].
        intros ->. destruct Hp; congruence.
  - destruct Hrel as (s & Hp & Hst). simpl in Hp. case_decide as Ek; [|done]. injection Hp as <-. subst k.
    destruct (release_reads _ _ _ _ _ R Ha Hs Hst) as (Hk & _).
    eapply wants_shard; try done. intros Hm. eexists. by eapply c_release.
  - left. by eapply shard_holder_steps.
  - destruct (decide (k < Z.to_nat kNumShards)%nat) as [Hk|Hk].
    + eapply wants_shard; try done. intros Hm. eexists. by eapply c_prune.
    + left. eexists. apply (c_prune_end i m k); [done|lia].
  - destruct (decide (k < Z.to_nat kNumShards)%nat) as [Hk|Hk].
    + eapply wants_shard; try done. intros Hm. eexists. by eapply c_charge.
    + left. eexists. apply (c_charge_end i m k n); [done|lia].
  - left. eexists. by apply c_id.
  - left. eexists. by eapply c_id_unlock.
  - left. eexists. by eapply c_return.
Qed.

(** ** Lemmas: executions *)

Lemma related_new on s n :
  (∃ A, sharded_rep on s view_new A) → related (machine_new s n) (atomic_new s n).
Proof.
  intros [A HR]. assert (length (shard_ s) = Z.to_nat kNumShards) as Hl.
  { rewrite (Forall2_length _ _ _ (s_shards _ _ (sr_rep _ _ _ _ HR))). apply (s_length _ _ (sr_rep _ _ _ _ HR)). }
  split; cbn [machine_new atomic_new shards mutexes threads statuses refs_held held events history]; try done.
  - intros k Hk. destruct (lookup_lt_is_Some_2 (shard_ s) k) as [c Ec]; [lia|].
    exists c, c, None. cbn [machine_new atomic_new shards mutexes cache]. by rewrite list_lookup_fmap, Ec.
  - intros i t Hi. apply lookup_replicate in Hi as [-> Hi]. exists A_outside. split; [done|].
    by apply lookup_replicate_2.
  - by rewrite !length_replicate.
  - by rewrite length_fmap.
Qed.

Lemma events_grow i m m' : cache_step i m m' → short (events m') → short (events m).
Proof. destruct 1; cbn; eauto using short_app. Qed.

Lemma reachable_related on s n m :
  (∃ A, sharded_rep on s view_new A) → atomic_ok on (atomic_new s n) →
  rtc any_cache_step (machine_new s n) m → short (events m) →
  ∃ a, rtc (any_atomic_step on) (atomic_new s n) a ∧ atomic_ok on a ∧ related m a.
Proof.
  intros HR Hok Hr. revert m Hr. refine (rtc_ind_r _ _ _ _).
  - intros _. exists (atomic_new s n). split; [done|]. split; [done|]. by eapply related_new.
  - intros m m' _ [i Hst] IH Hs. destruct IH as (a & Hra & Ha & R); [by eapply events_grow|].
    assert (short (history a)) as Hsa by (rewrite <- (re_events _ _ R); by eapply events_grow).
    destruct (simulates _ _ _ _ _ Hst R Ha Hsa) as (a' & [->|Hst'] & R'); [by exists a|].
    exists a'. split; [eapply rtc_r; [exact Hra|by exists i]|]. split; [|done].
    eapply atomic_step_ok; try done. by rewrite <- (re_events _ _ R').
Qed.

(** Between calls the implementation and the atomic cache agree. *)
Lemma quiet_shards m a :
  related m a → Forall (λ t, t = P_outside) (threads m) →
  length (shard_ (cache a)) = Z.to_nat kNumShards → shards m = shard_ (cache a) ∧ last_id m = last_id_ (cache a).
Proof.
  intros R Hq Hl. rewrite Forall_lookup in Hq. split.
  - apply list_eq_same_length with (n := Z.to_nat kNumShards); [done|apply (re_count _ _ R)|].
    intros k c c' Hk Ec Ec'. destruct (re_shards _ _ R _ Hk) as (c1 & c2 & o & E1 & E2 & Eo & Hrel).
    destruct o as [j|]; [|congruence]. destruct Hrel as [(K & p & _ & _ & _ & Hj & _)]. by apply Hq in Hj.
  - pose proof (re_id _ _ R) as Hid. unfold id_rel in Hid. destruct (id_mutex m) as [j|]; [|done].
    destruct Hid as [_ [[Hj _]|[Hj _]]]; by apply Hq in Hj.
Qed.

(** ** Properties *)

(** C5: the sharded cache is linearizable.  Threads call it as they like, releasing
    and reading only references that clients hold, and interleave their accesses in
    any way.  Whatever calls and returns happen, the same happen with a cache that
    performs each call at once at some moment between its call and its return, with an
    answer the interface allows ([Prune] and [TotalCharge]: at once for each shard).
    When no call is under way the shards are those of that cache, so that every entry
    inserted either had its deleter called once or is still held, and a client's
    reference is never to an entry that was freed.  No assertion fails and there is no
    deadlock: each thread can go on, or waits for a mutex whose holder can go on. *)
Theorem Cache_linearizable (cap : Z) (n : nat) :
  0 <= cap → cap + 15 < 2 ^ 64 →
  ∃ s0, NewLRUCache cap = Some s0 ∧
  ∀ m, rtc any_cache_step (machine_new s0 n) m → short (events m) →
  ∃ a, rtc (any_atomic_step (0 <? cap)) (atomic_new s0 n) a ∧
    history a = events m ∧ held a = refs_held m ∧
    (∀ h, (multiplicity h (refs_held m) <= references (known a) h)%nat) ∧
    (Forall (λ t, t = P_outside) (threads m) →
       shards m = shard_ (cache a) ∧ last_id m = last_id_ (cache a) ∧
       ∃ entries : list (Handle * entry), NoDup (entries.*1) ∧
         v_inserted (known a) ≡ₚ concat (deleted <$> shards m) ++ entries.*2 ∧
         ∀ h x k, v_pins (known a) !! h = Some (x, k) → (h, x) ∈ entries) ∧
    ∀ i t, threads m !! i = Some t → can_step i m ∨ ∃ j, j ≠ i ∧ waits_for t m j ∧ can_step j m.
Proof.
  intros H0 H1. destruct (NewLRUCache_rep cap H0 H1) as (s0 & E & HR). exists s0. split; [done|].
  intros m Hr Hs. pose proof (atomic_new_ok cap s0 n H0 H1 E) as Hok.
  destruct (reachable_related _ s0 n m HR Hok Hr Hs) as (a & Hra & Ha & R).
  exists a. split; [done|]. split; [by rewrite (re_events _ _ R)|]. split; [by rewrite (re_held _ _ R)|].
  split_and!.
  - intros h. rewrite (re_held _ _ R). pose proof (ao_references _ _ Ha h). lia.
  - intros Hq. destruct (ao_rep _ _ Ha) as [A HRa]. pose proof (sr_rep _ _ _ _ HRa) as Hsr.
    destruct (quiet_shards m a R Hq) as [-> ->].
    { by rewrite (Forall2_length _ _ _ (s_shards _ _ Hsr)), (s_length _ _ Hsr). }
    split; [done|]. split; [done|]. exact (Sharded_entries _ _ _ _ HRa).
  - intros i t. apply (progress (0 <? cap) m a); [done|done|]. by rewrite <- (re_events _ _ R).
Qed.

(** ** Witnesses *)

(** One thread is inside of [NewId] while another one calls [Insert]; the first one
    returns. *)
Lemma Cache_linearizable_witness :
  ∃ s0 m a id, NewLRUCache 100 = Some s0 ∧ rtc any_cache_step (machine_new s0 2) m ∧
    rtc (any_atomic_step true) (atomic_new s0 2) a ∧ can_step 0 m ∧
    history a = [Ev_call 0 Call_NewId; Ev_call 1 (Call_Insert [] 7 1 0); Ev_return 0 (Ans_id id)].
Proof.
  destruct (Cache_linearizable 100 2) as (s0 & E & H); [discriminate|reflexivity|].
  assert (∃ m id, rtc any_cache_step (machine_new s0 2) m ∧
            events m = [Ev_call 0 Call_NewId; Ev_call 1 (Call_Insert [] 7 1 0); Ev_return 0 (Ans_id id)] ∧
            threads m !! 0%nat = Some P_outside) as (m & id & Hr & He & H0).
  { eexists _, _. split; [|split].
    - eapply rtc_l; [exists 0%nat; apply (c_call 0 _ Call_NewId); [reflexivity|exact I]|].
      eapply rtc_l; [exists 0%nat; apply c_id_lock; reflexivity|].
      eapply rtc_l; [exists 1%nat; apply (c_call 1 _ (Call_Insert [] 7 1 0)); [reflexivity|exact I]|].
      eapply rtc_l; [exists 0%nat; apply c_id; reflexivity|].
      eapply rtc_l; [exists 0%nat; eapply c_id_unlock; reflexivity|].
      eapply rtc_l; [exists 0%nat; eapply c_return; reflexivity|]. apply rtc_refl.
    - reflexivity.
    - reflexivity. }
  destruct (H m Hr) as (a & Ha & Hh & _ & _ & _ & Hp); [rewrite He; reflexivity|].
  exists s0, m, a, id. split; [exact E|]. split; [exact Hr|]. split; [exact Ha|]. split; [|by rewrite Hh].
  destruct (Hp 0%nat _ H0) as [Hc|(j & _ & [] & _)]. exact Hc.
Defined.
