(* ===== verification/Iterator.v ===== *)
(** * Iterators (include/lldb/iterator.h, table/iterator.cpp,
    table/iterator_wrapper.h)

    The [Iterator] interface as a class of operations and the contract of its
    header as a class of laws: an iterator is a cursor over a list of entries.
    The empty iterator, the caching wrapper and the cleanup list follow.  A
    failed assertion is [None]. *)
From Stdlib Require Import ZArith Lia.
From Stdlib Require Import Strings.Byte.
From S2P Require Import Prelude Slice Status Comparator.
From stdpp Require Import base numbers list.

#[local] Open Scope Z_scope.

(** ** The interface *)

Abbreviation entry := (bytes * bytes)%type.

Class Iterator (I : Type) := {
  Valid : I → bool;
  SeekToFirst : I → option I;
  SeekToLast : I → option I;
  Seek : bytes → I → option I;
  Next : I → option I;
  Prev : I → option I;
  key : I → option bytes;
  value : I → option bytes;
  status : I → option Status }.
#[export] Hint Mode Iterator ! : typeclass_instances.

(** *** Positions in a list of entries: [None] is not valid *)

Definition pos_at (es : list entry) (n : nat) : option nat :=
  if decide (n < length es)%nat then Some n else None.

Definition pos_before (n : nat) : option nat :=
  match n with O => None | S n => Some n end.

(** The number of entries before the first one at or past the target. *)
Fixpoint seek_pos (C : Comparator) (target : bytes) (es : list entry) : nat :=
  match es with
  | [] => 0
  | e :: es => if Compare (fst e) target <? 0 then S (seek_pos C target es) else 0
  end.

(** The contract of iterator.h.  [stands i es p]: [i] is at position [p] of the
    source [es]; the targets of [Seek] are keys of [D]. *)
Class IteratorLaws (C : Comparator) (D : bytes → Prop) {I : Type} `{Iterator I}
  (stands : I → list entry → option nat → Prop) : Prop := {
  it_valid i es p : stands i es p → Valid i = bool_decide (is_Some p);
  it_bound i es n : stands i es (Some n) → (n < length es)%nat;
  it_first i es p : stands i es p → ∃ i', SeekToFirst i = Some i' ∧ stands i' es (pos_at es 0);
  it_last i es p : stands i es p →
    ∃ i', SeekToLast i = Some i' ∧ stands i' es (pos_before (length es));
  it_seek i es p target : stands i es p → D target →
    ∃ i', Seek target i = Some i' ∧ stands i' es (pos_at es (seek_pos C target es));
  it_next i es n : stands i es (Some n) →
    ∃ i', Next i = Some i' ∧ stands i' es (pos_at es (S n));
  it_prev i es n : stands i es (Some n) →
    ∃ i', Prev i = Some i' ∧ stands i' es (pos_before n);
  it_key i es n : stands i es (Some n) → key i = fst <$> es !! n;
  it_value i es n : stands i es (Some n) → value i = snd <$> es !! n }.

(** ** EmptyIterator *)

Record EmptyIterator := { status_ : Status }.

#[export] Instance EmptyIterator_Iterator : Iterator EmptyIterator := {|
  Valid _ := false;
  SeekToFirst i := Some i;
  SeekToLast i := Some i;
  Seek _ i := Some i;
  Next _ := None;
  Prev _ := None;
  key _ := None;
  value _ := None;
  status i := Some (status_ i) |}.

Definition NewEmptyIterator : EmptyIterator := {| status_ := Status_OK |}.
Definition NewErrorIterator (s : Status) : EmptyIterator := {| status_ := s |}.

(** ** IteratorWrapper *)

Section Wrapper.
Context {I : Type} `{Iterator I}.

Record IteratorWrapper := { iter_ : option I; valid_ : bool; key_ : bytes }.

Definition IteratorWrapper_new : IteratorWrapper :=
  {| iter_ := None; valid_ := false; key_ := [] |}.

Definition Update (w : IteratorWrapper) : option IteratorWrapper :=
  i ← iter_ w;
  if Valid i then
    k ← key i; Some {| iter_ := iter_ w; valid_ := true; key_ := k |}
  else Some {| iter_ := iter_ w; valid_ := false; key_ := key_ w |}.

(** [Set(iter)]; the iterator it held is deleted. *)
Definition Set_iter (w : IteratorWrapper) (iter : option I) : option IteratorWrapper :=
  let w := {| iter_ := iter; valid_ := valid_ w; key_ := key_ w |} in
  match iter with
  | None => Some {| iter_ := iter; valid_ := false; key_ := key_ w |}
  | Some _ => Update w
  end.

(** The moving operations: [assert(iter_)], the operation, [Update()]. *)
Definition move (f : I → option I) (w : IteratorWrapper) : option IteratorWrapper :=
  i ← iter_ w; i ← f i;
  Update {| iter_ := Some i; valid_ := valid_ w; key_ := key_ w |}.

Definition Wrapper_key (w : IteratorWrapper) : option bytes :=
  if valid_ w then Some (key_ w) else None.

Definition Wrapper_value (w : IteratorWrapper) : option bytes :=
  if valid_ w then i ← iter_ w; value i else None.

(** [status()], with [assert(iter_)]. *)
Definition Wrapper_status (w : IteratorWrapper) : option Status := i ← iter_ w; status i.

#[export] Instance IteratorWrapper_Iterator : Iterator IteratorWrapper := {|
  Valid w := valid_ w;
  SeekToFirst := move SeekToFirst;
  SeekToLast := move SeekToLast;
  Seek k := move (Seek k);
  Next := move Next;
  Prev := move Prev;
  key := Wrapper_key;
  value := Wrapper_value;
  status := Wrapper_status |}.
End Wrapper.

Arguments IteratorWrapper : clear implicits.

(** ** Cleanup functions *)

(** A node of the list: function (null if none), arguments. *)
Record CleanupNode := { function : option Z; arg1 : Z; arg2 : Z }.

(** [cleanup_head_] with the nodes that follow it. *)
Record Cleanup := { cleanup_head_ : CleanupNode; cleanup_next : list CleanupNode }.

Definition IsEmpty (n : CleanupNode) : bool := bool_decide (function n = None).

Definition Cleanup_new : Cleanup :=
  {| cleanup_head_ := {| function := None; arg1 := 0; arg2 := 0 |}; cleanup_next := [] |}.

Definition RegisterCleanup (c : Cleanup) (func : option Z) (a1 a2 : Z) : option Cleanup :=
  match func with
  | None => None
  | Some _ =>
      let node := {| function := func; arg1 := a1; arg2 := a2 |} in
      Some (if IsEmpty (cleanup_head_ c)
            then {| cleanup_head_ := node; cleanup_next := cleanup_next c |}
            else {| cleanup_head_ := cleanup_head_ c; cleanup_next := node :: cleanup_next c |})
  end.

(** [Run()]: the call it makes. *)
Definition Run (n : CleanupNode) : option (Z * Z * Z) :=
  f ← function n; Some (f, arg1 n, arg2 n).

(** The destructor: the calls in order. *)
Definition Cleanup_destroy (c : Cleanup) : option (list (Z * Z * Z)) :=
  if IsEmpty (cleanup_head_ c) then Some []
  else
    h ← Run (cleanup_head_ c);
    r ← mapM Run (cleanup_next c);
    Some (h :: r).

(** ** Lemmas *)

Lemma pos_at_Some es n m : pos_at es n = Some m ↔ m = n ∧ (n < length es)%nat.
Proof. unfold pos_at. case_decide; split; intros; destruct_and?; simplify_eq; done. Qed.

Lemma pos_at_None es n : pos_at es n = None ↔ (length es <= n)%nat.
Proof. unfold pos_at. case_decide; split; intros; try done; lia. Qed.

Lemma pos_before_Some n m : pos_before n = Some m ↔ n = S m.
Proof. destruct n; simpl; split; congruence. Qed.

Lemma seek_pos_length C target es : (seek_pos C target es <= length es)%nat.
Proof. induction es as [|e es IH]; simpl; [done|]. destruct (_ <? _); lia. Qed.

Section WrapperSpec.
Context (C : Comparator) (D : bytes → Prop) {I : Type} `{Iterator I}
  (stands : I → list entry → option nat → Prop) `{!IteratorLaws C D stands}.

(** The cached validity and key are those of the iterator. *)
Definition wrapper_stands (w : IteratorWrapper I) (es : list entry) (p : option nat) : Prop :=
  ∃ i, iter_ w = Some i ∧ stands i es p ∧ valid_ w = Valid i ∧
    (valid_ w = true → key i = Some (key_ w)).

Lemma Update_spec i es p v k :
  stands i es p → ∃ w', Update {| iter_ := Some i; valid_ := v; key_ := k |} = Some w' ∧
                       wrapper_stands w' es p.
Proof.
  intros Hs. unfold Update. simpl. pose proof (it_valid _ _ _ Hs) as Hv.
  destruct (Valid i) eqn:E.
  - symmetry in Hv. apply bool_decide_eq_true in Hv as [n ->].
    pose proof (it_key _ _ _ Hs) as Hk. pose proof (it_bound _ _ _ Hs) as Hn.
    apply lookup_lt_is_Some_2 in Hn as [e He]. rewrite He in Hk. rewrite Hk. simpl.
    eexists. split; [done|]. exists i. by rewrite E.
  - eexists. split; [done|]. exists i. simpl. by rewrite E.
Qed.

Lemma Set_iter_spec w i es p :
  stands i es p → ∃ w', Set_iter w (Some i) = Some w' ∧ wrapper_stands w' es p.
Proof. intros Hs. by apply Update_spec. Qed.

Lemma move_spec f w es p p' :
  wrapper_stands w es p → (∀ i, stands i es p → ∃ i', f i = Some i' ∧ stands i' es p') →
  ∃ w', move f w = Some w' ∧ wrapper_stands w' es p'.
Proof.
  intros (i & Ei & Hs & _) Hf. destruct (Hf i Hs) as (i' & E & Hs'). unfold move.
  rewrite Ei. cbn [mbind option_bind]. rewrite E. by apply Update_spec.
Qed.

Lemma IteratorWrapper_laws : IteratorLaws C D wrapper_stands.
Proof.
  split.
  - intros w es p (i & _ & Hs & Hv & _). simpl. rewrite Hv. by eapply it_valid.
  - intros w es n (i & _ & Hs & _). by eapply it_bound.
  - intros w es p Hw. apply (move_spec _ _ _ _ _ Hw). intros i. apply it_first.
  - intros w es p Hw. apply (move_spec _ _ _ _ _ Hw). intros i. apply it_last.
  - intros w es p t Hw Ht. apply (move_spec _ _ _ _ _ Hw). intros i Hs. by eapply it_seek.
  - intros w es n Hw. apply (move_spec _ _ _ _ _ Hw). intros i. apply it_next.
  - intros w es n Hw. apply (move_spec _ _ _ _ _ Hw). intros i. apply it_prev.
  - intros w es n (i & _ & Hs & Hv & Hk). simpl. unfold Wrapper_key.
    pose proof (it_valid _ _ _ Hs) as Hvi. rewrite bool_decide_true in Hvi by done.
    rewrite Hvi in Hv. rewrite Hv in Hk |- *. rewrite <- Hk by done. by eapply it_key.
  - intros w es n (i & Ei & Hs & Hv & Hk). simpl. unfold Wrapper_value.
    pose proof (it_valid _ _ _ Hs) as Hvi. rewrite bool_decide_true in Hvi by done.
    rewrite Hv, Hvi, Ei. by eapply it_value.
Qed.
End WrapperSpec.

Lemma EmptyIterator_laws C D :
  IteratorLaws C D (λ (_ : EmptyIterator) es p, es = [] ∧ p = None).
Proof.
  split; try by (intros ? ? ? [_ [=]]).
  - by intros i es p [-> ->].
  - intros i es p [-> ->]. by exists i.
  - intros i es p [-> ->]. by exists i.
  - intros i es p t [-> ->] _. by exists i.
Qed.

(** What has been registered so far, first to last. *)
Definition registered (c : Cleanup) (fs : list (Z * Z * Z)) : Prop :=
  match fs with
  | [] => c = Cleanup_new
  | f :: fs =>
      let node f := {| function := Some f.1.1; arg1 := f.1.2; arg2 := f.2 |} in
      c = {| cleanup_head_ := node f; cleanup_next := node <$> rev fs |}
  end.

Lemma RegisterCleanup_spec c fs f a1 a2 :
  registered c fs →
  ∃ c', RegisterCleanup c (Some f) a1 a2 = Some c' ∧ registered c' (fs ++ [(f, a1, a2)]).
Proof.
  intros Hr. eexists. split; [done|]. destruct fs as [|g fs]; simpl in Hr; subst c; simpl; [done|].
  by rewrite rev_unit.
Qed.

Lemma Cleanup_destroy_spec c fs :
  registered c fs →
  Cleanup_destroy c = Some (match fs with [] => [] | f :: fs => f :: rev fs end).
Proof.
  destruct fs as [|f fs]; simpl; intros ->; [done|]. unfold Cleanup_destroy. simpl.
  destruct f as [[f a1] a2]. simpl.
  assert (∀ l : list (Z * Z * Z), mapM Run ((λ f, {| function := Some f.1.1; arg1 := f.1.2; arg2 := f.2 |}) <$> l) = Some l)
    as ->; [|done].
  intros l. apply mapM_Some_2, Forall2_fmap_l, Forall_Forall2_diag, Forall_true. by intros [[g b1] b2].
Qed.

(** ** Properties *)

(** The wrapper around any iterator that meets the contract meets it too:
    its cached validity and key stay those of the iterator through every
    operation; [Set] makes it so. *)
Theorem IteratorWrapper_contract C D I (HI : Iterator I) stands (HL : IteratorLaws C D stands) :
  IteratorLaws C D (wrapper_stands stands) ∧
  ∀ (w : IteratorWrapper I) i es p, stands i es p →
    ∃ w', Set_iter w (Some i) = Some w' ∧ wrapper_stands stands w' es p.
Proof.
  split; [by apply IteratorWrapper_laws|]. intros w i es p. by eapply Set_iter_spec.
Qed.

(** The destructor of an iterator runs every registered cleanup function
    once: the first one registered first, then the others from the last one
    back; registering a null function fails its assertion. *)
Theorem Cleanup_runs_each_once f a1 a2 fs :
  ∃ c, foldl (λ c g, c ← c; RegisterCleanup c (Some g.1.1) g.1.2 g.2) (Some Cleanup_new)
         ((f, a1, a2) :: fs) = Some c ∧
    Cleanup_destroy c = Some ((f, a1, a2) :: rev fs) ∧
    Cleanup_destroy Cleanup_new = Some [] ∧ RegisterCleanup c None a1 a2 = None.
Proof.
  assert (Hfold : ∀ gs c hs, registered c hs →
    ∃ c', foldl (λ c g, c ← c; RegisterCleanup c (Some g.1.1) g.1.2 g.2) (Some c) gs = Some c' ∧
          registered c' (hs ++ gs)).
  { induction gs as [|[[g b1] b2] gs IH]; intros c hs Hr; [exists c; by rewrite app_nil_r|].
    destruct (RegisterCleanup_spec c hs g b1 b2 Hr) as (c' & E & Hr').
    cbn [foldl mbind option_bind fst snd]. rewrite E. destruct (IH _ _ Hr') as (c2 & E2 & Hr2).
    exists c2. split; [done|]. by rewrite <- app_assoc in Hr2. }
  destruct (Hfold ((f, a1, a2) :: fs) Cleanup_new [] eq_refl) as (c & E & Hr).
  exists c. split; [done|]. split; [by apply (Cleanup_destroy_spec _ _ Hr)|done].
Qed.

(** ** Witnesses *)

Lemma IteratorWrapper_contract_witness :
  ∃ w : IteratorWrapper EmptyIterator,
    Set_iter IteratorWrapper_new (Some NewEmptyIterator) = Some w ∧ Valid w = false.
Proof.
  destruct (IteratorWrapper_contract BytewiseComparator (λ _, True) EmptyIterator _ _
              (EmptyIterator_laws BytewiseComparator (λ _, True))) as [HL HS].
  destruct (HS IteratorWrapper_new NewEmptyIterator [] None (conj eq_refl eq_refl)) as (w & E & Hw).
  exists w. split; [exact E|]. exact (it_valid (IteratorLaws:=HL) w [] None Hw).
Defined.
