(* ===== verification/Merger.v ===== *)
(** * The merging iterator (table/merger.h, table/merger.cpp)

    It keeps one wrapper per child and moves the child at the smallest (forward)
    or largest (reverse) key; a change of direction repositions all the others.
    When no two entries of the children have equal keys it meets the contract of
    an iterator over the sorted merge of the children; a forward scan yields the
    stable merge in any case. *)
From Stdlib Require Import ZArith Lia.
From Stdlib Require Import Strings.Byte.
From S2P Require Import Prelude Slice Status Comparator Iterator.
From stdpp Require Import base numbers sorting list.

#[local] Open Scope Z_scope.

(** ** State *)

Inductive Direction := kForward | kReverse.

#[export] Instance Direction_eq_dec : EqDecision Direction.
Proof. solve_decision. Defined.

Section Model.
Context (C : Comparator) {I : Type} `{Iterator I}.

(** [current_] is an index in [children_]. *)
Record MergingIterator := {
  children_ : list (IteratorWrapper I);
  current_ : option nat;
  direction_ : Direction }.

(** ** Operations *)

(** One iteration of the loop of [FindSmallest]: the best child so far, if any,
    against child [i]. *)
Definition smallest_step (children : list (IteratorWrapper I)) (smallest : option nat) (i : nat) :
  option (option nat) :=
  child ← (children !! i);
  if Valid child then
    match smallest with
    | None => Some (Some i)
    | Some s =>
        w ← (children !! s); k ← key child; ks ← key w;
        Some (Some (if Compare k ks <? 0 then i else s))
    end
  else Some smallest.

Definition largest_step (children : list (IteratorWrapper I)) (largest : option nat) (i : nat) :
  option (option nat) :=
  child ← (children !! i);
  if Valid child then
    match largest with
    | None => Some (Some i)
    | Some l =>
        w ← (children !! l); k ← key child; kl ← key w;
        Some (Some (if 0 <? Compare k kl then i else l))
    end
  else Some largest.

Fixpoint find_loop (step : option nat → nat → option (option nat)) (idx : list nat)
  (best : option nat) : option (option nat) :=
  match idx with
  | [] => Some best
  | i :: idx => best ← step best i; find_loop step idx best
  end.

(** [for (int i = 0; i < n_; i++)] *)
Definition FindSmallest (children : list (IteratorWrapper I)) : option (option nat) :=
  find_loop (smallest_step children) (seq 0 (length children)) None.

(** [for (int i = n_ - 1; i >= 0; i--)] *)
Definition FindLargest (children : list (IteratorWrapper I)) : option (option nat) :=
  find_loop (largest_step children) (rev (seq 0 (length children))) None.

Definition Merging_new (children : list I) : option MergingIterator :=
  ws ← mapM (λ i, Set_iter IteratorWrapper_new (Some i)) children;
  Some {| children_ := ws; current_ := None; direction_ := kForward |}.

Definition Merging_Valid (m : MergingIterator) : bool := bool_decide (is_Some (current_ m)).

Definition Merging_SeekToFirst (m : MergingIterator) : option MergingIterator :=
  ws ← mapM SeekToFirst (children_ m);
  cur ← FindSmallest ws;
  Some {| children_ := ws; current_ := cur; direction_ := kForward |}.

Definition Merging_SeekToLast (m : MergingIterator) : option MergingIterator :=
  ws ← mapM SeekToLast (children_ m);
  cur ← FindLargest ws;
  Some {| children_ := ws; current_ := cur; direction_ := kReverse |}.

Definition Merging_Seek (target : bytes) (m : MergingIterator) : option MergingIterator :=
  ws ← mapM (Seek target) (children_ m);
  cur ← FindSmallest ws;
  Some {| children_ := ws; current_ := cur; direction_ := kForward |}.

(** [current_->key()], [current_->value()], with [assert(Valid())]. *)
Definition Merging_key (m : MergingIterator) : option bytes :=
  c ← current_ m; w ← (children_ m !! c); key w.
Definition Merging_value (m : MergingIterator) : option bytes :=
  c ← current_ m; w ← (children_ m !! c); value w.

(** The bodies of the loops that reposition a child. *)
Definition after_key (k : bytes) (child : IteratorWrapper I) : option (IteratorWrapper I) :=
  child ← Seek k child;
  if Valid child then
    kc ← key child; if Compare k kc =? 0 then Next child else Some child
  else Some child.

Definition before_key (k : bytes) (child : IteratorWrapper I) : option (IteratorWrapper I) :=
  child ← Seek k child;
  if Valid child then Prev child else SeekToLast child.

(** The loop over the children other than [current_]; [i] is the next index. *)
Fixpoint reposition (f : IteratorWrapper I → option (IteratorWrapper I)) (cur i : nat)
  (children : list (IteratorWrapper I)) : option (list (IteratorWrapper I)) :=
  match children with
  | [] => Some []
  | w :: ws =>
      w ← (if decide (i = cur) then Some w else f w);
      ws ← reposition f cur (S i) ws;
      Some (w :: ws)
  end.

(** [children_[i]] moves. *)
Definition move_child (f : IteratorWrapper I → option (IteratorWrapper I)) (i : nat)
  (children : list (IteratorWrapper I)) : option (list (IteratorWrapper I)) :=
  w ← (children !! i); w ← f w; Some (<[i := w]> children).

Definition Merging_Next (m : MergingIterator) : option MergingIterator :=
  c ← current_ m;
  ws ← (if decide (direction_ m ≠ kForward) then
          k ← Merging_key m; reposition (after_key k) c 0 (children_ m)
        else Some (children_ m));
  ws ← move_child Next c ws;
  cur ← FindSmallest ws;
  Some {| children_ := ws; current_ := cur; direction_ := kForward |}.

Definition Merging_Prev (m : MergingIterator) : option MergingIterator :=
  c ← current_ m;
  ws ← (if decide (direction_ m ≠ kReverse) then
          k ← Merging_key m; reposition (before_key k) c 0 (children_ m)
        else Some (children_ m));
  ws ← move_child Prev c ws;
  cur ← FindLargest ws;
  Some {| children_ := ws; current_ := cur; direction_ := kReverse |}.

(** The first status that is not OK. *)
Fixpoint first_error (st : Status) (children : list (IteratorWrapper I)) : option Status :=
  match children with
  | [] => Some st
  | w :: ws => st ← status w; if Status_ok st then first_error st ws else Some st
  end.

Definition Merging_status (m : MergingIterator) : option Status :=
  first_error Status_OK (children_ m).

#[export] Instance MergingIterator_Iterator : Iterator MergingIterator := {|
  Valid := Merging_Valid;
  SeekToFirst := Merging_SeekToFirst;
  SeekToLast := Merging_SeekToLast;
  Seek := Merging_Seek;
  Next := Merging_Next;
  Prev := Merging_Prev;
  key := Merging_key;
  value := Merging_value;
  status := Merging_status |}.

(** The iterators the factory returns. *)
Inductive AnyIterator :=
  | AEmpty (i : EmptyIterator)
  | AChild (i : I)
  | AMerging (m : MergingIterator).

Definition NewMergingIterator (children : list I) : option AnyIterator :=
  match children with
  | [] => Some (AEmpty NewEmptyIterator)
  | [i] => Some (AChild i)
  | _ => AMerging <$> Merging_new children
  end.

#[export] Instance AnyIterator_Iterator : Iterator AnyIterator := {|
  Valid a := match a with AEmpty i => Valid i | AChild i => Valid i | AMerging m => Valid m end;
  SeekToFirst a := match a with
    | AEmpty i => AEmpty <$> SeekToFirst i | AChild i => AChild <$> SeekToFirst i
    | AMerging m => AMerging <$> SeekToFirst m end;
  SeekToLast a := match a with
    | AEmpty i => AEmpty <$> SeekToLast i | AChild i => AChild <$> SeekToLast i
    | AMerging m => AMerging <$> SeekToLast m end;
  Seek k a := match a with
    | AEmpty i => AEmpty <$> Seek k i | AChild i => AChild <$> Seek k i
    | AMerging m => AMerging <$> Seek k m end;
  Next a := match a with
    | AEmpty i => AEmpty <$> Next i | AChild i => AChild <$> Next i
    | AMerging m => AMerging <$> Next m end;
  Prev a := match a with
    | AEmpty i => AEmpty <$> Prev i | AChild i => AChild <$> Prev i
    | AMerging m => AMerging <$> Prev m end;
  key a := match a with AEmpty i => key i | AChild i => key i | AMerging m => key m end;
  value a := match a with AEmpty i => value i | AChild i => value i | AMerging m => value m end;
  status a := match a with AEmpty i => status i | AChild i => status i | AMerging m => status m end |}.
End Model.

Arguments MergingIterator : clear implicits.
Arguments AnyIterator : clear implicits.

(** ** Merged lists

    A merged list tags every entry with the index of its child. *)
Abbreviation tagged := (nat * entry)%type.

Definition tkey (x : tagged) : bytes := fst (snd x).
Definition view (j : nat) (M : list tagged) : list entry := snd <$> filter (λ x, fst x = j) M.
Definition cnt (j : nat) (M : list tagged) : nat := length (view j M).

(** The order of the merge: by key, then by child. *)
Definition tlt (C : Comparator) (x y : tagged) : Prop :=
  Compare (tkey x) (tkey y) < 0 ∨ (Compare (tkey x) (tkey y) = 0 ∧ (fst x < fst y)%nat).

Lemma view_app j M1 M2 : view j (M1 ++ M2) = view j M1 ++ view j M2.
Proof. unfold view. by rewrite filter_app, fmap_app. Qed.

Lemma view_cons j x M : view j (x :: M) = (if decide (fst x = j) then [snd x] else []) ++ view j M.
Proof. unfold view. rewrite filter_cons. by case_decide. Qed.

Lemma cnt_app j M1 M2 : cnt j (M1 ++ M2) = (cnt j M1 + cnt j M2)%nat.
Proof. unfold cnt. by rewrite view_app, length_app. Qed.

Lemma cnt_cons j x M : cnt j (x :: M) = ((if decide (fst x = j) then 1 else 0) + cnt j M)%nat.
Proof. unfold cnt. rewrite view_cons, length_app. by case_decide. Qed.

Lemma cnt_take_drop j p M : cnt j M = (cnt j (take p M) + cnt j (drop p M))%nat.
Proof. by rewrite <- cnt_app, take_drop. Qed.

Lemma view_take_drop j p M : view j M = view j (take p M) ++ view j (drop p M).
Proof. by rewrite <- view_app, take_drop. Qed.

(** The entry of child [j] after the first [p] of the merge. *)
Lemma view_lookup_take j p M :
  view j M !! cnt j (take p M) = snd <$> head (filter (λ x, fst x = j) (drop p M)).
Proof.
  rewrite (view_take_drop j p M). unfold cnt. rewrite lookup_app_r by done.
  rewrite Nat.sub_diag. unfold view. rewrite list_lookup_fmap. by destruct (filter _ (drop p M)).
Qed.

Lemma view_lookup_last j p M n :
  cnt j (take p M) = S n → view j M !! n = snd <$> last (filter (λ x, fst x = j) (take p M)).
Proof.
  intros Hn. rewrite <- (take_drop p M) at 1. rewrite view_app. unfold cnt, view in *.
  rewrite length_fmap in Hn. rewrite lookup_app_l by (rewrite length_fmap; lia).
  rewrite list_lookup_fmap, last_lookup, Hn. done.
Qed.

(** ** Lemmas: finding the best child *)

Lemma elem_of_rev (i : nat) l : i ∈ rev l ↔ i ∈ l.
Proof. by rewrite !list_elem_of_In, <- in_rev. Qed.

Lemma find_loop_app step l1 l2 best :
  find_loop step (l1 ++ l2) best = (best ← find_loop step l1 best; find_loop step l2 best).
Proof.
  revert best. induction l1 as [|i l1 IH]; intros best; simpl; [done|].
  destruct (step best i); simpl; [apply IH|done].
Qed.

(** The best of [l1 ++ t :: l2] is [t]: some element of [l1] or none is the best
    of [l1], [t] replaces it and stays. *)
Lemma find_loop_mid step (P : nat → Prop) l1 t l2 :
  (∀ i best, i ∈ l1 → (∀ b, best = Some b → P b) →
     ∃ best', step best i = Some best' ∧ ∀ b, best' = Some b → P b) →
  (∀ best, (∀ b, best = Some b → P b) → step best t = Some (Some t)) →
  (∀ i, i ∈ l2 → step (Some t) i = Some (Some t)) →
  find_loop step (l1 ++ t :: l2) None = Some (Some t).
Proof.
  intros H1 Ht H2. rewrite find_loop_app.
  assert (∀ best, (∀ b, best = Some b → P b) →
    ∃ best', find_loop step l1 best = Some best' ∧ ∀ b, best' = Some b → P b) as Hl1.
  { induction l1 as [|i l1 IH]; intros best Hb; [by exists best|].
    destruct (H1 i best) as (b' & E & Hb'); [apply elem_of_cons; by left|done|].
    simpl. rewrite E. apply IH; [|done]. intros j b Hj. apply H1, elem_of_cons. by right. }
  destruct (Hl1 None) as (best & E & Hb); [done|]. rewrite E. simpl. rewrite Ht by done. simpl.
  clear - H2. induction l2 as [|i l2 IH]; simpl; [done|].
  rewrite H2 by (apply elem_of_cons; by left). apply IH. intros j Hj. apply H2, elem_of_cons. by right.
Qed.

Lemma find_loop_none step idx :
  (∀ i, i ∈ idx → step None i = Some None) → find_loop step idx None = Some None.
Proof.
  induction idx as [|i idx IH]; intros H; simpl; [done|].
  rewrite H by (apply elem_of_cons; by left). apply IH. intros j Hj. apply H, elem_of_cons. by right.
Qed.

Section Spec.
Context (C : Comparator) (D : bytes → Prop) `{!ComparatorLaws C D}.
Context {I : Type} `{HI : Iterator I} (stands : I → list entry → option nat → Prop)
  `{HL : !IteratorLaws C D stands}.

#[local] Abbreviation wstands := (wrapper_stands stands).

#[local] Instance wrapper_laws : IteratorLaws C D wstands := IteratorWrapper_laws C D stands.

(** Child [j] is at the entry [o], or not valid. *)
Definition child_at (ws : list (IteratorWrapper I)) (j : nat) (o : option tagged) : Prop :=
  ∃ w, ws !! j = Some w ∧
    match o with None => Valid w = false | Some x => Valid w = true ∧ key w = Some (tkey x) end.

(** [cur] describes the current entries of all children. *)
Record currents (ws : list (IteratorWrapper I)) (cur : nat → option tagged) : Prop := {
  cu_at j : (j < length ws)%nat → child_at ws j (cur j);
  cu_tag j x : cur j = Some x → fst x = j ∧ D (tkey x) }.

Lemma smallest_step_None ws cur i :
  currents ws cur → (i < length ws)%nat →
  smallest_step C ws None i = Some (fst <$> cur i) ∧ largest_step C ws None i = Some (fst <$> cur i).
Proof.
  intros [Hc Ht] Hi. destruct (Hc i Hi) as (w & Ew & Hw). unfold smallest_step, largest_step.
  rewrite Ew. cbn [mbind option_bind]. destruct (cur i) as [x|] eqn:E.
  - destruct Hw as [-> _]. destruct (Ht i x E) as [<- _]. done.
  - by rewrite Hw.
Qed.

Lemma smallest_step_Some ws cur i b y :
  currents ws cur → (i < length ws)%nat → (b < length ws)%nat → cur b = Some y →
  smallest_step C ws (Some b) i = Some (Some (match cur i with
    | Some x => if Compare (tkey x) (tkey y) <? 0 then i else b | None => b end)) ∧
  largest_step C ws (Some b) i = Some (Some (match cur i with
    | Some x => if 0 <? Compare (tkey x) (tkey y) then i else b | None => b end)).
Proof.
  intros [Hc Ht] Hi Hb Eb. destruct (Hc i Hi) as (w & Ew & Hw). destruct (Hc b Hb) as (v & Ev & Hv).
  rewrite Eb in Hv. destruct Hv as [_ Kv]. unfold smallest_step, largest_step.
  rewrite Ew, Ev. cbn [mbind option_bind]. destruct (cur i) as [x|] eqn:E.
  - destruct Hw as [-> Kw]. rewrite Kw, Kv. done.
  - by rewrite Hw.
Qed.

Lemma seq_split n t : (t < n)%nat → seq 0 n = seq 0 t ++ t :: seq (S t) (n - S t).
Proof.
  intros Ht. replace n with (t + S (n - S t))%nat at 1 by lia. by rewrite seq_app.
Qed.

Lemma FindSmallest_none ws cur :
  currents ws cur → (∀ j, (j < length ws)%nat → cur j = None) →
  FindSmallest C ws = Some None ∧ FindLargest C ws = Some None.
Proof.
  intros Hc Hn. split; apply find_loop_none; intros i Hi.
  - apply elem_of_seq in Hi as [_ Hi]. destruct (smallest_step_None ws cur i Hc) as [-> _]; [done|].
    by rewrite Hn.
  - rewrite elem_of_rev, elem_of_seq in Hi. destruct Hi as [_ Hi].
    destruct (smallest_step_None ws cur i Hc) as [_ ->]; [done|]. by rewrite Hn.
Qed.

Lemma tlt_cases x y :
  D (tkey x) → D (tkey y) → tlt C x y →
  Compare (tkey x) (tkey y) <= 0 ∧ 0 <= Compare (tkey y) (tkey x) ∧
  ((fst y < fst x)%nat → Compare (tkey x) (tkey y) < 0 ∧ 0 < Compare (tkey y) (tkey x)).
Proof.
  intros Hx Hy Hlt. pose proof (Compare_antisym _ _ Hx Hy). destruct Hlt as [?|[? ?]]; lia.
Qed.

Lemma FindSmallest_min ws cur t x :
  currents ws cur → (t < length ws)%nat → cur t = Some x →
  (∀ j y, (j < length ws)%nat → j ≠ t → cur j = Some y → tlt C x y) →
  FindSmallest C ws = Some (Some t).
Proof.
  intros Hc Ht Ex Hmin. unfold FindSmallest. rewrite (seq_split _ _ Ht).
  pose proof (cu_tag _ _ Hc) as Htag.
  apply (find_loop_mid _ (λ b, (b < t)%nat ∧ ∃ y, cur b = Some y)).
  - intros i best [_ Hi]%elem_of_seq Hb. destruct best as [b|].
    + destruct (Hb b eq_refl) as [Hbt [y Ey]].
      destruct (smallest_step_Some ws cur i b y Hc) as [-> _]; [lia|lia|done|].
      eexists. split; [done|]. intros b' [= <-]. destruct (cur i) eqn:Ei; [destruct (_ <? _)|]; eauto with lia.
    + destruct (smallest_step_None ws cur i Hc) as [-> _]; [lia|]. eexists. split; [done|].
      intros b. destruct (cur i) as [z|] eqn:Ei; [|done]. intros [= <-].
      destruct (Htag _ _ Ei) as [-> _]. split; [lia|eauto].
  - intros [b|] Hb.
    + destruct (Hb b eq_refl) as [Hbt [y Ey]].
      destruct (smallest_step_Some ws cur t b y Hc) as [-> _]; [lia|lia|done|]. rewrite Ex.
      destruct (Htag _ _ Ex) as [Ft Dx], (Htag _ _ Ey) as [Fb Dy].
      destruct (tlt_cases x y Dx Dy) as (_ & _ & H3); [apply (Hmin b); [lia|lia|done]|].
      destruct H3 as [H3 _]; [lia|]. by rewrite (proj2 (Z.ltb_lt _ _) H3).
    + destruct (smallest_step_None ws cur t Hc) as [-> _]; [lia|]. rewrite Ex. simpl.
      by destruct (Htag _ _ Ex) as [-> _].
  - intros i [Hi1 Hi2]%elem_of_seq.
    destruct (smallest_step_Some ws cur i t x Hc) as [-> _]; [lia|lia|done|].
    destruct (cur i) as [y|] eqn:Ei; [|done].
    destruct (Htag _ _ Ex) as [Ft Dx], (Htag _ _ Ei) as [Fi Dy].
    destruct (tlt_cases x y Dx Dy) as (_ & H2 & _); [apply (Hmin i); [lia|lia|done]|].
    by rewrite (proj2 (Z.ltb_ge _ _) H2).
Qed.

Lemma FindLargest_max ws cur t x :
  currents ws cur → (t < length ws)%nat → cur t = Some x →
  (∀ j y, (j < length ws)%nat → j ≠ t → cur j = Some y → tlt C y x) →
  FindLargest C ws = Some (Some t).
Proof.
  intros Hc Ht Ex Hmax. unfold FindLargest. rewrite (seq_split _ _ Ht), rev_app_distr.
  simpl. rewrite <- app_assoc. simpl. pose proof (cu_tag _ _ Hc) as Htag.
  apply (find_loop_mid _ (λ b, (t < b < length ws)%nat ∧ ∃ y, cur b = Some y)).
  - intros i best Hi Hb. rewrite elem_of_rev, elem_of_seq in Hi. destruct best as [b|].
    + destruct (Hb b eq_refl) as [Hbt [y Ey]].
      destruct (smallest_step_Some ws cur i b y Hc) as [_ ->]; [lia|lia|done|].
      eexists. split; [done|]. intros b' [= <-].
      destruct (cur i) eqn:Ei; [destruct (_ <? _)|]; eauto with lia.
    + destruct (smallest_step_None ws cur i Hc) as [_ ->]; [lia|]. eexists. split; [done|].
      intros b. destruct (cur i) as [z|] eqn:Ei; [|done]. intros [= <-].
      destruct (Htag _ _ Ei) as [-> _]. split; [lia|eauto].
  - intros [b|] Hb.
    + destruct (Hb b eq_refl) as [Hbt [y Ey]].
      destruct (smallest_step_Some ws cur t b y Hc) as [_ ->]; [lia|lia|done|]. rewrite Ex.
      destruct (Htag _ _ Ex) as [Ft Dx], (Htag _ _ Ey) as [Fb Dy].
      destruct (tlt_cases y x Dy Dx) as (_ & _ & H3); [apply (Hmax b); [lia|lia|done]|].
      destruct H3 as [_ H3]; [lia|]. by rewrite (proj2 (Z.ltb_lt _ _) H3).
    + destruct (smallest_step_None ws cur t Hc) as [_ ->]; [lia|]. rewrite Ex. simpl.
      by destruct (Htag _ _ Ex) as [-> _].
  - intros i Hi. rewrite elem_of_rev, elem_of_seq in Hi.
    destruct (smallest_step_Some ws cur i t x Hc) as [_ ->]; [lia|lia|done|].
    destruct (cur i) as [y|] eqn:Ei; [|done].
    destruct (Htag _ _ Ex) as [Ft Dx], (Htag _ _ Ei) as [Fi Dy].
    destruct (tlt_cases y x Dy Dx) as (H2 & _ & _); [apply (Hmax i); [lia|lia|done]|].
    by rewrite (proj2 (Z.ltb_ge _ _) H2).
Qed.

(** ** Lemmas: the children around a position of the merge *)

(** [M] is a merge of [n] children. *)
Record merged (n : nat) (M : list tagged) : Prop := {
  mg_sorted : StronglySorted (tlt C) M;
  mg_tag x : x ∈ M → (fst x < n)%nat;
  mg_key x : x ∈ M → D (tkey x) }.

(** Every child at its first entry that is not among the first [p]. *)
Definition fwd (ws : list (IteratorWrapper I)) (M : list tagged) (p : nat) : Prop :=
  ∀ j w, ws !! j = Some w → wstands w (view j M) (pos_at (view j M) (cnt j (take p M))).

(** Every child at its last entry among the first [q]. *)
Definition bwd (ws : list (IteratorWrapper I)) (M : list tagged) (q : nat) : Prop :=
  ∀ j w, ws !! j = Some w → wstands w (view j M) (pos_before (cnt j (take q M))).

Lemma child_at_stands ws M j w pos o :
  ws !! j = Some w → wstands w (view j M) pos →
  match o with
  | Some x => ∃ n, pos = Some n ∧ view j M !! n = Some (snd x)
  | None => pos = None
  end → child_at ws j o.
Proof.
  intros Ew Hs Ho. exists w. split; [done|]. pose proof (it_valid _ _ _ Hs) as Hv.
  destruct o as [x|].
  - destruct Ho as (n & -> & Hx). split; [done|]. rewrite (it_key _ _ _ Hs), Hx. done.
  - by subst pos.
Qed.

Lemma head_filter j (l : list tagged) x :
  head (filter (λ x, fst x = j) l) = Some x → fst x = j ∧ x ∈ l.
Proof.
  intros Hh. assert (x ∈ filter (λ x, fst x = j) l) as Hx.
  { destruct (filter _ l); [done|]. injection Hh as ->. apply elem_of_cons. by left. }
  by apply list_elem_of_filter in Hx.
Qed.

Lemma last_filter j (l : list tagged) x :
  last (filter (λ x, fst x = j) l) = Some x → fst x = j ∧ x ∈ l.
Proof. intros Hh%last_Some_elem_of. by apply list_elem_of_filter in Hh. Qed.

Lemma fwd_currents ws M p :
  merged (length ws) M → fwd ws M p →
  currents ws (λ j, head (filter (λ x, fst x = j) (drop p M))).
Proof.
  intros Hm Hf. split.
  - intros j Hj. apply lookup_lt_is_Some_2 in Hj as [w Ew].
    eapply child_at_stands; [exact Ew|by apply Hf|]. pose proof (view_lookup_take j p M) as Hv.
    destruct (head _) as [x|]; simpl in Hv.
    + eexists. split; [|exact Hv]. apply pos_at_Some. split; [done|]. by eapply lookup_lt_Some.
    + apply pos_at_None. by apply lookup_ge_None.
  - intros j x [Hx Hin]%head_filter. split; [done|]. apply (mg_key _ _ Hm).
    rewrite <- (take_drop p M). apply elem_of_app. by right.
Qed.

Lemma bwd_currents ws M q :
  merged (length ws) M → bwd ws M q →
  currents ws (λ j, last (filter (λ x, fst x = j) (take q M))).
Proof.
  intros Hm Hb. split.
  - intros j Hj. apply lookup_lt_is_Some_2 in Hj as [w Ew].
    eapply child_at_stands; [exact Ew|by apply Hb|].
    destruct (cnt j (take q M)) as [|n] eqn:En; simpl.
    + unfold cnt, view in En. rewrite length_fmap in En. apply nil_length_inv in En. by rewrite En.
    + pose proof (view_lookup_last j q M n En) as Hv.
      assert (is_Some (last (filter (λ x, fst x = j) (take q M)))) as [x Ex].
      { apply last_is_Some. intros E. unfold cnt, view in En. by rewrite E in En. }
      rewrite Ex in Hv |- *. eauto.
  - intros j x [Hx Hin]%last_filter. split; [done|]. apply (mg_key _ _ Hm).
    rewrite <- (take_drop q M). apply elem_of_app. by left.
Qed.

Lemma lookup_head_drop (M : list tagged) p : M !! p = head (drop p M).
Proof.
  pose proof (lookup_drop M p 0) as E. rewrite Nat.add_0_r in E. rewrite <- E. by destruct (drop p M).
Qed.

Lemma fwd_FindSmallest ws M p :
  merged (length ws) M → fwd ws M p → FindSmallest C ws = Some (fst <$> M !! p).
Proof.
  intros Hm Hf. pose proof (fwd_currents _ _ _ Hm Hf) as Hc.
  rewrite (lookup_head_drop M p). destruct (drop p M) as [|x rest] eqn:Ed; simpl.
  - by apply (FindSmallest_none _ _ Hc).
  - pose proof (mg_sorted _ _ Hm) as Hs. rewrite <- (take_drop p M), Ed in Hs.
    apply StronglySorted_app_1_r in Hs. apply StronglySorted_cons in Hs as [Hx _].
    apply (FindSmallest_min _ _ _ x Hc).
    + apply (mg_tag _ _ Hm). rewrite <- (take_drop p M), Ed. apply elem_of_mid.
    + by rewrite filter_cons, decide_True.
    + intros j y _ Hj Hy. rewrite filter_cons, decide_False in Hy by congruence.
      apply head_filter in Hy as [_ Hy]. rewrite Forall_forall in Hx. by apply Hx.
Qed.

Lemma bwd_FindLargest ws M q :
  merged (length ws) M → bwd ws M q → FindLargest C ws = Some (fst <$> last (take q M)).
Proof.
  intros Hm Hb. pose proof (bwd_currents _ _ _ Hm Hb) as Hc.
  destruct (take q M) as [|x l _] eqn:Et using rev_ind; simpl.
  - by apply (FindSmallest_none _ _ Hc).
  - rewrite last_snoc. pose proof (mg_sorted _ _ Hm) as Hs. rewrite <- (take_drop q M), Et in Hs.
    apply StronglySorted_app in Hs as (_ & Hs & _).
    assert (Hl : ∀ y, y ∈ l → tlt C y x).
    { apply StronglySorted_app in Hs as (Hs & _ & _). intros y Hy. apply Hs; [done|].
      by apply list_elem_of_singleton. }
    apply (FindLargest_max _ _ _ x Hc).
    + apply (mg_tag _ _ Hm). rewrite <- (take_drop q M), Et, <- app_assoc. apply elem_of_mid.
    + rewrite filter_app, filter_cons, decide_True by done. simpl. apply last_snoc.
    + intros j y _ Hj Hy. rewrite filter_app, filter_cons, decide_False, app_nil_r in Hy by congruence.
      apply last_filter in Hy as [_ Hy]. by apply Hl.
Qed.

(** ** Lemmas: moving the children *)

Definition alive (ws : list (IteratorWrapper I)) (M : list tagged) : Prop :=
  ∀ j w, ws !! j = Some w → ∃ pos, wstands w (view j M) pos.

Lemma fwd_alive ws M p : fwd ws M p → alive ws M.
Proof. intros Hf j w Ew. eauto. Qed.
Lemma bwd_alive ws M q : bwd ws M q → alive ws M.
Proof. intros Hb j w Ew. eauto. Qed.

Lemma mapM_all (f : IteratorWrapper I → option (IteratorWrapper I)) (Q : nat → IteratorWrapper I → Prop) ws :
  (∀ j w, ws !! j = Some w → ∃ w', f w = Some w' ∧ Q j w') →
  ∃ ws', mapM f ws = Some ws' ∧ length ws' = length ws ∧ ∀ j w, ws' !! j = Some w → Q j w.
Proof.
  revert Q. induction ws as [|w ws IH]; intros Q Hf; [by exists []|].
  destruct (Hf 0%nat w eq_refl) as (w' & E & Hw).
  destruct (IH (λ j, Q (S j))) as (ws' & E' & Hl & HQ); [intros j v; apply (Hf (S j))|].
  exists (w' :: ws'). simpl. rewrite E. cbn [mbind option_bind]. rewrite E'. split; [done|].
  split; [simpl; lia|]. intros [|j] v; simpl; [by intros [= <-]|apply HQ].
Qed.

Lemma reposition_all f (Q : nat → IteratorWrapper I → Prop) c i ws :
  (∀ j w, ws !! j = Some w → (i + j)%nat ≠ c → ∃ w', f w = Some w' ∧ Q (i + j)%nat w') →
  (∀ j w, ws !! j = Some w → (i + j)%nat = c → Q (i + j)%nat w) →
  ∃ ws', reposition f c i ws = Some ws' ∧ length ws' = length ws ∧
    ∀ j w, ws' !! j = Some w → Q (i + j)%nat w.
Proof.
  revert i. induction ws as [|w ws IH]; intros i Hf Hc; [by exists []|]. cbn [reposition].
  assert (∃ w', (if decide (i = c) then Some w else f w) = Some w' ∧ Q i w') as (w' & E & Hw).
  { destruct (decide (i = c)) as [Hi|Hi].
    - exists w. split; [done|]. rewrite <- (Nat.add_0_r i). apply (Hc 0%nat w eq_refl). lia.
    - destruct (Hf 0%nat w eq_refl) as (w' & E & HQ); [lia|]. rewrite Nat.add_0_r in HQ. eauto. }
  rewrite E. cbn [mbind option_bind].
  destruct (IH (S i)) as (ws' & E' & Hl & HQ).
  - intros j v Ev Hj. rewrite Nat.add_succ_comm in *. by apply (Hf (S j) v).
  - intros j v Ev Hj. rewrite Nat.add_succ_comm in *. by apply (Hc (S j) v).
  - rewrite E'. exists (w' :: ws'). split; [done|]. split; [simpl; lia|].
    intros [|j] v; simpl; [intros [= <-]; by rewrite Nat.add_0_r|].
    rewrite <- Nat.add_succ_comm. apply HQ.
Qed.

Lemma cnt_take_S j p M x :
  M !! p = Some x → cnt j (take (S p) M) = (cnt j (take p M) + if decide (fst x = j) then 1 else 0)%nat.
Proof.
  intros Hx. rewrite (take_S_r _ _ _ Hx), cnt_app, cnt_cons. change (cnt j []) with 0%nat. lia.
Qed.

Lemma view_at M p x : M !! p = Some x → view (fst x) M !! cnt (fst x) (take p M) = Some (snd x).
Proof.
  intros Hx. rewrite view_lookup_take. rewrite lookup_head_drop in Hx.
  destruct (drop p M) as [|y r]; [done|]. injection Hx as ->. by rewrite filter_cons, decide_True.
Qed.

Lemma pos_at_view M p x :
  M !! p = Some x → pos_at (view (fst x) M) (cnt (fst x) (take p M)) = Some (cnt (fst x) (take p M)).
Proof. intros Hx. apply pos_at_Some. split; [done|]. eapply lookup_lt_Some. by apply view_at. Qed.

Lemma move_child_Next ws M p x :
  M !! p = Some x → (fst x < length ws)%nat → fwd ws M p →
  ∃ ws', move_child Next (fst x) ws = Some ws' ∧ length ws' = length ws ∧ fwd ws' M (S p).
Proof.
  intros Hx Hlt Hf. apply lookup_lt_is_Some_2 in Hlt as [w Ew].
  pose proof (Hf _ _ Ew) as Hw. rewrite (pos_at_view _ _ _ Hx) in Hw.
  destruct (it_next _ _ _ Hw) as (w' & E & Hw'). unfold move_child. rewrite Ew.
  cbn [mbind option_bind]. rewrite E. eexists. split; [done|]. rewrite length_insert. split; [done|].
  intros j v Ev. rewrite (cnt_take_S _ _ _ _ Hx).
  apply list_lookup_insert_Some in Ev as [(<- & <- & _)|[Hj Ev]].
  - by rewrite decide_True, Nat.add_1_r by done.
  - rewrite decide_False, Nat.add_0_r by done. by apply Hf.
Qed.

Lemma move_child_Prev ws M p x :
  M !! p = Some x → (fst x < length ws)%nat → bwd ws M (S p) →
  ∃ ws', move_child Prev (fst x) ws = Some ws' ∧ length ws' = length ws ∧ bwd ws' M p.
Proof.
  intros Hx Hlt Hf. apply lookup_lt_is_Some_2 in Hlt as [w Ew].
  pose proof (Hf _ _ Ew) as Hw. rewrite (cnt_take_S _ _ _ _ Hx), decide_True, Nat.add_1_r in Hw by done.
  destruct (it_prev _ _ _ Hw) as (w' & E & Hw'). unfold move_child. rewrite Ew.
  cbn [mbind option_bind]. rewrite E. eexists. split; [done|]. rewrite length_insert. split; [done|].
  intros j v Ev. apply list_lookup_insert_Some in Ev as [(<- & <- & _)|[Hj Ev]]; [done|].
  specialize (Hf _ _ Ev). by rewrite (cnt_take_S _ _ _ _ Hx), decide_False, Nat.add_0_r in Hf by done.
Qed.

(** [Seek] in the children is [Seek] in the merge. *)
Lemma seek_view n M j t :
  merged n M → D t → seek_pos C t (view j M) = cnt j (take (seek_pos C t (snd <$> M)) M).
Proof.
  intros [Hs _ HD] Ht. induction M as [|x M IH]; [done|].
  apply StronglySorted_cons in Hs as [Hx Hs].
  assert (Dx : D (tkey x)) by (apply HD, elem_of_cons; by left).
  cbn [fmap list_fmap seek_pos]. fold (tkey x). destruct (Z.ltb_spec (Compare (tkey x) t) 0) as [Hlt|Hge].
  - cbn [take]. rewrite view_cons, cnt_cons. rewrite <- IH; [|done|by intros y Hy; apply HD, elem_of_cons; right].
    destruct (decide (fst x = j)); [|done]. simpl. fold (tkey x). by rewrite (proj2 (Z.ltb_lt _ _) Hlt).
  - unfold cnt at 1. simpl take. assert (∀ y, y ∈ x :: M → 0 <= Compare (tkey y) t) as Hall.
    { intros y [->|Hy]%elem_of_cons; [done|]. rewrite Forall_forall in Hx.
      assert (D (tkey y)) as Dy by (apply HD, elem_of_cons; by right).
      destruct (tlt_cases x y Dx Dy (Hx y Hy)) as [Hxy _].
      pose proof (Compare_antisym _ _ Dx Ht). pose proof (Compare_antisym _ _ Dy Ht).
      pose proof (Compare_trans _ _ _ Ht Dx Dy). lia. }
    destruct (view j (x :: M)) as [|e v] eqn:Ev; [done|]. simpl.
    assert (e ∈ view j (x :: M)) as He by (rewrite Ev; apply elem_of_cons; by left).
    unfold view in He. apply list_elem_of_fmap in He as (y & -> & Hy).
    apply list_elem_of_filter in Hy as [_ Hy]. fold (tkey y). by rewrite (proj2 (Z.ltb_ge _ _) (Hall y Hy)).
Qed.

(** ** Lemmas: changes of direction, for distinct keys *)

Definition strict (M : list tagged) : Prop :=
  StronglySorted (λ x y, Compare (tkey x) (tkey y) < 0) M.

Lemma strict_at M p x :
  strict M → (∀ y, y ∈ M → D (tkey y)) → M !! p = Some x → seek_pos C (tkey x) (snd <$> M) = p.
Proof.
  intros Hs HD. revert p. induction M as [|y M IH]; intros p Hx; [done|].
  apply StronglySorted_cons in Hs as [Hy Hs]. cbn [fmap list_fmap seek_pos]. fold (tkey y).
  destruct p as [|p]; simpl in Hx.
  - injection Hx as ->. rewrite Compare_refl by (apply HD, elem_of_cons; by left). done.
  - rewrite Forall_forall in Hy. rewrite (proj2 (Z.ltb_lt _ _) (Hy x (list_elem_of_lookup_2 _ _ _ Hx))).
    f_equal. apply IH; [done| |done]. intros z Hz. apply HD, elem_of_cons. by right.
Qed.

Lemma strict_ne M x y :
  strict M → (∀ y, y ∈ M → D (tkey y)) → x ∈ M → y ∈ M → fst x ≠ fst y →
  Compare (tkey x) (tkey y) ≠ 0.
Proof.
  intros Hs HD. induction M as [|z M IH]; [by intros ?%elem_of_nil|].
  apply StronglySorted_cons in Hs as [Hz Hs]. rewrite Forall_forall in Hz.
  assert (HD' : ∀ y, y ∈ M → D (tkey y)) by (intros v Hv; apply HD, elem_of_cons; by right).
  assert (Dz : D (tkey z)) by (apply HD, elem_of_cons; by left).
  intros [->|Hx]%elem_of_cons [->|Hy]%elem_of_cons Hne.
  - done.
  - pose proof (Hz y Hy). lia.
  - pose proof (Hz x Hx). pose proof (Compare_antisym _ _ Dz (HD' x Hx)). lia.
  - by apply IH.
Qed.

Lemma switch_forward ws M p x :
  merged (length ws) M → strict M → M !! p = Some x → bwd ws M (S p) →
  ∃ ws', reposition (after_key C (tkey x)) (fst x) 0 ws = Some ws' ∧
    length ws' = length ws ∧ fwd ws' M p.
Proof.
  intros Hm Hst Hx Hb. pose proof (list_elem_of_lookup_2 _ _ _ Hx) as Hin.
  pose proof (mg_key _ _ Hm _ Hin) as Dx.
  apply (reposition_all _ (λ j w, wstands w (view j M) (pos_at (view j M) (cnt j (take p M))))).
  - intros j w Ew Hj. destruct (it_seek _ _ _ (tkey x) (Hb _ _ Ew) Dx) as (w' & E & Hw').
    rewrite (seek_view _ _ _ _ Hm Dx), (strict_at _ _ _ Hst (mg_key _ _ Hm) Hx) in Hw'.
    exists w'. split; [|done]. unfold after_key. rewrite E. cbn [mbind option_bind].
    rewrite (it_valid _ _ _ Hw'). change (0 + j)%nat with j in *. destruct (pos_at _ _) as [n|] eqn:En; [|done].
    rewrite bool_decide_true by done. rewrite (it_key _ _ _ Hw').
    apply pos_at_Some in En as [-> Hn]. rewrite view_lookup_take.
    apply lookup_lt_is_Some_2 in Hn as [e He]. rewrite view_lookup_take in He.
    destruct (head _) as [y|] eqn:Ey; [|done]. apply head_filter in Ey as [Hy1 Hy2]. simpl.
    rewrite (proj2 (Z.eqb_neq _ 0)); [done|]. apply (strict_ne M x y); try done; [apply (mg_key _ _ Hm)| |congruence].
    rewrite <- (take_drop p M). apply elem_of_app. by right.
  - intros j w Ew Hj. change (0 + j)%nat with j in *. subst j. specialize (Hb _ _ Ew).
    rewrite (cnt_take_S _ _ _ _ Hx), decide_True, Nat.add_1_r in Hb by done.
    by rewrite (pos_at_view _ _ _ Hx).
Qed.

Lemma switch_reverse ws M p x :
  merged (length ws) M → strict M → M !! p = Some x → fwd ws M p →
  ∃ ws', reposition (before_key (tkey x)) (fst x) 0 ws = Some ws' ∧
    length ws' = length ws ∧ bwd ws' M (S p).
Proof.
  intros Hm Hst Hx Hf. pose proof (list_elem_of_lookup_2 _ _ _ Hx) as Hin.
  pose proof (mg_key _ _ Hm _ Hin) as Dx.
  apply (reposition_all _ (λ j w, wstands w (view j M) (pos_before (cnt j (take (S p) M))))).
  - intros j w Ew Hj. destruct (it_seek _ _ _ (tkey x) (Hf _ _ Ew) Dx) as (w' & E & Hw').
    rewrite (seek_view _ _ _ _ Hm Dx), (strict_at _ _ _ Hst (mg_key _ _ Hm) Hx) in Hw'.
    change (0 + j)%nat with j in *. rewrite (cnt_take_S _ _ _ _ Hx), decide_False, Nat.add_0_r by congruence.
    unfold before_key. rewrite E. cbn [mbind option_bind]. pose proof (it_valid _ _ _ Hw') as Hv.
    rewrite Hv. destruct (pos_at _ _) as [n|] eqn:En.
    + apply pos_at_Some in En as [-> Hn]. rewrite bool_decide_true by done. by eapply it_prev.
    + apply pos_at_None in En. rewrite bool_decide_false by (by intros [? ?]).
      replace (cnt j (take p M)) with (length (view j M)); [by eapply it_last|].
      apply Nat.le_antisymm; [done|]. fold (cnt j M). rewrite (cnt_take_drop j p M). lia.
  - intros j w Ew Hj. change (0 + j)%nat with j in *. subst j. specialize (Hf _ _ Ew).
    rewrite (cnt_take_S _ _ _ _ Hx), decide_True, Nat.add_1_r by done.
    by rewrite (pos_at_view _ _ _ Hx) in Hf.
Qed.

(** ** Lemmas: the merge exists *)

Definition elt (e f : entry) : Prop := Compare (fst e) (fst f) < 0.

Lemma tlt_trans x y z :
  D (tkey x) → D (tkey y) → D (tkey z) → tlt C x y → tlt C y z → tlt C x z.
Proof.
  intros Dx Dy Dz [Hxy|[Hxy Ixy]] [Hyz|[Hyz Iyz]].
  - left. apply (Compare_lt_le_trans C D _ (tkey y)); try done. lia.
  - left. apply (Compare_lt_le_trans C D _ (tkey y)); try done. lia.
  - left. apply (Compare_le_lt_trans C D _ (tkey y)); try done. lia.
  - right. split; [by apply (Compare_eq_trans C D _ (tkey y))|lia].
Qed.

Lemma tlt_total x y :
  D (tkey x) → D (tkey y) → (fst x < fst y)%nat → tlt C x y ∨ tlt C y x.
Proof.
  intros Dx Dy Hlt. pose proof (Compare_antisym _ _ Dx Dy). unfold tlt.
  destruct (Z.lt_trichotomy (Compare (tkey x) (tkey y)) 0) as [?|[?|?]]; [by left; left|by left; right|].
  right. left. lia.
Qed.

Lemma insert_sorted (x : tagged) M :
  (∀ y, y ∈ x :: M → D (tkey y)) → (∀ y, y ∈ M → tlt C x y ∨ tlt C y x) → StronglySorted (tlt C) M →
  ∃ M', M' ≡ₚ x :: M ∧ StronglySorted (tlt C) M'.
Proof.
  intros HD Hc Hs. induction M as [|y M IH].
  - exists [x]. split; [done|]. by repeat constructor.
  - apply StronglySorted_cons in Hs as [Hy Hs].
    destruct (Hc y) as [Hxy|Hyx]; [apply elem_of_cons; by left| |].
    + exists (x :: y :: M). split; [done|]. apply StronglySorted_cons. split.
      * apply Forall_cons. split; [done|]. rewrite Forall_forall in Hy. apply Forall_forall. intros z Hz.
        apply (tlt_trans x y z); [..|done|by apply Hy]; apply HD; rewrite !elem_of_cons; auto.
      * by apply StronglySorted_cons.
    + destruct IH as (M' & Hp & Hs').
      * intros z Hz. apply HD. rewrite !elem_of_cons in *. tauto.
      * intros z Hz. apply Hc, elem_of_cons. by right.
      * done.
      * exists (y :: M'). split; [rewrite Hp; apply Permutation_swap|].
        apply StronglySorted_cons. split; [|done]. rewrite Hp. by apply Forall_cons.
Qed.

Lemma sort_exists T :
  (∀ x, x ∈ T → D (tkey x)) → StronglySorted (λ x y, tlt C x y ∨ tlt C y x) T →
  ∃ M, M ≡ₚ T ∧ StronglySorted (tlt C) M.
Proof.
  induction T as [|x T IH]; intros HD Hs; [exists []; split; [done|constructor]|].
  apply StronglySorted_cons in Hs as [Hx Hs].
  destruct IH as (M & Hp & HM); [intros y Hy; apply HD, elem_of_cons; by right|done|].
  rewrite Forall_forall in Hx. destruct (insert_sorted x M) as (M' & Hp' & HM'); [| |done|].
  - intros y. rewrite Hp. apply HD.
  - intros y. rewrite Hp. apply Hx.
  - exists M'. split; [by rewrite Hp', Hp|done].
Qed.

(** All entries, tagged from [i] on. *)
Fixpoint tag_from (i : nat) (ess : list (list entry)) : list tagged :=
  match ess with [] => [] | es :: ess => (pair i <$> es) ++ tag_from (S i) ess end.

Lemma tag_from_elem i ess x :
  x ∈ tag_from i ess → ∃ es, ess !! (fst x - i)%nat = Some es ∧ (i <= fst x)%nat ∧ snd x ∈ es.
Proof.
  revert i. induction ess as [|es ess IH]; intros i; simpl; [by intros ?%elem_of_nil|].
  intros [(e & -> & He)%list_elem_of_fmap|Hx]%elem_of_app.
  - exists es. simpl. by rewrite Nat.sub_diag.
  - apply IH in Hx as (es' & E & Hle & He). exists es'. split; [|split; [lia|done]].
    by replace (fst x - i)%nat with (S (fst x - S i)) by lia.
Qed.

Lemma view_tag_from i ess j :
  view j (tag_from i ess) = if decide (i <= j)%nat then default [] (ess !! (j - i)%nat) else [].
Proof.
  revert i. induction ess as [|es ess IH]; intros i; simpl.
  - by case_decide.
  - rewrite view_app, IH.
    assert (view j (pair i <$> es) = if decide (i = j) then es else []) as ->.
    { induction es as [|e es IHe]; [by case_decide|]. rewrite fmap_cons, view_cons, IHe. simpl. by case_decide. }
    destruct (decide (i = j)) as [->|]; repeat case_decide; try lia; simpl.
    + rewrite Nat.sub_diag, app_nil_r. done.
    + by replace (j - i)%nat with (S (j - S i)) by lia.
    + done.
Qed.

Lemma view_sorted M j : StronglySorted (tlt C) M → StronglySorted elt (view j M).
Proof.
  induction M as [|x M IH]; intros Hs; [constructor|]. apply StronglySorted_cons in Hs as [Hx Hs].
  rewrite view_cons. case_decide as Hj; [|by apply IH]. simpl. apply StronglySorted_cons.
  split; [|by apply IH]. rewrite Forall_forall in Hx. apply Forall_forall. unfold view.
  intros e (y & -> & [Hy Hin]%list_elem_of_filter)%list_elem_of_fmap.
  destruct (Hx y Hin) as [?|[_ ?]]; [done|lia].
Qed.

Lemma view_perm M M' j : M ≡ₚ M' → view j M ≡ₚ view j M'.
Proof. intros Hp. unfold view. by rewrite Hp. Qed.

Lemma merge_exists ess :
  (∀ es, es ∈ ess → StronglySorted elt es ∧ ∀ e, e ∈ es → D (fst e)) →
  ∃ M, merged (length ess) M ∧ (∀ j es, ess !! j = Some es → view j M = es) ∧
       M ≡ₚ tag_from 0 ess.
Proof.
  intros Hess.
  assert (HT : ∀ i ess, (∀ es, es ∈ ess → StronglySorted elt es ∧ ∀ e, e ∈ es → D (fst e)) →
     (∀ x, x ∈ tag_from i ess → D (tkey x)) ∧
     StronglySorted (λ x y, tlt C x y ∨ tlt C y x) (tag_from i ess)).
  { clear Hess ess. intros i ess. revert i. induction ess as [|es ess IH]; intros i Hess.
    { split; [by intros x ?%elem_of_nil|constructor]. }
    destruct (IH (S i)) as [HD Hs]; [intros es' H'; apply Hess, elem_of_cons; by right|].
    destruct (Hess es) as [Hes HDes]; [apply elem_of_cons; by left|]. simpl. split.
    - intros x [(e & -> & He)%list_elem_of_fmap|Hx]%elem_of_app; [by apply HDes|by apply HD].
    - apply StronglySorted_app. split; [|split; [|done]].
      + intros x y (e & -> & He)%list_elem_of_fmap Hy. apply tlt_total; [by apply HDes|by apply HD|].
        apply tag_from_elem in Hy as (_ & _ & Hle & _). simpl. lia.
      + clear - Hes. induction Hes as [|e es Hs IH He]; [constructor|]. simpl. constructor; [done|].
        rewrite Forall_fmap. eapply Forall_impl; [exact He|]. intros f Hf. left. by left. }
  destruct (HT 0%nat ess Hess) as [HD Hs]. destruct (sort_exists _ HD Hs) as (M & Hp & HM).
  exists M. split; [|split; [|done]].
  - split; [done| |].
    + intros x. rewrite Hp. intros Hx%tag_from_elem. destruct Hx as (es & E & _ & _).
      apply lookup_lt_Some in E. lia.
    + intros x. rewrite Hp. apply HD.
  - intros j es E. apply (StronglySorted_unique_strong elt).
    + intros e f He Hf Hef Hfe. unfold elt in *.
      destruct (Hess es (list_elem_of_lookup_2 _ _ _ E)) as [_ HDe].
      assert (e ∈ es) as He'.
      { rewrite (view_perm _ _ j Hp), view_tag_from, decide_True, Nat.sub_0_r, E in He by lia. done. }
      pose proof (Compare_antisym _ _ (HDe e He') (HDe f Hf)). lia.
    + by apply view_sorted.
    + by apply Hess; eapply list_elem_of_lookup_2.
    + by rewrite (view_perm _ _ j Hp), view_tag_from, decide_True, Nat.sub_0_r, E by lia.
Qed.

(** ** Lemmas: the operations *)

(** The merging iterator at entry [p] of the merge, [p] at most its length. *)
Definition at_forward (m : MergingIterator I) (M : list tagged) (p : nat) : Prop :=
  merged (length (children_ m)) M ∧ fwd (children_ m) M p ∧
  current_ m = fst <$> M !! p ∧ direction_ m = kForward.

(** Entry [q - 1], or before all for [q = 0]. *)
Definition at_reverse (m : MergingIterator I) (M : list tagged) (q : nat) : Prop :=
  merged (length (children_ m)) M ∧ bwd (children_ m) M q ∧
  current_ m = fst <$> last (take q M) ∧ direction_ m = kReverse.

Definition at_alive (m : MergingIterator I) (M : list tagged) : Prop :=
  merged (length (children_ m)) M ∧ alive (children_ m) M.

Lemma forward_alive m M p : at_forward m M p → at_alive m M.
Proof. intros (Hm & Hf & _). split; [done|by eapply fwd_alive]. Qed.
Lemma reverse_alive m M q : at_reverse m M q → at_alive m M.
Proof. intros (Hm & Hf & _). split; [done|by eapply bwd_alive]. Qed.

Lemma SeekToFirst_forward m M :
  at_alive m M → ∃ m', Merging_SeekToFirst C m = Some m' ∧ at_forward m' M 0.
Proof.
  intros [Hm Ha]. unfold Merging_SeekToFirst.
  destruct (mapM_all SeekToFirst (λ j w, wstands w (view j M) (pos_at (view j M) 0)) (children_ m))
    as (ws & E & Hl & Hf).
  { intros j w Ew. destruct (Ha _ _ Ew) as [pos Hw]. by eapply it_first. }
  rewrite E. cbn [mbind option_bind]. rewrite <- Hl in Hm.
  rewrite (fwd_FindSmallest ws M 0 Hm Hf). cbn [mbind option_bind]. eexists. by split_and!.
Qed.

Lemma SeekToLast_reverse m M :
  at_alive m M → ∃ m', Merging_SeekToLast C m = Some m' ∧ at_reverse m' M (length M).
Proof.
  intros [Hm Ha]. unfold Merging_SeekToLast.
  destruct (mapM_all SeekToLast (λ j w, wstands w (view j M) (pos_before (cnt j (take (length M) M)))) (children_ m))
    as (ws & E & Hl & Hf).
  { intros j w Ew. destruct (Ha _ _ Ew) as [pos Hw]. rewrite firstn_all. by eapply it_last. }
  rewrite E. cbn [mbind option_bind]. rewrite <- Hl in Hm.
  rewrite (bwd_FindLargest ws M _ Hm Hf). cbn [mbind option_bind]. eexists. by split_and!.
Qed.

Lemma Seek_forward m M t :
  at_alive m M → D t →
  ∃ m', Merging_Seek C t m = Some m' ∧ at_forward m' M (seek_pos C t (snd <$> M)).
Proof.
  intros [Hm Ha] Ht. unfold Merging_Seek.
  destruct (mapM_all (Seek t) (λ j w, wstands w (view j M)
              (pos_at (view j M) (cnt j (take (seek_pos C t (snd <$> M)) M)))) (children_ m))
    as (ws & E & Hl & Hf).
  { intros j w Ew. destruct (Ha _ _ Ew) as [pos Hw]. rewrite <- (seek_view _ _ _ _ Hm Ht).
    by eapply it_seek. }
  rewrite E. cbn [mbind option_bind]. rewrite <- Hl in Hm.
  rewrite (fwd_FindSmallest ws M _ Hm Hf). cbn [mbind option_bind]. eexists. by split_and!.
Qed.

(** [Next] after its possible change of direction. *)
Lemma Next_step ws M p x :
  merged (length ws) M → M !! p = Some x → fwd ws M p →
  ∃ ws', move_child Next (fst x) ws = Some ws' ∧ FindSmallest C ws' = Some (fst <$> M !! S p) ∧
    at_forward {| children_ := ws'; current_ := fst <$> M !! S p; direction_ := kForward |} M (S p).
Proof.
  intros Hm Hx Hf.
  destruct (move_child_Next ws M p x Hx) as (ws' & E & Hl & Hf'); [|done|].
  { by eapply (mg_tag _ _ Hm), list_elem_of_lookup_2. }
  rewrite <- Hl in Hm. exists ws'. split; [done|]. split; [by apply fwd_FindSmallest|done].
Qed.

Lemma Prev_step ws M p x :
  merged (length ws) M → M !! p = Some x → bwd ws M (S p) →
  ∃ ws', move_child Prev (fst x) ws = Some ws' ∧ FindLargest C ws' = Some (fst <$> last (take p M)) ∧
    at_reverse {| children_ := ws'; current_ := fst <$> last (take p M); direction_ := kReverse |} M p.
Proof.
  intros Hm Hx Hf.
  destruct (move_child_Prev ws M p x Hx) as (ws' & E & Hl & Hf'); [|done|].
  { by eapply (mg_tag _ _ Hm), list_elem_of_lookup_2. }
  rewrite <- Hl in Hm. exists ws'. split; [done|]. split; [by apply bwd_FindLargest|done].
Qed.

Lemma Next_forward m M p x :
  at_forward m M p → M !! p = Some x →
  ∃ m', Merging_Next C m = Some m' ∧ at_forward m' M (S p).
Proof.
  intros (Hm & Hf & Ec & Ed) Hx. destruct (Next_step _ _ _ _ Hm Hx Hf) as (ws' & E1 & E2 & Ha).
  unfold Merging_Next. rewrite Ec, Hx. cbn [mbind option_bind fmap option_fmap option_map].
  rewrite decide_False by (intros Hn; by apply Hn). cbn [mbind option_bind].
  rewrite E1. cbn [mbind option_bind]. rewrite E2. eauto.
Qed.

Lemma last_take_S (M : list tagged) p x : M !! p = Some x → last (take (S p) M) = Some x.
Proof. intros Hx. by rewrite (take_S_r _ _ _ Hx), last_snoc. Qed.

Lemma Prev_reverse m M p x :
  at_reverse m M (S p) → M !! p = Some x →
  ∃ m', Merging_Prev C m = Some m' ∧ at_reverse m' M p.
Proof.
  intros (Hm & Hf & Ec & Ed) Hx. destruct (Prev_step _ _ _ _ Hm Hx Hf) as (ws' & E1 & E2 & Ha).
  unfold Merging_Prev. rewrite Ec, (last_take_S _ _ _ Hx). cbn [mbind option_bind fmap option_fmap option_map].
  rewrite decide_False by (intros Hn; by apply Hn). cbn [mbind option_bind].
  rewrite E1. cbn [mbind option_bind]. rewrite E2. eauto.
Qed.

(** The key and value at entry [p]. *)
Lemma forward_entry m M p x :
  at_forward m M p → M !! p = Some x → Merging_key m = Some (tkey x) ∧ Merging_value m = Some (snd (snd x)).
Proof.
  intros (Hm & Hf & Ec & _) Hx. pose proof (mg_tag _ _ Hm _ (list_elem_of_lookup_2 _ _ _ Hx)) as Ht.
  apply lookup_lt_is_Some_2 in Ht as [w Ew]. pose proof (Hf _ _ Ew) as Hw.
  rewrite (pos_at_view _ _ _ Hx) in Hw. unfold Merging_key, Merging_value.
  rewrite Ec, Hx. cbn [mbind option_bind fmap option_fmap option_map]. rewrite Ew. cbn [mbind option_bind].
  by rewrite (it_key _ _ _ Hw), (it_value _ _ _ Hw), (view_at _ _ _ Hx).
Qed.

Lemma reverse_entry m M p x :
  at_reverse m M (S p) → M !! p = Some x → Merging_key m = Some (tkey x) ∧ Merging_value m = Some (snd (snd x)).
Proof.
  intros (Hm & Hf & Ec & _) Hx. pose proof (mg_tag _ _ Hm _ (list_elem_of_lookup_2 _ _ _ Hx)) as Ht.
  apply lookup_lt_is_Some_2 in Ht as [w Ew]. pose proof (Hf _ _ Ew) as Hw.
  rewrite (cnt_take_S _ _ _ _ Hx), decide_True, Nat.add_1_r in Hw by done. simpl in Hw.
  unfold Merging_key, Merging_value.
  rewrite Ec, (last_take_S _ _ _ Hx). cbn [mbind option_bind fmap option_fmap option_map].
  rewrite Ew. cbn [mbind option_bind].
  by rewrite (it_key _ _ _ Hw), (it_value _ _ _ Hw), (view_at _ _ _ Hx).
Qed.

(** Changing direction, for distinct keys. *)
Lemma Next_reverse m M p x :
  at_reverse m M (S p) → strict M → M !! p = Some x →
  ∃ m', Merging_Next C m = Some m' ∧ at_forward m' M (S p).
Proof.
  intros Ha Hst Hx. destruct (reverse_entry _ _ _ _ Ha Hx) as [Hk _]. destruct Ha as (Hm & Hf & Ec & Ed).
  destruct (switch_forward _ _ _ _ Hm Hst Hx Hf) as (ws & E0 & Hl & Hf').
  rewrite <- Hl in Hm. destruct (Next_step _ _ _ _ Hm Hx Hf') as (ws' & E1 & E2 & Ha).
  unfold Merging_Next. rewrite Ec, (last_take_S _ _ _ Hx). cbn [mbind option_bind fmap option_fmap option_map].
  rewrite decide_True by congruence. rewrite Hk. cbn [mbind option_bind]. rewrite E0. cbn [mbind option_bind].
  rewrite E1. cbn [mbind option_bind]. rewrite E2. eauto.
Qed.

Lemma Prev_forward m M p x :
  at_forward m M p → strict M → M !! p = Some x →
  ∃ m', Merging_Prev C m = Some m' ∧ at_reverse m' M p.
Proof.
  intros Ha Hst Hx. destruct (forward_entry _ _ _ _ Ha Hx) as [Hk _]. destruct Ha as (Hm & Hf & Ec & Ed).
  destruct (switch_reverse _ _ _ _ Hm Hst Hx Hf) as (ws & E0 & Hl & Hf').
  rewrite <- Hl in Hm. destruct (Prev_step _ _ _ _ Hm Hx Hf') as (ws' & E1 & E2 & Ha).
  unfold Merging_Prev. rewrite Ec, Hx. cbn [mbind option_bind fmap option_fmap option_map].
  rewrite decide_True by congruence. rewrite Hk. cbn [mbind option_bind]. rewrite E0. cbn [mbind option_bind].
  rewrite E1. cbn [mbind option_bind]. rewrite E2. eauto.
Qed.

(** *** The contract *)

(** The merging iterator stands in the merge of its children, in either
    direction. *)
Definition merging_stands (m : MergingIterator I) (es : list entry) (pos : option nat) : Prop :=
  ∃ M, es = snd <$> M ∧ strict M ∧
    match pos with
    | None => at_alive m M ∧ current_ m = None
    | Some p => is_Some (M !! p) ∧ (at_forward m M p ∨ at_reverse m M (S p))
    end.

Lemma stands_alive m es pos :
  merging_stands m es pos → ∃ M, es = snd <$> M ∧ strict M ∧ at_alive m M.
Proof.
  intros (M & -> & Hst & Hp). exists M. split; [done|]. split; [done|].
  destruct pos; [|by destruct Hp as [? _]].
  destruct Hp as [_ [?|?]]; [by eapply forward_alive|by eapply reverse_alive].
Qed.

Lemma stands_forward m M p :
  strict M → at_forward m M p → merging_stands m (snd <$> M) (pos_at (snd <$> M) p).
Proof.
  intros Hst Ha. exists M. split; [done|]. split; [done|]. unfold pos_at. rewrite length_fmap.
  case_decide as Hp; [split; [by apply lookup_lt_is_Some|by left]|].
  split; [by eapply forward_alive|]. destruct Ha as (_ & _ & -> & _).
  by rewrite lookup_ge_None_2 by lia.
Qed.

Lemma stands_reverse m M q :
  (q <= length M)%nat → strict M → at_reverse m M q → merging_stands m (snd <$> M) (pos_before q).
Proof.
  intros Hq Hst Ha. exists M. split; [done|]. split; [done|]. destruct q as [|q]; simpl.
  - split; [by eapply reverse_alive|]. by destruct Ha as (_ & _ & -> & _).
  - split; [apply lookup_lt_is_Some; lia|by right].
Qed.

Lemma MergingIterator_laws :
  @IteratorLaws C D _ (MergingIterator_Iterator C) merging_stands.
Proof.
  split.
  - intros m es pos (M & -> & Hst & Hp). simpl. unfold Merging_Valid. apply bool_decide_ext.
    destruct pos as [p|]; [|by destruct Hp as [_ ->]]. destruct Hp as [[x Hx] [Ha|Ha]];
      destruct Ha as (_ & _ & -> & _); rewrite ?Hx, ?(last_take_S _ _ _ Hx); simpl; split; eauto.
  - intros m es p (M & -> & _ & Hp & _). rewrite length_fmap. by apply lookup_lt_is_Some.
  - intros m es pos (M & -> & Hst & Ha)%stands_alive.
    destruct (SeekToFirst_forward _ _ Ha) as (m' & E & Ha'). exists m'. split; [done|].
    by apply stands_forward.
  - intros m es pos (M & -> & Hst & Ha)%stands_alive.
    destruct (SeekToLast_reverse _ _ Ha) as (m' & E & Ha'). exists m'. split; [done|].
    rewrite length_fmap. by apply stands_reverse.
  - intros m es pos t (M & -> & Hst & Ha)%stands_alive Ht.
    destruct (Seek_forward _ _ _ Ha Ht) as (m' & E & Ha'). exists m'. split; [done|].
    by apply stands_forward.
  - intros m es p (M & -> & Hst & [x Hx] & Ha).
    assert (∃ m', Merging_Next C m = Some m' ∧ at_forward m' M (S p)) as (m' & E & Ha')
      by (destruct Ha; [by eapply Next_forward|by eapply Next_reverse]).
    exists m'. split; [done|]. by apply stands_forward.
  - intros m es p (M & -> & Hst & [x Hx] & Ha).
    assert (∃ m', Merging_Prev C m = Some m' ∧ at_reverse m' M p) as (m' & E & Ha')
      by (destruct Ha; [by eapply Prev_forward|by eapply Prev_reverse]).
    exists m'. split; [done|]. apply stands_reverse; [|done|done].
    apply lookup_lt_Some in Hx. lia.
  - intros m es p (M & -> & Hst & [x Hx] & Ha). rewrite list_lookup_fmap, Hx. simpl.
    destruct Ha as [Ha|Ha]; [by apply (forward_entry _ _ _ _ Ha)|by apply (reverse_entry _ _ _ _ Ha)].
  - intros m es p (M & -> & Hst & [x Hx] & Ha). rewrite list_lookup_fmap, Hx. simpl.
    destruct Ha as [Ha|Ha]; [by apply (forward_entry _ _ _ _ Ha)|by apply (reverse_entry _ _ _ _ Ha)].
Qed.

(** *** The factory *)

Definition any_stands (a : AnyIterator I) (es : list entry) (pos : option nat) : Prop :=
  match a with
  | AEmpty _ => es = [] ∧ pos = None
  | AChild i => stands i es pos
  | AMerging m => merging_stands m es pos
  end.

Lemma AnyIterator_laws : @IteratorLaws C D _ (AnyIterator_Iterator C) any_stands.
Proof.
  pose proof MergingIterator_laws as LM.
  assert (Hm : ∀ (T : Type) (f : T → AnyIterator I) (r : option T) (P : T → Prop) (Q : AnyIterator I → Prop),
    (∃ i', r = Some i' ∧ P i') → (∀ i', P i' → Q (f i')) → ∃ a', f <$> r = Some a' ∧ Q a').
  { intros T f r P Q (i' & -> & HP) HPQ. exists (f i'). auto. }
  split; intros [i|i|m]; simpl; intros.
  - destruct_and?; by subst.
  - by eapply (it_valid (IteratorLaws:=HL)).
  - by eapply (it_valid (IteratorLaws:=LM)).
  - destruct_and?; done.
  - by eapply (it_bound (IteratorLaws:=HL)).
  - by eapply (it_bound (IteratorLaws:=LM)).
  - destruct_and?; subst; by exists (AEmpty i).
  - eapply Hm; [by eapply (it_first (IteratorLaws:=HL))|done].
  - eapply Hm; [by eapply (it_first (IteratorLaws:=LM))|done].
  - destruct_and?; subst; by exists (AEmpty i).
  - eapply Hm; [by eapply (it_last (IteratorLaws:=HL))|done].
  - eapply Hm; [by eapply (it_last (IteratorLaws:=LM))|done].
  - destruct_and?; subst; by exists (AEmpty i).
  - eapply Hm; [by eapply (it_seek (IteratorLaws:=HL))|done].
  - eapply Hm; [by eapply (it_seek (IteratorLaws:=LM))|done].
  - destruct_and?; done.
  - eapply Hm; [by eapply (it_next (IteratorLaws:=HL))|done].
  - eapply Hm; [by eapply (it_next (IteratorLaws:=LM))|done].
  - destruct_and?; done.
  - eapply Hm; [by eapply (it_prev (IteratorLaws:=HL))|done].
  - eapply Hm; [by eapply (it_prev (IteratorLaws:=LM))|done].
  - destruct_and?; done.
  - by eapply (it_key (IteratorLaws:=HL)).
  - by eapply (it_key (IteratorLaws:=LM)).
  - destruct_and?; done.
  - by eapply (it_value (IteratorLaws:=HL)).
  - by eapply (it_value (IteratorLaws:=LM)).
Qed.

Lemma Merging_new_alive children ess M :
  Forall2 (λ i es, ∃ pos, stands i es pos) children ess → merged (length ess) M →
  (∀ j es, ess !! j = Some es → view j M = es) →
  ∃ m, Merging_new children = Some m ∧ at_alive m M ∧ current_ m = None.
Proof.
  intros HF Hm Hv.
  assert (∃ ws, mapM (λ i, Set_iter IteratorWrapper_new (Some i)) children = Some ws ∧
    Forall2 (λ w es, ∃ pos, wstands w es pos) ws ess) as (ws & E & HW).
  { clear Hm Hv. induction HF as [|i es children ess [pos Hi] HF (ws & E & IH)];
      [exists []; split; [done|constructor]|].
    destruct (Set_iter_spec C D stands IteratorWrapper_new i es pos Hi) as (w & Ew & Hw).
    exists (w :: ws). cbn [mapM mbind option_bind]. rewrite Ew. cbn [mbind option_bind].
    rewrite E. split; [done|]. constructor; [eauto|done]. }
  unfold Merging_new. rewrite E. eexists. split; [done|]. split; [|done]. split; simpl.
  - by rewrite (Forall2_length _ _ _ HW).
  - intros j w Ew. destruct (Forall2_lookup_l _ _ _ _ _ HW Ew) as (es & Ee & pos & Hw).
    exists pos. by rewrite (Hv _ _ Ee).
Qed.

Lemma merged_strict ess M :
  merged (length ess) M → (∀ j es, ess !! j = Some es → view j M = es) →
  (∀ i j es fs e f, ess !! i = Some es → ess !! j = Some fs → i ≠ j → e ∈ es → f ∈ fs →
     Compare (fst e) (fst f) ≠ 0) → strict M.
Proof.
  intros [Hs Ht _] Hv Hd.
  assert (Hin : ∀ x, x ∈ M → ∃ es, ess !! fst x = Some es ∧ snd x ∈ es).
  { intros x Hx. pose proof (Ht x Hx) as Hl. apply lookup_lt_is_Some_2 in Hl as [es E].
    exists es. split; [done|]. rewrite <- (Hv _ _ E). unfold view. apply list_elem_of_fmap.
    exists x. split; [done|]. by apply list_elem_of_filter. }
  clear Hv Ht. induction M as [|x M IH]; [constructor|]. apply StronglySorted_cons in Hs as [Hx Hs].
  apply StronglySorted_cons. split.
  - rewrite Forall_forall in Hx. apply Forall_forall. intros y Hy.
    destruct (Hx y Hy) as [?|[E Hlt]]; [done|].
    destruct (Hin x) as (es & Ex & Hex); [apply elem_of_cons; by left|].
    destruct (Hin y) as (fs & Ey & Hey); [apply elem_of_cons; by right|].
    by destruct (Hd _ _ _ _ _ _ Ex Ey (Nat.lt_neq _ _ Hlt) Hex Hey).
  - apply IH; [done|]. intros y Hy. apply Hin, elem_of_cons. by right.
Qed.

Lemma tag_from_entries i ess : snd <$> tag_from i ess = concat ess.
Proof.
  revert i. induction ess as [|es ess IH]; intros i; [done|]. simpl. rewrite fmap_app, IH.
  f_equal. rewrite <- list_fmap_compose. apply list_fmap_id.
Qed.

Lemma strict_entries M : strict M → StronglySorted elt (snd <$> M).
Proof.
  induction 1 as [|x M Hs IH Hx]; [constructor|]. simpl. apply StronglySorted_cons.
  split; [|done]. apply Forall_fmap. eapply Forall_impl; [exact Hx|]. done.
Qed.

Lemma NewMergingIterator_spec children ess :
  Forall2 (λ i es, ∃ pos, stands i es pos) children ess →
  (∀ es, es ∈ ess → StronglySorted elt es ∧ ∀ e, e ∈ es → D (fst e)) →
  (∀ i j es fs e f, ess !! i = Some es → ess !! j = Some fs → i ≠ j → e ∈ es → f ∈ fs →
     Compare (fst e) (fst f) ≠ 0) →
  ∃ a es pos, NewMergingIterator children = Some a ∧ any_stands a es pos ∧
    es ≡ₚ concat ess ∧ StronglySorted elt es.
Proof.
  intros HF Hess Hd. destruct (merge_exists ess Hess) as (M & Hm & Hv & Hp).
  pose proof (merged_strict _ _ Hm Hv Hd) as Hst.
  assert (Hp' : snd <$> M ≡ₚ concat ess) by (by rewrite Hp, tag_from_entries).
  destruct children as [|i [|i' children]].
  - apply Forall2_nil_inv_l in HF as ->. exists (AEmpty NewEmptyIterator), [], None.
    split; [done|]. split; [done|]. split; [done|constructor].
  - apply Forall2_cons_inv_l in HF as (es & ess' & [pos Hi] & HF & ->). apply Forall2_nil_inv_l in HF as ->.
    exists (AChild i), es, pos. split; [done|]. split; [done|]. simpl. rewrite app_nil_r. split; [done|].
    apply Hess, elem_of_cons. by left.
  - destruct (Merging_new_alive _ _ _ HF Hm Hv) as (m & E & Ha & Ec).
    exists (AMerging m), (snd <$> M), None. split; [unfold NewMergingIterator; by rewrite E|].
    split; [by exists M|]. split; [done|by apply strict_entries].
Qed.

(** *** Scans, with or without distinct keys *)

Definition steps (f : MergingIterator I → option (MergingIterator I)) (n : nat)
  (m : option (MergingIterator I)) : option (MergingIterator I) :=
  Nat.iter n (λ o, m ← o; f m) m.

Lemma scan_forward m M n :
  at_alive m M → (n <= length M)%nat →
  ∃ m', steps (Merging_Next C) n (Merging_SeekToFirst C m) = Some m' ∧ at_forward m' M n.
Proof.
  intros Ha. destruct (SeekToFirst_forward _ _ Ha) as (m0 & E0 & H0).
  induction n as [|n IH]; intros Hn; [exists m0; by split|].
  destruct IH as (m1 & E1 & H1); [lia|]. unfold steps in *. simpl. rewrite E1. cbn [mbind option_bind].
  destruct (lookup_lt_is_Some_2 M n) as [x Hx]; [lia|]. by eapply Next_forward.
Qed.

Lemma scan_reverse m M n :
  at_alive m M → (n <= length M)%nat →
  ∃ m', steps (Merging_Prev C) n (Merging_SeekToLast C m) = Some m' ∧ at_reverse m' M (length M - n).
Proof.
  intros Ha. destruct (SeekToLast_reverse _ _ Ha) as (m0 & E0 & H0).
  induction n as [|n IH]; intros Hn; [exists m0; by rewrite Nat.sub_0_r|].
  destruct IH as (m1 & E1 & H1); [lia|]. unfold steps in *. simpl. rewrite E1. cbn [mbind option_bind].
  destruct (lookup_lt_is_Some_2 M (length M - S n)) as [x Hx]; [lia|].
  eapply Prev_reverse; [|done]. by replace (S (length M - S n)) with (length M - n)%nat by lia.
Qed.
End Spec.

(** [status()] is the first error of the children, if any. *)
Lemma first_error_spec {I} `{Iterator I} (ws : list (IteratorWrapper I)) sts st :
  Forall2 (λ w s, status w = Some s) ws sts → Status_ok st = true →
  ∃ s, first_error st ws = Some s ∧
    match list_find (λ s, Status_ok s = false) sts with
    | Some (_, e) => s = e
    | None => Status_ok s = true
    end.
Proof.
  intros HF. revert st. induction HF as [|w s ws sts Hw HF IH]; intros st Hst; simpl; [by exists st|].
  simpl in Hw. rewrite Hw. cbn [mbind option_bind]. destruct (Status_ok s) eqn:E.
  - rewrite decide_False by done. destruct (IH s E) as (s' & E' & Hs'). exists s'. split; [done|].
    by destruct (list_find _ sts) as [[? ?]|].
  - rewrite decide_True by done. by exists s.
Qed.

(** ** Properties *)

(** C8: for children that meet the iterator contract over sorted sources with no
    key in common, the iterator of [NewMergingIterator] meets it over the sorted
    union of the sources, whatever the number of children: all moves, in both
    directions and across changes of direction, end at the right entry, and no
    assertion fails. *)
Theorem MergingIterator_contract C D (CL : ComparatorLaws C D) I (HI : Iterator I) stands
  (HL : IteratorLaws C D stands) (children : list I) (ess : list (list entry)) :
  Forall2 (λ i es, ∃ pos, stands i es pos) children ess →
  (∀ es, es ∈ ess → StronglySorted (elt C) es ∧ ∀ e, e ∈ es → D (fst e)) →
  (∀ i j es fs e f, ess !! i = Some es → ess !! j = Some fs → i ≠ j → e ∈ es → f ∈ fs →
     Compare (fst e) (fst f) ≠ 0) →
  @IteratorLaws C D _ (AnyIterator_Iterator C) (any_stands C D stands) ∧
  ∃ a es pos, NewMergingIterator children = Some a ∧ any_stands C D stands a es pos ∧
    es ≡ₚ concat ess ∧ StronglySorted (elt C) es.
Proof.
  intros HF Hess Hd. split; [by apply AnyIterator_laws|by apply NewMergingIterator_spec].
Qed.

(** C26: whether or not children share keys, a scan in one direction visits every
    entry of every child once, with its own value, in the order of the stable
    merge (equal keys by the index of the child), and then ends. *)
Theorem MergingIterator_scans C D (CL : ComparatorLaws C D) I (HI : Iterator I) stands
  (HL : IteratorLaws C D stands) (children : list I) (ess : list (list entry)) :
  Forall2 (λ i es, ∃ pos, stands i es pos) children ess →
  (∀ es, es ∈ ess → StronglySorted (elt C) es ∧ ∀ e, e ∈ es → D (fst e)) →
  ∃ m M, Merging_new children = Some m ∧ M ≡ₚ tag_from 0 ess ∧ StronglySorted (tlt C) M ∧
    ∀ n, (n <= length M)%nat →
      ∃ m1 m2, steps (Merging_Next C) n (Merging_SeekToFirst C m) = Some m1 ∧
        steps (Merging_Prev C) n (Merging_SeekToLast C m) = Some m2 ∧
        Merging_Valid m1 = bool_decide (n < length M)%nat ∧
        Merging_Valid m2 = bool_decide (n < length M)%nat ∧
        (∀ x, M !! n = Some x →
           Merging_key m1 = Some (tkey x) ∧ Merging_value m1 = Some (snd (snd x))) ∧
        (∀ x, reverse M !! n = Some x →
           Merging_key m2 = Some (tkey x) ∧ Merging_value m2 = Some (snd (snd x))).
Proof.
  intros HF Hess. destruct (merge_exists C D ess Hess) as (M & Hm & Hv & Hp).
  destruct (Merging_new_alive C D stands _ _ _ HF Hm Hv) as (m & E & Ha & _).
  exists m, M. split; [done|]. split; [done|]. split; [apply Hm|]. intros n Hn.
  destruct (scan_forward C D stands m M n Ha Hn) as (m1 & E1 & H1).
  destruct (scan_reverse C D stands m M n Ha Hn) as (m2 & E2 & H2).
  exists m1, m2. split; [done|]. split; [done|].
  assert (Hrev : ∀ x, reverse M !! n = Some x → (n < length M)%nat ∧ M !! (length M - S n)%nat = Some x).
  { intros x Hx. pose proof (lookup_lt_Some _ _ _ Hx) as Hlt. rewrite length_reverse in Hlt.
    split; [done|]. by rewrite reverse_lookup in Hx. }
  split_and!.
  - unfold Merging_Valid. destruct H1 as (_ & _ & -> & _). apply bool_decide_ext.
    rewrite fmap_is_Some. apply lookup_lt_is_Some.
  - unfold Merging_Valid. destruct H2 as (_ & _ & -> & _). apply bool_decide_ext.
    rewrite fmap_is_Some, last_is_Some. split.
    + intros Hne. destruct (decide (n < length M)%nat); [done|]. destruct Hne.
      by replace (length M - n)%nat with 0%nat by lia.
    + intros Hlt Ht. apply (f_equal length) in Ht. rewrite length_take in Ht. simpl in Ht. lia.
  - intros x Hx. by apply (forward_entry C D stands _ _ _ _ H1).
  - intros x [Hlt Hx]%Hrev. apply (reverse_entry C D stands m2 M (length M - S n) x); [|done].
    by replace (S (length M - S n)) with (length M - n)%nat by lia.
Qed.

(** ** Witnesses *)

(** An iterator over an array of entries with bytewise order. *)
Record ArrayIterator := { a_entries : list entry; a_pos : option nat }.

#[export] Instance ArrayIterator_Iterator : Iterator ArrayIterator := {|
  Valid a := bool_decide (is_Some (a_pos a));
  SeekToFirst a := Some {| a_entries := a_entries a; a_pos := pos_at (a_entries a) 0 |};
  SeekToLast a := Some {| a_entries := a_entries a; a_pos := pos_before (length (a_entries a)) |};
  Seek t a := Some {| a_entries := a_entries a;
                      a_pos := pos_at (a_entries a) (seek_pos BytewiseComparator t (a_entries a)) |};
  Next a := n ← a_pos a; Some {| a_entries := a_entries a; a_pos := pos_at (a_entries a) (S n) |};
  Prev a := n ← a_pos a; Some {| a_entries := a_entries a; a_pos := pos_before n |};
  key a := n ← a_pos a; fst <$> a_entries a !! n;
  value a := n ← a_pos a; snd <$> a_entries a !! n;
  status _ := Some Status_OK |}.

Definition array_stands (a : ArrayIterator) (es : list entry) (p : option nat) : Prop :=
  a = {| a_entries := es; a_pos := p |} ∧ ∀ n, p = Some n → (n < length es)%nat.

Lemma ArrayIterator_laws : IteratorLaws BytewiseComparator (λ _, True) array_stands.
Proof.
  assert (Hat : ∀ es n, array_stands {| a_entries := es; a_pos := pos_at es n |} es (pos_at es n)).
  { intros es n. split; [done|]. by intros m [-> ?]%pos_at_Some. }
  split.
  - by intros i es p [-> _].
  - intros i es n [_ H]. by apply H.
  - intros i es p [-> _]. eauto.
  - intros i es p [-> _]. eexists. split; [done|]. split; [done|]. simpl.
    intros n ->%pos_before_Some. lia.
  - intros i es p t [-> _] _. eauto.
  - intros i es n [-> _]. eauto.
  - intros i es n [-> H]. eexists. split; [done|]. split; [done|]. specialize (H n eq_refl).
    intros m ->%pos_before_Some. lia.
  - by intros i es n [-> _].
  - by intros i es n [-> _].
Qed.

Definition k1 (n : Z) : entry := ([z2b n], [z2b (n + 100)]).
Definition array (l : list Z) : ArrayIterator := {| a_entries := k1 <$> l; a_pos := None |}.

(** A walk with changes of direction over the union of three arrays: the keys
    it stops at. *)
Example MergingIterator_walk :
  let C := BytewiseComparator in
  (m ← Merging_new [array [1; 4; 7]; array []; array [2; 3; 9]];
   m ← Merging_Seek C [z2b 3] m; a ← Merging_key m;
   m ← Merging_Next C m; b ← Merging_key m;
   m ← Merging_Prev C m; c ← Merging_key m;
   m ← Merging_Prev C m; d ← Merging_key m;
   m ← Merging_Next C m; e ← Merging_key m;
   m ← Merging_SeekToLast C m; f ← Merging_key m; v ← Merging_value m;
   Some (map b2z <$> [a; b; c; d; e; f; v])) = Some [[3]; [4]; [3]; [2]; [3]; [9]; [109]].
Proof. by vm_compute. Qed.

Lemma MergingIterator_contract_witness :
  ∃ a es pos, NewMergingIterator [array [1; 4]; array [2]] = Some a ∧
    any_stands BytewiseComparator (λ _, True) array_stands a es pos ∧
    es ≡ₚ [k1 1; k1 4; k1 2].
Proof.
  destruct (MergingIterator_contract BytewiseComparator (λ _, True) _ _ _ array_stands
              ArrayIterator_laws [array [1; 4]; array [2]] [[k1 1; k1 4]; [k1 2]])
    as (_ & a & es & pos & E & Hs & Hp & _).
  - repeat constructor; exists None; split; done.
  - intros es [->|[->|[]%elem_of_nil]%elem_of_cons]%elem_of_cons; (split; [|done]);
      repeat constructor.
  - intros i j es fs e f Hi Hj Hij He Hf.
    destruct i as [|[|i]], j as [|[|j]]; try done; injection Hi as <-; injection Hj as <-;
      repeat match goal with
        | H : _ ∈ _ :: _ |- _ => apply elem_of_cons in H as [->|H]
        | H : _ ∈ [] |- _ => apply elem_of_nil in H as []
        end; vm_compute; discriminate.
  - exists a, es, pos. split; [exact E|]. split; [exact Hs|exact Hp].
Defined.

(** Two children with the same key. *)
Lemma MergingIterator_scans_witness :
  ∃ m m1, Merging_new [array [1; 4]; array [1]] = Some m ∧
    steps (Merging_Next BytewiseComparator) 1 (Merging_SeekToFirst BytewiseComparator m) = Some m1 ∧
    Merging_Valid m1 = true.
Proof.
  destruct (MergingIterator_scans BytewiseComparator (λ _, True) _ _ _ array_stands
              ArrayIterator_laws [array [1; 4]; array [1]] [[k1 1; k1 4]; [k1 1]])
    as (m & M & E & Hp & _ & Hn).
  - repeat constructor; exists None; split; done.
  - intros es [->|[->|[]%elem_of_nil]%elem_of_cons]%elem_of_cons; (split; [|done]);
      repeat constructor.
  - apply Permutation_length in Hp. change (length (tag_from 0 [[k1 1; k1 4]; [k1 1]])) with 3%nat in Hp.
    destruct (Hn 1%nat) as (m1 & m2 & E1 & _ & Hv & _); [rewrite Hp; lia|].
    exists m, m1. split; [exact E|]. split; [exact E1|]. rewrite Hv, Hp. reflexivity.
Defined.
