(* ===== verification/Lookup.v ===== *)
(** * Reading a snapshot (db/dbformat, memtable/skiplist.h, table/merger together)

    What the internal-key order is for: a seek to a [LookupKey] of a user key and a
    snapshot lands on the newest entry of that user key the snapshot may see.  Shown
    for a skip list of internal keys built by insertions in any order, and for the
    merging iterator over any lawful iterators on internal keys. *)
From stdpp Require Import base list numbers sorting strings.
From Stdlib Require Import ZArith Lia.
From Stdlib Require Import Strings.Byte.
From S2P Require Import Prelude Slice Coding Comparator DbFormat InternalKeyTypes SkipList Iterator Merger.

#[local] Open Scope Z_scope.

Section Lookup.
Context (C : Comparator) (D : bytes → Prop) `{HC : !ComparatorLaws C D}.

(** ** Specification *)

(** An entry of [u] that a snapshot at [s] sees. *)
Definition visible (u : bytes) (s : Z) (key : ParsedInternalKey) : Prop :=
  Compare (Comparator := C) u (user_key key) = 0 ∧ sequence key ≤ s.

(** What a seek among the entries [ws] found: the newest visible one or, if there is
    none, an entry of a larger user key or the end. *)
Definition answer (ws : list ParsedInternalKey) (u : bytes) (s : Z) (found : option bytes) : Prop :=
  match found with
  | Some k => ∃ key, key ∈ ws ∧ typed D k key ∧
      (visible u s key ∧ (∀ key', key' ∈ ws → visible u s key' → sequence key' ≤ sequence key) ∨
       Compare (Comparator := C) u (user_key key) < 0 ∧ (∀ key', key' ∈ ws → ¬ visible u s key'))
  | None => ∀ key', key' ∈ ws → ¬ visible u s key'
  end.

(** [ks] holds the encodings of [ws]. *)
Definition encodes (ks : list bytes) (ws : list ParsedInternalKey) : Prop :=
  (∀ k, k ∈ ks → ∃ key, key ∈ ws ∧ typed D k key) ∧ (∀ key, key ∈ ws → ∃ k, k ∈ ks ∧ typed D k key).

(** ** Lemmas *)

Lemma count_lt_before {K} (cmp : K → K → Z) key ks j k :
  (j < count_lt cmp key ks)%nat → ks !! j = Some k → cmp k key < 0.
Proof.
  revert j. induction ks as [|k0 ks IH]; intros j Hj Hk; [done|]. simpl in Hj.
  destruct (Z.ltb_spec (cmp k0 key) 0); [|lia]. destruct j; [by injection Hk as <-|]. apply (IH j); [lia|done].
Qed.

Lemma count_lt_at {K} (cmp : K → K → Z) key ks k :
  ks !! count_lt cmp key ks = Some k → 0 ≤ cmp k key.
Proof.
  induction ks as [|k0 ks IH]; [done|]. simpl. destruct (Z.ltb_spec (cmp k0 key) 0); [apply IH|by intros [= <-]].
Qed.

Lemma seek_pos_count target (es : list entry) :
  seek_pos (InternalKeyComparator C) target es = count_lt (IKC_order C) target (fst <$> es).
Proof. induction es as [|e es IH]; simpl; [done|]. by rewrite IH. Qed.

Lemma typed_append k key : typed D k key → AppendInternalKey [] key = Some k.
Proof. intros [_ Hs ->]. destruct key. by rewrite AppendInternalKey_spec. Qed.

(** The order of typed keys. *)
Lemma typed_compare k1 w1 k2 w2 :
  typed D k1 w1 → typed D k2 w2 →
  let r := Compare (Comparator := C) (user_key w1) (user_key w2) in
  (IKC_order C k1 k2 < 0 ↔
    r < 0 ∨ (r = 0 ∧ (sequence w2 < sequence w1 ∨
                      (sequence w1 = sequence w2 ∧ ValueType_to_Z (type w2) < ValueType_to_Z (type w1))))) ∧
  (IKC_order C k1 k2 = 0 ↔ r = 0 ∧ sequence w1 = sequence w2 ∧ type w1 = type w2).
Proof.
  intros H1 H2. apply (InternalKey_order C); [apply H1|apply H2| |]; [destruct w1|destruct w2]; by apply typed_append.
Qed.

Lemma typed_sgn k1 w1 k2 w2 :
  typed D k1 w1 → typed D k2 w2 → Z.sgn (IKC_order C k2 k1) = - Z.sgn (IKC_order C k1 k2).
Proof.
  intros H1 H2. destruct (typed_valid _ _ _ H1) as [V1 _], (typed_valid _ _ _ H2) as [V2 _].
  by apply (IKC_antisym C D).
Qed.

(** In the order, the lookup key of [u] and [s] stands before what the snapshot sees
    of [u] and after the rest of [u]. *)
Lemma lookup_before lk u s k key :
  typed D lk {| user_key := u; sequence := s; type := kTypeValue |} → typed D k key →
  (IKC_order C k lk < 0 ↔ Compare (Comparator := C) u (user_key key) > 0 ∨
     (Compare (Comparator := C) u (user_key key) = 0 ∧ s < sequence key)).
Proof.
  intros Hlk Hk. destruct (typed_compare _ _ _ _ Hk Hlk) as [-> _]. simpl.
  pose proof (Compare_antisym u (user_key key) (typed_user _ _ _ Hlk) (typed_user _ _ _ Hk)) as Ha.
  pose proof (ValueType_to_Z_range (type key)). simpl. lia.
Qed.

(** Of two keys in a sorted list the later has the larger user key, or the same and a
    sequence number no larger. *)
Lemma later k key k' key' ks i j :
  StronglySorted (λ a b, IKC_order C a b < 0) ks → ks !! i = Some k → ks !! j = Some k' → (i ≤ j)%nat →
  typed D k key → typed D k' key' →
  Compare (Comparator := C) (user_key key) (user_key key') ≤ 0 ∧
  (Compare (Comparator := C) (user_key key) (user_key key') = 0 → sequence key' ≤ sequence key).
Proof.
  intros Hsort Hi Hj Hij Hk Hk'. destruct (decide (i = j)) as [->|Hne].
  - rewrite Hi in Hj. injection Hj as <-. assert (key' = key) as ->.
    { apply typed_parse in Hk. apply typed_parse in Hk'. congruence. }
    rewrite (Compare_refl _ (typed_user _ _ _ Hk)). lia.
  - assert (IKC_order C k k' < 0) as Hlt.
    { rewrite <- (take_drop_middle ks i k Hi) in Hsort. apply sorted_app_lt in Hsort as [_ Hf].
      rewrite Forall_forall in Hf. apply Hf, (list_elem_of_lookup_2 _ (j - S i)).
      rewrite lookup_drop. by replace (S i + (j - S i))%nat with j by lia. }
    apply (typed_compare _ _ _ _ Hk Hk') in Hlt. lia.
Qed.

Lemma same_user u a b :
  D u → D a → D b → Compare (Comparator := C) u a = 0 → Compare (Comparator := C) u b = 0 →
  Compare (Comparator := C) a b = 0.
Proof.
  intros Du Da Db Ha Hb. pose proof (Compare_antisym u a Du Da). pose proof (Compare_antisym u b Du Db).
  pose proof (Compare_antisym a b Da Db).
  assert (Compare (Comparator := C) a b ≤ 0) by (apply (Compare_trans a u b); lia || done).
  assert (Compare (Comparator := C) b a ≤ 0) by (apply (Compare_trans b u a); lia || done). lia.
Qed.

Lemma seek_answer lk u s ks ws :
  typed D lk {| user_key := u; sequence := s; type := kTypeValue |} →
  StronglySorted (λ a b, IKC_order C a b < 0) ks → encodes ks ws →
  answer ws u s (ks !! count_lt (IKC_order C) lk ks).
Proof.
  intros Hlk Hsort [Hkw Hwk]. set (i := count_lt (IKC_order C) lk ks).
  assert (∀ key', key' ∈ ws → visible u s key' →
            ∃ j k', ks !! j = Some k' ∧ typed D k' key' ∧ (i ≤ j)%nat) as Hvis.
  { intros key' Hin [Hv Hs]. destruct (Hwk key' Hin) as (k' & (j & Hj)%list_elem_of_lookup & Hk').
    exists j, k'. split; [done|]. split; [done|]. destruct (decide (i ≤ j)%nat) as [|Hlt]; [done|].
    pose proof (count_lt_before (IKC_order C) lk ks j k' ltac:(lia) Hj) as Hb.
    apply (lookup_before lk u s k' key' Hlk Hk') in Hb. lia. }
  destruct (ks !! i) as [k|] eqn:Ei; simpl.
  - destruct (Hkw k) as (key & Hkey & Hk); [by eapply list_elem_of_lookup_2|].
    exists key. split; [done|]. split; [done|].
    pose proof (count_lt_at (IKC_order C) lk ks k Ei) as Hge.
    assert (Compare (Comparator := C) u (user_key key) < 0 ∨ visible u s key) as [Hlt|Hv].
    { destruct (lookup_before lk u s k key Hlk Hk) as [_ H]. unfold visible. lia. }
    + right. split; [done|]. intros key' Hin Hv. destruct (Hvis key' Hin Hv) as (j & k' & Hj & Hk' & Hij).
      destruct Hv as [Hv _]. destruct (later k key k' key' ks i j Hsort Ei Hj Hij Hk Hk') as [Hle _].
      pose proof (Compare_lt_le_trans C D _ _ _ (typed_user _ _ _ Hlk) (typed_user _ _ _ Hk) (typed_user _ _ _ Hk') Hlt Hle).
      simpl in *. lia.
    + left. split; [done|]. intros key' Hin Hv'. destruct (Hvis key' Hin Hv') as (j & k' & Hj & Hk' & Hij).
      destruct Hv as [Hv _], Hv' as [Hv' _].
      destruct (later k key k' key' ks i j Hsort Ei Hj Hij Hk Hk') as [Hle Hs]. apply Hs.
      apply (same_user u); [apply Hlk|apply Hk|apply Hk'|done|done].
  - intros key' Hin Hv. destruct (Hvis key' Hin Hv) as (j & k' & Hj & _ & Hij).
    apply lookup_ge_None in Ei. apply lookup_lt_Some in Hj. lia.
Qed.
End Lookup.

(** ** The skip list *)

Section Writes.
Context (C : Comparator) `{HC : !ComparatorLaws C (λ _, True)}.

#[export] Instance IKC_KeyOrder : KeyOrder (IKC_order C).
Proof.
  split; [intros a b; by apply (IKC_antisym_user C (λ _, True))|intros a b c; by apply (IKC_trans_user C (λ _, True))].
Qed.

(** Entries with these keys added to a new list. *)
Definition insert_writes (ws : list ParsedInternalKey) : option (SkipList (Key := bytes)) :=
  foldl (λ s w, s ← s; k ← AppendInternalKey [] w; Insert (IKC_order C) s k) (SkipList_new []) ws.

Lemma insert_writes_spec ws :
  (∀ w, w ∈ ws → 0 ≤ sequence w ≤ kMaxSequenceNumber) → NoDup (sequence <$> ws) →
  ∃ sk ks, insert_writes ws = Some sk ∧ Repr (IKC_order C) [] sk ks ∧ encodes (λ _, True) ks ws.
Proof.
  induction ws as [|w ws IH] using rev_ind; intros Hs Hnd.
  - destruct (Repr_new (IKC_order C) []) as (sk & E & Hr). exists sk, []. split; [done|]. split; [done|].
    split; intros k []%elem_of_nil.
  - rewrite fmap_app in Hnd. apply NoDup_app in Hnd as (Hnd & Hdisj & _).
    destruct IH as (sk & ks & E & Hr & Henc); [intros w' Hw'; apply Hs, elem_of_app; by left|done|].
    assert (0 ≤ sequence w ≤ kMaxSequenceNumber) as Hsw by (apply Hs, elem_of_app; right; by apply list_elem_of_singleton).
    assert (AppendInternalKey [] w = Some (user_key w ++ EncodeFixed64 (pack (sequence w) (type w)))) as Ew
      by (destruct w; by rewrite AppendInternalKey_spec).
    set (k := user_key w ++ EncodeFixed64 (pack (sequence w) (type w))) in *.
    assert (typed (λ _, True) k w) as Hk by (by split).
    destruct (Repr_insert (IKC_order C) [] sk ks k Hr) as (sk' & E' & Hr').
    { apply Forall_forall. intros k' Hin E0. destruct Henc as [Henc _]. destruct (Henc k' Hin) as (w' & Hw' & Hk').
      destruct (typed_compare C (λ _, True) _ _ _ _ Hk' Hk) as [_ Heq]. destruct (proj1 Heq E0) as (_ & Eseq & _).
      apply (Hdisj (sequence w')); [by apply list_elem_of_fmap_2|]. rewrite Eseq. simpl. by apply list_elem_of_singleton. }
    exists sk', (insert_key (IKC_order C) k ks). split; [|split; [done|]].
    + unfold insert_writes in *. rewrite foldl_app, E. simpl. rewrite Ew. simpl. done.
    + destruct Henc as [H1 H2]. split.
      * intros k' Hin. rewrite (insert_key_Permutation (IKC_order C)) in Hin.
        apply elem_of_cons in Hin as [->|Hin].
        -- exists w. split; [apply elem_of_app; right; by apply list_elem_of_singleton|done].
        -- destruct (H1 k' Hin) as (w' & Hw' & Hk'). exists w'. split; [apply elem_of_app; by left|done].
      * intros w' [Hw'| ->%list_elem_of_singleton]%elem_of_app.
        -- destruct (H2 w' Hw') as (k' & Hin & Hk'). exists k'. split; [|done].
           rewrite (insert_key_Permutation (IKC_order C)). apply elem_of_cons. by right.
        -- exists k. split; [|done]. rewrite (insert_key_Permutation (IKC_order C)). apply elem_of_cons. by left.
Qed.
End Writes.

(** ** Properties *)

(** C7: a seek to the [LookupKey] of [u] at snapshot [s] finds the entry of [u] with
    the largest sequence number up to [s] - or, if there is none, no entry of [u] the
    snapshot may see - in a skip list of internal keys filled by any insertions with
    different sequence numbers, and through the merging iterator over any lawful
    iterators on internal keys, which no insertion, search or step fails.  All keys
    compared have at least eight bytes, so that the order is what
    [InternalKeyComparator::Compare] returns, and its assertions hold. *)
Theorem Snapshot_lookup (C : Comparator) u s lk :
  ComparatorLaws C (λ _, True) → 0 ≤ s → LookupKey_new u s = Some lk →
  let target := LookupKey_internal_key lk in
  (8 ≤ Slice_size target ∧ (∀ w k, AppendInternalKey [] w = Some k → 8 ≤ Slice_size k) ∧
   (∀ k k', 8 ≤ Slice_size k → 8 ≤ Slice_size k' → IKC_Compare C k k' = Some (IKC_order C k k'))) ∧
  (∀ ws, (∀ w, w ∈ ws → 0 ≤ sequence w ≤ kMaxSequenceNumber) → NoDup (sequence <$> ws) →
     ∃ sk it, insert_writes C ws = Some sk ∧ Iterator_Seek (IKC_order C) sk target = Some it ∧
       answer C (λ _, True) ws u s (Iterator_key sk it)) ∧
  (∀ (I : Type) (HI : Iterator I) stands,
     IteratorLaws (InternalKeyComparator C) (valid_internal_key (λ _, True)) stands →
     ∀ (children : list I) (ess : list (list entry)) ws,
     Forall2 (λ i es, ∃ pos, stands i es pos) children ess →
     (∀ es, es ∈ ess → StronglySorted (elt (InternalKeyComparator C)) es) →
     (∀ i j es fs e f, ess !! i = Some es → ess !! j = Some fs → i ≠ j → e ∈ es → f ∈ fs →
        IKC_order C (fst e) (fst f) ≠ 0) →
     encodes (λ _, True) (fst <$> concat ess) ws →
     let HM := AnyIterator_Iterator (InternalKeyComparator C) in
     ∃ a a', NewMergingIterator children = Some a ∧ Seek target a = Some a' ∧
       answer C (λ _, True) ws u s (if Valid a' then key a' else None)).
Proof.
  intros HC Hs Elk target.
  pose proof (lookup_typed (λ _, True) u s lk I Hs Elk : typed (λ _, True) target _) as Htarget.
  split; [|split].
  - split; [|split].
    + destruct (typed_valid _ _ _ Htarget) as [[Hlen _] _]. unfold Slice_size. lia.
    + intros w k. unfold AppendInternalKey. destruct (PackSequenceAndType _ _) as [packed|]; [|done].
      intros [= <-]. unfold PutFixed64, Slice_size. rewrite length_app. simpl. lia.
    + intros k k' Hk Hk'. apply IKC_Compare_Some; unfold Slice_size in *; lia.
  - intros ws Hws Hnd. destruct (insert_writes_spec C ws Hws Hnd) as (sk & ks & Esk & Hr & Henc).
    destruct (Iterator_Seek_key (IKC_order C) [] sk ks target Hr) as (it & Eit & Ek).
    exists sk, it. split; [done|]. split; [done|]. rewrite Ek.
    apply (seek_answer C (λ _, True) target u s ks ws Htarget); [by apply (Repr_sorted _ [] sk)|done].
  - intros I HI stands HL children ess ws Hstands Hsort Hdist Henc HM.
    set (IC := InternalKeyComparator C) in *. set (DI := valid_internal_key (λ _, True)) in *.
    assert (ComparatorLaws IC DI) as HIC by (by apply InternalKeyComparatorLaws).
    assert (∀ k, k ∈ fst <$> concat ess → DI k) as HD.
    { intros k Hk. destruct Henc as [H1 _]. destruct (H1 k Hk) as (w & _ & Hw).
      by destruct (typed_valid _ _ _ Hw). }
    assert (∀ es, es ∈ ess → StronglySorted (elt IC) es ∧ ∀ e, e ∈ es → DI (fst e)) as Hess.
    { intros es Hes. split; [by apply Hsort|]. intros e He. apply HD, list_elem_of_fmap_2.
      apply list_elem_of_In, in_concat. exists es. by rewrite <- !list_elem_of_In. }
    destruct (NewMergingIterator_spec IC DI stands children ess Hstands Hess Hdist)
      as (a & es & pos & Ea & Ha & Hperm & Hes).
    pose proof (AnyIterator_laws IC DI stands) as HLM.
    assert (DI target) as Ht by (by destruct (typed_valid _ _ _ Htarget)).
    destruct (it_seek a es pos target Ha Ht) as (a' & Ea' & Ha').
    exists a, a'. split; [done|]. split; [done|].
    assert ((if Valid a' then key a' else None) = (fst <$> es) !! count_lt (IKC_order C) target (fst <$> es)) as ->.
    { pose proof (seek_pos_count C target es : seek_pos IC target es = _) as Ep. rewrite Ep in Ha'.
      rewrite (it_valid _ _ _ Ha'). unfold pos_at in *.
      rewrite list_lookup_fmap. case_decide as Hlt.
      - rewrite bool_decide_true by done. apply (it_key _ _ _ Ha').
      - rewrite bool_decide_false by (by intros []). rewrite lookup_ge_None_2 by lia. done. }
    apply (seek_answer C (λ _, True) target u s (fst <$> es) ws Htarget).
    + clear -Hes. induction Hes as [|e es _ IH He]; simpl; constructor; [done|].
      rewrite Forall_forall in He. apply Forall_forall. intros k (f & -> & Hf)%list_elem_of_fmap. by apply He.
    + assert (∀ k, k ∈ fst <$> es ↔ k ∈ fst <$> concat ess) as Heq by (intros k; by rewrite Hperm).
      destruct Henc as [H1 H2]. split; [intros k Hk; by apply H1, Heq|].
      intros w Hw. destruct (H2 w Hw) as (k & Hk & Hkw). exists k. by rewrite Heq.
Qed.

(** Three entries, the snapshot at 5: the newest of "a" up to 5 has number 3. *)
Lemma Snapshot_lookup_witness :
  let ws := [{| user_key := str "a"; sequence := 7; type := kTypeValue |};
             {| user_key := str "a"; sequence := 3; type := kTypeDeletion |};
             {| user_key := str "b"; sequence := 1; type := kTypeValue |}] in
  ∃ lk sk it, LookupKey_new (str "a") 5 = Some lk ∧ insert_writes BytewiseComparator ws = Some sk ∧
    Iterator_Seek (IKC_order BytewiseComparator) sk (LookupKey_internal_key lk) = Some it ∧
    answer BytewiseComparator (λ _, True) ws (str "a") 5 (Iterator_key sk it).
Proof.
  intros ws. eexists. destruct (Snapshot_lookup BytewiseComparator (str "a") 5
    {| lk_buffer := x09 :: str "a" ++ EncodeFixed64 (pack 5 kTypeValue); lk_kstart := 1; lk_capacity := 200;
       lk_on_heap := false |}) as (_ & Hsk & _); [exact BytewiseComparatorLaws|lia|reflexivity|].
  destruct (Hsk ws) as (sk & it & E & Eit & Ha).
  - rewrite kMaxSequenceNumber_val. unfold ws. intros w Hw.
    repeat apply elem_of_cons in Hw as [->|Hw]; [simpl; lia..|by apply elem_of_nil in Hw].
  - apply (bool_decide_eq_true_1 _). reflexivity.
  - exists sk, it. split; [reflexivity|]. split; [exact E|]. split; [exact Eit|exact Ha].
Defined.
