(* ===== verification/FileState.v ===== *)
(** * Files in memory (helper/memenv/memenv.cpp: FileState)

    A file is a reference count, a vector of blocks of [kBlockSize] bytes and a
    size; it refines a flat string of bytes.  Accesses outside of a block are
    errors of the model. *)
From Stdlib Require Import ZArith Lia.
From Stdlib Require Import Strings.Byte.
From S2P Require Import Prelude Slice Coding Logging Status.
From stdpp Require Import base numbers strings list.

#[local] Open Scope Z_scope.

(** ** State *)

Definition kBlockSize : Z := 8 * 1024.

Record FileState := { refs_ : Z; blocks_ : list bytes; size_ : Z }.

(** ** Operations *)

Definition FileState_new : FileState := {| refs_ := 0; blocks_ := []; size_ := 0 |}.

Definition File_Ref (f : FileState) : FileState :=
  {| refs_ := refs_ f + 1; blocks_ := blocks_ f; size_ := size_ f |}.

(** [Unref()], with its assertion; [Some None] when the file deletes itself. *)
Definition File_Unref (f : FileState) : option (option FileState) :=
  let refs := refs_ f - 1 in
  if 0 <=? refs then
    Some (if refs <=? 0 then None
          else Some {| refs_ := refs; blocks_ := blocks_ f; size_ := size_ f |})
  else None.

Definition File_Size (f : FileState) : Z := size_ f.

Definition Truncate (f : FileState) : FileState :=
  {| refs_ := refs_ f; blocks_ := []; size_ := 0 |}.

(** The local variables of [Read]; [dst] is the offset in [scratch]. *)
Record read_state := {
  r_block : nat; r_block_offset : Z; r_bytes_to_copy : Z; r_scratch : bytes; r_dst : nat }.

(** The body of [while (bytes_to_copy > 0)]. *)
Definition Read_block (blocks : list bytes) (r : read_state) : option read_state :=
  let avail := kBlockSize - r_block_offset r in
  let avail := if r_bytes_to_copy r <? avail then r_bytes_to_copy r else avail in
  b ← (blocks !! r_block r);
  d ← mem_read b (Z.to_nat (r_block_offset r)) (Z.to_nat avail);
  scratch ← mem_write (r_scratch r) (r_dst r) d;
  Some {| r_block := S (r_block r); r_block_offset := 0; r_bytes_to_copy := r_bytes_to_copy r - avail;
          r_scratch := scratch; r_dst := r_dst r + Z.to_nat avail |}.

Fixpoint Read_loop (fuel : nat) (blocks : list bytes) (r : read_state) : option bytes :=
  if 0 <? r_bytes_to_copy r then
    match fuel with
    | O => None
    | S fuel => r ← Read_block blocks r; Read_loop fuel blocks r
    end
  else Some (r_scratch r).

(** Before the loop of [Read]. *)
Definition Read_start (offset n : Z) (scratch : bytes) : read_state :=
  {| r_block := Z.to_nat (offset / kBlockSize); r_block_offset := offset mod kBlockSize;
     r_bytes_to_copy := n; r_scratch := scratch; r_dst := 0 |}.

(** The bytes there are to read at [offset]; [None]: past the end. *)
Definition Read_available (f : FileState) (offset n : Z) : option Z :=
  if size_ f <? offset then None
  else let available := size_ f - offset in Some (if available <? n then available else n).

(** [Read]: the status, [*result] if it is set, and [scratch]. *)
Definition File_Read (f : FileState) (offset n : Z) (scratch : bytes) :
  option (Status * option bytes * bytes) :=
  match Read_available f offset n with
  | None => Some (IOError (str "Offset greater than file size.") [], None, scratch)
  | Some n =>
      if n =? 0 then Some (Status_OK, Some [], scratch)
      else
        scratch ← Read_loop (S (Z.to_nat n)) (blocks_ f) (Read_start offset n scratch);
        result ← mem_read scratch 0 (Z.to_nat n);
        Some (Status_OK, Some result, scratch)
  end.

(** The body of [while (src_len > 0)] in [Append]: the file and what is left. *)
Definition Append_block (junk : nat → Byte.byte) (f : FileState) (src : bytes) : option (FileState * bytes) :=
  let src_len := Slice_size src in
  let offset := size_ f mod kBlockSize in
  let '(blocks, avail) :=
    if negb (offset =? 0) then (blocks_ f, kBlockSize - offset)
    else (blocks_ f ++ [new_bytes junk (Z.to_nat kBlockSize)], kBlockSize) in
  let avail := if src_len <? avail then src_len else avail in
  b ← last blocks;
  b ← mem_write b (Z.to_nat offset) (take (Z.to_nat avail) src);
  Some ({| refs_ := refs_ f; blocks_ := <[(length blocks - 1)%nat := b]> blocks;
           size_ := u64 (size_ f + avail) |}, drop (Z.to_nat avail) src).

Fixpoint Append_loop (fuel : nat) (junk : nat → Byte.byte) (f : FileState) (src : bytes) :
  option FileState :=
  if 0 <? Slice_size src then
    match fuel with
    | O => None
    | S fuel => '(f, src) ← Append_block junk f src; Append_loop fuel junk f src
    end
  else Some f.

Definition File_Append (junk : nat → Byte.byte) (f : FileState) (data : bytes) :
  option (Status * FileState) :=
  f ← Append_loop (S (length data)) junk f data; Some (Status_OK, f).

(** ** Specification: a flat file *)

(** The blocks hold [data], the last one possibly partly; no block is empty. *)
Record file_rep (f : FileState) (data : bytes) : Prop := {
  fr_size : size_ f = Z.of_nat (length data);
  fr_small : size_ f < 2 ^ 64;
  fr_full : Forall (λ b, length b = Z.to_nat kBlockSize) (blocks_ f);
  fr_count : Z.of_nat (length (blocks_ f)) = (size_ f + kBlockSize - 1) / kBlockSize;
  fr_data : data `prefix_of` concat (blocks_ f) }.

(** ** Lemmas *)

Lemma kBlockSize_pos : 0 < kBlockSize.
Proof. done. Qed.

#[local] Opaque kBlockSize.

Lemma length_concat_full (B : nat) (blocks : list bytes) :
  Forall (λ b, length b = B) blocks → length (concat blocks) = (length blocks * B)%nat.
Proof. induction 1 as [|b bs Hb HB IH]; simpl; [done|]. rewrite length_app, IH, Hb. done. Qed.

(** The bytes from an offset inside block [i] on. *)
Lemma drop_concat (B : nat) (blocks : list bytes) i o b :
  Forall (λ b, length b = B) blocks → blocks !! i = Some b → (o <= B)%nat →
  drop (i * B + o) (concat blocks) = drop o b ++ concat (drop (S i) blocks).
Proof.
  intros HB. revert i. induction HB as [|c bs Hc HB IH]; intros i Hi Ho; [done|].
  destruct i as [|i]; simpl in *.
  - injection Hi as ->. rewrite drop_app_le by lia. by rewrite drop_0.
  - rewrite drop_app_ge by lia. rewrite <- IH by done. f_equal. lia.
Qed.

(** Patching [d] into [s] at [o]. *)
Lemma patch_take {A} (s : list A) o d :
  (o + length d <= length s)%nat →
  take (o + length d) (take o s ++ d ++ drop (o + length d) s) = take o s ++ d.
Proof.
  intros H. rewrite app_assoc. apply take_app_length'. rewrite length_app, length_take. lia.
Qed.

Lemma patch_drop {A} (s : list A) o d m :
  (o + length d <= length s)%nat →
  drop (o + length d + m) (take o s ++ d ++ drop (o + length d) s) = drop (o + length d + m) s.
Proof.
  intros H. rewrite app_assoc, drop_app_ge by (rewrite length_app, length_take; lia).
  rewrite drop_drop, length_app, length_take. f_equal. lia.
Qed.

Lemma take_split {A} a n (l : list A) : (a <= n)%nat → take n l = take a l ++ take (n - a) (drop a l).
Proof.
  intros H. rewrite take_drop_commute. replace (a + (n - a))%nat with n by lia.
  rewrite <- (take_drop a (take n l)) at 1. by rewrite take_take, Nat.min_l.
Qed.

(** How far a read of [n0] bytes at [o0] into [scratch0] is. *)
Record read_rep (blocks : list bytes) (o0 n0 : nat) (scratch0 : bytes) (r : read_state) : Prop := {
  rr_left : r_bytes_to_copy r = Z.of_nat n0 - Z.of_nat (r_dst r) ∧ (r_dst r <= n0)%nat;
  rr_offset : 0 <= r_block_offset r < kBlockSize;
  rr_position : r_dst r = n0 ∨
    (r_block r * Z.to_nat kBlockSize + Z.to_nat (r_block_offset r) = o0 + r_dst r)%nat;
  rr_scratch : r_scratch r = take (r_dst r) (drop o0 (concat blocks)) ++ drop (r_dst r) scratch0 }.

Lemma Read_start_rep blocks offset n scratch :
  0 <= offset → 0 <= n → read_rep blocks (Z.to_nat offset) (Z.to_nat n) scratch (Read_start offset n scratch).
Proof.
  intros Ho Hn. pose proof kBlockSize_pos as Hpos. pose proof (Z.div_mod offset kBlockSize) as Hdm.
  pose proof (Z.mod_pos_bound offset kBlockSize Hpos) as Hm.
  assert (0 <= offset / kBlockSize) as Hq by (apply Z.div_pos; lia).
  split; simpl; [lia|done| |done]. right.
  rewrite <- Z2Nat.inj_mul by lia. rewrite <- Z2Nat.inj_add by nia. lia.
Qed.

(** The body of the loop goes on, within the blocks and the buffer. *)
Lemma Read_block_spec blocks o0 n0 scratch0 r :
  Forall (λ b, length b = Z.to_nat kBlockSize) blocks → (o0 + n0 <= length (concat blocks))%nat →
  (n0 <= length scratch0)%nat → read_rep blocks o0 n0 scratch0 r → 0 < r_bytes_to_copy r →
  ∃ r', Read_block blocks r = Some r' ∧ read_rep blocks o0 n0 scratch0 r' ∧
        0 <= r_bytes_to_copy r' < r_bytes_to_copy r.
Proof.
  intros HB Hlen Hsc [[Hleft Hd] Ho Hp Hs] H0. pose proof kBlockSize_pos as Hpos.
  set (B := Z.to_nat kBlockSize) in *. assert (HBZ : kBlockSize = Z.of_nat B) by lia.
  destruct Hp as [Hp|Hp]; [lia|]. destruct r as [block o n scratch k]; simpl in *.
  assert (is_Some (blocks !! block)) as [b Hb].
  { apply lookup_lt_is_Some. rewrite (length_concat_full B _ HB) in Hlen. nia. }
  assert (length b = B) as HbB by (eapply (Forall_lookup_1 (λ b, length b = B)); done).
  unfold Read_block. cbn [r_block r_block_offset r_bytes_to_copy r_scratch r_dst].
  set (avail := if n <? kBlockSize - o then n else kBlockSize - o).
  assert (Hav : avail = Z.min n (kBlockSize - o))
    by (unfold avail; destruct (Z.ltb_spec n (kBlockSize - o)); lia).
  rewrite Hb. cbn [mbind option_bind]. rewrite mem_read_ok by lia. cbn [mbind option_bind].
  set (X := drop o0 (concat blocks)) in *. set (d := take (Z.to_nat avail) (drop (Z.to_nat o) b)).
  assert (Hld : length d = Z.to_nat avail) by (unfold d; rewrite length_take, length_drop; lia).
  assert (HX : d = take (Z.to_nat avail) (drop k X)).
  { unfold X. rewrite drop_drop, <- Hp, (drop_concat B) with (b := b) by (done || lia).
    rewrite take_app_le by (rewrite length_drop; lia). done. }
  assert (length (take k X) = k) as Hk by (unfold X; rewrite length_take, length_drop; lia).
  rewrite mem_write_ok by (rewrite Hs, length_app, Hk, length_drop; lia). cbn [mbind option_bind].
  eexists. split; [done|]. split; [|simpl; lia]. split; simpl; [lia|lia| |].
  - destruct (Z.min_spec n (kBlockSize - o)) as [[? E]|[? E]]; [left|right]; lia.
  - fold X. rewrite Hs, Hld, take_app_length' by done.
    rewrite drop_app_ge by lia. rewrite Hk, drop_drop. rewrite HX at 1.
    rewrite (take_split k (k + Z.to_nat avail) X) by lia. rewrite <- app_assoc.
    replace (k + Z.to_nat avail - k)%nat with (Z.to_nat avail) by lia. do 3 f_equal.
Qed.

Lemma Read_loop_spec fuel blocks o0 n0 scratch0 r :
  Forall (λ b, length b = Z.to_nat kBlockSize) blocks → (o0 + n0 <= length (concat blocks))%nat →
  (n0 <= length scratch0)%nat → read_rep blocks o0 n0 scratch0 r → (Z.to_nat (r_bytes_to_copy r) < fuel)%nat →
  Read_loop fuel blocks r = Some (take n0 (drop o0 (concat blocks)) ++ drop n0 scratch0).
Proof.
  intros HB Hlen Hsc. revert r. induction fuel as [|fuel IH]; intros r Hr Hf; [lia|]. cbn [Read_loop].
  destruct (Z.ltb_spec 0 (r_bytes_to_copy r)) as [H0|H0].
  - destruct (Read_block_spec _ _ _ _ _ HB Hlen Hsc Hr H0) as (r' & -> & Hr' & Hlt). cbn [mbind option_bind].
    apply IH; [done|lia].
  - destruct Hr as [[Hl Hd] _ _ ->]. by replace (r_dst r) with n0 by lia.
Qed.

Lemma ceil_div q r B : 0 < B → 0 < r <= B → (q * B + r + B - 1) / B = q + 1.
Proof. intros HB Hr. symmetry. apply (Z.div_unique_pos _ _ _ (r - 1)); lia. Qed.

Lemma ceil_div_exact q B : 0 < B → (q * B + B - 1) / B = q.
Proof. intros HB. symmetry. apply (Z.div_unique_pos _ _ _ (B - 1)); lia. Qed.

(** The block [Append] writes to, pushed if needed, and where. *)
Lemma file_room f data junk :
  file_rep f data →
  ∃ init b,
    (let offset := size_ f mod kBlockSize in
     if negb (offset =? 0) then (blocks_ f, kBlockSize - offset)
     else (blocks_ f ++ [new_bytes junk (Z.to_nat kBlockSize)], kBlockSize))
    = (init ++ [b], kBlockSize - size_ f mod kBlockSize) ∧
    Forall (λ b, length b = Z.to_nat kBlockSize) (init ++ [b]) ∧
    size_ f = Z.of_nat (length init) * kBlockSize + size_ f mod kBlockSize ∧
    data = concat init ++ take (Z.to_nat (size_ f mod kBlockSize)) b.
Proof.
  intros [Hsz Hsm HB Hc [rest Hd]]. pose proof kBlockSize_pos as Hpos.
  pose proof (Z.div_mod (size_ f) kBlockSize) as Hdm.
  pose proof (Z.mod_pos_bound (size_ f) kBlockSize Hpos) as Hr.
  set (q := size_ f / kBlockSize) in *. set (r := size_ f mod kBlockSize) in *.
  assert (Hq : 0 <= q) by (apply Z.div_pos; lia).
  assert (Hsq : size_ f = q * kBlockSize + r) by lia. rewrite Hsq in Hc.
  cbn zeta. destruct (Z.eqb_spec r 0) as [H0|H0]; cbn [negb].
  - rewrite H0, Z.add_0_r, (ceil_div_exact q kBlockSize Hpos) in Hc.
    exists (blocks_ f), (new_bytes junk (Z.to_nat kBlockSize)). rewrite H0, Z.sub_0_r. split; [done|].
    split; [apply Forall_app; split; [done|]; repeat constructor; by rewrite length_new_bytes|].
    split; [lia|]. simpl. rewrite app_nil_r.
    apply (f_equal length) in Hd as Hl. rewrite (length_concat_full _ _ HB), length_app in Hl.
    assert (length rest = 0%nat) as Hrest by nia. apply nil_length_inv in Hrest as ->.
    by rewrite app_nil_r in Hd.
  - rewrite (ceil_div q r kBlockSize Hpos) in Hc by lia.
    destruct (blocks_ f) as [|b init _] eqn:Eb using rev_ind; [simpl in Hc; lia|].
    rewrite length_app in Hc. simpl in Hc. exists init, b. split; [done|]. split; [done|].
    split; [lia|]. rewrite concat_app in Hd. simpl in Hd. rewrite app_nil_r in Hd.
    apply Forall_app in HB as [HBi HBb]. apply Forall_cons in HBb as [HBb _].
    pose proof (length_concat_full _ _ HBi) as Hi.
    assert (length data = length (concat init) + Z.to_nat r)%nat as Hlen by nia.
    transitivity (take (length data) (data ++ rest)); [by rewrite take_app_length|].
    by rewrite <- Hd, Hlen, take_app_add.
Qed.

(** The body of the loop fills the last block, or all of a new one, as far as the
    bytes reach. *)
Lemma Append_block_spec junk f data src :
  file_rep f data → src ≠ [] → Z.of_nat (length data + length src) < 2 ^ 64 →
  ∃ f' k, Append_block junk f src = Some (f', drop k src) ∧ (0 < k <= length src)%nat ∧
          file_rep f' (data ++ take k src) ∧ refs_ f' = refs_ f.
Proof.
  intros Hr Hne Hlen. pose proof kBlockSize_pos as Hpos.
  assert (0 < length src)%nat as H0 by (destruct src; simpl; [done|lia]).
  destruct (file_room f data junk Hr) as (init & b & E & HB & Hsz & Hd). unfold Append_block, Slice_size. cbn zeta in E |- *.
  rewrite E. pose proof (Z.mod_pos_bound (size_ f) kBlockSize Hpos) as Hm.
  set (r := size_ f mod kBlockSize) in *. set (B := Z.to_nat kBlockSize) in *.
  set (avail := if Z.of_nat (length src) <? kBlockSize - r then Z.of_nat (length src) else kBlockSize - r).
  assert (Hav : avail = Z.min (Z.of_nat (length src)) (kBlockSize - r))
    by (unfold avail; destruct (Z.ltb_spec (Z.of_nat (length src)) (kBlockSize - r)); lia).
  pose proof HB as HB'. apply Forall_app in HB as [HBi HBb]. apply Forall_cons in HBb as [HBb _].
  rewrite last_snoc. cbn [mbind option_bind].
  set (chunk := take (Z.to_nat avail) src).
  assert (Hch : length chunk = Z.to_nat avail) by (unfold chunk; rewrite length_take; lia).
  rewrite mem_write_ok by lia. cbn [mbind option_bind].
  set (b' := take (Z.to_nat r) b ++ chunk ++ drop (Z.to_nat r + length chunk) b).
  assert (Hb' : length b' = B) by (unfold b'; rewrite !length_app, length_take, length_drop; lia).
  rewrite length_app, Nat.add_sub. rewrite insert_app_r_alt by lia. rewrite Nat.sub_diag.
  cbn [insert list_insert list_alter].
  pose proof (fr_size _ _ Hr) as Hfs. eexists _, (Z.to_nat avail). split; [done|]. split; [lia|]. split; [|done].
  rewrite u64_small by lia. split; simpl.
  - rewrite length_app. fold chunk. rewrite Hch. lia.
  - lia.
  - apply Forall_app. split; [done|]. by apply Forall_cons.
  - rewrite length_app. simpl. rewrite Hsz.
    replace (Z.of_nat (length init) * kBlockSize + r + avail + kBlockSize - 1)
      with (Z.of_nat (length init) * kBlockSize + (r + avail) + kBlockSize - 1) by lia.
    rewrite ceil_div by lia. lia.
  - rewrite concat_app. simpl. rewrite app_nil_r, Hd. fold chunk. unfold b'. rewrite <- app_assoc.
    apply prefix_app, prefix_app. by exists (drop (Z.to_nat r + length chunk) b).
Qed.

Lemma Append_loop_spec fuel junk f data src :
  file_rep f data → (length src < fuel)%nat → Z.of_nat (length data + length src) < 2 ^ 64 →
  ∃ f', Append_loop fuel junk f src = Some f' ∧ file_rep f' (data ++ src) ∧ refs_ f' = refs_ f.
Proof.
  revert f data src. induction fuel as [|fuel IH]; intros f data src Hr Hf Hlen; [lia|]. cbn [Append_loop].
  destruct (Z.ltb_spec 0 (Slice_size src)) as [H0|H0]; unfold Slice_size in *.
  - destruct (Append_block_spec junk f data src Hr) as (f1 & k & -> & Hk & Hr1 & E1); [by destruct src|done|].
    cbn [mbind option_bind]. destruct (IH f1 (data ++ take k src) (drop k src) Hr1) as (f' & E' & Hr' & Hrf').
    + rewrite length_drop. lia.
    + rewrite length_app, length_take, length_drop. lia.
    + exists f'. split; [done|]. rewrite <- app_assoc, take_drop in Hr'. split; [done|congruence].
  - exists f. split; [done|]. destruct src; [by rewrite app_nil_r|simpl in H0; lia].
Qed.

Lemma Truncate_rep f : file_rep (Truncate f) [].
Proof. split; done. Qed.

Lemma file_read_spec f data offset n scratch :
  file_rep f data → 0 <= offset → 0 <= n → n <= Z.of_nat (length scratch) →
  File_Read f offset n scratch =
    if Z.of_nat (length data) <? offset
    then Some (IOError (str "Offset greater than file size.") [], None, scratch)
    else let r := take (Z.to_nat n) (drop (Z.to_nat offset) data) in
         Some (Status_OK, Some r, r ++ drop (length r) scratch).
Proof.
  intros [Hsz Hsm HB Hc Hd] Ho Hn Hs. unfold File_Read, Read_available. rewrite Hsz.
  destruct (Z.ltb_spec (Z.of_nat (length data)) offset) as [Hlt|Hge]; [done|].
  set (n' := if Z.of_nat (length data) - offset <? n then Z.of_nat (length data) - offset else n).
  assert (Hn' : n' = Z.min n (Z.of_nat (length data) - offset))
    by (unfold n'; destruct (Z.ltb_spec (Z.of_nat (length data) - offset) n); lia).
  assert (Hr : take (Z.to_nat n) (drop (Z.to_nat offset) data) = take (Z.to_nat n') (drop (Z.to_nat offset) data)).
  { destruct (Z.le_gt_cases n (Z.of_nat (length data) - offset)); [by replace n' with n by lia|].
    rewrite !take_ge; [done| |]; rewrite length_drop; lia. }
  rewrite Hr. set (r := take (Z.to_nat n') (drop (Z.to_nat offset) data)) in *. cbn zeta.
  assert (Hlr : length r = Z.to_nat n') by (unfold r; rewrite length_take, length_drop; lia).
  destruct (Z.eqb_spec n' 0) as [H0|H0].
  - rewrite H0 in Hlr. apply nil_length_inv in Hlr as ->. by rewrite drop_0.
  - pose proof (prefix_length _ _ Hd) as Hpl.
    rewrite (Read_loop_spec _ _ (Z.to_nat offset) (Z.to_nat n') scratch); [|done|lia|lia|by apply Read_start_rep; lia|simpl; lia].
    cbn [mbind option_bind].
    assert (take (Z.to_nat n') (drop (Z.to_nat offset) (concat (blocks_ f))) = r) as ->.
    { destruct Hd as [rest ->]. rewrite drop_app_le, take_app_le by (rewrite ?length_drop; lia). done. }
    rewrite mem_read_ok by (rewrite length_app, length_drop; lia). cbn [mbind option_bind].
    rewrite drop_0, take_app_length' by done. by rewrite Hlr.
Qed.

(** ** Properties *)

(** C31: a file in memory behaves as a string of bytes: a new or truncated file is
    empty, [Append] adds at the end whatever the blocks, [Size] is the length,
    [Read] returns the bytes in range (fewer at the end) in [scratch] and leaves
    the rest of [scratch] alone, or fails past the end.  No access is outside of
    a block. *)
Theorem FileState_refines_bytes :
  file_rep FileState_new [] ∧
  ∀ f data, file_rep f data →
    File_Size f = Z.of_nat (length data) ∧ file_rep (Truncate f) [] ∧
    (∀ junk src, Z.of_nat (length data + length src) < 2 ^ 64 →
       ∃ f', File_Append junk f src = Some (Status_OK, f') ∧ file_rep f' (data ++ src) ∧
             refs_ f' = refs_ f) ∧
    (∀ offset n scratch, 0 <= offset → 0 <= n → n <= Z.of_nat (length scratch) →
       File_Read f offset n scratch =
         if Z.of_nat (length data) <? offset
         then Some (IOError (str "Offset greater than file size.") [], None, scratch)
         else let r := take (Z.to_nat n) (drop (Z.to_nat offset) data) in
              Some (Status_OK, Some r, r ++ drop (length r) scratch)).
Proof.
  split; [by split|]. intros f data Hr. split_and!.
  - apply Hr.
  - apply Truncate_rep.
  - intros junk src Hlen. unfold File_Append.
    destruct (Append_loop_spec (S (length src)) junk f data src Hr) as (f' & E & Hr' & Hrf);
      [lia|done|]. rewrite E. by exists f'.
  - intros offset n scratch. by apply file_read_spec.
Qed.

(** ** Witnesses *)

Lemma FileState_refines_bytes_witness :
  ∃ f', File_Append (λ _, z2b 7) FileState_new (str "hello") = Some (Status_OK, f') ∧
    File_Read f' 1 3 (str "....") = Some (Status_OK, Some (str "ell"), str "ell.").
Proof.
  destruct FileState_refines_bytes as [Hnew Hops].
  destruct (Hops _ _ Hnew) as (_ & _ & Happ & _).
  destruct (Happ (λ _, z2b 7) (str "hello") eq_refl) as (f' & E & Hr' & _).
  exists f'. split; [exact E|]. destruct (Hops _ _ Hr') as (_ & _ & _ & Hread).
  rewrite (Hread 1 3 (str "....")); [reflexivity|discriminate..].
Defined.
