(* ===== verification/FileThreads.v ===== *)
(** * A file in memory shared by threads (helper/memenv/memenv.cpp: FileState)

    Threads that hold references to one [FileState], an instruction at a time: the
    two mutexes of the object, the count that frees it, the loops of [Read] and
    [Append] block by block.  What the threads do amounts to whole operations, one
    after the other, on a string of bytes; the object is freed by the release of the
    last reference, when no thread is inside any of its operations. *)
From Stdlib Require Import ZArith Lia.
From Stdlib Require Import Strings.Byte.
From S2P Require Import Prelude Counting Slice Coding Logging Status FileState.
From stdpp Require Import base numbers strings list relations.

(** ** Instructions *)

Inductive mutex := M_refs | M_blocks.

#[export] Instance mutex_eq_dec : EqDecision mutex.
Proof. solve_decision. Defined.

(** What an operation did, as its caller sees it. *)
Inductive event :=
  | E_Size (z : Z)
  | E_Truncate
  | E_Read (offset n : Z) (s : Status) (result : option bytes)
  | E_Append (data : bytes).

(** Where a thread is; [F_Truncate_*] is in the destructor if [d]. *)
Inductive pc :=
  | F_idle
  | F_Ref_Lock | F_Ref_inc | F_Ref_Unlock
  | F_Unref_Lock | F_Unref_dec | F_Unref_test | F_Unref_Unlock (do_delete : bool)
  | F_Truncate_Lock (d : bool) | F_Truncate_clear (d : bool) | F_Truncate_size (d : bool)
  | F_Truncate_Unlock (d : bool) | F_free
  | F_Size_Lock | F_Size
  | F_Read_Lock (offset n : Z) (scratch : bytes) | F_Read_check (offset n : Z) (scratch : bytes)
  | F_Read_copy (offset n n' : Z) (r : read_state)
  | F_Append_Lock (data : bytes) | F_Append (data src : bytes)
  | F_Unlock.

(** An access is to data that a mutex guards. *)
Inductive instruction :=
  | FI_none
  | FI_Lock (m : mutex) (p : pc)
  | FI_Unlock (m : mutex) (p : pc)
  | FI_access (m : mutex) (f : FileState → option (FileState * pc * option event))
  | FI_free.

Section FileThreads.
Context (junk : nat → Byte.byte).

Definition code (p : pc) : instruction :=
  match p with
  | F_idle => FI_none
  | F_Ref_Lock => FI_Lock M_refs F_Ref_inc
  | F_Ref_inc => FI_access M_refs (λ f, Some (File_Ref f, F_Ref_Unlock, None))
  | F_Ref_Unlock => FI_Unlock M_refs F_idle
  | F_Unref_Lock => FI_Lock M_refs F_Unref_dec
  | F_Unref_dec => FI_access M_refs (λ f,
      Some ({| refs_ := refs_ f - 1; blocks_ := blocks_ f; size_ := size_ f |}, F_Unref_test, None))
  | F_Unref_test => FI_access M_refs (λ f,
      if 0 <=? refs_ f then Some (f, F_Unref_Unlock (refs_ f <=? 0), None) else None)%Z
  | F_Unref_Unlock d => FI_Unlock M_refs (if d then F_Truncate_Lock true else F_idle)
  | F_Truncate_Lock d => FI_Lock M_blocks (F_Truncate_clear d)
  | F_Truncate_clear d => FI_access M_blocks (λ f,
      Some ({| refs_ := refs_ f; blocks_ := []; size_ := size_ f |}, F_Truncate_size d, None))
  | F_Truncate_size d => FI_access M_blocks (λ f,
      Some ({| refs_ := refs_ f; blocks_ := blocks_ f; size_ := 0 |}, F_Truncate_Unlock d, Some E_Truncate))
  | F_Truncate_Unlock d => FI_Unlock M_blocks (if d then F_free else F_idle)
  | F_free => FI_free
  | F_Size_Lock => FI_Lock M_blocks F_Size
  | F_Size => FI_access M_blocks (λ f, Some (f, F_Unlock, Some (E_Size (File_Size f))))
  | F_Read_Lock offset n scratch => FI_Lock M_blocks (F_Read_check offset n scratch)
  | F_Read_check offset n scratch => FI_access M_blocks (λ f,
      match Read_available f offset n with
      | None => Some (f, F_Unlock,
          Some (E_Read offset n (IOError (str "Offset greater than file size.") []) None))
      | Some n' =>
          if (n' =? 0)%Z then Some (f, F_Unlock, Some (E_Read offset n Status_OK (Some [])))
          else Some (f, F_Read_copy offset n n' (Read_start offset n' scratch), None)
      end)
  | F_Read_copy offset n n' r => FI_access M_blocks (λ f,
      if (0 <? r_bytes_to_copy r)%Z then
        r ← Read_block (blocks_ f) r; Some (f, F_Read_copy offset n n' r, None)
      else
        result ← mem_read (r_scratch r) 0 (Z.to_nat n');
        Some (f, F_Unlock, Some (E_Read offset n Status_OK (Some result))))
  | F_Append_Lock data => FI_Lock M_blocks (F_Append data data)
  | F_Append data src => FI_access M_blocks (λ f,
      if (0 <? Slice_size src)%Z then
        '(f, src) ← Append_block junk f src; Some (f, F_Append data src, None)
      else Some (f, F_Unlock, Some (E_Append data)))
  | F_Unlock => FI_Unlock M_blocks F_idle
  end.

(** ** State *)

(** A thread and the references it holds. *)
Record thread := { at_pc : pc; owned : nat }.

Record object := { file : FileState; holder : mutex → option nat }.

(** [started] counts the bytes given to [Append]; the object is [None] once freed. *)
Record state := { shared : option object; threads : list thread; started : nat }.

Definition set_holder (m : mutex) (h : option nat) (o : object) : object :=
  {| file := file o; holder := λ m', if decide (m' = m) then h else holder o m' |}.

Definition owned_after (p : pc) (n : nat) : nat :=
  match p with F_Ref_inc => S n | F_Unref_dec => pred n | _ => n end.

Definition put (i : nat) (o : option object) (p : pc) (n : nat) (s : state) : state :=
  {| shared := o; threads := <[i := {| at_pc := p; owned := n |}]> (threads s); started := started s |}.

(** The thread that makes the file takes the first reference before it shares it. *)
Definition state_new (k : nat) : state :=
  {| shared := Some {| file := File_Ref FileState_new; holder := λ _, None |};
     threads := {| at_pc := F_idle; owned := 1 |} :: replicate k {| at_pc := F_idle; owned := 0 |};
     started := 0 |}.

(** ** Steps of thread [i] *)

(** An operation begins; the bytes it brings. *)
Inductive begins : pc → nat → Prop :=
  | b_Ref : begins F_Ref_Lock 0
  | b_Unref : begins F_Unref_Lock 0
  | b_Size : begins F_Size_Lock 0
  | b_Truncate : begins (F_Truncate_Lock false) 0
  | b_Read offset n scratch : (0 <= offset)%Z → (0 <= n <= Z.of_nat (length scratch))%Z →
      begins (F_Read_Lock offset n scratch) 0
  | b_Append data : begins (F_Append_Lock data) (length data).

(** A thread calls an operation through a reference it holds, hands a reference to
    another thread, or goes on with its operation. *)
Inductive step (i : nat) (s : state) : option event → state → Prop :=
  | s_begin t p n : threads s !! i = Some t → at_pc t = F_idle → 0 < owned t → begins p n →
      step i s None {| shared := shared s; threads := <[i := {| at_pc := p; owned := owned t |}]> (threads s);
                       started := started s + n |}
  | s_give t j u n : threads s !! i = Some t → at_pc t = F_idle → owned t = S n → j ≠ i →
      threads s !! j = Some u →
      step i s None {| shared := shared s;
                       threads := <[j := {| at_pc := at_pc u; owned := S (owned u) |}]>
                                    (<[i := {| at_pc := F_idle; owned := n |}]> (threads s));
                       started := started s |}
  | s_lock t m p o : threads s !! i = Some t → code (at_pc t) = FI_Lock m p → shared s = Some o →
      holder o m = None → step i s None (put i (Some (set_holder m (Some i) o)) p (owned t) s)
  | s_unlock t m p o : threads s !! i = Some t → code (at_pc t) = FI_Unlock m p → shared s = Some o →
      holder o m = Some i → step i s None (put i (Some (set_holder m None o)) p (owned t) s)
  | s_access t m f o f' p e : threads s !! i = Some t → code (at_pc t) = FI_access m f → shared s = Some o →
      holder o m = Some i → f (file o) = Some (f', p, e) →
      step i s e (put i (Some {| file := f'; holder := holder o |}) p (owned_after (at_pc t) (owned t)) s)
  | s_free t o : threads s !! i = Some t → code (at_pc t) = FI_free → shared s = Some o →
      step i s None (put i None F_idle (owned t) s).

Inductive exec (k : nat) : state → list event → Prop :=
  | exec_new : exec k (state_new k) []
  | exec_step s tr i e s' : exec k s tr → step i s e s' → exec k s' (tr ++ option_list e).

(** What a thread must not do: touch the object once it is freed, or without the mutex;
    fail an assertion or leave a block; lock a mutex it holds or release one it does not;
    free the object while a mutex of it is locked. *)
Definition legal (s : state) (i : nat) : Prop :=
  ∀ t, threads s !! i = Some t → at_pc t ≠ F_idle →
  ∃ o, shared s = Some o ∧
  match code (at_pc t) with
  | FI_none => False
  | FI_Lock m _ => holder o m ≠ Some i
  | FI_Unlock m _ => holder o m = Some i
  | FI_access m f => holder o m = Some i ∧ is_Some (f (file o))
  | FI_free => ∀ m, holder o m = None
  end.

(** ** Specification: whole operations on a string of bytes *)

Inductive flat_step (data : bytes) : event → bytes → Prop :=
  | fl_Size : flat_step data (E_Size (Z.of_nat (length data))) data
  | fl_Truncate : flat_step data E_Truncate []
  | fl_Append d : flat_step data (E_Append d) (data ++ d)
  | fl_Read offset n : (offset <= Z.of_nat (length data))%Z →
      flat_step data (E_Read offset n Status_OK (Some (take (Z.to_nat n) (drop (Z.to_nat offset) data)))) data
  | fl_Read_error offset n : (Z.of_nat (length data) < offset)%Z →
      flat_step data (E_Read offset n (IOError (str "Offset greater than file size.") []) None) data.

Inductive flat_run : list event → bytes → Prop :=
  | flat_nil : flat_run [] []
  | flat_snoc tr data e data' : flat_run tr data → flat_step data e data' → flat_run (tr ++ [e]) data'.

(** ** Invariant *)

Definition inside (m : mutex) (p : pc) : bool :=
  match m, p with
  | M_refs, (F_Ref_inc | F_Ref_Unlock | F_Unref_dec | F_Unref_test | F_Unref_Unlock _) => true
  | M_blocks, (F_Truncate_clear _ | F_Truncate_size _ | F_Truncate_Unlock _ | F_Size | F_Read_check _ _ _
              | F_Read_copy _ _ _ _ | F_Append _ _ | F_Unlock) => true
  | _, _ => false
  end.

(** After it gave up the last reference. *)
Definition deleting (p : pc) : bool :=
  match p with
  | F_Unref_Unlock d | F_Truncate_Lock d | F_Truncate_clear d | F_Truncate_size d | F_Truncate_Unlock d => d
  | F_free => true
  | _ => false
  end.

Definition needs_ref (p : pc) : bool :=
  match p with
  | F_idle | F_Unref_test | F_Unref_Unlock _ => false
  | _ => negb (deleting p)
  end.

(** About to free the object, or about to find out that it has to. *)
Definition last_one (p : pc) : bool := match p with F_Unref_test => true | _ => deleting p end.

(** Bytes an operation is going to append. *)
Definition pending (t : thread) : nat :=
  match at_pc t with F_Append_Lock data | F_Append data _ => length data | _ => 0 end.

Definition args_ok (offset n : Z) (len : nat) : Prop := (0 <= offset ∧ 0 <= n <= Z.of_nat len)%Z.

(** The arguments of an operation that waits. *)
Definition waits_ok (p : pc) : Prop :=
  match p with F_Read_Lock offset n scratch => args_ok offset n (length scratch) | _ => True end.

(** What the thread with [blocks_mutex_] has done to the file, which held [data]. *)
Definition section (p : pc) (f : FileState) (data : bytes) : Prop :=
  match p with
  | F_Truncate_size _ => blocks_ f = []
  | F_Read_check offset n scratch => file_rep f data ∧ args_ok offset n (length scratch)
  | F_Read_copy offset n n' r =>
      file_rep f data ∧ (0 <= offset <= Z.of_nat (length data))%Z ∧ (0 <= n)%Z ∧
      n' = Z.min n (Z.of_nat (length data) - offset) ∧
      ∃ scratch, (n <= Z.of_nat (length scratch))%Z ∧
        read_rep (blocks_ f) (Z.to_nat offset) (Z.to_nat n') scratch r
  | F_Append d src => ∃ part, d = part ++ src ∧ file_rep f (data ++ part)
  | _ => file_rep f data
  end.

Definition references (s : state) : nat := sum_list (owned <$> threads s).

Record inv_object (o : object) (s : state) (data : bytes) : Prop := {
  io_refs : refs_ (file o) = Z.of_nat (references s);
  io_own i t : threads s !! i = Some t → needs_ref (at_pc t) = true → 0 < owned t;
  io_inside i t m : threads s !! i = Some t → inside m (at_pc t) = true → holder o m = Some i;
  io_holder i m : holder o m = Some i → ∃ t, threads s !! i = Some t ∧ inside m (at_pc t) = true;
  io_deleting i t : threads s !! i = Some t → deleting (at_pc t) = true →
    references s = 0 ∧ ∀ j u, j ≠ i → threads s !! j = Some u → at_pc u = F_idle;
  io_last : references s = 0 → ∃ i t, threads s !! i = Some t ∧ last_one (at_pc t) = true;
  io_content :
    match holder o M_blocks with
    | None => file_rep (file o) data
    | Some i => ∃ t, threads s !! i = Some t ∧ section (at_pc t) (file o) data
    end;
  io_waits i t : threads s !! i = Some t → waits_ok (at_pc t) }.

Definition freed (s : state) : Prop := ∀ i t, threads s !! i = Some t → at_pc t = F_idle ∧ owned t = 0.

Definition bytes_total (s : state) (data : bytes) : Prop :=
  length data + sum_list (pending <$> threads s) ≤ started s.

Definition inv (s : state) (data : bytes) : Prop :=
  bytes_total s data ∧ match shared s with Some o => inv_object o s data | None => freed s end.

(** ** Lemmas *)

Lemma file_rep_refs f data n :
  file_rep f data → file_rep {| refs_ := n; blocks_ := blocks_ f; size_ := size_ f |} data.
Proof. intros [? ? ? ? ?]. by split. Qed.

(** The other threads are idle when one deletes. *)
Lemma deleting_others o s data i t :
  inv_object o s data → threads s !! i = Some t → at_pc t ≠ F_idle →
  ∀ j u, j ≠ i → threads s !! j = Some u → deleting (at_pc u) = false.
Proof.
  intros Ho Hi Hp j u Hji Hj. destruct (deleting (at_pc u)) eqn:E; [|done].
  destruct (io_deleting _ _ _ Ho _ _ Hj E) as [_ H]. by destruct (Hp (H i t ltac:(done) Hi)).
Qed.

(** The thread that finds the count at zero is alone. *)
Lemma last_alone o s data i t :
  inv_object o s data → threads s !! i = Some t → last_one (at_pc t) = true → references s = 0 →
  ∀ j u, j ≠ i → threads s !! j = Some u → at_pc u = F_idle.
Proof.
  intros Ho Hi Hl H0 j u Hji Hj. destruct (deleting (at_pc t)) eqn:Ed.
  { destruct (io_deleting _ _ _ Ho i t Hi Ed) as [_ H]. by apply (H j u). }
  assert (at_pc t = F_Unref_test) as Et by (destruct (at_pc t); simpl in *; congruence).
  assert (deleting (at_pc u) = false) as Hd by (eapply (deleting_others o s data i t); congruence || done).
  pose proof (io_own _ _ _ Ho _ _ Hj) as Hown. pose proof (sum_zero owned _ _ _ Hj H0) as H00.
  assert (inside M_refs (at_pc u) = false) as Hin.
  { destruct (inside M_refs (at_pc u)) eqn:E; [|done]. pose proof (io_inside _ _ _ Ho _ _ M_refs Hj E) as E1.
    pose proof (io_inside _ _ _ Ho _ _ M_refs Hi ltac:(by rewrite Et)). congruence. }
  destruct (at_pc u); simpl in *; try done; rewrite ?Hd in Hown; simpl in Hown; specialize (Hown eq_refl); lia.
Qed.

Lemma section_same p f f' data :
  blocks_ f' = blocks_ f → size_ f' = size_ f → section p f data → section p f' data.
Proof.
  intros Eb Es. destruct f as [r b z], f' as [r' b' z']. simpl in *. subst.
  assert (∀ d, file_rep {| refs_ := r; blocks_ := b; size_ := z |} d →
               file_rep {| refs_ := r'; blocks_ := b; size_ := z |} d) as H by (intros d [? ? ? ? ?]; by split).
  destruct p; simpl; auto.
  - intros [? ?]. auto.
  - intros (? & ?). auto.
  - intros (part & ? & ?). exists part. auto.
Qed.

Lemma file_rep_same f f' data :
  blocks_ f' = blocks_ f → size_ f' = size_ f → file_rep f data → file_rep f' data.
Proof. intros Eb Es. apply (section_same F_Unlock _ _ _ Eb Es). Qed.

Lemma put_lookup (ts : list thread) i v j u :
  <[i := v]> ts !! j = Some u → j = i ∧ u = v ∨ j ≠ i ∧ ts !! j = Some u.
Proof. intros [(<- & <- & _)|[? ?]]%list_lookup_insert_Some; auto. Qed.

(** A step of a thread that is in an operation, or begins one with a reference. *)
Lemma inv_put o s data i t o' p' n' data' :
  inv_object o s data → threads s !! i = Some t → at_pc t ≠ F_idle ∨ 0 < owned t →
  (refs_ (file o') + Z.of_nat (owned t) = refs_ (file o) + Z.of_nat n')%Z →
  (needs_ref p' = true → 0 < n') →
  (∀ m, holder o' m = if inside m p' then Some i else if inside m (at_pc t) then None else holder o m) →
  (∀ m, inside m p' = true → inside m (at_pc t) = true ∨ holder o m = None) →
  (deleting p' = true → last_one (at_pc t) = true ∧ refs_ (file o) = 0%Z ∧ n' = owned t) →
  (refs_ (file o') = 0%Z → last_one p' = true ∨ refs_ (file o) = 0%Z ∧ last_one (at_pc t) = false) →
  (if inside M_blocks p' then section p' (file o') data'
   else if inside M_blocks (at_pc t) then file_rep (file o') data'
   else data' = data ∧ blocks_ (file o') = blocks_ (file o) ∧ size_ (file o') = size_ (file o)) →
  waits_ok p' →
  inv_object o' (put i (Some o') p' n' s) data'.
Proof.
  intros Ho Hi Hp Hrefs Hown Hhold Hfree Hdel Hlast Hcont Hw.
  assert (threads (put i (Some o') p' n' s) !! i = Some {| at_pc := p'; owned := n' |}) as Hi'
    by (simpl; apply list_lookup_insert_eq; by eapply lookup_lt_Some).
  assert (references (put i (Some o') p' n' s) + owned t = references s + n') as Hsum
    by (unfold references; simpl; by rewrite (sum_insert owned _ i t)).
  pose proof (io_refs _ _ _ Ho) as Hr.
  assert (∀ j u, j ≠ i → threads s !! j = Some u → threads (put i (Some o') p' n' s) !! j = Some u) as Hother
    by (intros j u ? ?; simpl; by rewrite list_lookup_insert_ne).
  split.
  - lia.
  - intros j u [(-> & ->)|[_ Hj]]%put_lookup; [done|]. eapply io_own; done.
  - intros j u m [(-> & ->)|[Hji Hj]]%put_lookup Hin; simpl in *; [by rewrite Hhold, Hin|].
    pose proof (io_inside _ _ _ Ho _ _ m Hj Hin) as Hh. rewrite Hhold.
    destruct (inside m p') eqn:E1; [|destruct (inside m (at_pc t)) eqn:E2; [|done]].
    + destruct (Hfree m E1) as [E2|?]; [|congruence]. pose proof (io_inside _ _ _ Ho _ _ m Hi E2). congruence.
    + pose proof (io_inside _ _ _ Ho _ _ m Hi E2). congruence.
  - intros j m Hh. rewrite Hhold in Hh. destruct (inside m p') eqn:E1.
    + injection Hh as <-. by eexists.
    + destruct (inside m (at_pc t)) eqn:E2; [done|]. destruct (io_holder _ _ _ Ho _ _ Hh) as (u & Hj & Hu).
      exists u. split; [|done]. apply Hother; [|done]. intros ->. congruence.
  - intros j u [(-> & ->)|[Hji Hj]]%put_lookup Hd; simpl in *.
    + destruct (Hdel Hd) as (Hl & H0 & ->). assert (references s = 0) as Hs0 by lia. split; [lia|].
      intros j u Hji [(-> & _)|[_ Hj]]%put_lookup; [done|].
      by apply (last_alone o s data i t Ho Hi Hl Hs0 j).
    + exfalso. destruct (io_deleting _ _ _ Ho _ _ Hj Hd) as [H0 H].
      destruct Hp as [Hp|Hp]; [by apply Hp, (H i t)|]. pose proof (sum_zero owned _ _ _ Hi H0). lia.
  - intros H0. destruct Hlast as [Hl|[H0' Hl]]; [lia|by eexists _, _|].
    destruct (io_last _ _ _ Ho ltac:(lia)) as (j & u & Hj & Hu). exists j, u. split; [|done].
    apply Hother; [|done]. intros ->. congruence.
  - rewrite Hhold. destruct (inside M_blocks p') eqn:E1; [by eexists|].
    destruct (inside M_blocks (at_pc t)) eqn:E2; [done|]. destruct Hcont as (-> & Eb & Es).
    pose proof (io_content _ _ _ Ho) as Hc. destruct (holder o M_blocks) as [j|] eqn:Ej.
    + destruct Hc as (u & Hj & Hsec). exists u. split; [|by eapply section_same].
      apply Hother; [|done]. intros ->. destruct (io_holder _ _ _ Ho _ _ Ej) as (u' & Hu' & Hin). congruence.
    + by eapply file_rep_same.
  - intros j u [(-> & ->)|[_ Hj]]%put_lookup; [done|]. by eapply io_waits.
Qed.

Lemma inv_object_threads o s s' data :
  inv_object o s data → threads s' = threads s → inv_object o s' data.
Proof.
  intros Ho E. destruct s as [a ts n], s' as [a' ts' n']. simpl in E. subst ts'.
  destruct Ho as [? ? ? ? ? ? ? ?]. by split.
Qed.

(** References change hands. *)
Lemma inv_owned o s s' data :
  inv_object o s data → at_pc <$> threads s' = at_pc <$> threads s → references s' = references s →
  (∀ i t, threads s' !! i = Some t → needs_ref (at_pc t) = true → 0 < owned t) →
  inv_object o s' data.
Proof.
  intros Ho Epc Eref Hown.
  assert (∀ ts1 ts2 : list thread, at_pc <$> ts1 = at_pc <$> ts2 → ∀ i t, ts1 !! i = Some t →
            ∃ u, ts2 !! i = Some u ∧ at_pc u = at_pc t) as Hlook.
  { intros ts1 ts2 E i t Hi. assert ((at_pc <$> ts2) !! i = Some (at_pc t)) as H
      by (by rewrite <- E, list_lookup_fmap, Hi).
    rewrite list_lookup_fmap in H. apply fmap_Some in H as (u & Hu & Eu). by exists u. }
  pose proof (Hlook _ _ Epc) as H1. pose proof (Hlook _ _ (eq_sym Epc)) as H2. split.
  - rewrite Eref. apply Ho.
  - done.
  - intros i t m (u & Hu & <-)%H1. by apply (io_inside _ _ _ Ho).
  - intros i m (t & Ht & Hin)%(io_holder _ _ _ Ho). destruct (H2 _ _ Ht) as (u & Hu & Eu).
    exists u. by rewrite Eu.
  - intros i t (u & Hu & <-)%H1 Hd. destruct (io_deleting _ _ _ Ho _ _ Hu Hd) as [H0 Hidle].
    split; [congruence|]. intros j v Hji (w & Hw & <-)%H1. by apply (Hidle j).
  - rewrite Eref. intros (i & t & Ht & Hl)%(io_last _ _ _ Ho). destruct (H2 _ _ Ht) as (u & Hu & Eu).
    exists i, u. by rewrite Eu.
  - pose proof (io_content _ _ _ Ho) as Hc. destruct (holder o M_blocks) as [i|]; [|done].
    destruct Hc as (t & Ht & Hs). destruct (H2 _ _ Ht) as (u & Hu & Eu). exists u. by rewrite Eu.
  - intros i t (u & Hu & <-)%H1. by apply (io_waits _ _ _ Ho i).
Qed.

Lemma give_inv o s data i j t u n :
  inv_object o s data → threads s !! i = Some t → at_pc t = F_idle → owned t = S n → j ≠ i →
  threads s !! j = Some u →
  inv_object o {| shared := shared s;
                  threads := <[j := {| at_pc := at_pc u; owned := S (owned u) |}]>
                               (<[i := {| at_pc := F_idle; owned := n |}]> (threads s));
                  started := started s |} data.
Proof.
  intros Ho Hi Ep En Hji Hj.
  assert (<[i := {| at_pc := F_idle; owned := n |}]> (threads s) !! j = Some u) as Hj'
    by (by rewrite list_lookup_insert_ne).
  apply (inv_owned o s); [done|..]; simpl.
  - rewrite !list_fmap_insert. simpl. rewrite (list_insert_id _ i) by (by rewrite list_lookup_fmap, Hi, <- Ep).
    by rewrite (list_insert_id _ j) by (by rewrite list_lookup_fmap, Hj).
  - unfold references. simpl. pose proof (sum_insert owned _ j _ {| at_pc := at_pc u; owned := S (owned u) |} Hj') as E1.
    pose proof (sum_insert owned _ i _ {| at_pc := F_idle; owned := n |} Hi) as E2. simpl in *. lia.
  - intros k v [(-> & ->)|[_ [(-> & ->)|[_ Hk]]%put_lookup]]%put_lookup; simpl; [lia|done|by eapply io_own].
Qed.

Lemma total_put i o p n s t data data' :
  bytes_total s data → threads s !! i = Some t →
  length data' + pending {| at_pc := p; owned := n |} ≤ length data + pending t →
  bytes_total (put i o p n s) data'.
Proof.
  unfold bytes_total. simpl. intros H Hi Hle.
  pose proof (sum_insert pending _ i _ {| at_pc := p; owned := n |} Hi). lia.
Qed.

Lemma begin_inv o s data i t p n :
  inv_object o s data → shared s = Some o → threads s !! i = Some t → at_pc t = F_idle → 0 < owned t → begins p n →
  inv_object o {| shared := shared s; threads := <[i := {| at_pc := p; owned := owned t |}]> (threads s);
                  started := started s + n |} data.
Proof.
  intros Ho Es Hi Ep Hn Hb. apply (inv_object_threads o (put i (Some o) p (owned t) s)); [|done].
  assert (refs_ (file o) ≠ 0%Z) as Hr
    by (rewrite (io_refs _ _ _ Ho); pose proof (sum_elem owned _ _ _ Hi); unfold references; lia).
  apply (inv_put o s data i t o); try done.
  - by right.
  - intros m. rewrite Ep. by destruct Hb, m.
  - by destruct Hb, m.
  - by destruct Hb.
  - rewrite Ep. by destruct Hb.
  - by destruct Hb.
Qed.

(** What [Lock] and [Unlock] stand between. *)
Lemma lock_facts p m q :
  code p = FI_Lock m q →
  p ≠ F_idle ∧ (∀ m', inside m' p = false) ∧ (∀ m', inside m' q = bool_decide (m' = m)) ∧
  (needs_ref q = true → needs_ref p = true) ∧ deleting q = deleting p ∧
  last_one p = deleting p ∧ (deleting p = true → last_one q = true) ∧ waits_ok q ∧
  (m = M_blocks → ∀ f data, waits_ok p → file_rep f data → section q f data).
Proof.
  destruct p; simpl; intros [= <- <-]; split_and!; try done; try (by intros []).
  intros _ f data' _ Hr. exists []. by rewrite app_nil_r.
Qed.

Lemma unlock_facts p m q :
  code p = FI_Unlock m q →
  p ≠ F_idle ∧ (∀ m', inside m' p = bool_decide (m' = m)) ∧ (∀ m', inside m' q = false) ∧
  (needs_ref q = true → needs_ref p = true) ∧ deleting q = deleting p ∧
  last_one p = deleting p ∧ (deleting p = true → last_one q = true) ∧ waits_ok q ∧
  (m = M_blocks → ∀ f data, section p f data → file_rep f data).
Proof.
  destruct p as [| | | | | | |[]| | | |[]| | | | | | | | |]; simpl; intros [= <- <-];
    split_and!; try done; by intros [].
Qed.

Lemma deleting_refs o s data i t :
  inv_object o s data → threads s !! i = Some t → deleting (at_pc t) = true → refs_ (file o) = 0%Z.
Proof. intros Ho Hi Hd. destruct (io_deleting _ _ _ Ho _ _ Hi Hd) as [H0 _]. rewrite (io_refs _ _ _ Ho). lia. Qed.

Lemma lock_inv o s data i t m p :
  inv_object o s data → threads s !! i = Some t → code (at_pc t) = FI_Lock m p → holder o m = None →
  inv_object (set_holder m (Some i) o) (put i (Some (set_holder m (Some i) o)) p (owned t) s) data.
Proof.
  intros Ho Hi Hc Hm. destruct (lock_facts _ _ _ Hc) as (Hp & H1 & H2 & H3 & H4 & H5 & H6 & H7 & H8).
  apply (inv_put o s data i t); try done.
  - by left.
  - intros Hn. apply (io_own _ _ _ Ho _ _ Hi). auto.
  - intros m'. rewrite H1, H2. simpl. by repeat case_decide || case_bool_decide.
  - intros m'. rewrite H2, bool_decide_eq_true. intros ->. by right.
  - rewrite H4, H5. intros Hd. split; [done|]. split; [by apply (deleting_refs o s data i t)|done].
  - intros H0. destruct (deleting (at_pc t)) eqn:E; [left; auto|right; by rewrite H5].
  - rewrite H1, H2. case_bool_decide as Em; [|done]. subst m.
    apply H8; [done|by apply (io_waits _ _ _ Ho i)|]. pose proof (io_content _ _ _ Ho) as Hcont. by rewrite Hm in Hcont.
Qed.

Lemma unlock_inv o s data i t m p :
  inv_object o s data → threads s !! i = Some t → code (at_pc t) = FI_Unlock m p → holder o m = Some i →
  inv_object (set_holder m None o) (put i (Some (set_holder m None o)) p (owned t) s) data.
Proof.
  intros Ho Hi Hc Hm. destruct (unlock_facts _ _ _ Hc) as (Hp & H1 & H2 & H3 & H4 & H5 & H6 & H7 & H8).
  apply (inv_put o s data i t); try done.
  - by left.
  - intros Hn. apply (io_own _ _ _ Ho _ _ Hi). auto.
  - intros m'. rewrite H1, H2. simpl. by repeat case_decide || case_bool_decide.
  - intros m'. by rewrite H2.
  - rewrite H4, H5. intros Hd. split; [done|]. split; [by apply (deleting_refs o s data i t)|done].
  - intros H0. destruct (deleting (at_pc t)) eqn:E; [left; auto|right; by rewrite H5].
  - rewrite H1, H2. case_bool_decide as Em; [|done]. subst m. pose proof (io_content _ _ _ Ho) as Hcont.
    rewrite Hm in Hcont. destruct Hcont as (t' & Ht' & Hs). rewrite Hi in Ht'. injection Ht' as <-. by apply H8.
Qed.

(** ** Accesses *)

Definition event_ok (data : bytes) (e : option event) (data' : bytes) : Prop :=
  match e with None => data' = data | Some e => flat_step data e data' end.

(** An access under [blocks_mutex_] goes on with the operation and stays inside. *)
Record block_access (p : pc) (f : FileState) (data : bytes) (f' : FileState) (p' : pc) (e : option event)
    (data' : bytes) : Prop := {
  ba_refs : refs_ f' = refs_ f;
  ba_inside m : inside m p' = inside m p;
  ba_deleting : deleting p' = deleting p ∧ last_one p' = deleting p;
  ba_needs : needs_ref p' = needs_ref p;
  ba_section : section p' f' data';
  ba_event : event_ok data e data';
  ba_pending n : length data' + pending {| at_pc := p'; owned := n |} ≤
                 length data + pending {| at_pc := p; owned := n |};
  ba_waits : waits_ok p' }.

Lemma read_check f data offset n scratch :
  file_rep f data → args_ok offset n (length scratch) →
  ∃ f' p' e data',
    match Read_available f offset n with
    | None => Some (f, F_Unlock,
        Some (E_Read offset n (IOError (str "Offset greater than file size.") []) None))
    | Some n' =>
        if (n' =? 0)%Z then Some (f, F_Unlock, Some (E_Read offset n Status_OK (Some [])))
        else Some (f, F_Read_copy offset n n' (Read_start offset n' scratch), None)
    end = Some (f', p', e) ∧ block_access (F_Read_check offset n scratch) f data f' p' e data'.
Proof.
  intros Hf Ha. pose proof Ha as [Ho Hn]. unfold Read_available. rewrite (fr_size _ _ Hf).
  destruct (Z.ltb_spec (Z.of_nat (length data)) offset) as [Hlt|Hge].
  - eexists _, _, _, data. split; [done|]. split; try done; by apply fl_Read_error.
  - set (n' := if (Z.of_nat (length data) - offset <? n)%Z then (Z.of_nat (length data) - offset)%Z else n).
    assert (n' = Z.min n (Z.of_nat (length data) - offset)) as En
      by (unfold n'; destruct (Z.ltb_spec (Z.of_nat (length data) - offset) n); lia).
    destruct (Z.eqb_spec n' 0) as [E0|E0].
    + eexists _, _, _, data. split; [done|]. split; try done.
      replace [] with (take (Z.to_nat n) (drop (Z.to_nat offset) data)); [by apply fl_Read|].
      destruct (Z.min_spec n (Z.of_nat (length data) - offset)) as [[? E]|[? E]].
      * replace (Z.to_nat n) with 0 by lia. done.
      * rewrite drop_ge by lia. apply take_nil.
    + eexists _, _, _, data. split; [done|]. split; try done.
      split; [done|]. split; [lia|]. split; [lia|]. split; [done|]. exists scratch. split; [lia|].
      apply Read_start_rep; lia.
Qed.

Lemma read_copy f data offset n n' r :
  section (F_Read_copy offset n n' r) f data →
  ∃ f' p' e data',
    (if (0 <? r_bytes_to_copy r)%Z then
       r ← Read_block (blocks_ f) r; Some (f, F_Read_copy offset n n' r, None)
     else
       result ← mem_read (r_scratch r) 0 (Z.to_nat n');
       Some (f, F_Unlock, Some (E_Read offset n Status_OK (Some result)))) = Some (f', p', e) ∧
    block_access (F_Read_copy offset n n' r) f data f' p' e data'.
Proof.
  intros (Hf & Ho & Hn & En & scratch & Hs & Hr). pose proof Hf as [Hsz Hsm HB Hc Hd].
  pose proof (prefix_length _ _ Hd) as Hpl.
  destruct (Z.ltb_spec 0 (r_bytes_to_copy r)) as [H0|H0].
  - destruct (Read_block_spec (blocks_ f) (Z.to_nat offset) (Z.to_nat n') scratch r HB ltac:(lia) ltac:(lia) Hr H0) as (r' & -> & Hr' & _).
    cbn [mbind option_bind]. eexists _, _, _, data. split; [done|].
    split; try done. split; [done|]. split; [done|]. split; [done|]. split; [done|]. by exists scratch.
  - destruct Hr as [[Hl Hk] _ _ Es]. assert (r_dst r = Z.to_nat n') as Ek by lia. rewrite Es, Ek.
    assert (take (Z.to_nat n') (drop (Z.to_nat offset) (concat (blocks_ f)))
            = take (Z.to_nat n) (drop (Z.to_nat offset) data)) as ->.
    { destruct Hd as [rest ->]. rewrite drop_app_le, take_app_le by (rewrite ?length_drop; lia).
      destruct (Z.min_spec n (Z.of_nat (length data) - offset)) as [[? E]|[? E]]; [by replace n' with n by lia|].
      rewrite !take_ge; [done| |]; rewrite length_drop; lia. }
    assert (length (take (Z.to_nat n) (drop (Z.to_nat offset) data)) = Z.to_nat n') as Hlen
      by (rewrite length_take, length_drop; lia).
    rewrite mem_read_ok by (rewrite length_app, length_drop; lia). cbn [mbind option_bind].
    rewrite drop_0, take_app_length' by done.
    eexists _, _, _, data. split; [done|]. split; try done; apply fl_Read; lia.
Qed.

Lemma append_access f data d src :
  section (F_Append d src) f data → (Z.of_nat (length data + length d) < 2 ^ 64)%Z →
  ∃ f' p' e data',
    (if (0 <? Slice_size src)%Z then
       '(f, src) ← Append_block junk f src; Some (f, F_Append d src, None)
     else Some (f, F_Unlock, Some (E_Append d))) = Some (f', p', e) ∧
    block_access (F_Append d src) f data f' p' e data'.
Proof.
  intros (part & -> & Hf) Hlen. rewrite length_app in Hlen. unfold Slice_size.
  destruct (Z.ltb_spec 0 (Z.of_nat (length src))) as [H0|H0].
  - destruct (Append_block_spec junk f (data ++ part) src Hf) as (f' & k & -> & Hk & Hf' & Er);
      [by destruct src|rewrite length_app; lia|]. cbn [mbind option_bind].
    eexists _, _, _, data. split; [done|]. split; try done.
    exists (part ++ take k src). rewrite <- !app_assoc, take_drop in *. by split.
  - destruct src; [|simpl in H0; lia]. rewrite app_nil_r in *.
    eexists _, _, _, (data ++ part). split; [done|]. split; try done; [apply fl_Append|].
    intros n. rewrite length_app. unfold pending. simpl. lia.
Qed.

Lemma blocks_access p g f data n :
  code p = FI_access M_blocks g → section p f data →
  (Z.of_nat (length data + pending {| at_pc := p; owned := n |}) < 2 ^ 64)%Z →
  ∃ f' p' e data', g f = Some (f', p', e) ∧ block_access p f data f' p' e data'.
Proof.
  intros Hc Hs Hlen. destruct p; simpl in Hc; try discriminate Hc; injection Hc as <-.
  - eexists _, _, _, data. split; [done|]. by split.
  - eexists _, _, _, []. split; [done|]. split; try done; [|apply fl_Truncate|intros k; unfold pending; simpl; lia].
    simpl in *. split; simpl; rewrite ?Hs; done.
  - eexists _, _, _, data. split; [done|]. split; try done. simpl. unfold File_Size. rewrite (fr_size _ _ Hs). apply fl_Size.
  - by apply read_check; destruct Hs.
  - by apply read_copy.
  - by apply append_access.
Qed.

Lemma blocks_access_inv o s data i t g f' p' e data' :
  inv_object o s data → threads s !! i = Some t → code (at_pc t) = FI_access M_blocks g →
  holder o M_blocks = Some i → block_access (at_pc t) (file o) data f' p' e data' →
  inv_object {| file := f'; holder := holder o |}
    (put i (Some {| file := f'; holder := holder o |}) p' (owned t) s) data'.
Proof.
  intros Ho Hi Hc Hh [Hr Hin [Hd Hl] Hn Hs _ _ Hw].
  assert (inside M_blocks (at_pc t) = true ∧ inside M_refs (at_pc t) = false ∧ at_pc t ≠ F_idle ∧
          last_one (at_pc t) = deleting (at_pc t)) as (Hb & Hb' & Hp & Hlt) by (destruct (at_pc t); simpl in *; done).
  apply (inv_put o s data i t); try done; cbn [file holder].
  - by left.
  - by rewrite Hr.
  - rewrite Hn. apply (io_own _ _ _ Ho _ _ Hi).
  - intros m. rewrite Hin. destruct m; [by rewrite Hb'|by rewrite Hb].
  - intros m. rewrite Hin. by left.
  - rewrite Hd, Hlt. intros E. split; [done|]. split; [by apply (deleting_refs o s data i t)|done].
  - rewrite Hr. intros H0. rewrite Hl, Hlt. destruct (deleting (at_pc t)); auto.
  - by rewrite Hin, Hb.
Qed.

Lemma refs_access_inv o s data i t g :
  inv_object o s data → threads s !! i = Some t → code (at_pc t) = FI_access M_refs g → holder o M_refs = Some i →
  ∃ f' p' , g (file o) = Some (f', p', None) ∧
    inv_object {| file := f'; holder := holder o |}
      (put i (Some {| file := f'; holder := holder o |}) p' (owned_after (at_pc t) (owned t)) s) data ∧
    ∀ k k', pending {| at_pc := p'; owned := k |} = pending {| at_pc := at_pc t; owned := k' |}.
Proof.
  intros Ho Hi Hc Hh. pose proof (io_own _ _ _ Ho _ _ Hi) as Hown. pose proof (io_refs _ _ _ Ho) as Hr.
  destruct t as [p n]. simpl in *. destruct p; simpl in Hc; try discriminate Hc; injection Hc as <-; simpl in *.
  - eexists _, _. split; [done|]. split; [|done]. eapply (inv_put o s data i); try done; simpl; try done; try lia.
    + by intros [].
    + intros []; simpl; auto.
  - specialize (Hown eq_refl). eexists _, _. split; [done|]. split; [|done].
    eapply (inv_put o s data i); try done; simpl; try done; try lia.
    + by intros [].
    + intros []; simpl; auto.
  - destruct (Z.leb_spec 0 (refs_ (file o))); [|lia]. eexists _, _. split; [done|]. split; [|done].
    eapply (inv_put o s data i); try done; simpl; try done; try lia.
    + by left.
    + by intros [].
    + intros []; simpl; auto.
Qed.

(** ** Every step *)

Lemma access_inside p m g : code p = FI_access m g → inside m p = true.
Proof. by destruct p; simpl; intros [= <- _]. Qed.

Lemma owned_blocks p g n : code p = FI_access M_blocks g → owned_after p n = n.
Proof. by destruct p. Qed.

(** The thread with [blocks_mutex_] can make its access. *)
Lemma thread_access o s data i t g :
  inv_object o s data → bytes_total s data → (Z.of_nat (started s) < 2 ^ 64)%Z → threads s !! i = Some t →
  code (at_pc t) = FI_access M_blocks g → holder o M_blocks = Some i →
  ∃ f' p' e data', g (file o) = Some (f', p', e) ∧ block_access (at_pc t) (file o) data f' p' e data'.
Proof.
  intros Ho Ht Hs Hi Hc Hh. pose proof (io_content _ _ _ Ho) as Hcont. rewrite Hh in Hcont.
  destruct Hcont as (t' & Ht' & Hsec). rewrite Hi in Ht'. injection Ht' as <-.
  apply (blocks_access _ _ _ _ (owned t) Hc Hsec). unfold bytes_total in Ht.
  pose proof (sum_elem pending _ _ _ Hi) as Hp. unfold pending in *. simpl. lia.
Qed.

Lemma inv_legal s data i : inv s data → (Z.of_nat (started s) < 2 ^ 64)%Z → legal s i.
Proof.
  intros [Ht Ho] Hs t Hi Hp. destruct (shared s) as [o|]; [|by destruct (Ho i t Hi)].
  exists o. split; [done|]. destruct (code (at_pc t)) as [|m q|m q|m g|] eqn:Hc.
  - destruct (at_pc t); done.
  - intros Hh. destruct (io_holder _ _ _ Ho _ _ Hh) as (u & Hu & Hin). rewrite Hi in Hu. injection Hu as <-.
    destruct (lock_facts _ _ _ Hc) as (_ & H1 & _). congruence.
  - destruct (unlock_facts _ _ _ Hc) as (_ & H1 & _). apply (io_inside _ _ _ Ho _ _ _ Hi).
    rewrite H1. by apply bool_decide_eq_true.
  - pose proof (io_inside _ _ _ Ho _ _ m Hi (access_inside _ _ _ Hc)) as Hh. split; [done|]. destruct m.
    + destruct (refs_access_inv o s data i t g Ho Hi Hc Hh) as (f' & p' & -> & _). done.
    + destruct (thread_access o s data i t g Ho Ht Hs Hi Hc Hh) as (f' & p' & e & d' & -> & _). done.
  - assert (at_pc t = F_free) as Ep by (by destruct (at_pc t)). intros m. destruct (holder o m) as [j|] eqn:Hh; [|done].
    destruct (io_holder _ _ _ Ho _ _ Hh) as (u & Hu & Hin).
    destruct (decide (j = i)) as [->|Hji]; [rewrite Hi in Hu; injection Hu as <-; by rewrite Ep in Hin; destruct m|].
    destruct (io_deleting _ _ _ Ho _ _ Hi) as [_ H]; [by rewrite Ep|]. rewrite (H j u Hji Hu) in Hin. by destruct m.
Qed.

Lemma shared_step i s e s' data :
  inv s data → step i s e s' → (Z.of_nat (started s') < 2 ^ 64)%Z → ∃ data', inv s' data' ∧ event_ok data e data'.
Proof.
  intros [Ht Ho] Hst Hs.
  destruct Hst as [t p n Hi Ep Hn Hb|t j u n Hi Ep En Hji Hj|t m p o Hi Hc Es Hm|t m p o Hi Hc Es Hm
    |t m g o f' p e Hi Hc Es Hm Hg|t o Hi Hc Es].
  - exists data. split; [|done]. split.
    + unfold bytes_total in *. simpl. pose proof (sum_insert pending _ i _ {| at_pc := p; owned := owned t |} Hi) as E.
      assert (pending t = 0) as E0 by (unfold pending; by rewrite Ep).
      assert (pending {| at_pc := p; owned := owned t |} = n) as E1 by (by destruct Hb). lia.
    + simpl. destruct (shared s) as [o|] eqn:Es.
      * rewrite <- Es. by apply begin_inv.
      * destruct (Ho i t Hi). lia.
  - exists data. split; [|done]. split.
    + unfold bytes_total in *. simpl.
      pose proof (sum_insert pending _ i _ {| at_pc := F_idle; owned := n |} Hi) as E1.
      assert (<[i := {| at_pc := F_idle; owned := n |}]> (threads s) !! j = Some u) as Hj'
        by (by rewrite list_lookup_insert_ne).
      pose proof (sum_insert pending _ j _ {| at_pc := at_pc u; owned := S (owned u) |} Hj') as E2.
      unfold pending in *. simpl in *. lia.
    + simpl. destruct (shared s) as [o|] eqn:Es; [rewrite <- Es; by apply (give_inv o s data i j t u n)|].
      destruct (Ho i t Hi). lia.
  - exists data. rewrite Es in Ho. split; [|done]. split; [|by apply lock_inv].
    apply (total_put _ _ _ _ _ t data); [done|done|].
    destruct t as [q k]. destruct q; simpl in Hc; try discriminate Hc; injection Hc as <- <-; unfold pending; simpl; lia.
  - exists data. rewrite Es in Ho. split; [|done]. split; [|by apply unlock_inv].
    apply (total_put _ _ _ _ _ t data); [done|done|].
    destruct t as [q k]. destruct q as [| | | | | | |[]| | | |[]| | | | | | | | |]; simpl in Hc; try discriminate Hc;
      injection Hc as <- <-; unfold pending; simpl; lia.
  - rewrite Es in Ho. destruct m.
    + destruct (refs_access_inv o s data i t g Ho Hi Hc Hm) as (f1 & p1 & Eg & Ho' & Hpend). rewrite Hg in Eg.
      injection Eg as -> -> ->. exists data. split; [|done]. split; [|done].
      apply (total_put _ _ _ _ _ t data); [done|done|]. rewrite (Hpend _ (owned t)). by destruct t.
    + destruct (thread_access o s data i t g Ho Ht Hs Hi Hc Hm) as (f1 & p1 & e1 & data' & Eg & Hba). rewrite Hg in Eg.
      injection Eg as -> -> ->. exists data'. split; [|apply Hba]. rewrite (owned_blocks _ _ _ Hc). split.
      * apply (total_put _ _ _ _ _ t data); [done|done|].
        pose proof (ba_pending _ _ _ _ _ _ _ Hba (owned t)). by destruct t.
      * by eapply blocks_access_inv.
  - rewrite Es in Ho. exists data. split; [|done].
    assert (at_pc t = F_free) as Ep by (by destruct (at_pc t)).
    destruct (io_deleting _ _ _ Ho _ _ Hi) as [H0 H]; [by rewrite Ep|]. split.
    + apply (total_put _ _ _ _ _ t data); [done|done|]. unfold pending. rewrite Ep. simpl. lia.
    + intros j u [(-> & ->)|[Hji Hj]]%put_lookup; simpl; (split; [|by eapply sum_zero]); [done|by apply (H j u)].
Qed.

Lemma step_started i s e s' : step i s e s' → started s ≤ started s'.
Proof. destruct 1; simpl; lia. Qed.

Lemma shared_new k : inv (state_new k) [].
Proof.
  assert (∀ (k : nat) (f : thread → nat), f {| at_pc := F_idle; owned := 0 |} = 0 →
            sum_list (f <$> replicate k {| at_pc := F_idle; owned := 0 |}) = 0) as Hsum
    by (intros n f Hf; induction n as [|n IH]; simpl; [done|]; by rewrite Hf).
  assert (references (state_new k) = 1) as Href
    by (change (1 + sum_list (owned <$> replicate k {| at_pc := F_idle; owned := 0 |}) = 1); by rewrite (Hsum k owned)).
  assert (∀ i t, threads (state_new k) !! i = Some t → at_pc t = F_idle) as Hidle.
  { intros [|i] t; simpl; [by intros [= <-]|]. by intros [-> _]%lookup_replicate. }
  split; [change (0 + (0 + sum_list (pending <$> replicate k {| at_pc := F_idle; owned := 0 |})) ≤ 0); by rewrite (Hsum k pending)|]. split; simpl; rewrite ?Href; try done.
  - intros i t Hi. by rewrite (Hidle i t Hi).
  - intros i t [] Hi; by rewrite (Hidle i t Hi).
  - intros i t Hi. by rewrite (Hidle i t Hi).
  - intros i t Hi. by rewrite (Hidle i t Hi).
Qed.

Lemma exec_inv k s tr :
  exec k s tr → (Z.of_nat (started s) < 2 ^ 64)%Z → ∃ data, inv s data ∧ flat_run tr data.
Proof.
  induction 1 as [|s tr i e s' _ IH Hst]; intros Hs; [exists []; split; [apply shared_new|constructor]|].
  pose proof (step_started _ _ _ _ Hst). destruct IH as (data & Hinv & Hrun); [lia|].
  destruct (shared_step _ _ _ _ _ Hinv Hst Hs) as (data' & Hinv' & He). exists data'. split; [done|].
  destruct e as [e|]; simpl in *; [by econstructor|]. by rewrite app_nil_r, He.
Qed.

(** A thread that does not wait for a mutex steps. *)
Lemma legal_steps s i t :
  legal s i → threads s !! i = Some t → at_pc t ≠ F_idle → (∀ m q, code (at_pc t) ≠ FI_Lock m q) →
  ∃ e s', step i s e s'.
Proof.
  intros Hl Hi Hp Hn. destruct (Hl t Hi Hp) as (o & Es & Hc). destruct (code (at_pc t)) as [|m q|m q|m g|] eqn:E.
  - done.
  - by destruct (Hn m q).
  - eexists _, _. by eapply s_unlock.
  - destruct Hc as [Hh [[[f' p'] e] Hg]]. eexists _, _. by eapply s_access.
  - eexists _, _. by eapply s_free.
Qed.

(** C21: threads that share a file in memory - one instruction at a time, every
    access to the object through a reference - never touch it once it is freed,
    never access its data without the mutex that guards it, never leave a block and
    fail no assertion; what their operations return and leave behind is what whole
    operations, one after the other, do to a string of bytes; the count is the number
    of references the threads own, and the object is freed
    exactly when none is left, with both mutexes free; and no thread is
    blocked for good: it can go on, or waits for a thread that can. *)
Theorem FileState_threads k s tr :
  exec k s tr → (Z.of_nat (started s) < 2 ^ 64)%Z →
  (∀ i, legal s i) ∧
  (∃ data, flat_run tr data ∧
     ∀ o, shared s = Some o → holder o M_blocks = None → file_rep (file o) data) ∧
  (∀ o, shared s = Some o → refs_ (file o) = Z.of_nat (references s)) ∧
  ((∀ i t, threads s !! i = Some t → at_pc t = F_idle) → shared s = None ↔ references s = 0) ∧
  (∀ i t, threads s !! i = Some t → at_pc t ≠ F_idle →
     (∃ e s', step i s e s') ∨
     ∃ m q o j e s', code (at_pc t) = FI_Lock m q ∧ shared s = Some o ∧ holder o m = Some j ∧ step j s e s').
Proof.
  intros Hex Hs. destruct (exec_inv _ _ _ Hex Hs) as (data & Hinv & Hrun).
  assert (∀ i, legal s i) as Hlegal by (intros i; by apply (inv_legal s data)).
  pose proof Hinv as [_ Ho]. split; [done|]. split; [|split; [|split]].
  - exists data. split; [done|]. intros o Es Hh. rewrite Es in Ho. pose proof (io_content _ _ _ Ho) as Hc.
    by rewrite Hh in Hc.
  - intros o Es. rewrite Es in Ho. apply (io_refs _ _ _ Ho).
  - intros Hidle. destruct (shared s) as [o|].
    + split; [done|]. intros (i & t & Hi & Hl)%(io_last _ _ _ Ho). by rewrite (Hidle i t Hi) in Hl.
    + split; [|done]. intros _. unfold references, freed in *. clear -Ho.
      induction (threads s) as [|t ts IH]; [done|]. simpl. destruct (Ho 0 t eq_refl) as [_ ->].
      apply IH. intros i u Hu. by apply (Ho (S i) u).
  - intros i t Hi Hp. destruct (code (at_pc t)) as [|m q|m q|m g|] eqn:Hc;
      try (left; apply (legal_steps s i t); [done..|]; intros; congruence).
    destruct (Hlegal i t Hi Hp) as (o & Es & _). destruct (holder o m) as [j|] eqn:Hh.
    + right. rewrite Es in Ho. destruct (io_holder _ _ _ Ho _ _ Hh) as (u & Hu & Hin).
      destruct (legal_steps s j u) as (e & s' & Hst); [done|done| | |by eexists _, _, _, _, _, _].
      * intros E. rewrite E in Hin. by destruct m.
      * intros m' q' Hl. destruct (lock_facts _ _ _ Hl) as (_ & H1 & _). congruence.
    + left. eexists _, _. by eapply s_lock.
Qed.
End FileThreads.

(** Goes on with the execution [H]. *)
#[local] Ltac next_with H tac :=
  let H' := fresh in
  epose proof (exec_step _ _ _ _ _ _ _ H ltac:(tac)) as H'; clear H; rename H' into H; simpl in H.

(** The file's maker asks for its size and gives up the only reference: the file is
    freed. *)
Lemma FileState_threads_witness :
  ∃ s tr, exec (λ _, x00) 1 s tr ∧ shared s = None ∧ references s = 0 ∧ ∃ data, flat_run tr data.
Proof.
  assert (∃ s tr, exec (λ _, x00) 1 s tr ∧ shared s = None ∧ started s = 0 ∧
            ∀ i t, threads s !! i = Some t → at_pc t = F_idle) as (s & tr & Hex & Hn & Hs & Hidle).
  { pose proof (exec_new (λ _, x00) 1) as H.
    next_with H ltac:(eapply (s_begin _ 0); [reflexivity|reflexivity|apply Nat.lt_0_1|apply b_Size]).
    next_with H ltac:(eapply (s_lock _ 0); reflexivity).
    next_with H ltac:(eapply (s_access _ 0); reflexivity).
    next_with H ltac:(eapply (s_unlock _ 0); reflexivity).
    next_with H ltac:(eapply (s_begin _ 0); [reflexivity|reflexivity|apply Nat.lt_0_1|apply b_Unref]).
    next_with H ltac:(eapply (s_lock _ 0); reflexivity).
    next_with H ltac:(eapply (s_access _ 0); reflexivity).
    next_with H ltac:(eapply (s_access _ 0); reflexivity).
    next_with H ltac:(eapply (s_unlock _ 0); reflexivity).
    next_with H ltac:(eapply (s_lock _ 0); reflexivity).
    next_with H ltac:(eapply (s_access _ 0); reflexivity).
    next_with H ltac:(eapply (s_access _ 0); reflexivity).
    next_with H ltac:(eapply (s_unlock _ 0); reflexivity).
    next_with H ltac:(eapply (s_free _ 0); reflexivity).
    eexists _, _. split; [exact H|]. split; [reflexivity|]. split; [reflexivity|].
    intros [|[|i]] t Ht; cbn in Ht; simplify_eq; reflexivity. }
  destruct (FileState_threads (λ _, x00) 1 s tr Hex) as (_ & (data & Hrun & _) & _ & Hfreed & _); [rewrite Hs; lia|].
  exists s, tr. split; [exact Hex|]. split; [exact Hn|]. split; [apply (Hfreed Hidle), Hn|]. exists data. exact Hrun.
Defined.
