(* ===== verification/Env.v ===== *)
(** * Environments (include/lldb/env.h, util/env.cpp)

    The [Env] interface as a class over the state of the environment - files
    that are open are handles - with the default methods, [EnvWrapper] and the
    helpers that write a string to a file and read a file back.  [None] is a
    failed assertion or an invalid access of the implementation. *)
From Stdlib Require Import ZArith Lia.
From Stdlib Require Import Strings.Byte.
From S2P Require Import Prelude Slice Coding Logging Status.
From stdpp Require Import base gmap numbers strings list.

#[local] Open Scope Z_scope.

(** ** The interface *)

Abbreviation handle := positive.

(** [Read] returns the status, [*result] if it is set, and the buffer. *)
Class Env (E : Type) := {
  NewSequentialFile : bytes → E → option (Status * option handle * E);
  NewRandomAccessFile : bytes → E → option (Status * option handle * E);
  NewWritableFile : bytes → E → option (Status * option handle * E);
  NewAppendableFile : bytes → E → option (Status * option handle * E);
  FileExists : bytes → E → bool * E;
  GetChildren : bytes → E → option (Status * list bytes * E);
  RemoveFile : bytes → E → option (Status * E);
  CreateDir : bytes → E → option (Status * E);
  RemoveDir : bytes → E → option (Status * E);
  GetFileSize : bytes → E → option (Status * option Z * E);
  RenameFile : bytes → bytes → E → option (Status * E);
  Sequential_Read : handle → Z → bytes → E → option (Status * option bytes * bytes * E);
  Sequential_Skip : handle → Z → E → option (Status * E);
  RandomAccess_Read : handle → Z → Z → bytes → E → option (Status * option bytes * bytes * E);
  Writable_Append : handle → bytes → E → option (Status * E);
  Writable_Close : handle → E → option (Status * E);
  Writable_Flush : handle → E → option (Status * E);
  Writable_Sync : handle → E → option (Status * E);
  delete_file : handle → E → option E }.
#[export] Hint Mode Env ! : typeclass_instances.

(** ** Default methods *)

Definition Default_NewAppendableFile {E} (fname : bytes) (e : E) :
  option (Status * option handle * E) :=
  Some (NotSupported (str "NewAppendableFile") fname, None, e).

(** [RemoveDir] and [DeleteDir] (and in the same way [RemoveFile] and
    [DeleteFile]) call each other by default: the overriding methods of a
    subclass, and the virtual calls with a bound on their depth. *)
Record dir_methods (E : Type) := {
  RemoveDir_override : option (bytes → E → Status * E);
  DeleteDir_override : option (bytes → E → Status * E) }.
Arguments RemoveDir_override {E}.
Arguments DeleteDir_override {E}.

Fixpoint call_RemoveDir {E} (depth : nat) (v : dir_methods E) (d : bytes) (e : E) : option (Status * E) :=
  match RemoveDir_override v with
  | Some f => Some (f d e)
  | None => match depth with O => None | S n => call_DeleteDir n v d e end
  end
with call_DeleteDir {E} (depth : nat) (v : dir_methods E) (d : bytes) (e : E) : option (Status * E) :=
  match DeleteDir_override v with
  | Some f => Some (f d e)
  | None => match depth with O => None | S n => call_RemoveDir n v d e end
  end.

(** ** EnvWrapper *)

Record EnvWrapper (E : Type) := { target_ : E }.
Arguments target_ {E}.
Arguments Build_EnvWrapper {E}.

Section Forward.
Context {E : Type} `{Env E}.

Definition forward3 {A B} (f : E → option (A * B * E)) (w : EnvWrapper E) :
  option (A * B * EnvWrapper E) :=
  '(a, b, e) ← f (target_ w); Some (a, b, Build_EnvWrapper e).

Definition forward2 {A} (f : E → option (A * E)) (w : EnvWrapper E) : option (A * EnvWrapper E) :=
  '(a, e) ← f (target_ w); Some (a, Build_EnvWrapper e).

#[export] Instance EnvWrapper_Env : Env (EnvWrapper E) := {|
  NewSequentialFile f := forward3 (NewSequentialFile f);
  NewRandomAccessFile f := forward3 (NewRandomAccessFile f);
  NewWritableFile f := forward3 (NewWritableFile f);
  NewAppendableFile f := forward3 (NewAppendableFile f);
  FileExists f w := let '(b, e) := FileExists f (target_ w) in (b, Build_EnvWrapper e);
  GetChildren d := forward3 (GetChildren d);
  RemoveFile f := forward2 (RemoveFile f);
  CreateDir d := forward2 (CreateDir d);
  RemoveDir d := forward2 (RemoveDir d);
  GetFileSize f := forward3 (GetFileSize f);
  RenameFile s t := forward2 (RenameFile s t);
  Sequential_Read h n scratch w :=
    '(s, r, b, e) ← Sequential_Read h n scratch (target_ w); Some (s, r, b, Build_EnvWrapper e);
  Sequential_Skip h n := forward2 (Sequential_Skip h n);
  RandomAccess_Read h o n scratch w :=
    '(s, r, b, e) ← RandomAccess_Read h o n scratch (target_ w); Some (s, r, b, Build_EnvWrapper e);
  Writable_Append h data := forward2 (Writable_Append h data);
  Writable_Close h := forward2 (Writable_Close h);
  Writable_Flush h := forward2 (Writable_Flush h);
  Writable_Sync h := forward2 (Writable_Sync h);
  delete_file h w := Build_EnvWrapper <$> delete_file h (target_ w) |}.
End Forward.

(** ** Helpers over any environment *)

Section Helpers.
Context {E : Type} `{Env E}.

Definition DoWriteStringToFile (data fname : bytes) (should_sync : bool) (e : E) :
  option (Status * E) :=
  '(s, file, e) ← NewWritableFile fname e;
  if negb (Status_ok s) then Some (s, e)
  else
    file ← (file : option handle);
    '(s, e) ← Writable_Append file data e;
    '(s, e) ← (if Status_ok s && should_sync then Writable_Sync file e else Some (s, e));
    '(s, e) ← (if Status_ok s then Writable_Close file e else Some (s, e));
    e ← delete_file file e;
    e ← (if negb (Status_ok s) then snd <$> RemoveFile fname e else Some e);
    Some (s, e).

Definition WriteStringToFile (data fname : bytes) : E → option (Status * E) :=
  DoWriteStringToFile data fname false.
Definition WriteStringToFileSync (data fname : bytes) : E → option (Status * E) :=
  DoWriteStringToFile data fname true.

Definition kBufferSize : Z := 8192.

(** The [while (true)] loop of [ReadFileToString], for at most [fuel] reads; an
    implementation that leaves [fragment] unset reads as the empty slice. *)
Fixpoint Read_fragments (fuel : nat) (file : handle) (space data : bytes) (e : E) :
  option (Status * bytes * E) :=
  match fuel with
  | O => None
  | S fuel =>
      '(s, fragment, space, e) ← Sequential_Read file kBufferSize space e;
      if negb (Status_ok s) then Some (s, data, e)
      else
        let fragment := default [] fragment in
        let data := data ++ fragment in
        if Slice_empty fragment then Some (s, data, e)
        else Read_fragments fuel file space data e
  end.

(** [junk] is what the new buffer holds. *)
Definition ReadFileToString (junk : nat → Byte.byte) (fuel : nat) (fname : bytes) (e : E) :
  option (Status * bytes * E) :=
  '(s, file, e) ← NewSequentialFile fname e;
  if negb (Status_ok s) then Some (s, [], e)
  else
    file ← (file : option handle);
    '(s, data, e) ← Read_fragments fuel file (new_bytes junk (Z.to_nat kBufferSize)) [] e;
    e ← delete_file file e;
    Some (s, data, e).
End Helpers.

(** ** What the helpers need of an environment *)

(** [env_view e m]: the files of [e] have the contents [m]; [reading e h d]: the
    sequential file [h] has [d] left; [writing e h f]: [h] appends to the file
    named [f].  A read may be short, but is empty only at the end. *)
Class FileLaws (E : Type) `{Env E} := {
  env_view : E → gmap bytes bytes → Prop;
  reading : E → handle → bytes → Prop;
  writing : E → handle → bytes → Prop;
  law_new_writable e m f : env_view e m →
    ∃ h e', NewWritableFile f e = Some (Status_OK, Some h, e') ∧
            env_view e' (<[f := []]> m) ∧ writing e' h f;
  law_append e m h f d data : env_view e m → writing e h f → m !! f = Some d →
    Z.of_nat (length d + length data) < 2 ^ 64 →
    ∃ e', Writable_Append h data e = Some (Status_OK, e') ∧
          env_view e' (<[f := d ++ data]> m) ∧ writing e' h f;
  law_sync e m h f : env_view e m → writing e h f →
    ∃ e', Writable_Sync h e = Some (Status_OK, e') ∧ env_view e' m ∧ writing e' h f;
  law_close e m h f : env_view e m → writing e h f →
    ∃ e', Writable_Close h e = Some (Status_OK, e') ∧ env_view e' m ∧ writing e' h f;
  law_delete_writing e m h f : env_view e m → writing e h f →
    ∃ e', delete_file h e = Some e' ∧ env_view e' m;
  law_new_sequential e m f d : env_view e m → m !! f = Some d →
    ∃ h e', NewSequentialFile f e = Some (Status_OK, Some h, e') ∧ env_view e' m ∧ reading e' h d;
  law_new_missing e m f : env_view e m → m !! f = None →
    ∃ s, NewSequentialFile f e = Some (s, None, e) ∧ Status_ok s = false;
  law_read e m h d n scratch : env_view e m → reading e h d → 0 < n → n <= Z.of_nat (length scratch) →
    ∃ r rest scratch' e', Sequential_Read h n scratch e = Some (Status_OK, Some r, scratch', e') ∧
      d = r ++ rest ∧ (r = [] → rest = []) ∧ length scratch' = length scratch ∧
      env_view e' m ∧ reading e' h rest;
  law_delete_reading e m h d : env_view e m → reading e h d →
    ∃ e', delete_file h e = Some e' ∧ env_view e' m }.
#[export] Hint Mode FileLaws ! - : typeclass_instances.

(** ** Lemmas *)

Lemma dir_calls_end {E} (v : dir_methods E) d e :
  (is_Some (RemoveDir_override v) ∨ is_Some (DeleteDir_override v)) →
  is_Some (call_RemoveDir 1 v d e) ∧ is_Some (call_DeleteDir 1 v d e).
Proof.
  intros [[f Ef]|[f Ef]]; simpl; rewrite Ef; split; eauto.
  - destruct (DeleteDir_override v); eauto.
  - destruct (RemoveDir_override v); eauto.
Qed.

(** Without an override the default methods never return. *)
Lemma dir_calls_loop {E} (v : dir_methods E) d e n :
  RemoveDir_override v = None → DeleteDir_override v = None →
  call_RemoveDir n v d e = None ∧ call_DeleteDir n v d e = None.
Proof.
  intros H1 H2. induction n as [|n [IH1 IH2]]; simpl; rewrite H1, H2; done.
Qed.

(** ** Lemmas: the wrapper *)

Section WrapperLaws.
Context {E : Type} `{HE : Env E} `{HL : !FileLaws E}.

(** Rewrites with what the target returned. *)
Ltac forward H := cbn; unfold forward2, forward3; cbn; rewrite H; cbn; eauto 12.

#[export] Program Instance EnvWrapper_laws : FileLaws (EnvWrapper E) := {|
  env_view w := env_view (target_ w);
  reading w := reading (target_ w);
  writing w := writing (target_ w) |}.
Next Obligation. intros [e] m f Hm. destruct (law_new_writable e m f Hm) as (h & e' & E1 & ?). forward E1. Qed.
Next Obligation.
  intros [e] m h f d data Hm Hw Hf Hl. destruct (law_append e m h f d data Hm Hw Hf Hl) as (e' & E1 & ?).
  forward E1.
Qed.
Next Obligation. intros [e] m h f Hm Hw. destruct (law_sync e m h f Hm Hw) as (e' & E1 & ?). forward E1. Qed.
Next Obligation. intros [e] m h f Hm Hw. destruct (law_close e m h f Hm Hw) as (e' & E1 & ?). forward E1. Qed.
Next Obligation.
  intros [e] m h f Hm Hw. destruct (law_delete_writing e m h f Hm Hw) as (e' & E1 & ?). forward E1.
Qed.
Next Obligation.
  intros [e] m f d Hm Hf. destruct (law_new_sequential e m f d Hm Hf) as (h & e' & E1 & ?). forward E1.
Qed.
Next Obligation. intros [e] m f Hm Hf. destruct (law_new_missing e m f Hm Hf) as (s & E1 & Hs). forward E1. Qed.
Next Obligation.
  intros [e] m h d n scratch Hm Hr Hn Hl.
  destruct (law_read e m h d n scratch Hm Hr Hn Hl) as (r & rest & sp & e' & E1 & ? & ? & ? & ? & ?).
  forward E1.
Qed.
Next Obligation.
  intros [e] m h d Hm Hr. destruct (law_delete_reading e m h d Hm Hr) as (e' & E1 & ?). forward E1.
Qed.
End WrapperLaws.

Lemma close_delete_wrapper {E : Type} `{Env E} h f (s0 : Status) (e0 : E) s e' :
  ('(s, e) ← (if Status_ok s0 then Writable_Close h e0 else Some (s0, e0));
   e ← delete_file h e; e ← (if negb (Status_ok s) then snd <$> RemoveFile f e else Some e);
   Some (s, e)) = Some (s, e') →
  ('(s, e) ← (if Status_ok s0 then '(a, e) ← Writable_Close h e0; Some (a, Build_EnvWrapper e)
              else Some (s0, Build_EnvWrapper e0));
   e ← Build_EnvWrapper <$> delete_file h (target_ e);
   e ← (if negb (Status_ok s) then snd <$> ('(a, e) ← RemoveFile f (target_ e); Some (a, Build_EnvWrapper e))
        else Some e);
   Some (s, e)) = Some (s, Build_EnvWrapper e').
Proof.
  destruct (Status_ok s0); [destruct (Writable_Close h e0) as [[s1 e1]|]; [|done]|]; cbn;
    (destruct (delete_file h _) as [e2|]; [|done]); cbn; (destruct (negb _); [|by intros [= -> ->]]);
    (destruct (RemoveFile f e2) as [[s3 e3]|]; [|done]); by intros [= -> ->].
Qed.

(** Whatever the target, a wrapper writes as the target does. *)
Lemma DoWriteStringToFile_wrapper {E : Type} `{Env E} data f sync (e : E) s e' :
  DoWriteStringToFile data f sync e = Some (s, e') →
  DoWriteStringToFile data f sync (Build_EnvWrapper e) = Some (s, Build_EnvWrapper e').
Proof.
  unfold DoWriteStringToFile. cbn. unfold forward3, forward2. cbn.
  destruct (NewWritableFile f e) as [[[s1 file] e1]|]; [|done]. cbn.
  destruct (Status_ok s1); cbn; [|by intros [= -> ->]].
  destruct file as [h|]; [|done]. cbn.
  destruct (Writable_Append h data e1) as [[s2 e2]|]; [|done]. cbn.
  destruct (Status_ok s2 && sync); cbn.
  - destruct (Writable_Sync h e2) as [[s3 e3]|]; [|done]. cbn. apply close_delete_wrapper.
  - apply close_delete_wrapper.
Qed.

(** ** Lemmas: the helpers *)

Section HelperLemmas.
Context {E : Type} `{HE : Env E} `{HL : !FileLaws E}.

Lemma DoWriteStringToFile_spec (e : E) m data f sync :
  env_view e m → Z.of_nat (length data) < 2 ^ 64 →
  ∃ e', DoWriteStringToFile data f sync e = Some (Status_OK, e') ∧ env_view e' (<[f := data]> m).
Proof.
  intros Hm Hlen. unfold DoWriteStringToFile.
  destruct (law_new_writable e m f Hm) as (h & e1 & E1 & Hm1 & Hw1). rewrite E1.
  cbn [mbind option_bind negb Status_ok Status_OK].
  destruct (law_append e1 _ h f [] data Hm1 Hw1) as (e2 & E2 & Hm2 & Hw2);
    [apply lookup_insert_eq|simpl; lia|].
  rewrite insert_insert_eq in Hm2. rewrite E2. cbn [mbind option_bind app].
  assert (∃ e3, (if Status_ok Status_OK && sync then Writable_Sync h e2 else Some (Status_OK, e2))
                = Some (Status_OK, e3) ∧ env_view e3 (<[f := data]> m) ∧ writing e3 h f)
    as (e3 & E3 & Hm3 & Hw3).
  { destruct sync; [apply (law_sync e2 _ h f Hm2 Hw2)|by exists e2]. }
  rewrite E3. cbn [mbind option_bind].
  destruct (law_close e3 _ h f Hm3 Hw3) as (e4 & E4 & Hm4 & Hw4).
  cbn. rewrite E4. cbn. destruct (law_delete_writing e4 _ h f Hm4 Hw4) as (e5 & E5 & Hm5).
  rewrite E5. cbn. eauto.
Qed.

(** The loop ends: every read but the last makes progress. *)
Lemma Read_fragments_spec fuel h (e : E) m d data space :
  env_view e m → reading e h d → length space = Z.to_nat kBufferSize → (length d < fuel)%nat →
  ∃ e', Read_fragments fuel h space data e = Some (Status_OK, data ++ d, e') ∧ env_view e' m ∧
        reading e' h [].
Proof.
  revert e d data space. induction fuel as [|fuel IH]; intros e d data space Hm Hr Hs Hf; [lia|].
  cbn [Read_fragments].
  destruct (law_read e m h d kBufferSize space Hm Hr) as (r & rest & sp & e1 & E1 & -> & Hend & Hl & Hm1 & Hr1);
    [done|unfold kBufferSize in *; lia|].
  rewrite E1. cbn [mbind option_bind]. cbn -[Slice_empty]. rewrite length_app in Hf.
  destruct r as [|x r].
  - rewrite (Hend eq_refl) in *. simpl. rewrite !app_nil_r. eauto.
  - change (Slice_empty (x :: r)) with false. cbn.
    destruct (IH e1 rest (data ++ x :: r) sp) as (e2 & E2 & Hm2 & Hr2); [done|done|lia|simpl in Hf; lia|].
    rewrite E2, <- app_assoc. eauto.
Qed.

Lemma ReadFileToString_spec junk fuel (e : E) m f d :
  env_view e m → m !! f = Some d → (length d < fuel)%nat →
  ∃ e', ReadFileToString junk fuel f e = Some (Status_OK, d, e') ∧ env_view e' m.
Proof.
  intros Hm Hf Hfuel. unfold ReadFileToString.
  destruct (law_new_sequential e m f d Hm Hf) as (h & e1 & E1 & Hm1 & Hr1). rewrite E1. cbn.
  destruct (Read_fragments_spec fuel h e1 m d [] (new_bytes junk (Z.to_nat kBufferSize)) Hm1 Hr1)
    as (e2 & E2 & Hm2 & Hr2); [by rewrite length_new_bytes|done|].
  rewrite E2. cbn. destruct (law_delete_reading e2 m h [] Hm2 Hr2) as (e3 & E3 & Hm3).
  rewrite E3. cbn. eauto.
Qed.

Lemma ReadFileToString_missing junk fuel (e : E) m f :
  env_view e m → m !! f = None →
  ∃ s, ReadFileToString junk fuel f e = Some (s, [], e) ∧ Status_ok s = false.
Proof.
  intros Hm Hf. unfold ReadFileToString.
  destruct (law_new_missing e m f Hm Hf) as (s & E1 & Hs). rewrite E1. cbn. rewrite Hs. cbn. eauto.
Qed.
End HelperLemmas.

(** ** Properties *)

(** C32: when a step of writing a string to a file fails, the later steps are
    skipped, the file object is destroyed, the partial file is removed - whatever
    that returns - and the status of the failed step is the result; when the file
    cannot be made nothing else is called. *)
Theorem DoWriteStringToFile_errors {E : Type} `{Env E} (data f : bytes) (sync : bool) (e : E) :
  (∀ s file e1, NewWritableFile f e = Some (s, file, e1) → Status_ok s = false →
     DoWriteStringToFile data f sync e = Some (s, e1)) ∧
  (∀ s0 h e1 s e2, NewWritableFile f e = Some (s0, Some h, e1) → Status_ok s0 = true →
     Status_ok s = false →
     (Writable_Append h data e1 = Some (s, e2) ∨
      ∃ s1 e1', Writable_Append h data e1 = Some (s1, e1') ∧ Status_ok s1 = true ∧
        ((sync = true ∧ Writable_Sync h e1' = Some (s, e2)) ∨
         (sync = false ∧ Writable_Close h e1' = Some (s, e2)) ∨
         ∃ s2 e1'', sync = true ∧ Writable_Sync h e1' = Some (s2, e1'') ∧ Status_ok s2 = true ∧
                    Writable_Close h e1'' = Some (s, e2))) →
     DoWriteStringToFile data f sync e =
       (e3 ← delete_file h e2; '(_, e4) ← RemoveFile f e3; Some (s, e4))).
Proof.
  unfold DoWriteStringToFile. split.
  - intros s file e1 -> Hs. cbn [mbind option_bind]. by rewrite Hs.
  - intros s0 h e1 s e2 -> Hs0 Hs Hfail.
    assert (Hrm : ∀ e3, (e4 ← (snd <$> RemoveFile f e3 : option E); Some (s, e4))
                        = ('(_, e4) ← RemoveFile f e3; Some (s, e4)))
      by (intros e3; by destruct (RemoveFile f e3) as [[]|]).
    cbn [mbind option_bind]. rewrite Hs0. cbn [negb].
    destruct Hfail as [->|(s1 & e1' & -> & Hs1 &
                           [[-> E1]|[[-> E1]|(s2 & e1'' & -> & E1 & Hs2 & E2)]])];
      cbn [mbind option_bind].
    + rewrite Hs. cbn [andb mbind option_bind]. rewrite Hs. cbn [mbind option_bind].
      destruct (delete_file h e2) as [e3|]; [|done]. cbn [mbind option_bind]. rewrite Hs. apply Hrm.
    + rewrite Hs1. cbn [andb]. rewrite E1. cbn [mbind option_bind]. rewrite Hs. cbn [mbind option_bind].
      destruct (delete_file h e2) as [e3|]; [|done]. cbn [mbind option_bind]. rewrite Hs. apply Hrm.
    + rewrite Hs1. cbn [andb mbind option_bind]. rewrite Hs1, E1. cbn [mbind option_bind].
      destruct (delete_file h e2) as [e3|]; [|done]. cbn [mbind option_bind]. rewrite Hs. apply Hrm.
    + rewrite Hs1. cbn [andb]. rewrite E1. cbn [mbind option_bind]. rewrite Hs2, E2.
      cbn [mbind option_bind].
      destruct (delete_file h e2) as [e3|]; [|done]. cbn [mbind option_bind]. rewrite Hs. apply Hrm.
Qed.

(** ** Witnesses *)

(** An environment on a full disk: files can be made but not written.  Its state
    is the list of calls that change something. *)
Definition full_disk : Env (list string) := {|
  NewSequentialFile _ e := Some (Status_OK, Some 1%positive, e);
  NewRandomAccessFile _ e := Some (Status_OK, Some 1%positive, e);
  NewWritableFile _ e := Some (Status_OK, Some 1%positive, e ++ ["new"%string]);
  NewAppendableFile := Default_NewAppendableFile;
  FileExists _ e := (true, e);
  GetChildren _ e := Some (Status_OK, [], e);
  RemoveFile _ e := Some (Status_OK, e ++ ["remove"%string]);
  CreateDir _ e := Some (Status_OK, e);
  RemoveDir _ e := Some (Status_OK, e);
  GetFileSize _ e := Some (Status_OK, Some 0, e);
  RenameFile _ _ e := Some (Status_OK, e);
  Sequential_Read _ _ scratch e := Some (Status_OK, Some [], scratch, e);
  Sequential_Skip _ _ e := Some (Status_OK, e);
  RandomAccess_Read _ _ _ scratch e := Some (Status_OK, Some [], scratch, e);
  Writable_Append _ _ e := Some (IOError (str "a.log") (str "No space left on device"), e);
  Writable_Close _ e := Some (Status_OK, e ++ ["close"%string]);
  Writable_Flush _ e := Some (Status_OK, e);
  Writable_Sync _ e := Some (Status_OK, e ++ ["sync"%string]);
  delete_file _ e := Some (e ++ ["delete"%string]) |}.

Lemma DoWriteStringToFile_errors_witness :
  @WriteStringToFileSync _ full_disk (str "hello") (str "a.log") [] =
  Some (IOError (str "a.log") (str "No space left on device"), ["new"; "delete"; "remove"]%string).
Proof.
  destruct (@DoWriteStringToFile_errors _ full_disk (str "hello") (str "a.log") true []) as [_ H].
  exact (H Status_OK 1%positive ["new"%string] (IOError (str "a.log") (str "No space left on device"))
           ["new"%string] eq_refl eq_refl eq_refl (or_introl eq_refl)).
Defined.
