(* ===== verification/MemEnv.v ===== *)
(** * The environment in memory (helper/memenv/memenv.h, helper/memenv/memenv.cpp)

    [InMemoryEnv] maps names to reference-counted files; open files hold
    references too.  Files are records of a heap: a file whose count falls to
    zero is gone, and using it later is an error of the model.  The environment
    refines a map from names to strings.  Operations hold [mutex_], so they are
    atomic. *)
From Stdlib Require Import ZArith Lia.
From Stdlib Require Import Strings.Byte.
From S2P Require Import Prelude Slice Coding Logging Status Counting FileState Env.
From stdpp Require Import base gmap fin_maps numbers strings sorting list.

#[local] Open Scope Z_scope.

(** ** State *)

(** The objects of open files. *)
Inductive open_file :=
  | SequentialFileImpl (file_ : positive) (pos_ : Z)
  | RandomAccessFileImpl (file_ : positive)
  | WritableFileImpl (file_ : positive).

Definition file_of (o : open_file) : positive :=
  match o with SequentialFileImpl p _ | RandomAccessFileImpl p | WritableFileImpl p => p end.

(** [file_map_] may hold null pointers ([operator[]] inserts them). *)
Record InMemoryEnv := {
  file_map_ : gmap bytes (option positive);
  files : gmap positive FileState;
  opens : gmap positive open_file }.

Definition set_map (w : InMemoryEnv) (m : gmap bytes (option positive)) : InMemoryEnv :=
  {| file_map_ := m; files := files w; opens := opens w |}.
Definition set_file (w : InMemoryEnv) (p : positive) (f : FileState) : InMemoryEnv :=
  {| file_map_ := file_map_ w; files := <[p := f]> (files w); opens := opens w |}.
Definition free_file (w : InMemoryEnv) (p : positive) : InMemoryEnv :=
  {| file_map_ := file_map_ w; files := delete p (files w); opens := opens w |}.
Definition set_open (w : InMemoryEnv) (h : positive) (o : open_file) : InMemoryEnv :=
  {| file_map_ := file_map_ w; files := files w; opens := <[h := o]> (opens w) |}.

(** ** Operations *)

Definition InMemoryEnv_new : InMemoryEnv := {| file_map_ := ∅; files := ∅; opens := ∅ |}.

(** [file_map_[fname]] *)
Definition subscript (m : gmap bytes (option positive)) (fname : bytes) :
  option positive * gmap bytes (option positive) :=
  match m !! fname with Some v => (v, m) | None => (None, <[fname := None]> m) end.

(** [file->Unref()] *)
Definition unref (w : InMemoryEnv) (p : positive) : option InMemoryEnv :=
  f ← (files w !! p);
  r ← File_Unref f;
  Some (match r with None => free_file w p | Some f => set_file w p f end).

(** The constructors of the files: they take a reference. *)
Definition open_new (w : InMemoryEnv) (o : open_file) : option (positive * InMemoryEnv) :=
  f ← (files w !! file_of o);
  let h := fresh (dom (opens w)) in
  Some (h, set_open (set_file w (file_of o) (File_Ref f)) h o).

(** Their destructors. *)
Definition close (h : positive) (w : InMemoryEnv) : option InMemoryEnv :=
  o ← (opens w !! h);
  w ← unref w (file_of o);
  Some {| file_map_ := file_map_ w; files := files w; opens := delete h (opens w) |}.

Definition not_found (fname : bytes) : Status := IOError fname (str "File not found").

(** [file_map_.find(fname)] fails, or the file is opened. *)
Definition open_existing (mk : positive → open_file) (fname : bytes) (w : InMemoryEnv) :
  option (Status * option positive * InMemoryEnv) :=
  match file_map_ w !! fname with
  | None => Some (not_found fname, None, w)
  | Some v => p ← v; '(h, w) ← open_new w (mk p); Some (Status_OK, Some h, w)
  end.

Definition Mem_NewSequentialFile := open_existing (λ p, SequentialFileImpl p 0).
Definition Mem_NewRandomAccessFile := open_existing RandomAccessFileImpl.

(** [new FileState()], with its first reference, under a name. *)
Definition create (fname : bytes) (w : InMemoryEnv) : positive * InMemoryEnv :=
  let p := fresh (dom (files w)) in
  (p, set_map (set_file w p (File_Ref FileState_new)) (<[fname := Some p]> (file_map_ w))).

Definition Mem_NewWritableFile (fname : bytes) (w : InMemoryEnv) :
  option (Status * option positive * InMemoryEnv) :=
  '(p, w) ← match file_map_ w !! fname with
    | None => Some (create fname w)
    | Some v => p ← v; f ← (files w !! p); Some (p, set_file w p (Truncate f))
    end;
  '(h, w) ← open_new w (WritableFileImpl p);
  Some (Status_OK, Some h, w).

Definition Mem_NewAppendableFile (fname : bytes) (w : InMemoryEnv) :
  option (Status * option positive * InMemoryEnv) :=
  let '(v, m) := subscript (file_map_ w) fname in
  let w := set_map w m in
  let '(p, w) := match v with Some p => (p, w) | None => create fname w end in
  '(h, w) ← open_new w (WritableFileImpl p);
  Some (Status_OK, Some h, w).

Definition Mem_FileExists (fname : bytes) (w : InMemoryEnv) : bool :=
  bool_decide (is_Some (file_map_ w !! fname)).

(** The name relative to [dir] of a file below it. *)
Definition child_name (dir filename : bytes) : option bytes :=
  if (Slice_size dir + 1 <=? Slice_size filename) &&
     bool_decide (filename !! length dir = Some (z2b 47)) && Slice_starts_with filename dir
  then Some (drop (length dir + 1) filename) else None.

(** The keys of [file_map_] in the order of [std::map]. *)
Definition bytes_le (a b : bytes) : Prop := Slice_compare a b <= 0.
#[export] Instance bytes_le_dec : RelDecision bytes_le.
Proof. intros a b. apply Z_le_dec. Defined.

Definition map_keys (m : gmap bytes (option positive)) : list bytes :=
  merge_sort bytes_le (fst <$> map_to_list m).

Definition Mem_GetChildren (dir : bytes) (w : InMemoryEnv) : option (Status * list bytes) :=
  Some (Status_OK, omap (child_name dir) (map_keys (file_map_ w))).

Definition RemoveFileInternal (fname : bytes) (w : InMemoryEnv) : option InMemoryEnv :=
  match file_map_ w !! fname with
  | None => Some w
  | Some v => p ← v; w ← unref w p; Some (set_map w (delete fname (file_map_ w)))
  end.

Definition Mem_RemoveFile (fname : bytes) (w : InMemoryEnv) : option (Status * InMemoryEnv) :=
  match file_map_ w !! fname with
  | None => Some (not_found fname, w)
  | Some _ => w ← RemoveFileInternal fname w; Some (Status_OK, w)
  end.

Definition Mem_GetFileSize (fname : bytes) (w : InMemoryEnv) : option (Status * option Z) :=
  match file_map_ w !! fname with
  | None => Some (not_found fname, None)
  | Some v => p ← v; f ← (files w !! p); Some (Status_OK, Some (File_Size f))
  end.

(** [file_map_[target] = file_map_[src]]: the right operand comes first. *)
Definition Mem_RenameFile (src target : bytes) (w : InMemoryEnv) : option (Status * InMemoryEnv) :=
  match file_map_ w !! src with
  | None => Some (not_found src, w)
  | Some _ =>
      w ← RemoveFileInternal target w;
      let '(v, m) := subscript (file_map_ w) src in
      Some (Status_OK, set_map w (delete src (<[target := v]> m)))
  end.

Definition Mem_Sequential_Read (h : positive) (n : Z) (scratch : bytes) (w : InMemoryEnv) :
  option (Status * option bytes * bytes * InMemoryEnv) :=
  o ← (opens w !! h);
  match o with
  | SequentialFileImpl p pos =>
      f ← (files w !! p);
      '(s, r, scratch) ← File_Read f pos n scratch;
      Some (s, r, scratch,
            if Status_ok s
            then set_open w h (SequentialFileImpl p (u64 (pos + Slice_size (default [] r)))) else w)
  | _ => None
  end.

Definition Mem_Sequential_Skip (h : positive) (n : Z) (w : InMemoryEnv) :
  option (Status * InMemoryEnv) :=
  o ← (opens w !! h);
  match o with
  | SequentialFileImpl p pos =>
      f ← (files w !! p);
      if File_Size f <? pos then Some (IOError (str "pos_ > file_->Size()") [], w)
      else
        let available := File_Size f - pos in
        let n := if available <? n then available else n in
        Some (Status_OK, set_open w h (SequentialFileImpl p (u64 (pos + n))))
  | _ => None
  end.

Definition Mem_RandomAccess_Read (h : positive) (offset n : Z) (scratch : bytes) (w : InMemoryEnv) :
  option (Status * option bytes * bytes) :=
  o ← (opens w !! h);
  match o with
  | RandomAccessFileImpl p => f ← (files w !! p); File_Read f offset n scratch
  | _ => None
  end.

Definition Mem_Append (junk : nat → Byte.byte) (h : positive) (data : bytes) (w : InMemoryEnv) :
  option (Status * InMemoryEnv) :=
  o ← (opens w !! h);
  match o with
  | WritableFileImpl p =>
      f ← (files w !! p); '(s, f) ← File_Append junk f data; Some (s, set_file w p f)
  | _ => None
  end.

(** [Close], [Flush] and [Sync] do nothing. *)
Definition Mem_nothing (h : positive) (w : InMemoryEnv) : option (Status * InMemoryEnv) :=
  o ← (opens w !! h);
  match o with WritableFileImpl _ => Some (Status_OK, w) | _ => None end.

(** Locks always succeed and the test directory is fixed. *)
Definition Mem_LockFile (fname : bytes) (w : InMemoryEnv) : Status * InMemoryEnv := (Status_OK, w).
Definition Mem_UnlockFile (w : InMemoryEnv) : Status * InMemoryEnv := (Status_OK, w).
Definition Mem_GetTestDirectory (w : InMemoryEnv) : Status * bytes := (Status_OK, str "/test").

(** The destructor of the environment. *)
Definition InMemoryEnv_destroy (w : InMemoryEnv) : option InMemoryEnv :=
  foldl (λ w kv, w ← w; p ← (kv.2 : option positive); unref w p) (Some w) (map_to_list (file_map_ w)).

#[export] Instance InMemoryEnv_Env (junk : nat → Byte.byte) : Env InMemoryEnv := {|
  NewSequentialFile := Mem_NewSequentialFile;
  NewRandomAccessFile := Mem_NewRandomAccessFile;
  NewWritableFile := Mem_NewWritableFile;
  NewAppendableFile := Mem_NewAppendableFile;
  FileExists f w := (Mem_FileExists f w, w);
  GetChildren d w := '(s, l) ← Mem_GetChildren d w; Some (s, l, w);
  RemoveFile := Mem_RemoveFile;
  CreateDir _ w := Some (Status_OK, w);
  RemoveDir _ w := Some (Status_OK, w);
  GetFileSize f w := '(s, n) ← Mem_GetFileSize f w; Some (s, n, w);
  RenameFile := Mem_RenameFile;
  Sequential_Read := Mem_Sequential_Read;
  Sequential_Skip := Mem_Sequential_Skip;
  RandomAccess_Read h o n scratch w :=
    '(s, r, scratch) ← Mem_RandomAccess_Read h o n scratch w; Some (s, r, scratch, w);
  Writable_Append := Mem_Append junk;
  Writable_Close := Mem_nothing;
  Writable_Flush := Mem_nothing;
  Writable_Sync := Mem_nothing;
  delete_file := close |}.

(** ** Specification: names and contents *)

(** [content] holds the bytes of every file that has a name or is open. *)
Record amem := {
  names : gmap bytes positive;
  content : gmap positive bytes;
  aopens : gmap positive open_file }.

Definition names_to (p : positive) (q : positive) : bool := bool_decide (q = p).
Definition opens_to (p : positive) (o : open_file) : bool := bool_decide (file_of o = p).

(** The references a file should have. *)
Definition uses (a : amem) (p : positive) : nat :=
  (count (names_to p) (names a) + count (opens_to p) (aopens a))%nat.

(** A file nobody refers to is gone. *)
Definition gc (a : amem) (p : positive) : amem :=
  {| names := names a; content := if decide (uses a p = 0%nat) then delete p (content a) else content a;
     aopens := aopens a |}.

Definition a_open (a : amem) (h : positive) (o : open_file) : amem :=
  {| names := names a; content := content a; aopens := <[h := o]> (aopens a) |}.
Definition a_close (a : amem) (h : positive) (p : positive) : amem :=
  gc {| names := names a; content := content a; aopens := delete h (aopens a) |} p.
Definition a_write (a : amem) (p : positive) (d : bytes) : amem :=
  {| names := names a; content := <[p := d]> (content a); aopens := aopens a |}.
Definition a_create (a : amem) (fname : bytes) (p : positive) : amem :=
  {| names := <[fname := p]> (names a); content := <[p := []]> (content a); aopens := aopens a |}.
Definition a_unlink (a : amem) (fname : bytes) : amem :=
  match names a !! fname with
  | None => a
  | Some p => gc {| names := delete fname (names a); content := content a; aopens := aopens a |} p
  end.
Definition a_rename (a : amem) (src target : bytes) : amem :=
  match names a !! src with
  | None => a
  | Some p =>
      let a := a_unlink a target in
      {| names := delete src (<[target := p]> (names a)); content := content a; aopens := aopens a |}
  end.

(** The content under a name. *)
Definition a_read (a : amem) (fname : bytes) : option bytes := p ← (names a !! fname); content a !! p.

Definition file_ok (a : amem) (p : positive) (f : option FileState) (d : option bytes) : Prop :=
  match f, d with
  | Some f, Some d => file_rep f d ∧ refs_ f = Z.of_nat (uses a p) ∧ (0 < uses a p)%nat
  | None, None => uses a p = 0%nat
  | _, _ => False
  end.

Record MemRep (w : InMemoryEnv) (a : amem) : Prop := {
  m_names : file_map_ w = Some <$> names a;
  m_opens : opens w = aopens a;
  m_files p : file_ok a p (files w !! p) (content a !! p);
  m_inj n1 n2 p : names a !! n1 = Some p → names a !! n2 = Some p → n1 = n2;
  m_pos h p pos : aopens a !! h = Some (SequentialFileImpl p pos) → 0 <= pos < 2 ^ 64 }.

Definition amem_new : amem := {| names := ∅; content := ∅; aopens := ∅ |}.

(** ** Lemmas: references *)

Lemma uses_open a h o q :
  aopens a !! h = None → uses (a_open a h o) q = ((if opens_to q o then 1 else 0) + uses a q)%nat.
Proof. intros Hh. unfold uses, a_open. simpl. rewrite count_insert by done. lia. Qed.

Lemma uses_name a f p q :
  names a !! f = None →
  uses (a_create a f p) q = ((if names_to q p then 1 else 0) + uses a q)%nat.
Proof. intros Hf. unfold uses. simpl. rewrite count_insert by done. lia. Qed.

Lemma uses_reopen a h o o' q :
  aopens a !! h = Some o → file_of o' = file_of o → uses (a_open a h o') q = uses a q.
Proof.
  intros Hh E. unfold uses, a_open. simpl. rewrite (count_update _ _ _ o); [done|done|].
  unfold opens_to. by rewrite E.
Qed.

Lemma uses_unopen a h o q :
  aopens a !! h = Some o →
  uses a q = ((if opens_to q o then 1 else 0)
              + uses {| names := names a; content := content a; aopens := delete h (aopens a) |} q)%nat.
Proof. intros Hh. unfold uses. simpl. rewrite (count_delete _ _ _ _ Hh). lia. Qed.

Lemma uses_unname a f p q :
  names a !! f = Some p →
  uses a q = ((if names_to q p then 1 else 0)
              + uses {| names := delete f (names a); content := content a; aopens := aopens a |} q)%nat.
Proof. intros Hh. unfold uses. simpl. rewrite (count_delete _ _ _ _ Hh). lia. Qed.

Lemma opens_to_true q o : opens_to q o = true ↔ file_of o = q.
Proof. apply bool_decide_eq_true. Qed.
Lemma names_to_true q p : names_to q p = true ↔ p = q.
Proof. apply bool_decide_eq_true. Qed.

(** The files agree: the part of [MemRep] that reference counting maintains. *)
Definition files_ok (w : InMemoryEnv) (a : amem) : Prop :=
  ∀ p, file_ok a p (files w !! p) (content a !! p).

Lemma file_ok_live w a p :
  files_ok w a → (0 < uses a p)%nat →
  ∃ f d, files w !! p = Some f ∧ content a !! p = Some d ∧ file_rep f d ∧ refs_ f = Z.of_nat (uses a p).
Proof.
  intros Hok Hu. specialize (Hok p). unfold file_ok in Hok.
  destruct (files w !! p) as [f|], (content a !! p) as [d|]; try done; [|lia].
  destruct Hok as (? & ? & ?). eauto 6.
Qed.

Lemma open_live w a h o :
  files_ok w a → aopens a !! h = Some o →
  ∃ f d, files w !! file_of o = Some f ∧ content a !! file_of o = Some d ∧ file_rep f d ∧
         refs_ f = Z.of_nat (uses a (file_of o)).
Proof.
  intros Hok Hh. apply file_ok_live; [done|]. unfold uses.
  pose proof (count_pos (opens_to (file_of o)) (aopens a) h o Hh) as Hc.
  rewrite opens_to_true in Hc. specialize (Hc eq_refl). lia.
Qed.

Lemma name_live w a f p :
  files_ok w a → names a !! f = Some p →
  ∃ fs d, files w !! p = Some fs ∧ content a !! p = Some d ∧ file_rep fs d ∧
          refs_ fs = Z.of_nat (uses a p).
Proof.
  intros Hok Hh. apply file_ok_live; [done|]. unfold uses.
  pose proof (count_pos (names_to p) (names a) f p Hh) as Hc.
  rewrite names_to_true in Hc. specialize (Hc eq_refl). lia.
Qed.

Lemma uses_gc a p q : uses (gc a p) q = uses a q.
Proof. done. Qed.

Lemma content_gc_ne a p q : q ≠ p → content (gc a p) !! q = content a !! q.
Proof. intros Hne. unfold gc. simpl. case_decide; [by rewrite lookup_delete_ne|done]. Qed.

Lemma content_gc_eq a p :
  content (gc a p) !! p = if decide (uses a p = 0%nat) then None else content a !! p.
Proof. unfold gc. simpl. case_decide; [by rewrite lookup_delete_eq|done]. Qed.

Lemma file_ok_uses a a' p f d : uses a p = uses a' p → file_ok a p f d → file_ok a' p f d.
Proof. intros E. unfold file_ok. by rewrite E. Qed.

(** Dropping a reference, the file itself if it was the last. *)
Lemma unref_ok w a a0 p :
  files_ok w a → content a0 = content a → uses a p = S (uses a0 p) →
  (∀ q, q ≠ p → uses a q = uses a0 q) →
  ∃ w', unref w p = Some w' ∧ file_map_ w' = file_map_ w ∧ opens w' = opens w ∧ files_ok w' (gc a0 p).
Proof.
  intros Hok Hc Hp Hq. destruct (file_ok_live w a p Hok) as (f & d & Ef & Ed & Hr & Hrf); [lia|].
  unfold unref. rewrite Ef. cbn [mbind option_bind]. unfold File_Unref. rewrite Hrf, Hp.
  rewrite (proj2 (Z.leb_le _ _)) by lia. cbn [mbind option_bind].
  assert (Hother : ∀ q, q ≠ p → file_ok (gc a0 p) q (files w !! q) (content (gc a0 p) !! q)).
  { intros q Hne. rewrite content_gc_ne, Hc by done.
    apply (file_ok_uses a); [by rewrite uses_gc, Hq|apply Hok]. }
  destruct (Z.leb_spec (Z.of_nat (S (uses a0 p)) - 1) 0) as [Hz|Hz]; eexists; (split; [done|]);
    (split; [done|]); (split; [done|]); intros q; (destruct (decide (q = p)) as [->|Hne]; cbn [files free_file set_file]).
  - rewrite content_gc_eq, lookup_delete_eq, decide_True by lia. simpl. rewrite uses_gc. lia.
  - rewrite lookup_delete_ne by done. by apply Hother.
  - rewrite content_gc_eq, lookup_insert_eq, decide_False, Hc, Ed by lia.
    split; [by destruct Hr|]. rewrite uses_gc. simpl. lia.
  - rewrite lookup_insert_ne by done. by apply Hother.
Qed.

(** ** Lemmas: the primitives refine their specification *)

Lemma open_new_ok w a o :
  MemRep w a → is_Some (content a !! file_of o) →
  (∀ p pos, o = SequentialFileImpl p pos → 0 <= pos < 2 ^ 64) →
  ∃ h w', open_new w o = Some (h, w') ∧ aopens a !! h = None ∧ MemRep w' (a_open a h o).
Proof.
  intros [Hn Ho Hf Hi Hp] [d Hd] Hpos. unfold open_new.
  pose proof (Hf (file_of o)) as Hok. rewrite Hd in Hok.
  destruct (files w !! file_of o) as [f|] eqn:Ef; [|done]. destruct Hok as (Hr & Hrf & Hu).
  cbn [mbind option_bind]. cbn zeta. set (h := fresh (dom (opens w))).
  assert (Hh : aopens a !! h = None) by (rewrite <- Ho; apply not_elem_of_dom, is_fresh).
  exists h. eexists. split; [done|]. split; [done|]. split; simpl.
  - done.
  - by rewrite Ho.
  - intros p. destruct (decide (p = file_of o)) as [->|Hne].
    + rewrite lookup_insert_eq, Hd. split; [by destruct Hr|]. rewrite uses_open by done.
      rewrite (proj2 (opens_to_true _ _)) by done. simpl. lia.
    + rewrite lookup_insert_ne by done. apply (file_ok_uses a); [|apply Hf].
      rewrite uses_open by done. destruct (opens_to p o) eqn:E; [|done].
      apply opens_to_true in E. congruence.
  - done.
  - intros h' p pos. rewrite lookup_insert_Some. intros [[_ E]|[_ E]]; eauto.
Qed.

Lemma close_ok w a h o :
  MemRep w a → aopens a !! h = Some o →
  ∃ w', close h w = Some w' ∧ MemRep w' (a_close a h (file_of o)).
Proof.
  intros [Hn Ho Hf Hi Hp] Hh. unfold close. rewrite Ho, Hh. cbn [mbind option_bind].
  set (a0 := {| names := names a; content := content a; aopens := delete h (aopens a) |}).
  destruct (unref_ok w a a0 (file_of o) Hf) as (w' & E & E1 & E2 & Hf').
  - done.
  - rewrite (uses_unopen a h o _ Hh), (proj2 (opens_to_true _ _)) by done. done.
  - intros q Hne. rewrite (uses_unopen a h o _ Hh). destruct (opens_to q o) eqn:Eq; [|done].
    apply opens_to_true in Eq. congruence.
  - rewrite E. cbn [mbind option_bind]. eexists. split; [done|]. split; simpl.
    + by rewrite E1.
    + by rewrite E2, Ho.
    + apply Hf'.
    + done.
    + intros h' p pos [_ Hl]%lookup_delete_Some. eauto.
Qed.

Lemma RemoveFileInternal_ok w a f :
  MemRep w a → ∃ w', RemoveFileInternal f w = Some w' ∧ MemRep w' (a_unlink a f).
Proof.
  intros HR. pose proof HR as [Hn Ho Hf Hi Hp]. unfold RemoveFileInternal, a_unlink.
  rewrite Hn, lookup_fmap. destruct (names a !! f) as [p|] eqn:Ep; [|by exists w].
  cbn [fmap option_fmap option_map mbind option_bind].
  set (a0 := {| names := delete f (names a); content := content a; aopens := aopens a |}).
  destruct (unref_ok w a a0 p Hf) as (w' & E & E1 & E2 & Hf').
  - done.
  - rewrite (uses_unname a f p _ Ep), (proj2 (names_to_true _ _)) by done. done.
  - intros q Hne. rewrite (uses_unname a f p _ Ep). destruct (names_to q p) eqn:Eq; [|done].
    apply names_to_true in Eq. congruence.
  - rewrite E. cbn [mbind option_bind]. eexists. split; [done|]. split; simpl.
    + by rewrite E1, Hn, fmap_delete.
    + by rewrite E2.
    + apply Hf'.
    + intros n1 n2 q [_ H1]%lookup_delete_Some [_ H2]%lookup_delete_Some. eauto.
    + done.
Qed.

(** Writing to a file that is referred to. *)
Lemma set_file_ok w a p f d :
  MemRep w a → is_Some (content a !! p) → file_rep f d → refs_ f = Z.of_nat (uses a p) →
  MemRep (set_file w p f) (a_write a p d).
Proof.
  intros [Hn Ho Hf Hi Hp] [d0 Hd0] Hr Hrf. split; simpl; try done.
  intros q. destruct (decide (q = p)) as [->|Hne].
  - rewrite !lookup_insert_eq. split; [done|]. split; [done|].
    specialize (Hf p). rewrite Hd0 in Hf. destruct (files w !! p); [apply Hf|done].
  - rewrite !lookup_insert_ne by done. apply Hf.
Qed.

Lemma create_ok w a f :
  MemRep w a → names a !! f = None →
  ∃ p w', create f w = (p, w') ∧ content a !! p = None ∧ MemRep w' (a_create a f p).
Proof.
  intros [Hn Ho Hf Hi Hp] Hnf. unfold create. cbn zeta. set (p := fresh (dom (files w))).
  assert (Hfp : files w !! p = None) by (apply not_elem_of_dom, is_fresh).
  assert (content a !! p = None ∧ uses a p = 0%nat) as [Hc Hu].
  { specialize (Hf p). rewrite Hfp in Hf. by destruct (content a !! p). }
  exists p. eexists. split; [done|]. split; [done|]. split; simpl.
  - by rewrite Hn, fmap_insert.
  - done.
  - intros q. destruct (decide (q = p)) as [->|Hne].
    + rewrite !lookup_insert_eq. unfold file_ok.
      rewrite uses_name, (proj2 (names_to_true _ _)) by done. split; [by split|]. simpl. lia.
    + rewrite !lookup_insert_ne by done. apply (file_ok_uses a); [|apply Hf].
      rewrite uses_name by done. destruct (names_to q p) eqn:Eq; [|done].
      apply names_to_true in Eq. congruence.
  - assert (Hno : ∀ n, names a !! n ≠ Some p).
    { intros n Hl. pose proof (count_pos (names_to p) (names a) n p Hl) as Hcp.
      rewrite names_to_true in Hcp. specialize (Hcp eq_refl). unfold uses in Hu. lia. }
    intros n1 n2 q. rewrite !lookup_insert_Some.
    intros [[<- Eq1]|[Hn1 Eq1]] [[<- Eq2]|[Hn2 Eq2]]; [done| | |eauto].
    + subst q. by apply Hno in Eq2.
    + subst q. by apply Hno in Eq1.
  - done.
Qed.

Lemma names_unlink a f : names (a_unlink a f) = delete f (names a).
Proof. unfold a_unlink. destruct (names a !! f) eqn:E; [done|]. by rewrite delete_id. Qed.

Lemma aopens_unlink a f : aopens (a_unlink a f) = aopens a.
Proof. unfold a_unlink. by destruct (names a !! f). Qed.

(** Moving a file to a name that is free does not change what refers to it. *)
Lemma uses_move a src target p q d :
  names a !! src = Some p → names a !! target = None →
  uses {| names := delete src (<[target := p]> (names a)); content := d; aopens := aopens a |} q
  = uses a q.
Proof.
  intros Hs Ht. unfold uses. simpl.
  pose proof (count_insert (names_to q) (names a) target p Ht) as H1.
  assert (<[target := p]> (names a) !! src = Some p) as Hs'.
  { rewrite lookup_insert_ne; [done|]. intros ->. congruence. }
  pose proof (count_delete (names_to q) _ src p Hs') as H2. lia.
Qed.

Lemma move_ok w a src target p :
  MemRep w a → names a !! src = Some p → names a !! target = None →
  MemRep (set_map w (delete src (<[target := Some p]> (file_map_ w))))
    {| names := delete src (<[target := p]> (names a)); content := content a; aopens := aopens a |}.
Proof.
  intros [Hn Ho Hf Hi Hp] Hs Ht. split; simpl; try done.
  - by rewrite fmap_delete, fmap_insert, Hn.
  - intros q. apply (file_ok_uses a); [|apply Hf]. symmetry. by apply uses_move.
  - intros n1 n2 q [Hn1 H1]%lookup_delete_Some [Hn2 H2]%lookup_delete_Some.
    apply lookup_insert_Some in H1 as [[<- Eq1]|[Ht1 H1]], H2 as [[<- Eq2]|[Ht2 H2]];
      [done| | |eauto]; subst q.
    + destruct Hn2. by apply (Hi src n2 p).
    + destruct Hn1. by apply (Hi src n1 p).
Qed.

Lemma RenameFile_ok w a src target :
  MemRep w a →
  ∃ w', Mem_RenameFile src target w
        = Some (if decide (names a !! src = None) then not_found src else Status_OK, w') ∧
        MemRep w' (a_rename a src target).
Proof.
  intros HR. unfold Mem_RenameFile, a_rename. rewrite (m_names _ _ HR), lookup_fmap.
  destruct (names a !! src) as [p|] eqn:Ep; simpl; [|by exists w].
  destruct (RemoveFileInternal_ok w a target HR) as (w1 & E & HR1). rewrite E.
  cbn [mbind option_bind]. unfold subscript. rewrite (m_names _ _ HR1), lookup_fmap.
  destruct (decide (src = target)) as [<-|Hne].
  - rewrite names_unlink, lookup_delete_eq. simpl. eexists. split; [done|].
    rewrite !delete_insert_eq, delete_delete_eq.
    destruct HR1 as [Hn Ho Hf Hi Hp]. rewrite names_unlink in *. split; simpl; try done.
    + by rewrite fmap_delete, delete_delete_eq.
    + intros q. apply (file_ok_uses (a_unlink a src)); [|apply Hf].
      unfold uses. simpl. by rewrite names_unlink.
  - rewrite names_unlink, lookup_delete_ne by done. rewrite Ep. cbn [fmap option_fmap option_map].
    eexists. split; [done|]. rewrite <- names_unlink, <- (m_names _ _ HR1).
    apply move_ok; [done| |]; rewrite names_unlink.
    + by rewrite lookup_delete_ne.
    + apply lookup_delete_eq.
Qed.

(** ** Lemmas: the names in a directory *)

Lemma child_name_spec dir f c : child_name dir f = Some c ↔ f = dir ++ z2b 47 :: c.
Proof.
  unfold child_name, Slice_size. split.
  - destruct (Z.leb_spec (Z.of_nat (length dir) + 1) (Z.of_nat (length f))); [|done].
    case_bool_decide as Hc; [|done].
    destruct (Slice_starts_with f dir) eqn:Es; [|done]. simpl. intros [= <-].
    apply Slice_starts_with_spec in Es as [k ->].
    rewrite lookup_app_r, Nat.sub_diag in Hc by lia. destruct k as [|x k]; [done|].
    injection Hc as ->. rewrite drop_app_ge by lia. by replace (_ + 1 - _)%nat with 1%nat by lia.
  - intros ->. rewrite (proj2 (Z.leb_le _ _)) by (rewrite length_app; simpl; lia).
    rewrite bool_decide_true by (by rewrite lookup_app_r, Nat.sub_diag by lia).
    rewrite (proj2 (Slice_starts_with_spec _ _)) by (by eexists). simpl.
    rewrite drop_app_ge by lia. by replace (_ + 1 - _)%nat with 1%nat by lia.
Qed.

#[export] Instance bytes_le_total : Total bytes_le.
Proof. intros a b. unfold bytes_le. pose proof (Slice_compare_antisym a b). lia. Qed.

Lemma bytes_le_lt a b : bytes_le a b ↔ lex_lt a b ∨ a = b.
Proof.
  unfold bytes_le. rewrite <- Slice_compare_lt, <- Slice_compare_eq. lia.
Qed.

#[export] Instance bytes_le_trans : Transitive bytes_le.
Proof.
  intros a b c. rewrite !bytes_le_lt. intros [H1| ->] [H2| ->]; auto.
  left. by apply (lex_lt_trans _ b).
Qed.

Lemma sorted_strict l : StronglySorted bytes_le l → NoDup l → StronglySorted lex_lt l.
Proof.
  induction 1 as [|x l Hl IH Hx]; intros Hn; [constructor|]. apply NoDup_cons in Hn as [Hnx Hn].
  constructor; [auto|]. rewrite Forall_forall in Hx |- *. intros y Hy.
  destruct (proj1 (bytes_le_lt x y) (Hx y Hy)) as [|<-]; [done|]. done.
Qed.

Lemma map_keys_spec m : StronglySorted lex_lt (map_keys m) ∧ ∀ f, f ∈ map_keys m ↔ is_Some (m !! f).
Proof.
  unfold map_keys. split.
  - apply sorted_strict; [apply (StronglySorted_merge_sort bytes_le); apply _|].
    rewrite (merge_sort_Permutation bytes_le). apply NoDup_fst_map_to_list.
  - intros f. rewrite (merge_sort_Permutation bytes_le), list_elem_of_fmap. split.
    + intros ([f' v] & -> & Hin%elem_of_map_to_list). by eexists.
    + intros [v Hv]. exists (f, v). split; [done|]. by apply elem_of_map_to_list.
Qed.

Lemma children_sorted dir l :
  StronglySorted lex_lt l → StronglySorted lex_lt (omap (child_name dir) l).
Proof.
  induction 1 as [|f l Hl IH Hx]; [constructor|]. simpl. destruct (child_name dir f) as [c|] eqn:E; [|done].
  constructor; [done|]. apply child_name_spec in E as ->. rewrite Forall_forall in Hx |- *.
  intros c' (f' & Hf' & E'%child_name_spec)%list_elem_of_omap. subst f'. specialize (Hx _ Hf').
  rewrite lex_lt_app in Hx. destruct Hx as [Hx|[_ Hx]]; [lia|done].
Qed.

(** ** Lemmas: the destructor *)

(** Unlinking names one after the other, with the map left as it was. *)
Lemma destroy_ok (l : list (bytes * option positive)) w a :
  files_ok w a → NoDup (fst <$> l) → (∀ f v, (f, v) ∈ l → v = names a !! f ∧ is_Some v) →
  ∃ w', foldl (λ w kv, w ← w; p ← (kv.2 : option positive); unref w p) (Some w) l = Some w' ∧
        opens w' = opens w ∧ files_ok w' (foldl (λ a kv, a_unlink a kv.1) a l).
Proof.
  revert w a. induction l as [|[f v] l IH]; intros w a Hok Hn Hin; [by exists w|].
  apply NoDup_cons in Hn as [Hf Hn].
  destruct (Hin f v) as (Hv & p & ->); [left|]. symmetry in Hv. cbn [foldl fst snd mbind option_bind].
  destruct (unref_ok w a {| names := delete f (names a); content := content a; aopens := aopens a |} p Hok)
    as (w1 & E & E1 & E2 & Hok1).
  - done.
  - rewrite (uses_unname a f p _ Hv), (proj2 (names_to_true _ _)) by done. done.
  - intros q Hne. rewrite (uses_unname a f p _ Hv). destruct (names_to q p) eqn:Eq; [|done].
    apply names_to_true in Eq. congruence.
  - rewrite E. edestruct (IH w1 (a_unlink a f)) as (w' & E' & E2' & Hok').
    + unfold a_unlink. by rewrite Hv.
    + done.
    + intros f' v' Hin'. rewrite names_unlink. rewrite lookup_delete_ne; [apply Hin; by right|].
      intros ->. apply Hf, list_elem_of_fmap. by exists (f', v').
    + exists w'. split; [done|]. split; [congruence|done].
Qed.

Lemma unlink_all_names (l : list (bytes * option positive)) a f :
  f ∈ fst <$> l ∨ names a !! f = None → names (foldl (λ a kv, a_unlink a kv.1) a l) !! f = None.
Proof.
  revert a. induction l as [|[g v] l IH]; intros a; [by intros [Hin%elem_of_nil|]|].
  intros H. simpl. apply IH. rewrite names_unlink, lookup_delete_None.
  destruct H as [[->|Hin]%elem_of_cons|Hn]; auto.
Qed.

Lemma unlink_all_opens (l : list (bytes * option positive)) a :
  aopens (foldl (λ a kv, a_unlink a kv.1) a l) = aopens a.
Proof. revert a. induction l as [|kv l IH]; intros a; [done|]. simpl. by rewrite IH, aopens_unlink. Qed.

(** ** Lemmas: opening files by name *)

(** The result [r] of opening a file for an object [o]. *)
Definition opens_as (a : amem) (o : open_file) (r : option (Status * option positive * InMemoryEnv)) : Prop :=
  ∃ h w', r = Some (Status_OK, Some h, w') ∧ aopens a !! h = None ∧ MemRep w' (a_open a h o).

Lemma open_new_opens_as w a o :
  MemRep w a → is_Some (content a !! file_of o) →
  (∀ p pos, o = SequentialFileImpl p pos → 0 <= pos < 2 ^ 64) →
  opens_as a o ('(h, w) ← open_new w o; Some (Status_OK, Some h, w)).
Proof.
  intros HR Hc Hp. destruct (open_new_ok w a o HR Hc Hp) as (h & w' & E & Hh & HR').
  exists h, w'. by rewrite E.
Qed.

Lemma open_existing_ok mk w a f :
  (∀ p, file_of (mk p) = p) → (∀ p q pos, mk p = SequentialFileImpl q pos → 0 <= pos < 2 ^ 64) →
  MemRep w a →
  match names a !! f with
  | None => open_existing mk f w = Some (not_found f, None, w)
  | Some p => opens_as a (mk p) (open_existing mk f w)
  end.
Proof.
  intros Hmk Hpos HR. unfold open_existing. rewrite (m_names _ _ HR), lookup_fmap.
  destruct (names a !! f) as [p|] eqn:Ep; [|done]. cbn [fmap option_fmap option_map mbind option_bind].
  apply open_new_opens_as; [done| |eauto]. rewrite Hmk.
  destruct (name_live w a f p (m_files _ _ HR) Ep) as (fs & d & _ & -> & _). done.
Qed.

Lemma Mem_NewWritableFile_ok w a f :
  MemRep w a →
  match names a !! f with
  | None => ∃ p, content a !! p = None ∧ opens_as (a_create a f p) (WritableFileImpl p) (Mem_NewWritableFile f w)
  | Some p => opens_as (a_write a p []) (WritableFileImpl p) (Mem_NewWritableFile f w)
  end.
Proof.
  intros HR. unfold Mem_NewWritableFile. rewrite (m_names _ _ HR), lookup_fmap.
  destruct (names a !! f) as [p|] eqn:Ep; cbn [fmap option_fmap option_map mbind option_bind].
  - destruct (name_live w a f p (m_files _ _ HR) Ep) as (fs & d & -> & Hd & _ & Hrf).
    cbn [mbind option_bind]. apply open_new_opens_as; [|simpl; by rewrite lookup_insert_eq|done].
    apply set_file_ok; [done|by rewrite Hd|apply Truncate_rep|done].
  - destruct (create_ok w a f HR Ep) as (p & w' & -> & Hp & HR'). exists p. split; [done|].
    apply open_new_opens_as; [done|simpl; by rewrite lookup_insert_eq|done].
Qed.

Lemma Mem_NewAppendableFile_ok w a f :
  MemRep w a →
  match names a !! f with
  | None => ∃ p, content a !! p = None ∧ opens_as (a_create a f p) (WritableFileImpl p) (Mem_NewAppendableFile f w)
  | Some p => opens_as a (WritableFileImpl p) (Mem_NewAppendableFile f w)
  end.
Proof.
  intros HR. unfold Mem_NewAppendableFile, subscript. rewrite (m_names _ _ HR), lookup_fmap.
  destruct (names a !! f) as [p|] eqn:Ep; cbn [fmap option_fmap option_map].
  - rewrite <- (m_names _ _ HR). replace (set_map w (file_map_ w)) with w by by destruct w.
    destruct (name_live w a f p (m_files _ _ HR) Ep) as (fs & d & _ & Hd & _).
    apply open_new_opens_as; [done|simpl; by rewrite Hd|done].
  - assert (create f (set_map w (<[f := None]> (Some <$> names a))) = create f w) as E.
    { unfold create, set_map, set_file. simpl. by rewrite insert_insert_eq, (m_names _ _ HR). }
    destruct (create_ok w a f HR Ep) as (p & w' & E' & Hp & HR'). rewrite E, E'.
    exists p. split; [done|]. apply open_new_opens_as; [done|simpl; by rewrite lookup_insert_eq|done].
Qed.

Lemma RemoveFile_ok w a f :
  MemRep w a →
  ∃ w', Mem_RemoveFile f w = Some (if decide (names a !! f = None) then not_found f else Status_OK, w') ∧
        MemRep w' (a_unlink a f).
Proof.
  intros HR. unfold Mem_RemoveFile. destruct (RemoveFileInternal_ok w a f HR) as (w' & E & HR').
  rewrite (m_names _ _ HR), lookup_fmap. destruct (names a !! f) eqn:Ep; simpl.
  - rewrite E. by exists w'.
  - exists w. split; [done|]. unfold a_unlink. by rewrite Ep.
Qed.

Lemma GetFileSize_ok w a f :
  MemRep w a →
  Mem_GetFileSize f w =
    Some (match a_read a f with None => (not_found f, None) | Some d => (Status_OK, Some (Z.of_nat (length d))) end).
Proof.
  intros HR. unfold Mem_GetFileSize, a_read. rewrite (m_names _ _ HR), lookup_fmap.
  destruct (names a !! f) as [p|] eqn:Ep; simpl; [|done].
  destruct (name_live w a f p (m_files _ _ HR) Ep) as (fs & d & -> & -> & Hr & _). simpl.
  unfold File_Size. by rewrite (fr_size _ _ Hr).
Qed.

Lemma GetChildren_ok w a dir :
  MemRep w a →
  ∃ l, Mem_GetChildren dir w = Some (Status_OK, l) ∧ StronglySorted lex_lt l ∧
       ∀ c, c ∈ l ↔ is_Some (names a !! (dir ++ z2b 47 :: c)).
Proof.
  intros HR. destruct (map_keys_spec (file_map_ w)) as [Hs Hin]. eexists. split; [done|].
  split; [by apply children_sorted|]. intros c. rewrite list_elem_of_omap. split.
  - intros (f & Hf%Hin & ->%child_name_spec). by rewrite (m_names _ _ HR), lookup_fmap, fmap_is_Some in Hf.
  - intros Hc. exists (dir ++ z2b 47 :: c). rewrite child_name_spec, Hin, (m_names _ _ HR), lookup_fmap.
    by rewrite fmap_is_Some.
Qed.

(** ** Lemmas: operations on open files *)

(** Moving the position of a sequential file. *)
Lemma set_pos_ok w a h p pos pos' :
  MemRep w a → aopens a !! h = Some (SequentialFileImpl p pos) → 0 <= pos' < 2 ^ 64 →
  MemRep (set_open w h (SequentialFileImpl p pos')) (a_open a h (SequentialFileImpl p pos')).
Proof.
  intros [Hn Ho Hf Hi Hp] Hh Hpos. split; simpl; try done.
  - by rewrite Ho.
  - intros q. apply (file_ok_uses a); [|apply Hf].
    symmetry. by apply (uses_reopen _ _ (SequentialFileImpl p pos)).
  - intros h' q pos'' [[_ E]|[_ E]]%lookup_insert_Some; [by injection E as -> ->|eauto].
Qed.

(** The bytes an open file refers to. *)
Definition open_data (a : amem) (h : positive) : option (open_file * bytes) :=
  o ← (aopens a !! h); d ← (content a !! file_of o); Some (o, d).

Lemma open_data_rep w a h o d :
  MemRep w a → open_data a h = Some (o, d) →
  opens w !! h = Some o ∧ content a !! file_of o = Some d ∧
  ∃ f, files w !! file_of o = Some f ∧ file_rep f d ∧ refs_ f = Z.of_nat (uses a (file_of o)).
Proof.
  intros HR. unfold open_data. destruct (aopens a !! h) as [o'|] eqn:Eh; [|done].
  cbn [mbind option_bind].
  destruct (open_live w a h o' (m_files _ _ HR) Eh) as (f & d' & Hf & Hd & Hr & Hrf). rewrite Hd.
  intros [= <- <-]. rewrite (m_opens _ _ HR). eauto 8.
Qed.

(** An open file always has its bytes: they outlive the name. *)
Lemma open_data_is_Some w a h o :
  MemRep w a → aopens a !! h = Some o → ∃ d, open_data a h = Some (o, d).
Proof.
  intros HR Hh. destruct (open_live w a h o (m_files _ _ HR) Hh) as (f & d & _ & Hd & _).
  exists d. unfold open_data. rewrite Hh. simpl. by rewrite Hd.
Qed.

Lemma Sequential_Read_ok w a h p pos d n scratch :
  MemRep w a → open_data a h = Some (SequentialFileImpl p pos, d) →
  0 <= n → n <= Z.of_nat (length scratch) →
  if Z.of_nat (length d) <? pos
  then Mem_Sequential_Read h n scratch w
       = Some (IOError (str "Offset greater than file size.") [], None, scratch, w)
  else let r := take (Z.to_nat n) (drop (Z.to_nat pos) d) in
       ∃ w', Mem_Sequential_Read h n scratch w = Some (Status_OK, Some r, r ++ drop (length r) scratch, w') ∧
             MemRep w' (a_open a h (SequentialFileImpl p (pos + Z.of_nat (length r)))).
Proof.
  intros HR Hd Hn Hs. destruct (open_data_rep w a h _ d HR Hd) as (Ho & Hc & f & Ef & Hr & Hrf).
  rewrite (m_opens _ _ HR) in Ho. pose proof (m_pos _ _ HR _ _ _ Ho) as Hpos.
  unfold Mem_Sequential_Read. rewrite (m_opens _ _ HR), Ho. cbn [mbind option_bind file_of] in *.
  rewrite Ef. cbn [mbind option_bind]. rewrite (file_read_spec f d) by (done || lia).
  destruct (Z.ltb_spec (Z.of_nat (length d)) pos) as [Hlt|Hge]; [done|].
  set (r := take (Z.to_nat n) (drop (Z.to_nat pos) d)). cbn zeta. cbn [mbind option_bind].
  eexists. split; [done|]. cbn. unfold Slice_size.
  assert (Hlr : (length r <= length d - Z.to_nat pos)%nat)
    by (unfold r; rewrite length_take, length_drop; lia).
  pose proof (fr_size _ _ Hr). pose proof (fr_small _ _ Hr).
  rewrite u64_small by lia. by apply (set_pos_ok _ _ _ _ pos); [| |lia].
Qed.

Lemma Sequential_Skip_ok w a h p pos d n :
  MemRep w a → open_data a h = Some (SequentialFileImpl p pos, d) → 0 <= n →
  if Z.of_nat (length d) <? pos
  then Mem_Sequential_Skip h n w = Some (IOError (str "pos_ > file_->Size()") [], w)
  else ∃ w', Mem_Sequential_Skip h n w = Some (Status_OK, w') ∧
             MemRep w' (a_open a h (SequentialFileImpl p (Z.min (pos + n) (Z.of_nat (length d))))).
Proof.
  intros HR Hd Hn. destruct (open_data_rep w a h _ d HR Hd) as (Ho & Hc & f & Ef & Hr & Hrf).
  rewrite (m_opens _ _ HR) in Ho. pose proof (m_pos _ _ HR _ _ _ Ho) as Hpos.
  unfold Mem_Sequential_Skip. rewrite (m_opens _ _ HR), Ho. cbn [mbind option_bind file_of] in *.
  rewrite Ef. cbn [mbind option_bind]. unfold File_Size.
  pose proof (fr_size _ _ Hr). pose proof (fr_small _ _ Hr).
  rewrite (fr_size _ _ Hr). destruct (Z.ltb_spec (Z.of_nat (length d)) pos) as [Hlt|Hge]; [done|].
  cbn zeta. destruct (Z.ltb_spec (Z.of_nat (length d) - pos) n); eexists; (split; [done|]);
    rewrite u64_small by lia.
  - rewrite Z.min_r by lia. replace (pos + _) with (Z.of_nat (length d)) by lia.
    by apply (set_pos_ok _ _ _ _ pos); [| |lia].
  - rewrite Z.min_l by lia. by apply (set_pos_ok _ _ _ _ pos); [| |lia].
Qed.

Lemma RandomAccess_Read_ok w a h p d offset n scratch :
  MemRep w a → open_data a h = Some (RandomAccessFileImpl p, d) →
  0 <= offset → 0 <= n → n <= Z.of_nat (length scratch) →
  Mem_RandomAccess_Read h offset n scratch w =
    if Z.of_nat (length d) <? offset
    then Some (IOError (str "Offset greater than file size.") [], None, scratch)
    else let r := take (Z.to_nat n) (drop (Z.to_nat offset) d) in
         Some (Status_OK, Some r, r ++ drop (length r) scratch).
Proof.
  intros HR Hd Hoff Hn Hs. destruct (open_data_rep w a h _ d HR Hd) as (Ho & Hc & f & Ef & Hr & Hrf).
  unfold Mem_RandomAccess_Read. rewrite Ho. cbn [mbind option_bind file_of] in *. rewrite Ef.
  cbn [mbind option_bind]. by apply file_read_spec.
Qed.

Lemma Append_ok junk w a h p d data :
  MemRep w a → open_data a h = Some (WritableFileImpl p, d) →
  Z.of_nat (length d + length data) < 2 ^ 64 →
  ∃ w', Mem_Append junk h data w = Some (Status_OK, w') ∧ MemRep w' (a_write a p (d ++ data)) ∧
        file_map_ w' = file_map_ w ∧ opens w' = opens w.
Proof.
  intros HR Hd Hl. destruct (open_data_rep w a h _ d HR Hd) as (Ho & Hc & f & Ef & Hr & Hrf).
  unfold Mem_Append. rewrite Ho. cbn [mbind option_bind file_of] in *. rewrite Ef.
  cbn [mbind option_bind]. unfold File_Append.
  destruct (Append_loop_spec (S (length data)) junk f d data Hr) as (f' & E & Hr' & Hrf'); [lia|done|].
  rewrite E. cbn [mbind option_bind]. eexists. split; [done|]. split; [|done].
  apply set_file_ok; [done|by rewrite Hc|done|by rewrite Hrf'].
Qed.

Lemma destroy_frees w a :
  MemRep w a →
  ∃ w', InMemoryEnv_destroy w = Some w' ∧ opens w' = opens w ∧
        ∀ p, is_Some (files w' !! p) → ∃ h o, aopens a !! h = Some o ∧ file_of o = p.
Proof.
  intros HR. unfold InMemoryEnv_destroy. set (l := map_to_list (file_map_ w)).
  assert (Hl : ∀ f v, (f, v) ∈ l ↔ file_map_ w !! f = Some v) by (intros; apply elem_of_map_to_list).
  destruct (destroy_ok l w a (m_files _ _ HR)) as (w' & E & Eo & Hok).
  - apply NoDup_fst_map_to_list.
  - intros f v Hin%Hl. rewrite (m_names _ _ HR), lookup_fmap in Hin.
    destruct (names a !! f) eqn:Ef; [|done]. injection Hin as <-. by split.
  - exists w'. split; [done|]. split; [done|]. intros p [f Hf]. specialize (Hok p). rewrite Hf in Hok.
    set (a' := foldl (λ a kv, a_unlink a kv.1) a l) in *.
    assert (Hn : names a' = ∅).
    { apply map_empty. intros g. apply unlink_all_names. destruct (names a !! g) as [q|] eqn:Eg; [left|by right].
      apply list_elem_of_fmap. exists (g, Some q). split; [done|]. apply Hl.
      by rewrite (m_names _ _ HR), lookup_fmap, Eg. }
    unfold file_ok in Hok. destruct (content a' !! p); [|done]. destruct Hok as (_ & _ & Hu).
    unfold uses in Hu. rewrite Hn, count_empty in Hu. unfold a' in Hu. rewrite unlink_all_opens in Hu.
    destruct (count_witness _ _ Hu) as (h & o & Ho & Hp). exists h, o. split; [done|]. by apply opens_to_true.
Qed.

(** ** The environment in memory keeps the laws of the helpers *)

Definition mem_view (w : InMemoryEnv) (m : gmap bytes bytes) : Prop :=
  ∃ a, MemRep w a ∧ ∀ f, m !! f = a_read a f.

Definition mem_reading (w : InMemoryEnv) (h : positive) (rest : bytes) : Prop :=
  ∃ p pos f d, opens w !! h = Some (SequentialFileImpl p pos) ∧ files w !! p = Some f ∧
    file_rep f d ∧ pos <= Z.of_nat (length d) ∧ rest = drop (Z.to_nat pos) d.

Definition mem_writing (w : InMemoryEnv) (h : positive) (f : bytes) : Prop :=
  ∃ p, opens w !! h = Some (WritableFileImpl p) ∧ file_map_ w !! f = Some (Some p).

Lemma file_rep_inj f d1 d2 : file_rep f d1 → file_rep f d2 → d1 = d2.
Proof.
  intros [H1 _ _ _ [r1 P1]] [H2 _ _ _ [r2 P2]]. rewrite P1 in P2.
  apply app_inj_1 in P2 as [-> _]; [done|lia].
Qed.

Lemma a_read_name w a f p : MemRep w a → file_map_ w !! f = Some (Some p) → names a !! f = Some p.
Proof. intros HR. rewrite (m_names _ _ HR), lookup_fmap. destruct (names a !! f); simpl; congruence. Qed.

(** Writing to the file under one name changes no other name. *)
Lemma view_write (a : amem) (f : bytes) (p : positive) (d : bytes) (m : gmap bytes bytes) :
  (∀ n1 n2 p, names a !! n1 = Some p → names a !! n2 = Some p → n1 = n2) →
  names a !! f = Some p → (∀ g, m !! g = a_read a g) →
  ∀ g : bytes, <[f := d]> m !! g = a_read (a_write a p d) g.
Proof.
  intros Hi Hf Hm g. unfold a_read in *. cbn [names content a_write].
  destruct (decide (g = f)) as [->|Hne].
  - rewrite lookup_insert_eq, Hf. simpl. by rewrite lookup_insert_eq.
  - rewrite lookup_insert_ne, Hm by done. destruct (names a !! g) as [q|] eqn:Eg; [|done]. simpl.
    rewrite lookup_insert_ne; [done|]. intros <-. apply Hne. by apply (Hi _ _ p).
Qed.

Lemma view_close (w : InMemoryEnv) (a : amem) (h : positive) (o : open_file) (m : gmap bytes bytes) :
  MemRep w a → (∀ g, m !! g = a_read a g) →
  ∀ g, m !! g = a_read (a_close a h (file_of o)) g.
Proof.
  intros HR Hm g. rewrite Hm. unfold a_read. unfold a_close. cbn [names gc].
  destruct (names a !! g) as [q|] eqn:Eg; [|done]. cbn [mbind option_bind].
  set (a0 := {| names := names a; content := content a; aopens := delete h (aopens a) |}).
  destruct (decide (q = file_of o)) as [->|Hne]; [|by rewrite content_gc_ne].
  rewrite content_gc_eq, decide_False; [done|]. unfold uses.
  pose proof (count_pos (names_to (file_of o)) (names a0) g (file_of o) Eg) as Hc.
  rewrite names_to_true in Hc. specialize (Hc eq_refl). lia.
Qed.

Lemma close_view (w : InMemoryEnv) (h : positive) (m : gmap bytes bytes) (o : open_file) :
  mem_view w m → opens w !! h = Some o → ∃ w', close h w = Some w' ∧ mem_view w' m.
Proof.
  intros (a & HR & Hm) Ho. rewrite (m_opens _ _ HR) in Ho.
  destruct (close_ok w a h o HR Ho) as (w' & E & HR'). exists w'. split; [done|].
  eexists. split; [done|]. by apply (view_close w).
Qed.

Lemma view_create (a : amem) (f : bytes) (p : positive) (m : gmap bytes bytes) :
  content a !! p = None → (∀ g, is_Some (names a !! g) → is_Some (a_read a g)) →
  (∀ g, m !! g = a_read a g) → ∀ g, <[f := []]> m !! g = a_read (a_create a f p) g.
Proof.
  intros Hp Hlive Hm g. unfold a_read in *. cbn [names content a_create].
  destruct (decide (g = f)) as [->|Hne].
  - rewrite !lookup_insert_eq. simpl. by rewrite lookup_insert_eq.
  - rewrite !lookup_insert_ne by done. rewrite Hm. specialize (Hlive g).
    destruct (names a !! g) as [q|] eqn:Eg; [|done]. simpl in *. rewrite lookup_insert_ne; [done|].
    intros <-. rewrite Hp in Hlive. by destruct Hlive.
Qed.

Lemma live_names w a : MemRep w a → ∀ g, is_Some (names a !! g) → is_Some (a_read a g).
Proof.
  intros HR g [p Hp]. unfold a_read. rewrite Hp. simpl.
  destruct (name_live w a g p (m_files _ _ HR) Hp) as (f & d & _ & -> & _). done.
Qed.

Lemma new_writable_view w m (f : bytes) :
  mem_view w m →
  ∃ h w', Mem_NewWritableFile f w = Some (Status_OK, Some h, w') ∧
          mem_view w' (<[f := []]> m) ∧ mem_writing w' h f.
Proof.
  intros (a & HR & Hm). pose proof (Mem_NewWritableFile_ok w a f HR) as H.
  assert (∃ p a1, opens_as a1 (WritableFileImpl p) (Mem_NewWritableFile f w) ∧
                  names a1 !! f = Some p ∧ ∀ g, <[f := []]> m !! g = a_read a1 g)
    as (p & a1 & (h & w' & E & Hh & HR') & Hf & Hm1).
  { destruct (names a !! f) as [p|] eqn:Ep.
    - exists p, (a_write a p []). split; [done|]. split; [done|]. apply view_write; [apply (m_inj _ _ HR)|done..].
    - destruct H as (p & Hp & H). exists p, (a_create a f p). split; [done|].
      split; [apply lookup_insert_eq|]. apply view_create; [done| |done]. by apply (live_names w). }
  exists h, w'. split; [done|]. split.
  - exists (a_open a1 h (WritableFileImpl p)). by split.
  - exists p. rewrite (m_opens _ _ HR'), (m_names _ _ HR'), lookup_fmap. simpl.
    rewrite lookup_insert_eq, Hf. done.
Qed.

Lemma append_view junk w m h (f d data : bytes) :
  mem_view w m → mem_writing w h f → m !! f = Some d → Z.of_nat (length d + length data) < 2 ^ 64 →
  ∃ w', Mem_Append junk h data w = Some (Status_OK, w') ∧
        mem_view w' (<[f := d ++ data]> m) ∧ mem_writing w' h f.
Proof.
  intros (a & HR & Hm) (p & Ho & Hf) Hd Hl. pose proof (a_read_name w a f p HR Hf) as Hn.
  assert (open_data a h = Some (WritableFileImpl p, d)) as Hod.
  { rewrite Hm in Hd. unfold a_read in Hd. rewrite Hn in Hd. simpl in Hd.
    unfold open_data. rewrite <- (m_opens _ _ HR), Ho. simpl. by rewrite Hd. }
  destruct (Append_ok junk w a h p d data HR Hod Hl) as (w' & E & HR' & E1 & E2).
  exists w'. split; [done|]. split.
  - eexists. split; [done|]. apply view_write; [apply (m_inj _ _ HR)|done..].
  - exists p. by rewrite E1, E2.
Qed.

Lemma new_sequential_view w m f d :
  mem_view w m → m !! f = Some d →
  ∃ h w', Mem_NewSequentialFile f w = Some (Status_OK, Some h, w') ∧ mem_view w' m ∧ mem_reading w' h d.
Proof.
  intros (a & HR & Hm) Hd. rewrite Hm in Hd. unfold a_read in Hd.
  pose proof (open_existing_ok (λ p, SequentialFileImpl p 0) w a f) as H.
  destruct (names a !! f) as [p|] eqn:Ep; [|done]. simpl in Hd.
  destruct H as (h & w' & E & Hh & HR'); [done|intros; by simplify_eq|done|].
  exists h, w'. split; [done|]. split; [by eexists|].
  destruct (open_live w' _ h (SequentialFileImpl p 0) (m_files _ _ HR')) as (fs & d' & Hfs & Hd' & Hr & _);
    [apply lookup_insert_eq|]. simpl in Hd', Hfs. rewrite Hd in Hd'. injection Hd' as <-.
  exists p, 0, fs, d. rewrite (m_opens _ _ HR'). simpl. rewrite lookup_insert_eq.
  split_and!; [done|done|done|lia|done].
Qed.

Lemma read_view w m h d n scratch :
  mem_view w m → mem_reading w h d → 0 < n → n <= Z.of_nat (length scratch) →
  ∃ r rest scratch' w', Mem_Sequential_Read h n scratch w = Some (Status_OK, Some r, scratch', w') ∧
    d = r ++ rest ∧ (r = [] → rest = []) ∧ length scratch' = length scratch ∧
    mem_view w' m ∧ mem_reading w' h rest.
Proof.
  intros (a & HR & Hm) (p & pos & f & d0 & Ho & Hf & Hr & Hle & ->) Hn Hs.
  pose proof Ho as Ho'. rewrite (m_opens _ _ HR) in Ho'. pose proof (m_pos _ _ HR _ _ _ Ho') as Hpos.
  destruct (open_data_is_Some w a h _ HR Ho') as [d1 Hd1].
  destruct (open_data_rep w a h _ d1 HR Hd1) as (_ & _ & f' & Hf' & Hr' & _). simpl in Hf'.
  rewrite Hf in Hf'. injection Hf' as <-. rewrite <- (file_rep_inj f d0 d1 Hr Hr') in Hd1.
  pose proof (Sequential_Read_ok w a h p pos d0 n scratch HR Hd1) as H.
  rewrite (proj2 (Z.ltb_ge _ _)) in H by lia. cbn zeta in H.
  set (r := take (Z.to_nat n) (drop (Z.to_nat pos) d0)) in *.
  assert (Hlr : length r = Nat.min (Z.to_nat n) (length d0 - Z.to_nat pos))
    by (unfold r; by rewrite length_take, length_drop).
  destruct H as (w' & E & HR'); [lia|done|].
  exists r, (drop (Z.to_nat n) (drop (Z.to_nat pos) d0)), (r ++ drop (length r) scratch), w'.
  split_and!.
  - done.
  - symmetry. apply take_drop.
  - intros E0. rewrite E0 in Hlr. simpl in Hlr. apply nil_length_inv. rewrite !length_drop. lia.
  - rewrite length_app, length_drop. lia.
  - by eexists.
  - destruct (open_live w' _ h (SequentialFileImpl p (pos + Z.of_nat (length r))) (m_files _ _ HR'))
      as (f2 & d2 & Hf2 & Hd2 & Hr2 & _); [apply lookup_insert_eq|]. simpl in Hf2, Hd2.
    assert (d2 = d0) as ->.
    { unfold open_data in Hd1. rewrite Ho' in Hd1. simpl in Hd1. rewrite Hd2 in Hd1. by simplify_eq/=. }
    exists p, (pos + Z.of_nat (length r)), f2, d0. rewrite (m_opens _ _ HR'). simpl. rewrite lookup_insert_eq.
    split_and!; [done|done|done|lia|]. rewrite drop_drop.
    destruct (Nat.le_gt_cases (Z.to_nat n) (length d0 - Z.to_nat pos)); [f_equal; lia|].
    rewrite !drop_ge by lia. done.
Qed.

#[export] Program Instance InMemoryEnv_laws junk : FileLaws (H := InMemoryEnv_Env junk) InMemoryEnv := {|
  env_view := mem_view; reading := mem_reading; writing := mem_writing |}.
Next Obligation. intros junk w m f. apply new_writable_view. Qed.
Next Obligation. intros junk w m h f d data. apply append_view. Qed.
Next Obligation. intros junk w m h f Hm (p & Ho & Hf). exists w. cbn. unfold Mem_nothing. rewrite Ho. by split; [|split; [|exists p]]. Qed.
Next Obligation. intros junk w m h f Hm (p & Ho & Hf). exists w. cbn. unfold Mem_nothing. rewrite Ho. by split; [|split; [|exists p]]. Qed.
Next Obligation. intros junk w m h f Hm (p & Ho & Hf). by apply (close_view w h m (WritableFileImpl p)). Qed.
Next Obligation. intros junk w m f d. apply new_sequential_view. Qed.
Next Obligation.
  intros junk w m f (a & HR & Hm) Hf. exists (not_found f). split; [|done].
  pose proof (open_existing_ok (λ p, SequentialFileImpl p 0) w a f) as H.
  assert (names a !! f = None) as En.
  { pose proof (live_names w a HR f) as Hl. rewrite <- Hm, Hf in Hl.
    destruct (names a !! f); [|done]. by destruct Hl. }
  rewrite En in H. apply H; [done|intros; by simplify_eq|done].
Qed.
Next Obligation. intros junk w m h d n scratch. apply read_view. Qed.
Next Obligation.
  intros junk w m h d Hm (p & pos & f & d0 & Ho & _). by apply (close_view w h m (SequentialFileImpl p pos)).
Qed.

(** ** Properties *)

(** A count of references: at most one name, and the open objects. *)
Lemma refs_bound w a p g :
  MemRep w a → files w !! p = Some g → 0 < refs_ g <= 1 + Z.of_nat (size (opens w)).
Proof.
  intros HR Hp. pose proof (m_files _ _ HR p) as Hf. rewrite Hp in Hf.
  destruct (content a !! p) as [d|]; [|done]. destruct Hf as (_ & -> & Hpos). unfold uses in *.
  assert (count (names_to p) (names a) <= 1)%nat.
  { apply count_le_1. intros n1 n2 q1 q2 H1 H2 ->%names_to_true ->%names_to_true.
    by eapply (m_inj _ _ HR). }
  pose proof (count_le_size (opens_to p) (aopens a)). rewrite (m_opens _ _ HR). lia.
Qed.

(** C9: the names of the environment in memory behave as a map from names to
    files and the files as strings of bytes.  Opening a missing file for reading,
    removing or renaming it or asking for its size is an IOError that changes
    nothing; opening for writing makes an empty file, for appending keeps the
    bytes; the children of a directory are listed once, in order; a rename takes
    the place of its target; a file lives as long as a name or an open file
    refers to it.  No operation uses a freed file, and a count of references is
    positive and at most one more than the number of open objects: it is an [int] as
    long as fewer than 2^31 - 1 objects are open. *)
Theorem InMemoryEnv_names_refine :
  MemRep InMemoryEnv_new amem_new ∧
  ∀ w a, MemRep w a →
  (∀ p g, files w !! p = Some g → 0 < refs_ g <= 1 + Z.of_nat (size (opens w))) ∧
  ∀ f,
    (match names a !! f with
     | None => Mem_NewSequentialFile f w = Some (not_found f, None, w) ∧
               Mem_NewRandomAccessFile f w = Some (not_found f, None, w)
     | Some p => opens_as a (SequentialFileImpl p 0) (Mem_NewSequentialFile f w) ∧
                 opens_as a (RandomAccessFileImpl p) (Mem_NewRandomAccessFile f w)
     end) ∧
    (match names a !! f with
     | None => (∃ p, content a !! p = None ∧
                     opens_as (a_create a f p) (WritableFileImpl p) (Mem_NewWritableFile f w)) ∧
               (∃ p, content a !! p = None ∧
                     opens_as (a_create a f p) (WritableFileImpl p) (Mem_NewAppendableFile f w))
     | Some p => opens_as (a_write a p []) (WritableFileImpl p) (Mem_NewWritableFile f w) ∧
                 opens_as a (WritableFileImpl p) (Mem_NewAppendableFile f w)
     end) ∧
    Mem_FileExists f w = bool_decide (is_Some (names a !! f)) ∧
    (∃ w', Mem_RemoveFile f w = Some (if decide (names a !! f = None) then not_found f else Status_OK, w') ∧
           MemRep w' (a_unlink a f)) ∧
    Mem_GetFileSize f w =
      Some (match a_read a f with
            | None => (not_found f, None) | Some d => (Status_OK, Some (Z.of_nat (length d))) end) ∧
    (∀ target, ∃ w', Mem_RenameFile f target w
                     = Some (if decide (names a !! f = None) then not_found f else Status_OK, w') ∧
                     MemRep w' (a_rename a f target)) ∧
    (∃ l, Mem_GetChildren f w = Some (Status_OK, l) ∧ StronglySorted lex_lt l ∧
          ∀ c, c ∈ l ↔ is_Some (names a !! (f ++ z2b 47 :: c))) ∧
    IsIOError (not_found f) = true.
Proof.
  split; [by split|].
  intros w a HR. split; [intros p g; by apply (refs_bound w a)|]. intros f. split_and!.
  - pose proof (open_existing_ok (λ p, SequentialFileImpl p 0) w a f) as H1.
    pose proof (open_existing_ok RandomAccessFileImpl w a f) as H2.
    destruct (names a !! f); (split; [apply H1|apply H2]); try done; intros; by simplify_eq.
  - pose proof (Mem_NewWritableFile_ok w a f HR). pose proof (Mem_NewAppendableFile_ok w a f HR).
    by destruct (names a !! f).
  - unfold Mem_FileExists. rewrite (m_names _ _ HR), lookup_fmap. by destruct (names a !! f).
  - by apply RemoveFile_ok.
  - by apply GetFileSize_ok.
  - intros target. by apply RenameFile_ok.
  - by apply GetChildren_ok.
  - done.
Qed.

(** C12: what an open file reads or writes is the string of its file, even after
    the name is gone: reads return the bytes at the position, or at an offset,
    and move it, skips stop at the end, a position past the end - the file was
    truncated - is an IOError, appends add at the end, and destroying the object
    drops its reference.  The destructor of the environment leaves only the files
    that are open. *)
Theorem InMemoryEnv_files_refine :
  ∀ w a, MemRep w a →
  (∀ h o d, open_data a h = Some (o, d) →
    (∃ w', close h w = Some w' ∧ MemRep w' (a_close a h (file_of o))) ∧
    match o with
    | SequentialFileImpl p pos =>
        (∀ n scratch, 0 <= n → n <= Z.of_nat (length scratch) →
          if Z.of_nat (length d) <? pos
          then Mem_Sequential_Read h n scratch w
               = Some (IOError (str "Offset greater than file size.") [], None, scratch, w)
          else let r := take (Z.to_nat n) (drop (Z.to_nat pos) d) in
               ∃ w', Mem_Sequential_Read h n scratch w
                     = Some (Status_OK, Some r, r ++ drop (length r) scratch, w') ∧
                     MemRep w' (a_open a h (SequentialFileImpl p (pos + Z.of_nat (length r))))) ∧
        (∀ n, 0 <= n →
          if Z.of_nat (length d) <? pos
          then Mem_Sequential_Skip h n w = Some (IOError (str "pos_ > file_->Size()") [], w)
          else ∃ w', Mem_Sequential_Skip h n w = Some (Status_OK, w') ∧
                     MemRep w' (a_open a h (SequentialFileImpl p (Z.min (pos + n) (Z.of_nat (length d))))))
    | RandomAccessFileImpl p =>
        ∀ offset n scratch, 0 <= offset → 0 <= n → n <= Z.of_nat (length scratch) →
          Mem_RandomAccess_Read h offset n scratch w =
            if Z.of_nat (length d) <? offset
            then Some (IOError (str "Offset greater than file size.") [], None, scratch)
            else let r := take (Z.to_nat n) (drop (Z.to_nat offset) d) in
                 Some (Status_OK, Some r, r ++ drop (length r) scratch)
    | WritableFileImpl p =>
        Mem_nothing h w = Some (Status_OK, w) ∧
        ∀ junk data, Z.of_nat (length d + length data) < 2 ^ 64 →
          ∃ w', Mem_Append junk h data w = Some (Status_OK, w') ∧ MemRep w' (a_write a p (d ++ data))
    end) ∧
  (∀ h o, aopens a !! h = Some o → is_Some (open_data a h)) ∧
  (∃ w', InMemoryEnv_destroy w = Some w' ∧ opens w' = opens w ∧
         ∀ p, is_Some (files w' !! p) → ∃ h o, aopens a !! h = Some o ∧ file_of o = p).
Proof.
  intros w a HR. split_and!.
  - intros h o d Hd. destruct (open_data_rep w a h o d HR Hd) as (Ho & _).
    split; [apply close_ok; [done|]; by rewrite <- (m_opens _ _ HR)|].
    destruct o as [p pos|p|p].
    + split; intros; [by apply Sequential_Read_ok|by apply Sequential_Skip_ok].
    + intros. by apply (RandomAccess_Read_ok w a h p).
    + split; [unfold Mem_nothing; by rewrite Ho|]. intros junk data Hl.
      destruct (Append_ok junk w a h p d data HR Hd Hl) as (w' & E & HR' & _). by exists w'.
  - intros h o Hh. destruct (open_data_is_Some w a h o HR Hh) as [d ->]. done.
  - apply destroy_frees; done.
Qed.

(** C14: writing a string to a file of the environment in memory and reading the
    file back gives the string, and no other file changes; the same holds through
    an [EnvWrapper].  Reading needs at most one step per byte and one more; a
    missing file is an error. *)
Theorem MemEnv_write_read junk w m f data :
  mem_view w m → Z.of_nat (length data) < 2 ^ 64 →
  let HE : Env InMemoryEnv := InMemoryEnv_Env junk in
  (∀ sync, ∃ w', DoWriteStringToFile data f sync w = Some (Status_OK, w') ∧ mem_view w' (<[f := data]> m) ∧
     ∀ g d fuel, (<[f := data]> m) !! g = Some d → (length d < fuel)%nat →
       ∃ w'', ReadFileToString junk fuel g w' = Some (Status_OK, d, w'') ∧
              mem_view w'' (<[f := data]> m)) ∧
  (∀ sync, ∃ w', DoWriteStringToFile data f sync (Build_EnvWrapper w) = Some (Status_OK, w') ∧
     mem_view (target_ w') (<[f := data]> m) ∧
     ∀ g d fuel, (<[f := data]> m) !! g = Some d → (length d < fuel)%nat →
       ∃ w'', ReadFileToString junk fuel g w' = Some (Status_OK, d, w'') ∧
              mem_view (target_ w'') (<[f := data]> m)) ∧
  (∀ g fuel, m !! g = None →
     ∃ s, ReadFileToString junk fuel g w = Some (s, [], w) ∧ Status_ok s = false).
Proof.
  intros Hm Hl HE. pose proof (InMemoryEnv_laws junk) as HL. split_and!.
  - intros sync. destruct (DoWriteStringToFile_spec (HL := InMemoryEnv_laws junk) w m data f sync Hm Hl)
      as (w' & E & Hm').
    exists w'. split; [done|]. split; [done|]. intros g d fuel Hg Hfuel.
    by apply (ReadFileToString_spec (HL := InMemoryEnv_laws junk) junk fuel w' (<[f := data]> m)).
  - intros sync.
    pose proof (@EnvWrapper_laws _ (InMemoryEnv_Env junk) (InMemoryEnv_laws junk)) as HW.
    destruct (DoWriteStringToFile_spec
                (HL := @EnvWrapper_laws _ (InMemoryEnv_Env junk) (InMemoryEnv_laws junk))
                (Build_EnvWrapper w) m data f sync Hm Hl) as (w' & E & Hm').
    exists w'. split; [done|]. split; [done|]. intros g d fuel Hg Hfuel.
    by apply (ReadFileToString_spec
                (HL := @EnvWrapper_laws _ (InMemoryEnv_Env junk) (InMemoryEnv_laws junk))
                junk fuel w' (<[f := data]> m)).
  - intros g fuel Hg.
    by apply (ReadFileToString_missing (HL := InMemoryEnv_laws junk) junk fuel w m).
Qed.

(** Renaming a file to its own name deletes it, and the status is OK. *)
Lemma RenameFile_to_itself w a f p :
  MemRep w a → names a !! f = Some p →
  ∃ w' a', Mem_RenameFile f f w = Some (Status_OK, w') ∧ MemRep w' a' ∧ names a' !! f = None.
Proof.
  intros HR Hf. destruct (RenameFile_ok w a f f HR) as (w' & E & HR'). rewrite decide_False in E by congruence.
  exists w', (a_rename a f f). split; [done|]. split; [done|]. unfold a_rename. rewrite Hf. simpl.
  apply lookup_delete_eq.
Qed.

(** ** Witnesses *)

Lemma InMemoryEnv_names_refine_witness :
  ∃ h w w', Mem_NewWritableFile (str "/d/a") InMemoryEnv_new = Some (Status_OK, Some h, w) ∧
    Mem_RenameFile (str "/d/a") (str "/d/b") w = Some (Status_OK, w') ∧
    Mem_FileExists (str "/d/b") w' = true ∧ Mem_FileExists (str "/d/a") w' = false.
Proof.
  destruct InMemoryEnv_names_refine as [Hnew Hops].
  destruct (proj2 (Hops _ _ Hnew) (str "/d/a")) as (_ & ((p & Hp & h & w & E & Hh & HR) & _) & _).
  destruct (proj2 (Hops _ _ HR) (str "/d/a")) as (_ & _ & _ & _ & _ & Hren & _).
  destruct (Hren (str "/d/b")) as (w' & E' & HR').
  exists h, w, w'. split; [exact E|]. split; [exact E'|].
  destruct (proj2 (Hops _ _ HR') (str "/d/b")) as (_ & _ & -> & _).
  destruct (proj2 (Hops _ _ HR') (str "/d/a")) as (_ & _ & -> & _).
  split; reflexivity.
Defined.

(** A file with no name, open for reading past its first byte. *)
Definition example_env : InMemoryEnv :=
  {| file_map_ := ∅;
     files := {[ 5%positive := {| refs_ := 1; blocks_ := [str "abc" ++ new_bytes (λ _, z2b 0) (Z.to_nat kBlockSize - 3)];
                                  size_ := 3 |} ]};
     opens := {[ 9%positive := SequentialFileImpl 5 1 ]} |}.
Definition example_amem : amem :=
  {| names := ∅; content := {[ 5%positive := str "abc" ]}; aopens := {[ 9%positive := SequentialFileImpl 5 1 ]} |}.

Lemma example_rep : MemRep example_env example_amem.
Proof.
  split; [done|done| |done|].
  - intros p. unfold example_env, example_amem. cbn [files content].
    destruct (decide (p = 5%positive)) as [->|Hne].
    + rewrite !lookup_singleton_eq. split; [|by vm_compute; repeat constructor].
      split; [done|done| |done|by eexists].
      constructor; [|constructor]. by rewrite length_app, length_new_bytes.
    + rewrite !lookup_singleton_ne by done. unfold file_ok, uses. cbn [names aopens].
      rewrite count_empty. unfold count. rewrite map_filter_singleton_False; [done|].
      simpl. rewrite opens_to_true. simpl. congruence.
  - intros h p pos. unfold example_amem. cbn [aopens]. rewrite lookup_singleton_Some.
    intros [_ [= <- <-]]. lia.
Qed.

Lemma InMemoryEnv_files_refine_witness :
  ∃ w', Mem_Sequential_Read 9 7 (str ".......") example_env
        = Some (Status_OK, Some (str "bc"), str "bc.....", w') ∧
    ∃ w'', close 9 w' = Some w''.
Proof.
  destruct (InMemoryEnv_files_refine _ _ example_rep) as (Hh & _ & _).
  destruct (Hh 9%positive (SequentialFileImpl 5 1) (str "abc") eq_refl) as (_ & Hread & _).
  specialize (Hread 7 (str ".......")). change (Z.of_nat (length (str "abc")) <? 1) with false in Hread.
  destruct Hread as (w' & E & HR'); [discriminate..|]. exists w'. split; [exact E|].
  destruct (InMemoryEnv_files_refine _ _ HR') as (Hh' & _ & _).
  destruct (Hh' 9%positive (SequentialFileImpl 5 3) (str "abc") eq_refl) as ((w'' & E' & HR'') & _).
  exists w''. exact E'.
Defined.

Lemma MemEnv_write_read_witness :
  ∃ w', @DoWriteStringToFile _ (InMemoryEnv_Env (λ _, z2b 0)) (str "hello") (str "/d/a") true InMemoryEnv_new
        = Some (Status_OK, w') ∧
    ∃ w'', @ReadFileToString _ (InMemoryEnv_Env (λ _, z2b 0)) (λ _, z2b 0) 6 (str "/d/a") w'
           = Some (Status_OK, str "hello", w'').
Proof.
  destruct (MemEnv_write_read (λ _, z2b 0) InMemoryEnv_new ∅ (str "/d/a") (str "hello")) as (Hw & _ & _).
  - exists amem_new. split; [by split|done].
  - reflexivity.
  - destruct (Hw true) as (w' & E & _ & Hr). exists w'. split; [exact E|].
    destruct (Hr (str "/d/a") (str "hello") 6%nat) as (w'' & E' & _); [reflexivity|vm_compute; lia|].
    exists w''. exact E'.
Defined.
