(* ===== verification/Limiter.v ===== *)
(** * Resource limits (util/env_posix.cpp: Limiter, MaxMmaps, MaxOpenFiles)

    [Acquire] and [Release] change an atomic counter without a lock, so the
    model interleaves threads one atomic instruction at a time.  A failed
    assertion of the source is a step that does not exist; that it never fails
    is part of the theorem.  The counter is an [int]; the model keeps it in [Z]
    and bounds it. *)
From Stdlib Require Import ZArith Lia.
From S2P Require Import Prelude.
From stdpp Require Import base numbers list.

#[local] Open Scope Z_scope.

(** ** State *)

Record Limiter := { max_acquires_ : Z; acquires_allowed_ : Z }.

(** The constructor, with its assertion. *)
Definition Limiter_new (max_acquires : Z) : option Limiter :=
  if 0 <=? max_acquires
  then Some {| max_acquires_ := max_acquires; acquires_allowed_ := max_acquires |} else None.

Definition fetch_add (l : Limiter) (n : Z) : Z * Limiter :=
  (acquires_allowed_ l, {| max_acquires_ := max_acquires_ l; acquires_allowed_ := acquires_allowed_ l + n |}).

(** ** Operations, one atomic instruction at a time *)

(** The first instruction of [Acquire]: whether it returned true. *)
Definition Acquire_try (l : Limiter) : bool * Limiter :=
  let '(old_acquires_allowed, l) := fetch_add l (-1) in (0 <? old_acquires_allowed, l).

(** The second one, when the first saw no resource, with its assertion. *)
Definition Acquire_undo (l : Limiter) : option Limiter :=
  let '(pre_increment_acquires_allowed, l) := fetch_add l 1 in
  if pre_increment_acquires_allowed <? max_acquires_ l then Some l else None.

Definition Release (l : Limiter) : option Limiter :=
  let '(old_acquires_allowed, l) := fetch_add l 1 in
  if old_acquires_allowed <? max_acquires_ l then Some l else None.

(** [Acquire] run without interruption. *)
Definition Acquire (l : Limiter) : option (bool * Limiter) :=
  let '(b, l) := Acquire_try l in
  if b then Some (true, l) else l ← Acquire_undo l; Some (false, l).

(** ** The limits *)

(** [sizeof(void star) >= 8] *)
Definition kDefaultMmapLimit (pointer_size : Z) : Z := if 8 <=? pointer_size then 1000 else 0.
Definition MaxMmaps (g_mmap_limit : Z) : Z := g_mmap_limit.

Definition int32 (z : Z) : Z := (z + 2 ^ 31) mod 2 ^ 32 - 2 ^ 31.

(** [getrlimit] fails, or gives no limit, or a limit. *)
Inductive rlimit := Getrlimit_fails | Rlim_infinity | Rlim_cur (n : Z).

(** The result, which [g_open_read_only_file_limit] keeps. *)
Definition MaxOpenFiles (g_open_read_only_file_limit : Z) (rlim : rlimit) : Z :=
  if 0 <=? g_open_read_only_file_limit then g_open_read_only_file_limit
  else match rlim with
       | Getrlimit_fails => 50
       | Rlim_infinity => 2 ^ 31 - 1
       | Rlim_cur n => int32 (n / 5)
       end.

(** ** Threads *)

(** A thread that holds a resource may release it; [Failed] is between the two
    instructions of an [Acquire] that will return false. *)
Inductive thread := Idle | Failed | Holds.

Record system := { limiter : Limiter; threads : list thread }.

Inductive instruction := Try (i : nat) | Undo (i : nat) | Drop (i : nat).

(** One instruction of one thread; [None] when the thread is not there, or an
    assertion fails. *)
Definition run_instruction (x : instruction) (s : system) : option system :=
  match x with
  | Try i =>
      t ← (threads s !! i);
      match t with
      | Idle => let '(b, l) := Acquire_try (limiter s) in
                Some {| limiter := l; threads := <[i := if b then Holds else Failed]> (threads s) |}
      | _ => None
      end
  | Undo i =>
      t ← (threads s !! i);
      match t with
      | Failed => l ← Acquire_undo (limiter s); Some {| limiter := l; threads := <[i := Idle]> (threads s) |}
      | _ => None
      end
  | Drop i =>
      t ← (threads s !! i);
      match t with
      | Holds => l ← Release (limiter s); Some {| limiter := l; threads := <[i := Idle]> (threads s) |}
      | _ => None
      end
  end.

(** The thread is where the instruction is. *)
Definition enabled (x : instruction) (s : system) : Prop :=
  match x with
  | Try i => threads s !! i = Some Idle
  | Undo i => threads s !! i = Some Failed
  | Drop i => threads s !! i = Some Holds
  end.

Inductive reachable (max : Z) (n : nat) : system → Prop :=
  | reachable_new l : Limiter_new max = Some l →
      reachable max n {| limiter := l; threads := replicate n Idle |}
  | reachable_step s x s' : reachable max n s → run_instruction x s = Some s' → reachable max n s'.

(** ** Lemmas *)

#[export] Instance thread_eq_dec : EqDecision thread.
Proof. solve_decision. Defined.

(** How many threads are in state [t]. *)
Definition number (t : thread) (l : list thread) : Z := Z.of_nat (length (filter (λ x, x = t) l)).

Definition is_one (t x : thread) : Z := if decide (x = t) then 1 else 0.

Lemma number_insert t l i x y :
  l !! i = Some x → number t (<[i := y]> l) = number t l - is_one t x + is_one t y.
Proof.
  intros Hi. unfold number, is_one. rewrite insert_take_drop by (by eapply lookup_lt_Some).
  rewrite <- (take_drop_middle l i x Hi) at 3. rewrite !filter_app, !filter_cons.
  repeat case_decide; rewrite !length_app; simpl; lia.
Qed.

Lemma number_replicate t n x : number t (replicate n x) = if decide (x = t) then Z.of_nat n else 0.
Proof.
  unfold number. induction n as [|n IH]; simpl; [by case_decide|]. rewrite filter_cons.
  repeat case_decide; simpl in *; lia.
Qed.

Lemma number_nonneg t l : 0 <= number t l.
Proof. unfold number. lia. Qed.

Lemma number_pos t l i : l !! i = Some t → 0 < number t l.
Proof.
  intros Hi. pose proof (number_insert t l i t t Hi) as H.
  unfold number. rewrite <- (take_drop_middle l i t Hi), filter_app, filter_cons, decide_True by done.
  rewrite length_app. simpl. lia.
Qed.

Lemma number_total l : number Idle l + number Failed l + number Holds l = Z.of_nat (length l).
Proof.
  unfold number. induction l as [|t l IH]; [done|]. rewrite !filter_cons.
  destruct t; repeat case_decide; simpl in *; try done; lia.
Qed.

(** The counter accounts for every thread that took one away. *)
Definition limiter_inv (max : Z) (n : nat) (s : system) : Prop :=
  max_acquires_ (limiter s) = max ∧ length (threads s) = n ∧ 0 <= max ∧
  acquires_allowed_ (limiter s) = max - number Holds (threads s) - number Failed (threads s) ∧
  number Holds (threads s) <= max.

Lemma run_instruction_inv max n s x :
  limiter_inv max n s → enabled x s →
  ∃ s', run_instruction x s = Some s' ∧ limiter_inv max n s'.
Proof.
  intros (Hm & Hn & H0 & Ha & Hh) He. pose proof (number_nonneg Failed (threads s)).
  pose proof (number_nonneg Holds (threads s)).
  destruct x as [i|i|i]; simpl in He; unfold run_instruction; rewrite He; cbn [mbind option_bind].
  - unfold Acquire_try, fetch_add. eexists. split; [done|]. unfold limiter_inv. simpl.
    rewrite length_insert, !(number_insert _ _ _ _ _ He).
    destruct (Z.ltb_spec 0 (acquires_allowed_ (limiter s))); unfold is_one; repeat case_decide;
      try done; split_and!; lia.
  - pose proof (number_pos _ _ _ He). unfold Acquire_undo, fetch_add. cbn [max_acquires_].
    rewrite (proj2 (Z.ltb_lt _ _)) by lia. eexists. split; [done|]. unfold limiter_inv. simpl.
    rewrite length_insert, !(number_insert _ _ _ _ _ He). unfold is_one; repeat case_decide;
      try done; split_and!; lia.
  - pose proof (number_pos _ _ _ He). unfold Release, fetch_add. cbn [max_acquires_].
    rewrite (proj2 (Z.ltb_lt _ _)) by lia. eexists. split; [done|]. unfold limiter_inv. simpl.
    rewrite length_insert, !(number_insert _ _ _ _ _ He). unfold is_one; repeat case_decide;
      try done; split_and!; lia.
Qed.

Lemma run_instruction_enabled x s s' : run_instruction x s = Some s' → enabled x s.
Proof.
  destruct x as [i|i|i]; simpl; destruct (threads s !! i) as [[]|]; cbn [mbind option_bind]; done.
Qed.

Lemma reachable_inv max n s : reachable max n s → limiter_inv max n s.
Proof.
  induction 1 as [l Hl|s x s' _ IH Hx].
  - unfold Limiter_new in Hl. destruct (Z.leb_spec 0 max); [|done]. injection Hl as <-.
    unfold limiter_inv. simpl. rewrite length_replicate, !number_replicate.
    repeat case_decide; try done; split_and!; lia.
  - destruct (run_instruction_inv max n s x IH) as (s'' & E & Hi); [by eapply run_instruction_enabled|].
    congruence.
Qed.

(** ** Properties *)

(** C23: whatever threads call [Acquire] and [Release], interleaved instruction by
    instruction, at most [max] of them hold a resource, the assertions of
    [Acquire] and [Release] never fail, and the counter stays within
    [-threads, max].  When no [Acquire] is half done, [Acquire] succeeds exactly
    when fewer than [max] are held. *)
Theorem Limiter_safe (max : Z) (n : nat) (s : system) :
  reachable max n s →
  number Holds (threads s) <= max ∧
  (∀ x, enabled x s → is_Some (run_instruction x s)) ∧
  - Z.of_nat n <= acquires_allowed_ (limiter s) <= max ∧
  (number Failed (threads s) = 0 →
     ∃ l, Acquire (limiter s) = Some (bool_decide (number Holds (threads s) < max), l) ∧
          acquires_allowed_ l = acquires_allowed_ (limiter s)
                                - (if bool_decide (number Holds (threads s) < max) then 1 else 0)).
Proof.
  intros Hr%reachable_inv. pose proof Hr as (Hm & Hn & H0 & Ha & Hh).
  pose proof (number_nonneg Failed (threads s)). pose proof (number_nonneg Holds (threads s)).
  pose proof (number_nonneg Idle (threads s)). pose proof (number_total (threads s)).
  split; [done|]. split; [|split; [lia|]].
  - intros x Hx. destruct (run_instruction_inv max n s x Hr Hx) as (s' & -> & _). done.
  - intros Hf. unfold Acquire, Acquire_try, Acquire_undo, fetch_add. cbn [acquires_allowed_ max_acquires_].
    destruct (Z.ltb_spec 0 (acquires_allowed_ (limiter s))).
    + rewrite bool_decide_true by lia. eexists. split; [done|]. simpl. lia.
    + rewrite bool_decide_false by lia. rewrite (proj2 (Z.ltb_lt _ _)) by lia.
      eexists. split; [done|]. simpl. lia.
Qed.

(** [MaxOpenFiles] keeps its first answer, and a fifth of any limit the system
    reports below five times 2^31 fits. *)
Lemma MaxOpenFiles_idempotent g rlim rlim' :
  (∀ n, rlim = Rlim_cur n → 0 <= n < 5 * 2 ^ 31) →
  0 <= MaxOpenFiles g rlim ∧ MaxOpenFiles (MaxOpenFiles g rlim) rlim' = MaxOpenFiles g rlim.
Proof.
  intros Hr. assert (0 <= MaxOpenFiles g rlim) as H0.
  { unfold MaxOpenFiles. destruct (Z.leb_spec 0 g); [done|]. destruct rlim as [| |n]; [done|done|].
    specialize (Hr n eq_refl). unfold int32. assert (n / 5 < 2 ^ 31) by (apply Z.div_lt_upper_bound; lia).
    assert (0 <= n / 5) by (apply Z.div_pos; lia). rewrite Z.mod_small by lia. lia. }
  split; [done|]. unfold MaxOpenFiles at 1. by rewrite (proj2 (Z.leb_le _ _) H0).
Qed.

(** ** Witnesses *)

(** Two threads, one resource: the second thread fails, and until it has put the
    counter back nobody can acquire, even though nobody holds the resource. *)
Definition contended : system :=
  {| limiter := {| max_acquires_ := 1; acquires_allowed_ := 0 |}; threads := [Idle; Failed] |}.

Lemma contended_reachable : reachable 1 2 contended.
Proof.
  eapply (reachable_step _ _ _ (Drop 0)); [eapply (reachable_step _ _ _ (Try 1));
    [eapply (reachable_step _ _ _ (Try 0)); [by apply reachable_new|]|]|]; reflexivity.
Qed.

Lemma Limiter_safe_witness :
  number Holds (threads contended) <= 1 ∧ is_Some (run_instruction (Undo 1) contended).
Proof.
  destruct (Limiter_safe 1 2 contended contended_reachable) as (H1 & H2 & _).
  split; [exact H1|]. exact (H2 (Undo 1) eq_refl).
Defined.
