(* ===== verification/Scheduler.v ===== *)
(** * Background work (util/env_posix.cpp: PosixEnv::Schedule, BackgroundThreadMain)

    Any thread may call [Schedule]; one background thread runs the items.  What a
    thread does while it holds [background_work_mutex_] is one step, since
    [Wait] is the only place where the mutex is given up inside; the steps of the
    callers and of the background thread interleave freely. *)
From Stdlib Require Import ZArith Lia.
From S2P Require Import Prelude.
From stdpp Require Import base numbers list.

(** ** State *)

Record BackgroundWorkItem := { function : Z; arg : Z }.

(** Where the background thread is: not started, about to lock the mutex, inside
    [Wait], woken up inside [Wait], or running an item. *)
Inductive background_pc :=
  | NotStarted | Locking | Waiting | Woken | Running (item : BackgroundWorkItem).

(** [finished]: the items whose functions have returned. *)
Record scheduler := {
  started_background_thread_ : bool;
  background_work_queue_ : list BackgroundWorkItem;
  background : background_pc;
  finished : list BackgroundWorkItem }.

Definition scheduler_new : scheduler :=
  {| started_background_thread_ := false; background_work_queue_ := []; background := NotStarted;
     finished := [] |}.

(** ** Operations *)

(** [background_work_cv_.Signal()] wakes the thread if it waits. *)
Definition Signal (s : scheduler) : scheduler :=
  {| started_background_thread_ := started_background_thread_ s;
     background_work_queue_ := background_work_queue_ s;
     background := match background s with Waiting => Woken | b => b end;
     finished := finished s |}.

Definition Schedule (item : BackgroundWorkItem) (s : scheduler) : scheduler :=
  let s := if negb (started_background_thread_ s)
           then {| started_background_thread_ := true; background_work_queue_ := background_work_queue_ s;
                   background := Locking; finished := finished s |}
           else s in
  let s := match background_work_queue_ s with [] => Signal s | _ => s end in
  {| started_background_thread_ := started_background_thread_ s;
     background_work_queue_ := background_work_queue_ s ++ [item];
     background := background s; finished := finished s |}.

(** The next step of [BackgroundThreadMain]: take the front item or wait, or
    return from the item's function; [None] when it has no step. *)
Definition BackgroundThread_step (s : scheduler) : option scheduler :=
  match background s with
  | NotStarted | Waiting => None
  | Locking | Woken =>
      Some match background_work_queue_ s with
           | [] => {| started_background_thread_ := started_background_thread_ s;
                      background_work_queue_ := []; background := Waiting; finished := finished s |}
           | item :: queue => {| started_background_thread_ := started_background_thread_ s;
                                 background_work_queue_ := queue; background := Running item;
                                 finished := finished s |}
           end
  | Running item =>
      Some {| started_background_thread_ := started_background_thread_ s;
              background_work_queue_ := background_work_queue_ s; background := Locking;
              finished := finished s ++ [item] |}
  end.

(** What happens: a call of [Schedule], a step of the background thread, or a
    wake-up without a signal, which condition variables allow. *)
Inductive event := Ev_Schedule (item : BackgroundWorkItem) | Ev_Background | Ev_Spurious.

Definition step (e : event) (s : scheduler) : option scheduler :=
  match e with
  | Ev_Schedule item => Some (Schedule item s)
  | Ev_Background => BackgroundThread_step s
  | Ev_Spurious => match background s with Waiting => Some (Signal s) | _ => None end
  end.

Fixpoint run (evs : list event) (s : scheduler) : option scheduler :=
  match evs with [] => Some s | e :: evs => s ← step e s; run evs s end.

(** ** Specification *)

Definition scheduled (evs : list event) : list BackgroundWorkItem :=
  omap (λ e, match e with Ev_Schedule item => Some item | _ => None end) evs.

Definition is_background (e : event) : bool := match e with Ev_Background => true | _ => false end.
Definition background_steps (evs : list event) : nat := length (List.filter is_background evs).

Definition running (s : scheduler) : list BackgroundWorkItem :=
  match background s with Running item => [item] | _ => [] end.

(** All items, oldest first, and those not finished. *)
Definition items (s : scheduler) : list BackgroundWorkItem :=
  finished s ++ running s ++ background_work_queue_ s.
Definition outstanding (s : scheduler) : nat := length (running s ++ background_work_queue_ s).

(** ** Lemmas *)

(** The thread waits only when there is nothing to do, and runs once started. *)
Definition scheduler_inv (s : scheduler) : Prop :=
  (background s = Waiting → background_work_queue_ s = []) ∧
  (background s = NotStarted → started_background_thread_ s = false ∧ background_work_queue_ s = []) ∧
  (started_background_thread_ s = false → background s = NotStarted).

Lemma scheduler_inv_new : scheduler_inv scheduler_new.
Proof. by split. Qed.

Lemma scheduler_step_inv e s s' : scheduler_inv s → step e s = Some s' → scheduler_inv s'.
Proof.
  destruct s as [st q b f]. unfold scheduler_inv. simpl. intros (H1 & H2 & H3).
  destruct e as [x| |]; simpl.
  - intros [= <-]. destruct st, q, b; simpl in *; intuition congruence.
  - unfold BackgroundThread_step. simpl. destruct b, q; intros; simplify_eq/=; intuition congruence.
  - destruct b; intros; simplify_eq/=; intuition congruence.
Qed.

Lemma scheduler_step_items e s s' : scheduler_inv s → step e s = Some s' → items s' = items s ++ scheduled [e].
Proof.
  destruct s as [st q b f]. unfold scheduler_inv, items, running. simpl. intros (H1 & H2 & H3).
  destruct e as [x| |]; simpl.
  - intros [= <-]. destruct st, q, b; simpl; try (by rewrite <- ?app_assoc); by specialize (H3 eq_refl).
  - unfold BackgroundThread_step. simpl. rewrite app_nil_r.
    destruct b, q; intros; simplify_eq/=; by rewrite <- ?app_assoc.
  - rewrite app_nil_r. destruct b; intros; by simplify_eq/=.
Qed.

Lemma scheduler_step_ok e s s' :
  scheduler_inv s → step e s = Some s' →
  scheduler_inv s' ∧ items s' = items s ++ scheduled [e].
Proof. eauto using scheduler_step_inv, scheduler_step_items. Qed.

Lemma scheduler_run_ok evs s s' :
  scheduler_inv s → run evs s = Some s' → scheduler_inv s' ∧ items s' = items s ++ scheduled evs.
Proof.
  revert s. induction evs as [|e evs IH]; intros s Hs; cbn [run].
  - intros [= <-]. unfold scheduled. simpl. by rewrite app_nil_r.
  - destruct (step e s) as [s1|] eqn:E; [|done]. cbn [mbind option_bind]. intros Hr.
    destruct (scheduler_step_ok e s s1 Hs E) as [Hs1 E1]. destruct (IH s1 Hs1 Hr) as [Hs' E'].
    split; [done|]. rewrite E', E1, <- app_assoc. f_equal. unfold scheduled. by destruct e.
Qed.

(** Work to do keeps the thread going: no wake-up is lost. *)
Lemma background_enabled s :
  scheduler_inv s → outstanding s ≠ 0 → is_Some (BackgroundThread_step s).
Proof.
  intros (H1 & H2 & _). unfold outstanding, running, BackgroundThread_step.
  destruct (background s); eauto; [destruct (H2 eq_refl) as [_ ->]|rewrite (H1 eq_refl)]; done.
Qed.

(** How far the thread is, in half items. *)
Definition progress (s : scheduler) : nat := 2 * length (finished s) + length (running s).

Lemma scheduler_step_progress N e s s' :
  scheduler_inv s → step e s = Some s' → N ≤ length (items s) →
  Nat.min (2 * N) (progress s + (if is_background e then 1 else 0)) ≤ progress s'.
Proof.
  intros Hs E HN. destruct e as [x| |]; simpl in *.
  - injection E as <-. unfold progress, Schedule, running. destruct s as [st q b f]. simpl.
    destruct Hs as (H1 & H2 & H3). simpl in *.
    destruct st, q, b; simpl; try lia; by specialize (H3 eq_refl).
  - unfold items in HN. rewrite !length_app in HN. unfold BackgroundThread_step, progress, running in *.
    destruct (background s) as [| | | |x] eqn:Eb; try done.
    + destruct (background_work_queue_ s); injection E as <-; simpl in *; lia.
    + destruct (background_work_queue_ s); injection E as <-; simpl in *; lia.
    + injection E as <-. simpl. rewrite length_app. simpl. lia.
  - unfold progress, running. destruct (background s) eqn:Eb; try done. injection E as <-.
    simpl. rewrite Eb. simpl. lia.
Qed.

Lemma scheduler_run_progress N evs s s' :
  scheduler_inv s → run evs s = Some s' → N ≤ length (items s) →
  Nat.min (2 * N) (progress s + background_steps evs) ≤ progress s'.
Proof.
  revert s. induction evs as [|e evs IH]; intros s Hs; cbn [run].
  - intros [= <-] _. unfold background_steps. simpl. lia.
  - destruct (step e s) as [s1|] eqn:E; [|done]. cbn [mbind option_bind]. intros Hr HN.
    destruct (scheduler_step_ok e s s1 Hs E) as [Hs1 E1]. pose proof (scheduler_step_progress N e s s1 Hs E HN).
    assert (N ≤ length (items s1)) as HN1 by (rewrite E1, length_app; lia).
    pose proof (IH s1 Hs1 Hr HN1). unfold background_steps in *. simpl.
    destruct (is_background e); simpl; lia.
Qed.

(** ** Properties *)

(** C19: every item that was scheduled runs, once, in the order of the calls of
    [Schedule], whatever the interleaving and the wake-ups.  While an item is
    outstanding the background thread can always take a step - no wake-up is lost
    - and two of its steps per outstanding item finish all of them, however many
    items are added meanwhile. *)
Theorem Schedule_runs_all (evs evs' : list event) (s s' : scheduler) :
  run evs scheduler_new = Some s → run evs' s = Some s' →
  finished s ++ running s ++ background_work_queue_ s = scheduled evs ∧
  (outstanding s ≠ 0 → is_Some (BackgroundThread_step s)) ∧
  (2 * outstanding s ≤ background_steps evs' → scheduled evs `prefix_of` finished s').
Proof.
  intros Hr Hr'. destruct (scheduler_run_ok evs _ s scheduler_inv_new Hr) as [Hs E].
  split; [exact E|]. split; [by apply background_enabled|]. intros Hsteps.
  destruct (scheduler_run_ok evs' s s' Hs Hr') as [_ E'].
  pose proof (scheduler_run_progress (length (items s)) evs' s s' Hs Hr' ltac:(done)) as Hp.
  change (items s = scheduled evs) in E. rewrite <- E.
  assert (length (items s) ≤ length (finished s')) as Hl.
  { unfold progress, items, outstanding in *. rewrite !length_app in *.
    assert (length (running s') ≤ 1) by (unfold running; destruct (background s'); simpl; lia). lia. }
  assert (items s `prefix_of` items s') as Hpre by (rewrite E'; by eexists).
  assert (finished s' `prefix_of` items s') as Hfin by (by eexists).
  destruct (prefix_weak_total _ _ _ Hpre Hfin) as [|Hle]; [done|].
  by rewrite (prefix_length_eq _ _ Hle Hl).
Qed.

(** ** Witnesses *)

Lemma Schedule_runs_all_witness :
  let a := {| function := 1; arg := 10 |} in
  let b := {| function := 2; arg := 20 |} in
  ∃ s s', run [Ev_Schedule a; Ev_Background; Ev_Schedule b] scheduler_new = Some s ∧
    run [Ev_Background; Ev_Background; Ev_Background; Ev_Background; Ev_Spurious] s = Some s' ∧
    [a; b] `prefix_of` finished s'.
Proof.
  intros a b. eexists _, _. split; [reflexivity|]. split; [reflexivity|].
  refine (proj2 (proj2 (Schedule_runs_all [Ev_Schedule a; Ev_Background; Ev_Schedule b]
            [Ev_Background; Ev_Background; Ev_Background; Ev_Background; Ev_Spurious] _ _ eq_refl eq_refl)) _).
  vm_compute. lia.
Defined.
