(* ===== verification/Port.v ===== *)
(** * Mutexes and condition variables (port/port.h, util/mutexlock.h)

    Threads that share data guarded by one [port::Mutex] and its [port::CondVar],
    an instruction at a time.  [std::mutex] and [std::condition_variable] are modelled
    by what they do: [Lock] waits until the mutex is free, [Wait] gives the mutex up
    and sleeps in one step and takes the mutex again before it returns, [Signal]
    wakes one sleeping thread if there is one, [SignalAll] every one, and a sleeping
    thread may wake up without a signal.

    [step_reduction]: every interleaving of instructions amounts to one in which
    critical sections are not interrupted.  This is why, in the other files, an
    operation that holds a mutex throughout is one step ([MutexLock_atomic]). *)
From stdpp Require Import base list numbers relations.
From Stdlib Require Import Lia.
From S2P Require Import Prelude.

Section Monitor.
Context {S L : Type}.

(** ** Instructions *)

(** [I_access] reads and writes the guarded data and fails with an assertion of the
    source; [I_local] is code that does not touch it, whose outcome is not
    determined here; [I_start] starts a thread. Each constructor has where the thread
    goes on. *)
Inductive instruction :=
  | I_local (next : L → Prop)
  | I_access (f : S → option (S * L))
  | I_Lock (l : L)
  | I_Unlock (l : L)
  | I_Wait (l : L)
  | I_Signal (l : L)
  | I_SignalAll (l : L)
  | I_start (l new : L).

Context (code : L → instruction).

(** ** State *)

(** A thread runs, sleeps in [Wait], or was woken up and has to take the mutex
    before [Wait] returns. *)
Inductive thread := Runs (l : L) | Sleeps (l : L) | Wakes (l : L).

(** [holder] is the thread that holds the mutex. *)
Record monitor := { data : S; holder : option nat; threads : list thread }.

Definition put (i : nat) (t : thread) (m : monitor) : monitor :=
  {| data := data m; holder := holder m; threads := <[i := t]> (threads m) |}.

(** ** Operations *)

(** [None]: the thread has to wait. *)
Definition Mutex_Lock (i : nat) (l : L) (m : monitor) : option monitor :=
  match holder m with
  | None => Some {| data := data m; holder := Some i; threads := <[i := Runs l]> (threads m) |}
  | Some _ => None
  end.

(** [None]: undefined behaviour, the thread does not hold the mutex. *)
Definition Mutex_Unlock (i : nat) (l : L) (m : monitor) : option monitor :=
  if decide (holder m = Some i)
  then Some {| data := data m; holder := None; threads := <[i := Runs l]> (threads m) |} else None.

(** The first half of [Wait]; the second is the thread's next [Mutex_Lock]. *)
Definition CondVar_Wait (i : nat) (l : L) (m : monitor) : option monitor :=
  if decide (holder m = Some i)
  then Some {| data := data m; holder := None; threads := <[i := Sleeps l]> (threads m) |} else None.

Definition wake (t : thread) : thread := match t with Sleeps l => Wakes l | _ => t end.

Definition sleeping (t : thread) : bool := match t with Sleeps _ => true | _ => false end.

Inductive CondVar_Signal (ts : list thread) : list thread → Prop :=
  | signal_none : Forall (λ t, sleeping t = false) ts → CondVar_Signal ts ts
  | signal_one j l : ts !! j = Some (Sleeps l) → CondVar_Signal ts (<[j := Wakes l]> ts).

Definition CondVar_SignalAll (ts : list thread) : list thread := wake <$> ts.

(** ** Steps of thread [i] *)

Inductive step (i : nat) (m : monitor) : monitor → Prop :=
  | s_local l next l' :
      threads m !! i = Some (Runs l) → code l = I_local next → next l' → step i m (put i (Runs l') m)
  | s_access l f s l' :
      threads m !! i = Some (Runs l) → code l = I_access f → holder m = Some i →
      f (data m) = Some (s, l') →
      step i m {| data := s; holder := holder m; threads := <[i := Runs l']> (threads m) |}
  | s_lock l l' m' :
      threads m !! i = Some (Runs l) → code l = I_Lock l' → Mutex_Lock i l' m = Some m' → step i m m'
  | s_unlock l l' m' :
      threads m !! i = Some (Runs l) → code l = I_Unlock l' → Mutex_Unlock i l' m = Some m' → step i m m'
  | s_wait l l' m' :
      threads m !! i = Some (Runs l) → code l = I_Wait l' → CondVar_Wait i l' m = Some m' → step i m m'
  | s_relock l m' :
      threads m !! i = Some (Wakes l) → Mutex_Lock i l m = Some m' → step i m m'
  | s_spurious l :
      threads m !! i = Some (Sleeps l) → step i m (put i (Wakes l) m)
  | s_signal l l' ts :
      threads m !! i = Some (Runs l) → code l = I_Signal l' → holder m = Some i →
      CondVar_Signal (threads m) ts →
      step i m {| data := data m; holder := holder m; threads := <[i := Runs l']> ts |}
  | s_signal_all l l' :
      threads m !! i = Some (Runs l) → code l = I_SignalAll l' → holder m = Some i →
      step i m {| data := data m; holder := holder m;
                  threads := <[i := Runs l']> (CondVar_SignalAll (threads m)) |}
  | s_start l l' new :
      threads m !! i = Some (Runs l) → code l = I_start l' new → holder m = Some i →
      step i m {| data := data m; holder := holder m;
                  threads := <[i := Runs l']> (threads m) ++ [Runs new] |}.

(** A step of some thread. *)
Definition any_step (m m' : monitor) : Prop := ∃ i, step i m m'.

(** What a thread must not do: touch the data, release the mutex, wait or signal
    without the mutex, lock it twice, or fail an assertion. *)
Definition legal (m : monitor) (i : nat) : Prop :=
  ∀ l, threads m !! i = Some (Runs l) →
  match code l with
  | I_local _ => True
  | I_Lock _ => holder m ≠ Some i
  | I_access f => holder m = Some i ∧ is_Some (f (data m))
  | I_Unlock _ | I_Wait _ | I_Signal _ | I_SignalAll _ | I_start _ _ => holder m = Some i
  end.

(** ** Critical sections *)

(** A step of thread [i] after which it holds the mutex. *)
Definition own (i : nat) (m m' : monitor) : Prop := step i m m' ∧ holder m' = Some i.

(** A whole critical section of thread [i], or a step outside of any. *)
Definition atomic (i : nat) (m m' : monitor) : Prop :=
  holder m = None ∧ holder m' = None ∧ ∃ m1, rtc (own i) m m1 ∧ step i m1 m'.

Definition any_atomic (m m' : monitor) : Prop := ∃ i, atomic i m m'.

(** ** Lemmas *)

(** The step of a thread at [l]. *)
Definition runs_to (i : nat) (l : L) (m m' : monitor) : Prop :=
  match code l with
  | I_local next => ∃ l', next l' ∧ m' = put i (Runs l') m
  | I_access f =>
      holder m = Some i ∧ ∃ s l', f (data m) = Some (s, l') ∧
        m' = {| data := s; holder := Some i; threads := <[i := Runs l']> (threads m) |}
  | I_Lock l' =>
      holder m = None ∧ m' = {| data := data m; holder := Some i; threads := <[i := Runs l']> (threads m) |}
  | I_Unlock l' =>
      holder m = Some i ∧ m' = {| data := data m; holder := None; threads := <[i := Runs l']> (threads m) |}
  | I_Wait l' =>
      holder m = Some i ∧ m' = {| data := data m; holder := None; threads := <[i := Sleeps l']> (threads m) |}
  | I_Signal l' =>
      holder m = Some i ∧ ∃ ts, CondVar_Signal (threads m) ts ∧
        m' = {| data := data m; holder := Some i; threads := <[i := Runs l']> ts |}
  | I_SignalAll l' =>
      holder m = Some i ∧
      m' = {| data := data m; holder := Some i; threads := <[i := Runs l']> (CondVar_SignalAll (threads m)) |}
  | I_start l' new =>
      holder m = Some i ∧
      m' = {| data := data m; holder := Some i; threads := <[i := Runs l']> (threads m) ++ [Runs new] |}
  end.

Lemma step_inv i m m' :
  step i m m' →
  ∃ t, threads m !! i = Some t ∧
  match t with
  | Runs l => runs_to i l m m'
  | Sleeps l => m' = put i (Wakes l) m
  | Wakes l =>
      holder m = None ∧ m' = {| data := data m; holder := Some i; threads := <[i := Runs l]> (threads m) |}
  end.
Proof.
  destruct 1 as [l next l' Hi Hc Hn|l f s l' Hi Hc Hh Hf|l l' m' Hi Hc Hl|l l' m' Hi Hc Hl|l l' m' Hi Hc Hl
    |l m' Hi Hl|l Hi|l l' ts Hi Hc Hh|l l' Hi Hc Hh|l l' new Hi Hc Hh];
    eexists; (split; [exact Hi|]); unfold runs_to; rewrite ?Hc, ?Hh; eauto.
  - unfold Mutex_Lock in Hl. destruct (holder m); simplify_eq. done.
  - unfold Mutex_Unlock in Hl. case_decide; simplify_eq. done.
  - unfold CondVar_Wait in Hl. case_decide; simplify_eq. done.
  - unfold Mutex_Lock in Hl. destruct (holder m); simplify_eq. done.
Qed.

Lemma step_holder i m m' :
  step i m m' →
  holder m' = holder m ∨ holder m = None ∧ holder m' = Some i ∨ holder m = Some i ∧ holder m' = None.
Proof.
  intros (t & _ & H)%step_inv. destruct t as [l|l|l]; [|by subst; left|destruct H as [? ->]; auto].
  unfold runs_to in H. destruct (code l); decompose [and ex] H; subst; simpl; auto.
Qed.

Lemma CondVar_Signal_total (ts : list thread) : ∃ ts', CondVar_Signal ts ts'.
Proof.
  destruct (decide (Exists (λ t, sleeping t = true) ts)) as [He|Hn].
  - apply Exists_exists in He as (t & (j & Hj)%list_elem_of_lookup & Ht). destruct t as [l|l|l]; try done.
    eexists. by eapply signal_one.
  - exists ts. constructor. apply Forall_forall. intros t Ht. destruct (sleeping t) eqn:E; [|done].
    destruct Hn. apply Exists_exists. eauto.
Qed.

(** The thread that holds the mutex can go on. *)
Lemma holder_steps m i l :
  holder m = Some i → threads m !! i = Some (Runs l) → legal m i →
  (∀ next, code l = I_local next → ∃ l', next l') → ∃ m', step i m m'.
Proof.
  intros Hh Hi Hleg Hloc. specialize (Hleg l Hi). destruct (code l) as [next|f|l'|l'|l'|l'|l'|l' new] eqn:Hc.
  - destruct (Hloc next eq_refl) as [l' Hl']. eexists. by eapply s_local.
  - destruct Hleg as [_ [[s l'] Hf]]. eexists. by eapply s_access.
  - done.
  - eexists. eapply s_unlock; [done|done|]. unfold Mutex_Unlock. by rewrite decide_True.
  - eexists. eapply s_wait; [done|done|]. unfold CondVar_Wait. by rewrite decide_True.
  - destruct (CondVar_Signal_total (threads m)) as [ts Hts]. eexists. by eapply s_signal.
  - eexists. by eapply s_signal_all.
  - eexists. by eapply s_start.
Qed.

(** What a thread can do while another one holds the mutex. *)
Inductive quiet : thread → thread → Prop :=
  | q_local l next l' : code l = I_local next → next l' → quiet (Runs l) (Runs l')
  | q_spurious l : quiet (Sleeps l) (Wakes l).

Lemma quiet_step j m t t' : threads m !! j = Some t → quiet t t' → step j m (put j t' m).
Proof. intros Hj Hq. inversion Hq; subst; [by eapply s_local|by apply s_spurious]. Qed.

Lemma step_quiet i j m m' :
  holder m = Some i → j ≠ i → step j m m' → ∃ t t', threads m !! j = Some t ∧ quiet t t' ∧ m' = put j t' m.
Proof.
  intros Hh Hne (t & Hj & H)%step_inv. destruct t as [l|l|l].
  - unfold runs_to in H. destruct (code l) eqn:Hc; try (destruct H as [? _]; congruence).
    destruct H as (l' & Hn & ->). exists (Runs l), (Runs l'). split; [done|]. split; [by econstructor|done].
  - exists (Sleeps l), (Wakes l). split; [done|]. split; [constructor|done].
  - destruct H as [? _]. congruence.
Qed.

(** Threads are started at a [Lock]. *)
Context (start_locks : ∀ l l' new, code l = I_start l' new → ∃ k, code new = I_Lock k).

(** Such a step can as well come before a step that the holder made. *)
Lemma own_commute i j m m1 t t' :
  i ≠ j → own i m m1 → threads m1 !! j = Some t → quiet t t' →
  threads m !! j = Some t ∧ own i (put j t' m) (put j t' m1).
Proof.
  intros Hij [Hst Hh] Hj Hq.
  assert (Hput : ∀ (ts : list thread) ti, <[i := ti]> ts !! j = Some t → ts !! j = Some t)
    by (intros ts ti; by rewrite list_lookup_insert_ne by done).
  assert (Hcomm : ∀ (ts : list thread) ti, <[j := t']> (<[i := ti]> ts) = <[i := ti]> (<[j := t']> ts))
    by (intros; by apply list_insert_insert_ne).
  assert (Hi : ∀ ti, threads m !! i = Some ti → <[j := t']> (threads m) !! i = Some ti)
    by (intros; by rewrite list_lookup_insert_ne by done).
  destruct Hst as [l next l' Ei Hc Hn|l f s l' Ei Hc Hho Hf|l l' m1 Ei Hc Hl|l l' m1 Ei Hc Hl|l l' m1 Ei Hc Hl
    |l m1 Ei Hl|l Ei|l l' ts Ei Hc Hho Hs|l l' Ei Hc Hho|l l' new Ei Hc Hho]; simpl in Hj.
  - apply Hput in Hj. split; [done|]. split; [|done]. unfold put. simpl. rewrite Hcomm.
    eapply (s_local i (put j t' m)); [by apply Hi|done|done].
  - apply Hput in Hj. split; [done|]. split; [|done]. unfold put. simpl. rewrite Hcomm.
    eapply (s_access i (put j t' m)); [by apply Hi|done..].
  - unfold Mutex_Lock in Hl. destruct (holder m) eqn:Hn; [done|]. injection Hl as <-. apply Hput in Hj.
    split; [done|]. split; [|done]. unfold put. simpl. rewrite Hcomm.
    eapply (s_lock i (put j t' m)); [by apply Hi|done|]. unfold Mutex_Lock. simpl. by rewrite Hn.
  - unfold Mutex_Unlock in Hl. case_decide; [|done]. by injection Hl as <-.
  - unfold CondVar_Wait in Hl. case_decide; [|done]. by injection Hl as <-.
  - unfold Mutex_Lock in Hl. destruct (holder m) eqn:Hn; [done|]. injection Hl as <-. apply Hput in Hj.
    split; [done|]. split; [|done]. unfold put. simpl. rewrite Hcomm.
    eapply (s_relock i (put j t' m)); [by apply Hi|]. unfold Mutex_Lock. simpl. by rewrite Hn.
  - apply Hput in Hj. split; [done|]. split; [|done]. unfold put. simpl. rewrite Hcomm.
    eapply (s_spurious i (put j t' m)); by apply Hi.
  - apply Hput in Hj. destruct Hs as [Hf|k lk Hk].
    + split; [done|]. split; [|done]. unfold put. simpl. rewrite Hcomm.
      eapply (s_signal i (put j t' m)); [by apply Hi|done..|]. constructor. apply Forall_insert; [done|].
      rewrite Forall_forall in Hf. destruct Hq; [done|]. by specialize (Hf _ (list_elem_of_lookup_2 _ _ _ Hj)).
    + destruct (decide (j = k)) as [->|Hjk].
      { rewrite list_lookup_insert_eq in Hj by (by eapply lookup_lt_Some). injection Hj as <-. inversion Hq. }
      rewrite list_lookup_insert_ne in Hj by done. split; [done|]. split; [|done]. unfold put. simpl.
      rewrite Hcomm, (list_insert_insert_ne (threads m) j k) by done.
      eapply (s_signal i (put j t' m)); [by apply Hi|done..|]. econstructor.
      simpl. by rewrite list_lookup_insert_ne.
  - apply Hput in Hj. unfold CondVar_SignalAll in Hj. rewrite list_lookup_fmap in Hj.
    destruct (threads m !! j) as [t0|] eqn:Ej; [|done]. injection Hj as <-.
    assert (wake t0 = t0 ∧ wake t' = t') as [E0 E1] by (destruct t0; inversion Hq; subst; done).
    rewrite E0 in *. split; [done|]. split; [|done]. unfold put. simpl. rewrite Hcomm.
    assert (<[j := t']> (CondVar_SignalAll (threads m)) = CondVar_SignalAll (<[j := t']> (threads m))) as ->
      by (unfold CondVar_SignalAll; by rewrite list_fmap_insert, E1).
    eapply (s_signal_all i (put j t' m)); [by apply Hi|done..].
  - apply lookup_app_Some in Hj as [Hj|[_ Hj]].
    + pose proof (lookup_lt_Some _ _ _ Hj) as Hlt. apply Hput in Hj. split; [done|]. split; [|done]. unfold put. simpl.
      rewrite insert_app_l, Hcomm by done. eapply (s_start i (put j t' m)); [by apply Hi|done..].
    + apply list_lookup_singleton_Some in Hj as [_ <-]. destruct (start_locks _ _ _ Hc) as [k Ek].
      inversion Hq. congruence.
Qed.

Lemma owns_commute i j m m1 t t' :
  i ≠ j → rtc (own i) m m1 → threads m1 !! j = Some t → quiet t t' →
  threads m !! j = Some t ∧ rtc (own i) (put j t' m) (put j t' m1).
Proof.
  intros Hij Hr Hj Hq. induction Hr as [m|m m2 m1 H12 _ IH]; [by split|]. destruct (IH Hj) as [Hj2 Hr2].
  destruct (own_commute i j m m2 t t' Hij H12 Hj2 Hq) as [Hj0 H0]. split; [done|]. by eapply rtc_l.
Qed.

(** Any state is a state between critical sections, or one with part of a critical
    section run, without interruption. *)
Lemma step_reduction m0 m :
  holder m0 = None → rtc any_step m0 m →
  ∃ m1, rtc any_atomic m0 m1 ∧ holder m1 = None ∧
    match holder m with None => m = m1 | Some i => rtc (own i) m1 m end.
Proof.
  intros H0 Hr. revert m Hr. refine (rtc_ind_r _ _ _ _); [exists m0; by rewrite H0|].
  intros m m' _ [j Hst] (m1 & Hr1 & Hh1 & Hm).
  pose proof (step_holder _ _ _ Hst) as Hh. destruct (holder m) as [i|] eqn:Em.
  - destruct (decide (j = i)) as [->|Hji].
    + destruct (holder m') as [i'|] eqn:Em'.
      * assert (i' = i) as -> by (destruct Hh as [?|[[? ?]|[? ?]]]; congruence). exists m1. split; [done|]. split; [done|].
        eapply rtc_r; [exact Hm|]. by split.
      * exists m'. split; [|done]. eapply rtc_r; [exact Hr1|]. exists i. split; [done|]. split; [done|]. by exists m.
    + destruct (step_quiet i j m m' Em Hji Hst) as (t & t' & Hj & Hq & ->).
      destruct (owns_commute i j m1 m t t' ltac:(done) Hm Hj Hq) as [Hj1 Hm'].
      exists (put j t' m1). split; [|split; [done|by simpl; rewrite Em]].
      eapply rtc_r; [exact Hr1|]. exists j. split; [done|]. split; [done|]. exists m1.
      split; [done|by apply (quiet_step j m1 t)].
  - subst m1. destruct (holder m') as [i'|] eqn:Em'.
    + assert (i' = j) as -> by (destruct Hh as [?|[[? ?]|[? ?]]]; congruence). exists m. split; [done|]. split; [done|].
      apply rtc_once. by split.
    + exists m'. split; [|done]. eapply rtc_r; [exact Hr1|]. exists j. split; [done|]. split; [done|]. by exists m.
Qed.
End Monitor.

(** ** Operations under a [MutexLock] *)

Section MutexLock.
Context {S R Op : Type}.

(** The accesses of an operation to the guarded data, in order; [R] is what the thread
    keeps for itself: arguments, local variables, results. *)
Context (body : Op → list (S → R → option (S * R))).

(** A thread outside of any operation, before the constructor of [MutexLock], and in
    an operation with the rest of its accesses; at their end is the destructor. *)
Inductive call := C_none (r : R) | C_MutexLock (o : Op) (r : R) | C_body (fs : list (S → R → option (S * R))) (r : R).

Definition call_code (l : call) : instruction (S:=S) (L:=call) :=
  match l with
  | C_none r => I_local (λ l, ∃ o, l = C_MutexLock o r)
  | C_MutexLock o r => I_Lock (C_body (body o) r)
  | C_body (f :: fs) r => I_access (λ s, '(s, r) ← f s r; Some (s, C_body fs r))
  | C_body [] r => I_Unlock (C_none r)
  end.

Definition calls_new (s : S) (rs : list R) : monitor (S:=S) (L:=call) :=
  {| data := s; holder := None; threads := (λ r, Runs (C_none r)) <$> rs |}.

(** The operation in one step. *)
Fixpoint run_body (fs : list (S → R → option (S * R))) (s : S) (r : R) : option (S * R) :=
  match fs with [] => Some (s, r) | f :: fs => '(s, r) ← f s r; run_body fs s r end.

Inductive op_step : S * list R → S * list R → Prop :=
  | op_step_intro o i s rs r s' r' :
      rs !! i = Some r → run_body (body o) s r = Some (s', r') → op_step (s, rs) (s', <[i := r']> rs).

Definition call_reg (l : call) : R := match l with C_none r | C_MutexLock _ r | C_body _ r => r end.
Definition thread_reg (t : thread (L:=call)) : R := match t with Runs l | Sleeps l | Wakes l => call_reg l end.
Definition regs (m : monitor (S:=S) (L:=call)) : list R := thread_reg <$> threads m.

Lemma run_body_app fs1 fs2 s r :
  run_body (fs1 ++ fs2) s r = ('(s, r) ← run_body fs1 s r; run_body fs2 s r).
Proof. revert s r. induction fs1 as [|f fs1 IH]; intros s r; simpl; [done|]. by destruct (f s r) as [[??]|]; simpl. Qed.

(** No thread sleeps, and outside of its section no thread is in an operation. *)
Definition outside (t : thread (L:=call)) : Prop :=
  match t with Runs (C_body _ _) | Sleeps _ | Wakes _ => False | Runs _ => True end.

(** Part of an operation of thread [i], from the state [m1]. *)
Definition partly (i : nat) (m1 m : monitor (S:=S) (L:=call)) : Prop :=
  ∃ o r fs1 fs2 s r', threads m1 !! i = Some (Runs (C_MutexLock o r)) ∧ body o = fs1 ++ fs2 ∧
    run_body fs1 (data m1) r = Some (s, r') ∧
    m = {| data := s; holder := Some i; threads := <[i := Runs (C_body fs2 r')]> (threads m1) |}.

Lemma partly_own i m1 m :
  holder m1 = None → Forall outside (threads m1) → rtc (own call_code i) m1 m → m = m1 ∨ partly i m1 m.
Proof.
  intros Hh Ho Hr. revert m Hr. refine (rtc_ind_r _ _ _ _); [by left|].
  intros m m' _ [Hst Hh'] [->|(o & r & fs1 & fs2 & s & r' & Hi & Eb & Er & ->)].
  - right. destruct (step_inv _ _ _ _ Hst) as (t & Hi & H).
    rewrite Forall_forall in Ho. pose proof (Ho t (list_elem_of_lookup_2 _ _ _ Hi)) as Hl0.
    destruct t as [[r|o r|fs r]|l|l]; try done; unfold runs_to in H; simpl in H.
    + destruct H as (l' & _ & ->). simpl in Hh'. congruence.
    + destruct H as [_ ->]. by exists o, r, [], (body o), (data m1), r.
  - right. destruct (step_inv _ _ _ _ Hst) as (t & Hj & H). simpl in Hj.
    rewrite list_lookup_insert_eq in Hj by (by eapply lookup_lt_Some). injection Hj as <-.
    unfold runs_to in H. destruct fs2 as [|f2 fs2]; simpl in H.
    + destruct H as [_ ->]. done.
    + destruct H as (_ & s2 & l' & Hf & ->). destruct (f2 s r') as [[s3 r3]|] eqn:E; [|done]. injection Hf as <- <-.
      exists o, r, (fs1 ++ [f2]), fs2, s3, r3. split; [done|]. rewrite <- app_assoc. split; [done|].
      rewrite run_body_app, Er. simpl. rewrite E. split; [done|]. by rewrite list_insert_insert_eq.
Qed.

Lemma outside_insert (ts : list (thread (L:=call))) i t :
  Forall outside ts → outside t → Forall outside (<[i := t]> ts).
Proof. intros. by apply Forall_insert. Qed.

(** Without interruption an operation is one step. *)
Lemma atomic_op i m m' :
  Forall outside (threads m) → atomic call_code i m m' →
  Forall outside (threads m') ∧ rtc op_step (data m, regs m) (data m', regs m').
Proof.
  intros Ho (Hh & Hh' & m1 & Hr & Hst). destruct (partly_own i m m1 Hh Ho Hr)
    as [->|(o & r & fs1 & fs2 & s & r' & Hi & Eb & Er & ->)].
  - destruct (step_inv _ _ _ _ Hst) as (t & Hi & H).
    pose proof Ho as Hl0. rewrite Forall_forall in Hl0. specialize (Hl0 t (list_elem_of_lookup_2 _ _ _ Hi)).
    destruct t as [[r|o r|fs r]|l|l]; try done; unfold runs_to in H; simpl in H.
    + destruct H as (l' & [o ->] & ->). split; [by apply outside_insert|].
      assert (regs (put i (Runs (C_MutexLock o r)) m) = regs m) as ->; [|done].
      unfold regs, put. simpl. rewrite list_fmap_insert. apply list_insert_id. by rewrite list_lookup_fmap, Hi.
    + destruct H as [_ ->]. done.
  - destruct (step_inv _ _ _ _ Hst) as (t & Hj & H). simpl in Hj.
    rewrite list_lookup_insert_eq in Hj by (by eapply lookup_lt_Some). injection Hj as <-.
    unfold runs_to in H. destruct fs2 as [|f2 fs2]; simpl in H.
    + destruct H as [_ ->]. simpl. rewrite list_insert_insert_eq. split; [by apply outside_insert|].
      apply rtc_once. unfold regs. simpl. rewrite list_fmap_insert. simpl.
      apply (op_step_intro o i _ _ r); [by rewrite list_lookup_fmap, Hi|]. by rewrite Eb, app_nil_r.
    + destruct H as (_ & s2 & l' & _ & ->). done.
Qed.

Lemma atomics_op m m' :
  Forall outside (threads m) → rtc (any_atomic call_code) m m' →
  Forall outside (threads m') ∧ rtc op_step (data m, regs m) (data m', regs m').
Proof.
  intros Ho Hr. induction Hr as [m|m m1 m' [i H1] _ IH]; [done|].
  destruct (atomic_op i m m1 Ho H1) as [Ho1 Hr1]. destruct (IH Ho1) as [Ho' Hr']. split; [done|]. by etrans.
Qed.

(** C18: however the threads interleave their accesses, the operations that hold the
    mutex take effect one after the other, each in one step with the result it has
    when it runs alone: when the mutex is free the data and what every thread has
    are those of some sequence of whole operations; when it is held, the holder is
    alone inside and has run the first accesses of an operation on such a state. *)
Theorem MutexLock_atomic s0 rs0 m :
  rtc (any_step call_code) (calls_new s0 rs0) m →
  ∃ s rs, rtc op_step (s0, rs0) (s, rs) ∧
    match holder m with
    | None => data m = s ∧ regs m = rs ∧ Forall outside (threads m)
    | Some i =>
        ∃ o r fs1 fs2 r', rs !! i = Some r ∧ body o = fs1 ++ fs2 ∧
          run_body fs1 s r = Some (data m, r') ∧ regs m = <[i := r']> rs ∧
          threads m !! i = Some (Runs (C_body fs2 r')) ∧
          ∀ j t, j ≠ i → threads m !! j = Some t → outside t
    end.
Proof.
  intros Hr. destruct (step_reduction call_code) with (m0 := calls_new s0 rs0) (m := m)
    as (m1 & Hr1 & Hh1 & Hm); [intros [r|o r|[|f fs] r]; done|done|done|].
  assert (Forall outside (threads (calls_new s0 rs0))) as Ho0
    by (apply Forall_forall; intros t (r & -> & _)%list_elem_of_fmap; done).
  destruct (atomics_op _ m1 Ho0 Hr1) as [Ho Hops].
  assert (regs (calls_new s0 rs0) = rs0) as E0.
  { unfold regs, calls_new. simpl. rewrite <- list_fmap_compose. apply list_fmap_id. }
  rewrite E0 in Hops. exists (data m1), (regs m1). split; [done|].
  destruct (holder m) as [i|] eqn:Em; [|by subst].
  destruct (partly_own i m1 m Hh1 Ho Hm) as [->|(o & r & fs1 & fs2 & s & r' & Hi & Eb & Er & ->)]; [congruence|].
  exists o, r, fs1, fs2, r'. unfold regs. simpl.
  rewrite list_lookup_fmap, Hi, list_fmap_insert, list_lookup_insert_eq by (by eapply lookup_lt_Some).
  split; [done|]. split; [done|]. split; [done|]. split; [done|]. split; [done|].
  intros j t Hj. rewrite list_lookup_insert_ne by done. intros Ht.
  rewrite Forall_forall in Ho. by eapply Ho, list_elem_of_lookup_2.
Qed.
End MutexLock.

(** Two threads in [PosixLockTable]-like operations: a test and a write. *)
Lemma MutexLock_atomic_witness :
  let body (o : nat) : list (list nat → bool → option (list nat * bool)) :=
    [(λ (s : list nat) (_ : bool), Some (s, bool_decide (o ∈ s)));
     (λ (s : list nat) (r : bool), Some (if r then s else o :: s, negb r))] in
  let m := {| data := []; holder := Some 0;
              threads := [Runs (C_body (body 7) false); Runs (C_MutexLock 7 false)] |} in
  rtc (any_step (call_code body)) (calls_new [] [false; false]) m ∧
  ∃ s rs, rtc (op_step body) ([], [false; false]) (s, rs).
Proof.
  intros body m. assert (rtc (any_step (call_code body)) (calls_new [] [false; false]) m) as Hr.
  { eapply rtc_l; [exists 0; eapply s_local; [reflexivity|reflexivity|exists 7; reflexivity]|].
    eapply rtc_l; [exists 1; eapply s_local; [reflexivity|reflexivity|exists 7; reflexivity]|].
    eapply rtc_l; [exists 0; eapply s_lock; reflexivity|]. apply rtc_refl. }
  destruct (MutexLock_atomic body [] [false; false] m Hr) as (s & rs & Hops & _).
  split; [exact Hr|]. exists s, rs. exact Hops.
Defined.
