(* ===== verification/SchedulerThreads.v ===== *)
(** * Background work, an instruction at a time (util/env_posix.cpp)

    [PosixEnv::Schedule] and [PosixEnv::BackgroundThreadMain] as threads of Port.v:
    every access to the guarded members, every operation on the mutex and on the
    condition variable is a step of its own.  Their executions are executions of the
    atomic steps of Scheduler.v, so that nothing is lost and nothing gets stuck
    ([PosixEnv_threads]).  An item's function that calls [Schedule] itself counts as
    one more caller: the background thread stays in [B_run] meanwhile. *)
From stdpp Require Import base list numbers relations.
From Stdlib Require Import Lia.
From S2P Require Import Prelude Scheduler Port.

(** ** Threads *)

(** The members that [background_work_mutex_] guards. *)
Record work := { started : bool; queue : list BackgroundWorkItem }.

(** Where a thread is: a caller of [Schedule] (K), the background thread (B). For the
    specification a caller keeps the items it has put into the queue and the
    background thread the items whose functions have returned. *)
Inductive pc :=
  | K_none (log : list BackgroundWorkItem)
  | K_Lock (item : BackgroundWorkItem) (log : list BackgroundWorkItem)
  | K_started (item : BackgroundWorkItem) (log : list BackgroundWorkItem)
  | K_thread (item : BackgroundWorkItem) (log : list BackgroundWorkItem)
  | K_empty (item : BackgroundWorkItem) (log : list BackgroundWorkItem)
  | K_Signal (item : BackgroundWorkItem) (log : list BackgroundWorkItem)
  | K_emplace (item : BackgroundWorkItem) (log : list BackgroundWorkItem)
  | K_Unlock (log : list BackgroundWorkItem)
  | B_Lock (done : list BackgroundWorkItem)
  | B_while (done : list BackgroundWorkItem)
  | B_Wait (done : list BackgroundWorkItem)
  | B_front (done : list BackgroundWorkItem)
  | B_pop (item : BackgroundWorkItem) (done : list BackgroundWorkItem)
  | B_Unlock (item : BackgroundWorkItem) (done : list BackgroundWorkItem)
  | B_run (item : BackgroundWorkItem) (done : list BackgroundWorkItem).

Definition env_code (l : pc) : instruction (S:=work) (L:=pc) :=
  match l with
  | K_none log => I_local (λ l, ∃ item, l = K_Lock item log)
  | K_Lock item log => I_Lock (K_started item log)
  | K_started item log =>
      I_access (λ s, Some (if started s then (s, K_empty item log)
                           else ({| started := true; queue := queue s |}, K_thread item log)))
  | K_thread item log => I_start (K_empty item log) (B_Lock [])
  | K_empty item log =>
      I_access (λ s, Some (s, match queue s with [] => K_Signal item log | _ => K_emplace item log end))
  | K_Signal item log => I_Signal (K_emplace item log)
  | K_emplace item log =>
      I_access (λ s, Some ({| started := started s; queue := queue s ++ [item] |}, K_Unlock (log ++ [item])))
  | K_Unlock log => I_Unlock (K_none log)
  | B_Lock d => I_Lock (B_while d)
  | B_while d =>
      I_access (λ s, Some (s, match queue s with [] => B_Wait d | _ => B_front d end))
  | B_Wait d => I_Wait (B_while d)
  | B_front d =>
      I_access (λ s, match queue s with [] => None | item :: _ => Some (s, B_pop item d) end)
  | B_pop item d =>
      I_access (λ s, match queue s with
                     | [] => None
                     | _ :: q => Some ({| started := started s; queue := q |}, B_Unlock item d)
                     end)
  | B_Unlock item d => I_Unlock (B_run item d)
  | B_run item d => I_local (λ l, l = B_Lock (d ++ [item]))
  end.

Abbreviation env_state := (monitor (S:=work) (L:=pc)).
Abbreviation env_thread := (thread (L:=pc)).

(** [n] threads that may call [Schedule]. *)
Definition env_new (n : nat) : env_state :=
  {| data := {| started := false; queue := [] |}; holder := None;
     threads := replicate n (Runs (K_none [])) |}.

(** ** What a state says *)

Definition pc_log (l : pc) : list BackgroundWorkItem :=
  match l with
  | K_none log | K_Lock _ log | K_started _ log | K_thread _ log | K_empty _ log | K_Signal _ log
  | K_emplace _ log | K_Unlock log => log
  | _ => []
  end.
Definition pc_done (l : pc) : list BackgroundWorkItem :=
  match l with
  | B_Lock d | B_while d | B_Wait d | B_front d | B_pop _ d | B_Unlock _ d | B_run _ d => d
  | _ => []
  end.
Definition pc_running (l : pc) : list BackgroundWorkItem :=
  match l with B_Unlock item _ | B_run item _ => [item] | _ => [] end.
Definition thread_pc (t : env_thread) : pc := match t with Runs l | Sleeps l | Wakes l => l end.

(** The items of each caller's calls, those taken from the queue and finished, and the
    one taken and not finished. *)
Definition logs (m : env_state) : list (list BackgroundWorkItem) := (λ t, pc_log (thread_pc t)) <$> threads m.
Definition finished_items (m : env_state) : list BackgroundWorkItem := concat ((λ t, pc_done (thread_pc t)) <$> threads m).
Definition running_items (m : env_state) : list BackgroundWorkItem := concat ((λ t, pc_running (thread_pc t)) <$> threads m).

(** ** The states of Scheduler.v *)

Definition caller_outside (t : env_thread) : Prop :=
  match t with Runs (K_none _) | Runs (K_Lock _ _) => True | _ => False end.

(** The background thread, if there is one. *)
Definition background_threads (s : scheduler) : list env_thread :=
  match background s with
  | NotStarted => []
  | Locking => [Runs (B_Lock (finished s))]
  | Waiting => [Sleeps (B_while (finished s))]
  | Woken => [Wakes (B_while (finished s))]
  | Running item => [Runs (B_run item (finished s))]
  end.

Definition mk (d : work) (h : option nat) (cs bg : list env_thread) : env_state :=
  {| data := d; holder := h; threads := cs ++ bg |}.

Definition of_scheduler (s : scheduler) (h : option nat) (cs : list env_thread) : env_state :=
  mk {| started := started_background_thread_ s; queue := background_work_queue_ s |} h cs
     (background_threads s).

Definition caller_logs (cs : list env_thread) : list (list BackgroundWorkItem) :=
  (λ t, pc_log (thread_pc t)) <$> cs.

(** [all] is an interleaving of the callers' items. *)
Definition interleaves (ls : list (list BackgroundWorkItem)) (all : list BackgroundWorkItem) : Prop :=
  concat ls ≡ₚ all ∧ ∀ l, l ∈ ls → l `sublist_of` all.

(** The threads at a moment when the mutex is free. *)
Definition simulates (n : nat) (m : env_state) (s : scheduler) (cs : list env_thread) : Prop :=
  m = of_scheduler s None cs ∧ length cs = n ∧ Forall caller_outside cs ∧ scheduler_inv s ∧
  (background s = NotStarted → finished s = []) ∧ interleaves (caller_logs cs) (items s).

(** ** Lemmas: a call of [Schedule] *)

(** The background threads after the start of one, and after the signal. *)
Definition bg_started (s : scheduler) : list env_thread :=
  if started_background_thread_ s then background_threads s else background_threads s ++ [Runs (B_Lock [])].
Definition bg_signalled (s : scheduler) : list env_thread :=
  match background_work_queue_ s with [] => wake <$> bg_started s | _ => bg_started s end.

(** Inside a call of thread [i] with [item], from the state of [s] and [cs]. *)
Definition caller_at (s : scheduler) (cs : list env_thread) (i : nat) (item : BackgroundWorkItem)
  (log : list BackgroundWorkItem) (m : env_state) : Prop :=
  ∃ l d bg, m = mk d (Some i) (<[i := Runs l]> cs) bg ∧
  let q := background_work_queue_ s in
  match l with
  | K_started x k =>
      x = item ∧ k = log ∧ d = {| started := started_background_thread_ s; queue := q |} ∧
      bg = background_threads s
  | K_thread x k =>
      x = item ∧ k = log ∧ started_background_thread_ s = false ∧ d = {| started := true; queue := q |} ∧
      bg = background_threads s
  | K_empty x k => x = item ∧ k = log ∧ d = {| started := true; queue := q |} ∧ bg = bg_started s
  | K_Signal x k => x = item ∧ k = log ∧ q = [] ∧ d = {| started := true; queue := q |} ∧ bg = bg_started s
  | K_emplace x k => x = item ∧ k = log ∧ d = {| started := true; queue := q |} ∧ bg = bg_signalled s
  | K_Unlock k => k = log ++ [item] ∧ d = {| started := true; queue := q ++ [item] |} ∧ bg = bg_signalled s
  | _ => False
  end.

Lemma mk_put (cs bg : list env_thread) i t :
  i < length cs → <[i := t]> (cs ++ bg) = <[i := t]> cs ++ bg.
Proof. apply insert_app_l. Qed.

Lemma not_sleeping_outside cs : Forall caller_outside cs → Forall (λ t, sleeping t = false) cs.
Proof. intros H. eapply Forall_impl; [exact H|]. by intros [[]| |]. Qed.

Lemma wake_not_sleeping (cs : list env_thread) : Forall (λ t, sleeping t = false) cs → wake <$> cs = cs.
Proof. induction 1 as [|[l|l|l] cs Ht _ IH]; simpl; [done|by f_equal..]. Qed.

(** At most the background thread sleeps, so that one signal is enough. *)
Lemma signal_background (cs bg : list env_thread) ts :
  Forall (λ t, sleeping t = false) cs → length bg ≤ 1 → CondVar_Signal (cs ++ bg) ts →
  ts = cs ++ (wake <$> bg).
Proof.
  intros Hcs Hbg Hs. destruct Hs as [Hn|j l Hj].
  - apply Forall_app in Hn as [_ Hn]. by rewrite wake_not_sleeping.
  - apply lookup_app_Some in Hj as [Hj|[Hle Hj]].
    + rewrite Forall_forall in Hcs. by specialize (Hcs _ (list_elem_of_lookup_2 _ _ _ Hj)).
    + destruct bg as [|t [|t2 bg]]; simpl in Hbg; [done| |lia].
      apply list_lookup_singleton_Some in Hj as [Ej ->]. rewrite insert_app_r_alt by lia.
      by rewrite Ej.
Qed.

Lemma bg_length s : length (background_threads s) ≤ 1.
Proof. unfold background_threads. destruct (background s); simpl; lia. Qed.

Lemma bg_started_length s : scheduler_inv s → length (bg_started s) ≤ 1.
Proof.
  intros (_ & _ & H). unfold bg_started, background_threads. destruct (started_background_thread_ s).
  - apply bg_length.
  - rewrite H by done. simpl. lia.
Qed.

(** The state after the whole call is that after [Scheduler.Schedule]. *)
Lemma Schedule_state s item :
  scheduler_inv s → (background s = NotStarted → finished s = []) →
  background_threads (Schedule item s) = bg_signalled s ∧
  started_background_thread_ (Schedule item s) = true ∧
  background_work_queue_ (Schedule item s) = background_work_queue_ s ++ [item].
Proof.
  destruct s as [st q b f]. intros (H1 & H2 & H3) H4. simpl in *.
  unfold bg_signalled, bg_started, background_threads, Schedule, Signal. simpl.
  destruct st; simpl.
  - destruct q; simpl; destruct b; simpl; done.
  - rewrite H3 in * by done. destruct (H2 eq_refl) as [_ ->]. simpl. by rewrite H4.
Qed.

(** A step of a caller that holds the mutex. *)
Lemma caller_step s cs i item log m m' :
  scheduler_inv s → (background s = NotStarted → finished s = []) → Forall caller_outside cs → i < length cs →
  caller_at s cs i item log m → step env_code i m m' →
  caller_at s cs i item log m' ∨ m' = of_scheduler (Schedule item s) None (<[i := Runs (K_none (log ++ [item]))]> cs).
Proof.
  intros Hs Hf Hcs Hi (l & d & bg & -> & Hl) Hst.
  destruct (step_inv _ _ _ _ Hst) as (t & Ht & H). simpl in Ht.
  rewrite lookup_app_l, list_lookup_insert_eq in Ht by (rewrite ?length_insert; done). injection Ht as <-.
  unfold runs_to in H. destruct l; simpl in Hl; try done; simpl in H.
  - destruct Hl as (-> & -> & -> & ->). destruct H as (_ & s' & l' & [= E] & ->). left. simpl in *.
    rewrite mk_put, list_insert_insert_eq by (by rewrite length_insert).
    destruct (started_background_thread_ s) eqn:Es; injection E as <- <-;
      eexists _, _, _; (split; [reflexivity|]); simpl; [|done]. unfold bg_started. by rewrite Es.
  - destruct Hl as (-> & -> & Es & -> & ->). destruct H as (_ & ->). left. simpl.
    rewrite mk_put, list_insert_insert_eq, <- app_assoc by (by rewrite length_insert).
    eexists _, _, _. split; [reflexivity|]. simpl. unfold bg_started. by rewrite Es.
  - destruct Hl as (-> & -> & -> & ->). destruct H as (_ & s' & l' & [= <- <-] & ->). left. simpl.
    rewrite mk_put, list_insert_insert_eq by (by rewrite length_insert).
    eexists _, _, _. split; [reflexivity|]. unfold bg_signalled.
    destruct (background_work_queue_ s) eqn:Eq; simpl; done.
  - destruct Hl as (-> & -> & Eq & -> & ->). destruct H as (_ & ts & Hsig & ->). left. simpl.
    apply signal_background in Hsig as ->; [|by apply Forall_insert; [apply not_sleeping_outside|]|
      by apply bg_started_length].
    rewrite mk_put, list_insert_insert_eq by (by rewrite length_insert).
    eexists _, _, _. split; [reflexivity|]. simpl. unfold bg_signalled. by rewrite Eq.
  - destruct Hl as (-> & -> & -> & ->). destruct H as (_ & s' & l' & [= <- <-] & ->). left. simpl.
    rewrite mk_put, list_insert_insert_eq by (by rewrite length_insert).
    eexists _, _, _. split; [reflexivity|]. simpl. done.
  - destruct Hl as (-> & -> & ->). destruct H as (_ & ->). right. simpl.
    rewrite mk_put, list_insert_insert_eq by (by rewrite length_insert).
    destruct (Schedule_state s item Hs Hf) as (E1 & E2 & E3). unfold of_scheduler. by rewrite E1, E2, E3.
Qed.

(** ** Lemmas: the background thread *)

(** Inside [BackgroundThreadMain] with the mutex, from the state of [s]. *)
Definition background_at (s : scheduler) (cs : list env_thread) (m : env_state) : Prop :=
  ∃ l d, m = mk d (Some (length cs)) cs [Runs l] ∧ (background s = Locking ∨ background s = Woken) ∧
  let q := background_work_queue_ s in
  let d0 := {| started := started_background_thread_ s; queue := q |} in
  match l with
  | B_while f => f = finished s ∧ d = d0
  | B_Wait f => f = finished s ∧ q = [] ∧ d = d0
  | B_front f => f = finished s ∧ q ≠ [] ∧ d = d0
  | B_pop x f => f = finished s ∧ head q = Some x ∧ d = d0
  | B_Unlock x f =>
      f = finished s ∧ head q = Some x ∧ d = {| started := started_background_thread_ s; queue := tail q |}
  | _ => False
  end.

Lemma background_step s cs m m' :
  background_at s cs m → step env_code (length cs) m m' →
  background_at s cs m' ∨ ∃ s', BackgroundThread_step s = Some s' ∧ m' = of_scheduler s' None cs.
Proof.
  intros (l & d & -> & Hb & Hl) Hst. destruct (step_inv _ _ _ _ Hst) as (t & Ht & H). simpl in Ht.
  rewrite list_lookup_middle in Ht by done. injection Ht as <-.
  assert (Hput : ∀ t', <[length cs := t']> (cs ++ [Runs l]) = cs ++ [t'])
    by (intros t'; by rewrite insert_app_r_alt, Nat.sub_diag by done).
  unfold runs_to in H. destruct l; simpl in Hl; try done; simpl in H.
  - destruct Hl as (-> & ->). destruct H as (_ & s' & l' & [= <- <-] & ->). left. simpl. rewrite Hput.
    eexists _, _. split; [reflexivity|]. split; [done|]. by destruct (background_work_queue_ s) eqn:Eq.
  - destruct Hl as (-> & Eq & ->). destruct H as (_ & ->). right. simpl. rewrite Hput.
    unfold BackgroundThread_step. rewrite Eq. destruct Hb as [-> | ->]; (eexists; split; [reflexivity|done]).
  - destruct Hl as (-> & Eq & ->). destruct H as (_ & s' & l' & Hf & ->). left. simpl in *. rewrite Hput.
    destruct (background_work_queue_ s) as [|x q] eqn:E; [done|]. injection Hf as <- <-.
    eexists _, _. split; [reflexivity|]. split; [done|]. simpl. by rewrite E.
  - destruct Hl as (-> & Eq & ->). destruct H as (_ & s' & l' & Hf & ->). left. simpl in *. rewrite Hput.
    destruct (background_work_queue_ s) as [|x q] eqn:E; [done|]. injection Hf as <- <-.
    eexists _, _. split; [reflexivity|]. split; [done|]. simpl in *. rewrite E. done.
  - destruct Hl as (-> & Eq & ->). destruct H as (_ & ->). right. simpl in *. rewrite Hput.
    unfold BackgroundThread_step. destruct (background_work_queue_ s) as [|x q]; [done|]. injection Eq as <-.
    destruct Hb as [-> | ->]; (eexists; split; [reflexivity|done]).
Qed.

(** ** Lemmas: simulation *)

Lemma interleaves_snoc ls all i log x :
  ls !! i = Some log → interleaves ls all → interleaves (<[i := log ++ [x]]> ls) (all ++ [x]).
Proof.
  intros Hi [Hp Hs]. split.
  - rewrite <- Hp. rewrite <- (take_drop_middle ls i log Hi) at 2.
    rewrite insert_take_drop by (by eapply lookup_lt_Some).
    rewrite !concat_app, !concat_cons, <- !app_assoc. do 2 f_equiv. by rewrite Permutation_app_comm.
  - intros l Hl. apply list_elem_of_lookup in Hl as [j [(-> & <- & _)|[_ Hj]]%list_lookup_insert_Some].
    + apply sublist_app; [|done]. by eapply Hs, list_elem_of_lookup_2.
    + apply sublist_inserts_r. by eapply Hs, list_elem_of_lookup_2.
Qed.

Lemma simulates_Schedule n m s cs i item log :
  simulates n m s cs → cs !! i = Some (Runs (K_Lock item log)) →
  let cs' := <[i := Runs (K_none (log ++ [item]))]> cs in
  simulates n (of_scheduler (Schedule item s) None cs') (Schedule item s) cs'.
Proof.
  intros (-> & Hn & Hcs & Hs & Hf & Hi) Hc cs'. pose proof (scheduler_step_items (Ev_Schedule item) s _ Hs eq_refl) as E.
  split; [done|]. split; [unfold cs'; by rewrite length_insert|]. split; [by apply Forall_insert|].
  split; [by eapply (scheduler_step_inv (Ev_Schedule item))|]. split.
  - unfold Schedule, Signal. simpl. destruct Hs as (_ & _ & H3). destruct (started_background_thread_ s); simpl.
    + destruct (background_work_queue_ s); simpl; [destruct (background s) eqn:E2; simpl; try done; by rewrite E2 in Hf|done].
    + by destruct (background_work_queue_ s).
  - rewrite E. unfold cs', caller_logs. rewrite list_fmap_insert. apply interleaves_snoc; [|done].
    by rewrite list_lookup_fmap, Hc.
Qed.

Lemma simulates_background n m s cs s' :
  simulates n m s cs → BackgroundThread_step s = Some s' → simulates n (of_scheduler s' None cs) s' cs.
Proof.
  intros (-> & Hn & Hcs & Hs & Hf & Hi) E. pose proof (scheduler_step_items Ev_Background s s' Hs E) as Ei.
  split; [done|]. split; [done|]. split; [done|]. split; [by eapply (scheduler_step_inv Ev_Background)|]. split.
  - unfold BackgroundThread_step in E. destruct (background s), (background_work_queue_ s); by simplify_eq/=.
  - rewrite Ei. simpl. by rewrite app_nil_r.
Qed.

Lemma simulates_spurious n m s cs :
  simulates n m s cs → background s = Waiting → simulates n (of_scheduler (Signal s) None cs) (Signal s) cs.
Proof.
  intros (-> & Hn & Hcs & Hs & Hf & Hi) E.
  assert (Scheduler.step Ev_Spurious s = Some (Signal s)) as E1 by (unfold Scheduler.step; by rewrite E).
  pose proof (scheduler_step_items Ev_Spurious s _ Hs E1) as Ei.
  split; [done|]. split; [done|]. split; [done|]. split; [by eapply (scheduler_step_inv Ev_Spurious)|]. split.
  - unfold Signal. simpl. by rewrite E.
  - rewrite Ei. simpl. by rewrite app_nil_r.
Qed.

(** From a moment when the mutex is free: a step outside of critical sections, or the
    first of one. *)
Definition entered (s : scheduler) (cs : list env_thread) (i : nat) (m : env_state) : Prop :=
  (∃ item log, cs !! i = Some (Runs (K_Lock item log)) ∧ caller_at s cs i item log m) ∨
  (i = length cs ∧ background_at s cs m).

Definition moves_on (n : nat) (m : env_state) (s : scheduler) : Prop :=
  ∃ evs s' cs', run evs s = Some s' ∧ simulates n m s' cs'.

Lemma caller_first_step n m s cs i m' l :
  simulates n m s cs → cs !! i = Some (Runs l) → runs_to env_code i l m m' →
  moves_on n m' s ∨ entered s cs i m'.
Proof.
  intros Hsim Hi H. pose proof Hsim as (-> & Hn & Hcs & Hs & Hf & Hil). pose proof (lookup_lt_Some _ _ _ Hi) as Hlt.
  rewrite Forall_forall in Hcs. pose proof (Hcs _ (list_elem_of_lookup_2 _ _ _ Hi)) as Hl.
  unfold runs_to in H. destruct l; try done; simpl in H.
  - destruct H as (l' & [item ->] & ->). left. exists [], s, (<[i := Runs (K_Lock item log)]> cs).
    split; [done|]. split; [unfold put, of_scheduler, mk; simpl; by rewrite mk_put|].
    split; [by rewrite length_insert|]. split; [apply Forall_insert; [by apply Forall_forall|done]|].
    split; [done|]. split; [done|]. unfold caller_logs. rewrite list_fmap_insert. simpl.
    rewrite list_insert_id; [done|]. by rewrite list_lookup_fmap, Hi.
  - destruct H as (_ & ->). right. left. exists item, log. split; [done|]. simpl. rewrite mk_put by done.
    eexists _, _, _. split; [reflexivity|]. done.
Qed.

Lemma background_first_step n m s cs t m' :
  simulates n m s cs → background_threads s = [t] → threads m !! length cs = Some t → step env_code (length cs) m m' →
  moves_on n m' s ∨ entered s cs (length cs) m'.
Proof.
  intros Hsim Hbt Ht Hst. pose proof Hsim as (-> & _).
  assert (Hput : ∀ t', <[length cs := t']> (cs ++ background_threads s) = cs ++ [t'])
    by (intros t'; by rewrite Hbt, insert_app_r_alt, Nat.sub_diag by done).
  destruct (step_inv _ _ _ _ Hst) as (t0 & Ht0 & H). rewrite Ht in Ht0. injection Ht0 as <-.
  unfold background_threads in Hbt. destruct (background s) eqn:Eb; [done|injection Hbt as <-..]; simpl in H.
  - destruct H as (_ & ->). right. right. split; [done|]. simpl. rewrite Hput.
    eexists _, _. split; [reflexivity|]. split; [by left|done].
  - subst m'. left. exists [Ev_Spurious], (Signal s), cs.
    split; [simpl; by rewrite Eb|]. pose proof (simulates_spurious _ _ _ _ Hsim Eb) as H.
    unfold put. simpl. rewrite Hput. unfold of_scheduler, Signal in H |- *. rewrite Eb in H. simpl in H.
    rewrite Eb. exact H.
  - destruct H as (_ & ->). right. right. split; [done|]. simpl. rewrite Hput.
    eexists _, _. split; [reflexivity|]. split; [by right|done].
  - destruct H as (l' & -> & ->). left.
    assert (∃ s', BackgroundThread_step s = Some s' ∧
      of_scheduler s' None cs = put (length cs) (Runs (B_Lock (finished s ++ [item]))) (of_scheduler s None cs))
      as (s' & E & <-).
    { unfold BackgroundThread_step. rewrite Eb. eexists. split; [reflexivity|]. unfold put. simpl. by rewrite Hput. }
    exists [Ev_Background], s', cs. split; [simpl; by rewrite E|]. by eapply simulates_background.
Qed.

Lemma first_step n m s cs i m' :
  simulates n m s cs → step env_code i m m' → moves_on n m' s ∨ entered s cs i m'.
Proof.
  intros Hsim Hst. destruct (step_inv _ _ _ _ Hst) as (t & Hi & H). pose proof Hsim as (E & _ & Hcs & _).
  rewrite E in Hi. simpl in Hi. apply lookup_app_Some in Hi as [Hi|[Hle Hi]].
  - rewrite Forall_forall in Hcs. pose proof (Hcs _ (list_elem_of_lookup_2 _ _ _ Hi)) as Ht.
    destruct t as [l|l|l]; try done. by eapply caller_first_step.
  - assert (i = length cs ∧ background_threads s = [t]) as [-> Hbt].
    { pose proof (bg_length s) as Hb. destruct (background_threads s) as [|t2 [|t3 bg]]; simpl in *; [done| |lia].
      apply list_lookup_singleton_Some in Hi as [? ->]. split; [lia|done]. }
    eapply background_first_step; [done|exact Hbt| |done]. rewrite E. simpl. rewrite Hbt. by apply list_lookup_middle.
Qed.

(** Inside a critical section, and at its end. *)
Lemma entered_step n m1 s cs i m m' :
  simulates n m1 s cs → entered s cs i m → step env_code i m m' → moves_on n m' s ∨ entered s cs i m'.
Proof.
  intros Hsim He Hst. pose proof Hsim as (_ & Hn & Hcs & Hs & Hf & _). destruct He as [(item & log & Hi & Hc)|[-> Hb]].
  - destruct (caller_step s cs i item log m m' Hs Hf Hcs) as [Hc'| ->]; [by eapply lookup_lt_Some|done|done| |].
    + right. left. eauto.
    + left. exists [Ev_Schedule item], (Schedule item s), (<[i := Runs (K_none (log ++ [item]))]> cs).
      split; [done|]. by eapply simulates_Schedule.
  - destruct (background_step s cs m m' Hb Hst) as [Hb'|(s' & E & ->)].
    + right. by right.
    + left. exists [Ev_Background], s', cs. split; [simpl; by rewrite E|]. by eapply simulates_background.
Qed.

Lemma caller_at_holder s cs i item log m : caller_at s cs i item log m → holder m = Some i.
Proof. by intros (l & d & bg & -> & _). Qed.
Lemma background_at_holder s cs m : background_at s cs m → holder m = Some (length cs).
Proof. by intros (l & d & -> & _). Qed.
Lemma entered_holder s cs i m : entered s cs i m → holder m = Some i.
Proof. intros [(? & ? & _ & H)|[-> H]]; [by eapply caller_at_holder|by eapply background_at_holder]. Qed.

Lemma owns_entered n m s cs i m' :
  simulates n m s cs → rtc (own env_code i) m m' → m' = m ∨ entered s cs i m'.
Proof.
  intros Hsim Hr. revert m' Hr. refine (rtc_ind_r _ _ _ _); [by left|]. intros m1 m' _ [Hst Hh] [->|He]; right.
  - destruct (first_step _ _ _ _ _ _ Hsim Hst) as [(evs & s' & cs' & _ & (-> & _))|]; [done|done].
  - destruct (entered_step _ _ _ _ _ _ _ Hsim He Hst) as [(evs & s' & cs' & _ & (-> & _))|]; [done|done].
Qed.

Lemma atomic_simulates n m s cs i m' : simulates n m s cs → atomic env_code i m m' → moves_on n m' s.
Proof.
  intros Hsim (_ & Hh & m1 & Hr & Hst). destruct (owns_entered _ _ _ _ _ _ Hsim Hr) as [->|He].
  - destruct (first_step _ _ _ _ _ _ Hsim Hst) as [|He%entered_holder]; [done|congruence].
  - destruct (entered_step _ _ _ _ _ _ _ Hsim He Hst) as [|He'%entered_holder]; [done|congruence].
Qed.

Lemma run_app evs1 evs2 s : run (evs1 ++ evs2) s = (s ← run evs1 s; run evs2 s).
Proof.
  revert s. induction evs1 as [|e evs IH]; intros s; [done|]. cbn [run app].
  destruct (Scheduler.step e s); [apply IH|done].
Qed.

Lemma simulates_new n : simulates n (env_new n) scheduler_new (replicate n (Runs (K_none []))).
Proof.
  split; [unfold env_new, of_scheduler, mk, background_threads; simpl; by rewrite app_nil_r|].
  split; [apply length_replicate|]. split; [by apply Forall_replicate|].
  split; [apply scheduler_inv_new|]. split; [done|].
  assert (∀ l, l ∈ caller_logs (replicate n (Runs (K_none []))) → l = []) as Hl.
  { intros l (t & -> & Ht)%list_elem_of_fmap. apply elem_of_replicate in Ht as [-> _]. done. }
  split; [|intros l Hin; rewrite (Hl l Hin); done]. simpl.
  induction (caller_logs _) as [|l ls IH]; simpl; [done|]. rewrite (Hl l) by (apply elem_of_cons; by left). simpl.
  apply IH. intros l' Hin. apply Hl, elem_of_cons. by right.
Qed.

(** Every execution, up to the critical section that is under way, is one of
    Scheduler.v. *)
Lemma threads_simulate n m :
  rtc (any_step env_code) (env_new n) m →
  ∃ evs s cs m1, run evs scheduler_new = Some s ∧ simulates n m1 s cs ∧
    match holder m with None => m = m1 | Some i => entered s cs i m end.
Proof.
  intros Hr. destruct (step_reduction env_code) with (m0 := env_new n) (m := m) as (m1 & Hr1 & Hh1 & Hm);
    [intros [] l' new [= <- <-]; by eexists|done|done|].
  assert (∃ evs s cs, run evs scheduler_new = Some s ∧ simulates n m1 s cs) as (evs & s & cs & Hrun & Hsim).
  { clear Hm Hr. revert m1 Hr1 Hh1. refine (rtc_ind_r _ _ _ _).
    - intros _. exists [], scheduler_new. eexists. split; [done|apply simulates_new].
    - intros m2 m3 _ [i Ha] IH Hh. destruct IH as (evs & s & cs & Hrun & Hsim); [apply Ha|].
      destruct (atomic_simulates _ _ _ _ _ _ Hsim Ha) as (evs' & s' & cs' & Hrun' & Hsim').
      exists (evs ++ evs'), s', cs'. split; [|done]. rewrite run_app, Hrun. done. }
  exists evs, s, cs, m1. split; [done|]. split; [done|]. destruct (holder m) as [i|] eqn:Eh; [|done].
  destruct (owns_entered _ _ _ _ _ _ Hsim Hm) as [->|]; [congruence|done].
Qed.

(** ** Lemmas: what the states say *)

Definition t_log (t : env_thread) := pc_log (thread_pc t).
Definition t_done (t : env_thread) := pc_done (thread_pc t).
Definition t_running (t : env_thread) := pc_running (thread_pc t).

(** Threads that hold no mutex and need none. *)
Definition idle (t : env_thread) : Prop :=
  match t with
  | Runs (K_none _) | Runs (K_Lock _ _) | Runs (B_Lock _) | Runs (B_run _ _) | Sleeps _ | Wakes _ => True
  | _ => False
  end.

Lemma idle_legal m j t : threads m !! j = Some t → idle t → holder m ≠ Some j → legal env_code m j.
Proof. intros Hj Ht Hh l Hl. rewrite Hj in Hl. injection Hl as ->. by destruct l. Qed.

Lemma concat_nil {A B} (f : A → list B) l : Forall (λ x, f x = []) l → concat (f <$> l) = [].
Proof. induction 1 as [|x l Hx _ IH]; [done|]. by rewrite fmap_cons, concat_cons, Hx, IH. Qed.

Lemma interleaves_nil ls ls' all :
  Forall (λ l, l = []) ls' → interleaves ls all → interleaves (ls ++ ls') all.
Proof.
  intros Hn [Hp Hs]. split.
  - rewrite concat_app. assert (concat ls' = []) as ->; [|by rewrite app_nil_r].
    clear -Hn. induction Hn as [|l ls' -> _ IH]; done.
  - intros l [Hl|Hl]%elem_of_app; [by apply Hs|]. rewrite Forall_forall in Hn. rewrite (Hn l Hl). apply sublist_nil_l.
Qed.

(** The background threads at the stages of a call say the same. *)
Record background_says (s : scheduler) (bg : list env_thread) : Prop := {
  bs_log : Forall (λ t, t_log t = []) bg;
  bs_done : concat (t_done <$> bg) = finished s;
  bs_running : concat (t_running <$> bg) = running s;
  bs_idle : Forall idle bg }.

Lemma background_says_wake s bg : background_says s bg → background_says s (wake <$> bg).
Proof.
  assert (∀ t : env_thread, thread_pc (wake t) = thread_pc t) as Ht by (by intros []).
  assert (∀ f : pc → list BackgroundWorkItem,
    (λ t, f (thread_pc t)) <$> (wake <$> bg) = (λ t, f (thread_pc t)) <$> bg) as Hf.
  { intros f. rewrite <- list_fmap_compose. apply list_fmap_ext. intros j t _. simpl. by rewrite Ht. }
  intros [H1 H2 H3 H4]. split.
  - apply Forall_fmap. eapply Forall_impl; [exact H1|]. intros t. unfold t_log. simpl. by rewrite Ht.
  - unfold t_done in *. by rewrite Hf.
  - unfold t_running in *. by rewrite Hf.
  - apply Forall_fmap. eapply Forall_impl; [exact H4|]. by intros [l|l|l].
Qed.

Lemma background_says_threads s :
  (background s = NotStarted → finished s = []) → background_says s (background_threads s).
Proof.
  intros Hf. unfold background_threads. split; destruct (background s) eqn:E; repeat constructor; simpl;
    unfold t_done, t_running, running; simpl; rewrite ?E, ?app_nil_r; try done. by rewrite Hf.
Qed.

Lemma background_says_started s :
  scheduler_inv s → (background s = NotStarted → finished s = []) → background_says s (bg_started s).
Proof.
  intros (_ & _ & H3) Hf. unfold bg_started. destruct (started_background_thread_ s); [by apply background_says_threads|].
  specialize (H3 eq_refl). unfold background_threads. rewrite H3. simpl.
  split; repeat constructor; simpl; [by rewrite Hf|]. unfold running. by rewrite H3.
Qed.

Lemma background_says_signalled s :
  scheduler_inv s → (background s = NotStarted → finished s = []) → background_says s (bg_signalled s).
Proof.
  intros Hs Hf. unfold bg_signalled. pose proof (background_says_started s Hs Hf).
  by destruct (background_work_queue_ s); [apply background_says_wake|].
Qed.

(** A state with callers [cs]. *)
Lemma mk_says s d h cs bg all :
  background_says s bg → Forall (λ t, t_done t = [] ∧ t_running t = []) cs → interleaves (caller_logs cs) all →
  interleaves (logs (mk d h cs bg)) all ∧ finished_items (mk d h cs bg) = finished s ∧
  running_items (mk d h cs bg) = running s.
Proof.
  intros [H1 H2 H3 _] Hcs Hi. unfold logs, finished_items, running_items. simpl. rewrite !fmap_app, !concat_app.
  split; [apply interleaves_nil; [by apply Forall_fmap|done]|].
  split; (rewrite (concat_nil _ cs); [done|]); (eapply Forall_impl; [exact Hcs|]); by intros t [? ?].
Qed.

Lemma outside_says cs : Forall caller_outside cs → Forall (λ t, t_done t = [] ∧ t_running t = []) cs.
Proof. intros H. eapply Forall_impl; [exact H|]. by intros [[]| |]. Qed.

(** What is claimed of every state. *)
Record says (n : nat) (m : env_state) (s : scheduler) (all : list BackgroundWorkItem) : Prop := {
  sa_legal i : legal env_code m i;
  sa_logs : interleaves (logs m) all;
  sa_items : finished_items m ++ running_items m ++ queue (data m) = all;
  sa_finished : finished_items m = finished s;
  sa_step : finished_items m ≠ all →
    ∃ i t m', (holder m = Some i ∨ n ≤ i) ∧ threads m !! i = Some t ∧ sleeping t = false ∧ step env_code i m m' }.

Lemma idle_outside cs : Forall caller_outside cs → Forall idle cs.
Proof. intros H. eapply Forall_impl; [exact H|]. by intros [[]| |]. Qed.

Lemma idle_lookup ts j t : Forall idle ts → ts !! j = Some t → idle t.
Proof. rewrite Forall_forall. intros H Hj. by eapply H, list_elem_of_lookup_2. Qed.

(** When the mutex is free: there is a background thread that can take it or run. *)
Lemma says_free n m s cs : simulates n m s cs → says n m s (items s).
Proof.
  intros (-> & Hn & Hcs & Hs & Hf & Hi). pose proof (background_says_threads s Hf) as Hb.
  destruct (mk_says s {| started := started_background_thread_ s; queue := background_work_queue_ s |} None cs
              (background_threads s) (items s) Hb (outside_says _ Hcs) Hi) as (H1 & H2 & H3).
  fold (of_scheduler s None cs) in H1, H2, H3. split; [| | |done|].
  - intros i. destruct (threads (of_scheduler s None cs) !! i) as [t|] eqn:Hti; [|intros l Hl; congruence].
    apply (idle_legal _ _ t Hti); [|done]. apply (idle_lookup _ _ _ (proj2 (Forall_app _ _ _) (conj (idle_outside _ Hcs) (bs_idle _ _ Hb))) Hti).
  - done.
  - by rewrite H2, H3.
  - rewrite H2. intros Hne. assert (outstanding s ≠ 0) as Hout.
    { unfold outstanding, items in *. intros E. apply Hne. destruct (running s ++ _); [|done]. by rewrite app_nil_r. }
    destruct (background_enabled s Hs Hout) as [s' Es]. unfold of_scheduler, background_threads, BackgroundThread_step in *.
    destruct (background s) eqn:Eb; try done; clear Es; eexists (length cs), _, _;
      (split; [right; lia|]); (split; [by apply list_lookup_middle|]); (split; [done|]).
    + eapply s_lock; [by apply list_lookup_middle|done|done].
    + eapply s_relock; [by apply list_lookup_middle|done].
    + eapply s_local; [by apply list_lookup_middle|done|done].
Qed.

(** While thread [i] is inside: the others are not, and it can go on. *)
Lemma says_entered n m s cs i d bg l all :
  i < length cs ∧ Forall idle bg ∧ m = mk d (Some i) (<[i := Runs l]> cs) bg ∨
  i = length cs ∧ m = mk d (Some i) cs [Runs l] →
  Forall idle cs → legal env_code m i → (∀ next, env_code l ≠ I_local next) → interleaves (logs m) all →
  finished_items m ++ running_items m ++ queue (data m) = all → finished_items m = finished s → says n m s all.
Proof.
  intros Hm Hcs Hleg Hnl Hlog Hit Hfin.
  assert (threads m !! i = Some (Runs l) ∧ holder m = Some i ∧
          ∀ j t, j ≠ i → threads m !! j = Some t → idle t) as (Hti & Hh & Hoth).
  { destruct Hm as [(Hlt & Hbg & ->)|[-> ->]]; simpl.
    - rewrite lookup_app_l, list_lookup_insert_eq by (rewrite ?length_insert; done).
      split; [done|]. split; [done|]. intros j t Hj [Ht|[_ Ht]]%lookup_app_Some.
      + rewrite list_lookup_insert_ne in Ht by done. by eapply idle_lookup.
      + by eapply (idle_lookup bg).
    - split; [by apply list_lookup_middle|]. split; [done|]. intros j t Hj [Ht|[Hle Ht]]%lookup_app_Some.
      + by eapply idle_lookup.
      + apply list_lookup_singleton_Some in Ht as [? _]. lia. }
  split; try done.
  - intros j. destruct (decide (j = i)) as [->|Hj]; [done|].
    destruct (threads m !! j) as [t|] eqn:Ht; [|intros k Hk; congruence].
    apply (idle_legal _ _ t Ht); [by eapply Hoth|congruence].
  - intros _. destruct (holder_steps env_code m i l Hh Hti Hleg) as [m' Hst].
    { intros next E. by destruct (Hnl next). }
    exists i, (Runs l), m'. split; [by left|]. done.
Qed.

Lemma says_caller n m s cs i item log m1 :
  simulates n m1 s cs → cs !! i = Some (Runs (K_Lock item log)) → caller_at s cs i item log m →
  ∃ all, says n m s all.
Proof.
  intros (-> & Hn & Hcs & Hs & Hf & Hil) Hi (l & d & bg & -> & Hl). pose proof (lookup_lt_Some _ _ _ Hi) as Hlt.
  assert (Hold : pc_log l = log → interleaves (caller_logs (<[i := Runs l]> cs)) (items s)).
  { intros E. unfold caller_logs.
    rewrite list_fmap_insert, list_insert_id; [done|]. rewrite list_lookup_fmap, Hi. simpl. by rewrite E. }
  assert (Hsays : Forall (λ t, t_done t = [] ∧ t_running t = []) (<[i := Runs l]> cs)).
  { apply Forall_insert; [by apply outside_says|]. by destruct l. }
  assert (Hgo : ∀ all, background_says s bg → interleaves (caller_logs (<[i := Runs l]> cs)) all →
    finished s ++ running s ++ queue d = all → (∀ next, env_code l ≠ I_local next) →
    legal env_code (mk d (Some i) (<[i := Runs l]> cs) bg) i → ∃ all, says n (mk d (Some i) (<[i := Runs l]> cs) bg) s all).
  { intros all Hb Hint Hq Hnl Hleg. exists all.
    destruct (mk_says s d (Some i) _ bg all Hb Hsays Hint) as (H1 & H2 & H3).
    apply (says_entered n _ s cs i d bg l); try done.
    - left. split; [done|]. split; [apply Hb|done].
    - by apply idle_outside.
    - by rewrite H2, H3. }
  assert (Hpc : ∀ k, threads (mk d (Some i) (<[i := Runs l]> cs) bg) !! i = Some (Runs k) → k = l).
  { intros k. simpl. rewrite lookup_app_l, list_lookup_insert_eq by (rewrite ?length_insert; done). congruence. }
  destruct l; try done; simpl in Hl.
  - destruct Hl as (-> & -> & -> & ->). specialize (Hold eq_refl).
    apply (Hgo (items s)); [by apply background_says_threads|done|done|done|]. intros k ->%Hpc. simpl. by eauto.
  - destruct Hl as (-> & -> & Es & -> & ->). specialize (Hold eq_refl).
    apply (Hgo (items s)); [by apply background_says_threads|done|done|done|]. by intros k ->%Hpc.
  - destruct Hl as (-> & -> & -> & ->). specialize (Hold eq_refl).
    apply (Hgo (items s)); [by apply background_says_started|done|done|done|]. intros k ->%Hpc. simpl. by eauto.
  - destruct Hl as (-> & -> & Eq & -> & ->). specialize (Hold eq_refl).
    apply (Hgo (items s)); [by apply background_says_started|done|done|done|]. by intros k ->%Hpc.
  - destruct Hl as (-> & -> & -> & ->). specialize (Hold eq_refl).
    apply (Hgo (items s)); [by apply background_says_signalled|done|done|done|]. intros k ->%Hpc. simpl. by eauto.
  - destruct Hl as (-> & -> & ->). apply (Hgo (items s ++ [item])); [by apply background_says_signalled| | |done|].
    + unfold caller_logs. rewrite list_fmap_insert. apply interleaves_snoc; [|done]. by rewrite list_lookup_fmap, Hi.
    + unfold items. by rewrite <- !app_assoc.
    + by intros k ->%Hpc.
Qed.

Lemma says_background n m s cs m1 :
  simulates n m1 s cs → background_at s cs m → says n m s (items s).
Proof.
  intros (-> & Hn & Hcs & Hs & Hf & Hil) (l & d & -> & Hb & Hl).
  assert (running s = []) as Er by (unfold running; by destruct Hb as [-> | ->]).
  assert (Hpc : ∀ k, threads (mk d (Some (length cs)) cs [Runs l]) !! length cs = Some (Runs k) → k = l).
  { intros k. simpl. rewrite list_lookup_middle by done. congruence. }
  assert (Hlog : interleaves (logs (mk d (Some (length cs)) cs [Runs l])) (items s)).
  { unfold logs. simpl. rewrite fmap_app. apply interleaves_nil; [|done]. constructor; [|done]. by destruct l. }
  assert (Hitems : finished_items (mk d (Some (length cs)) cs [Runs l]) = pc_done l ∧
                   running_items (mk d (Some (length cs)) cs [Runs l]) = pc_running l).
  { unfold finished_items, running_items. simpl. rewrite !fmap_app, !concat_app.
    split; (rewrite (concat_nil _ cs);
      [simpl; by rewrite app_nil_r|eapply Forall_impl; [exact (outside_says _ Hcs)|]; by intros t [? ?]]). }
  destruct Hitems as [E1 E2].
  apply (says_entered n _ s cs (length cs) d [] l); [by right|by apply idle_outside| |by destruct l|done| |].
  - intros k ->%Hpc. destruct l; simpl in Hl; try done; simpl.
    + destruct Hl as (_ & Hq & ->). simpl. split; [done|]. destruct (background_work_queue_ s); [done|by eexists].
    + destruct Hl as (_ & Hq & ->). simpl. split; [done|]. destruct (background_work_queue_ s); [done|by eexists].
  - rewrite E1, E2. unfold items. rewrite Er. simpl.
    destruct l; simpl in Hl; try done; simpl; destruct Hl as (-> & Hq); [by subst d|by destruct Hq as [_ ->]..|].
    destruct Hq as [Hq ->]. simpl. destruct (background_work_queue_ s); [done|]. by injection Hq as ->.
  - rewrite E1. destruct l; simpl in Hl; try done; by destruct Hl as [-> _].
Qed.

(** ** Property *)

(** C20: any number of threads calling [Schedule] and the background thread, one
    instruction at a time: in every reachable state no thread touches the guarded
    members, signals or waits without the mutex, locks it twice, releases it unheld, or
    takes from an empty queue; the items of all calls, in an order that keeps
    the order of each caller, are those finished, the one running and those in the queue;
    the executions are those of the atomic steps of Scheduler.v; and while
    anything is outstanding, the holder of the mutex or the background thread can take
    a step, so there is no deadlock and no lost wake-up. *)
Theorem PosixEnv_threads n m :
  rtc (any_step env_code) (env_new n) m →
  ∃ evs s all,
    (∀ i, legal env_code m i) ∧
    interleaves (logs m) all ∧ finished_items m ++ running_items m ++ queue (data m) = all ∧
    run evs scheduler_new = Some s ∧ finished s = finished_items m ∧
    (finished_items m ≠ all →
     ∃ i t m', (holder m = Some i ∨ n ≤ i) ∧ threads m !! i = Some t ∧ sleeping t = false ∧
               step env_code i m m').
Proof.
  intros Hr. destruct (threads_simulate n m Hr) as (evs & s & cs & m1 & Hrun & Hsim & Hm).
  assert (∃ all, says n m s all) as (all & Hall).
  { destruct (holder m) as [i|].
    - destruct Hm as [(item & log & Hi & Hc)|[-> Hb]]; [by eapply says_caller|].
      eexists. by eapply says_background.
    - subst m1. eexists. by eapply says_free. }
  exists evs, s, all. destruct Hall as [H1 H2 H3 H4 H5]. by split_and!.
Qed.

(** ** Witness: two callers, the second one waiting for the mutex *)

Lemma PosixEnv_threads_witness :
  let a := {| function := 1; arg := 10 |} in
  let m := {| data := {| started := true; queue := [a] |}; holder := Some 0;
              threads := [Runs (K_Unlock [a]); Runs (K_Lock a []); Runs (B_Lock [])] |} in
  rtc (any_step env_code) (env_new 2) m ∧
  ∃ evs s, run evs scheduler_new = Some s ∧ finished s = finished_items m.
Proof.
  intros a m. assert (rtc (any_step env_code) (env_new 2) m) as Hr.
  { eapply rtc_l; [exists 0; eapply s_local; [reflexivity|reflexivity|exists a; reflexivity]|].
    eapply rtc_l; [exists 1; eapply s_local; [reflexivity|reflexivity|exists a; reflexivity]|].
    eapply rtc_l; [exists 0; eapply s_lock; reflexivity|].
    eapply rtc_l; [exists 0; eapply s_access; reflexivity|].
    eapply rtc_l; [exists 0; eapply s_start; reflexivity|].
    eapply rtc_l; [exists 0; eapply s_access; reflexivity|].
    eapply rtc_l; [exists 0; eapply s_signal; [reflexivity|reflexivity|reflexivity|]|].
    { apply signal_none. repeat constructor. }
    eapply rtc_l; [exists 0; eapply s_access; reflexivity|]. apply rtc_refl. }
  destruct (PosixEnv_threads 2 m Hr) as (evs & s & all & _ & _ & _ & Hrun & Hf & _).
  split; [exact Hr|]. exists evs, s. split; [exact Hrun|exact Hf].
Defined.
