(* ===== verification/PosixFiles.v ===== *)
(** * Files of the POSIX environment (util/env_posix.cpp)

    The system calls are a class over the state [W] of the operating system, with
    what the file classes rely on as the laws of a second class.  The loops that
    retry interrupted calls run on fuel: the laws bound the interruptions, and the
    theorems show that enough fuel gives a result.  [None] is a failed assertion,
    an access outside of a buffer, or not enough fuel. *)
From Stdlib Require Import ZArith Lia.
From Stdlib Require Import Strings.Byte.
From S2P Require Import Prelude Slice Coding Logging Status Limiter.
From stdpp Require Import base gmap numbers strings list.

#[local] Open Scope Z_scope.

(** ** System calls *)

(** A result, or -1 with [errno]. *)
Inductive sysret (A : Type) := Ret (a : A) | Errno (e : Z).
Arguments Ret {A}.
Arguments Errno {A}.

(** The flags the environment opens files with, each with [kOpenBaseFlags]. *)
Inductive open_flags := O_RDONLY | O_TRUNC_WRONLY_CREAT | O_APPEND_WRONLY_CREAT | O_RDWR_CREAT.

(** [struct flock], with the constants of fcntl.h. *)
Inductive lock_type := F_WRLCK | F_UNLCK.
Inductive seek_whence := SEEK_SET | SEEK_CUR | SEEK_END.
Record flock := { l_type : lock_type; l_whence : seek_whence; l_start : Z; l_len : Z }.

(** What the platform defines. *)
Class Platform := {
  strerror : Z → bytes;
  ENOENT : Z; EINTR : Z; EINVAL : Z;
  HAVE_FULLFSYNC : bool }.

(** [sys_sync] is [fdatasync] or [fsync], as configured; [sys_setlk] is [fcntl] with
    [F_SETLK]. *)
Class Posix (W : Type) := {
  sys_open : bytes → open_flags → W → sysret Z * W;
  sys_close : Z → W → sysret unit * W;
  sys_read : Z → Z → W → sysret bytes * W;
  sys_pread : Z → Z → Z → W → sysret bytes * W;
  sys_lseek : Z → Z → W → sysret Z * W;
  sys_write : Z → bytes → W → sysret Z * W;
  sys_sync : Z → W → sysret unit * W;
  sys_fullfsync : Z → W → sysret unit * W;
  sys_mmap : Z → Z → W → sysret bytes * W;
  sys_munmap : bytes → W → W;
  sys_stat : bytes → W → sysret Z * W;
  sys_access : bytes → W → sysret unit * W;
  sys_readdir : bytes → W → sysret (list bytes) * W;
  sys_unlink : bytes → W → sysret unit * W;
  sys_mkdir : bytes → W → sysret unit * W;
  sys_rmdir : bytes → W → sysret unit * W;
  sys_rename : bytes → bytes → W → sysret unit * W;
  sys_setlk : Z → flock → W → sysret unit * W }.
#[export] Hint Mode Posix ! : typeclass_instances.

(** [written w fd]: the bytes written to an open file; [pending w] bounds the
    interruptions, and the writes of nothing, still to come. *)
Class PosixLaws (W : Type) `{Platform} `{Posix W} := {
  written : W → Z → bytes;
  is_open : W → Z → Prop;
  pending : W → nat;
  law_sys_read fd n w r w' : sys_read fd n w = (r, w') →
    (∀ fd', written w' fd' = written w fd') ∧ (∀ fd', is_open w fd' → is_open w' fd') ∧
    match r with
    | Ret d => Z.of_nat (length d) <= Z.max 0 n
    | Errno e => e = EINTR → (pending w' < pending w)%nat
    end;
  law_sys_write fd d w r w' : sys_write fd d w = (r, w') →
    (∀ fd', fd' ≠ fd → written w' fd' = written w fd') ∧ (∀ fd', is_open w fd' → is_open w' fd') ∧
    (pending w' <= pending w)%nat ∧
    match r with
    | Ret k => 0 <= k <= Z.of_nat (length d) ∧ written w' fd = written w fd ++ take (Z.to_nat k) d ∧
               (k = 0 → d ≠ [] → (pending w' < pending w)%nat)
    | Errno e => written w' fd = written w fd ∧ (e = EINTR → (pending w' < pending w)%nat)
    end;
  law_sys_sync fd w r w' : (sys_sync fd w = (r, w') ∨ sys_fullfsync fd w = (r, w')) →
    (∀ fd', written w' fd' = written w fd') ∧ (∀ fd', is_open w fd' → is_open w' fd') ∧
    (pending w' <= pending w)%nat;
  law_sys_open p fl w r w' : sys_open p fl w = (r, w') →
    (∀ fd', is_open w fd' → written w' fd' = written w fd' ∧ is_open w' fd' ∧ r ≠ Ret fd') ∧
    (∀ fd, r = Ret fd → is_open w' fd ∧ 0 <= fd) ∧ (pending w' <= pending w)%nat;
  law_sys_close fd w r w' : sys_close fd w = (r, w') →
    (∀ fd', written w' fd' = written w fd') ∧ (∀ fd', fd' ≠ fd → is_open w fd' → is_open w' fd') ∧
    (pending w' <= pending w)%nat }.
#[export] Hint Mode PosixLaws ! - - : typeclass_instances.

Section Files.
Context {W : Type} `{PF : Platform} `{HP : Posix W}.

(** ** Errors *)

Definition PosixError (context : bytes) (error_number : Z) : Status :=
  if error_number =? ENOENT then NotFound context (strerror error_number)
  else IOError context (strerror error_number).

(** ** PosixSequentialFile *)

Record PosixSequentialFile := { seq_fd_ : Z; seq_filename_ : bytes }.

(** The [while (true)] loop of [Read]: the status, [*result] if it is set, and
    [scratch]. *)
Fixpoint PosixSequential_Read (fuel : nat) (f : PosixSequentialFile) (n : Z) (scratch : bytes) (w : W) :
  option (Status * option bytes * bytes * W) :=
  match fuel with
  | O => None
  | S fuel =>
      match sys_read (seq_fd_ f) n w with
      | (Errno e, w) =>
          if e =? EINTR then PosixSequential_Read fuel f n scratch w
          else Some (PosixError (seq_filename_ f) e, None, scratch, w)
      | (Ret d, w) => scratch ← mem_write scratch 0 d; Some (Status_OK, Some d, scratch, w)
      end
  end.

Definition PosixSequential_Skip (f : PosixSequentialFile) (n : Z) (w : W) : Status * W :=
  match sys_lseek (seq_fd_ f) n w with
  | (Errno e, w) => (PosixError (seq_filename_ f) e, w)
  | (Ret _, w) => (Status_OK, w)
  end.

Definition PosixSequential_delete (f : PosixSequentialFile) (w : W) : W := snd (sys_close (seq_fd_ f) w).

(** ** PosixRandomAccessFile *)

Record PosixRandomAccessFile := {
  has_permanent_fd_ : bool; ra_fd_ : Z; ra_filename_ : bytes }.

(** The constructor: the descriptor stays open if the limiter allows it. *)
Definition PosixRandomAccess_new (filename : bytes) (fd : Z) (fd_limiter : Limiter) (w : W) :
  option (PosixRandomAccessFile * Limiter * W) :=
  '(has_permanent_fd, l) ← Acquire fd_limiter;
  Some ({| has_permanent_fd_ := has_permanent_fd; ra_fd_ := if has_permanent_fd : bool then fd else -1;
           ra_filename_ := filename |}, l,
        if has_permanent_fd then w else snd (sys_close fd w)).

Definition PosixRandomAccess_delete (f : PosixRandomAccessFile) (fd_limiter : Limiter) (w : W) :
  option (Limiter * W) :=
  if has_permanent_fd_ f
  then if negb (ra_fd_ f =? -1)
       then l ← Release fd_limiter; Some (l, snd (sys_close (ra_fd_ f) w)) else None
  else Some (fd_limiter, w).

(** [pread] and the close of a temporary descriptor. *)
Definition pread_close (f : PosixRandomAccessFile) (fd offset n : Z) (scratch : bytes) (w : W) :
  option (Status * option bytes * bytes * W) :=
  if fd =? -1 then None
  else
    let '(r, w) := sys_pread fd n offset w in
    '(status, result, scratch) ←
      match r with
      | Ret d => scratch ← mem_write scratch 0 d; Some (Status_OK, d, scratch)
      | Errno e => Some (PosixError (ra_filename_ f) e, [], scratch)
      end;
    if negb (has_permanent_fd_ f)
    then if fd =? ra_fd_ f then None else Some (status, Some result, scratch, snd (sys_close fd w))
    else Some (status, Some result, scratch, w).

Definition PosixRandomAccess_Read (f : PosixRandomAccessFile) (offset n : Z) (scratch : bytes) (w : W) :
  option (Status * option bytes * bytes * W) :=
  if negb (has_permanent_fd_ f)
  then match sys_open (ra_filename_ f) O_RDONLY w with
       | (Errno e, w) => Some (PosixError (ra_filename_ f) e, None, scratch, w)
       | (Ret fd, w) => pread_close f fd offset n scratch w
       end
  else pread_close f (ra_fd_ f) offset n scratch w.

(** ** PosixMmapReadableFile *)

(** The mapped region is its bytes. *)
Record PosixMmapReadableFile := { mmap_base_ : bytes; length_ : Z; mmap_filename_ : bytes }.

Definition PosixMmap_Read (f : PosixMmapReadableFile) (offset n : Z) : option (Status * bytes) :=
  if length_ f <? u64 (offset + n) then Some (PosixError (mmap_filename_ f) EINVAL, [])
  else d ← mem_read (mmap_base_ f) (Z.to_nat offset) (Z.to_nat n); Some (Status_OK, d).

Definition PosixMmap_delete (f : PosixMmapReadableFile) (mmap_limiter : Limiter) (w : W) :
  option (Limiter * W) :=
  l ← Release mmap_limiter; Some (l, sys_munmap (mmap_base_ f) w).

(** ** PosixWritableFile *)

Definition kWritableFileBufferSize : Z := 65536.

Record PosixWritableFile := {
  buf_ : bytes; pos_ : Z; fd_ : Z; is_manifest_ : bool; filename_ : bytes; dirname_ : bytes }.

Definition set_buf (f : PosixWritableFile) (buf : bytes) (pos : Z) : PosixWritableFile :=
  {| buf_ := buf; pos_ := pos; fd_ := fd_ f; is_manifest_ := is_manifest_ f;
     filename_ := filename_ f; dirname_ := dirname_ f |}.

(** [rfind] and [find] of a character. *)
Fixpoint rfind (c : Byte.byte) (s : bytes) : option nat :=
  match s with
  | [] => None
  | x :: s => match rfind c s with
              | Some i => Some (S i)
              | None => if decide (x = c) then Some O else None
              end
  end.
Definition contains_from (c : Byte.byte) (s : bytes) (i : nat) : bool := bool_decide (c ∈ drop i s).

Definition slash : Byte.byte := z2b 47.

Definition Dirname (filename : bytes) : option bytes :=
  match rfind slash filename with
  | None => Some (str ".")
  | Some separator_pos =>
      if contains_from slash filename (separator_pos + 1) then None
      else Some (take separator_pos filename)
  end.

Definition Basename (filename : bytes) : option bytes :=
  match rfind slash filename with
  | None => Some filename
  | Some separator_pos =>
      if contains_from slash filename (separator_pos + 1) then None
      else mem_read filename (separator_pos + 1) (length filename - separator_pos - 1)
  end.

Definition IsManifest (filename : bytes) : option bool :=
  b ← Basename filename; Some (Slice_starts_with b (str "MANIFEST")).

(** [junk] is what the buffer of a new object holds. *)
Definition PosixWritable_new (junk : nat → Byte.byte) (filename : bytes) (fd : Z) :
  option PosixWritableFile :=
  is_manifest ← IsManifest filename;
  dirname ← Dirname filename;
  Some {| buf_ := new_bytes junk (Z.to_nat kWritableFileBufferSize); pos_ := 0; fd_ := fd;
          is_manifest_ := is_manifest; filename_ := filename; dirname_ := dirname |}.

(** The [while (size > 0)] loop of [WriteUnbuffered]. *)
Fixpoint WriteUnbuffered (fuel : nat) (f : PosixWritableFile) (data : bytes) (w : W) : option (Status * W) :=
  if 0 <? Slice_size data then
    match fuel with
    | O => None
    | S fuel =>
        match sys_write (fd_ f) data w with
        | (Errno e, w) =>
            if e =? EINTR then WriteUnbuffered fuel f data w
            else Some (PosixError (filename_ f) e, w)
        | (Ret write_result, w) => WriteUnbuffered fuel f (drop (Z.to_nat write_result) data) w
        end
    end
  else Some (Status_OK, w).

Definition FlushBuffer (fuel : nat) (f : PosixWritableFile) (w : W) :
  option (Status * PosixWritableFile * W) :=
  data ← mem_read (buf_ f) 0 (Z.to_nat (pos_ f));
  '(status, w) ← WriteUnbuffered fuel f data w;
  Some (status, set_buf f (buf_ f) 0, w).

Definition PosixWritable_Append (fuel : nat) (f : PosixWritableFile) (data : bytes) (w : W) :
  option (Status * PosixWritableFile * W) :=
  let copy_size := Z.to_nat (Z.min (Slice_size data) (kWritableFileBufferSize - pos_ f)) in
  buf ← mem_write (buf_ f) (Z.to_nat (pos_ f)) (take copy_size data);
  let write_data := drop copy_size data in
  let f := set_buf f buf (pos_ f + Z.of_nat copy_size) in
  if Slice_size write_data =? 0 then Some (Status_OK, f, w)
  else
    '(status, f, w) ← FlushBuffer fuel f w;
    if negb (Status_ok status) then Some (status, f, w)
    else if Slice_size write_data <? kWritableFileBufferSize then
      buf ← mem_write (buf_ f) 0 write_data;
      Some (Status_OK, set_buf f buf (Slice_size write_data), w)
    else '(status, w) ← WriteUnbuffered fuel f write_data w; Some (status, f, w).

Definition SyncFd (fd : Z) (fd_path : bytes) (w : W) : Status * W :=
  let sync w := match sys_sync fd w with
                | (Ret _, w) => (Status_OK, w)
                | (Errno e, w) => (PosixError fd_path e, w)
                end in
  if HAVE_FULLFSYNC
  then match sys_fullfsync fd w with (Ret _, w) => (Status_OK, w) | (Errno _, w) => sync w end
  else sync w.

Definition SyncDirIfManifest (f : PosixWritableFile) (w : W) : Status * W :=
  if negb (is_manifest_ f) then (Status_OK, w)
  else match sys_open (dirname_ f) O_RDONLY w with
       | (Errno e, w) => (PosixError (dirname_ f) e, w)
       | (Ret fd, w) => let '(status, w) := SyncFd fd (dirname_ f) w in (status, snd (sys_close fd w))
       end.

Definition PosixWritable_Flush := FlushBuffer.

Definition PosixWritable_Sync (fuel : nat) (f : PosixWritableFile) (w : W) :
  option (Status * PosixWritableFile * W) :=
  let '(status, w) := SyncDirIfManifest f w in
  if negb (Status_ok status) then Some (status, f, w)
  else
    '(status, f, w) ← FlushBuffer fuel f w;
    if negb (Status_ok status) then Some (status, f, w)
    else let '(status, w) := SyncFd (fd_ f) (filename_ f) w in Some (status, f, w).

Definition PosixWritable_Close (fuel : nat) (f : PosixWritableFile) (w : W) :
  option (Status * PosixWritableFile * W) :=
  '(status, f, w) ← FlushBuffer fuel f w;
  let '(r, w) := sys_close (fd_ f) w in
  Some (match r with
        | Errno e => if Status_ok status then PosixError (filename_ f) e else status
        | Ret _ => status
        end,
        {| buf_ := buf_ f; pos_ := pos_ f; fd_ := -1; is_manifest_ := is_manifest_ f;
           filename_ := filename_ f; dirname_ := dirname_ f |}, w).

(** The destructor closes a file that is still open. *)
Definition PosixWritable_delete (fuel : nat) (f : PosixWritableFile) (w : W) : option W :=
  if 0 <=? fd_ f then '(_, _, w) ← PosixWritable_Close fuel f w; Some w else Some w.
End Files.

(** ** Lemmas: paths *)

Lemma rfind_spec c s :
  match rfind c s with
  | None => c ∉ s
  | Some i => s = take i s ++ c :: drop (S i) s ∧ c ∉ drop (S i) s
  end.
Proof.
  induction s as [|x s IH]; simpl; [by apply not_elem_of_nil|].
  destruct (rfind c s) as [i|].
  - destruct IH as [E Hn]. split; [|done]. simpl. f_equal. exact E.
  - case_decide as Hx; [by subst|]. rewrite not_elem_of_cons. split; [congruence|done].
Qed.

Lemma rfind_lt c s i : rfind c s = Some i → (i < length s)%nat.
Proof.
  intros E. pose proof (rfind_spec c s) as H. rewrite E in H. destruct H as [H _].
  apply (f_equal length) in H. rewrite length_app in H. simpl in H. rewrite length_take in H. lia.
Qed.

Lemma split_path f :
  ∃ d b, Dirname f = Some d ∧ Basename f = Some b ∧ (slash ∉ b) ∧
         if decide (slash ∈ f) then f = d ++ slash :: b else d = str "." ∧ b = f.
Proof.
  unfold Dirname, Basename, contains_from. pose proof (rfind_spec slash f) as H.
  destruct (rfind slash f) as [i|] eqn:E.
  - apply rfind_lt in E. destruct H as [Hf Hn]. replace (i + 1)%nat with (S i) by lia.
    rewrite bool_decide_false by done. rewrite mem_read_ok by lia.
    rewrite (take_ge (drop (S i) f)) by (rewrite length_drop; lia).
    exists (take i f), (drop (S i) f). split_and!; [done|done|done|]. rewrite decide_True; [done|].
    rewrite Hf. apply elem_of_app. right. left.
  - exists (str "."), f. rewrite decide_False by done. split_and!; done.
Qed.

(** ** Lemmas: loops *)

Section FilesLemmas.
Context {W : Type} `{PF : Platform} `{HP : Posix W} `{HL : !PosixLaws W}.

Lemma PosixError_not_ok c e : Status_ok (PosixError c e) = false.
Proof. unfold PosixError. by destruct (e =? ENOENT). Qed.

Lemma PosixSequential_Read_spec fuel f n scratch (w : W) :
  0 <= n → n <= Z.of_nat (length scratch) → (pending w < fuel)%nat →
  ∃ s r scratch' w', PosixSequential_Read fuel f n scratch w = Some (s, r, scratch', w') ∧
    (∀ fd, written w' fd = written w fd) ∧ length scratch' = length scratch ∧
    (if Status_ok s then ∃ d, r = Some d ∧ (length d <= Z.to_nat n)%nat ∧ scratch' = d ++ drop (length d) scratch
     else r = None ∧ scratch' = scratch ∧ ∃ e, e ≠ EINTR ∧ s = PosixError (seq_filename_ f) e).
Proof.
  intros Hn Hs. revert w. induction fuel as [|fuel IH]; intros w Hf; [lia|]. cbn [PosixSequential_Read].
  destruct (sys_read (seq_fd_ f) n w) as [[d|e] w'] eqn:E;
    pose proof (law_sys_read _ _ _ _ _ E) as (Hw & Ho & Hr).
  - rewrite mem_write_ok by lia. cbn [mbind option_bind]. eexists _, _, _, _. split; [done|].
    split; [done|]. simpl. rewrite length_app, length_drop. split; [lia|].
    exists d. split; [done|]. split; [lia|done].
  - destruct (Z.eqb_spec e EINTR) as [He|He].
    + destruct (IH w') as (s & r & sc & w2 & E2 & Hw2 & H); [specialize (Hr He); lia|].
      eexists _, _, _, _. split; [done|]. split; [|done]. intros fd. by rewrite Hw2.
    + eexists _, _, _, _. split; [done|]. split; [done|]. split; [done|].
      rewrite PosixError_not_ok. eauto.
Qed.

(** What a loop of writes did: a part of [data] is written, all of it if the
    status is OK, and other files are as before. *)
Definition wrote (fd : Z) (filename : bytes) (data : bytes) (s : Status) (w w' : W) : Prop :=
  ∃ d1 d2, data = d1 ++ d2 ∧ written w' fd = written w fd ++ d1 ∧
    (∀ fd', fd' ≠ fd → written w' fd' = written w fd') ∧ (∀ fd', is_open w fd' → is_open w' fd') ∧
    (pending w' <= pending w)%nat ∧
    (if Status_ok s then d2 = [] ∧ s = Status_OK else ∃ e, e ≠ EINTR ∧ s = PosixError filename e).

Lemma WriteUnbuffered_spec fuel f data (w : W) :
  (length data + pending w < fuel)%nat →
  ∃ s w', WriteUnbuffered fuel f data w = Some (s, w') ∧ wrote (fd_ f) (filename_ f) data s w w'.
Proof.
  revert data w. induction fuel as [|fuel IH]; intros data w Hf; [lia|]. cbn [WriteUnbuffered].
  unfold Slice_size. destruct (Z.ltb_spec 0 (Z.of_nat (length data))) as [H0|H0].
  - destruct (sys_write (fd_ f) data w) as [[k|e] w1] eqn:E;
      pose proof (law_sys_write _ _ _ _ _ E) as (Hw & Ho & Hp & Hr).
    + destruct Hr as (Hk & Hd & Hk0).
      destruct (IH (drop (Z.to_nat k) data) w1) as (s & w' & E' & d1 & d2 & Ed & Hd1 & Hw' & Ho' & Hp' & Hs).
      { rewrite length_drop. destruct (Z.eq_dec k 0) as [->|]; [|lia].
        assert (data ≠ []) as Hne by (by intros ->). specialize (Hk0 eq_refl Hne). lia. }
      exists s, w'. split; [done|]. exists (take (Z.to_nat k) data ++ d1), d2. split_and!.
      * by rewrite <- app_assoc, <- Ed, take_drop.
      * by rewrite Hd1, Hd, app_assoc.
      * intros fd' Hne. by rewrite Hw', Hw.
      * auto.
      * lia.
      * done.
    + destruct Hr as [Hd He]. destruct (Z.eqb_spec e EINTR) as [Hi|Hi].
      * destruct (IH data w1) as (s & w' & E' & d1 & d2 & Ed & Hd1 & Hw' & Ho' & Hp' & Hs);
          [specialize (He Hi); lia|].
        exists s, w'. split; [done|]. exists d1, d2. split_and!; auto.
        -- by rewrite Hd1, Hd.
        -- intros fd' Hne. by rewrite Hw', Hw.
        -- lia.
      * eexists _, _. split; [done|]. exists [], data. split_and!; auto.
        -- by rewrite app_nil_r.
        -- rewrite PosixError_not_ok. eauto.
  - eexists _, _. split; [done|]. destruct data; [|simpl in H0; lia]. exists [], [].
    split_and!; auto; [by rewrite app_nil_r|done].
Qed.

(** ** Specification of a file being written *)

(** The bytes appended so far: those written, and those in the buffer. *)
Definition file_content (f : PosixWritableFile) (w : W) : bytes :=
  written w (fd_ f) ++ take (Z.to_nat (pos_ f)) (buf_ f).

Record writable_ok (f : PosixWritableFile) (w : W) : Prop := {
  wo_buf : length (buf_ f) = Z.to_nat kWritableFileBufferSize;
  wo_pos : 0 <= pos_ f <= kWritableFileBufferSize;
  wo_open : is_open w (fd_ f) }.

Definition same_file (f f' : PosixWritableFile) : Prop :=
  fd_ f' = fd_ f ∧ filename_ f' = filename_ f ∧ dirname_ f' = dirname_ f ∧ is_manifest_ f' = is_manifest_ f.

(** [data] was appended; with an error, a part of it at most, nothing twice or
    out of order, and nothing is left in the buffer. *)
Definition appended (f : PosixWritableFile) (data : bytes) (s : Status) (f' : PosixWritableFile) (w w' : W) : Prop :=
  writable_ok f' w' ∧ same_file f f' ∧ (pending w' <= pending w)%nat ∧
  (∀ fd', fd' ≠ fd_ f → is_open w fd' → written w' fd' = written w fd') ∧
  if Status_ok s then s = Status_OK ∧ file_content f' w' = file_content f w ++ data
  else pos_ f' = 0 ∧ (∃ e p, s = PosixError p e) ∧
       file_content f' w' `prefix_of` file_content f w ++ data.

#[local] Opaque kWritableFileBufferSize.

Lemma set_buf_ok f (w w' : W) buf pos :
  writable_ok f w → (∀ fd, is_open w fd → is_open w' fd) →
  length buf = length (buf_ f) → 0 <= pos <= kWritableFileBufferSize → writable_ok (set_buf f buf pos) w'.
Proof. intros [Hb Hp Ho] Hw Hl Hpos. split; simpl; [congruence|done|auto]. Qed.

Lemma FlushBuffer_spec fuel f (w : W) :
  writable_ok f w → (Z.to_nat kWritableFileBufferSize + pending w < fuel)%nat →
  ∃ s f' w', FlushBuffer fuel f w = Some (s, f', w') ∧ appended f [] s f' w w' ∧ pos_ f' = 0 ∧
             (if Status_ok s then written w' (fd_ f) = file_content f w else True) ∧
             (∀ fd, is_open w fd → is_open w' fd) ∧ buf_ f' = buf_ f.
Proof.
  intros Hok Hf. pose proof Hok as [Hb Hp Ho]. unfold FlushBuffer.
  rewrite mem_read_ok by lia. cbn [mbind option_bind]. rewrite drop_0.
  destruct (WriteUnbuffered_spec fuel f (take (Z.to_nat (pos_ f)) (buf_ f)) w)
    as (s & w' & E & d1 & d2 & Ed & Hd1 & Hw & Ho' & Hp' & Hs); [rewrite length_take; lia|].
  rewrite E. cbn [mbind option_bind]. eexists _, _, _. split; [done|].
  assert (file_content (set_buf f (buf_ f) 0) w' = written w' (fd_ f)) as Ec
    by (unfold file_content; simpl; by rewrite app_nil_r).
  split; [|split; [done|split; [|by split]]].
  - unfold appended. split; [by apply (set_buf_ok f w); [..|lia]|]. split; [done|]. split; [done|].
    split; [auto|]. rewrite Ec. unfold file_content. rewrite Ed, app_nil_r, Hd1.
    destruct (Status_ok s).
    + destruct Hs as [-> ->]. by rewrite app_nil_r.
    + destruct Hs as (e & _ & ->). split; [done|]. split; [by eexists _, _|].
      rewrite app_assoc. by eexists.
  - unfold file_content. rewrite Ed, Hd1. destruct (Status_ok s); [|done].
    destruct Hs as [-> _]. by rewrite app_nil_r.
Qed.

Lemma appended_app f d1 d2 s f1 f2 (w w1 w2 : W) :
  appended f d1 Status_OK f1 w w1 → (∀ fd, is_open w fd → is_open w1 fd) →
  appended f1 d2 s f2 w1 w2 → appended f (d1 ++ d2) s f2 w w2.
Proof.
  intros (Hok1 & (E1 & E2 & E3 & E4) & Hp1 & Hw1 & _ & Hc1) Ho (Hok2 & (E5 & E6 & E7 & E8) & Hp2 & Hw2 & Hc2).
  split; [done|]. split; [by split_and!; congruence|]. split; [lia|]. split.
  { intros fd' Hne Hop. rewrite Hw2, Hw1; auto. congruence. }
  destruct (Status_ok s).
  - destruct Hc2 as [-> Hc2]. by rewrite Hc2, Hc1, app_assoc.
  - destruct Hc2 as (Hpos & He & Hc2). split; [done|]. split; [done|].
    by rewrite app_assoc, <- Hc1.
Qed.

(** Copying into the buffer. *)
Lemma buffer_spec f (w : W) data :
  writable_ok f w → Z.of_nat (length data) <= kWritableFileBufferSize - pos_ f →
  ∃ buf, mem_write (buf_ f) (Z.to_nat (pos_ f)) data = Some buf ∧
    appended f data Status_OK (set_buf f buf (pos_ f + Z.of_nat (length data))) w w.
Proof.
  intros Hok Hl. pose proof Hok as [Hb Hp Ho].
  rewrite mem_write_ok by lia. eexists. split; [done|]. split; [apply (set_buf_ok f w); [done|done| |lia]|].
  - rewrite !length_app, length_take, length_drop. lia.
  - split; [by split|]. split; [done|]. split; [done|]. simpl. split; [done|].
    unfold file_content. simpl. rewrite <- app_assoc. f_equal.
    replace (Z.to_nat (pos_ f + Z.of_nat (length data))) with (Z.to_nat (pos_ f) + length data)%nat by lia.
    rewrite app_assoc. apply take_app_length'. rewrite length_app, length_take. lia.
Qed.

Lemma PosixWritable_Append_spec fuel f data (w : W) :
  writable_ok f w → (Z.to_nat kWritableFileBufferSize + length data + pending w < fuel)%nat →
  ∃ s f' w', PosixWritable_Append fuel f data w = Some (s, f', w') ∧ appended f data s f' w w' ∧
             (∀ fd, is_open w fd → is_open w' fd).
Proof.
  intros Hok Hf. pose proof Hok as [Hb Hp Ho]. unfold PosixWritable_Append, Slice_size.
  set (c := Z.to_nat (Z.min (Z.of_nat (length data)) (kWritableFileBufferSize - pos_ f))). cbn zeta.
  assert (Hc : length (take c data) = c) by (rewrite length_take; lia).
  destruct (buffer_spec f w (take c data) Hok) as (buf & E & Ha1); [lia|].
  rewrite E. cbn [mbind option_bind]. rewrite Hc in Ha1.
  set (f1 := set_buf f buf (pos_ f + Z.of_nat c)) in *.
  destruct (Z.eqb_spec (Z.of_nat (length (drop c data))) 0) as [H0|H0].
  { eexists _, _, _. split; [done|]. split; [|done].
    rewrite <- (take_drop c data). rewrite (nil_length_inv (drop c data)) by lia. by rewrite app_nil_r. }
  rewrite length_drop in H0.
  destruct (FlushBuffer_spec fuel f1 w) as (s & f2 & w2 & E2 & Ha2 & Hp2 & Hc2 & Ho2 & Hb2); [apply Ha1|lia|].
  rewrite E2. cbn [mbind option_bind].
  destruct (Status_ok s) eqn:Es; cbn [negb].
  2:{ eexists _, _, _. split; [done|]. split; [|done]. rewrite <- (take_drop c data).
      apply (appended_app f (take c data) (drop c data) s f1 f2 w w w2); [done|done|].
      destruct Ha2 as (H1 & H2 & H3 & H4 & H5). rewrite Es in H5. destruct H5 as (H5 & H6 & H7).
      split; [done|]. split; [done|]. split; [done|]. split; [done|]. rewrite Es.
      split; [done|]. split; [done|]. rewrite app_nil_r in H7.
      etransitivity; [exact H7|]. by eexists. }
  pose proof Ha2 as (Hok2 & Hs2 & Hpe2 & _ & Hst). rewrite Es in Hst. destruct Hst as [-> _].
  assert (Ha12 : appended f (take c data) Status_OK f2 w w2).
  { rewrite <- (app_nil_r (take c data)). by apply (appended_app f (take c data) [] Status_OK f1 f2 w w w2). }
  destruct (Z.ltb_spec (Z.of_nat (length (drop c data))) kWritableFileBufferSize) as [Hlt|Hge].
  - destruct (buffer_spec f2 w2 (drop c data) Hok2) as (buf3 & E3 & Ha3); [rewrite Hp2; lia|].
    rewrite Hp2 in E3, Ha3. change (Z.to_nat 0) with O in E3. rewrite E3. cbn [mbind option_bind].
    eexists _, _, _. split; [done|]. split; [|done].
    pose proof (appended_app _ _ _ _ _ _ _ _ _ Ha12 Ho2 Ha3) as Ha. by rewrite take_drop in Ha.
  - destruct (WriteUnbuffered_spec fuel f2 (drop c data) w2)
      as (s3 & w3 & E3 & d1 & d2 & Ed & Hd1 & Hw & Ho' & Hp' & Hs3); [rewrite length_drop; lia|].
    rewrite E3. cbn [mbind option_bind]. eexists _, _, _. split; [done|]. split; [|auto].
    rewrite <- (take_drop c data). apply (appended_app f _ _ s3 f2 _ w w2 w3); [done|done|].
    assert (∀ w', file_content f2 w' = written w' (fd_ f2)) as Ec
      by (intros w'; unfold file_content; rewrite Hp2; apply app_nil_r).
    split; [by destruct Hok2; split; auto|]. split; [done|]. split; [done|]. split; [auto|].
    rewrite !Ec, Hd1, Ed. destruct (Status_ok s3).
    + destruct Hs3 as [-> ->]. by rewrite app_nil_r.
    + destruct Hs3 as (e & _ & ->). split; [done|]. split; [by eexists _, _|]. rewrite app_assoc. by eexists.
Qed.

Lemma SyncFd_spec fd p (w : W) :
  ∃ s w', SyncFd fd p w = (s, w') ∧ (∀ fd', written w' fd' = written w fd') ∧
    (∀ fd', is_open w fd' → is_open w' fd') ∧ (pending w' <= pending w)%nat ∧
    (s = Status_OK ∨ ∃ e, s = PosixError p e).
Proof.
  unfold SyncFd.
  assert (Hsync : ∀ w0 : W, ∃ s w', match sys_sync fd w0 with
      (Ret _, w) => (Status_OK, w) | (Errno e, w) => (PosixError p e, w) end = (s, w') ∧
    (∀ fd', written w' fd' = written w0 fd') ∧ (∀ fd', is_open w0 fd' → is_open w' fd') ∧
    (pending w' <= pending w0)%nat ∧ (s = Status_OK ∨ ∃ e, s = PosixError p e)).
  { intros w0. destruct (sys_sync fd w0) as [r w'] eqn:E.
    destruct (law_sys_sync fd w0 r w') as (Hw & Ho & Hp); [by left|].
    destruct r; eexists _, _; eauto 8. }
  destruct HAVE_FULLFSYNC; [|apply Hsync].
  destruct (sys_fullfsync fd w) as [r w1] eqn:E.
  destruct (law_sys_sync fd w r w1) as (Hw & Ho & Hp); [by right|].
  destruct r; [by eexists _, _; eauto 8|].
  destruct (Hsync w1) as (s & w' & E' & Hw' & Ho' & Hp' & Hs).
  exists s, w'. split_and!; auto; [intros fd'; by rewrite Hw'|lia].
Qed.

Lemma SyncDirIfManifest_spec f (w : W) :
  ∃ s w', SyncDirIfManifest f w = (s, w') ∧
    (∀ fd', is_open w fd' → written w' fd' = written w fd' ∧ is_open w' fd') ∧
    (pending w' <= pending w)%nat ∧ (s = Status_OK ∨ is_manifest_ f = true ∧ ∃ e, s = PosixError (dirname_ f) e).
Proof.
  unfold SyncDirIfManifest. destruct (is_manifest_ f); simpl; [|by eexists _, _; split; [done|]; auto].
  destruct (sys_open (dirname_ f) O_RDONLY w) as [[fd|e] w1] eqn:E;
    destruct (law_sys_open _ _ _ _ _ E) as (Ho & Hfd & Hp);
    [|eexists _, _; split; [done|]; split; [intros fd' Hop; destruct (Ho fd' Hop) as (? & ? & _); auto|eauto]].
  destruct (SyncFd_spec fd (dirname_ f) w1) as (s & w2 & -> & Hw2 & Ho2 & Hp2 & Hs).
  destruct (sys_close fd w2) as [r w3] eqn:E3. destruct (law_sys_close _ _ _ _ E3) as (Hw3 & Ho3 & Hp3).
  eexists _, _. split; [done|]. cbn [snd]. split; [|split; [lia|destruct Hs as [->|[e ->]]; eauto]].
  intros fd' Hop. destruct (Ho fd' Hop) as (Hw & Hop1 & Hne). split; [by rewrite Hw3, Hw2|].
  apply Ho3; [|auto]. intros ->. by apply Hne.
Qed.

Lemma PosixWritable_Sync_spec fuel f (w : W) :
  writable_ok f w → (Z.to_nat kWritableFileBufferSize + pending w < fuel)%nat →
  ∃ s f' w', PosixWritable_Sync fuel f w = Some (s, f', w') ∧
    writable_ok f' w' ∧ fd_ f' = fd_ f ∧ (pending w' <= pending w)%nat ∧
    (if Status_ok s then appended f [] s f' w w' ∧ written w' (fd_ f) = file_content f w
     else (∃ e p, s = PosixError p e) ∧ written w' (fd_ f) `prefix_of` file_content f w).
Proof.
  intros Hok Hf. unfold PosixWritable_Sync.
  destruct (SyncDirIfManifest_spec f w) as (s & w1 & -> & Ho1 & Hp1 & Hs).
  pose proof Hok as [Hb Hp Ho]. destruct (Ho1 _ Ho) as [Hw1 Hop1].
  assert (Hok1 : writable_ok f w1) by by split.
  assert (Hc1 : file_content f w1 = file_content f w) by (unfold file_content; by rewrite Hw1).
  destruct Hs as [->|(_ & e & ->)].
  2:{ rewrite PosixError_not_ok. simpl. eexists _, _, _. split; [done|].
      split; [done|]. split; [done|]. split; [done|]. rewrite PosixError_not_ok. split; [by eexists _, _|]. unfold file_content. rewrite Hw1. by eexists. }
  simpl. destruct (FlushBuffer_spec fuel f w1 Hok1) as (s & f2 & w2 & E2 & Ha2 & Hp2 & Hc2 & Ho2 & Hb2); [lia|].
  rewrite E2. cbn [mbind option_bind]. pose proof Ha2 as (Hok2 & Hsame & Hpe2 & Hoth & Hst).
  pose proof Hsame as (Efd & Efn & _).
  assert (Hcf : file_content f2 w2 = written w2 (fd_ f))
    by (unfold file_content; rewrite Hp2, Efd; apply app_nil_r).
  destruct (Status_ok s) eqn:Es; cbn [negb].
  - destruct (SyncFd_spec (fd_ f2) (filename_ f2) w2) as (s3 & w3 & -> & Hw3 & Ho3 & Hp3 & Hs3).
    eexists _, _, _. split; [done|]. split; [by destruct Hok2; split; auto|]. split; [done|]. split; [lia|].
    assert (written w3 (fd_ f) = file_content f w) as Ew by by rewrite Hw3, Hc2, Hc1.
    destruct Hs3 as [->|(e & ->)].
    + simpl. split; [|done]. destruct Hok2 as [? ? ?]. split; [by split; auto|]. split; [done|].
      split; [lia|]. split.
      * intros fd' Hne Hop. rewrite Hw3, Hoth; [|done|by apply Ho1]. by apply Ho1.
      * split; [done|]. unfold file_content at 1. rewrite Hp2, Efd, app_nil_r. by rewrite app_nil_r, Ew.
    + rewrite PosixError_not_ok. split; [by eexists _, _|]. by rewrite Ew.
  - eexists _, _, _. split; [done|]. split; [done|]. split; [done|]. split; [lia|].
    rewrite Es. destruct Hst as (_ & He & Hpre). split; [done|].
    by rewrite <- Hcf, <- Hc1, <- (app_nil_r (file_content f w1)).
Qed.

Lemma PosixWritable_Close_spec fuel f (w : W) :
  writable_ok f w → (Z.to_nat kWritableFileBufferSize + pending w < fuel)%nat →
  ∃ s f' w', PosixWritable_Close fuel f w = Some (s, f', w') ∧ fd_ f' = -1 ∧
    (if Status_ok s then written w' (fd_ f) = file_content f w
     else (∃ e p, s = PosixError p e) ∧ written w' (fd_ f) `prefix_of` file_content f w).
Proof.
  intros Hok Hf. unfold PosixWritable_Close.
  destruct (FlushBuffer_spec fuel f w Hok) as (s & f2 & w2 & E2 & Ha2 & Hp2 & Hc2 & _); [lia|].
  rewrite E2. cbn [mbind option_bind]. pose proof Ha2 as (_ & (Efd & Efn & _) & _ & _ & Hst).
  destruct (sys_close (fd_ f2) w2) as [r w3] eqn:E3. destruct (law_sys_close _ _ _ _ E3) as (Hw3 & _ & _).
  eexists _, _, _. split; [done|]. split; [done|]. rewrite Hw3.
  assert (Hcf : file_content f2 w2 = written w2 (fd_ f))
    by (unfold file_content; rewrite Hp2, Efd; apply app_nil_r).
  destruct (Status_ok s) eqn:Es.
  - destruct r; [by rewrite Es|]. rewrite PosixError_not_ok. split; [by eexists _, _|]. by rewrite Hc2.
  - assert (match r with Ret _ => s | Errno _ => s end = s) as -> by by destruct r.
    rewrite Es. destruct Hst as (_ & He & Hpre). split; [done|]. rewrite <- Hcf. by rewrite app_nil_r in Hpre.
Qed.

(** ** Lemmas: fuel *)

Lemma PosixSequential_Read_more fuel fuel' f n scratch (w : W) r :
  PosixSequential_Read fuel f n scratch w = Some r → (fuel <= fuel')%nat →
  PosixSequential_Read fuel' f n scratch w = Some r.
Proof.
  revert fuel' w. induction fuel as [|fuel IH]; intros fuel' w H Hle; [done|].
  destruct fuel' as [|fuel']; [lia|]. cbn [PosixSequential_Read] in *.
  destruct (sys_read (seq_fd_ f) n w) as [[d|e] w']; [done|]. destruct (e =? EINTR); [|done].
  apply IH; [done|lia].
Qed.

Lemma WriteUnbuffered_more fuel fuel' f data (w : W) r :
  WriteUnbuffered fuel f data w = Some r → (fuel <= fuel')%nat → WriteUnbuffered fuel' f data w = Some r.
Proof.
  revert fuel' data w. induction fuel as [|fuel IH]; intros fuel' data w H Hle; cbn [WriteUnbuffered] in H.
  - destruct (0 <? Slice_size data) eqn:E; [done|].
    destruct fuel'; cbn [WriteUnbuffered]; by rewrite E.
  - destruct fuel' as [|fuel']; [lia|]. cbn [WriteUnbuffered].
    destruct (0 <? Slice_size data); [|done].
    destruct (sys_write (fd_ f) data w) as [[k|e] w']; [apply IH; [done|lia]|].
    destruct (e =? EINTR); [apply IH; [done|lia]|done].
Qed.
End FilesLemmas.

(** ** Properties *)

(** C10: a new [PosixWritableFile] writes what it is given in order, whatever the
    sizes, the short writes and the interruptions: after [Append], [Flush] and
    [Sync] with status OK the bytes written and buffered are those before followed
    by the data, [Flush], [Sync] and [Close] leave nothing in the buffer, and with
    an error the bytes written are still a prefix of them: nothing is written
    twice or out of order.  Only its own descriptor is written. *)
Theorem PosixWritableFile_refines_append {W : Type} `{Platform} `{Posix W} `{!PosixLaws W}
    (f : PosixWritableFile) (w : W) (fuel : nat) :
  writable_ok f w →
  (∀ data, (Z.to_nat kWritableFileBufferSize + length data + pending w < fuel)%nat →
     ∃ s f' w', PosixWritable_Append fuel f data w = Some (s, f', w') ∧ appended f data s f' w w') ∧
  ((Z.to_nat kWritableFileBufferSize + pending w < fuel)%nat →
     (∃ s f' w', PosixWritable_Flush fuel f w = Some (s, f', w') ∧ appended f [] s f' w w' ∧ pos_ f' = 0 ∧
        (if Status_ok s then written w' (fd_ f) = file_content f w else True)) ∧
     (∃ s f' w', PosixWritable_Sync fuel f w = Some (s, f', w') ∧
        (if Status_ok s then appended f [] s f' w w' ∧ written w' (fd_ f) = file_content f w
         else (∃ e p, s = PosixError p e) ∧ written w' (fd_ f) `prefix_of` file_content f w)) ∧
     (∃ s f' w', PosixWritable_Close fuel f w = Some (s, f', w') ∧ fd_ f' = -1 ∧
        (if Status_ok s then written w' (fd_ f) = file_content f w
         else (∃ e p, s = PosixError p e) ∧ written w' (fd_ f) `prefix_of` file_content f w))) ∧
  (∀ junk filename fd, is_open w fd → ∃ f0, PosixWritable_new junk filename fd = Some f0 ∧
     writable_ok f0 w ∧ file_content f0 w = written w fd).
Proof.
  intros Hok. split; [|split].
  - intros data Hf. destruct (PosixWritable_Append_spec fuel f data w Hok Hf) as (s & f' & w' & E & Ha & _).
    by exists s, f', w'.
  - intros Hf. split; [|split].
    + destruct (FlushBuffer_spec fuel f w Hok Hf) as (s & f' & w' & E & Ha & Hp & Hc & _).
      by exists s, f', w'.
    + destruct (PosixWritable_Sync_spec fuel f w Hok Hf) as (s & f' & w' & E & _ & _ & _ & Hs).
      by exists s, f', w'.
    + by apply PosixWritable_Close_spec.
  - intros junk filename fd Ho. unfold PosixWritable_new, IsManifest.
    destruct (split_path filename) as (d & b & Ed & Eb & _). rewrite Ed, Eb. cbn [mbind option_bind].
    eexists. split; [done|]. split; [|by unfold file_content; rewrite app_nil_r].
    split; [apply length_new_bytes|done|done].
Qed.

(** C33: the loops that retry interrupted system calls end, and more fuel does not
    change what they return: as many rounds as interruptions remain - and, for
    writing, bytes - are enough. *)
Theorem Posix_loops_terminate {W : Type} `{Platform} `{Posix W} `{!PosixLaws W} (w : W) :
  (∀ f n scratch, 0 <= n → n <= Z.of_nat (length scratch) →
     ∃ r, ∀ fuel, (pending w < fuel)%nat → PosixSequential_Read fuel f n scratch w = Some r) ∧
  (∀ f data, ∃ r, ∀ fuel, (length data + pending w < fuel)%nat → WriteUnbuffered fuel f data w = Some r).
Proof.
  split.
  - intros f n scratch Hn Hs.
    destruct (PosixSequential_Read_spec (S (pending w)) f n scratch w Hn Hs) as (s & r & sc & w' & E & _); [lia|].
    eexists. intros fuel Hf. eapply PosixSequential_Read_more; [exact E|lia].
  - intros f data. destruct (WriteUnbuffered_spec (S (length data + pending w)) f data w) as (s & w' & E & _); [lia|].
    eexists. intros fuel Hf. eapply WriteUnbuffered_more; [exact E|lia].
Qed.

(** C35: reading a mapped file: in range the bytes of the region, past the end the
    error of EINVAL - but the sum of offset and length is taken modulo 2^64, and
    an offset past the end whose sum wraps round to a small number is read
    outside of the region. *)
Theorem PosixMmap_Read_bounds `{Platform} (f : PosixMmapReadableFile) (offset n : Z) :
  length_ f = Z.of_nat (length (mmap_base_ f)) → length_ f < 2 ^ 64 →
  0 <= offset < 2 ^ 64 → 0 <= n < 2 ^ 64 →
  PosixMmap_Read f offset n =
    if offset + n <=? length_ f
    then Some (Status_OK, take (Z.to_nat n) (drop (Z.to_nat offset) (mmap_base_ f)))
    else if (2 ^ 64 <=? offset + n) && (offset + n - 2 ^ 64 <=? length_ f)
    then None
    else Some (PosixError (mmap_filename_ f) EINVAL, []).
Proof.
  intros Hl Hs Ho Hn. unfold PosixMmap_Read.
  assert (Hu : u64 (offset + n) = if 2 ^ 64 <=? offset + n then offset + n - 2 ^ 64 else offset + n).
  { unfold u64. destruct (Z.leb_spec (2 ^ 64) (offset + n)).
    - symmetry. apply (Z.mod_unique_pos _ _ 1); lia.
    - apply Z.mod_small. lia. }
  rewrite Hu. destruct (Z.leb_spec (offset + n) (length_ f)) as [Hin|Hout].
  - destruct (Z.leb_spec (2 ^ 64) (offset + n)); [lia|].
    rewrite (proj2 (Z.ltb_ge _ _)) by lia. rewrite mem_read_ok by lia. done.
  - destruct (Z.leb_spec (2 ^ 64) (offset + n)); cbn [andb].
    + destruct (Z.ltb_spec (length_ f) (offset + n - 2 ^ 64)).
      * by rewrite (proj2 (Z.leb_gt _ _)) by lia.
      * rewrite (proj2 (Z.leb_le _ _)) by lia. unfold mem_read.
        rewrite (proj2 (Nat.leb_gt _ _)) by lia. done.
    + by rewrite (proj2 (Z.ltb_lt _ _)) by lia.
Qed.

(** ** Witnesses: a small operating system *)

Definition example_platform : Platform :=
  {| strerror _ := str "error"; ENOENT := 2; EINTR := 4; EINVAL := 22; HAVE_FULLFSYNC := false |}.

(** Reads and writes follow a script: an interruption, or a number of bytes;
    after the script they are complete. *)
Record os := { out : gmap Z bytes; next_fd : nat; script : list (option nat) }.

Definition os_read (fd n : Z) (w : os) : sysret bytes * os :=
  match script w with
  | None :: sc => (Errno 4, {| out := out w; next_fd := next_fd w; script := sc |})
  | Some k :: sc => (Ret (take (Nat.min k (Z.to_nat n)) (str "0123456789")),
                     {| out := out w; next_fd := next_fd w; script := sc |})
  | [] => (Ret (take (Z.to_nat n) (str "0123456789")), w)
  end.

Definition os_out (w : os) (fd : Z) : bytes := default [] (out w !! fd).

Definition os_write (fd : Z) (d : bytes) (w : os) : sysret Z * os :=
  match script w with
  | None :: sc => (Errno 4, {| out := out w; next_fd := next_fd w; script := sc |})
  | Some k :: sc =>
      (Ret (Z.of_nat (Nat.min k (length d))),
       {| out := <[fd := os_out w fd ++ take (Nat.min k (length d)) d]> (out w);
          next_fd := next_fd w; script := sc |})
  | [] => (Ret (Z.of_nat (length d)),
           {| out := <[fd := os_out w fd ++ d]> (out w); next_fd := next_fd w; script := [] |})
  end.

Definition os_ok {A} (a : A) (w : os) : sysret A * os := (Ret a, w).

Definition example_os : Posix os := {|
  sys_open _ _ w := (Ret (Z.of_nat (next_fd w)),
                     {| out := out w; next_fd := S (next_fd w); script := script w |});
  sys_close _ := os_ok tt;
  sys_read := os_read;
  sys_pread fd n _ := os_read fd n;
  sys_lseek _ _ := os_ok 0;
  sys_write := os_write;
  sys_sync _ := os_ok tt;
  sys_fullfsync _ := os_ok tt;
  sys_mmap _ n := os_ok (take (Z.to_nat n) (str "0123456789"));
  sys_munmap _ w := w;
  sys_stat _ := os_ok 10;
  sys_access _ := os_ok tt;
  sys_readdir _ := os_ok [str "."; str ".."];
  sys_unlink _ := os_ok tt;
  sys_mkdir _ := os_ok tt;
  sys_rmdir _ := os_ok tt;
  sys_rename _ _ := os_ok tt;
  sys_setlk _ _ := os_ok tt |}.

Program Definition example_os_laws : @PosixLaws os example_platform example_os :=
  {| written := os_out; is_open w fd := 0 <= fd < Z.of_nat (next_fd w); pending w := length (script w) |}.
Next Obligation.
  intros fd n [o nf [|[k|] sc]] r w' E; cbn in E; injection E as <- <-; simpl;
    rewrite ?length_take; repeat split; try done; try lia.
Qed.
Next Obligation.
  intros fd d [o nf [|[k|] sc]] r w' E; cbn in E; injection E as <- <-; unfold os_out; simpl;
    rewrite ?lookup_insert_eq, ?Nat2Z.id; simpl; rewrite ?firstn_all;
    (split; [intros fd' Hne; try done; by rewrite lookup_insert_ne|]); (split; [done|]);
    repeat split; try done; try lia;
    intros; destruct d; simpl in *; try done; lia.
Qed.
Next Obligation. intros fd w r w' [E|E]; cbn in E; injection E as <- <-; simpl; auto. Qed.
Next Obligation.
  intros p fl w r w' E; cbn in E; injection E as <- <-; simpl. split; [|split; [|lia]].
  - intros fd' Hfd. split; [done|]. split; [lia|]. intros [= ?]. lia.
  - intros fd [= <-]. lia.
Qed.
Next Obligation. intros fd w r w' E; cbn in E; injection E as <- <-; simpl. auto. Qed.

(** One open descriptor, an interruption and a short write to come. *)
Definition example_state : os := {| out := ∅; next_fd := 1; script := [None; Some 2%nat] |}.

(** Five bytes are left in the buffer. *)
Definition example_file : PosixWritableFile :=
  {| buf_ := str "hello" ++ new_bytes (λ _, z2b 0) (Z.to_nat kWritableFileBufferSize - 5);
     pos_ := 5; fd_ := 0; is_manifest_ := false; filename_ := str "/d/a.log"; dirname_ := str "/d" |}.

Lemma example_file_ok : @writable_ok _ example_platform example_os example_os_laws example_file example_state.
Proof.
  split; [|unfold kWritableFileBufferSize; simpl; lia|simpl; lia].
  unfold example_file. cbn [buf_]. rewrite length_app, length_new_bytes.
  change (length (str "hello")) with 5%nat.
  rewrite Nat.add_comm, Nat.sub_add; [done|]. unfold kWritableFileBufferSize. lia.
Qed.

Lemma PosixWritableFile_refines_append_witness :
  let fuel := (Z.to_nat kWritableFileBufferSize + 3)%nat in
  ∃ s f' w', @PosixWritable_Flush _ example_platform example_os fuel example_file example_state = Some (s, f', w') ∧
    pos_ f' = 0 ∧ fd_ f' = 0.
Proof.
  intros fuel.
  destruct (@PosixWritableFile_refines_append _ example_platform example_os example_os_laws example_file
              example_state fuel example_file_ok) as (_ & Hops & _).
  destruct Hops as ((s & f' & w' & E & (_ & (Hfd & _) & _) & Hp & _) & _).
  { unfold fuel. change (pending example_state) with 2%nat. apply Nat.add_lt_mono_l. repeat constructor. }
  exists s, f', w'. split; [exact E|]. split; [exact Hp|exact Hfd].
Defined.

Lemma Posix_loops_terminate_witness :
  ∃ r, @PosixSequential_Read _ example_platform example_os 3
         {| seq_fd_ := 0; seq_filename_ := str "a" |} 4 (str "....") example_state = Some r.
Proof.
  destruct (@Posix_loops_terminate _ example_platform example_os example_os_laws example_state) as [H _].
  destruct (H {| seq_fd_ := 0; seq_filename_ := str "a" |} 4 (str "....")) as [r Hr]; [discriminate..|].
  exists r. apply Hr. repeat constructor.
Defined.

(** Ten bytes are mapped; two bytes at the last offset are read outside. *)
Lemma PosixMmap_Read_bounds_witness :
  let f := {| mmap_base_ := str "0123456789"; length_ := 10; mmap_filename_ := str "a" |} in
  @PosixMmap_Read example_platform f 8 2 = Some (Status_OK, str "89") ∧
  @PosixMmap_Read example_platform f (2 ^ 64 - 1) 2 = None.
Proof.
  intros f. split; (rewrite (@PosixMmap_Read_bounds example_platform f);
    [reflexivity|reflexivity|reflexivity|split; [discriminate|reflexivity]..]).
Defined.
