(* ===== verification/PosixEnv.v ===== *)
(** * The POSIX environment (util/env_posix.cpp: PosixEnv, PosixLockTable, LockOrUnlock)

    The environment keeps the two limiters and the table of locked files; open
    files are the objects of PosixFiles.v, named by handles; with them it is an
    instance of [Env].  Background work is in
    Scheduler.v, and the limiters' interleavings in Limiter.v; here an operation
    that opens or destroys a file is one step.  Locking and unlocking are also modelled
    as threads do them, one access to the system or to the table at a time. *)
From Stdlib Require Import ZArith Lia.
From Stdlib Require Import Strings.Byte.
From S2P Require Import Prelude Slice Coding Logging Status Counting Env Limiter PosixFiles.
From stdpp Require Import base gmap fin_maps numbers strings list.

#[local] Open Scope Z_scope.

(** ** State *)

Inductive posix_file :=
  | Posix_Sequential (f : PosixSequentialFile)
  | Posix_RandomAccess (f : PosixRandomAccessFile)
  | Posix_Mmap (f : PosixMmapReadableFile)
  | Posix_Writable (f : PosixWritableFile).

Record PosixFileLock := { lock_fd_ : Z; lock_filename_ : bytes }.

Record PosixEnv := { mmap_limiter_ : Limiter; fd_limiter_ : Limiter; locked_files_ : gset bytes }.

(** [PosixLockTable::Insert] and [Remove]. *)
Definition locks_Insert (fname : bytes) (env : PosixEnv) : bool * PosixEnv :=
  (bool_decide (fname ∉ locked_files_ env),
   {| mmap_limiter_ := mmap_limiter_ env; fd_limiter_ := fd_limiter_ env;
      locked_files_ := {[ fname ]} ∪ locked_files_ env |}).
Definition locks_Remove (fname : bytes) (env : PosixEnv) : PosixEnv :=
  {| mmap_limiter_ := mmap_limiter_ env; fd_limiter_ := fd_limiter_ env;
     locked_files_ := locked_files_ env ∖ {[ fname ]} |}.

Definition set_mmap (env : PosixEnv) (l : Limiter) : PosixEnv :=
  {| mmap_limiter_ := l; fd_limiter_ := fd_limiter_ env; locked_files_ := locked_files_ env |}.
Definition set_fd (env : PosixEnv) (l : Limiter) : PosixEnv :=
  {| mmap_limiter_ := mmap_limiter_ env; fd_limiter_ := l; locked_files_ := locked_files_ env |}.

Definition PosixEnv_new (mmap_limit open_file_limit : Z) : option PosixEnv :=
  ml ← Limiter_new mmap_limit;
  fl ← Limiter_new open_file_limit;
  Some {| mmap_limiter_ := ml; fd_limiter_ := fl; locked_files_ := ∅ |}.

(** The environment, the operating system and the open files. *)
Record posix_state (W : Type) := {
  env : PosixEnv; sys : W; objects : gmap positive posix_file }.
Arguments env {W}.
Arguments sys {W}.
Arguments objects {W}.
Arguments Build_posix_state {W}.

(** Where a thread stands inside of [LockFile] or [UnlockFile]: before this access to
    the operating system or to the table. *)
Inductive lock_pc :=
  | L_open (filename : bytes)
  | L_Insert (filename : bytes) (fd : Z)
  | L_close_refused (filename : bytes) (fd : Z)
  | L_lock (filename : bytes) (fd : Z)
  | L_close (filename : bytes) (fd lock_errno : Z)
  | L_Remove (filename : bytes) (lock_errno : Z)
  | U_unlock (lock : PosixFileLock)
  | U_Remove (lock : PosixFileLock)
  | U_close (lock : PosixFileLock).

(** After an access: the next one, or the end of the call, with the lock object there
    is then. *)
Inductive lock_outcome := Next (c : lock_pc) | Returned (s : Status) (lock : option PosixFileLock).

(** The calls that are going on, and the locks that are held. *)
Record lock_state (W : Type) := {
  lenv : PosixEnv; lsys : W; lock_calls : list lock_pc; held : list PosixFileLock }.
Arguments lenv {W}.
Arguments lsys {W}.
Arguments lock_calls {W}.
Arguments held {W}.

Section Operations.
Context {W : Type} `{PF : Platform} `{HP : Posix W}.
Context (junk : nat → Byte.byte) (fuel : nat).

(** ** Opening files *)

Definition Posix_NewSequentialFile (filename : bytes) (w : W) : Status * option posix_file * W :=
  match sys_open filename O_RDONLY w with
  | (Errno e, w) => (PosixError filename e, None, w)
  | (Ret fd, w) => (Status_OK, Some (Posix_Sequential {| seq_fd_ := fd; seq_filename_ := filename |}), w)
  end.

Definition Posix_GetFileSize (filename : bytes) (w : W) : Status * Z * W :=
  match sys_stat filename w with
  | (Errno e, w) => (PosixError filename e, 0, w)
  | (Ret st_size, w) => (Status_OK, st_size, w)
  end.

Definition Posix_NewRandomAccessFile (filename : bytes) (env : PosixEnv) (w : W) :
  option (Status * option posix_file * PosixEnv * W) :=
  match sys_open filename O_RDONLY w with
  | (Errno e, w) => Some (PosixError filename e, None, env, w)
  | (Ret fd, w) =>
      '(acquired, ml) ← Acquire (mmap_limiter_ env);
      let env := set_mmap env ml in
      if negb acquired then
        '(f, fl, w) ← PosixRandomAccess_new filename fd (fd_limiter_ env) w;
        Some (Status_OK, Some (Posix_RandomAccess f), set_fd env fl, w)
      else
        let '(status, file_size, w) := Posix_GetFileSize filename w in
        let '(status, result, w) :=
          if Status_ok status then
            match sys_mmap fd file_size w with
            | (Ret mmap_base, w) =>
                (status, Some (Posix_Mmap {| mmap_base_ := mmap_base; length_ := file_size;
                                             mmap_filename_ := filename |}), w)
            | (Errno e, w) => (PosixError filename e, None, w)
            end
          else (status, None, w) in
        let w := snd (sys_close fd w) in
        env ← (if negb (Status_ok status)
               then ml ← Release (mmap_limiter_ env); Some (set_mmap env ml) else Some env);
        Some (status, result, env, w)
  end.

Definition open_writable (flags : open_flags) (filename : bytes) (w : W) :
  option (Status * option posix_file * W) :=
  match sys_open filename flags w with
  | (Errno e, w) => Some (PosixError filename e, None, w)
  | (Ret fd, w) => f ← PosixWritable_new junk filename fd; Some (Status_OK, Some (Posix_Writable f), w)
  end.

Definition Posix_NewWritableFile := open_writable O_TRUNC_WRONLY_CREAT.
Definition Posix_NewAppendableFile := open_writable O_APPEND_WRONLY_CREAT.

(** The destructors. *)
Definition Posix_delete (f : posix_file) (env : PosixEnv) (w : W) : option (PosixEnv * W) :=
  match f with
  | Posix_Sequential f => Some (env, PosixSequential_delete f w)
  | Posix_RandomAccess f =>
      '(l, w) ← PosixRandomAccess_delete f (fd_limiter_ env) w; Some (set_fd env l, w)
  | Posix_Mmap f => '(l, w) ← PosixMmap_delete f (mmap_limiter_ env) w; Some (set_mmap env l, w)
  | Posix_Writable f => w ← PosixWritable_delete fuel f w; Some (env, w)
  end.

(** ** Names *)

(** A call without a result that names [context] in its error. *)
Definition check (context : bytes) (r : sysret unit * W) : Status * W :=
  match r with
  | (Errno e, w) => (PosixError context e, w)
  | (Ret _, w) => (Status_OK, w)
  end.

Definition Posix_FileExists (filename : bytes) (w : W) : bool * W :=
  match sys_access filename w with (Ret _, w) => (true, w) | (Errno _, w) => (false, w) end.

(** [opendir], [readdir] to the end and [closedir] are one call. *)
Definition Posix_GetChildren (directory_path : bytes) (w : W) : Status * list bytes * W :=
  match sys_readdir directory_path w with
  | (Errno e, w) => (PosixError directory_path e, [], w)
  | (Ret entries, w) => (Status_OK, entries, w)
  end.

Definition Posix_RemoveFile (filename : bytes) (w : W) := check filename (sys_unlink filename w).
Definition Posix_CreateDir (dirname : bytes) (w : W) := check dirname (sys_mkdir dirname w).
Definition Posix_RemoveDir (dirname : bytes) (w : W) := check dirname (sys_rmdir dirname w).
Definition Posix_RenameFile (from to : bytes) (w : W) := check from (sys_rename from to w).

(** The test directory: [TEST_TMPDIR] if it is set and not empty; the snprintf
    cuts at the buffer, which is never needed. *)
Definition Posix_GetTestDirectory (TEST_TMPDIR : option bytes) (euid : Z) (w : W) : Status * bytes * W :=
  let result := match TEST_TMPDIR with
                | Some (x :: e) => x :: e
                | _ => take 99 (str "/tmp/lldbtest-" ++ NumberToString euid)
                end in
  (Status_OK, result, snd (Posix_CreateDir result w)).

(** [tv_sec * kUsecondsPerSecond + tv_usec] *)
Definition NowMicros (tv_sec tv_usec : Z) : Z := u64 (u64 (u64 tv_sec * 1000000) + tv_usec).

(** ** Locks *)

Definition LockOrUnlock (fd : Z) (lock : bool) (w : W) : sysret unit * W :=
  sys_setlk fd {| l_type := if lock then F_WRLCK else F_UNLCK; l_whence := SEEK_SET; l_start := 0; l_len := 0 |} w.

(** [LockFile] up to the table, and from the system call on. *)
Definition LockFile_begin (filename : bytes) (env : PosixEnv) (w : W) :
  Status * option Z * PosixEnv * W :=
  match sys_open filename O_RDWR_CREAT w with
  | (Errno e, w) => (PosixError filename e, None, env, w)
  | (Ret fd, w) =>
      let '(inserted, env) := locks_Insert filename env in
      if negb inserted
      then (IOError (str "lock " ++ filename) (str "already held by process"), None, env, snd (sys_close fd w))
      else (Status_OK, Some fd, env, w)
  end.

Definition LockFile_finish (fd : Z) (filename : bytes) (env : PosixEnv) (w : W) :
  Status * option PosixFileLock * PosixEnv * W :=
  match LockOrUnlock fd true w with
  | (Errno lock_errno, w) =>
      let w := snd (sys_close fd w) in
      (PosixError (str "lock " ++ filename) lock_errno, None, locks_Remove filename env, w)
  | (Ret _, w) => (Status_OK, Some {| lock_fd_ := fd; lock_filename_ := filename |}, env, w)
  end.

Definition LockFile (filename : bytes) (env : PosixEnv) (w : W) :
  Status * option PosixFileLock * PosixEnv * W :=
  let '(s, fd, env, w) := LockFile_begin filename env w in
  match fd with Some fd => LockFile_finish fd filename env w | None => (s, None, env, w) end.

Definition UnlockFile (lock : PosixFileLock) (env : PosixEnv) (w : W) : Status * PosixEnv * W :=
  match LockOrUnlock (lock_fd_ lock) false w with
  | (Errno e, w) => (PosixError (str "unlock " ++ lock_filename_ lock) e, env, w)
  | (Ret _, w) => (Status_OK, locks_Remove (lock_filename_ lock) env, snd (sys_close (lock_fd_ lock) w))
  end.

(** ** With the open files *)

(** The object of a new file, if there is one. *)
Definition install (o : option posix_file) (env : PosixEnv) (w : W) (objs : gmap positive posix_file) :
  option positive * posix_state W :=
  match o with
  | None => (None, Build_posix_state env w objs)
  | Some o => let h := fresh (dom objs) in (Some h, Build_posix_state env w (<[h := o]> objs))
  end.

Definition posix_NewRandomAccessFile (filename : bytes) (st : posix_state W) :
  option (Status * option positive * posix_state W) :=
  '(s, o, e, w) ← Posix_NewRandomAccessFile filename (env st) (sys st);
  let '(h, st) := install o e w (objects st) in Some (s, h, st).

Definition posix_delete (h : positive) (st : posix_state W) : option (posix_state W) :=
  o ← (objects st !! h);
  '(e, w) ← Posix_delete o (env st) (sys st);
  Some (Build_posix_state e w (delete h (objects st))).

Definition with_sys (st : posix_state W) (w : W) : posix_state W :=
  Build_posix_state (env st) w (objects st).
Definition with_file (st : posix_state W) (h : positive) (f : PosixWritableFile) (w : W) : posix_state W :=
  Build_posix_state (env st) w (<[h := Posix_Writable f]> (objects st)).

(** A call that returns a status and changes the system. *)
Definition on_sys (f : W → Status * W) (st : posix_state W) : option (Status * posix_state W) :=
  let '(s, w) := f (sys st) in Some (s, with_sys st w).

(** Operations of the file objects, through their handles. *)
Definition posix_Sequential_Read (h : positive) (n : Z) (scratch : bytes) (st : posix_state W) :
  option (Status * option bytes * bytes * posix_state W) :=
  o ← (objects st !! h);
  match o with
  | Posix_Sequential f =>
      '(s, r, scratch, w) ← PosixSequential_Read fuel f n scratch (sys st); Some (s, r, scratch, with_sys st w)
  | _ => None
  end.

Definition posix_Sequential_Skip (h : positive) (n : Z) (st : posix_state W) :
  option (Status * posix_state W) :=
  o ← (objects st !! h);
  match o with Posix_Sequential f => on_sys (PosixSequential_Skip f n) st | _ => None end.

Definition posix_RandomAccess_Read (h : positive) (offset n : Z) (scratch : bytes) (st : posix_state W) :
  option (Status * option bytes * bytes * posix_state W) :=
  o ← (objects st !! h);
  match o with
  | Posix_RandomAccess f =>
      '(s, r, scratch, w) ← PosixRandomAccess_Read f offset n scratch (sys st);
      Some (s, r, scratch, with_sys st w)
  | Posix_Mmap f => '(s, r) ← PosixMmap_Read f offset n; Some (s, Some r, scratch, st)
  | _ => None
  end.

Definition posix_writable (op : PosixWritableFile → W → option (Status * PosixWritableFile * W))
  (h : positive) (st : posix_state W) : option (Status * posix_state W) :=
  o ← (objects st !! h);
  match o with
  | Posix_Writable f => '(s, f, w) ← op f (sys st); Some (s, with_file st h f w)
  | _ => None
  end.

Definition posix_new_writable (flags : open_flags) (filename : bytes) (st : posix_state W) :
  option (Status * option positive * posix_state W) :=
  '(s, o, w) ← open_writable flags filename (sys st);
  let '(h, st) := install o (env st) w (objects st) in Some (s, h, st).

#[export] Instance PosixEnv_Env : Env (posix_state W) := {|
  NewSequentialFile f st :=
    let '(s, o, w) := Posix_NewSequentialFile f (sys st) in
    let '(h, st) := install o (env st) w (objects st) in Some (s, h, st);
  NewRandomAccessFile := posix_NewRandomAccessFile;
  NewWritableFile := posix_new_writable O_TRUNC_WRONLY_CREAT;
  NewAppendableFile := posix_new_writable O_APPEND_WRONLY_CREAT;
  FileExists f st := let '(b, w) := Posix_FileExists f (sys st) in (b, with_sys st w);
  GetChildren d st := let '(s, l, w) := Posix_GetChildren d (sys st) in Some (s, l, with_sys st w);
  RemoveFile f := on_sys (Posix_RemoveFile f);
  CreateDir d := on_sys (Posix_CreateDir d);
  RemoveDir d := on_sys (Posix_RemoveDir d);
  GetFileSize f st := let '(s, n, w) := Posix_GetFileSize f (sys st) in Some (s, Some n, with_sys st w);
  RenameFile from to := on_sys (Posix_RenameFile from to);
  Sequential_Read := posix_Sequential_Read;
  Sequential_Skip := posix_Sequential_Skip;
  RandomAccess_Read := posix_RandomAccess_Read;
  Writable_Append h data := posix_writable (λ f, PosixWritable_Append fuel f data) h;
  Writable_Close := posix_writable (PosixWritable_Close fuel);
  Writable_Flush := posix_writable (PosixWritable_Flush fuel);
  Writable_Sync := posix_writable (PosixWritable_Sync fuel);
  delete_file := posix_delete |}.

(** ** Locking by several threads *)

Definition lock_access (c : lock_pc) (env : PosixEnv) (w : W) : lock_outcome * PosixEnv * W :=
  match c with
  | L_open filename =>
      match sys_open filename O_RDWR_CREAT w with
      | (Errno e, w) => (Returned (PosixError filename e) None, env, w)
      | (Ret fd, w) => (Next (L_Insert filename fd), env, w)
      end
  | L_Insert filename fd =>
      let '(inserted, env) := locks_Insert filename env in
      (Next (if negb inserted then L_close_refused filename fd else L_lock filename fd), env, w)
  | L_close_refused filename fd =>
      (Returned (IOError (str "lock " ++ filename) (str "already held by process")) None, env,
       snd (sys_close fd w))
  | L_lock filename fd =>
      match LockOrUnlock fd true w with
      | (Errno lock_errno, w) => (Next (L_close filename fd lock_errno), env, w)
      | (Ret _, w) => (Returned Status_OK (Some {| lock_fd_ := fd; lock_filename_ := filename |}), env, w)
      end
  | L_close filename fd lock_errno => (Next (L_Remove filename lock_errno), env, snd (sys_close fd w))
  | L_Remove filename lock_errno =>
      (Returned (PosixError (str "lock " ++ filename) lock_errno) None, locks_Remove filename env, w)
  | U_unlock lock =>
      match LockOrUnlock (lock_fd_ lock) false w with
      | (Errno e, w) => (Returned (PosixError (str "unlock " ++ lock_filename_ lock) e) (Some lock), env, w)
      | (Ret _, w) => (Next (U_Remove lock), env, w)
      end
  | U_Remove lock => (Next (U_close lock), locks_Remove (lock_filename_ lock) env, w)
  | U_close lock => (Returned Status_OK None, env, snd (sys_close (lock_fd_ lock) w))
  end.

(** A call without other threads, in at most [n] accesses. *)
Fixpoint lock_alone (n : nat) (c : lock_pc) (env : PosixEnv) (w : W) :
  option (Status * option PosixFileLock * PosixEnv * W) :=
  match n with
  | O => None
  | S n =>
      match lock_access c env w with
      | (Next c, env, w) => lock_alone n c env w
      | (Returned s lock, env, w) => Some (s, lock, env, w)
      end
  end.

(** A thread calls [LockFile], or [UnlockFile] with a lock that is held, or goes on
    with a call. *)
Inductive lock_action := Call_LockFile (filename : bytes) | Call_UnlockFile (i : nat) | Access (i : nat).

Definition lock_step (a : lock_action) (st : lock_state W) : option (lock_state W) :=
  match a with
  | Call_LockFile filename =>
      Some {| lenv := lenv st; lsys := lsys st; lock_calls := L_open filename :: lock_calls st;
              held := held st |}
  | Call_UnlockFile i =>
      l ← (held st !! i);
      Some {| lenv := lenv st; lsys := lsys st; lock_calls := U_unlock l :: lock_calls st;
              held := delete i (held st) |}
  | Access i =>
      c ← (lock_calls st !! i);
      let '(o, e, w) := lock_access c (lenv st) (lsys st) in
      Some {| lenv := e; lsys := w;
              lock_calls := match o with
                            | Next c => <[i := c]> (lock_calls st)
                            | Returned _ _ => delete i (lock_calls st)
                            end;
              held := match o with Returned _ (Some lock) => lock :: held st | _ => held st end |}
  end.

Fixpoint lock_run (acts : list lock_action) (st : lock_state W) : option (lock_state W) :=
  match acts with [] => Some st | a :: acts => st ← lock_step a st; lock_run acts st end.
End Operations.

(** ** Lemmas: locks *)

Section Locks.
Context {W : Type} `{PF : Platform} `{HP : Posix W}.

(** The file a call has in the table: it is being locked, or still locked. *)
Definition call_file (c : lock_pc) : list bytes :=
  match c with
  | L_lock filename _ | L_close filename _ _ | L_Remove filename _ => [filename]
  | U_unlock lock | U_Remove lock => [lock_filename_ lock]
  | L_open _ | L_Insert _ _ | L_close_refused _ _ | U_close _ => []
  end.

Definition outcome_file (o : lock_outcome) : list bytes :=
  match o with
  | Next c => call_file c
  | Returned _ (Some lock) => [lock_filename_ lock]
  | Returned _ None => []
  end.

Definition lock_files (st : lock_state W) : list bytes :=
  (lock_calls st ≫= call_file) ++ (lock_filename_ <$> held st).

(** [names], without repetition, are what the table holds. *)
Definition listed (env : PosixEnv) (names : list bytes) : Prop :=
  NoDup names ∧ ∀ f, f ∈ locked_files_ env ↔ f ∈ names.

#[export] Instance listed_perm : Proper (eq ==> (≡ₚ) ==> iff) listed.
Proof.
  intros env _ <- l k E. unfold listed. rewrite E. split; (intros [? H]; split; [done|]); intros f;
    [by rewrite <- E|by rewrite E].
Qed.

(** Each access keeps the table in step with the files of the calls. *)
Lemma lock_access_ok c env (w : W) o env' w' rest :
  lock_access c env w = (o, env', w') → listed env (call_file c ++ rest) → listed env' (outcome_file o ++ rest).
Proof.
  destruct c as [f|f fd|f fd|f fd|f fd e|f e|l|l|l]; cbn.
  - destruct (sys_open _ _ w) as [[?|?] ?]; by intros [= <- <- <-].
  - case_bool_decide as Hin; intros [= <- <- <-] [Hn Ht]; split; cbn; try done.
    + constructor; [by rewrite <- Ht|done].
    + intros g. by rewrite elem_of_union, elem_of_singleton, Ht, elem_of_cons.
    + intros g. rewrite elem_of_union, elem_of_singleton, <- Ht. split; [by intros [->|]|by right].
  - by intros [= <- <- <-].
  - destruct (LockOrUnlock fd true w) as [[?|?] ?]; by intros [= <- <- <-].
  - by intros [= <- <- <-].
  - intros [= <- <- <-] [[Hf Hn]%NoDup_cons Ht]. split; [done|]. intros g. cbn.
    rewrite elem_of_difference, elem_of_singleton, Ht, elem_of_cons. split; [tauto|].
    intros Hg. split; [by right|]. by intros ->.
  - destruct (LockOrUnlock _ false w) as [[?|?] ?]; by intros [= <- <- <-].
  - intros [= <- <- <-] [[Hf Hn]%NoDup_cons Ht]. split; [done|]. intros g. cbn.
    rewrite elem_of_difference, elem_of_singleton, Ht, elem_of_cons. split; [tauto|].
    intros Hg. split; [by right|]. by intros ->.
  - by intros [= <- <- <-].
Qed.

Lemma lock_step_ok a (st st' : lock_state W) :
  lock_step a st = Some st' → listed (lenv st) (lock_files st) → listed (lenv st') (lock_files st').
Proof.
  destruct a as [f|i|i]; cbn [lock_step].
  - by intros [= <-].
  - destruct (held st !! i) as [l|] eqn:Hi; [|done]. cbn [mbind option_bind]. intros [= <-].
    unfold lock_files. cbn [lenv lock_calls held].
    rewrite <- (take_drop_middle _ _ _ Hi) at 1. rewrite delete_take_drop, bind_cons. cbn [call_file app].
    rewrite fmap_app, fmap_cons, <- Permutation_middle, fmap_app.
    by rewrite <- Permutation_middle.
  - destruct (lock_calls st !! i) as [c|] eqn:Hi; [|done]. cbn [mbind option_bind].
    destruct (lock_access c (lenv st) (lsys st)) as [[o e] w] eqn:E. intros [= <-].
    set (rest := (take i (lock_calls st) ≫= call_file) ++ (drop (S i) (lock_calls st) ≫= call_file) ++
                 (lock_filename_ <$> held st)).
    assert (lock_files st ≡ₚ call_file c ++ rest) as ->.
    { unfold lock_files. rewrite <- (take_drop_middle _ _ _ Hi) at 1.
      rewrite bind_app, bind_cons, <- !app_assoc. apply Permutation_app_swap_app. }
    intros Hl%(lock_access_ok _ _ _ _ _ _ rest E). cbn [lenv].
    revert Hl. apply listed_perm; [done|]. unfold lock_files. cbn [lock_calls held].
    destruct o as [c'|s [l|]]; cbn [outcome_file app].
    + rewrite insert_take_drop by (by eapply lookup_lt_Some).
      rewrite bind_app, bind_cons, <- !app_assoc. symmetry. apply Permutation_app_swap_app.
    + rewrite delete_take_drop, bind_app, fmap_cons. unfold rest. rewrite <- app_assoc.
      by rewrite <- !Permutation_middle.
    + rewrite delete_take_drop, bind_app. by rewrite <- app_assoc.
Qed.

Lemma lock_run_ok acts (st st' : lock_state W) :
  lock_run acts st = Some st' → listed (lenv st) (lock_files st) → listed (lenv st') (lock_files st').
Proof.
  revert st. induction acts as [|a acts IH]; intros st; cbn [lock_run]; [by intros [= <-]|].
  destruct (lock_step a st) as [st1|] eqn:E; [|done]. cbn [mbind option_bind].
  intros Hrun Hst. eapply IH; [done|]. by eapply lock_step_ok.
Qed.

(** Without other threads the accesses amount to the whole operations. *)
Lemma LockFile_alone filename env (w : W) :
  lock_alone 5 (L_open filename) env w = Some (LockFile filename env w).
Proof.
  unfold LockFile, LockFile_begin. cbn. destruct (sys_open _ _ w) as [[fd|e] w1]; [|done]. cbn.
  case_bool_decide; cbn; [|done]. unfold LockFile_finish.
  by destruct (LockOrUnlock fd true w1) as [[u|e] w2].
Qed.

Lemma UnlockFile_alone lock env (w : W) :
  lock_alone 3 (U_unlock lock) env w
  = let '(s, env, w) := UnlockFile lock env w in
    Some (s, if Status_ok s then None else Some lock, env, w).
Proof.
  unfold UnlockFile. cbn. destruct (LockOrUnlock _ false w) as [[u|e] w1]; cbn; [done|].
  by rewrite PosixError_not_ok.
Qed.
End Locks.

(** ** Lemmas: limits *)

Definition is_mmap (o : posix_file) : bool := match o with Posix_Mmap _ => true | _ => false end.
Definition keeps_fd (o : posix_file) : bool :=
  match o with Posix_RandomAccess f => has_permanent_fd_ f | _ => false end.

(** A limiter that accounts for [n] resources. *)
Definition limiter_at (max : Z) (n : nat) (l : Limiter) : Prop :=
  max_acquires_ l = max ∧ acquires_allowed_ l = max - Z.of_nat n ∧ Z.of_nat n <= max.

Lemma Acquire_at max n l :
  limiter_at max n l →
  ∃ l', Acquire l = Some (bool_decide (Z.of_nat n < max), l') ∧
        limiter_at max (n + if bool_decide (Z.of_nat n < max)%Z then 1 else 0)%nat l'.
Proof.
  intros (Hm & Ha & Hn). unfold Acquire, Acquire_try, Acquire_undo, fetch_add.
  cbn [acquires_allowed_ max_acquires_]. destruct (Z.ltb_spec 0 (acquires_allowed_ l)).
  - rewrite bool_decide_true by lia. eexists. split; [done|]. unfold limiter_at. simpl. lia.
  - rewrite bool_decide_false by lia. rewrite (proj2 (Z.ltb_lt _ _)) by lia.
    eexists. split; [done|]. unfold limiter_at. simpl. lia.
Qed.

Lemma Release_at max n l :
  limiter_at max (S n) l → ∃ l', Release l = Some l' ∧ limiter_at max n l'.
Proof.
  intros (Hm & Ha & Hn). unfold Release, fetch_add. cbn [acquires_allowed_ max_acquires_].
  rewrite (proj2 (Z.ltb_lt _ _)) by lia. eexists. split; [done|]. unfold limiter_at. simpl. lia.
Qed.

Section Limits.
Context {W : Type} `{PF : Platform} `{HP : Posix W} `{HL : !PosixLaws W}.

Definition mmaps (st : posix_state W) : nat := count is_mmap (objects st).
Definition fds (st : posix_state W) : nat := count keeps_fd (objects st).

(** The limiters account for the open files, and a kept descriptor is one. *)
Record limits_ok (max_mmaps max_fds : Z) (st : posix_state W) : Prop := {
  lo_mmap : limiter_at max_mmaps (mmaps st) (mmap_limiter_ (env st));
  lo_fd : limiter_at max_fds (fds st) (fd_limiter_ (env st));
  lo_open h f : objects st !! h = Some (Posix_RandomAccess f) → has_permanent_fd_ f = true → 0 <= ra_fd_ f }.

Lemma limits_install M F o e w objs :
  limiter_at M (count is_mmap objs + if is_mmap o then 1 else 0)%nat (mmap_limiter_ e) →
  limiter_at F (count keeps_fd objs + if keeps_fd o then 1 else 0)%nat (fd_limiter_ e) →
  (∀ h f, objs !! h = Some (Posix_RandomAccess f) → has_permanent_fd_ f = true → 0 <= ra_fd_ f) →
  (∀ f, o = Posix_RandomAccess f → has_permanent_fd_ f = true → 0 <= ra_fd_ f) →
  ∃ h, install (Some o) e w objs = (Some h, Build_posix_state e w (<[h := o]> objs)) ∧
       objs !! h = None ∧ limits_ok M F (Build_posix_state e w (<[h := o]> objs)).
Proof.
  intros HM HF Hobjs Ho. unfold install. set (h := fresh (dom objs)).
  assert (Hh : objs !! h = None) by (apply not_elem_of_dom, is_fresh).
  exists h. split; [done|]. split; [done|]. split; simpl.
  - unfold mmaps. simpl. rewrite count_insert, Nat.add_comm by done. done.
  - unfold fds. simpl. rewrite count_insert, Nat.add_comm by done. done.
  - intros h' f [[_ E]|[_ E]]%lookup_insert_Some; eauto.
Qed.

(** What [NewRandomAccessFile] returns. *)
Definition opened_file (M F : Z) (st : posix_state W) (r : option positive) (st' : posix_state W) : Prop :=
  match r with
  | Some h => objects st !! h = None ∧ ∃ o, objects st' = <[h := o]> (objects st) ∧
      match o with
      | Posix_Mmap _ => Z.of_nat (mmaps st) < M
      | Posix_RandomAccess f => Z.of_nat (mmaps st) = M ∧
          has_permanent_fd_ f = bool_decide (Z.of_nat (fds st) < F)
      | _ => False
      end
  | None => objects st' = objects st
  end.

Lemma NewRandomAccessFile_ok M F st filename :
  limits_ok M F st →
  ∃ s r st', posix_NewRandomAccessFile filename st = Some (s, r, st') ∧ limits_ok M F st' ∧
    opened_file M F st r st' ∧ (Status_ok s = true ↔ is_Some r).
Proof.
  intros [HM HF Ho]. unfold posix_NewRandomAccessFile, Posix_NewRandomAccessFile.
  destruct (sys_open filename O_RDONLY (sys st)) as [[fd|e] w1] eqn:E.
  2:{ cbn. eexists _, _, _. split; [done|]. split; [by split|]. split; [done|].
      rewrite PosixError_not_ok. by split; [|intros []]. }
  destruct (law_sys_open _ _ _ _ _ E) as (_ & Hfd & _). destruct (Hfd fd eq_refl) as [_ Hfd0].
  destruct (Acquire_at _ _ _ HM) as (ml & -> & HM1). cbn [mbind option_bind].
  case_bool_decide as Hlt; cbn [negb].
  - assert (Hfail : ∀ e w, ∃ s r st',
        ('(s, o, e', w') ← (ml' ← Release (mmap_limiter_ (set_mmap (env st) ml));
                            Some (PosixError filename e, None, set_mmap (set_mmap (env st) ml) ml',
                                  snd (sys_close fd w)));
         let '(h, st) := install o e' w' (objects st) in Some (s, h, st)) = Some (s, r, st') ∧
        limits_ok M F st' ∧ opened_file M F st r st' ∧ (Status_ok s = true ↔ is_Some r)).
    { intros e w. rewrite Nat.add_1_r in HM1. destruct (Release_at _ _ _ HM1) as (ml' & E' & HM').
      cbn [set_mmap mmap_limiter_]. rewrite E'. cbn. eexists _, _, _. split; [done|].
      split; [by split|]. split; [done|]. rewrite PosixError_not_ok. by split; [|intros []]. }
    unfold Posix_GetFileSize. destruct (sys_stat filename w1) as [[size|e] w2].
    + cbn [Status_ok Status_OK]. destruct (sys_mmap fd size w2) as [[base|e] w3].
      * cbn [Status_ok Status_OK negb mbind option_bind].
        edestruct (limits_install M F (Posix_Mmap {| mmap_base_ := base; length_ := size; mmap_filename_ := filename |})
                     (set_mmap (env st) ml) (snd (sys_close fd w3)) (objects st)) as (h & Ei & Hh & Hl).
        -- done.
        -- cbn. by rewrite Nat.add_0_r.
        -- exact Ho.
        -- done.
        -- rewrite Ei. eexists _, _, _. split; [done|]. split; [done|]. split; [|done].
           split; [done|]. eexists. split; [done|]. done.
      * rewrite PosixError_not_ok. cbn [negb]. destruct (Hfail e w3) as (s & r & st' & Hf).
        exists s, r, st'. destruct (Release (mmap_limiter_ (set_mmap (env st) ml))); exact Hf.
    + cbn beta iota zeta. rewrite !PosixError_not_ok. cbn [negb]. destruct (Hfail e w2) as (s & r & st' & Hf).
      exists s, r, st'. destruct (Release (mmap_limiter_ (set_mmap (env st) ml))); exact Hf.
  - unfold PosixRandomAccess_new. cbn [set_mmap fd_limiter_].
    destruct (Acquire_at _ _ _ HF) as (fl & -> & HF1). cbn [mbind option_bind].
    edestruct (limits_install M F
        (Posix_RandomAccess {| has_permanent_fd_ := bool_decide (Z.of_nat (fds st) < F);
             ra_fd_ := if bool_decide (Z.of_nat (fds st) < F) then fd else -1; ra_filename_ := filename |})
        (set_fd (set_mmap (env st) ml) fl)
        (if bool_decide (Z.of_nat (fds st) < F) then w1 else snd (sys_close fd w1)) (objects st))
      as (h & Ei & Hh & Hl).
    + done.
    + done.
    + exact Ho.
    + intros f [= <-]. cbn. intros ->. done.
    + rewrite Ei. eexists _, _, _. split; [done|]. split; [done|]. split; [|done].
      split; [done|]. eexists. split; [done|]. split; [|done]. destruct HM as (_ & _ & ?). lia.
Qed.

Lemma limits_delete M F h o e w (st : posix_state W) :
  objects st !! h = Some o →
  (∀ n, count is_mmap (objects st) = ((if is_mmap o then 1 else 0) + n)%nat → limiter_at M n (mmap_limiter_ e)) →
  (∀ n, count keeps_fd (objects st) = ((if keeps_fd o then 1 else 0) + n)%nat → limiter_at F n (fd_limiter_ e)) →
  limits_ok M F st → limits_ok M F (Build_posix_state e w (delete h (objects st))).
Proof.
  intros Hh HM HF [_ _ Ho]. split.
  - apply HM, count_delete, Hh.
  - apply HF, count_delete, Hh.
  - cbn [objects]. intros h' f [_ E]%lookup_delete_Some. eauto.
Qed.

Lemma posix_delete_ok fuel M F (st : posix_state W) h o :
  limits_ok M F st → objects st !! h = Some o →
  (∀ f, o = Posix_Writable f → is_Some (PosixWritable_delete fuel f (sys st))) →
  ∃ st', posix_delete fuel h st = Some st' ∧ limits_ok M F st' ∧ objects st' = delete h (objects st).
Proof.
  intros Hl Hh Hw. pose proof Hl as [HM HF Ho]. unfold posix_delete. rewrite Hh. cbn [mbind option_bind].
  unfold mmaps, fds in *. destruct o as [f|f|f|f]; cbn [Posix_delete].
  - eexists. split; [done|]. split; [|done]. apply (limits_delete _ _ _ _ _ _ _ Hh); [| |done];
      intros n En; cbn in En; simpl in En; by rewrite <- En.
  - unfold PosixRandomAccess_delete. destruct (has_permanent_fd_ f) eqn:Ep.
    + specialize (Ho h f Hh Ep). destruct (Z.eqb_spec (ra_fd_ f) (-1)) as [|_]; [lia|]. cbn [negb].
      pose proof (count_delete keeps_fd _ _ _ Hh) as Hc. cbn [keeps_fd] in Hc. rewrite Ep in Hc.
      rewrite Hc in HF. destruct (Release_at _ _ _ HF) as (l' & -> & HF'). cbn [mbind option_bind].
      eexists. split; [done|]. split; [|done]. apply (limits_delete _ _ _ _ _ _ _ Hh); [| |done];
        intros n En; cbn in En |- *.
      * simpl in En; by rewrite <- En.
      * rewrite Ep in En. replace n with (count keeps_fd (delete h (objects st))) by lia. done.
    + eexists. split; [done|]. split; [|done]. apply (limits_delete _ _ _ _ _ _ _ Hh); [| |done];
        intros n En; cbn in En |- *; rewrite ?Ep in En; simpl in En; by rewrite <- En.
  - unfold PosixMmap_delete. pose proof (count_delete is_mmap _ _ _ Hh) as Hc. cbn [is_mmap] in Hc.
    rewrite Hc in HM. destruct (Release_at _ _ _ HM) as (l' & -> & HM'). cbn [mbind option_bind].
    eexists. split; [done|]. split; [|done]. apply (limits_delete _ _ _ _ _ _ _ Hh); [| |done];
      intros n En; cbn in En |- *.
    + replace n with (count is_mmap (delete h (objects st))) by lia. done.
    + simpl in En; by rewrite <- En.
  - destruct (Hw f eq_refl) as [w' ->]. cbn [mbind option_bind]. eexists. split; [done|]. split; [|done].
    apply (limits_delete _ _ _ _ _ _ _ Hh); [| |done]; intros n En; cbn in En; simpl in En; by rewrite <- En.
Qed.
End Limits.

(** ** Lemmas: writing through the environment *)

Section Writing.
Context {W : Type} `{PF : Platform} `{HP : Posix W} `{HL : !PosixLaws W}.
Context (junk : nat → Byte.byte) (fuel : nat).

(** The handle [h] is the writable file [f] of a state that differs from [st] in
    the system and in [h] only. *)
Definition has_writable (st st' : posix_state W) (h : positive) (f : PosixWritableFile) : Prop :=
  objects st !! h = None ∧ objects st' = <[h := Posix_Writable f]> (objects st) ∧ env st' = env st.

Lemma posix_writable_at st st' h f op s f' w' :
  has_writable st st' h f → op f (sys st') = Some (s, f', w') →
  ∃ st'', posix_writable op h st' = Some (s, st'') ∧ has_writable st st'' h f' ∧ sys st'' = w'.
Proof.
  intros (Hh & Ho & He) E. unfold posix_writable. rewrite Ho, lookup_insert_eq. cbn [mbind option_bind].
  rewrite E. cbn [mbind option_bind]. eexists. split; [done|]. split; [|done].
  split; [done|]. simpl. rewrite Ho. by rewrite insert_insert_eq.
Qed.

Lemma posix_delete_closed st st' h f :
  has_writable st st' h f → fd_ f = -1 →
  posix_delete fuel h st' = Some (with_sys st (sys st')).
Proof.
  intros (Hh & Ho & He) Hfd. unfold posix_delete. rewrite Ho, lookup_insert_eq.
  cbn [mbind option_bind Posix_delete]. unfold PosixWritable_delete. rewrite Hfd. simpl.
  by rewrite delete_insert_id, He.
Qed.

(** Destroying an open file closes it, whatever that returns. *)
Lemma posix_delete_open st st' h f :
  has_writable st st' h f → writable_ok f (sys st') →
  (Z.to_nat kWritableFileBufferSize + pending (sys st') < fuel)%nat →
  ∃ w, posix_delete fuel h st' = Some (with_sys st w).
Proof.
  intros (Hh & Ho & He) Hok Hf. unfold posix_delete. rewrite Ho, lookup_insert_eq.
  cbn [mbind option_bind Posix_delete]. unfold PosixWritable_delete.
  destruct (0 <=? fd_ f).
  - destruct (PosixWritable_Close_spec fuel f (sys st') Hok Hf) as (s & f' & w' & E & _).
    rewrite E. cbn [mbind option_bind]. rewrite delete_insert_id, He by done. by eexists.
  - cbn [mbind option_bind]. rewrite delete_insert_id, He by done. by eexists.
Qed.

(** A new writable file. *)
Lemma posix_new_writable_spec flags filename (st : posix_state W) :
  match sys_open filename flags (sys st) with
  | (Errno e, w) => posix_new_writable junk flags filename st
                    = Some (PosixError filename e, None, with_sys st w)
  | (Ret fd, w) =>
      ∃ h f st', posix_new_writable junk flags filename st = Some (Status_OK, Some h, st') ∧
        has_writable st st' h f ∧ sys st' = w ∧ fd_ f = fd ∧ writable_ok f w ∧
        file_content f w = written w fd ∧ (pending w <= pending (sys st))%nat
  end.
Proof.
  unfold posix_new_writable, open_writable. destruct (sys_open filename flags (sys st)) as [[fd|e] w] eqn:E; [|done].
  destruct (law_sys_open _ _ _ _ _ E) as (_ & Hfd & Hp). destruct (Hfd fd eq_refl) as [Hopen _].
  unfold PosixWritable_new, IsManifest. destruct (split_path filename) as (d & b & -> & -> & _).
  cbn [mbind option_bind]. unfold install. eexists _, _, _. split; [done|].
  split; [split_and!; [apply not_elem_of_dom, is_fresh|done|done]|].
  split; [done|]. split; [done|]. split; [|split; [|done]].
  - split; [apply length_new_bytes|done|done].
  - unfold file_content. apply app_nil_r.
Qed.

(** The file [h] is open, or closed and forgotten: it can be destroyed. *)
Definition can_delete (st st' : posix_state W) (h : positive) : Prop :=
  ∃ w, posix_delete fuel h st' = Some (with_sys st w).

(** The failing path: destroy the file, then remove it. *)
Lemma posix_cleanup st st' h (s : Status) filename :
  can_delete st st' h → Status_ok s = false →
  ∃ w, (e ← posix_delete fuel h st';
        e ← (if negb (Status_ok s) then snd <$> on_sys (Posix_RemoveFile filename) e else Some e);
        Some (s, e)) = Some (s, with_sys st w).
Proof.
  intros [w E] Hs. rewrite E, Hs. cbn [mbind option_bind negb]. unfold on_sys.
  destruct (Posix_RemoveFile filename (sys (with_sys st w))) as [s' w']. by exists w'.
Qed.

(** Syncing, when asked to, and closing. *)
Lemma posix_finish st st1 h f (sync : bool) filename :
  has_writable st st1 h f → writable_ok f (sys st1) →
  (Z.to_nat kWritableFileBufferSize + pending (sys st1) < fuel)%nat →
  ∃ s w, ('(s, e) ← (if sync then posix_writable (PosixWritable_Sync fuel) h st1 else Some (Status_OK, st1));
          '(s, e) ← (if Status_ok s then posix_writable (PosixWritable_Close fuel) h e else Some (s, e));
          e ← posix_delete fuel h e;
          e ← (if negb (Status_ok s) then snd <$> on_sys (Posix_RemoveFile filename) e else Some e);
          Some (s, e)) = Some (s, with_sys st w) ∧
         (Status_ok s = true → written w (fd_ f) = file_content f (sys st1)).
Proof.
  intros Hh Hok Hf.
  assert (∃ s2 f2 st2, (if sync then posix_writable (PosixWritable_Sync fuel) h st1 else Some (Status_OK, st1))
                       = Some (s2, st2) ∧ has_writable st st2 h f2 ∧ writable_ok f2 (sys st2) ∧
                       fd_ f2 = fd_ f ∧ (pending (sys st2) <= pending (sys st1))%nat ∧
                       (Status_ok s2 = true → file_content f2 (sys st2) = file_content f (sys st1)))
    as (s2 & f2 & st2 & E2 & Hh2 & Hok2 & Hfd2 & Hp2 & Hc2).
  { destruct sync; [|by exists Status_OK, f, st1].
    destruct (PosixWritable_Sync_spec fuel f (sys st1) Hok Hf) as (s & f' & w' & E & Hok' & Hfd & Hp & Hs).
    destruct (posix_writable_at st st1 h f _ s f' w' Hh E) as (st2 & E2 & Hh2 & Hsys).
    exists s, f', st2. rewrite Hsys. split_and!; try done. intros Hst. rewrite Hst in Hs.
    destruct Hs as [(_ & _ & _ & _ & Ha) _]. rewrite Hst in Ha. destruct Ha as [_ Ha].
    by rewrite Ha, app_nil_r. }
  rewrite E2. cbn [mbind option_bind]. destruct (Status_ok s2) eqn:Es2.
  - destruct (PosixWritable_Close_spec fuel f2 (sys st2) Hok2) as (s3 & f3 & w3 & E3 & Hfd3 & Hs3); [lia|].
    destruct (posix_writable_at st st2 h f2 _ s3 f3 w3 Hh2 E3) as (st3 & E4 & Hh3 & Hsys3).
    rewrite E4. cbn [mbind option_bind].
    pose proof (posix_delete_closed st st3 h f3 Hh3 Hfd3) as Ed.
    destruct (Status_ok s3) eqn:Es3.
    + rewrite Ed. cbn [mbind option_bind negb]. rewrite Hsys3. eexists _, _. split; [done|].
      intros _. rewrite <- Hfd2, Hs3. by apply Hc2.
    + destruct (posix_cleanup st st3 h s3 filename) as (w & E5); [by eexists|done|].
      rewrite Es3 in E5. rewrite E5. eexists _, _. split; [done|]. congruence.
  - cbn [mbind option_bind].
    destruct (posix_cleanup st st2 h s2 filename) as (w & E5).
    + destruct (posix_delete_open st st2 h f2 Hh2 Hok2) as (w & E5); [lia|]. by exists w.
    + done.
    + rewrite Es2 in E5 |- *. rewrite E5. eexists _, _. split; [done|]. congruence.
Qed.
End Writing.

Lemma DoWriteStringToFile_posix {W : Type} `{Platform} `{Posix W} `{!PosixLaws W} junk fuel
    (st : posix_state W) (data filename : bytes) (sync : bool) :
  (Z.to_nat kWritableFileBufferSize + length data + pending (sys st) < fuel)%nat →
  ∃ s w, @DoWriteStringToFile _ (PosixEnv_Env junk fuel) data filename sync st = Some (s, with_sys st w) ∧
    (Status_ok s = true →
     ∃ fd w0, sys_open filename O_TRUNC_WRONLY_CREAT (sys st) = (Ret fd, w0) ∧
              written w fd = written w0 fd ++ data).
Proof.
  intros Hf. unfold DoWriteStringToFile.
  pose proof (posix_new_writable_spec junk O_TRUNC_WRONLY_CREAT filename st) as Hnew.
  cbn [NewWritableFile PosixEnv_Env]. destruct (sys_open filename O_TRUNC_WRONLY_CREAT (sys st)) as [[fd|e] w0] eqn:E0.
  2:{ rewrite Hnew. cbn [mbind option_bind]. rewrite PosixError_not_ok. cbn [negb].
      eexists _, _. split; [done|]. by rewrite PosixError_not_ok. }
  destruct Hnew as (h & f & st1 & -> & Hh & Hsys & Hfd & Hok & Hc & Hp).
  cbn [mbind option_bind Status_ok Status_OK negb].
  destruct (PosixWritable_Append_spec fuel f data w0 Hok) as (s & f1 & w1 & E1 & Ha & _); [lia|].
  rewrite <- Hsys in E1.
  destruct (posix_writable_at st st1 h f (λ f, PosixWritable_Append fuel f data) s f1 w1 Hh E1) as (st2 & E2 & Hh2 & Hsys2).
  cbn [Writable_Append PosixEnv_Env]. rewrite E2. cbn [mbind option_bind].
  destruct Ha as (Hok1 & (Hfd1 & _) & Hp1 & _ & Hst). rewrite <- Hsys2 in Hok1, Hp1.
  destruct (Status_ok s) eqn:Es.
  - destruct Hst as [-> Hc1]. cbn [andb].
    destruct (posix_finish fuel st st2 h f1 sync filename Hh2 Hok1) as (s' & w & E3 & Hw); [lia|].
    cbn [Writable_Sync Writable_Close delete_file RemoveFile PosixEnv_Env]. rewrite E3. eexists _, _. split; [done|].
    intros Hs'. exists fd, w0. split; [done|]. specialize (Hw Hs').
    rewrite Hfd1, Hfd in Hw. rewrite Hw, Hsys2, Hc1, Hc. done.
  - cbn [andb mbind option_bind]. rewrite Es. cbn [mbind option_bind].
    destruct (posix_cleanup fuel st st2 h s filename) as (w & E3).
    + destruct (posix_delete_open fuel st st2 h f1 Hh2 Hok1) as (w & E3); [lia|]. by exists w.
    + done.
    + cbn [delete_file RemoveFile PosixEnv_Env]. rewrite E3. eexists _, _. split; [done|]. congruence.
Qed.

(** ** Properties *)

(** C30: the environment never has more mapped files, or more descriptors kept for
    random access, than its limits, and its limiters count them exactly, whatever
    the system calls return: a file is mapped while the limit allows it, else read
    through a descriptor that is kept while that limit allows it; an error gives
    back what was acquired; destroying a file gives back what it holds, and no
    assertion fails. *)
Theorem PosixEnv_limits {W : Type} `{Platform} `{Posix W} `{!PosixLaws W} (M F : Z) (st : posix_state W) :
  limits_ok M F st →
  Z.of_nat (mmaps st) <= M ∧ Z.of_nat (fds st) <= F ∧
  (∀ filename, ∃ s r st', posix_NewRandomAccessFile filename st = Some (s, r, st') ∧ limits_ok M F st' ∧
     opened_file M F st r st' ∧ (Status_ok s = true ↔ is_Some r)) ∧
  (∀ fuel h o, objects st !! h = Some o →
     (∀ f, o = Posix_Writable f → is_Some (PosixWritable_delete fuel f (sys st))) →
     ∃ st', posix_delete fuel h st = Some st' ∧ limits_ok M F st' ∧ objects st' = delete h (objects st)).
Proof.
  intros Hl. split_and!; [apply Hl|apply Hl|intros; by apply NewRandomAccessFile_ok|].
  intros fuel h o Hh Hw. by eapply posix_delete_ok.
Qed.

(** C28: two live locks never name the same file, whatever threads call [LockFile]
    and [UnlockFile], interleaved between any two accesses to the system or to the
    table, and whatever the system calls return; the table lists exactly the files
    that are locked, being locked, or being unlocked up to [Remove], each for one lock
    or call, so that locking a locked file once more is refused.  A call without
    others in between does what [LockFile] and [UnlockFile] do as a whole. *)
Theorem PosixLockTable_exclusive {W : Type} `{Platform} `{Posix W} (e : PosixEnv) (w : W) acts st :
  locked_files_ e = ∅ →
  lock_run acts {| lenv := e; lsys := w; lock_calls := []; held := [] |} = Some st →
  NoDup (lock_filename_ <$> held st) ∧
  (∀ f, f ∈ locked_files_ (lenv st) ↔ f ∈ lock_files st) ∧ NoDup (lock_files st) ∧
  (∀ l, l ∈ held st → let '(s, r, _, _) := LockFile (lock_filename_ l) (lenv st) (lsys st) in
     Status_ok s = false ∧ r = None) ∧
  (∀ f, lock_alone 5 (L_open f) (lenv st) (lsys st) = Some (LockFile f (lenv st) (lsys st))) ∧
  (∀ l, lock_alone 3 (U_unlock l) (lenv st) (lsys st)
        = let '(s, env, w) := UnlockFile l (lenv st) (lsys st) in
          Some (s, if Status_ok s then None else Some l, env, w)).
Proof.
  intros He Hrun.
  assert (listed (lenv st) (lock_files st)) as [Hn Hs].
  { eapply lock_run_ok; [done|]. split; [constructor|]. cbn. rewrite He. set_solver. }
  split; [by apply NoDup_app in Hn as (_ & _ & ?)|]. split; [done|]. split; [done|].
  split; [|split; [intros f; apply LockFile_alone|intros l; apply UnlockFile_alone]].
  intros l Hl. unfold LockFile, LockFile_begin.
  destruct (sys_open _ O_RDWR_CREAT (lsys st)) as [[fd|er] w']; cbn; [|by rewrite PosixError_not_ok].
  rewrite bool_decide_false; [done|]. intros Hin. apply Hin, Hs, elem_of_app. right.
  by apply list_elem_of_fmap_2.
Qed.

(** Writing a string to a file through the POSIX environment returns, leaves
    no object behind, and with status OK has written exactly the string to the
    file it opened for truncation, whatever short writes and interruptions there
    were; an [EnvWrapper] changes nothing. *)
Theorem Posix_WriteStringToFile {W : Type} `{Platform} `{Posix W} `{!PosixLaws W} junk fuel
    (st : posix_state W) (data filename : bytes) (sync : bool) :
  (Z.to_nat kWritableFileBufferSize + length data + pending (sys st) < fuel)%nat →
  let HE : Env (posix_state W) := PosixEnv_Env junk fuel in
  ∃ s w, DoWriteStringToFile data filename sync st = Some (s, with_sys st w) ∧
    DoWriteStringToFile data filename sync (Build_EnvWrapper st) = Some (s, Build_EnvWrapper (with_sys st w)) ∧
    (Status_ok s = true →
     ∃ fd w0, sys_open filename O_TRUNC_WRONLY_CREAT (sys st) = (Ret fd, w0) ∧
              written w fd = written w0 fd ++ data).
Proof.
  intros Hf HE.
  assert (∃ s w, DoWriteStringToFile data filename sync st = Some (s, with_sys st w) ∧
    (Status_ok s = true →
     ∃ fd w0, sys_open filename O_TRUNC_WRONLY_CREAT (sys st) = (Ret fd, w0) ∧
              written w fd = written w0 fd ++ data)) as (s & w & E & Hw).
  { by apply DoWriteStringToFile_posix. }
  exists s, w. split; [exact E|]. split; [|exact Hw]. by apply DoWriteStringToFile_wrapper.
Qed.

(** ** Witnesses *)

Lemma PosixEnv_limits_witness :
  let st := Build_posix_state
    {| mmap_limiter_ := {| max_acquires_ := 1; acquires_allowed_ := 1 |};
       fd_limiter_ := {| max_acquires_ := 1; acquires_allowed_ := 1 |}; locked_files_ := ∅ |}
    example_state ∅ in
  ∃ h st1 h' st2,
    @posix_NewRandomAccessFile _ example_platform example_os (str "a") st = Some (Status_OK, Some h, st1) ∧
    @posix_NewRandomAccessFile _ example_platform example_os (str "b") st1 = Some (Status_OK, Some h', st2) ∧
    Z.of_nat (mmaps st2) <= 1 ∧ Z.of_nat (fds st2) <= 1.
Proof.
  intros st. assert (limits_ok 1 1 st) as H0 by (split; [done|done|intros h f E; discriminate E]).
  destruct (@PosixEnv_limits _ example_platform example_os example_os_laws 1 1 st H0) as (_ & _ & Hnew & _).
  destruct (Hnew (str "a")) as (s1 & r1 & st1 & E1 & H1 & _).
  destruct (@PosixEnv_limits _ example_platform example_os example_os_laws 1 1 st1 H1) as (_ & _ & Hnew1 & _).
  destruct (Hnew1 (str "b")) as (s2 & r2 & st2 & E2 & H2 & _).
  destruct (@PosixEnv_limits _ example_platform example_os example_os_laws 1 1 st2 H2) as (Hm & Hf & _).
  pose proof E1 as E1'. vm_compute in E1'. injection E1' as <- <- <-.
  pose proof E2 as E2'. vm_compute in E2'. injection E2' as <- <- <-.
  eexists _, _, _, _. split; [exact E1|]. split; [exact E2|]. split; [exact Hm|exact Hf].
Defined.

Lemma PosixLockTable_exclusive_witness :
  let e := {| mmap_limiter_ := {| max_acquires_ := 1; acquires_allowed_ := 1 |};
              fd_limiter_ := {| max_acquires_ := 1; acquires_allowed_ := 1 |}; locked_files_ := ∅ |} in
  ∃ st, @lock_run _ example_platform example_os
          [Call_LockFile (str "LOCK"); Access 0; Access 0; Call_LockFile (str "LOCK"); Access 0; Access 0; Access 1]
          {| lenv := e; lsys := example_state; lock_calls := []; held := [] |} = Some st ∧
    NoDup (lock_filename_ <$> held st) ∧ length (held st) = 1%nat ∧ length (lock_calls st) = 1%nat.
Proof.
  intros e. destruct (@lock_run _ _ _ _ _) as [st|] eqn:E; [|vm_compute in E; discriminate E].
  exists st. split; [reflexivity|].
  destruct (@PosixLockTable_exclusive _ example_platform example_os e example_state _ st eq_refl E) as (Hn & _).
  split; [exact Hn|]. vm_compute in E. injection E as <-. split; reflexivity.
Defined.

(** [UnlockFile] takes the file off the table before it closes its descriptor: another
    thread may have locked the file by then, and on a POSIX system closing any
    descriptor of a file drops the locks the process has on it. *)
Lemma UnlockFile_window :
  let e := {| mmap_limiter_ := {| max_acquires_ := 1; acquires_allowed_ := 1 |};
              fd_limiter_ := {| max_acquires_ := 1; acquires_allowed_ := 1 |}; locked_files_ := ∅ |} in
  let lock fd := {| lock_fd_ := fd; lock_filename_ := str "LOCK" |} in
  ∃ st, @lock_run _ example_platform example_os
          [Call_LockFile (str "LOCK"); Access 0; Access 0; Access 0; Call_UnlockFile 0; Access 0; Access 0;
           Call_LockFile (str "LOCK"); Access 0; Access 0; Access 0]
          {| lenv := e; lsys := example_state; lock_calls := []; held := [] |} = Some st ∧
    held st = [lock 2] ∧ lock_calls st = [U_close (lock 1)].
Proof.
  intros e lock. destruct (@lock_run _ _ _ _ _) as [st|] eqn:E; [|vm_compute in E; discriminate E].
  exists st. split; [done|]. vm_compute in E. injection E as <-. split; reflexivity.
Qed.

Lemma Posix_WriteStringToFile_witness :
  let fuel := (Z.to_nat kWritableFileBufferSize + 8)%nat in
  let st := Build_posix_state
    {| mmap_limiter_ := {| max_acquires_ := 1; acquires_allowed_ := 1 |};
       fd_limiter_ := {| max_acquires_ := 1; acquires_allowed_ := 1 |}; locked_files_ := ∅ |}
    example_state ∅ in
  let HE := @PosixEnv_Env _ example_platform example_os (λ _, z2b 0) fuel in
  ∃ s w, @DoWriteStringToFile _ HE (str "abc") (str "/d/f") true st = Some (s, with_sys st w) ∧
    (Status_ok s = true → os_out w 1 = str "abc").
Proof.
  intros fuel st HE.
  destruct (@Posix_WriteStringToFile _ example_platform example_os example_os_laws (λ _, z2b 0) fuel
              st (str "abc") (str "/d/f") true) as (s & w & E & _ & Hw).
  { unfold fuel. change (pending (sys st)) with 2%nat. change (length (str "abc")) with 3%nat.
    rewrite <- Nat.add_assoc. apply Nat.add_lt_mono_l. repeat constructor. }
  exists s, w. split; [exact E|]. intros Hs. destruct (Hw Hs) as (fd & w0 & E0 & Ew).
  injection E0 as <- <-. exact Ew.
Defined.
