(* ===== verification/PosixReadBack.v ===== *)
(** * Reading back what was written (util/env.cpp over util/env_posix.cpp)

    [WriteStringToFile] and then [ReadFileToString] through [PosixEnv], on a file
    system: which file a descriptor writes to, and what a file holds, are laws of the
    system calls as POSIX documents them. *)
From Stdlib Require Import ZArith Lia.
From Stdlib Require Import Strings.Byte.
From S2P Require Import Prelude Slice Coding Logging Status Env Limiter PosixFiles PosixEnv.
From stdpp Require Import base gmap fin_maps numbers strings list relations.

#[local] Open Scope Z_scope.

(** ** A file system *)

(** The calls that leave it alone which file the descriptor [fd] writes to, and the
    files that are not written through [fd]. *)
Inductive sys_step {W : Type} `{Platform} `{Posix W} `{!PosixLaws W} (fd : Z) (w : W) : W → Prop :=
  | ss_write d r w' : sys_write fd d w = (r, w') → sys_step fd w w'
  | ss_sync fd' r w' : sys_sync fd' w = (r, w') → sys_step fd w w'
  | ss_fullfsync fd' r w' : sys_fullfsync fd' w = (r, w') → sys_step fd w w'
  | ss_open p r w' : is_open w fd → sys_open p O_RDONLY w = (r, w') → sys_step fd w w'
  | ss_close fd' r w' : sys_close fd' w = (r, w') → sys_step fd w w'.

(** [names w fd p]: [fd] was opened to truncate the file [p], which nobody else
    writes; [reads w fd d]: [fd] has [d] left to read. *)
Class FileSystemLaws (W : Type) `{Platform} `{Posix W} `{!PosixLaws W} := {
  contents : W → bytes → option bytes;
  names : W → Z → bytes → Prop;
  reads : W → Z → bytes → Prop;
  law_names w fd p : names w fd p → contents w p = Some (written w fd);
  law_names_step w w' fd p : names w fd p → sys_step fd w w' → names w' fd p;
  law_open_trunc p w fd w' :
    sys_open p O_TRUNC_WRONLY_CREAT w = (Ret fd, w') → names w' fd p ∧ written w' fd = [];
  law_open_read p w fd w' d :
    contents w p = Some d → sys_open p O_RDONLY w = (Ret fd, w') → reads w' fd d;
  law_reads fd n w r w' d :
    reads w fd d → 0 < n → sys_read fd n w = (r, w') →
    (pending w' <= pending w)%nat ∧
    match r with
    | Ret x => ∃ rest, d = x ++ rest ∧ (x = [] → rest = []) ∧ reads w' fd rest
    | Errno _ => reads w' fd d
    end }.
#[export] Hint Mode FileSystemLaws ! - - - : typeclass_instances.

(** ** Lemmas: what the file objects call *)

Section Paths.
Context {W : Type} `{PF : Platform} `{HP : Posix W} `{HL : !PosixLaws W}.

Abbreviation sys_path fd := (rtc (sys_step fd)).

Lemma sys_step_pending fd (w w' : W) : sys_step fd w w' → (pending w' <= pending w)%nat.
Proof.
  destruct 1 as [d r w' E|fd' r w' E|fd' r w' E|p r w' _ E|fd' r w' E].
  - apply (law_sys_write _ _ _ _ _ E).
  - apply (law_sys_sync _ _ _ _ (or_introl E)).
  - apply (law_sys_sync _ _ _ _ (or_intror E)).
  - apply (law_sys_open _ _ _ _ _ E).
  - apply (law_sys_close _ _ _ _ E).
Qed.

Lemma sys_path_pending fd (w w' : W) : sys_path fd w w' → (pending w' <= pending w)%nat.
Proof. induction 1 as [|w w1 w' H1%sys_step_pending _ IH]; lia. Qed.

(** Writing to [fd] leaves it open. *)
Definition sys_writes (fd : Z) (w w' : W) : Prop := sys_path fd w w' ∧ (is_open w fd → is_open w' fd).

Lemma sys_writes_refl fd (w : W) : sys_writes fd w w.
Proof. by split. Qed.

Lemma sys_writes_trans fd (w w1 w2 : W) : sys_writes fd w w1 → sys_writes fd w1 w2 → sys_writes fd w w2.
Proof. intros [H1 O1] [H2 O2]. split; [by etrans|auto]. Qed.

Lemma WriteUnbuffered_path fuel f data (w : W) s w' :
  WriteUnbuffered fuel f data w = Some (s, w') → sys_writes (fd_ f) w w'.
Proof.
  revert data w. induction fuel as [|fuel IH]; intros data w; cbn [WriteUnbuffered];
    destruct (0 <? Slice_size data); try done; try (intros [= <- <-]; apply sys_writes_refl).
  destruct (sys_write (fd_ f) data w) as [r w1] eqn:E.
  assert (sys_writes (fd_ f) w w1) as H1.
  { split; [by eapply rtc_once, ss_write|]. apply (law_sys_write _ _ _ _ _ E). }
  destruct r as [k|e].
  - intros H2%IH. by eapply sys_writes_trans.
  - destruct (e =? EINTR); [intros H2%IH; by eapply sys_writes_trans|]. by intros [= <- <-].
Qed.

Lemma FlushBuffer_path fuel f (w : W) s f' w' :
  FlushBuffer fuel f w = Some (s, f', w') → sys_writes (fd_ f) w w' ∧ fd_ f' = fd_ f.
Proof.
  unfold FlushBuffer. intros (d & _ & ([s1 w1] & E & H)%bind_Some)%bind_Some. injection H as <- <- <-.
  split; [by eapply WriteUnbuffered_path|done].
Qed.

Lemma PosixWritable_Append_path fuel f data (w : W) s f' w' :
  PosixWritable_Append fuel f data w = Some (s, f', w') → sys_writes (fd_ f) w w' ∧ fd_ f' = fd_ f.
Proof.
  unfold PosixWritable_Append. intros (buf & _ & H)%bind_Some.
  destruct (Slice_size (drop _ data) =? 0); [injection H as <- <- <-; split; [apply sys_writes_refl|done]|].
  apply bind_Some in H as ([[s1 f1] w1] & E1 & H). apply FlushBuffer_path in E1 as [H1 F1]. simpl in *.
  destruct (negb (Status_ok s1)); [by injection H as <- <- <-|].
  destruct (Slice_size (drop _ data) <? kWritableFileBufferSize).
  - apply bind_Some in H as (buf2 & _ & H). by injection H as <- <- <-.
  - apply bind_Some in H as ([s2 w2] & E2 & H). injection H as <- <- <-. apply WriteUnbuffered_path in E2.
    rewrite F1 in E2. split; [by eapply sys_writes_trans|done].
Qed.

Lemma SyncFd_path fd fd' p (w : W) : sys_path fd w (SyncFd fd' p w).2 ∧ (is_open w fd → is_open (SyncFd fd' p w).2 fd).
Proof.
  assert (∀ w : W, sys_writes fd w
    (match sys_sync fd' w with (Ret _, w) => (Status_OK, w) | (Errno e, w) => (PosixError p e, w) end).2) as Hs.
  { intros w1. destruct (sys_sync fd' w1) as [r w2] eqn:E.
    pose proof (law_sys_sync _ _ _ _ (or_introl E)) as (_ & Ho & _).
    destruct r; (split; [by eapply rtc_once, ss_sync|apply Ho]). }
  unfold SyncFd. destruct HAVE_FULLFSYNC; [|apply Hs]. destruct (sys_fullfsync fd' w) as [r w2] eqn:E.
  pose proof (law_sys_sync _ _ _ _ (or_intror E)) as (_ & Ho & _).
  assert (sys_writes fd w w2) as H2 by (split; [by eapply rtc_once, ss_fullfsync|apply Ho]).
  destruct r; [exact H2|]. exact (sys_writes_trans _ _ _ _ H2 (Hs w2)).
Qed.

Lemma SyncDirIfManifest_path f (w : W) :
  is_open w (fd_ f) → sys_writes (fd_ f) w (SyncDirIfManifest f w).2.
Proof.
  intros Ho. unfold SyncDirIfManifest. destruct (negb (is_manifest_ f)); [apply sys_writes_refl|].
  destruct (sys_open (dirname_ f) O_RDONLY w) as [[fd|e] w1] eqn:E;
    pose proof (law_sys_open _ _ _ _ _ E) as (Hk & _ & _); destruct (Hk _ Ho) as (_ & Ho1 & Hne);
    assert (sys_writes (fd_ f) w w1) as H1 by (split; [by eapply rtc_once, ss_open|done]); [|exact H1].
  destruct (SyncFd fd (dirname_ f) w1) as [s w2] eqn:E2. pose proof (SyncFd_path (fd_ f) fd (dirname_ f) w1) as H2.
  rewrite E2 in H2. simpl in *. destruct (sys_close fd w2) as [r w3] eqn:E3. simpl.
  eapply sys_writes_trans; [exact H1|]. eapply sys_writes_trans; [exact H2|].
  split; [by eapply rtc_once, ss_close|]. apply (law_sys_close _ _ _ _ E3). congruence.
Qed.

Lemma PosixWritable_Sync_path fuel f (w : W) s f' w' :
  is_open w (fd_ f) → PosixWritable_Sync fuel f w = Some (s, f', w') → sys_writes (fd_ f) w w' ∧ fd_ f' = fd_ f.
Proof.
  intros Ho. unfold PosixWritable_Sync. pose proof (SyncDirIfManifest_path f w Ho) as H1.
  destruct (SyncDirIfManifest f w) as [s1 w1]. simpl in H1.
  destruct (negb (Status_ok s1)); [by intros [= <- <- <-]|].
  intros ([[s2 f2] w2] & E2 & H)%bind_Some. apply FlushBuffer_path in E2 as [H2 F2].
  pose proof (sys_writes_trans _ _ _ _ H1 H2) as H12.
  destruct (negb (Status_ok s2)); [by injection H as <- <- <-|].
  pose proof (SyncFd_path (fd_ f) (fd_ f2) (filename_ f2) w2) as H3.
  destruct (SyncFd (fd_ f2) (filename_ f2) w2) as [s3 w3]. injection H as <- <- <-.
  split; [exact (sys_writes_trans _ _ _ _ H12 H3)|done].
Qed.

Lemma PosixWritable_Close_path fuel f (w : W) s f' w' :
  PosixWritable_Close fuel f w = Some (s, f', w') → sys_path (fd_ f) w w' ∧ fd_ f' = -1.
Proof.
  unfold PosixWritable_Close. intros ([[s1 f1] w1] & E1 & H)%bind_Some. apply FlushBuffer_path in E1 as [[H1 _] F1].
  destruct (sys_close (fd_ f1) w1) as [r w2] eqn:E2. injection H as _ <- <-. split; [|done].
  etrans; [exact H1|]. by eapply rtc_once, ss_close.
Qed.
End Paths.

(** ** Lemmas: writing and reading a whole file *)

Section RoundTrip.
Context {W : Type} `{PF : Platform} `{HP : Posix W} `{HL : !PosixLaws W} `{HF : !FileSystemLaws W}.
Context (junk : nat → Byte.byte) (fuel : nat).

Lemma names_path fd (w w' : W) p : names w fd p → rtc (sys_step fd) w w' → names w' fd p.
Proof. intros Hn Hr. induction Hr as [|w w1 w' H1 _ IH]; [done|]. by eapply IH, law_names_step. Qed.

(** An operation of the writable file [h]. *)
Lemma posix_writable_inv op h (st st' : posix_state W) s f :
  objects st !! h = Some (Posix_Writable f) → posix_writable op h st = Some (s, st') →
  ∃ f', op f (sys st) = Some (s, f', sys st') ∧ objects st' !! h = Some (Posix_Writable f').
Proof.
  unfold posix_writable. intros ->. cbn [mbind option_bind].
  intros ([[s1 f1] w1] & E & [= <- <-])%bind_Some. exists f1. split; [done|].
  simpl. by rewrite lookup_insert_eq.
Qed.

Lemma posix_new_writable_inv flags filename (st st' : posix_state W) s r :
  posix_new_writable junk flags filename st = Some (s, r, st') → Status_ok s = true →
  ∃ h f fd, r = Some h ∧ sys_open filename flags (sys st) = (Ret fd, sys st') ∧ fd_ f = fd ∧
    objects st' !! h = Some (Posix_Writable f).
Proof.
  intros E Hs. pose proof (posix_new_writable_spec junk flags filename st) as H.
  destruct (sys_open filename flags (sys st)) as [[fd|e] w] eqn:Eo.
  - destruct H as (h & f & st1 & E1 & (_ & Ho & _) & Hsys & Hfd & _). rewrite E1 in E. injection E as <- <- <-.
    exists h, f, fd. rewrite Hsys, Ho, lookup_insert_eq. done.
  - rewrite H in E. injection E as <- <- <-. by rewrite PosixError_not_ok in Hs.
Qed.

(** With status OK the calls were: open the file, then calls that leave it to be
    written by this descriptor. *)
Lemma DoWriteStringToFile_path (st st' : posix_state W) data filename (sync : bool) s :
  @DoWriteStringToFile _ (PosixEnv_Env junk fuel) data filename sync st = Some (s, st') → Status_ok s = true →
  ∃ fd w0, sys_open filename O_TRUNC_WRONLY_CREAT (sys st) = (Ret fd, w0) ∧ rtc (sys_step fd) w0 (sys st').
Proof.
  unfold DoWriteStringToFile. cbn [NewWritableFile Writable_Append Writable_Sync Writable_Close delete_file PosixEnv_Env].
  intros ([[s1 r1] st1] & E1 & H)%bind_Some Hs. destruct (Status_ok s1) eqn:Es1; simpl in H;
    [|injection H as -> ->; congruence].
  destruct (posix_new_writable_inv _ _ _ _ _ _ E1 Es1) as (h & f & fd & -> & Eo & Hfd & Hobj).
  simpl in H. apply bind_Some in H as ([s2 st2] & E2 & H).
  destruct (posix_writable_inv _ _ _ _ _ _ Hobj E2) as (f2 & E2' & Hobj2).
  apply PosixWritable_Append_path in E2' as [P2 F2]. rewrite Hfd in P2, F2.
  assert (is_open (sys st1) fd) as Ho1 by (apply (law_sys_open _ _ _ _ _ Eo); done).
  destruct (Status_ok s2) eqn:Es2; simpl in H.
  2:{ rewrite Es2 in H. simpl in H. apply bind_Some in H as (st3 & _ & H).
      apply bind_Some in H as (st4 & _ & H). injection H as <- <-. congruence. }
  apply bind_Some in H as ([s3 st3] & E3 & H).
  assert (∃ f3, sys_writes fd (sys st2) (sys st3) ∧ fd_ f3 = fd ∧ objects st3 !! h = Some (Posix_Writable f3))
    as (f3 & P3 & F3 & Hobj3).
  { destruct sync; [|injection E3 as <- <-; exists f2; split; [apply sys_writes_refl|done]].
    destruct (posix_writable_inv _ _ _ _ _ _ Hobj2 E3) as (f3 & E3' & Hobj3).
    apply PosixWritable_Sync_path in E3' as [P3 F3]; [|rewrite F2; by apply P2].
    exists f3. rewrite F3, F2 in *. done. }
  apply bind_Some in H as ([s4 st4] & E4 & H). apply bind_Some in H as (st5 & E5 & H).
  apply bind_Some in H as (st6 & E6 & H). injection H as <- <-.
  destruct (Status_ok s3) eqn:Es3; [|injection E4 as <- <-; congruence].
  destruct (posix_writable_inv _ _ _ _ _ _ Hobj3 E4) as (f4 & E4' & Hobj4).
  apply PosixWritable_Close_path in E4' as [P4 F4]. rewrite F3 in P4.
  rewrite Hs in E6. injection E6 as <-.
  unfold posix_delete in E5. rewrite Hobj4 in E5. cbn [mbind option_bind Posix_delete] in E5.
  unfold PosixWritable_delete in E5. rewrite F4 in E5. simpl in E5. injection E5 as <-. simpl.
  exists fd, (sys st1). split; [done|]. etrans; [apply P2|]. etrans; [apply P3|exact P4].
Qed.

Lemma PosixSequential_Read_content fuel' f n scratch d (w : W) :
  reads w (seq_fd_ f) d → 0 < n → n <= Z.of_nat (length scratch) → (pending w < fuel')%nat →
  ∃ s r scratch' w', PosixSequential_Read fuel' f n scratch w = Some (s, r, scratch', w') ∧
    length scratch' = length scratch ∧ (pending w' <= pending w)%nat ∧
    (Status_ok s = true → ∃ x rest, r = Some x ∧ d = x ++ rest ∧ (x = [] → rest = []) ∧ reads w' (seq_fd_ f) rest).
Proof.
  intros Hr Hn Hl. revert w Hr. induction fuel' as [|fuel' IH]; intros w Hr Hf; [lia|]. cbn [PosixSequential_Read].
  destruct (sys_read (seq_fd_ f) n w) as [[x|e] w1] eqn:E;
    destruct (law_reads _ _ _ _ _ _ Hr Hn E) as [Hp H];
    pose proof (law_sys_read _ _ _ _ _ E) as (_ & _ & H1).
  - rewrite mem_write_ok by lia. cbn [mbind option_bind]. eexists _, _, _, _. split; [done|].
    split; [rewrite !length_app, length_drop; simpl; lia|]. split; [done|]. intros _.
    destruct H as (rest & ? & ? & ?). by exists x, rest.
  - destruct (Z.eqb_spec e EINTR) as [He|He].
    + specialize (H1 He). destruct (IH w1 H) as (s & r & sp & w2 & E2 & Hlen & Hp2 & Hs); [lia|].
      exists s, r, sp, w2. split_and!; [done|done|lia|done].
    + eexists _, _, _, _. split; [done|]. split; [done|]. split; [done|]. by rewrite PosixError_not_ok.
Qed.

(** The loop of reads: what there is, or an error after some of it. *)
Lemma Read_fragments_posix fuel' h f (st : posix_state W) d data space :
  objects st !! h = Some (Posix_Sequential f) → reads (sys st) (seq_fd_ f) d →
  length space = Z.to_nat kBufferSize → (pending (sys st) < fuel)%nat → (length d < fuel')%nat →
  ∃ s r w, @Read_fragments _ (PosixEnv_Env junk fuel) fuel' h space data st = Some (s, data ++ r, with_sys st w) ∧
    r `prefix_of` d ∧ (Status_ok s = true → r = d).
Proof.
  revert st d data space. induction fuel' as [|fuel' IH]; intros st d data space Hobj Hr Hsp Hf Hf'; [lia|].
  cbn [Read_fragments Sequential_Read PosixEnv_Env]. unfold posix_Sequential_Read. rewrite Hobj.
  cbn [mbind option_bind].
  destruct (PosixSequential_Read_content fuel f kBufferSize space d (sys st) Hr) as (s1 & r1 & sp1 & w1 & E1 & Hl1 & Hp1 & H1);
    [done|rewrite Hsp; unfold kBufferSize; lia|done|].
  rewrite E1. cbn [mbind option_bind]. destruct (Status_ok s1) eqn:Es1; cbn [negb].
  2:{ exists s1, [], w1. rewrite app_nil_r, Es1. split; [done|]. split; [apply prefix_nil|done]. }
  destruct (H1 eq_refl) as (x & rest & -> & -> & Hx & Hr1). cbn [default from_option id].
  destruct x as [|b x].
  - rewrite Hx by done. simpl. exists s1, [], w1. split; [by rewrite app_nil_r|]. split; [apply prefix_nil|done].
  - change (Slice_empty (b :: x)) with false. cbn iota.
    destruct (IH (with_sys st w1) rest (data ++ b :: x) sp1) as (s & r & w & E & Hpre & Hok);
      [done|done|lia|simpl; lia|rewrite length_app in Hf'; simpl in Hf'; lia|].
    exists s, ((b :: x) ++ r), w. rewrite E. split; [by rewrite <- app_assoc|].
    split; [by apply prefix_app|]. intros Hs. by rewrite Hok.
Qed.

Lemma ReadFileToString_posix fuel' (st : posix_state W) filename d :
  contents (sys st) filename = Some d → (pending (sys st) < fuel)%nat → (length d < fuel')%nat →
  ∃ s r w, @ReadFileToString _ (PosixEnv_Env junk fuel) junk fuel' filename st = Some (s, r, with_sys st w) ∧
    r `prefix_of` d ∧ (Status_ok s = true → r = d).
Proof.
  intros Hc Hf Hf'. unfold ReadFileToString. cbn [NewSequentialFile delete_file PosixEnv_Env].
  unfold Posix_NewSequentialFile. destruct (sys_open filename O_RDONLY (sys st)) as [[fd|e] w1] eqn:Eo.
  2:{ cbn. rewrite PosixError_not_ok. cbn. eexists _, [], _. split; [done|]. split; [apply prefix_nil|].
      by rewrite PosixError_not_ok. }
  pose proof (law_open_read _ _ _ _ _ Hc Eo) as Hr. destruct (law_sys_open _ _ _ _ _ Eo) as (_ & _ & Hp).
  cbn [install mbind option_bind]. set (h := fresh (dom (objects st))).
  assert (objects st !! h = None) as Hh by (apply not_elem_of_dom, is_fresh).
  set (f := {| seq_fd_ := fd; seq_filename_ := filename |}).
  set (st1 := Build_posix_state (env st) w1 (<[h := Posix_Sequential f]> (objects st))).
  cbn [Status_ok Status_OK negb].
  destruct (Read_fragments_posix fuel' h f st1 d [] (new_bytes junk (Z.to_nat kBufferSize)))
    as (s & r & w2 & E & Hpre & Hok); [simpl; by rewrite lookup_insert_eq|done|by rewrite length_new_bytes|simpl; lia|done|].
  cbn [mbind option_bind]. rewrite E. cbn [mbind option_bind].
  unfold posix_delete. cbn [with_sys objects st1]. rewrite lookup_insert_eq. cbn [mbind option_bind Posix_delete].
  eexists s, r, _. split; [|done]. cbn [app]. rewrite delete_insert_id by done. reflexivity.
Qed.
End RoundTrip.

(** ** Property *)

(** C13: a string that was written to a file through the POSIX environment with
    status OK is in the file, and reading the file back returns: the string if the
    status is OK, else a first part of it.  Interruptions, short writes and
    short reads make no difference; no object is left behind. *)
Theorem Posix_write_read {W : Type} `{Platform} `{Posix W} `{!PosixLaws W} `{!FileSystemLaws W} junk fuel fuel'
    (st : posix_state W) (data filename : bytes) (sync : bool) :
  (Z.to_nat kWritableFileBufferSize + length data + pending (sys st) < fuel)%nat → (length data < fuel')%nat →
  let HE : Env (posix_state W) := PosixEnv_Env junk fuel in
  ∃ s w, DoWriteStringToFile data filename sync st = Some (s, with_sys st w) ∧
    (Status_ok s = true →
     contents w filename = Some data ∧
     ∃ s' r w', ReadFileToString junk fuel' filename (with_sys st w) = Some (s', r, with_sys st w') ∧
       r `prefix_of` data ∧ (Status_ok s' = true → r = data)).
Proof.
  intros Hf Hf' HE. destruct (DoWriteStringToFile_posix junk fuel st data filename sync Hf) as (s & w & E & Hw).
  exists s, w. split; [exact E|]. intros Hs. destruct (Hw Hs) as (fd & w0 & Eo & Ew).
  destruct (DoWriteStringToFile_path junk fuel st _ data filename sync s E Hs) as (fd' & w0' & Eo' & Hpath).
  rewrite Eo in Eo'. injection Eo' as <- <-. destruct (law_open_trunc _ _ _ _ Eo) as [Hn He].
  pose proof (law_names _ _ _ (names_path _ _ _ _ Hn Hpath)) as Hc. simpl in Hc. rewrite Ew, He in Hc.
  split; [exact Hc|]. apply sys_path_pending in Hpath. destruct (law_sys_open _ _ _ _ _ Eo) as (_ & _ & Hp).
  destruct (ReadFileToString_posix junk fuel fuel' (with_sys st w) filename data Hc) as (s' & r & w' & E' & Hr);
    [change (sys (with_sys st w)) with w in Hpath |- *; clear Hf'; lia|exact Hf'|]. exists s', r, w'. split; [exact E'|exact Hr].
Qed.

(** ** Witness: a small file system *)

(** [sent]: what was written through a descriptor; [targets]: the files they were
    opened for; [rest_of]: what is left to read; reads and writes follow a script of
    interruptions and lengths. *)
Record fs := {
  files : gmap bytes bytes; sent : gmap Z bytes; targets : gmap Z bytes; rest_of : gmap Z bytes;
  fs_next : nat; fs_script : list (option nat) }.

Definition fs_pop (w : fs) : fs :=
  {| files := files w; sent := sent w; targets := targets w; rest_of := rest_of w;
     fs_next := fs_next w; fs_script := tail (fs_script w) |}.

(** How many bytes of [n] the next call moves; [None] is an interruption. *)
Definition fs_amount (w : fs) (n : nat) : option nat :=
  match fs_script w with [] => Some n | None :: _ => None | Some k :: _ => Some (Nat.min (S k) n) end.

Definition fs_sent (w : fs) (fd : Z) : bytes := default [] (sent w !! fd).

Definition fs_open (p : bytes) (flags : open_flags) (w : fs) : sysret Z * fs :=
  let fd := Z.of_nat (fs_next w) in
  match flags with
  | O_TRUNC_WRONLY_CREAT =>
      (Ret fd, {| files := <[p := []]> (files w); sent := <[fd := []]> (sent w);
                  targets := <[fd := p]> (targets w); rest_of := rest_of w;
                  fs_next := S (fs_next w); fs_script := fs_script w |})
  | O_RDONLY =>
      match files w !! p with
      | Some d => (Ret fd, {| files := files w; sent := sent w; targets := targets w;
                              rest_of := <[fd := d]> (rest_of w); fs_next := S (fs_next w);
                              fs_script := fs_script w |})
      | None => (Errno 2, w)
      end
  | _ => (Errno 22, w)
  end.

Definition fs_read (fd n : Z) (w : fs) : sysret bytes * fs :=
  match rest_of w !! fd, fs_amount w (Z.to_nat n) with
  | None, _ => (Errno 9, w)
  | _, None => (Errno 4, fs_pop w)
  | Some d, Some k =>
      (Ret (take k d), {| files := files w; sent := sent w; targets := targets w;
                          rest_of := <[fd := drop k d]> (rest_of w); fs_next := fs_next w;
                          fs_script := tail (fs_script w) |})
  end.

Definition fs_write (fd : Z) (d : bytes) (w : fs) : sysret Z * fs :=
  match targets w !! fd, fs_amount w (length d) with
  | None, _ => (Errno 9, w)
  | _, None => (Errno 4, fs_pop w)
  | Some p, Some k =>
      (Ret (Z.of_nat k),
       {| files := <[p := default [] (files w !! p) ++ take k d]> (files w);
          sent := <[fd := fs_sent w fd ++ take k d]> (sent w); targets := targets w; rest_of := rest_of w;
          fs_next := fs_next w; fs_script := tail (fs_script w) |})
  end.

Definition fs_ok {A} (a : A) (w : fs) : sysret A * fs := (Ret a, w).

#[local] Instance fs_platform : Platform := example_platform.

#[local] Instance fs_posix : Posix fs := {|
  sys_open := fs_open;
  sys_close _ := fs_ok tt;
  sys_read := fs_read;
  sys_pread fd n _ := fs_read fd n;
  sys_lseek _ _ := fs_ok 0;
  sys_write := fs_write;
  sys_sync _ := fs_ok tt;
  sys_fullfsync _ := fs_ok tt;
  sys_mmap _ _ := fs_ok [];
  sys_munmap _ w := w;
  sys_stat _ := fs_ok 10;
  sys_access _ := fs_ok tt;
  sys_readdir _ := fs_ok [];
  sys_unlink _ := fs_ok tt;
  sys_mkdir _ := fs_ok tt;
  sys_rmdir _ := fs_ok tt;
  sys_rename _ _ := fs_ok tt;
  sys_setlk _ _ := fs_ok tt |}.

Lemma fs_amount_le w n k : fs_amount w n = Some k → (k <= n)%nat ∧ ((0 < n)%nat → (0 < k)%nat).
Proof. unfold fs_amount. destruct (fs_script w) as [|[j|] sc]; intros [= <-]; [lia|]. destruct n; simpl; lia. Qed.

Lemma fs_amount_none w n : fs_amount w n = None → (length (tail (fs_script w)) < length (fs_script w))%nat.
Proof. unfold fs_amount. destruct (fs_script w) as [|[j|] sc]; try done. simpl. lia. Qed.

Lemma length_tail_le {A} (l : list A) : (length (tail l) <= length l)%nat.
Proof. destruct l; simpl; lia. Qed.

#[local, program] Instance fs_laws : PosixLaws fs :=
  {| written := fs_sent; is_open w fd := 0 <= fd < Z.of_nat (fs_next w); pending w := length (fs_script w) |}.
Next Obligation.
  intros fd n w r w' E. cbn in E. unfold fs_read in E.
  destruct (rest_of w !! fd) as [d|]; [|injection E as <- <-; by split_and!].
  destruct (fs_amount w (Z.to_nat n)) as [k|] eqn:Ea; injection E as <- <-.
  - split; [done|]. split; [done|]. apply fs_amount_le in Ea as [Ha _]. rewrite length_take. lia.
  - split; [done|]. split; [done|]. intros _. by eapply fs_amount_none.
Qed.
Next Obligation.
  intros fd d w r w' E. cbn in E. unfold fs_write in E.
  destruct (targets w !! fd) as [p|]; [|injection E as <- <-; by split_and!].
  pose proof (length_tail_le (fs_script w)) as Hl.
  destruct (fs_amount w (length d)) as [k|] eqn:Ea; injection E as <- <-.
  - apply fs_amount_le in Ea as [Ha Hpos]. split; [|split; [done|split; [done|]]].
    + intros fd' Hne. unfold fs_sent. simpl. by rewrite lookup_insert_ne.
    + split; [lia|]. split; [unfold fs_sent; simpl; by rewrite lookup_insert_eq, Nat2Z.id|].
      intros Hk Hd. destruct d; [done|]. simpl in Hpos. lia.
  - split_and!; try done. intros _. by eapply fs_amount_none.
Qed.
Next Obligation. intros fd w r w' [E|E]; cbn in E; injection E as <- <-; simpl; auto. Qed.
Next Obligation.
  intros p fl w r w' E. cbn in E. unfold fs_open in E. destruct fl.
  - destruct (files w !! p); injection E as <- <-; simpl; split_and!; try done; try lia;
      intros fd; try (intros [= <-]; lia); intros Hfd; split_and!; try done; try lia; intros [= ?]; lia.
  - injection E as <- <-. simpl. split; [|split; [intros fd [= <-]; lia|lia]].
    intros fd' Hfd. split; [unfold fs_sent; simpl; rewrite lookup_insert_ne; [done|lia]|]. split; [lia|].
    intros [= ?]. lia.
  - injection E as <- <-. by split_and!.
  - injection E as <- <-. by split_and!.
Qed.
Next Obligation. intros fd w r w' E. cbn in E. injection E as <- <-. by split_and!. Qed.

#[local, program] Instance fs_file_laws : FileSystemLaws fs :=
  {| contents w p := files w !! p;
     names w fd p := targets w !! fd = Some p ∧ files w !! p = Some (fs_sent w fd);
     reads w fd d := rest_of w !! fd = Some d |}.
Next Obligation. by intros w fd p [_ H]. Qed.
Next Obligation.
  intros w w' fd p [Ht Hc] Hst. destruct Hst as [d r w' E|fd' r w' E|fd' r w' E|q r w' Ho E|fd' r w' E]; cbn in E.
  - unfold fs_write in E. rewrite Ht in E. destruct (fs_amount w (length d)); injection E as _ <-; [|done].
    simpl. split; [done|]. unfold fs_sent. simpl. rewrite !lookup_insert_eq, Hc. done.
  - by injection E as _ <-.
  - by injection E as _ <-.
  - unfold fs_open in E. by destruct (files w !! q); injection E as _ <-.
  - by injection E as _ <-.
Qed.
Next Obligation.
  intros p w fd w' E. cbn in E. injection E as <- <-. simpl. unfold fs_sent. simpl. by rewrite !lookup_insert_eq.
Qed.
Next Obligation.
  intros p w fd w' d Hc E. cbn in E. unfold fs_open in E. rewrite Hc in E. injection E as <- <-.
  simpl. by rewrite lookup_insert_eq.
Qed.
Next Obligation.
  intros fd n w r w' d Hr Hn E. cbn in E. unfold fs_read in E. rewrite Hr in E.
  pose proof (length_tail_le (fs_script w)) as Hl.
  destruct (fs_amount w (Z.to_nat n)) as [k|] eqn:Ea; injection E as <- <-; (split; [done|]); [|done].
  apply fs_amount_le in Ea as [_ Hpos]. exists (drop k d). simpl. rewrite take_drop, lookup_insert_eq.
  split; [done|]. split; [|done]. intros Hx. destruct d; [by rewrite drop_nil|].
  destruct k; [lia|done].
Qed.

Lemma Posix_write_read_witness :
  let fuel := (Z.to_nat kWritableFileBufferSize + 8)%nat in
  let st := Build_posix_state
    {| mmap_limiter_ := {| max_acquires_ := 1; acquires_allowed_ := 1 |};
       fd_limiter_ := {| max_acquires_ := 1; acquires_allowed_ := 1 |}; locked_files_ := ∅ |}
    {| files := ∅; sent := ∅; targets := ∅; rest_of := ∅; fs_next := 3; fs_script := [None; Some 0%nat] |} ∅ in
  let HE : Env (posix_state fs) := PosixEnv_Env (λ _, z2b 0) fuel in
  ∃ s w, DoWriteStringToFile (str "abc") (str "/d/f") true st = Some (s, with_sys st w) ∧
    (Status_ok s = true → files w !! str "/d/f" = Some (str "abc")).
Proof.
  intros fuel st HE.
  destruct (Posix_write_read (λ _, z2b 0) fuel 4 st (str "abc") (str "/d/f") true) as (s & w & E & H).
  { unfold fuel. change (pending (sys st)) with 2%nat. change (length (str "abc")) with 3%nat.
    rewrite <- Nat.add_assoc. apply Nat.add_lt_mono_l. repeat constructor. }
  { repeat constructor. }
  exists s, w. split; [exact E|]. intros Hs. exact (proj1 (H Hs)).
Defined.
