(* ===== verification/PosixLogger.v ===== *)
(** * The POSIX logger (util/posix_logger.h)

    [Logv] prints a header and a message into a buffer of 512 bytes or, when that
    is too small, a second time into one that is just large enough.  The text that
    [vsnprintf] makes of the format and its arguments is a parameter; buffers,
    sizes, the terminating null bytes, the [int] results of [snprintf] with its
    failures, and [int] arithmetic are modelled.  [None] is a failed assertion, an
    access outside of the buffer, or a signed overflow. *)
From Stdlib Require Import ZArith Lia.
From Stdlib Require Import Strings.Byte.
From S2P Require Import Prelude Slice Coding Logging.
From stdpp Require Import base numbers strings list.

#[local] Open Scope Z_scope.

(** ** The C library *)

Definition INT_MAX : Z := 2147483647.

(** A result of signed arithmetic; out of the range of [int] there is no behaviour. *)
Definition as_int (z : Z) : option Z :=
  if (- INT_MAX - 1 <=? z) && (z <=? INT_MAX) then Some z else None.

(** The character at an index of type [int]. *)
Definition char_at_int (buf : bytes) (i : Z) : option Byte.byte :=
  if i <? 0 then None else buf !! Z.to_nat i.

Section Logger.
(** What new buffers hold, and what a failing [snprintf] leaves in one; the negative
    number it returns then. *)
Context (junk : nat → Byte.byte) (err : Z).

(** [snprintf(buf + off, size, ...)] of a text: what fits, a null byte, and the
    length of the whole text.  It fails when the arguments cannot be printed (no text)
    or the length is not an [int]. *)
Definition snprintf (buf : bytes) (off size : Z) (text : option bytes) : option (bytes * Z) :=
  if off <? 0 then None
  else
    match text with
    | Some text =>
        if Z.of_nat (length text) <=? INT_MAX then
          if size =? 0 then Some (buf, Z.of_nat (length text))
          else buf ← mem_write buf (Z.to_nat off) (take (Z.to_nat (size - 1)) text ++ [x00]);
               Some (buf, Z.of_nat (length text))
        else buf ← mem_write buf (Z.to_nat off) (new_bytes junk (Z.to_nat size)); Some (buf, err)
    | None => buf ← mem_write buf (Z.to_nat off) (new_bytes junk (Z.to_nat size)); Some (buf, err)
    end.

(** ["%0wd"] *)
Definition printf_0d (w : nat) (n : Z) : bytes :=
  let digits := decimal_digits 20 (Z.abs n) [] in
  if n <? 0 then x2d :: replicate (w - 1 - length digits) x30 ++ digits
  else replicate (w - length digits) x30 ++ digits.

(** ** Operations *)

Record tm := { tm_year : Z; tm_mon : Z; tm_mday : Z; tm_hour : Z; tm_min : Z; tm_sec : Z }.

Definition kMaxThreadIdSize : Z := 32.
Definition kStackBufferSize : Z := 512.

(** [thread_id.resize(kMaxThreadIdSize)] if it is longer. *)
Definition clip_thread_id (thread_id : bytes) : bytes :=
  if kMaxThreadIdSize <? Slice_size thread_id then take (Z.to_nat kMaxThreadIdSize) thread_id else thread_id.

(** The arguments [tm_year + 1900] and [tm_mon + 1] are computed as [int]. *)
Definition header (now : tm) (tv_usec : Z) (thread_id : bytes) : option bytes :=
  year ← as_int (tm_year now + 1900);
  month ← as_int (tm_mon now + 1);
  Some (printf_0d 4 year ++ str "/" ++ printf_0d 2 month ++ str "/" ++
        printf_0d 2 (tm_mday now) ++ str "-" ++ printf_0d 2 (tm_hour now) ++ str ":" ++
        printf_0d 2 (tm_min now) ++ str ":" ++ printf_0d 2 (tm_sec now) ++ str "." ++
        printf_0d 6 tv_usec ++ str " " ++ thread_id ++ str " ").

(** One round of the loop, in a buffer of [buffer_size] bytes: the bytes to
    write, or the size of the dynamic buffer for another round. *)
Definition log_iteration (iteration : nat) (buffer_size : Z) (buffer head : bytes) (message : option bytes) :
  option (bytes + Z) :=
  '(buffer, buffer_offset) ← snprintf buffer 0 buffer_size (Some head);
  if negb (buffer_offset <=? 28 + kMaxThreadIdSize) then None
  else if negb (buffer_offset <? buffer_size) then None
  else
    '(buffer, printed) ← snprintf buffer buffer_offset (buffer_size - buffer_offset) message;
    buffer_offset ← as_int (buffer_offset + printed);
    if buffer_size - 1 <=? buffer_offset then
      if (iteration =? 0)%nat
      then dynamic_buffer_size ← as_int (buffer_offset + 2); Some (inr dynamic_buffer_size)
      else None
    else
      last_char ← char_at_int buffer (buffer_offset - 1);
      '(buffer, buffer_offset) ←
        (if decide (last_char = x0a) then Some (buffer, buffer_offset)
         else buffer ← mem_write buffer (Z.to_nat buffer_offset) [x0a]; Some (buffer, buffer_offset + 1));
      if buffer_offset <=? buffer_size then inl <$> mem_read buffer 0 (Z.to_nat buffer_offset) else None.

(** [Logv]: what [fwrite] is given. *)
Definition Logv (now : tm) (tv_usec : Z) (thread_id : bytes) (message : option bytes) : option bytes :=
  head ← header now tv_usec (clip_thread_id thread_id);
  r ← log_iteration 0 kStackBufferSize (new_bytes junk (Z.to_nat kStackBufferSize)) head message;
  match r with
  | inl written => Some written
  | inr dynamic_buffer_size =>
      r ← log_iteration 1 dynamic_buffer_size (new_bytes junk (Z.to_nat dynamic_buffer_size)) head message;
      match r with inl written => Some written | inr _ => None end
  end.

(** ** Specification *)

(** A line: the text, ended by one newline if it has none at its end. *)
Definition log_line (text : bytes) : bytes :=
  if decide (last text = Some x0a) then text else text ++ [x0a].

(** A date and time with the usual number of digits. *)
Definition usual_time (now : tm) (tv_usec : Z) : Prop :=
  0 <= tm_year now + 1900 < 10000 ∧ 0 <= tm_mon now < 12 ∧ 1 <= tm_mday now <= 31 ∧
  0 <= tm_hour now < 24 ∧ 0 <= tm_min now < 60 ∧ 0 <= tm_sec now <= 60 ∧ 0 <= tv_usec < 1000000.

(** ** Lemmas *)

(** A number below 10^k prints with at most [k] digits, however much fuel. *)
Lemma decimal_digits_short k fuel n acc :
  0 <= n < 10 ^ Z.of_nat (S k) → (S k <= fuel)%nat →
  decimal_digits fuel n acc = decimal_digits (S k) n acc.
Proof.
  revert fuel n acc. induction k as [|k IH]; intros fuel n acc Hn Hf; (destruct fuel as [|fuel]; [lia|]).
  - simpl in Hn |- *. by rewrite (proj2 (Z.ltb_lt _ _)) by lia.
  - cbn [decimal_digits]. destruct (Z.ltb_spec n 10); [done|].
    rewrite Nat2Z.inj_succ, Z.pow_succ_r in Hn by lia.
    apply IH; [|lia]. split; [apply Z.div_pos; lia|apply Z.div_lt_upper_bound; lia].
Qed.

Lemma length_printf_0d k n :
  (0 < k <= 20)%nat → 0 <= n < 10 ^ Z.of_nat k → length (printf_0d k n) = k.
Proof.
  intros Hk Hn. unfold printf_0d. rewrite (proj2 (Z.ltb_ge _ _)), Z.abs_eq by lia.
  destruct k as [|k]; [lia|]. rewrite (decimal_digits_short k) by lia.
  destruct (decimal_digits_spec (S k) n [] Hn) as (ds & -> & _ & _ & Hl); [lia|].
  rewrite app_nil_r, length_app, length_replicate. lia.
Qed.

Lemma as_int_ok z : - INT_MAX - 1 <= z <= INT_MAX → as_int z = Some z.
Proof. intros Hz. unfold as_int. by rewrite !(proj2 (Z.leb_le _ _)) by lia. Qed.

Lemma as_int_value z n : as_int z = Some n → n = z ∧ - INT_MAX - 1 <= z <= INT_MAX.
Proof.
  unfold as_int. destruct (Z.leb_spec (- INT_MAX - 1) z), (Z.leb_spec z INT_MAX); simpl; try done.
  by intros [= <-].
Qed.

Lemma header_ok now us tid :
  usual_time now us → ∃ head, header now us tid = Some head ∧ length head = (28 + length tid)%nat.
Proof.
  intros (Hy & Hmo & Hd & Hh & Hmi & Hs & Hu). unfold header.
  rewrite !as_int_ok by (unfold INT_MAX; lia). eexists. split; [done|].
  rewrite !length_app. rewrite !length_printf_0d by (simpl; lia). simpl. lia.
Qed.

Lemma length_clip_thread_id tid : (length (clip_thread_id tid) <= 32)%nat.
Proof.
  unfold clip_thread_id, Slice_size, kMaxThreadIdSize.
  destruct (Z.ltb_spec 32 (Z.of_nat (length tid))); [rewrite length_take|]; lia.
Qed.

(** A text that fits, printed after what the buffer starts with. *)
Lemma snprintf_fits pre rest text :
  (length text < length rest)%nat → Z.of_nat (length text) <= INT_MAX →
  ∃ rest', snprintf (pre ++ rest) (Z.of_nat (length pre)) (Z.of_nat (length rest)) (Some text)
           = Some (pre ++ text ++ rest', Z.of_nat (length text)) ∧
           length rest' = (length rest - length text)%nat.
Proof.
  intros Hl Hi. unfold snprintf. rewrite (proj2 (Z.ltb_ge _ _)), (proj2 (Z.leb_le _ _)) by lia.
  destruct (Z.eqb_spec (Z.of_nat (length rest)) 0); [lia|].
  rewrite take_ge by lia. rewrite Nat2Z.id. rewrite mem_write_ok by (rewrite !length_app; simpl; lia).
  cbn [mbind option_bind]. rewrite take_app_length.
  rewrite drop_app_ge by (rewrite length_app; lia). rewrite <- app_assoc.
  eexists. split; [done|]. simpl. rewrite length_drop, length_app. simpl. lia.
Qed.

(** A text that does not fit still prints inside of the buffer. *)
Lemma snprintf_cut pre rest text :
  (length rest <= length text)%nat → (0 < length rest)%nat → Z.of_nat (length text) <= INT_MAX →
  ∃ buf, snprintf (pre ++ rest) (Z.of_nat (length pre)) (Z.of_nat (length rest)) (Some text)
         = Some (buf, Z.of_nat (length text)).
Proof.
  intros Hl H0 Hi. unfold snprintf. rewrite (proj2 (Z.ltb_ge _ _)), (proj2 (Z.leb_le _ _)) by lia.
  destruct (Z.eqb_spec (Z.of_nat (length rest)) 0); [lia|].
  rewrite mem_write_ok by (rewrite !length_app, length_take; simpl; lia). by eexists.
Qed.

(** Whether it fits or not, for a text whose length is an [int]. *)
Lemma snprintf_length pre rest text :
  (0 < length rest)%nat → Z.of_nat (length text) <= INT_MAX →
  ∃ buf, snprintf (pre ++ rest) (Z.of_nat (length pre)) (Z.of_nat (length rest)) (Some text)
         = Some (buf, Z.of_nat (length text)).
Proof.
  intros H0 Hi. destruct (Nat.lt_ge_cases (length text) (length rest)) as [Hlt|Hge].
  - destruct (snprintf_fits pre rest text Hlt Hi) as (r & E & _). eauto.
  - by apply snprintf_cut.
Qed.

(** What [vsnprintf] cannot print, or not count. *)
Definition unprintable (message : option bytes) : Prop :=
  match message with Some text => INT_MAX < Z.of_nat (length text) | None => True end.

(** It leaves what the buffer starts with. *)
Lemma snprintf_fails pre rest message :
  unprintable message →
  ∃ rest', snprintf (pre ++ rest) (Z.of_nat (length pre)) (Z.of_nat (length rest)) message
           = Some (pre ++ rest', err) ∧ length rest' = length rest.
Proof.
  intros Hm. exists (new_bytes junk (length rest)). split; [|apply length_new_bytes].
  assert (mem_write (pre ++ rest) (Z.to_nat (Z.of_nat (length pre))) (new_bytes junk (Z.to_nat (Z.of_nat (length rest))))
          = Some (pre ++ new_bytes junk (length rest))) as E.
  { rewrite !Nat2Z.id, mem_write_ok by (rewrite length_new_bytes, length_app; lia).
    rewrite take_app_length, drop_ge by (rewrite length_new_bytes, length_app; lia). by rewrite app_nil_r. }
  unfold snprintf. rewrite (proj2 (Z.ltb_ge _ _)) by lia. destruct message as [text|].
  - simpl in Hm. rewrite (proj2 (Z.leb_gt _ _)) by lia. by rewrite E.
  - by rewrite E.
Qed.

(** The first half of a round. *)
Lemma log_header i buffer head message :
  (0 < length head <= 60)%nat → (length head < length buffer)%nat →
  ∃ rest, length rest = (length buffer - length head)%nat ∧
    log_iteration i (Z.of_nat (length buffer)) buffer head message =
    ('(buf, printed) ← snprintf (head ++ rest) (Z.of_nat (length head)) (Z.of_nat (length rest)) message;
     buffer_offset ← as_int (Z.of_nat (length head) + printed);
     if Z.of_nat (length buffer) - 1 <=? buffer_offset then
       if (i =? 0)%nat
       then dynamic_buffer_size ← as_int (buffer_offset + 2); Some (inr dynamic_buffer_size)
       else None
     else
       last_char ← char_at_int buf (buffer_offset - 1);
       '(buf, buffer_offset) ←
         (if decide (last_char = x0a) then Some (buf, buffer_offset)
          else buf ← mem_write buf (Z.to_nat buffer_offset) [x0a]; Some (buf, buffer_offset + 1));
       if buffer_offset <=? Z.of_nat (length buffer)
       then inl <$> mem_read buf 0 (Z.to_nat buffer_offset) else None).
Proof.
  intros Hh Hb. unfold log_iteration, kMaxThreadIdSize.
  destruct (snprintf_fits [] buffer head) as (r1 & E1 & L1); [lia|unfold INT_MAX; lia|].
  exists r1. split; [done|]. simpl app in E1. simpl length in E1.
  change (Z.of_nat 0) with 0 in E1. rewrite E1. cbn [mbind option_bind].
  rewrite (proj2 (Z.leb_le _ _)) by lia. rewrite (proj2 (Z.ltb_lt _ _)) by lia. cbn [negb].
  by replace (Z.of_nat (length buffer) - Z.of_nat (length head)) with (Z.of_nat (length r1)) by lia.
Qed.

Lemma last_lookup_end (text rest : bytes) x :
  last text = Some x → (text ++ rest) !! (length text - 1)%nat = Some x.
Proof.
  destruct text as [|y text _] using rev_ind; [done|]. rewrite last_snoc. intros [= ->].
  rewrite length_app, lookup_app_l by (rewrite length_app; simpl; lia). simpl.
  rewrite lookup_app_r by lia. by replace (length text + 1 - 1 - length text)%nat with O by lia.
Qed.

(** The second half, when [text] stands in the buffer and room is left: the line. *)
Lemma log_finish text rest (size : Z) :
  (0 < length text)%nat → (length text < length rest + length text)%nat →
  size = Z.of_nat (length text + length rest) →
  (last_char ← char_at_int (text ++ rest) (Z.of_nat (length text) - 1);
   '(buf, buffer_offset) ←
     (if decide (last_char = x0a) then Some (text ++ rest, Z.of_nat (length text))
      else buf ← mem_write (text ++ rest) (Z.to_nat (Z.of_nat (length text))) [x0a];
           Some (buf, Z.of_nat (length text) + 1));
   if buffer_offset <=? size then inl <$> mem_read buf 0 (Z.to_nat buffer_offset) else None)
  = Some (inl (B := Z) (log_line text)).
Proof.
  intros H0 Hr ->. unfold char_at_int. rewrite (proj2 (Z.ltb_ge _ _)) by lia.
  replace (Z.to_nat (Z.of_nat (length text) - 1)) with (length text - 1)%nat by lia.
  destruct (last text) as [x|] eqn:Elast.
  2:{ apply last_None in Elast. apply (f_equal length) in Elast. simpl in Elast. lia. }
  rewrite (last_lookup_end _ _ x Elast). cbn [mbind option_bind].
  unfold log_line. rewrite Elast. destruct (decide (x = x0a)) as [->|Hx].
  - cbn [mbind option_bind]. rewrite (proj2 (Z.leb_le _ _)) by lia. rewrite decide_True by done.
    rewrite mem_read_ok by (rewrite length_app; lia). simpl. f_equal. f_equal.
    apply take_app_length'. lia.
  - rewrite (decide_False (P := Some x = Some x0a)) by congruence.
    rewrite mem_write_ok by (rewrite length_app; simpl; lia). cbn [mbind option_bind].
    rewrite (proj2 (Z.leb_le _ _)) by lia. rewrite take_app_length' by lia.
    rewrite mem_read_ok by (rewrite !length_app, length_drop, length_app; simpl; lia).
    cbn [fmap option_fmap option_map]. f_equal. f_equal. rewrite drop_0, app_assoc.
    apply take_app_length'. rewrite length_app. simpl. lia.
Qed.

(** A round whose buffer is large enough. *)
Lemma log_iteration_fits i buffer head message :
  (0 < length head <= 60)%nat → (length head + length message + 1 < length buffer)%nat →
  Z.of_nat (length head + length message) <= INT_MAX →
  log_iteration i (Z.of_nat (length buffer)) buffer head (Some message) = Some (inl (log_line (head ++ message))).
Proof.
  intros Hh Hb Hi. destruct (log_header i buffer head (Some message)) as (r1 & L1 & ->); [lia..|].
  destruct (snprintf_fits head r1 message) as (r2 & -> & L2); [lia..|]. cbn [mbind option_bind].
  rewrite as_int_ok by (unfold INT_MAX in *; lia). cbn [mbind option_bind].
  rewrite (proj2 (Z.leb_gt _ _)) by lia. rewrite <- Nat2Z.inj_add, <- length_app, app_assoc.
  apply log_finish; rewrite ?length_app; lia.
Qed.

(** The first round, when its buffer is too small. *)
Lemma log_iteration_cut buffer head message :
  (0 < length head <= 60)%nat → (length head < length buffer)%nat →
  (length buffer <= length head + length message + 1)%nat → Z.of_nat (length message) <= INT_MAX →
  log_iteration 0 (Z.of_nat (length buffer)) buffer head (Some message)
  = (offset ← as_int (Z.of_nat (length head + length message));
     size ← as_int (offset + 2); Some (inr size)).
Proof.
  intros Hh Hb Hm Hi. destruct (log_header 0 buffer head (Some message)) as (r1 & L1 & ->); [lia..|].
  destruct (snprintf_length head r1 message) as (buf & ->); [lia..|]. cbn [mbind option_bind].
  rewrite <- Nat2Z.inj_add. destruct (as_int _) as [z|] eqn:Ez; [|done].
  apply as_int_value in Ez as [-> _]. cbn [mbind option_bind]. by rewrite (proj2 (Z.leb_le _ _)) by lia.
Qed.

(** A round whose message fails: the header loses as many characters as the error
    number says. *)
Lemma log_iteration_fails i buffer head message :
  (0 < length head <= 60)%nat → (length head < length buffer)%nat → unprintable message →
  - Z.of_nat (length head) < err < 0 →
  log_iteration i (Z.of_nat (length buffer)) buffer head message
  = Some (inl (log_line (take (Z.to_nat (Z.of_nat (length head) + err)) head))).
Proof.
  intros Hh Hb Hm He. destruct (log_header i buffer head message) as (r1 & L1 & ->); [lia..|].
  destruct (snprintf_fails head r1 message Hm) as (r2 & -> & L2). cbn [mbind option_bind].
  rewrite as_int_ok by (unfold INT_MAX in *; lia). cbn [mbind option_bind].
  rewrite (proj2 (Z.leb_gt _ _)) by lia.
  assert (∃ n, Z.of_nat (length head) + err = Z.of_nat n ∧ (0 < n < length head)%nat) as (n & -> & Hn)
    by (exists (Z.to_nat (Z.of_nat (length head) + err)); lia).
  assert (take (Z.to_nat (Z.of_nat n)) head = take n head) as -> by by rewrite Nat2Z.id.
  assert (n = length (take n head)) as Hlen by (rewrite length_take; lia).
  assert (head ++ r2 = take n head ++ (drop n head ++ r2)) as -> by by rewrite app_assoc, take_drop.
  set (text := take n head) in *.
  rewrite Hlen. apply log_finish; rewrite ?length_app, ?length_drop; lia.
Qed.

(** The outcome of [Logv] in every case, for a usual header. *)
Lemma Logv_cases now tv_usec thread_id head :
  header now tv_usec (clip_thread_id thread_id) = Some head → (28 <= length head <= 60)%nat →
  (∀ message, Z.of_nat (length head + length message) + 2 <= INT_MAX →
     Logv now tv_usec thread_id (Some message) = Some (log_line (head ++ message))) ∧
  (∀ message, Z.of_nat (length message) <= INT_MAX < Z.of_nat (length head + length message) + 2 →
     Logv now tv_usec thread_id (Some message) = None) ∧
  (∀ message, unprintable message → - Z.of_nat (length head) < err < 0 →
     Logv now tv_usec thread_id message
     = Some (log_line (take (Z.to_nat (Z.of_nat (length head) + err)) head))).
Proof.
  intros Ehead Hh. unfold Logv. rewrite Ehead. cbn [mbind option_bind].
  set (buffer := new_bytes junk (Z.to_nat kStackBufferSize)).
  assert (Hb : length buffer = 512%nat) by apply length_new_bytes.
  change kStackBufferSize with (Z.of_nat 512). rewrite <- Hb. split; [|split].
  - intros message Hi. destruct (Nat.lt_ge_cases (length head + length message + 1) (length buffer)) as [Hfit|Hcut].
    + by rewrite log_iteration_fits by lia.
    + rewrite log_iteration_cut by lia. rewrite as_int_ok by (unfold INT_MAX in *; lia).
      cbn [mbind option_bind]. rewrite as_int_ok by (unfold INT_MAX in *; lia). cbn [mbind option_bind].
      set (dynamic := new_bytes junk _).
      assert (Hd : length dynamic = (length head + length message + 2)%nat)
        by (unfold dynamic; rewrite length_new_bytes; lia).
      replace (Z.of_nat (length head + length message) + 2) with (Z.of_nat (length dynamic)) by lia.
      by rewrite log_iteration_fits by lia.
  - intros message Hi. rewrite log_iteration_cut by (unfold INT_MAX in *; lia).
    destruct (as_int _) as [z|] eqn:Ez; [|done]. apply as_int_value in Ez as [-> _]. cbn [mbind option_bind].
    destruct (as_int (_ + 2)) as [z|] eqn:Ez; [|done]. apply as_int_value in Ez. lia.
  - intros message Hm He. by rewrite log_iteration_fails by (done || lia).
Qed.
End Logger.

(** ** Properties *)

(** C37: for a usual date and time and any thread id, the header has at most 60 bytes
    and [Logv] writes one line - the header, the message, and a newline unless the
    message ends with one - whenever header and message and two more bytes can be
    counted by an [int]; no assertion fails, no access is outside of the buffers, and
    the second buffer is large enough.  A message that is longer but can still be
    counted overflows an [int].  When the message cannot be printed or counted, and
    [vsnprintf] returns a negative number (-1 in practice), it is lost with the end of
    the header, without a failed assertion: the line is what is left of the header. *)
Theorem Logv_writes_line junk err now tv_usec thread_id :
  usual_time now tv_usec →
  ∃ head, header now tv_usec (clip_thread_id thread_id) = Some head ∧ (28 <= length head <= 60)%nat ∧
  (∀ message, Z.of_nat (length head + length message) + 2 <= INT_MAX →
     Logv junk err now tv_usec thread_id (Some message) = Some (log_line (head ++ message))) ∧
  (∀ message, Z.of_nat (length message) <= INT_MAX < Z.of_nat (length head + length message) + 2 →
     Logv junk err now tv_usec thread_id (Some message) = None) ∧
  (∀ message, unprintable message → - Z.of_nat (length head) < err < 0 →
     Logv junk err now tv_usec thread_id message
     = Some (log_line (take (Z.to_nat (Z.of_nat (length head) + err)) head))).
Proof.
  intros Ht. destruct (header_ok now tv_usec (clip_thread_id thread_id) Ht) as (head & E & Hl).
  pose proof (length_clip_thread_id thread_id). exists head. split; [done|]. split; [lia|].
  apply Logv_cases; [done|lia].
Qed.

(** ** Witnesses *)

Lemma Logv_writes_line_witness :
  let now := {| tm_year := 125; tm_mon := 5; tm_mday := 3; tm_hour := 10; tm_min := 7; tm_sec := 9 |} in
  Logv (λ _, x00) (-1) now 42 (str "7f") (Some (str "hello"))
    = Some (str "2025/06/03-10:07:09.000042 7f hello" ++ [x0a]) ∧
  Logv (λ _, x00) (-1) now 42 (str "7f") None = Some (str "2025/06/03-10:07:09.000042 7f" ++ [x0a]).
Proof.
  intros now.
  destruct (Logv_writes_line (λ _, x00) (-1) now 42 (str "7f") ltac:(vm_compute; intuition congruence))
    as (head & E & Hl & Hfit & _ & Hfail).
  injection E as <-. split.
  - rewrite Hfit; [reflexivity|vm_compute; congruence].
  - rewrite Hfail; [reflexivity|exact I|vm_compute; split; reflexivity].
Defined.
