(* ===== verification/Loggers.v ===== *)
(** * Loggers (NewLogger in util/env_posix.cpp and helper/memenv/memenv.cpp, Log in
      util/env.cpp, the object of util/posix_logger.h)

    What becomes of a message: [Log] passes it to the logger's [Logv], which for a
    [PosixLogger] formats a line (PosixLogger.v) and gives it to stdio.  The calls of
    stdio are a class, with the order of what is written as its law. *)
From Stdlib Require Import ZArith Lia.
From Stdlib Require Import Strings.Byte.
From S2P Require Import Prelude Logging Status Limiter PosixFiles PosixLogger.
From stdpp Require Import base gmap numbers strings list.

#[local] Open Scope Z_scope.

(** ** stdio *)

(** [sys_fdopen] makes a [FILE] of a descriptor; [stdio_write] is [fwrite] and
    [fflush], whose results the code ignores. *)
Class Stdio (W : Type) := {
  sys_fdopen : Z → W → sysret Z * W;
  stdio_write : Z → bytes → W → W;
  stdio_close : Z → W → W }.
#[export] Hint Mode Stdio ! : typeclass_instances.

(** [logged w fp]: what was written through [fp] since it was opened. *)
Class StdioLaws (W : Type) `{Stdio W} := {
  logged : W → Z → bytes;
  law_fdopen fd w fp w' : sys_fdopen fd w = (Ret fp, w') → logged w' fp = [];
  law_stdio_write fp d w fp' :
    logged (stdio_write fp d w) fp' = if decide (fp' = fp) then logged w fp ++ d else logged w fp' }.
#[export] Hint Mode StdioLaws ! - : typeclass_instances.

(** ** Loggers *)

Inductive Logger := Posix_Logger (fp_ : Z) | NoOpLogger.

(** The time and the thread of a call, and the text of format and arguments, if they
    can be printed. *)
Record log_call := { log_time : tm; log_usec : Z; log_thread : bytes; log_message : option bytes }.

Section Loggers.
Context {W : Type} `{PF : Platform} `{HP : Posix W} `{HS : Stdio W}.
Context (junk : nat → Byte.byte) (err : Z).

(** [errno] is read after [close], which sets it when it fails. *)
Definition Posix_NewLogger (filename : bytes) (w : W) : Status * option Logger * W :=
  match sys_open filename O_APPEND_WRONLY_CREAT w with
  | (Errno e, w) => (PosixError filename e, None, w)
  | (Ret fd, w) =>
      match sys_fdopen fd w with
      | (Errno e, w) =>
          let '(r, w) := sys_close fd w in
          (PosixError filename (match r with Errno e => e | Ret _ => e end), None, w)
      | (Ret fp, w) => (Status_OK, Some (Posix_Logger fp), w)
      end
  end.

Definition Mem_NewLogger (fname : bytes) (w : W) : Status * option Logger * W :=
  (Status_OK, Some NoOpLogger, w).

Definition Logger_Logv (l : Logger) (c : log_call) (w : W) : option W :=
  match l with
  | Posix_Logger fp =>
      written ← Logv junk err (log_time c) (log_usec c) (log_thread c) (log_message c);
      Some (stdio_write fp written w)
  | NoOpLogger => Some w
  end.

Definition Log (info_log : option Logger) (c : log_call) (w : W) : option W :=
  match info_log with None => Some w | Some l => Logger_Logv l c w end.

Definition Logger_delete (l : Logger) (w : W) : W :=
  match l with Posix_Logger fp => stdio_close fp w | NoOpLogger => w end.

Fixpoint Logs (info_log : option Logger) (cs : list log_call) (w : W) : option W :=
  match cs with [] => Some w | c :: cs => w ← Log info_log c w; Logs info_log cs w end.

(** ** Specification *)

Definition call_line (c : log_call) : bytes :=
  log_line (default [] (header (log_time c) (log_usec c) (clip_thread_id (log_thread c))) ++
            default [] (log_message c)).

(** A usual time, and a message that can be printed and counted. *)
Definition usual_call (c : log_call) : Prop :=
  usual_time (log_time c) (log_usec c) ∧
  ∃ text, log_message c = Some text ∧ Z.of_nat (length text) + 62 <= INT_MAX.

(** ** Lemmas *)

Lemma Logv_call c :
  usual_call c →
  Logv junk err (log_time c) (log_usec c) (log_thread c) (log_message c) = Some (call_line c).
Proof.
  intros [Ht (text & Em & Hl)].
  destruct (header_ok (log_time c) (log_usec c) (clip_thread_id (log_thread c)) Ht) as (head & E & Hh).
  pose proof (length_clip_thread_id (log_thread c)). unfold call_line. rewrite Em, E.
  destruct (Logv_cases junk err (log_time c) (log_usec c) (log_thread c) head E) as [H' _]; [lia|].
  exact (H' text ltac:(lia)).
Qed.

(** ** Properties *)

(** [Log] calls with a new logger of [PosixEnv] write one line each, in order, and
    nothing else; they neither fail an assertion nor leave a buffer. *)
Theorem Logger_appends `{HL : !StdioLaws W} filename (w w1 : W) s l cs :
  Posix_NewLogger filename w = (s, Some l, w1) → Forall usual_call cs →
  ∃ fp w2, l = Posix_Logger fp ∧ Logs (Some l) cs w1 = Some w2 ∧ logged w2 fp = concat (call_line <$> cs).
Proof.
  intros Hnew Hcs. unfold Posix_NewLogger in Hnew.
  destruct (sys_open _ _ w) as [[fd|e] w0]; [|done].
  destruct (sys_fdopen fd w0) as [[fp|e] w'] eqn:E; [|destruct (sys_close fd w'); done].
  injection Hnew as <- <- <-. apply law_fdopen in E. exists fp.
  assert (∀ w, ∃ w2, Logs (Some (Posix_Logger fp)) cs w = Some w2 ∧
            logged w2 fp = logged w fp ++ concat (call_line <$> cs)) as H.
  { clear E. induction Hcs as [|c cs Hc _ IH]; intros w2.
    - exists w2. split; [done|]. by rewrite app_nil_r.
    - cbn [Logs Log Logger_Logv].
      rewrite Logv_call by done. cbn [mbind option_bind]. destruct (IH (stdio_write fp (call_line c) w2)) as (w3 & E3 & Hl).
      exists w3. split; [exact E3|]. rewrite Hl, law_stdio_write, decide_True by done.
      by rewrite fmap_cons, concat_cons, app_assoc. }
  destruct (H w') as (w2 & E2 & Hl). exists w2. split; [done|]. split; [done|]. by rewrite Hl, E.
Qed.

(** A failing [close] hides why [fdopen] failed. *)
Lemma NewLogger_errno filename (w w1 w2 w3 : W) fd e e' :
  sys_open filename O_APPEND_WRONLY_CREAT w = (Ret fd, w1) → sys_fdopen fd w1 = (Errno e, w2) →
  sys_close fd w2 = (Errno e', w3) →
  Posix_NewLogger filename w = (PosixError filename e', None, w3).
Proof. unfold Posix_NewLogger. by intros -> -> ->. Qed.

(** Without a logger, or with that of the environment in memory, nothing happens. *)
Lemma Logs_nothing info_log (w : W) cs :
  info_log = None ∨ info_log = Some NoOpLogger → Logs info_log cs w = Some w.
Proof. intros [->| ->]; by induction cs. Qed.
End Loggers.
