(* ===== verification/Singleton.v ===== *)
(** * Objects that are made once and never destroyed (util/no_destructor.h;
      SingletonEnv and Env::Default in util/env_posix.cpp; BytewiseComparator)

    [Env::Default] and [BytewiseComparator] return a pointer into the storage of a
    function-local static.  Any number of threads call them, on the shared memory of
    WeakMemory.v: the language makes the first thread construct the object, lets the
    others wait, and orders the construction before every return; the flag
    [env_initialized_] is a relaxed atomic that orders nothing. *)
From stdpp Require Import base gmap fin_maps numbers list relations.
From Stdlib Require Import Lia.
From S2P Require Import Prelude WeakMemory.

(** ** Memory *)

Inductive Loc := Guard | storage_ | env_initialized_.

#[export] Instance Loc_eq_dec : EqDecision Loc.
Proof. solve_decision. Defined.

Definition Loc_number (l : Loc) : nat := match l with Guard => 0 | storage_ => 1 | env_initialized_ => 2 end.

#[export] Instance Loc_countable : Countable Loc.
Proof.
  apply (inj_countable Loc_number (λ n, match n with
    0 => Some Guard | 1 => Some storage_ | 2 => Some env_initialized_ | _ => None end)).
  by intros [].
Defined.

Section Static.
Context {E : Type}.

(** A flag or an object. *)
Inductive value := Flag (b : bool) | Object (e : E).

Abbreviation memory := (memory Loc value).
Abbreviation view := (view Loc).

(** The class of the static, and the value of the object it holds. *)
Inductive container := SingletonEnv (assertions : bool) | NoDestructor.

Context (class : container) (instance : E).

(** Static storage is zero before anything runs. *)
Definition static_memory : memory :=
  {[ Guard := [{| mval := Some (Flag false); mview := ∅ |}];
     storage_ := [{| mval := None; mview := ∅ |}];
     env_initialized_ := [{| mval := Some (Flag false); mview := ∅ |}] ]}.

(** ** Operations *)

(** The store in the constructor of [SingletonEnv]. *)
Definition store_initialized (mem : memory) (V : view) : memory * view :=
  match class with
  | SingletonEnv true => store relaxed mem V env_initialized_ (Flag true)
  | SingletonEnv false | NoDestructor => (mem, V)
  end.

(** The placement new in the constructors of both classes. *)
Definition construct (mem : memory) (V : view) : memory * view :=
  store relaxed mem V storage_ (Object instance).

(** A use of the object that [env] or [get] points to. *)
Definition get (mem : memory) (V : view) : option E :=
  v ← plain_read mem V storage_; match v with Object e => Some e | Flag _ => None end.

(** [None]: the assertion fails; [t] is the message the relaxed load reads. *)
Definition AssertEnvNotInitialized (mem : memory) (V : view) (t : nat) : option view :=
  match class with
  | SingletonEnv true =>
      '(v, V) ← load relaxed mem V env_initialized_ t;
      match v with Flag false => Some V | _ => None end
  | SingletonEnv false | NoDestructor => Some V
  end.

(** ** Threads *)

(** Where a thread is: outside of the function, at the test of the guard, where it
    waits for the thread that constructs, in the constructor, or returned. *)
Inductive pc := P_outside | P_guard | P_wait | P_flag | P_object | P_publish | P_returned.

(** [constructing] is the thread in the constructor. *)
Record program := { mem : memory; constructing : option nat; pool : list (pc * view) }.

Definition goto (i : nat) (m : memory) (c : option nat) (p : pc) (V : view) (s : program) : program :=
  {| mem := m; constructing := c; pool := <[i := (p, V)]> (pool s) |}.

Definition program_new (n : nat) : program :=
  {| mem := static_memory; constructing := None; pool := replicate n (P_outside, ∅) |}.

(** [Env::Default], [BytewiseComparator].  Who waits sees the guard as the last
    thread in the constructor left it. *)
Inductive step (i : nat) (s : program) : program → Prop :=
  | s_call p V : pool s !! i = Some (p, V) → p = P_outside ∨ p = P_returned →
      step i s (goto i (mem s) (constructing s) P_guard V s)
  | s_guard V t b V' : pool s !! i = Some (P_guard, V) → readable (mem s) V Guard t →
      load acquire (mem s) V Guard t = Some (Flag b, V') →
      step i s (goto i (mem s) (constructing s) (if b then P_returned else P_wait) V' s)
  | s_wait V b V' : pool s !! i = Some (P_wait, V) → constructing s = None →
      load acquire (mem s) V Guard (pred (length (history (mem s) Guard))) = Some (Flag b, V') →
      step i s (if b then goto i (mem s) None P_returned V' s else goto i (mem s) (Some i) P_flag V' s)
  | s_flag V : pool s !! i = Some (P_flag, V) →
      step i s (let '(m, V) := store_initialized (mem s) V in goto i m (Some i) P_object V s)
  | s_object V : pool s !! i = Some (P_object, V) →
      step i s (let '(m, V) := construct (mem s) V in goto i m (Some i) P_publish V s)
  | s_publish V : pool s !! i = Some (P_publish, V) →
      step i s (let '(m, V) := store release (mem s) V Guard (Flag true) in goto i m None P_returned V s)
  | s_assert p V t V' : pool s !! i = Some (p, V) → p = P_outside ∨ p = P_returned →
      readable (mem s) V env_initialized_ t → AssertEnvNotInitialized (mem s) V t = Some V' →
      step i s (goto i (mem s) (constructing s) p V' s)
  (* Other synchronisation between threads, such as that by which they pass the pointer. *)
  | s_sync p V j q Vj : pool s !! i = Some (p, V) → pool s !! j = Some (q, Vj) →
      p = P_outside ∨ p = P_returned →
      step i s (goto i (mem s) (constructing s) p (join V Vj) s).

Definition any_step (s s' : program) : Prop := ∃ i, step i s s'.

(** ** Invariant *)

(** How far the construction is: not begun, the flag is set, the object is there,
    the guard says so. *)
Definition stage (p : pc) : nat := match p with P_flag => 0 | P_object => 1 | P_publish => 2 | _ => 3 end.

Definition in_constructor (p : pc) : Prop := p = P_flag ∨ p = P_object ∨ p = P_publish.

Definition has_flag : bool := match class with SingletonEnv b => b | NoDestructor => false end.

(** The view of a thread after [n] steps of the constructor. *)
Definition sees (V : view) (n : nat) : Prop :=
  (2 ≤ n → 1 ≤ at_ V storage_) ∧ (1 ≤ n → has_flag = true → 1 ≤ at_ V env_initialized_).

Definition bounded (m : memory) (V : view) : Prop := ∀ l, at_ V l < length (history m l).

(** A history with one store at most, made or not. *)
Definition once (h : list (message Loc value)) (v0 : option value) (made : Prop) `{Decision made} (v : value)
    (P : view → Prop) : Prop :=
  ∃ G, h = {| mval := v0; mview := ∅ |} :: (if decide made then [{| mval := Some v; mview := G |}] else []) ∧
       (made → P G).

(** What the histories are after [n] steps of the constructor. *)
Record shape (m : memory) (n : nat) : Prop := {
  sh_guard : once (history m Guard) (Some (Flag false)) (3 ≤ n) (Flag true) (λ G, sees G 3 ∧ bounded m G);
  sh_object : once (history m storage_) None (2 ≤ n) (Object instance) (λ _, True);
  sh_flag : once (history m env_initialized_) (Some (Flag false)) (1 ≤ n ∧ has_flag = true) (Flag true) (λ _, True) }.

Record fits (m : memory) (p : pc) (V : view) : Prop := {
  fits_bounded : bounded m V;
  fits_constructor : in_constructor p → sees V (stage p);
  fits_guard : p = P_returned ∨ 1 ≤ at_ V Guard → sees V 3 }.

Record inv (s : program) : Prop := {
  inv_shape : ∃ n, shape (mem s) n ∧
     match constructing s with
     | Some i => ∃ p V, pool s !! i = Some (p, V) ∧ in_constructor p ∧ n = stage p
     | None => n = 0 ∨ n = 3
     end;
  inv_alone : ∀ i p V, pool s !! i = Some (p, V) → in_constructor p → constructing s = Some i;
  inv_fits : ∀ i p V, pool s !! i = Some (p, V) → fits (mem s) p V }.

Lemma once_length h v0 made `{Decision made} v P :
  once h v0 made v P → length h = if decide made then 2 else 1.
Proof. intros (G & -> & _). by destruct (decide made). Qed.

Lemma once_pos h v0 made `{Decision made} v P : once h v0 made v P → 0 < length h.
Proof. intros (G & -> & _). simpl. lia. Qed.

Lemma once_lookup h v0 made `{Decision made} v P t msg :
  once h v0 made v P → h !! t = Some msg →
  t = 0 ∧ msg = {| mval := v0; mview := ∅ |} ∨ t = 1 ∧ made ∧ mval msg = Some v ∧ P (mview msg).
Proof.
  intros (G & -> & HP) Ht. destruct t as [|t]; [injection Ht as <-; by left|].
  destruct (decide made); [|done]. destruct t; [|done]. injection Ht as <-. right. repeat split; auto.
Qed.

Lemma sees_le V V' n : view_le V V' → sees V n → sees V' n.
Proof.
  intros Hle [H1 H2]. pose proof (Hle storage_). pose proof (Hle env_initialized_).
  split; intros; [specialize (H1 ltac:(lia))|specialize (H2 ltac:(lia) ltac:(done))]; lia.
Qed.

Lemma bounded_empty m n : shape m n → bounded m ∅.
Proof.
  intros [Hg Ho Hf] l. rewrite at_empty.
  destruct l; by eapply once_pos.
Qed.

Lemma bounded_join m V1 V2 : bounded m V1 → bounded m V2 → bounded m (join V1 V2).
Proof. intros H1 H2 l. rewrite at_join. specialize (H1 l). specialize (H2 l). lia. Qed.

Lemma bounded_raise m V l t : bounded m V → t < length (history m l) → bounded m (raise V l t).
Proof. intros HV Ht l'. specialize (HV l'). rewrite at_raise. case_decide; subst; lia. Qed.

Lemma once_make h v0 made `{Decision made} made' `{Decision made'} v P P' G :
  once h v0 made v P → ¬ made → made' → P' G → once (h ++ [{| mval := Some v; mview := G |}]) v0 made' v P'.
Proof.
  intros (G0 & -> & _) Hn Hm HP. exists G. rewrite (decide_True (P := made')), (decide_False (P := made)) by done.
  by split.
Qed.

Lemma once_same h v0 made `{Decision made} made' `{Decision made'} v P P' :
  once h v0 made v P → (made ↔ made') → (made' → ∀ G, P G → P' G) → once h v0 made' v P'.
Proof.
  intros (G & -> & HP) Hiff HPP. exists G. destruct (decide made), (decide made'); try tauto; split; tauto || auto.
Qed.

(** A load of the guard. *)
Lemma load_guard m n V t b V' :
  shape m n → bounded m V → (1 ≤ at_ V Guard → sees V 3) → load acquire m V Guard t = Some (Flag b, V') →
  bounded m V' ∧ (b = true ∨ 1 ≤ at_ V' Guard → sees V' 3) ∧ (b = true → 3 ≤ n).
Proof.
  intros Hs HV Hg. unfold load. destruct (history m Guard !! t) as [msg|] eqn:Et; [|done]. simpl.
  pose proof (lookup_lt_Some _ _ _ Et) as Hlt.
  destruct (once_lookup _ _ _ _ _ _ _ (sh_guard m n Hs) Et) as [[-> ->]|(-> & Hn & Hv & HG & HGb)].
  - simpl. intros [= <- <-]. pose proof (bounded_raise m V Guard 0 HV Hlt) as Hr.
    split; [by apply bounded_join, (bounded_empty m n)|]. split; [|done].
    intros [?|H1]; [done|]. rewrite at_join, at_empty, at_raise, decide_True in H1 by done.
    apply (sees_le V); [|apply Hg; lia]. etrans; [apply raise_le|apply join_l].
  - rewrite Hv. simpl. intros [= <- <-]. split; [apply bounded_join; [by apply bounded_raise|done]|].
    split; [|done]. intros _. eapply sees_le; [apply join_r|done].
Qed.

Lemma fits_mono m m' p V :
  (∀ l, length (history m l) ≤ length (history m' l)) → fits m p V → fits m' p V.
Proof. intros Hle [Hb Hc Hg]. split; [|done..]. intros l. specialize (Hb l). specialize (Hle l). lia. Qed.

Lemma pool_goto i m c p V s j q U :
  pool (goto i m c p V s) !! j = Some (q, U) → j = i ∧ q = p ∧ U = V ∨ j ≠ i ∧ pool s !! j = Some (q, U).
Proof. simpl. intros [(<- & Eq & _)|[? ?]]%list_lookup_insert_Some; [injection Eq as <- <-; auto|auto]. Qed.

Lemma in_constructor_stage p : in_constructor p ↔ stage p < 3.
Proof. unfold in_constructor. destruct p; simpl; split; intros H; try lia; auto; destruct H as [?|[?|?]]; done. Qed.

(** A thread outside of the constructor goes on outside of it. *)
Lemma inv_goto i p V p' V' s :
  inv s → pool s !! i = Some (p, V) → ¬ in_constructor p → ¬ in_constructor p' → fits (mem s) p' V' →
  inv (goto i (mem s) (constructing s) p' V' s).
Proof.
  intros [(n & Hs & Hc) Ha Hf] Hi Hp Hp' Hfit. split.
  - exists n. split; [done|]. simpl. destruct (constructing s) as [k|]; [|done].
    destruct Hc as (q & U & Hk & Hq & ->). exists q, U. rewrite list_lookup_insert_ne by congruence. done.
  - intros j q U [(-> & -> & ->)|[_ Hj]]%pool_goto; [done|]. eauto.
  - intros j q U [(-> & -> & ->)|[_ Hj]]%pool_goto; [done|]. eauto.
Qed.

(** The thread in the constructor goes on to stage [n]. *)
Lemma inv_advance i p V m' c' p' V' s n :
  inv s → pool s !! i = Some (p, V) → n = S (stage p) → in_constructor p → shape m' n →
  (∀ l, length (history (mem s) l) ≤ length (history m' l)) → fits m' p' V' → stage p' = n →
  c' = (if decide (n = 3) then None else Some i) →
  inv (goto i m' c' p' V' s).
Proof.
  intros [_ Ha Hf] Hi Hn Hp Hs Hle Hfit Hp' ->. pose proof (Ha _ _ _ Hi Hp) as Hci. split.
  - exists n. split; [done|]. simpl. apply in_constructor_stage in Hp. case_decide; [by right|]. exists p', V'.
    rewrite list_lookup_insert_eq by (by eapply lookup_lt_Some).
    split; [done|]. split; [apply in_constructor_stage; lia|done].
  - intros j q U [(-> & -> & ->)|[Hji Hj]]%pool_goto Hq; simpl.
    + apply in_constructor_stage in Hq. rewrite decide_False by lia. done.
    + specialize (Ha _ _ _ Hj Hq). congruence.
  - intros j q U [(-> & -> & ->)|[_ Hj]]%pool_goto; [done|]. by apply (fits_mono (mem s)), (Hf j).
Qed.

Lemma store_lengths o (m : memory) (V : view) l v : ∀ l', length (history m l') ≤ length (history (fst (store o m V l v)) l').
Proof. intros l'. rewrite history_store. case_decide; [subst; rewrite length_app; lia|lia]. Qed.

Lemma store_bounded o (m : memory) (V : view) l v : bounded m V → bounded (fst (store o m V l v)) (snd (store o m V l v)).
Proof.
  intros HV l'. specialize (HV l'). rewrite at_store, history_store.
  case_decide; [rewrite length_app; simpl; lia|done].
Qed.

Lemma shape_flag m V : shape m 0 → shape (fst (store_initialized m V)) 1.
Proof.
  intros [Hg Ho Hf]. unfold store_initialized.
  assert (has_flag = true ∨ has_flag = false) as [Eh|Eh] by (destruct has_flag; auto).
  - assert (class = SingletonEnv true) as -> by (unfold has_flag in Eh; by destruct class as [[]|]).
    split; rewrite history_store; simpl.
    + by eapply once_same; [exact Hg|lia|lia].
    + by eapply once_same; [exact Ho|lia|lia].
    + eapply once_make; [exact Hf|lia|done|done].
  - assert (class = SingletonEnv false ∨ class = NoDestructor) as [-> | ->]
      by (unfold has_flag in Eh; destruct class as [[]|]; auto; done);
    (split; [by eapply once_same; [exact Hg|lia|lia]|by eapply once_same; [exact Ho|lia|lia]|]);
    (eapply once_same; [exact Hf|rewrite Eh; split; [lia|by intros [_ ?]]|done]).
Qed.

Lemma shape_object m V : shape m 1 → shape (fst (construct m V)) 2.
Proof.
  intros [Hg Ho Hf]. unfold construct. split; rewrite history_store; simpl.
  - by eapply once_same; [exact Hg|lia|lia].
  - eapply once_make; [exact Ho|lia|lia|done].
  - eapply once_same; [exact Hf|split; intros [? ?]; split; done || lia|done].
Qed.

Lemma shape_publish m V :
  shape m 2 → bounded m V → sees V 2 → shape (fst (store release m V Guard (Flag true))) 3.
Proof.
  intros [Hg Ho Hf] HV Hsees. split; rewrite history_store; simpl.
  - eapply once_make; [exact Hg|lia|lia|]. split; [|by apply (store_bounded release m V Guard (Flag true))].
    destruct Hsees as [H1 H2]. unfold sees. rewrite !at_insert. simpl. split; intros; auto.
  - eapply once_same; [exact Ho|lia|done].
  - eapply once_same; [exact Hf|split; intros [? ?]; split; done || lia|done].
Qed.

Lemma static_new n : inv (program_new n).
Proof.
  assert (shape static_memory 0) as Hs by (split; exists ∅; (split; [reflexivity|lia])).
  split; simpl.
  - exists 0. split; [done|]. by left.
  - intros i p V [[= -> ->] _]%lookup_replicate Hp. apply in_constructor_stage in Hp. simpl in Hp. lia.
  - intros i p V [[= -> ->] _]%lookup_replicate. split; [by apply (bounded_empty _ 0)| |].
    + intros Hp%in_constructor_stage. simpl in Hp. lia.
    + rewrite at_empty. intros [?|?]; [done|lia].
Qed.

Lemma outside_not p : p = P_outside ∨ p = P_returned → ¬ in_constructor p.
Proof. rewrite in_constructor_stage. intros [-> | ->]; simpl; lia. Qed.

Lemma Assert_view m V t V' n :
  shape m n → bounded m V → AssertEnvNotInitialized m V t = Some V' →
  bounded m V' ∧ at_ V' Guard = at_ V Guard ∧ view_le V V'.
Proof.
  intros Hs HV. unfold AssertEnvNotInitialized.
  destruct class as [[]|]; [|by intros [= <-]..].
  unfold load. destruct (history m env_initialized_ !! t) as [msg|] eqn:Et; [|done]. simpl.
  destruct (mval msg) as [[[]|]|]; try done. simpl. intros [= <-].
  split; [apply bounded_raise; [done|by eapply lookup_lt_Some]|]. split; [by rewrite at_raise|apply raise_le].
Qed.

(** A thread enters the constructor. *)
Lemma inv_begin i V V' s :
  inv s → pool s !! i = Some (P_wait, V) → constructing s = None →
  load acquire (mem s) V Guard (pred (length (history (mem s) Guard))) = Some (Flag false, V') →
  bounded (mem s) V' → (1 ≤ at_ V' Guard → sees V' 3) →
  inv (goto i (mem s) (Some i) P_flag V' s).
Proof.
  intros [(n & Hs & Hc) Ha Hf] Hi Hn Hl Hb Hg. rewrite Hn in Hc.
  assert (n = 0) as ->.
  { destruct Hc as [->| ->]; [done|]. exfalso. destruct (sh_guard _ _ Hs) as (G & EG & _).
    rewrite decide_True in EG by lia. unfold load in Hl. rewrite EG in Hl. done. }
  split.
  - exists 0. split; [done|]. exists P_flag, V'. simpl. rewrite list_lookup_insert_eq by (by eapply lookup_lt_Some).
    split; [done|]. split; [by left|done].
  - intros j q U [(-> & -> & ->)|[_ Hj]]%pool_goto Hq; simpl; [done|]. specialize (Ha _ _ _ Hj Hq). congruence.
  - intros j q U [(-> & -> & ->)|[_ Hj]]%pool_goto; [|eauto]. split; [done| |by intros [?|?]; auto].
    intros _. split; simpl; lia.
Qed.

Lemma store_view_le o (m : memory) (V : view) l v : bounded m V → view_le V (snd (store o m V l v)).
Proof. intros HV l'. specialize (HV l'). rewrite at_store. case_decide; [subst; lia|done]. Qed.

(** Instructions of the constructor. *)
Lemma flag_sees m V : sees V 0 → bounded m V →
  let m' := fst (store_initialized m V) in let V' := snd (store_initialized m V) in
  (∀ l, length (history m l) ≤ length (history m' l)) ∧ bounded m' V' ∧ at_ V' Guard = at_ V Guard ∧
  view_le V V' ∧ sees V' 1.
Proof.
  intros _ HV. unfold store_initialized, sees, has_flag.
  destruct class as [[]|]; cbn zeta; [|by repeat split; [..|lia|]..].
  split; [apply store_lengths|]. split; [by apply store_bounded|]. rewrite !at_store. simpl.
  split; [done|]. split; [by apply (store_view_le relaxed m V env_initialized_ (Flag true))|]. split; [lia|].
  specialize (HV env_initialized_). lia.
Qed.

Lemma inv_stage i p V s :
  inv s → pool s !! i = Some (p, V) → in_constructor p →
  shape (mem s) (stage p) ∧ bounded (mem s) V ∧ sees V (stage p).
Proof.
  intros [(n & Hs & Hc) Ha Hf] Hi Hp. rewrite (Ha _ _ _ Hi Hp) in Hc. destruct Hc as (q & U & Hq & _ & ->).
  rewrite Hi in Hq. injection Hq as <- <-. destruct (Hf _ _ _ Hi). auto.
Qed.

Lemma static_step i s s' : inv s → step i s s' → inv s'.
Proof.
  intros Hinv Hst. pose proof Hinv as [(n & Hs & Hc) Ha Hf].
  destruct Hst as [p V Hi Hp|V t b V' Hi _ Hl|V b V' Hi Hn Hl|V Hi|V Hi|V Hi|p V t V' Hi Hp _ Ht|p V j q Vj Hi Hj Hp].
  - destruct (Hf _ _ _ Hi) as [Hb _ Hg]. eapply inv_goto; [done|done|by apply outside_not|..].
    + rewrite in_constructor_stage. simpl. lia.
    + split; [done|by intros ?%in_constructor_stage; simpl in *; lia|]. intros [?|?]; [done|auto].
  - destruct (Hf _ _ _ Hi) as [Hb _ Hg]. destruct (load_guard _ n _ _ _ _ Hs Hb ltac:(auto) Hl) as (Hb' & Hg' & _).
    assert (¬ in_constructor (if b then P_returned else P_wait)) as Hp'
      by (rewrite in_constructor_stage; destruct b; simpl; lia).
    eapply inv_goto; [done|exact Hi|rewrite in_constructor_stage; simpl; lia|done|].
    split; [done|done|]. destruct b; intros [?|?]; try done; auto.
  - destruct (Hf _ _ _ Hi) as [Hb _ Hg].
    destruct (load_guard _ n _ _ _ _ Hs Hb ltac:(auto) Hl) as (Hb' & Hg' & Hn3). rewrite Hn in Hc. destruct b.
    + rewrite <- Hn. eapply inv_goto; [done|exact Hi|rewrite in_constructor_stage; simpl; lia|..].
      * rewrite in_constructor_stage; simpl; lia.
      * split; [done|intros ?%in_constructor_stage; simpl in *; lia|auto].
    + apply (inv_begin i V V' s); auto.
  - destruct (inv_stage _ _ _ _ Hinv Hi ltac:(by left)) as (Hs0 & Hb & Hsee).
    destruct (flag_sees _ _ Hsee Hb) as (Hlen & Hb' & Hg' & Hle & Hsee').
    pose proof (shape_flag _ V Hs0) as Hs'. destruct (Hf _ _ _ Hi) as [_ _ Hg].
    destruct (store_initialized (mem s) V) as [m V']. simpl in *.
    apply (inv_advance i P_flag V _ _ _ _ _ 1); try done; [by left|].
    split; [done|done|]. rewrite Hg'. intros [?|?]; [done|]. apply (sees_le V); auto.
  - destruct (inv_stage _ _ _ _ Hinv Hi ltac:(by right; left)) as (Hs0 & Hb & Hsee).
    pose proof (shape_object _ V Hs0) as Hs'. destruct (Hf _ _ _ Hi) as [_ _ Hg].
    pose proof (store_view_le relaxed _ _ storage_ (Object instance) Hb) as Hle.
    apply (inv_advance i P_object V _ _ _ _ _ 2); try done; [by right; left|apply (store_lengths relaxed (mem s) V storage_ (Object instance))|].
    split; [by apply (store_bounded relaxed (mem s) V storage_ (Object instance))| |].
    + intros _. split; [intros _; rewrite at_insert; simpl; specialize (Hb storage_); lia|].
      intros _ Hh. etrans; [by apply Hsee|]. apply Hle.
    + rewrite at_insert. simpl. intros [?|?]; [done|]. apply (sees_le V); auto.
  - destruct (inv_stage _ _ _ _ Hinv Hi ltac:(by right; right)) as (Hs0 & Hb & Hsee).
    pose proof (shape_publish _ V Hs0 Hb Hsee) as Hs'.
    pose proof (store_view_le release _ _ Guard (Flag true) Hb) as Hle.
    apply (inv_advance i P_publish V _ _ _ _ _ 3); try done; [by right; right|apply (store_lengths release (mem s) V Guard (Flag true))|].
    split; [by apply (store_bounded release (mem s) V Guard (Flag true))|intros ?%in_constructor_stage; simpl in *; lia|].
    intros _. apply (sees_le V); [done|]. destruct Hsee as [H1 H2]. simpl in *. split; intros; [|apply H2]; auto with lia.
  - destruct (Hf _ _ _ Hi) as [Hb _ Hg]. destruct (Assert_view _ _ _ _ _ Hs Hb Ht) as (Hb' & Hg' & Hle).
    eapply inv_goto; [done|exact Hi|by apply outside_not|by apply outside_not|].
    split; [done|by intros ?%outside_not|]. rewrite Hg'. intros H. apply (sees_le V); auto.
  - destruct (Hf _ _ _ Hi) as [Hb _ Hg]. destruct (Hf _ _ _ Hj) as [Hbj _ Hgj].
    eapply inv_goto; [done|exact Hi|by apply outside_not|by apply outside_not|].
    split; [by apply bounded_join|by intros ?%outside_not|]. rewrite at_join. intros H.
    destruct (decide (1 ≤ at_ Vj Guard)); [apply (sees_le Vj); [apply join_r|auto]|].
    apply (sees_le V); [apply join_l|]. apply Hg. destruct H as [?|?]; [by left|right; lia].
Qed.

Lemma inv_reachable k s : rtc any_step (program_new k) s → inv s.
Proof.
  intros Hr. revert s Hr. refine (rtc_ind_r _ _ _ _); [apply static_new|]. intros s s' _ [i Hst] IH. by eapply static_step.
Qed.

(** What a thread that sees the whole construction reads. *)
Lemma sees_get m V n : shape m n → bounded m V → 1 ≤ at_ V storage_ → get m V = Some instance.
Proof.
  intros Hs HV H1. specialize (HV storage_). destruct (sh_object m n Hs) as (G & Eh & _).
  unfold get, plain_read. rewrite Eh in *. destruct (decide (2 ≤ n)); simpl in *; [|lia].
  by rewrite decide_True by lia.
Qed.

Lemma sees_assert m V n t :
  shape m n → has_flag = true → 1 ≤ at_ V env_initialized_ → readable m V env_initialized_ t →
  AssertEnvNotInitialized m V t = None.
Proof.
  intros Hs Hh H1 [Ht Hlt]. unfold has_flag in Hh. destruct class as [b|] eqn:Ec; [subst b|done].
  unfold AssertEnvNotInitialized. rewrite Ec. unfold load.
  destruct (history m env_initialized_ !! t) as [msg|] eqn:Et; [|done]. simpl.
  destruct (once_lookup _ _ _ _ _ _ _ (sh_flag m n Hs) Et) as [[-> _]|(_ & _ & -> & _)]; [lia|done].
Qed.

(** The thread in the constructor is never blocked. *)
Lemma constructor_steps i p V s : pool s !! i = Some (p, V) → in_constructor p → ∃ s', step i s s'.
Proof. intros Hi [->|[->| ->]]; eexists; [by eapply s_flag|by eapply s_object|by eapply s_publish]. Qed.

Lemma load_total m n V t :
  shape m n → t < length (history m Guard) → ∃ b V', load acquire m V Guard t = Some (Flag b, V').
Proof.
  intros Hs Ht. unfold load. apply lookup_lt_is_Some in Ht as [msg Et]. rewrite Et. simpl.
  destruct (once_lookup _ _ _ _ _ _ _ (sh_guard m n Hs) Et) as [[_ ->]|(_ & _ & -> & _)]; simpl; eauto.
Qed.

(** C29: however threads interleave their calls of [Env::Default] or
    [BytewiseComparator] on shared memory with C++ memory orders, one thread at most
    is ever in the constructor and the object is constructed once at most; a thread
    to which the function has returned uses the constructed object without a race,
    and its [AssertEnvNotInitialized] fails; while nobody has entered the constructor
    the assertion holds in every thread; no thread is ever blocked for good: it can
    go on, or waits for another in the constructor, which can. *)
Theorem Singleton_constructed_once k s :
  rtc any_step (program_new k) s →
  length (history (mem s) storage_) ≤ 2 ∧
  (∀ i j p q V U, pool s !! i = Some (p, V) → pool s !! j = Some (q, U) →
     in_constructor p → in_constructor q → i = j) ∧
  (∀ i V, pool s !! i = Some (P_returned, V) →
     get (mem s) V = Some instance ∧
     (has_flag = true → ∀ t, readable (mem s) V env_initialized_ t →
        AssertEnvNotInitialized (mem s) V t = None)) ∧
  (constructing s = None → length (history (mem s) Guard) = 1 →
     ∀ i p V t, pool s !! i = Some (p, V) → readable (mem s) V env_initialized_ t →
       is_Some (AssertEnvNotInitialized (mem s) V t)) ∧
  (∀ i p V, pool s !! i = Some (p, V) →
     (∃ s', step i s s') ∨
     p = P_wait ∧ ∃ j s', constructing s = Some j ∧ step j s s').
Proof.
  intros Hinv%inv_reachable. pose proof Hinv as [(n & Hs & Hc) Ha Hf]. split; [|split; [|split; [|split]]].
  - rewrite (once_length _ _ _ _ _ (sh_object _ _ Hs)). destruct (decide (2 ≤ n)); lia.
  - intros i j p q V U Hi Hj Hp Hq. apply Ha in Hi; [|done]. apply Ha in Hj; [|done]. congruence.
  - intros i V Hi. destruct (Hf _ _ _ Hi) as [Hb _ Hg]. destruct (Hg ltac:(by left)) as [H1 H2].
    split; [apply (sees_get _ _ n); auto with lia|]. intros Hh t. apply (sees_assert _ _ n); auto with lia.
  - intros Hn Hlen i p V t Hi [_ Ht]. rewrite Hn in Hc. rewrite (once_length _ _ _ _ _ (sh_guard _ _ Hs)) in Hlen.
    assert (n = 0) as -> by (destruct Hc as [?| ->]; done).
    unfold AssertEnvNotInitialized. destruct class as [[]|]; [|done..].
    destruct (sh_flag _ _ Hs) as (G & Eh & _). rewrite decide_False in Eh by lia. unfold load. rewrite Eh in *.
    destruct t; [by eexists|simpl in Ht; lia].
  - intros i p V Hi. destruct (Hf _ _ _ Hi) as [Hb _ Hg].
    destruct p; try (left; eexists; by eapply s_call; eauto); try (left; by eapply constructor_steps; unfold in_constructor; eauto).
    + left. pose proof (Hb Guard) as Ht. destruct (load_total _ _ V _ Hs Ht) as (b & V' & Hl).
      eexists. eapply s_guard; [done|by split|done].
    + destruct (constructing s) as [j|] eqn:Ej.
      * right. split; [done|]. destruct Hc as (q & U & Hj & Hq & _).
        destruct (constructor_steps _ _ _ _ Hj Hq) as [s' Hst]. eauto.
      * left. destruct (load_total _ _ V (pred (length (history (mem s) Guard))) Hs) as (b & V' & Hl);
          [specialize (Hb Guard); lia|]. eexists; by eapply s_wait.
Qed.
End Static.

(** Thread 0 constructs while thread 1 waits. *)
Lemma Singleton_constructed_once_witness :
  ∃ s V, rtc (any_step (SingletonEnv true) 7) (program_new 2) s ∧
    pool s !! 0 = Some (P_returned, V) ∧ get (mem s) V = Some 7.
Proof.
  assert (∃ s V, rtc (any_step (SingletonEnv true) 7) (program_new 2) s ∧ pool s !! 0 = Some (P_returned, V))
    as (s & V & Hr & Hi).
  { eexists _, _. split.
    - eapply rtc_l; [exists 0; eapply s_call; [reflexivity|by left]|].
      eapply rtc_l; [exists 1; eapply s_call; [reflexivity|by left]|].
      eapply rtc_l; [exists 0; eapply (s_guard _ _ _ _ _ 0); [reflexivity|split; vm_compute; lia|reflexivity]|].
      eapply rtc_l; [exists 1; eapply (s_guard _ _ _ _ _ 0); [reflexivity|split; vm_compute; lia|reflexivity]|].
      eapply rtc_l; [exists 0; eapply s_wait; reflexivity|].
      eapply rtc_l; [exists 0; eapply s_flag; reflexivity|].
      eapply rtc_l; [exists 0; eapply s_object; reflexivity|].
      eapply rtc_l; [exists 0; eapply s_publish; reflexivity|]. apply rtc_refl.
    - reflexivity. }
  destruct (Singleton_constructed_once (SingletonEnv true) 7 2 s Hr) as (_ & _ & Hret & _).
  exists s, V. destruct (Hret 0 V Hi) as [Hget _]. auto.
Defined.
