(* ===== verification/EnvServices.v ===== *)
(** * The whole interface of environments (include/lldb/env.h, util/env_posix.cpp,
      helper/memenv/memenv.cpp)

    What [Env] promises besides files: locks, background work, threads, the clock, the
    test directory and loggers, as a class beside that of Env.v.  [EnvWrapper], the
    environment in memory over any base environment, and [PosixEnv] are instances.

    A client is a program of calls, each of which may depend on the answers before it.
    [EnvWrapper_transparent]: a client cannot tell an [EnvWrapper] from its target.
    [InMemoryEnv_separate]: over a base environment, the environment in memory answers
    the calls it overrides without touching the base, and the base the others. *)
From Stdlib Require Import ZArith Lia.
From Stdlib Require Import Strings.Byte.
From S2P Require Import Prelude Logging Status Env MemEnv Limiter Scheduler PosixFiles PosixEnv PosixLogger Loggers.
From stdpp Require Import base gmap numbers strings list.

#[local] Open Scope Z_scope.

(** ** The interface *)

(** A function and its argument are a [BackgroundWorkItem]. *)
Class EnvServices (E : Type) := {
  Env_LockFile : bytes → E → option (Status * option handle * E);
  Env_UnlockFile : handle → E → option (Status * E);
  Env_Schedule : BackgroundWorkItem → E → option E;
  Env_StartThread : BackgroundWorkItem → E → option E;
  Env_GetTestDirectory : E → option (Status * bytes * E);
  Env_NewLogger : bytes → E → option (Status * option Logger * E);
  Env_NowMicros : E → option (Z * E);
  Env_SleepForMicroseconds : Z → E → option E }.
#[export] Hint Mode EnvServices ! : typeclass_instances.

(** ** EnvWrapper *)

#[export] Instance EnvWrapper_Services {E} `{EnvServices E} : EnvServices (EnvWrapper E) := {|
  Env_LockFile f := forward3 (Env_LockFile f);
  Env_UnlockFile l := forward2 (Env_UnlockFile l);
  Env_Schedule f w := Build_EnvWrapper <$> Env_Schedule f (target_ w);
  Env_StartThread f w := Build_EnvWrapper <$> Env_StartThread f (target_ w);
  Env_GetTestDirectory := forward3 Env_GetTestDirectory;
  Env_NewLogger f := forward3 (Env_NewLogger f);
  Env_NowMicros := forward2 Env_NowMicros;
  Env_SleepForMicroseconds n w := Build_EnvWrapper <$> Env_SleepForMicroseconds n (target_ w) |}.

(** ** The environment in memory, over a base environment *)

(** [mem_locks]: the [FileLock] objects. *)
Record MemOver (B : Type) := { mem_env : InMemoryEnv; mem_locks : gset positive; base_env : B }.
Arguments mem_env {B}.
Arguments mem_locks {B}.
Arguments base_env {B}.
Arguments Build_MemOver {B}.

Definition NewMemEnv {B} (base : B) : MemOver B :=
  {| mem_env := InMemoryEnv_new; mem_locks := ∅; base_env := base |}.

Section MemOver.
Context {B : Type} `{EnvServices B} (junk : nat → Byte.byte).

Definition with_mem (m : InMemoryEnv) (e : MemOver B) : MemOver B :=
  {| mem_env := m; mem_locks := mem_locks e; base_env := base_env e |}.
Definition with_base (b : B) (e : MemOver B) : MemOver B :=
  {| mem_env := mem_env e; mem_locks := mem_locks e; base_env := b |}.
Definition with_locks (l : gset positive) (e : MemOver B) : MemOver B :=
  {| mem_env := mem_env e; mem_locks := l; base_env := base_env e |}.

Definition on_mem {A} (f : InMemoryEnv → option (A * InMemoryEnv)) (e : MemOver B) : option (A * MemOver B) :=
  '(a, m) ← f (mem_env e); Some (a, with_mem m e).

#[export] Instance MemOver_Env : Env (MemOver B) :=
  let M := InMemoryEnv_Env junk in {|
  NewSequentialFile f := on_mem (Env.NewSequentialFile f);
  NewRandomAccessFile f := on_mem (Env.NewRandomAccessFile f);
  NewWritableFile f := on_mem (Env.NewWritableFile f);
  NewAppendableFile f := on_mem (Env.NewAppendableFile f);
  FileExists f e := let '(b, m) := Env.FileExists f (mem_env e) in (b, with_mem m e);
  GetChildren d := on_mem (Env.GetChildren d);
  RemoveFile f := on_mem (Env.RemoveFile f);
  CreateDir d := on_mem (Env.CreateDir d);
  RemoveDir d := on_mem (Env.RemoveDir d);
  GetFileSize f := on_mem (Env.GetFileSize f);
  RenameFile s t := on_mem (Env.RenameFile s t);
  Sequential_Read h n scratch := on_mem (Env.Sequential_Read h n scratch);
  Sequential_Skip h n := on_mem (Env.Sequential_Skip h n);
  RandomAccess_Read h o n scratch := on_mem (Env.RandomAccess_Read h o n scratch);
  Writable_Append h data := on_mem (Env.Writable_Append h data);
  Writable_Close h := on_mem (Env.Writable_Close h);
  Writable_Flush h := on_mem (Env.Writable_Flush h);
  Writable_Sync h := on_mem (Env.Writable_Sync h);
  delete_file h e := m ← Env.delete_file h (mem_env e); Some (with_mem m e) |}.

(** [*lock = new FileLock] and [delete lock]. *)
Definition MemOver_LockFile (fname : bytes) (e : MemOver B) : option (Status * option handle * MemOver B) :=
  let h := fresh (mem_locks e) in
  let '(s, m) := Mem_LockFile fname (mem_env e) in
  Some (s, Some h, with_mem m (with_locks ({[ h ]} ∪ mem_locks e) e)).
Definition MemOver_UnlockFile (h : handle) (e : MemOver B) : option (Status * MemOver B) :=
  if decide (h ∈ mem_locks e) then
    let '(s, m) := Mem_UnlockFile (mem_env e) in Some (s, with_mem m (with_locks (mem_locks e ∖ {[ h ]}) e))
  else None.

(** The methods that [InMemoryEnv] does not override are those of [EnvWrapper]. *)
#[export] Instance MemOver_Services : EnvServices (MemOver B) := {|
  Env_LockFile := MemOver_LockFile;
  Env_UnlockFile := MemOver_UnlockFile;
  Env_Schedule f e := b ← Env_Schedule f (base_env e); Some (with_base b e);
  Env_StartThread f e := b ← Env_StartThread f (base_env e); Some (with_base b e);
  Env_GetTestDirectory e := let '(s, p) := Mem_GetTestDirectory (mem_env e) in Some (s, p, e);
  Env_NewLogger f e :=
    let '(s, l, m) := Mem_NewLogger f (mem_env e) in Some (s, l, with_mem m e);
  Env_NowMicros e := '(t, b) ← Env_NowMicros (base_env e); Some (t, with_base b e);
  Env_SleepForMicroseconds n e := b ← Env_SleepForMicroseconds n (base_env e); Some (with_base b e) |}.
End MemOver.

(** ** PosixEnv *)

(** The clock: seconds and microseconds, and [sleep_for]. *)
Class Clock (W : Type) := {
  sys_gettimeofday : W → Z * Z * W;
  sys_sleep_for : Z → W → W }.
#[export] Hint Mode Clock ! : typeclass_instances.

(** Files, [PosixFileLock] objects, background work, and the threads that were
    started and detached. *)
Record posix_env (W : Type) := {
  files : posix_state W;
  file_locks : gmap positive PosixFileLock;
  background_work : scheduler;
  detached : list BackgroundWorkItem }.
Arguments files {W}.
Arguments file_locks {W}.
Arguments background_work {W}.
Arguments detached {W}.
Arguments Build_posix_env {W}.

Section PosixServices.
Context {W : Type} `{PF : Platform} `{HP : Posix W} `{HS : Stdio W} `{HC : Clock W}.
Context (TEST_TMPDIR : option bytes) (euid : Z).

Definition with_files (st : posix_state W) (e : posix_env W) : posix_env W :=
  Build_posix_env st (file_locks e) (background_work e) (detached e).

Definition posix_LockFile (filename : bytes) (e : posix_env W) : option (Status * option handle * posix_env W) :=
  let '(s, lock, v, w) := LockFile filename (env (files e)) (sys (files e)) in
  let st := Build_posix_state v w (objects (files e)) in
  match lock with
  | None => Some (s, None, with_files st e)
  | Some lock =>
      let h := fresh (dom (file_locks e)) in
      Some (s, Some h, Build_posix_env st (<[h := lock]> (file_locks e)) (background_work e) (detached e))
  end.

Definition posix_UnlockFile (h : handle) (e : posix_env W) : option (Status * posix_env W) :=
  lock ← (file_locks e !! h);
  let '(s, v, w) := UnlockFile lock (env (files e)) (sys (files e)) in
  let st := Build_posix_state v w (objects (files e)) in
  Some (s, Build_posix_env st (if Status_ok s then delete h (file_locks e) else file_locks e)
                           (background_work e) (detached e)).

Definition posix_Schedule (item : BackgroundWorkItem) (e : posix_env W) : posix_env W :=
  Build_posix_env (files e) (file_locks e) (Schedule item (background_work e)) (detached e).

Definition posix_StartThread (thread : BackgroundWorkItem) (e : posix_env W) : posix_env W :=
  Build_posix_env (files e) (file_locks e) (background_work e) (detached e ++ [thread]).

Definition posix_NowMicros (e : posix_env W) : Z * posix_env W :=
  let '(tv_sec, tv_usec, w) := sys_gettimeofday (sys (files e)) in
  (NowMicros tv_sec tv_usec, with_files (with_sys (files e) w) e).

Definition posix_SleepForMicroseconds (micros : Z) (e : posix_env W) : posix_env W :=
  with_files (with_sys (files e) (sys_sleep_for micros (sys (files e)))) e.

#[export] Instance PosixEnv_Services : EnvServices (posix_env W) := {|
  Env_LockFile := posix_LockFile;
  Env_UnlockFile := posix_UnlockFile;
  Env_Schedule item e := Some (posix_Schedule item e);
  Env_StartThread thread e := Some (posix_StartThread thread e);
  Env_GetTestDirectory e :=
    let '(s, d, w) := Posix_GetTestDirectory TEST_TMPDIR euid (sys (files e)) in
    Some (s, d, with_files (with_sys (files e) w) e);
  Env_NewLogger f e :=
    let '(s, l, w) := Posix_NewLogger f (sys (files e)) in Some (s, l, with_files (with_sys (files e) w) e);
  Env_NowMicros e := Some (posix_NowMicros e);
  Env_SleepForMicroseconds n e := Some (posix_SleepForMicroseconds n e) |}.

(** The destructor writes a message with its final zero to [stderr], and aborts. *)
Inductive aborted := Aborted (w : W).
Definition PosixEnv_delete (stderr : Z) (e : posix_env W) : aborted :=
  Aborted (stdio_write stderr (str "PosixEnv singleton destroyed. Unsupported behavior!" ++ [x0a; x00]) (sys (files e))).
End PosixServices.

(** ** Clients *)

(** The calls, by the type of their answer. *)
Inductive env_call : Type → Type :=
  | E_NewSequentialFile (f : bytes) : env_call (Status * option handle)
  | E_NewRandomAccessFile (f : bytes) : env_call (Status * option handle)
  | E_NewWritableFile (f : bytes) : env_call (Status * option handle)
  | E_NewAppendableFile (f : bytes) : env_call (Status * option handle)
  | E_FileExists (f : bytes) : env_call bool
  | E_GetChildren (d : bytes) : env_call (Status * list bytes)
  | E_RemoveFile (f : bytes) : env_call Status
  | E_CreateDir (d : bytes) : env_call Status
  | E_RemoveDir (d : bytes) : env_call Status
  | E_GetFileSize (f : bytes) : env_call (Status * option Z)
  | E_RenameFile (s t : bytes) : env_call Status
  | E_Sequential_Read (h : handle) (n : Z) (scratch : bytes) : env_call (Status * option bytes * bytes)
  | E_Sequential_Skip (h : handle) (n : Z) : env_call Status
  | E_RandomAccess_Read (h : handle) (o n : Z) (scratch : bytes) : env_call (Status * option bytes * bytes)
  | E_Writable_Append (h : handle) (data : bytes) : env_call Status
  | E_Writable_Close (h : handle) : env_call Status
  | E_Writable_Flush (h : handle) : env_call Status
  | E_Writable_Sync (h : handle) : env_call Status
  | E_delete_file (h : handle) : env_call unit
  | E_LockFile (f : bytes) : env_call (Status * option handle)
  | E_UnlockFile (l : handle) : env_call Status
  | E_Schedule (item : BackgroundWorkItem) : env_call unit
  | E_StartThread (thread : BackgroundWorkItem) : env_call unit
  | E_GetTestDirectory : env_call (Status * bytes)
  | E_NewLogger (f : bytes) : env_call (Status * option Logger)
  | E_NowMicros : env_call Z
  | E_SleepForMicroseconds (n : Z) : env_call unit.

Definition no_answer {E} (e : option E) : option (unit * E) := pair tt <$> e.

Definition answer_call {E} `{!Env E, !EnvServices E} {A} (c : env_call A) : E → option (A * E) :=
  match c in env_call A return E → option (A * E) with
  | E_NewSequentialFile f => Env.NewSequentialFile f
  | E_NewRandomAccessFile f => Env.NewRandomAccessFile f
  | E_NewWritableFile f => Env.NewWritableFile f
  | E_NewAppendableFile f => Env.NewAppendableFile f
  | E_FileExists f => λ e, Some (Env.FileExists f e)
  | E_GetChildren d => Env.GetChildren d
  | E_RemoveFile f => Env.RemoveFile f
  | E_CreateDir d => Env.CreateDir d
  | E_RemoveDir d => Env.RemoveDir d
  | E_GetFileSize f => Env.GetFileSize f
  | E_RenameFile s t => Env.RenameFile s t
  | E_Sequential_Read h n scratch => Env.Sequential_Read h n scratch
  | E_Sequential_Skip h n => Env.Sequential_Skip h n
  | E_RandomAccess_Read h o n scratch => Env.RandomAccess_Read h o n scratch
  | E_Writable_Append h data => Env.Writable_Append h data
  | E_Writable_Close h => Env.Writable_Close h
  | E_Writable_Flush h => Env.Writable_Flush h
  | E_Writable_Sync h => Env.Writable_Sync h
  | E_delete_file h => λ e, no_answer (Env.delete_file h e)
  | E_LockFile f => Env_LockFile f
  | E_UnlockFile l => Env_UnlockFile l
  | E_Schedule item => λ e, no_answer (Env_Schedule item e)
  | E_StartThread thread => λ e, no_answer (Env_StartThread thread e)
  | E_GetTestDirectory => Env_GetTestDirectory
  | E_NewLogger f => Env_NewLogger f
  | E_NowMicros => Env_NowMicros
  | E_SleepForMicroseconds n => λ e, no_answer (Env_SleepForMicroseconds n e)
  end.

(** A client calls, and goes on with the answer. *)
Inductive client (R : Type) :=
  | Client_return (r : R)
  | Client_call {A} (c : env_call A) (k : A → client R).
Arguments Client_return {R}.
Arguments Client_call {R A}.

Fixpoint run_client {E} `{!Env E, !EnvServices E} {R} (p : client R) (e : E) : option (R * E) :=
  match p with
  | Client_return r => Some (r, e)
  | Client_call c k => '(a, e) ← answer_call c e; run_client (k a) e
  end.

(** ** Lemmas *)

Lemma forward2_call {E A} (f : E → option (A * E)) (e : E) :
  forward2 f (Build_EnvWrapper e) = prod_map id Build_EnvWrapper <$> f e.
Proof. unfold forward2. cbn [target_]. by destruct (f e) as [[a e']|]. Qed.

Lemma forward3_call {E A B} (f : E → option (A * B * E)) (e : E) :
  forward3 f (Build_EnvWrapper e) = prod_map id Build_EnvWrapper <$> f e.
Proof. unfold forward3. cbn [target_]. by destruct (f e) as [[[a b] e']|]. Qed.

Lemma no_answer_call {E F} (f : E → F) (e : option E) :
  no_answer (f <$> e) = prod_map id f <$> no_answer e.
Proof. by destruct e. Qed.

Lemma wrapper_call {E} `{!Env E, !EnvServices E} {A} (c : env_call A) (e : E) :
  answer_call c (Build_EnvWrapper e) = prod_map id Build_EnvWrapper <$> answer_call c e.
Proof.
  destruct c as [| | | |f| | | | | | |h n scratch| |h o n scratch| | | | | | | | | | | | |]; cbn [answer_call];
    try apply forward2_call; try apply forward3_call; try apply no_answer_call; cbn.
  - by destruct (Env.FileExists f e).
  - by destruct (Env.Sequential_Read h n scratch e) as [[[[s r] b] e']|].
  - by destruct (Env.RandomAccess_Read h o n scratch e) as [[[[s r] b] e']|].
Qed.

(** The calls that the environment in memory leaves to its base. *)
Definition left_to_base {A} (c : env_call A) : bool :=
  match c with E_Schedule _ | E_StartThread _ | E_NowMicros | E_SleepForMicroseconds _ => true | _ => false end.

Lemma on_mem_base {B A} (f : InMemoryEnv → option (A * InMemoryEnv)) m l (b b0 : B) :
  on_mem f (Build_MemOver m l b) = prod_map id (with_base b) <$> on_mem f (Build_MemOver m l b0).
Proof. unfold on_mem. cbn [mem_env]. by destruct (f m) as [[a m']|]. Qed.

(** ** Theorems *)

(** A client cannot tell an [EnvWrapper] from its target. *)
Theorem EnvWrapper_transparent {E} `{!Env E, !EnvServices E} {R} (p : client R) (e : E) :
  run_client p (Build_EnvWrapper e) = prod_map id Build_EnvWrapper <$> run_client p e.
Proof.
  revert e. induction p as [r|A c k IH]; intros e; cbn [run_client]; [done|].
  rewrite wrapper_call. destruct (answer_call c e) as [[a e']|]; [|done]. apply IH.
Qed.

(** Over a base environment, the environment in memory answers the calls it overrides
    in a way that does not depend on the base, and leaves the base as it is; the base
    answers the others, and files, names and locks in memory are left as they are. *)
Theorem InMemoryEnv_separate {B} `{!Env B, !EnvServices B} (junk : nat → Byte.byte) {A} (c : env_call A) m l (b : B) :
  let HE : Env (MemOver B) := MemOver_Env junk in
  if left_to_base c
  then answer_call c (Build_MemOver m l b) = prod_map id (Build_MemOver m l) <$> answer_call c b
  else ∀ b0, answer_call c (Build_MemOver m l b) = prod_map id (with_base b) <$> answer_call c (Build_MemOver m l b0).
Proof.
  intros HE. destruct c; cbn [left_to_base answer_call]; try (intros b0; apply on_mem_base).
  - intros b0. cbn. done.
  - intros b0. cbn. by destruct (close h m).
  - intros b0. cbn. done.
  - intros b0. cbn. unfold MemOver_UnlockFile. cbn. by destruct (decide _).
  - cbn. by destruct (Env_Schedule item b).
  - cbn. by destruct (Env_StartThread thread b).
  - intros b0. done.
  - intros b0. done.
  - cbn. by destruct (Env_NowMicros b) as [[t b']|].
  - cbn. by destruct (Env_SleepForMicroseconds n b).
Qed.

(** "subsequent calls will return the same directory" *)
Lemma GetTestDirectory_same {W} `{Platform, Posix W} (TEST_TMPDIR : option bytes) (euid : Z) (w1 w2 : W) :
  (Posix_GetTestDirectory TEST_TMPDIR euid w1).1 = (Posix_GetTestDirectory TEST_TMPDIR euid w2).1.
Proof. done. Qed.

(** ** Locks through the interface *)

(** The invariant of PosixEnv.v, for the objects behind the handles: no file is locked
    twice and the table lists the locked files. *)
Definition posix_locks_ok {W} (e : posix_env W) : Prop :=
  (∀ h1 h2 l1 l2, file_locks e !! h1 = Some l1 → file_locks e !! h2 = Some l2 →
     lock_filename_ l1 = lock_filename_ l2 → h1 = h2) ∧
  ∀ f, f ∈ locked_files_ (env (files e)) ↔ ∃ h l, file_locks e !! h = Some l ∧ lock_filename_ l = f.

(** While no other thread is inside of [LockFile]: a lock is granted only on a file
    that is not locked, a handle unlocks its file once, and the invariant is kept. *)
Theorem PosixEnv_locks {W} `{PF : Platform} `{HP : Posix W} (e : posix_env W) :
  posix_locks_ok e →
  (∀ f, ∃ s h e', posix_LockFile f e = Some (s, h, e') ∧ posix_locks_ok e' ∧
     (Status_ok s = true ↔ is_Some h) ∧
     (∀ k, h = Some k → (∀ k' l, file_locks e !! k' = Some l → lock_filename_ l ≠ f) ∧
        ∃ l, lock_filename_ l = f ∧ file_locks e !! k = None ∧ file_locks e' = <[k := l]> (file_locks e)) ∧
     (h = None → file_locks e' = file_locks e)) ∧
  (∀ h l, file_locks e !! h = Some l →
     ∃ s e', posix_UnlockFile h e = Some (s, e') ∧ posix_locks_ok e' ∧
       file_locks e' = if Status_ok s then delete h (file_locks e) else file_locks e).
Proof.
  intros Hok. pose proof Hok as [Hinj Htab]. split.
  - intros f. unfold posix_LockFile, LockFile, LockFile_begin, locks_Insert.
    destruct (sys_open f O_RDWR_CREAT (sys (files e))) as [[fd|err] w].
    2:{ eexists _, None, _. split; [done|]. rewrite PosixError_not_ok. split; [done|].
        split; [split; [done|by intros []]|]. done. }
    case_bool_decide as Hin; cbn [negb].
    2:{ eexists _, None, _. split; [done|]. split; [|split; [split; [done|by intros []]|done]].
        split; [done|]. cbn. intros g. rewrite <- Htab, elem_of_union, elem_of_singleton.
        split; [by intros [->|]|by right]. }
    unfold LockFile_finish. destruct (LockOrUnlock fd true w) as [[u|err] w'].
    2:{ eexists _, None, _. split; [done|]. rewrite PosixError_not_ok.
        split; [|split; [split; [done|by intros []]|done]].
        split; [done|]. cbn. intros g. rewrite <- Htab, elem_of_difference, elem_of_union, elem_of_singleton.
        split; [tauto|]. intros Hg. split; [by right|congruence]. }
    set (h := fresh (dom (file_locks e))).
    assert (file_locks e !! h = None) as Hh by (apply not_elem_of_dom, is_fresh).
    assert (∀ k l, file_locks e !! k = Some l → lock_filename_ l ≠ f) as Hnew
      by (intros k l Hk Hf; apply Hin, Htab; by exists k, l).
    eexists _, (Some h), _. split; [done|]. split; [|split; [|split; [|done]]].
    + split; cbn.
      * intros h1 h2 l1 l2 [[<- <-]|[_ H1]]%lookup_insert_Some [[<- <-]|[_ H2]]%lookup_insert_Some Hf; cbn in Hf; [done|..];
          [by destruct (Hnew _ _ H2)|by destruct (Hnew _ _ H1)|by eapply Hinj].
      * intros g. rewrite elem_of_union, elem_of_singleton, Htab. split.
        -- intros [->|(k & l & Hk & <-)]; [eexists h, _; by rewrite lookup_insert_eq|].
           exists k, l. rewrite lookup_insert_ne; [done|congruence].
        -- intros (k & l & [[<- <-]|[_ Hk]]%lookup_insert_Some & <-); [by left|]. right. by exists k, l.
    + by split.
    + intros k [= <-]. split; [done|].
      by exists {| lock_fd_ := fd; lock_filename_ := f |}.
  - intros h l Hh. unfold posix_UnlockFile, UnlockFile. rewrite Hh. cbn [mbind option_bind].
    destruct (LockOrUnlock (lock_fd_ l) false (sys (files e))) as [[u|err] w].
    + eexists _, _. split; [done|]. split; [|done]. split; cbn.
      * intros h1 h2 l1 l2 [_ H1]%lookup_delete_Some [_ H2]%lookup_delete_Some. by eapply Hinj.
      * intros g. rewrite elem_of_difference, elem_of_singleton, Htab. split.
        -- intros [(k & l' & Hk & <-) Hne]. exists k, l'. rewrite lookup_delete_ne; [done|congruence].
        -- intros (k & l' & [Hne Hk]%lookup_delete_Some & <-). split; [by exists k, l'|].
           intros Hf. apply Hne. by eapply Hinj.
    + eexists _, _. split; [done|]. rewrite PosixError_not_ok. done.
Qed.
