(* ===== verification/Options.v ===== *)
(** * Options (include/lldb/options.h, util/options.cpp)

    The parameters of a database, of its reads and of its writes, with their
    default values.  Objects that are only pointed to are parameters. *)
From Stdlib Require Import ZArith Lia.
From S2P Require Import Prelude Slice Coding Comparator.
From stdpp Require Import base numbers list.

#[local] Open Scope Z_scope.

(** The values are part of the format on disk. *)
Inductive CompressionType := kNoCompression | kSnappyCompression | kZstdCompression.

Definition CompressionType_value (t : CompressionType) : Z :=
  match t with kNoCompression => 0 | kSnappyCompression => 1 | kZstdCompression => 2 end.

Section Options.
Context {Env Logger Cache FilterPolicy Snapshot : Type}.

Record Options := {
  comparator : Comparator;
  create_if_missing : bool;
  error_if_exists : bool;
  paranoid_checks : bool;
  env : Env;
  info_log : option Logger;
  write_buffer_size : Z;
  max_open_files : Z;
  block_cache : option Cache;
  block_size : Z;
  block_restart_interval : Z;
  max_file_size : Z;
  compression : CompressionType;
  zstd_compression_level : Z;
  reuse_logs : bool;
  filter_policy : option FilterPolicy }.

(** The constructor; [Default] is [Env::Default()]. *)
Definition Options_new (Default : Env) : Options := {|
  comparator := BytewiseComparator;
  create_if_missing := false;
  error_if_exists := false;
  paranoid_checks := false;
  env := Default;
  info_log := None;
  write_buffer_size := 4 * 1024 * 1024;
  max_open_files := 1000;
  block_cache := None;
  block_size := 4 * 1024;
  block_restart_interval := 16;
  max_file_size := 2 * 1024 * 1024;
  compression := kSnappyCompression;
  zstd_compression_level := 1;
  reuse_logs := false;
  filter_policy := None |}.

Record ReadOptions := {
  verify_checksums : bool;
  fill_cache : bool;
  snapshot : option Snapshot }.

Definition ReadOptions_default : ReadOptions :=
  {| verify_checksums := false; fill_cache := true; snapshot := None |}.

Record WriteOptions := { sync : bool }.

Definition WriteOptions_default : WriteOptions := {| sync := false |}.
End Options.

(** ** Lemmas *)

(** The default comparator meets the contract of comparators, and the sizes fit
    the types of their fields. *)
Lemma Options_new_ok {Env Logger Cache FilterPolicy : Type} (e : Env) :
  let o := @Options_new Env Logger Cache FilterPolicy e in
  ComparatorLaws (comparator o) (λ _, True) ∧ env o = e ∧
  0 < write_buffer_size o < 2 ^ 64 ∧ 0 < block_size o < 2 ^ 64 ∧ 0 < max_file_size o < 2 ^ 64 ∧
  0 < max_open_files o < 2 ^ 31 ∧ 0 < block_restart_interval o < 2 ^ 31 ∧
  -5 <= zstd_compression_level o <= 22.
Proof. intros o. split; [apply Bytewise_laws|]. split; [done|]. simpl. lia. Qed.
