(* ===== verification/Doubles.v ===== *)
(** * Integers as doubles

    The doubles of histograms count: the operations of [SpecFloat] on integers below
    2^53 are exact. *)
From Stdlib Require Import ZArith Lia.
From Stdlib Require Import Floats.SpecFloat.
From stdpp Require Import base numbers.

#[local] Open Scope Z_scope.

Abbreviation double := spec_float.

Definition dadd : double → double → double := SFadd 53 1024.
Definition dsub : double → double → double := SFsub 53 1024.
Definition dmul : double → double → double := SFmul 53 1024.
Definition ddiv : double → double → double := SFdiv 53 1024.
Definition dsqrt : double → double := SFsqrt 53 1024.
(** The double nearest to an integer. *)
Definition dint (n : Z) : double := binary_normalize 53 1024 n 0 false.

(** ** Digits and shifts *)

Lemma digits2_log2 p : Z.pos (digits2_pos p) = Z.log2 (Z.pos p) + 1.
Proof.
  induction p as [p IH|p IH|]; cbn [digits2_pos]; rewrite ?Pos2Z.inj_succ, ?IH; [| |done].
  - replace (Z.pos p~1) with (2 * Z.pos p + 1) by lia. rewrite Z.log2_succ_double by lia. lia.
  - replace (Z.pos p~0) with (2 * Z.pos p) by lia. rewrite Z.log2_double by lia. lia.
Qed.

Lemma Zdigits2_log2 n : 0 < n → Zdigits2 n = Z.log2 n + 1.
Proof. destruct n as [|p|p]; try lia. intros _. apply digits2_log2. Qed.

Lemma iter_pos_nat {A} (f : A → A) (p : positive) (x : A) : SpecFloat.iter_pos f p x = Nat.iter (Pos.to_nat p) f x.
Proof.
  assert (∀ a b y, Nat.iter (a + b) f y = Nat.iter a f (Nat.iter b f y)) as Hadd
    by (intros a b y; induction a as [|a IH]; simpl; congruence).
  revert x. induction p as [p IH|p IH|]; intros x; cbn [SpecFloat.iter_pos]; [| |done].
  - rewrite !IH, Pos2Nat.inj_xI. replace (S (2 * Pos.to_nat p)) with (Pos.to_nat p + (Pos.to_nat p + 1))%nat by lia.
    by rewrite !Hadd.
  - rewrite !IH, Pos2Nat.inj_xO. replace (2 * Pos.to_nat p)%nat with (Pos.to_nat p + Pos.to_nat p)%nat by lia.
    by rewrite Hadd.
Qed.

(** Zeros are shifted out without loss. *)
Lemma shr_1_exact m j :
  0 < m → Nat.iter j shr_1 (Build_shr_record (m * 2 ^ Z.of_nat j) false false) = Build_shr_record m false false.
Proof.
  intros Hm. induction j as [|j IH]; [by rewrite Z.mul_1_r|].
  rewrite Nat.iter_succ_r. rewrite <- IH. f_equal.
  replace (m * 2 ^ Z.of_nat (S j)) with (2 * (m * 2 ^ Z.of_nat j)) by (rewrite Nat2Z.inj_succ, Z.pow_succ_r by lia; lia).
  assert (0 < m * 2 ^ Z.of_nat j) as H0 by (apply Z.mul_pos_pos; [done|apply Z.pow_pos_nonneg; lia]).
  by destruct (m * 2 ^ Z.of_nat j).
Qed.

Lemma shl_align_exact p e e' :
  e' ≤ e → Z.pos (fst (shl_align p e e')) = Z.pos p * 2 ^ (e - e') ∧ snd (shl_align p e e') = e'.
Proof.
  intros He. unfold shl_align. destruct (e' - e) as [|d|d] eqn:E; simpl.
  - replace (e - e') with 0 by lia. lia.
  - lia.
  - split; [|done]. replace (e - e') with (Z.pos d) by lia.
    assert (∀ q n, Z.pos (Pos.iter xO q n) = Z.pos q * 2 ^ Z.pos n) as H; [|apply H].
    intros q n. revert n. apply Pos.peano_ind; [simpl; lia|]. intros n IH.
    rewrite Pos.iter_succ, Pos2Z.inj_succ, Z.pow_succ_r by lia. lia.
Qed.

(** ** Exact rounding *)

(** The significand and the exponent of [n]. *)
Definition significand (n : Z) : Z := n * 2 ^ (52 - Z.log2 n).
Definition exponent (n : Z) : Z := Z.log2 n - 52.

(** [n] for [0 <= n < 2^53]. *)
Definition of_int (n : Z) : double :=
  if n =? 0 then S754_zero false else S754_finite false (Z.to_pos (significand n)) (exponent n).

Lemma log2_mul_pow2 m j : 0 < m → 0 ≤ j → Z.log2 (m * 2 ^ j) = Z.log2 m + j.
Proof. intros Hm Hj. rewrite <- Z.shiftl_mul_pow2, Z.log2_shiftl by lia. lia. Qed.

Lemma fexp_small x : 53 - 1074 ≤ x → fexp 53 1024 x = x - 53.
Proof. intros Hx. unfold fexp, emin. lia. Qed.

Lemma shr_fexp_exact m e :
  0 < m → Z.log2 m = 52 → - 1074 ≤ e →
  shr_fexp 53 1024 m e loc_Exact = (Build_shr_record m false false, e).
Proof.
  intros Hm Hd He. unfold shr_fexp. rewrite Zdigits2_log2, Hd, fexp_small by lia.
  by replace (52 + 1 + e - 53 - e) with 0 by lia.
Qed.

(** A significand of 53 digits, with zeros after it, is not rounded. *)
Lemma round_exact m e j :
  0 < m → Z.log2 m = 52 → - 1074 ≤ e ≤ 971 → 0 ≤ j →
  binary_round_aux 53 1024 false (m * 2 ^ j) (e - j) loc_Exact = S754_finite false (Z.to_pos m) e.
Proof.
  intros Hm Hd He Hj. assert (0 < m * 2 ^ j) as Hmj by (apply Z.mul_pos_pos; [done|apply Z.pow_pos_nonneg; lia]).
  unfold binary_round_aux.
  assert (shr_fexp 53 1024 (m * 2 ^ j) (e - j) loc_Exact = (Build_shr_record m false false, e)) as ->.
  { unfold shr_fexp. rewrite Zdigits2_log2, log2_mul_pow2, Hd, fexp_small by lia.
    replace (52 + j + 1 + (e - j) - 53 - (e - j)) with j by lia. simpl shr_record_of_loc. unfold shr.
    destruct j as [|j|j]; [|f_equal; [|lia]|lia].
    - rewrite Z.mul_1_r. f_equal. lia.
    - rewrite iter_pos_nat, <- (shr_1_exact m (Pos.to_nat j)) by done. by rewrite positive_nat_Z. }
  simpl round_nearest_even. rewrite shr_fexp_exact by lia. simpl.
  destruct m as [|p|p]; try lia. destruct (Z.leb_spec e (1024 - 53)); [done|lia].
Qed.

Lemma significand_pos n : 0 < n < 2 ^ 53 → 0 < significand n ∧ Z.log2 (significand n) = 52 ∧ -52 ≤ exponent n ≤ 0.
Proof.
  intros Hn. pose proof (Z.log2_nonneg n). assert (Z.log2 n < 53) by (apply Z.log2_lt_pow2; lia).
  unfold significand, exponent. split; [|split]; [|rewrite log2_mul_pow2; lia|lia].
  apply Z.mul_pos_pos; [lia|apply Z.pow_pos_nonneg; lia].
Qed.

(** An integer below 2^53, written with [k] zeros after its digits. *)
Lemma normalize_exact n k :
  0 ≤ n < 2 ^ 53 → 0 ≤ k ≤ 1000 → binary_normalize 53 1024 (n * 2 ^ k) (- k) false = of_int n.
Proof.
  intros Hn Hk. unfold of_int. destruct (Z.eqb_spec n 0) as [->|Hn0]; [by rewrite Z.mul_0_l|].
  destruct (significand_pos n) as (Hs & Hd & He); [lia|].
  assert (0 < n * 2 ^ k) as Hnk by (apply Z.mul_pos_pos; [lia|apply Z.pow_pos_nonneg; lia]).
  destruct (n * 2 ^ k) as [|p|p] eqn:Ep; try lia. unfold binary_normalize, binary_round.
  rewrite digits2_log2, <- Ep, log2_mul_pow2 by lia.
  assert (0 ≤ Z.log2 n < 53) as Hlog by (split; [apply Z.log2_nonneg|apply Z.log2_lt_pow2; lia]).
  rewrite fexp_small by lia. replace (Z.log2 n + k + 1 + - k - 53) with (exponent n) by (unfold exponent; lia).
  destruct (Z.le_gt_cases (exponent n) (- k)) as [Hle|Hgt].
  - destruct (shl_align_exact p (- k) (exponent n) Hle) as [E1 E2].
    destruct (shl_align p (- k) (exponent n)) as [q e]. simpl in E1, E2. subst e. rewrite E1, <- Ep.
    rewrite <- (round_exact (significand n) (exponent n) 0) by lia.
    f_equal; [|lia]. unfold significand, exponent in *. rewrite <- !Z.mul_assoc, <- !Z.pow_add_r by lia. do 2 f_equal. lia.
  - unfold shl_align. destruct (exponent n - - k) as [|d|d] eqn:Ed; try lia. rewrite <- Ep.
    rewrite <- (round_exact (significand n) (exponent n) (exponent n + k)) by lia.
    f_equal; [|lia]. unfold significand, exponent in *. rewrite <- Z.mul_assoc, <- Z.pow_add_r by lia. do 2 f_equal. lia.
Qed.

Lemma dint_of_int n : 0 ≤ n < 2 ^ 53 → dint n = of_int n.
Proof. intros Hn. rewrite <- (normalize_exact n 0) by lia. unfold dint. by rewrite Z.mul_1_r. Qed.

(** ** Exact operations *)

Lemma align_exact n e :
  0 < n < 2 ^ 53 → e ≤ exponent n → Z.pos (fst (shl_align (Z.to_pos (significand n)) (exponent n) e)) = n * 2 ^ (- e).
Proof.
  intros Hn He. destruct (significand_pos n Hn) as (Hs & _ & Hx). rewrite (proj1 (shl_align_exact _ _ _ He)).
  rewrite Z2Pos.id by done. unfold significand, exponent in *.
  rewrite <- Z.mul_assoc, <- Z.pow_add_r by lia. do 2 f_equal. lia.
Qed.

Lemma dadd_of_int a b : 0 ≤ a → 0 ≤ b → a + b < 2 ^ 53 → dadd (of_int a) (of_int b) = of_int (a + b).
Proof.
  intros Ha Hb Hab. destruct (Z.eq_dec a 0) as [->|Ha0].
  { rewrite Z.add_0_l. change (of_int 0) with (S754_zero false). unfold of_int. by destruct (b =? 0). }
  destruct (Z.eq_dec b 0) as [->|Hb0].
  { rewrite Z.add_0_r. change (of_int 0) with (S754_zero false). unfold of_int. by destruct (a =? 0). }
  unfold dadd. unfold of_int at 1 2.
  rewrite (proj2 (Z.eqb_neq a 0)), (proj2 (Z.eqb_neq b 0)) by done. cbn [SFadd cond_Zopp].
  pose proof (significand_pos a ltac:(lia)) as (_ & _ & Hea). pose proof (significand_pos b ltac:(lia)) as (_ & _ & Heb).
  set (ez := Z.min (exponent a) (exponent b)). rewrite !align_exact by lia. rewrite <- Z.mul_add_distr_r.
  rewrite <- (normalize_exact (a + b) (- ez)) by lia. f_equal. lia.
Qed.

Lemma dsub_of_int a b : 0 ≤ b ≤ a → a < 2 ^ 53 → dsub (of_int a) (of_int b) = of_int (a - b).
Proof.
  intros Hb Ha. destruct (Z.eq_dec b 0) as [->|Hb0].
  { rewrite Z.sub_0_r. change (of_int 0) with (S754_zero false). unfold of_int. by destruct (a =? 0). }
  unfold dsub. unfold of_int at 1 2.
  rewrite (proj2 (Z.eqb_neq a 0)), (proj2 (Z.eqb_neq b 0)) by lia. cbn [SFsub cond_Zopp].
  pose proof (significand_pos a ltac:(lia)) as (_ & _ & Hea). pose proof (significand_pos b ltac:(lia)) as (_ & _ & Heb).
  set (ez := Z.min (exponent a) (exponent b)). rewrite !align_exact by lia. rewrite <- Z.mul_sub_distr_r.
  rewrite <- (normalize_exact (a - b) (- ez)) by lia. f_equal. lia.
Qed.

(** Halving: 0.5 has the significand of 1. *)
Lemma dmul_half a :
  0 < a < 2 ^ 53 →
  dmul (of_int a) (S754_finite false 4503599627370496 (-53)) =
    S754_finite false (Z.to_pos (significand a)) (exponent a - 1).
Proof.
  intros Ha. destruct (significand_pos a Ha) as (Hs & Hd & He). unfold dmul, of_int.
  rewrite (proj2 (Z.eqb_neq a 0)) by lia. cbn [SFmul xorb].
  rewrite <- (round_exact (significand a) (exponent a - 1) 52) by lia.
  f_equal; [|lia]. rewrite Pos2Z.inj_mul, Z2Pos.id by done. done.
Qed.

(** ** Operations that do not give NaN *)

Definition finite (x : double) : bool := match x with S754_zero _ | S754_finite _ _ _ => true | _ => false end.

Lemma shr_1_nonneg r : 0 ≤ shr_m r → 0 ≤ shr_m (shr_1 r).
Proof. by destruct r as [[|[p|p|]|[p|p|]] ? ?]. Qed.

Lemma shr_nonneg r e n : 0 ≤ shr_m r → 0 ≤ shr_m (fst (shr r e n)).
Proof.
  intros Hr. destruct n as [|p|p]; simpl; [done| |done]. rewrite iter_pos_nat.
  induction (Pos.to_nat p) as [|k IH]; simpl; [done|by apply shr_1_nonneg].
Qed.

Lemma shr_record_nonneg m l : 0 ≤ m → 0 ≤ shr_m (shr_record_of_loc m l).
Proof. by destruct l as [|[]]. Qed.

Lemma round_not_nan s m e l : 0 ≤ m → binary_round_aux 53 1024 s m e l ≠ S754_nan.
Proof.
  intros Hm. unfold binary_round_aux, shr_fexp.
  destruct (shr _ e _) as [r1 e1] eqn:E1.
  assert (0 ≤ shr_m r1) as H1
    by (change r1 with (fst (r1, e1)); rewrite <- E1; by apply shr_nonneg, shr_record_nonneg).
  assert (0 ≤ round_nearest_even (shr_m r1) (loc_of_shr_record r1)) as H2
    by (destruct (loc_of_shr_record r1) as [|[]]; simpl; try destruct (Z.even _); lia).
  destruct (shr _ e1 _) as [r2 e2] eqn:E2.
  assert (0 ≤ shr_m r2) as H3
    by (change r2 with (fst (r2, e2)); rewrite <- E2; by apply shr_nonneg, shr_record_nonneg).
  destruct (shr_m r2) as [|p|p]; [done| |lia]. by destruct (e2 <=? 1024 - 53).
Qed.

Lemma normalize_not_nan m e s : binary_normalize 53 1024 m e s ≠ S754_nan.
Proof.
  destruct m as [|p|p]; simpl; [done|..]; unfold binary_round; destruct (shl_align _ _ _); by apply round_not_nan.
Qed.

Lemma dsub_not_nan x y : finite x = true → finite y = true → dsub x y ≠ S754_nan.
Proof.
  destruct x as [[]| | |], y as [[]| | |]; intros; try done; unfold dsub, SFsub; apply normalize_not_nan.
Qed.

Lemma dadd_not_nan x y : finite x = true → y ≠ S754_nan → dadd x y ≠ S754_nan.
Proof.
  destruct x as [[]| | |], y as [[]| | |]; intros; try done; unfold dadd, SFadd; apply normalize_not_nan.
Qed.

Lemma dmul_not_nan s m e y : y ≠ S754_nan → dmul (S754_finite s m e) y ≠ S754_nan.
Proof. destruct y as [| | |s' m' e']; intros; try done. by apply round_not_nan. Qed.

Lemma ddiv_not_nan x s m e : x ≠ S754_nan → ddiv x (S754_finite s m e) ≠ S754_nan.
Proof.
  destruct x as [| | |s' m' e']; intros; try done. unfold ddiv, SFdiv, SFdiv_core_binary.
  set (sh := e' - e - Z.min _ _). set (mm := match sh with Z0 => _ | Zpos _ => _ | Zneg _ => _ end).
  assert (0 ≤ mm) as Hm by (unfold mm; destruct sh; [done|by apply Z.shiftl_nonneg|done]).
  destruct (Z.div_eucl mm (Z.pos m)) as [q r] eqn:E. apply round_not_nan.
  assert (q = mm / Z.pos m) as -> by (unfold Z.div; by rewrite E). apply Z.div_pos; lia.
Qed.

Lemma of_int_finite n : finite (of_int n) = true.
Proof. unfold of_int. by destruct (n =? 0). Qed.
