(* ===== verification/Histogram.v ===== *)
(** * Histograms (util/histogram.h, util/histogram.cpp)

    Numbers are IEEE 754 doubles, with the operations of the Standard Library's
    [SpecFloat] (Doubles.v): rounding, infinities and NaN are those of the hardware.  Array
    accesses out of range are [None]. *)
From Stdlib Require Import ZArith Lia.
From Stdlib Require Import Strings.Byte.
From Stdlib Require Import Floats.SpecFloat.
From S2P Require Import Prelude Slice Coding Logging Doubles.
From stdpp Require Import base numbers strings sorting list.

#[local] Open Scope Z_scope.

(** ** Doubles *)

Definition done_ : double := dint 1.
(** 0.5 *)
Definition dhalf : double := ddiv done_ (dint 2).

(** ** State *)

Definition kNumBuckets : nat := 154.

(** [1e200] is the double 5883593420661338 * 2^612. *)
Definition kBucketLimit : list double :=
  (dint <$>
    [
      1; 2; 3; 4; 5; 6; 7; 8; 9; 10; 12; 14; 16; 18; 20; 25; 30; 35; 40; 45; 50; 60; 70; 80;
      90; 100; 120; 140; 160; 180; 200; 250; 300; 350; 400; 450; 500; 600; 700; 800; 900;
      1000; 1200; 1400; 1600; 1800; 2000; 2500; 3000; 3500; 4000; 4500; 5000; 6000; 7000;
      8000; 9000; 10000; 12000; 14000; 16000; 18000; 20000; 25000; 30000; 35000; 40000;
      45000; 50000; 60000; 70000; 80000; 90000; 100000; 120000; 140000; 160000; 180000;
      200000; 250000; 300000; 350000; 400000; 450000; 500000; 600000; 700000; 800000;
      900000; 1000000; 1200000; 1400000; 1600000; 1800000; 2000000; 2500000; 3000000;
      3500000; 4000000; 4500000; 5000000; 6000000; 7000000; 8000000; 9000000; 10000000;
      12000000; 14000000; 16000000; 18000000; 20000000; 25000000; 30000000; 35000000;
      40000000; 45000000; 50000000; 60000000; 70000000; 80000000; 90000000; 100000000;
      120000000; 140000000; 160000000; 180000000; 200000000; 250000000; 300000000;
      350000000; 400000000; 450000000; 500000000; 600000000; 700000000; 800000000;
      900000000; 1000000000; 1200000000; 1400000000; 1600000000; 1800000000; 2000000000;
      2500000000; 3000000000; 3500000000; 4000000000; 4500000000; 5000000000; 6000000000;
      7000000000; 8000000000; 9000000000
    ]) ++ [S754_finite false 5883593420661338 612].

Record Histogram := {
  min_ : double; max_ : double; num_ : double; sum_ : double; sum_squares_ : double;
  buckets_ : list double }.

(** ** Operations *)

(** The constructor leaves every field unset: any [h]. *)
Definition Histogram_Clear (h : Histogram) : option Histogram :=
  m ← (kBucketLimit !! (kNumBuckets - 1)%nat);
  Some {| min_ := m; max_ := S754_zero false; num_ := S754_zero false; sum_ := S754_zero false;
          sum_squares_ := S754_zero false; buckets_ := replicate kNumBuckets (S754_zero false) |}.

(** The search of [Add] from bucket [b] on. *)
Fixpoint bucket_loop (fuel b : nat) (value : double) : option nat :=
  if (b <? kNumBuckets - 1)%nat then
    match fuel with
    | O => None
    | S fuel =>
        limit ← (kBucketLimit !! b);
        if SFleb limit value then bucket_loop fuel (S b) value else Some b
    end
  else Some b.

Definition Histogram_Add (value : double) (h : Histogram) : option Histogram :=
  b ← bucket_loop kNumBuckets 0 value;
  n ← (buckets_ h !! b);
  Some {| min_ := if SFltb value (min_ h) then value else min_ h;
          max_ := if SFltb (max_ h) value then value else max_ h;
          num_ := dadd (num_ h) done_;
          sum_ := dadd (sum_ h) value;
          sum_squares_ := dadd (sum_squares_ h) (dmul value value);
          buckets_ := <[b := dadd n done_]> (buckets_ h) |}.

Fixpoint merge_buckets (l l' : list double) : option (list double) :=
  match l, l' with
  | [], [] => Some []
  | x :: l, y :: l' => r ← merge_buckets l l'; Some (dadd x y :: r)
  | _, _ => None
  end.

Definition Histogram_Merge (other h : Histogram) : option Histogram :=
  b ← merge_buckets (buckets_ h) (buckets_ other);
  Some {| min_ := if SFltb (min_ other) (min_ h) then min_ other else min_ h;
          max_ := if SFltb (max_ h) (max_ other) then max_ other else max_ h;
          num_ := dadd (num_ h) (num_ other);
          sum_ := dadd (sum_ h) (sum_ other);
          sum_squares_ := dadd (sum_squares_ h) (sum_squares_ other);
          buckets_ := b |}.

(** The result of [Percentile] once its bucket is found. *)
Definition interpolate (h : Histogram) (threshold sum n left_point right_point : double) : double :=
  let left_sum := dsub sum n in
  let right_sum := sum in
  let pos := ddiv (dsub threshold left_sum) (dsub right_sum left_sum) in
  let r := dadd left_point (dmul (dsub right_point left_point) pos) in
  let r := if SFltb r (min_ h) then min_ h else r in
  if SFltb (max_ h) r then max_ h else r.

(** The loop of [Percentile] over the buckets from [b] on. *)
Fixpoint percentile_loop (h : Histogram) (threshold : double) (fuel b : nat) (sum : double) : option double :=
  if (b <? kNumBuckets)%nat then
    match fuel with
    | O => None
    | S fuel =>
        n ← (buckets_ h !! b);
        let sum := dadd sum n in
        if SFleb threshold sum then
          left_point ← (if (b =? 0)%nat then Some (S754_zero false) else kBucketLimit !! (b - 1)%nat);
          right_point ← (kBucketLimit !! b);
          Some (interpolate h threshold sum n left_point right_point)
        else percentile_loop h threshold fuel (S b) sum
    end
  else Some (max_ h).

Definition Percentile (h : Histogram) (p : double) : option double :=
  let threshold := dmul (num_ h) (ddiv p (dint 100)) in
  percentile_loop h threshold kNumBuckets 0 (S754_zero false).

Definition Median (h : Histogram) : option double := Percentile h (dint 50).

Definition Average (h : Histogram) : double :=
  if SFeqb (num_ h) (S754_zero false) then S754_zero false else ddiv (sum_ h) (num_ h).

Definition StandardDeviation (h : Histogram) : double :=
  if SFeqb (num_ h) (S754_zero false) then S754_zero false
  else
    let variance := ddiv (dsub (dmul (sum_squares_ h) (num_ h)) (dmul (sum_ h) (sum_ h)))
                         (dmul (num_ h) (num_ h)) in
    dsqrt variance.

(** ** Printing *)

(** The integer nearest to m * 2^e * 10^prec, ties to even. *)
Definition scaled (prec : Z) (m e : Z) : Z :=
  let n := m * 10 ^ prec in
  if 0 <=? e then n * 2 ^ e
  else
    let d := 2 ^ (- e) in
    let q := n / d in
    let r := 2 * (n mod d) in
    if (d <? r) || ((r =? d) && Z.odd q) then q + 1 else q.

(** The decimal digits of a number below 10^400. *)
Definition digits (n : Z) : bytes := decimal_digits 400 n [].

Definition zero_padded (w : nat) (n : Z) : bytes :=
  let d := digits n in replicate (w - length d) x30 ++ d.

Definition format_abs (prec : nat) (n : Z) : bytes :=
  let unit := 10 ^ Z.of_nat prec in
  digits (n / unit) ++ (if (prec =? 0)%nat then [] else x2e :: zero_padded prec (n mod unit)).

(** ["%width.precf"] *)
Definition printf_f (width prec : nat) (x : double) : bytes :=
  let sign (s : bool) := if s then [x2d] else [] in
  let text := match x with
              | S754_nan => str "nan"
              | S754_infinity s => sign s ++ str "inf"
              | S754_zero s => sign s ++ format_abs prec 0
              | S754_finite s m e => sign s ++ format_abs prec (scaled (Z.of_nat prec) (Zpos m) e)
              end in
  replicate (width - length text) x20 ++ text.

(** What [snprintf] leaves in [buf]. *)
Definition in_buf (text : bytes) : bytes := take 199 text.

(** [static_cast<int>], when the result is an [int]. *)
Definition to_int (x : double) : option Z :=
  let check (n : Z) := if (- 2 ^ 31 <=? n) && (n <? 2 ^ 31) then Some n else None in
  match x with
  | S754_zero _ => Some 0
  | S754_finite s m e =>
      let n := if 0 <=? e then Zpos m * 2 ^ e else Zpos m / 2 ^ (- e) in
      check (if s then - n else n)
  | _ => None
  end.

(** The line of a bucket that is not empty; negative counts of marks are an
    error. *)
Definition bucket_line (h : Histogram) (b : nat) (n mult sum : double) : option bytes :=
  left_point ← (if (b =? 0)%nat then Some (S754_zero false) else kBucketLimit !! (b - 1)%nat);
  right_point ← (kBucketLimit !! b);
  marks ← to_int (dadd (dmul (dint 20) (ddiv n (num_ h))) dhalf);
  if marks <? 0 then None
  else Some (in_buf (str "[ " ++ printf_f 7 0 left_point ++ str ", " ++ printf_f 7 0 right_point ++
                     str " ) " ++ printf_f 7 0 n ++ str " " ++ printf_f 7 3 (dmul mult n) ++ str "% " ++
                     printf_f 7 3 (dmul mult sum) ++ str "% ") ++
             replicate (Z.to_nat marks) x23 ++ [x0a]).

Fixpoint bucket_lines (h : Histogram) (mult : double) (fuel b : nat) (sum : double) (r : bytes) : option bytes :=
  if (b <? kNumBuckets)%nat then
    match fuel with
    | O => None
    | S fuel =>
        n ← (buckets_ h !! b);
        if SFleb n (S754_zero false) then bucket_lines h mult fuel (S b) sum r
        else
          let sum := dadd sum n in
          line ← bucket_line h b n mult sum;
          bucket_lines h mult fuel (S b) sum (r ++ line)
    end
  else Some r.

Definition Histogram_ToString (h : Histogram) : option bytes :=
  median ← Median h;
  bucket_lines h (ddiv (dint 100) (num_ h)) kNumBuckets 0 (S754_zero false)
    (in_buf (str "Count: " ++ printf_f 0 0 (num_ h) ++ str "  Average: " ++ printf_f 0 4 (Average h) ++
             str "  StdDev: " ++ printf_f 0 2 (StandardDeviation h) ++ [x0a]) ++
     in_buf (str "Min: " ++ printf_f 0 4 (if SFeqb (num_ h) (S754_zero false) then S754_zero false else min_ h) ++
             str "  Median: " ++ printf_f 0 4 median ++ str "  Max: " ++ printf_f 0 4 (max_ h) ++ [x0a]) ++
     str "------------------------------------------------------" ++ [x0a]).

(** ** Lemmas: the order of doubles *)

Definition is_number (x : double) : Prop := x ≠ S754_nan.

(** A key whose lexicographic order is the order of the numbers. *)
Definition key (x : double) : Z * Z * Z :=
  match x with
  | S754_infinity true => (-2, 0, 0)
  | S754_finite true m e => (-1, - e, Zneg m)
  | S754_nan | S754_zero _ => (0, 0, 0)
  | S754_finite false m e => (1, e, Zpos m)
  | S754_infinity false => (2, 0, 0)
  end.

Definition key_lt (a b : Z * Z * Z) : Prop :=
  a.1.1 < b.1.1 ∨ (a.1.1 = b.1.1 ∧ (a.1.2 < b.1.2 ∨ (a.1.2 = b.1.2 ∧ a.2 < b.2))).

Definition key_compare (a b : Z * Z * Z) : comparison :=
  match a.1.1 ?= b.1.1 with
  | Eq => match a.1.2 ?= b.1.2 with Eq => a.2 ?= b.2 | c => c end
  | c => c
  end.

Lemma SFcompare_key x y :
  is_number x → is_number y → SFcompare x y = Some (key_compare (key x) (key y)).
Proof.
  destruct x as [?|[]| |[] m e], y as [?|[]| |[] m' e']; try done; intros _ _;
    unfold key_compare; simpl; try done.
  rewrite Z.compare_opp, (Z.compare_antisym e e'). by destruct (e ?= e').
Qed.

Lemma key_compare_spec a b :
  match key_compare a b with
  | Lt => key_lt a b
  | Eq => a = b
  | Gt => key_lt b a
  end.
Proof.
  destruct a as [[a1 a2] a3], b as [[b1 b2] b3]. unfold key_compare, key_lt. simpl.
  destruct (Z.compare_spec a1 b1); simpl; [|lia|lia].
  destruct (Z.compare_spec a2 b2); simpl; [|lia|lia].
  destruct (Z.compare_spec a3 b3); simpl; [congruence|lia|lia].
Qed.

Definition dlt (x y : double) : Prop := SFltb x y = true.
Definition dle (x y : double) : Prop := SFleb x y = true.

Lemma SFcompare_nan x y : SFcompare x y = None ↔ ¬ (is_number x ∧ is_number y).
Proof.
  split.
  - intros E [Hx Hy]. by rewrite SFcompare_key in E.
  - destruct x, y; try done; intros H; by destruct H.
Qed.

Lemma SFcompare_numbers x y c : SFcompare x y = Some c → is_number x ∧ is_number y.
Proof. by destruct x, y. Qed.

Lemma dlt_key x y : dlt x y ↔ is_number x ∧ is_number y ∧ key_lt (key x) (key y).
Proof.
  unfold dlt, SFltb. destruct (SFcompare x y) as [c|] eqn:E.
  - destruct (SFcompare_numbers x y c E) as [Hx Hy].
    rewrite SFcompare_key in E by done. injection E as <-.
    pose proof (key_compare_spec (key x) (key y)) as H. destruct (key_compare _ _).
    + split; [done|]. rewrite H. unfold key_lt. lia.
    + by split.
    + split; [done|]. unfold key_lt in *. lia.
  - apply SFcompare_nan in E. split; [done|tauto].
Qed.

Lemma dle_key x y : dle x y ↔ is_number x ∧ is_number y ∧ ¬ key_lt (key y) (key x).
Proof.
  unfold dle, SFleb. destruct (SFcompare x y) as [c|] eqn:E.
  - destruct (SFcompare_numbers x y c E) as [Hx Hy].
    rewrite SFcompare_key in E by done. injection E as <-.
    pose proof (key_compare_spec (key x) (key y)) as H. destruct (key_compare _ _).
    + split; [|done]. intros _. rewrite H. unfold key_lt. split_and!; [done|done|lia].
    + split; [|done]. intros _. unfold key_lt in *. split_and!; [done|done|lia].
    + split; [done|]. tauto.
  - apply SFcompare_nan in E. split; [done|tauto].
Qed.

Lemma key_lt_trans a b c : key_lt a b → key_lt b c → key_lt a c.
Proof. unfold key_lt. lia. Qed.
Lemma key_lt_total a b : key_lt a b ∨ a = b ∨ key_lt b a.
Proof. pose proof (key_compare_spec a b). destruct (key_compare a b); auto. Qed.

Lemma dlt_trans x y z : dlt x y → dlt y z → dlt x z.
Proof. rewrite !dlt_key. unfold key_lt. intros (? & ? & ?) (? & ? & ?). split_and!; [done|done|lia]. Qed.
Lemma dle_trans x y z : dle x y → dle y z → dle x z.
Proof.
  rewrite !dle_key. unfold key_lt. intros (? & ? & ?) (? & ? & ?). split_and!; [done|done|lia].
Qed.
Lemma dle_refl x : is_number x → dle x x.
Proof. intros Hx. apply dle_key. unfold key_lt. split_and!; [done|done|lia]. Qed.
Lemma dlt_dle x y : dlt x y → dle x y.
Proof. rewrite dlt_key, dle_key. unfold key_lt. intros (? & ? & ?). split_and!; [done|done|lia]. Qed.
Lemma not_dlt x y : is_number x → is_number y → SFltb x y = false ↔ dle y x.
Proof.
  intros Hx Hy. rewrite dle_key. destruct (SFltb x y) eqn:E.
  - change (dlt x y) in E. apply dlt_key in E. split; [done|tauto].
  - split; [|done]. intros _. split_and!; [done|done|]. intros Hk.
    assert (dlt x y) as Hlt by (by apply dlt_key). unfold dlt in Hlt. congruence.
Qed.
Lemma not_dle x y : is_number x → is_number y → SFleb x y = false ↔ dlt y x.
Proof.
  intros Hx Hy. rewrite dlt_key. destruct (SFleb x y) eqn:E.
  - change (dle x y) in E. apply dle_key in E. split; [done|tauto].
  - split; [|done]. intros _. split_and!; [done|done|].
    destruct (key_lt_total (key y) (key x)) as [|H]; [done|].
    assert (dle x y) as Hle by (apply dle_key; split_and!; [done|done|]; unfold key_lt in *; destruct H as [->|]; lia).
    unfold dle in Hle. congruence.
Qed.

(** ** Specification: buckets *)

(** The values that belong to bucket [b]. *)
Definition in_bucket (b : nat) (v : double) : Prop :=
  (b < kNumBuckets)%nat ∧
  (b = 0%nat ∨ ∃ l, kBucketLimit !! (b - 1)%nat = Some l ∧ dle l v) ∧
  (b = (kNumBuckets - 1)%nat ∨ ∃ l, kBucketLimit !! b = Some l ∧ dlt v l).

(** A count. *)
Definition count (n : nat) : double := dint (Z.of_nat n).

Definition bucket_of (v : double) : nat := default 0%nat (bucket_loop kNumBuckets 0 v).

(** The largest limit. *)
Definition last_limit : double := S754_finite false 5883593420661338 612.

Definition Add_all (vs : list double) (h : Histogram) : option Histogram :=
  foldl (λ h v, h ← h; Histogram_Add v h) (Histogram_Clear h) vs.

(** ** Lemmas: buckets *)

Fixpoint increasing (l : list double) : bool :=
  match l with
  | x :: l => match l with y :: _ => SFltb x y | [] => true end && increasing l
  | [] => true
  end.

Lemma increasing_sorted l : increasing l = true → StronglySorted dlt l.
Proof.
  intros H. apply Sorted_StronglySorted; [exact dlt_trans|].
  induction l as [|x l IH]; [constructor|]. simpl in H. apply andb_prop in H as [H1 H2].
  constructor; [auto|]. destruct l; constructor. exact H1.
Qed.

Lemma limits_sorted : StronglySorted dlt kBucketLimit.
Proof. apply increasing_sorted. vm_compute. reflexivity. Qed.

Lemma length_limits : length kBucketLimit = kNumBuckets.
Proof. reflexivity. Qed.

Lemma limits_number i l : kBucketLimit !! i = Some l → is_number l.
Proof.
  intros Hl. assert (Forall (λ x, SFeqb x x = true) kBucketLimit) as H
    by (apply (bool_decide_unpack _); vm_compute; exact I).
  pose proof (Forall_lookup_1 _ _ _ _ H Hl). by intros ->.
Qed.

Lemma kNumBuckets_pos : (0 < kNumBuckets)%nat.
Proof. unfold kNumBuckets. lia. Qed.

Lemma kBucketLimit_last : kBucketLimit !! (kNumBuckets - 1)%nat = Some last_limit.
Proof. reflexivity. Qed.

(** The whole state after [Clear]. *)
Definition cleared : Histogram :=
  {| min_ := last_limit; max_ := S754_zero false; num_ := S754_zero false; sum_ := S754_zero false;
     sum_squares_ := S754_zero false; buckets_ := replicate kNumBuckets (S754_zero false) |}.

Lemma Clear_cleared h : Histogram_Clear h = Some cleared.
Proof. reflexivity. Qed.

Lemma median_cleared : Median cleared = Some S754_nan.
Proof. vm_compute. reflexivity. Qed.

#[local] Opaque kBucketLimit.
#[local] Opaque kNumBuckets.

Lemma limits_lookup i : (i < kNumBuckets)%nat → ∃ l, kBucketLimit !! i = Some l ∧ is_number l.
Proof.
  intros Hi. destruct (lookup_lt_is_Some_2 kBucketLimit i) as [l Hl]; [by rewrite length_limits|].
  exists l. split; [done|]. by eapply limits_number.
Qed.

Lemma limits_lt i j li lj :
  kBucketLimit !! i = Some li → kBucketLimit !! j = Some lj → (i < j)%nat → dlt li lj.
Proof.
  intros Hi Hj Hij. pose proof limits_sorted as Hs.
  rewrite <- (take_drop_middle kBucketLimit i li Hi) in Hs.
  apply StronglySorted_app in Hs as (_ & _ & Hs). apply StronglySorted_cons in Hs as [Hs _].
  rewrite Forall_forall in Hs. apply Hs. apply list_elem_of_lookup. exists (j - S i)%nat.
  rewrite lookup_drop. by replace (S i + (j - S i))%nat with j by lia.
Qed.

(** The buckets are disjoint. *)
Lemma in_bucket_le b b' v : in_bucket b v → in_bucket b' v → (b <= b')%nat.
Proof.
  intros (Hb & [->|(l & Hl & Hle)] & _) (Hb' & _ & [->|(l' & Hl' & Hlt)]); [lia|lia|lia|].
  destruct (Nat.le_gt_cases b b') as [|Hgt]; [done|exfalso].
  assert (dlt l l) as H.
  { destruct (decide (b' = b - 1)%nat) as [->|Hne].
    - assert (l = l') as <- by congruence. rewrite dle_key in Hle. rewrite dlt_key in Hlt. tauto.
    - assert (dlt l' l) as H by (by apply (limits_lt b' (b - 1)); [..|lia]).
      rewrite dle_key in Hle. rewrite dlt_key in *. unfold key_lt in *. lia. }
  rewrite dlt_key in H. unfold key_lt in H. lia.
Qed.

Lemma bucket_loop_spec fuel b v :
  is_number v → (b < kNumBuckets)%nat → (kNumBuckets <= S (b + fuel))%nat →
  (b = 0%nat ∨ ∃ l, kBucketLimit !! (b - 1)%nat = Some l ∧ dle l v) →
  ∃ b', bucket_loop fuel b v = Some b' ∧ in_bucket b' v.
Proof.
  intros Hv. revert b. induction fuel as [|fuel IH]; intros b Hb Hf Hprev; cbn [bucket_loop].
  - rewrite (proj2 (Nat.ltb_ge _ _)) by lia. exists b. split; [done|]. split; [done|].
    split; [done|]. left. lia.
  - destruct (Nat.ltb_spec b (kNumBuckets - 1)) as [Hlt|Hge].
    + destruct (limits_lookup b Hb) as (l & El & Hl). rewrite El. cbn [mbind option_bind].
      destruct (SFleb l v) eqn:Ele.
      * apply IH; [lia|lia|]. right. exists l. by replace (S b - 1)%nat with b by lia.
      * exists b. split; [done|]. split; [done|]. split; [done|]. right. exists l. split; [done|].
        by apply not_dle.
    + exists b. split; [done|]. split; [done|]. split; [done|]. left. lia.
Qed.

Lemma bucket_of_spec v :
  is_number v → bucket_loop kNumBuckets 0 v = Some (bucket_of v) ∧ in_bucket (bucket_of v) v.
Proof.
  intros Hv. destruct (bucket_loop_spec kNumBuckets 0 v Hv) as (b & E & Hb);
    [apply kNumBuckets_pos|lia|by left|].
  unfold bucket_of. rewrite E. done.
Qed.

Lemma bucket_of_unique v b : in_bucket b v → is_number v → b = bucket_of v.
Proof.
  intros Hb Hv. destruct (bucket_of_spec v Hv) as [_ Hb'].
  apply Nat.le_antisymm; by eapply in_bucket_le.
Qed.

(** ** Lemmas: adding *)

(** What a histogram that was cleared and then given [vs] holds. *)
Record counts (vs : list double) (h : Histogram) : Prop := {
  c_length : length (buckets_ h) = kNumBuckets;
  c_num : num_ h = count (length vs);
  c_bucket b : (b < kNumBuckets)%nat →
    buckets_ h !! b = Some (count (length (filter (λ v, bucket_of v = b) vs)));
  c_min : min_ h ∈ last_limit :: vs;
  c_max : max_ h ∈ S754_zero false :: vs;
  c_range v : v ∈ vs → dle (min_ h) v ∧ dle v (max_ h);
  c_number : is_number (min_ h) ∧ is_number (max_ h);
  c_numbers : Forall is_number vs }.

(** Below 2^53 counting is exact. *)
Definition few (vs : list double) : Prop := Z.of_nat (length vs) < 2 ^ 53.

Lemma count_add m n : Z.of_nat (m + n) < 2 ^ 53 → dadd (count m) (count n) = count (m + n).
Proof. intros H. unfold count. rewrite !dint_of_int by lia. rewrite dadd_of_int by lia. f_equal. lia. Qed.

Lemma length_filter_le (P : double → Prop) `{∀ x, Decision (P x)} vs : (length (filter P vs) <= length vs)%nat.
Proof. induction vs as [|v vs IH]; [done|]. rewrite filter_cons. case_decide; simpl; lia. Qed.

Lemma Clear_counts h : ∃ h', Histogram_Clear h = Some h' ∧ counts [] h'.
Proof.
  exists cleared. split; [apply Clear_cleared|]. split; cbn [cleared buckets_ num_ min_ max_].
  - apply length_replicate.
  - done.
  - intros b Hb. by rewrite lookup_replicate_2.
  - left.
  - left.
  - by intros v Hv%elem_of_nil.
  - done.
  - constructor.
Qed.

Lemma Add_counts vs v h :
  counts vs h → is_number v → few (vs ++ [v]) → ∃ h', Histogram_Add v h = Some h' ∧ counts (vs ++ [v]) h'.
Proof.
  intros [Hl Hn Hb Hmin Hmax Hr [Nmin Nmax] Hvs] Hv Hfew.
  unfold few in Hfew. rewrite length_app in Hfew. simpl in Hfew. unfold Histogram_Add.
  destruct (bucket_of_spec v Hv) as [-> (Hbv & _)]. cbn [mbind option_bind].
  rewrite (Hb _ Hbv). cbn [mbind option_bind]. eexists. split; [done|].
  split; cbn [buckets_ num_ min_ max_].
  - by rewrite length_insert.
  - rewrite length_app, Hn. change done_ with (count 1). rewrite count_add; [done|simpl; lia].
  - intros b Hlt. rewrite filter_app, length_app, filter_cons, filter_nil.
    destruct (decide (bucket_of v = b)) as [<-|Hne].
    + rewrite list_lookup_insert_eq by lia. change done_ with (count 1). pose proof (length_filter_le (λ u, bucket_of u = bucket_of v) vs).
      rewrite count_add; [done|lia].
    + rewrite list_lookup_insert_ne by done. rewrite Nat.add_0_r. auto.
  - destruct (SFltb v (min_ h)); rewrite !elem_of_cons, elem_of_app, elem_of_cons in *; tauto.
  - destruct (SFltb (max_ h) v); rewrite !elem_of_cons, elem_of_app, elem_of_cons in *; tauto.
  - intros u Hu. destruct (SFltb v (min_ h)) eqn:E1, (SFltb (max_ h) v) eqn:E2;
      rewrite ?not_dlt in E1 by done; rewrite ?not_dlt in E2 by done;
      change (SFltb v (min_ h) = true) with (dlt v (min_ h)) in *;
      change (SFltb (max_ h) v = true) with (dlt (max_ h) v) in *;
      (apply elem_of_app in Hu as [Hu|Hu%list_elem_of_singleton];
       [destruct (Hr u Hu)|subst u]); split;
      eauto using dle_trans, dlt_dle, dle_refl.
  - split; [by destruct (SFltb v (min_ h))|by destruct (SFltb (max_ h) v)].
  - apply Forall_app. by repeat constructor.
Qed.

Lemma Add_all_counts vs h :
  Forall is_number vs → few vs → ∃ h', Add_all vs h = Some h' ∧ counts vs h'.
Proof.
  induction vs as [|v vs IH] using rev_ind; intros Hvs Hfew; [apply Clear_counts|].
  apply Forall_app in Hvs as [Hvs Hv]. apply Forall_cons in Hv as [Hv _].
  destruct (IH Hvs) as (h1 & E1 & H1); [unfold few in *; rewrite length_app in Hfew; lia|].
  unfold Add_all in *. rewrite foldl_app, E1. simpl.
  by apply Add_counts.
Qed.

(** ** Lemmas: merging *)

Lemma merge_buckets_lookup l l' :
  length l = length l' →
  ∃ r, merge_buckets l l' = Some r ∧ length r = length l ∧
       ∀ b x y, l !! b = Some x → l' !! b = Some y → r !! b = Some (dadd x y).
Proof.
  revert l'. induction l as [|x l IH]; intros [|y l'] Hl; try done; [by exists []|].
  injection Hl as Hl. destruct (IH l' Hl) as (r & E & Hr & Hb). simpl. rewrite E. simpl.
  eexists. split; [done|]. split; [simpl; lia|]. intros [|b] u v; simpl; [by intros [= <-] [= <-]|apply Hb].
Qed.

Lemma Merge_counts vs ws h other :
  counts vs h → counts ws other → few (vs ++ ws) →
  ∃ h', Histogram_Merge other h = Some h' ∧ counts (vs ++ ws) h'.
Proof.
  intros [Hl Hn Hb Hmin Hmax Hr [Nmin Nmax] Hvs] [Hl' Hn' Hb' Hmin' Hmax' Hr' [Nmin' Nmax'] Hws] Hfew.
  unfold few in Hfew. rewrite length_app in Hfew. unfold Histogram_Merge.
  destruct (merge_buckets_lookup (buckets_ h) (buckets_ other)) as (r & -> & Hrl & Hrb); [lia|].
  cbn [mbind option_bind]. eexists. split; [done|]. split; cbn [buckets_ num_ min_ max_].
  - lia.
  - rewrite Hn, Hn', length_app. apply count_add. lia.
  - intros b Hlt. rewrite (Hrb b _ _ (Hb b Hlt) (Hb' b Hlt)), filter_app, length_app.
    pose proof (length_filter_le (λ v, bucket_of v = b) vs). pose proof (length_filter_le (λ v, bucket_of v = b) ws).
    by rewrite count_add by lia.
  - destruct (SFltb (min_ other) (min_ h)); rewrite !elem_of_cons, elem_of_app in *; tauto.
  - destruct (SFltb (max_ h) (max_ other)); rewrite !elem_of_cons, elem_of_app in *; tauto.
  - intros v Hv. destruct (SFltb (min_ other) (min_ h)) eqn:E1, (SFltb (max_ h) (max_ other)) eqn:E2;
      rewrite ?not_dlt in E1 by done; rewrite ?not_dlt in E2 by done;
      change (SFltb (min_ other) (min_ h) = true) with (dlt (min_ other) (min_ h)) in *;
      change (SFltb (max_ h) (max_ other) = true) with (dlt (max_ h) (max_ other)) in *;
      (apply elem_of_app in Hv as [Hv|Hv]; [destruct (Hr v Hv)|destruct (Hr' v Hv)]); split;
      eauto using dle_trans, dlt_dle.
  - split; [by destruct (SFltb (min_ other) (min_ h))|by destruct (SFltb (max_ h) (max_ other))].
  - by apply Forall_app.
Qed.

(** ** Lemmas: percentiles *)

Lemma percentile_loop_spec h threshold fuel b sum :
  length (buckets_ h) = kNumBuckets → (b <= kNumBuckets)%nat → (kNumBuckets <= b + fuel)%nat →
  ∃ r, percentile_loop h threshold fuel b sum = Some r ∧
       (r = max_ h ∨ ∃ n s l u, r = interpolate h threshold s n l u).
Proof.
  intros Hl. revert b sum. induction fuel as [|fuel IH]; intros b sum Hb Hf; cbn [percentile_loop].
  - rewrite (proj2 (Nat.ltb_ge _ _)) by lia. eauto.
  - destruct (Nat.ltb_spec b kNumBuckets) as [Hlt|Hge]; [|eauto].
    destruct (lookup_lt_is_Some_2 (buckets_ h) b) as [n En]; [lia|]. rewrite En. cbn [mbind option_bind].
    destruct (SFleb threshold (dadd sum n)); [|apply IH; lia].
    assert (∃ l, (if (b =? 0)%nat then Some (S754_zero false) else kBucketLimit !! (b - 1)%nat) = Some l) as [l El].
    { destruct (Nat.eqb_spec b 0); [by eexists|]. destruct (limits_lookup (b - 1)) as (l & -> & _); [lia|eauto]. }
    destruct (limits_lookup b Hlt) as (u & Eu & _). rewrite El, Eu. cbn [mbind option_bind].
    eexists. split; [done|]. right. eauto.
Qed.

Lemma interpolate_range h t s n l u :
  dle (min_ h) (max_ h) →
  interpolate h t s n l u = S754_nan ∨
  (dle (min_ h) (interpolate h t s n l u) ∧ dle (interpolate h t s n l u) (max_ h)).
Proof.
  intros Hle. pose proof (proj1 (dle_key _ _) Hle) as (Nmin & Nmax & _). unfold interpolate. cbn zeta.
  set (r := dadd l _). clearbody r.
  assert (r = S754_nan ∨ is_number r) as [->|Hr] by (destruct r; (by left) || (by right)).
  - left. assert (∀ x, SFltb x S754_nan = false) as H1 by (by intros []).
    assert (∀ x, SFltb S754_nan x = false) as H2 by (by intros []). by rewrite H2, H1.
  - right. destruct (SFltb r (min_ h)) eqn:E1.
    + assert (SFltb (max_ h) (min_ h) = false) as -> by (by apply not_dlt).
      split; [by apply dle_refl|done].
    + apply not_dlt in E1; [|done|done]. destruct (SFltb (max_ h) r) eqn:E2.
      * split; [done|by apply dle_refl].
      * apply not_dlt in E2; done.
Qed.

(** The buckets as numbers. *)
Definition bucket_counts (vs : list double) : list nat :=
  (λ b, length (filter (λ v, bucket_of v = b) vs)) <$> seq 0 kNumBuckets.

Lemma sum_indicator (k n start : nat) (g : nat → nat) :
  (start <= k < start + n)%nat →
  sum_list ((λ b, (if decide (k = b) then S (g b) else g b)) <$> seq start n) = S (sum_list (g <$> seq start n)).
Proof.
  revert start. induction n as [|n IH]; intros start Hk; [lia|]. cbn [seq fmap list_fmap sum_list].
  case_decide as E.
  - subst start. simpl. do 2 f_equal.
    assert (∀ m s, (k < s)%nat → (λ b, if decide (k = b) then S (g b) else g b) <$> seq s m = g <$> seq s m) as H.
    { induction m as [|m IHm]; intros s Hs; [done|]. cbn [seq fmap list_fmap]. rewrite decide_False by lia.
      f_equal. apply IHm. lia. }
    by rewrite H by lia.
  - rewrite IH by lia. lia.
Qed.

(** Every number is in a bucket. *)
Lemma sum_bucket_counts vs : Forall is_number vs → sum_list (bucket_counts vs) = length vs.
Proof.
  unfold bucket_counts. induction 1 as [|v vs Hv _ IH].
  - generalize (seq 0 kNumBuckets). intros l. induction l; simpl; done.
  - destruct (bucket_of_spec v Hv) as [_ (Hb & _)].
    transitivity (sum_list ((λ b, if decide (bucket_of v = b) then S (length (filter (λ v, bucket_of v = b) vs))
                                  else length (filter (λ v, bucket_of v = b) vs)) <$> seq 0 kNumBuckets)).
    + f_equal. apply list_fmap_ext. intros i b _. rewrite filter_cons. by case_decide.
    + rewrite sum_indicator by lia. simpl. by rewrite IH.
Qed.

Lemma bucket_counts_lookup vs h b :
  counts vs h → (b < kNumBuckets)%nat → ∃ k, bucket_counts vs !! b = Some k ∧ buckets_ h !! b = Some (count k).
Proof.
  intros Hc Hb. exists (length (filter (λ v, bucket_of v = b) vs)). split; [|by apply Hc].
  unfold bucket_counts. by rewrite list_lookup_fmap, lookup_seq_lt.
Qed.

(** The limits of a bucket are finite and different, and so is their difference. *)
Definition limits_ok (b : nat) : bool :=
  match (if (b =? 0)%nat then Some (S754_zero false) else kBucketLimit !! (b - 1)%nat), kBucketLimit !! b with
  | Some l, Some u => finite l && match dsub u l with S754_finite _ _ _ => true | _ => false end
  | _, _ => false
  end.

Lemma all_limits_ok b : (b < kNumBuckets)%nat → limits_ok b = true.
Proof.
  intros Hb. assert (forallb limits_ok (seq 0 kNumBuckets) = true) as H by (vm_compute; reflexivity).
  rewrite forallb_forall in H. apply H, in_seq. lia.
Qed.

(** Interpolating in a bucket that is not empty gives a number. *)
Lemma interpolate_number h t c k l u s m e :
  dle (min_ h) (max_ h) → (0 < k)%nat → Z.of_nat (c + k) < 2 ^ 53 → finite t = true → finite l = true →
  dsub u l = S754_finite s m e →
  let r := interpolate h t (count (c + k)) (count k) l u in dle (min_ h) r ∧ dle r (max_ h).
Proof.
  intros Hle Hk Hck Ht Hl Hd r. pose proof (proj1 (dle_key _ _) Hle) as (Nmin & Nmax & _).
  destruct (interpolate_range h t (count (c + k)) (count k) l u Hle) as [Hn|Hr]; [|done]. exfalso. revert Hn.
  unfold interpolate, count. cbn zeta. rewrite !dint_of_int by lia. rewrite !dsub_of_int, Hd by lia.
  replace (Z.of_nat (c + k) - (Z.of_nat (c + k) - Z.of_nat k)) with (Z.of_nat k) by lia.
  assert (∃ m' e', of_int (Z.of_nat k) = S754_finite false m' e') as (m' & e' & ->)
    by (unfold of_int; rewrite (proj2 (Z.eqb_neq _ 0)) by lia; by eexists _, _).
  set (r0 := dadd l _).
  assert (r0 ≠ S754_nan) as Hr0 by (by apply dadd_not_nan, dmul_not_nan, ddiv_not_nan, dsub_not_nan, of_int_finite).
  destruct (SFltb r0 (min_ h)); [destruct (SFltb (max_ h) (min_ h))|destruct (SFltb (max_ h) r0)]; done.
Qed.

(** From a partial sum below the threshold on. *)
Lemma percentile_loop_number h vs t fuel b c :
  counts vs h → few vs → dle (min_ h) (max_ h) → finite t = true →
  (c + sum_list (drop b (bucket_counts vs)) = length vs)%nat → SFleb t (count c) = false →
  (b <= kNumBuckets)%nat → (kNumBuckets <= b + fuel)%nat →
  ∃ r, percentile_loop h t fuel b (count c) = Some r ∧ dle (min_ h) r ∧ dle r (max_ h).
Proof.
  intros Hc Hfew Hmm Ht. pose proof (proj1 (dle_key _ _) Hmm) as (_ & Nmax & _).
  revert b c. induction fuel as [|fuel IH]; intros b c Hsum Hlt Hb Hf; cbn [percentile_loop].
  - rewrite (proj2 (Nat.ltb_ge _ _)) by lia. exists (max_ h). by split; [|split; [|apply dle_refl]].
  - destruct (Nat.ltb_spec b kNumBuckets) as [Hlb|Hge];
      [|exists (max_ h); by split; [|split; [|apply dle_refl]]].
    destruct (bucket_counts_lookup vs h b Hc Hlb) as (k & Ek & ->). cbn [mbind option_bind].
    rewrite (drop_S _ k b Ek) in Hsum. simpl in Hsum. unfold few in Hfew.
    rewrite count_add by lia. destruct (SFleb t (count (c + k))) eqn:Ele.
    + pose proof (all_limits_ok b Hlb) as Hok. unfold limits_ok in Hok.
      destruct (if (b =? 0)%nat then _ else _) as [l|]; [|done]. destruct (kBucketLimit !! b) as [u|]; [|done].
      apply andb_true_iff in Hok as [Hl Hd]. destruct (dsub u l) as [| | |s m e] eqn:Ed; try done.
      cbn [mbind option_bind]. eexists. split; [done|]. eapply interpolate_number; try done; [|lia].
      destruct k; [|lia]. rewrite Nat.add_0_r in Ele. congruence.
    + apply IH; [lia|done|lia|lia].
Qed.

Lemma counts_min_max vs h : counts vs h → vs ≠ [] → dle (min_ h) (max_ h).
Proof.
  intros Hc Hne. destruct vs as [|v vs]; [done|].
  destruct (c_range _ _ Hc v) as [H1 H2]; [left|]. by eapply dle_trans.
Qed.

(** The first threshold is positive, so that the loop starts below it. *)
Lemma Percentile_number h vs p :
  counts vs h → few vs → vs ≠ [] →
  let t := dmul (num_ h) (ddiv p (dint 100)) in
  finite t = true → SFleb t (S754_zero false) = false →
  ∃ r, Percentile h p = Some r ∧ dle (min_ h) r ∧ dle r (max_ h).
Proof.
  intros Hc Hfew Hne t Ht Hpos.
  apply (percentile_loop_number h vs t kNumBuckets 0 0 Hc Hfew (counts_min_max _ _ Hc Hne) Ht);
    [|exact Hpos|lia|lia].
  rewrite drop_0. apply sum_bucket_counts, Hc.
Qed.

Lemma half : ddiv (dint 50) (dint 100) = S754_finite false 4503599627370496 (-53).
Proof. vm_compute. reflexivity. Qed.

Lemma Median_number h vs :
  counts vs h → few vs → vs ≠ [] → ∃ r, Median h = Some r ∧ dle (min_ h) r ∧ dle r (max_ h).
Proof.
  intros Hc Hfew Hne. unfold few in Hfew.
  assert (0 < Z.of_nat (length vs)) by (destruct vs; [done|simpl; lia]).
  assert (dmul (num_ h) (ddiv (dint 50) (dint 100)) =
          S754_finite false (Z.to_pos (significand (Z.of_nat (length vs)))) (exponent (Z.of_nat (length vs)) - 1)) as Et.
  { rewrite (c_num _ _ Hc), half. unfold count. rewrite dint_of_int by lia. by apply dmul_half. }
  apply (Percentile_number h vs (dint 50) Hc Hfew Hne); rewrite Et; done.
Qed.

Lemma Percentile_range h vs p :
  counts vs h →
  ∃ r, Percentile h p = Some r ∧ (vs ≠ [] → r = S754_nan ∨ (dle (min_ h) r ∧ dle r (max_ h))).
Proof.
  intros Hc. destruct (percentile_loop_spec h (dmul (num_ h) (ddiv p (dint 100))) kNumBuckets 0 (S754_zero false))
    as (r & E & Hres); [apply Hc|lia|lia|].
  exists r. split; [exact E|]. intros Hne. pose proof (counts_min_max _ _ Hc Hne) as Hle.
  destruct (c_number _ _ Hc) as [_ Nmax].
  destruct Hres as [->|(n & s & l & u & ->)]; [right; split; [done|by apply dle_refl]|].
  by apply interpolate_range.
Qed.

(** ** Properties *)

(** C38: A histogram that was cleared and then given fewer than 2^53 numbers [vs] counts
    them exactly: every number is in exactly one bucket, the one whose limits enclose it,
    the count of a bucket is the number of the values in it, these add up to [num_], and
    [min_] and [max_] are values (or the initial ones) that bound all of them.  Merging
    the histogram of [ws] into that of [vs] gives the counts of [vs ++ ws].  No access to an
    array is out of range. *)
Theorem Histogram_counts (h g : Histogram) (vs ws : list double) :
  Forall is_number (vs ++ ws) → few (vs ++ ws) →
  ∃ h1 h2 h3, Add_all vs h = Some h1 ∧ Add_all ws g = Some h2 ∧ Histogram_Merge h2 h1 = Some h3 ∧
    counts vs h1 ∧ counts ws h2 ∧ counts (vs ++ ws) h3 ∧
    sum_list (bucket_counts vs) = length vs ∧
    (∀ v, v ∈ vs ++ ws → in_bucket (bucket_of v) v ∧ ∀ b, in_bucket b v → b = bucket_of v).
Proof.
  intros Hn Hfew. pose proof (proj1 (Forall_app _ _ _) Hn) as [Hvs Hws].
  assert (few vs ∧ few ws) as [Fv Fw] by (unfold few in *; rewrite length_app in Hfew; lia).
  destruct (Add_all_counts vs h Hvs Fv) as (h1 & E1 & C1). destruct (Add_all_counts ws g Hws Fw) as (h2 & E2 & C2).
  destruct (Merge_counts vs ws h1 h2 C1 C2 Hfew) as (h3 & E3 & C3).
  exists h1, h2, h3. split_and!; [done..|by apply sum_bucket_counts|].
  intros v Hv. rewrite Forall_forall in Hn. pose proof (Hn v Hv) as Nv. split; [by apply bucket_of_spec|].
  intros b Hb. by apply bucket_of_unique.
Qed.

(** C39: A percentile of a histogram always has a result.  Of a histogram of fewer than
    2^53 numbers, at least one, it lies between [min_] and [max_] unless it is NaN, and it
    is not NaN when the threshold is a positive finite number; the median in particular is
    always in the range.  Of a histogram without numbers the median is NaN, while the
    average and the standard deviation are zero. *)
Theorem Histogram_percentile_range (h : Histogram) (vs : list double) (p : double) :
  Forall is_number vs → few vs →
  ∃ h', Add_all vs h = Some h' ∧
    (∃ r, Percentile h' p = Some r ∧
      (vs ≠ [] → r = S754_nan ∨ (dle (min_ h') r ∧ dle r (max_ h')))) ∧
    (vs ≠ [] →
      (∃ r, Median h' = Some r ∧ dle (min_ h') r ∧ dle r (max_ h')) ∧
      let t := dmul (num_ h') (ddiv p (dint 100)) in
      finite t = true → SFleb t (S754_zero false) = false →
      ∃ r, Percentile h' p = Some r ∧ dle (min_ h') r ∧ dle r (max_ h')) ∧
    (vs = [] → Median h' = Some S754_nan ∧ Average h' = S754_zero false ∧ StandardDeviation h' = S754_zero false).
Proof.
  intros Hvs Hfew. destruct (Add_all_counts vs h Hvs Hfew) as (h' & E & Hc). exists h'.
  split; [done|]. split; [by eapply Percentile_range|]. split.
  - intros Hne. split; [by eapply Median_number|]. intros t Ht Hpos. by eapply Percentile_number.
  - intros ->. unfold Add_all in E. simpl in E. rewrite Clear_cleared in E. injection E as <-.
    split; [exact median_cleared|done].
Qed.

(** ** Witnesses *)

Definition unset : Histogram :=
  {| min_ := S754_nan; max_ := S754_nan; num_ := S754_nan; sum_ := S754_nan; sum_squares_ := S754_nan; buckets_ := [] |}.

Lemma Histogram_counts_witness :
  ∃ h1 h2 h3, Add_all [dint 3; dint 1000] unset = Some h1 ∧ Add_all [dint 3] unset = Some h2 ∧
    Histogram_Merge h2 h1 = Some h3 ∧ counts [dint 3; dint 1000; dint 3] h3.
Proof.
  destruct (Histogram_counts unset unset [dint 3; dint 1000] [dint 3]) as (h1 & h2 & h3 & H1 & H2 & H3 & _ & _ & Hc & _);
    [repeat constructor; discriminate|reflexivity|].
  by exists h1, h2, h3.
Defined.

Lemma Histogram_percentile_range_witness :
  ∃ h' r, Add_all [dint 3; dint 1000] unset = Some h' ∧ Median h' = Some r ∧ dle (min_ h') r ∧ dle r (max_ h').
Proof.
  destruct (Histogram_percentile_range unset [dint 3; dint 1000] (dint 99)) as (h' & E & _ & H & _);
    [repeat constructor; discriminate|reflexivity|].
  destruct H as [(r & Hr) _]; [discriminate|]. by exists h', r.
Defined.
